(* ===== verification/_CoqProject ===== *)
-Q . S2P
Prelude.v
Text.v
Decimal.v
Domain.v
Records.v
Billing.v
Cost.v
Json.v
Journal.v
Disk.v
Spool.v
Frames.v
Slots.v
Recovery.v
Ingest.v
Pipeline.v
Capacity.v
LogExamples.v
Usage.v
ErrorText.v
Sse.v
SseFrames.v
JsonScan.v
Collector.v
Collection.v
CollectionExamples.v
Headers.v
JsonPatch.v
Plans.v
Transform.v
Envelope.v
SseTransform.v
TransformExamples.v
RequestPolicy.v
Outbound.v
OutboundExamples.v
Pattern.v
Multipart.v
ImageBody.v
ImageEdit.v
ImageRequest.v
PluginBody.v
ImageExamples.v
Compiled.v
Admission.v
Health.v
Selection.v
Affinity.v
Routing.v
Publish.v
Authorization.v
Gateway.v
Keyword.v
Outcome.v
Completion.v
Adapter.v
Relay.v
Delivery.v
Respond.v
Attempts.v
Intake.v
Models.v
ProxyExamples.v
