(* ===== verification/Prelude.v ===== *)
(** * ai-gateway: verification of the data plane

    ai-gateway is a self-hosted gateway for OpenAI-compatible requests.  The
    control plane stores channels, groups, model rules, keys, templates and
    prices in a database; a publication compiles the rows into an immutable
    snapshot.  For each request the data plane checks the client's body and
    headers against an allowlist, admits the request under the limits of its
    key, selects a channel, rewrites the request for it, relays the response
    while it observes the token usage, computes a price, and appends one record
    to a durable log that a worker moves into the database.

    This library models those parts as Rocq functions and step relations and
    proves what each part promises.  Paths below are relative to the crate.

    ** Files

    Foundations.  [Prelude] (machine integers, durations, results and loops,
    tactics and hints), [Text] (the [str] and [u8] methods of the standard
    library), [Decimal] (the interface of [rust_decimal]), [Json] and
    [JsonPatch] (values, RFC 6901 and 6902), [Headers] (the [http] crate).

    Publication.  [Domain] models [domain/api_format.rs], [api_operation.rs],
    [channel_capability.rs] and [connector.rs]; [Records] the rows of
    [persistence/postgres_control_plane.rs]; [Compiled] the snapshot of
    [domain/compiled_routing.rs]; [Publish] the compiler of
    [runtime_config/mod.rs] for groups, rules and keys.  [Authorization] proves
    that the authorization bits of a published key say exactly what its row
    grants and that no publication panics.

    Selection.  [Admission] models [admission/mod.rs]; [Health], [Selection],
    [Affinity] and [Routing] model [routing/mod.rs]: the atomic health words of
    a channel, the weighted draw, the session cache and the selection handlers
    with their leases.  [Gateway] composes them with publication: a request is
    routed only to a channel that the row of its key grants.

    The request.  [RequestPolicy] models [request_policy.rs]; [Plans] the
    compiler of transform documents and the layers of [transforms/mod.rs];
    [Transform] their application to headers, bodies and events; [SseTransform]
    the stream transformer.  [Outbound] models the preparation of an HTTP
    attempt in [application/proxy.rs] and [application/connector.rs].
    [Envelope] holds the end-to-end properties of the transforms.

    Image edits.  [Pattern], [Multipart], [ImageBody], [ImageEdit],
    [ImageRequest] and [PluginBody] model [application/request_body.rs]: the
    multipart guard, spooling to temporary files, the inspection of the parts
    and the bodies that are rebuilt for an upstream or projected for a plugin.

    The life of a request, all in [application/proxy.rs].  [Intake] reads and
    checks a request and dispatches it ([proxy_authenticated_parts]);
    [Attempts] is its loop over channels and retries; [Respond] answers with an
    upstream response ([response_from_upstream]); [Relay] is the stream of its
    body ([timed_upstream_stream]) and [Delivery] what the client reads of it;
    [Outcome] the errors and outcomes; [Completion] the guard that settles a
    request ([CompletionGuard]).  The guard's calls on leases, admission, log
    and automatic disabling are a list of effects, and a request is the effects
    of all its parts until the client stops reading.  [Keyword] models the
    matcher of [application/channel_automation.rs], [Adapter] the adapters of
    [application/response_adapter.rs] and of [crates/connector-sdk], [Models]
    authentication and the model list.

    The response.  [Usage], [ErrorText], [Sse], [JsonScan] and [Collector] model
    [application/usage.rs] and [crates/connector-sdk/src/usage.rs]; [SseFrames]
    and [Collection] hold their properties.

    Accounting.  [Billing] models [domain/billing.rs] and [Cost]
    [application/billing.rs]; [Journal], [Disk], [Spool] and [Ingest] model
    [request_log_journal.rs], [request_log_spool.rs],
    [request_log_admission.rs] and the ingest worker of
    [workers/durable_request_log.rs] as programs over a disk on which every call
    can fail and the process can die.  [Frames], [Slots], [Recovery],
    [Pipeline] and [Capacity] prove them correct.

    [LogExamples], [CollectionExamples], [TransformExamples],
    [OutboundExamples], [ImageExamples] and [ProxyExamples] instantiate the interfaces and run the definitions on
    concrete inputs.

    ** What the theorems show

    - Permissions: [selected_route_granted], [key_authorization_exact],
      [published_rules_exact], [publication_never_panics]; the model list is
      exactly what a key can request ([listed_models_exact]).
    - The life of a request ([request_lifecycle], from [attempts_accounted],
      [response_accounted] and [relay_settles]): whatever connectors, upstreams,
      plugins and the client do, the admission is closed once, each lease is
      dropped once, and at most one event is recorded, with the status the
      client received.  The attempts end, are bounded and go to different
      granted candidates ([attempts_bounded]); every poll of a body ends
      ([poll_terminates]).
    - What the client receives: the body of the upstream or its transformed
      frames ([body_delivered_exact]), its end-to-end headers
      ([answer_headers_exact]), and from an adapter only events that keep what a
      plugin may not change ([adapted_events_safe], [event_round_trip]).
    - What reaches an upstream: its own credential and never the client's
      ([upstream_headers_safe]), the selected model ([upstream_model_exact]),
      only listed fields ([client_body_policy_exact]); image edits keep exactly
      the allowed parts ([image_edit_upstream_exact], [multipart_guard_exact]).
    - Transforms: accepted documents cannot touch the model, the stream flag,
      reserved headers or the envelope of an event, and layers apply in order.
    - Streams: usage and transforms do not depend on how a response is cut into
      chunks ([stream_chunks_irrelevant], [stream_frames_exact]), nor do the
      keywords found in an error body ([keyword_search_exact]).
    - Limits: admission refines a specification of fixed windows and in-flight
      counts; leases are accounted exactly; half-open probes are exclusive; the
      affinity cache and the spool stay within their capacities.
    - Durability: after any history of faults and crashes every acknowledged
      event is in the database or is read at the next start.
    - Theorems that exhibit a fault of the code are named for it:
      [cost_overflow_reachable], [usage_depends_on_chunks],
      [journal_panics_on_non_objects], [torn_slot_header_fails_recovery],
      [power_loss_can_refuse_restart], [mixed_line_ends_merge_events],
      [unavailable_connector_misreported].

    ** Conventions

    A Rust [Result] is [result], an [Option] is [option]; a panic is [None] or a
    separate constructor ([Panicked], [outcome]).  A function that mutates its
    argument returns the new value.  Operations under a mutex are atomic steps,
    atomics are interleaved one access at a time.  A definition that models a
    loop body or a branch of a function is documented at that function.

    Third-party code is a class with its documented laws: decimals
    ([DecimalLaws]), the JSON reader and printer ([JsonText], [RawJson],
    [JsonReadBack]), [HeaderLaws], [PatchLaws], serde ([EventSerdeLaws]), CRC
    and UUIDs ([SpoolDeps]), the multipart reader ([Multer]), [Base64], Unicode
    case tables ([UnicodeCase]), [Chrono] and the reader of plugin answers
    ([ResponseReader]).  A loaded plugin is [UsagePlugin].  Each class has an instance in an example file.

    Fuel.  Loops over a text recurse on its length: lines, fields and frames
    each consume at least a byte.  [scan_frames] runs with the length of the
    file, a drain of the stream transformer with the length of the chunk plus
    three, the binary search with the length of the list.  The theorems are
    about the definitions at that fuel, and lemmas show that more changes
    nothing.  A poll of a body has one turn more than [turns_left], which is
    enough by [poll_terminates]; the attempts have a turn per candidate of the
    rule, which is enough by [attempts_bounded].  The rejection sampling of [weighted_ticket] is proved to terminate
    because the entropy has full period.

    Assumptions of the models: a file is at most 2^63 - 1 bytes and a write of
    the 16-byte slot header is atomic; a request ends once; mutexes are not
    poisoned; a [HeaderMap] does not exceed its capacity; printing a JSON value
    succeeds.  Power loss, as opposed to the death of the process, is outside
    the durability theorem and is the subject of a theorem of its own.  The
    stream usage theorem covers frames within the scanner's 8 MiB, and the event
    envelope theorem covers frames without a bare carriage return.  The readings
    of the clock, the answers of the routing runtime to the selections of one
    request, the connectors and the upstreams are arguments of the handler; the
    keyword theorem covers text without a capital sigma.

    ** Not modelled

    SQL (PostgreSQL and SQLite stores, migrations and cutovers), the Console
    API and its sessions, network clients and servers, WebSocket sessions and
    their pool, connector plugins and Codex, background workers other than spool
    ingestion, metrics and tracing.  They are input and output around the parts
    above, or code whose behaviour is that of a database, a socket or a loaded
    library.  In the handler the operations of a prepared attempt are those of
    the built-in connector or arguments, and bodies are JSON: image edits are
    modelled as bodies but not composed with the loop.  Of the system settings
    the parts that a request reads are modelled; the channel part of the
    snapshot compiler is not. *)

From stdpp Require Export base numbers list list_numbers sorting gmap strings.
From Stdlib Require Export Lia.

#[global] Open Scope Z_scope.

(** ** Machine integers

    Rust integers are modelled by [Z] with the width written out where the
    source saturates, wraps or checks. *)

Definition u8_max : Z := 255.
Definition u16_max : Z := 65535.
Definition u32_max : Z := 4294967295.
Definition u64_max : Z := 18446744073709551615.
Definition i64_max : Z := 9223372036854775807.

(** [saturating_add] / [saturating_sub] of an unsigned type with maximum [m]. *)
Definition sat_add (m a b : Z) : Z := Z.min m (a + b).
Definition sat_sub (a b : Z) : Z := Z.max 0 (a - b).

(** [wrapping_add] and [wrapping_mul] of [u64]. *)
Definition wrap64 (z : Z) : Z := z mod 2 ^ 64.

(** Values of [u64]. *)
Definition word64 (v : Z) : Prop := 0 ≤ v < 2 ^ 64.

(** ** Durations

    A [std::time::Duration] is a number of nanoseconds; its largest value is
    [u64::MAX] seconds and 999_999_999 nanoseconds. *)

Definition nanos_per_sec : Z := 1000000000.
Definition nanos_per_milli : Z := 1000000.
Definition duration_max : Z := u64_max * nanos_per_sec + 999999999.
Definition from_secs (s : Z) : Z := s * nanos_per_sec.

(** [Duration + Duration] panics on overflow: [None]. *)
Definition duration_add (a b : Z) : option Z :=
  if a + b <=? duration_max then Some (a + b) else None.

(** [Duration::as_secs], [subsec_nanos], [as_millis]. *)
Definition as_secs (d : Z) : Z := d / nanos_per_sec.
Definition subsec_nanos (d : Z) : Z := d mod nanos_per_sec.
Definition as_millis (d : Z) : Z := d / nanos_per_milli.

(** 128-bit identifiers; the code compares them, orders them and uses them as
    map keys. *)
Abbreviation uuid := N (only parsing).

(** ** Results of fallible operations *)

Inductive result (A E : Type) : Type :=
| Ok (a : A)
| Err (e : E).
Arguments Ok {A E} a.
Arguments Err {A E} e.

Definition result_bind {A B E} (r : result A E) (k : A → result B E) : result B E :=
  match r with Ok a => k a | Err e => Err e end.

Declare Scope gateway_scope.
Delimit Scope gateway_scope with gw.
Notation "x <-! r ; k" := (result_bind r (λ x, k))
  (at level 20, r at level 100, k at level 200, right associativity) : gateway_scope.

Definition ok_or {A E} (o : option A) (e : E) : result A E :=
  match o with Some a => Ok a | None => Err e end.

(** ** Loops and runs that can fail *)

#[local] Open Scope gateway_scope.

(** A [for] loop whose body can fail. *)
Fixpoint try_fold {A B E} (f : B → A → result B E) (b : B) (l : list A) : result B E :=
  match l with
  | [] => Ok b
  | a :: l => b <-! f b a; try_fold f b l
  end.

(** [collect::<Result<Vec<_>, _>>]: the first error, or every value. *)
Section try_map.
Context {A B E : Type} (f : A → result B E).
Fixpoint try_map (l : list A) : result (list B) E :=
  match l with
  | [] => Ok []
  | a :: l => b <-! f a; bs <-! try_map l; Ok (b :: bs)
  end.
End try_map.

Lemma result_bind_Ok {A B E} (r : result A E) (k : A → result B E) b :
  result_bind r k = Ok b ↔ ∃ a, r = Ok a ∧ k a = Ok b.
Proof. destruct r; simpl; naive_solver. Qed.

Lemma ok_or_Ok {A E} (o : option A) (e : E) a : ok_or o e = Ok a ↔ o = Some a.
Proof. destruct o; simpl; naive_solver. Qed.

(** An invariant of a loop that does not fail. *)
Lemma try_fold_inv {A B E} (P : B → Prop) (f : B → A → result B E) b l b' :
  (∀ b a b', P b → f b a = Ok b' → P b') → P b → try_fold f b l = Ok b' → P b'.
Proof.
  intros Hf. revert b. induction l as [|a l IH]; simpl; intros b Hb; [by intros [= <-]|].
  intros (b1 & H1 & H2)%result_bind_Ok. eauto.
Qed.

Lemma try_fold_app {A B E} (f : B → A → result B E) b l1 l2 :
  try_fold f b (l1 ++ l2) = (b <-! try_fold f b l1; try_fold f b l2).
Proof. revert b. induction l1 as [|a l1 IH]; intros b; simpl; [done|]. destruct (f b a); simpl; auto. Qed.

(** ** Option predicates of the Rust standard library *)

Definition is_some_and {A} (o : option A) (p : A → bool) : bool :=
  match o with Some a => p a | None => false end.
Definition is_none_or {A} (o : option A) (p : A → bool) : bool :=
  match o with Some a => p a | None => true end.

(** ** Automation *)

Create HintDb gateway.

(** Turn boolean comparisons in the context into propositions. *)
Ltac breflect :=
  repeat match goal with
  | H : (_ <=? _) = true |- _ => apply Z.leb_le in H
  | H : (_ <=? _) = false |- _ => apply Z.leb_gt in H
  | H : (_ <? _) = true |- _ => apply Z.ltb_lt in H
  | H : (_ <? _) = false |- _ => apply Z.ltb_ge in H
  | H : (_ =? _) = true |- _ => apply Z.eqb_eq in H
  | H : (_ =? _) = false |- _ => apply Z.eqb_neq in H
  | H : (_ =? _)%nat = true |- _ => apply Nat.eqb_eq in H
  | H : (_ =? _)%nat = false |- _ => apply Nat.eqb_neq in H
  | H : (_ <=? _)%nat = true |- _ => apply Nat.leb_le in H
  | H : (_ <=? _)%nat = false |- _ => apply Nat.leb_gt in H
  | H : (_ && _)%bool = true |- _ => apply andb_true_iff in H; destruct H
  | H : (_ || _)%bool = false |- _ => apply orb_false_iff in H; destruct H
  | H : negb _ = true |- _ => apply negb_true_iff in H
  | H : negb _ = false |- _ => apply negb_false_iff in H
  | H : bool_decide _ = true |- _ => apply bool_decide_eq_true in H
  | H : bool_decide _ = false |- _ => apply bool_decide_eq_false in H
  end.

(** Decompose a run that did not fail. *)
Ltac inv_ok :=
  repeat match goal with
  | H : result_bind _ _ = Ok _ |- _ => apply result_bind_Ok in H as (? & ? & H)
  | H : ok_or _ _ = Ok _ |- _ => apply ok_or_Ok in H
  | H : (if ?c then Err _ else _) = Ok _ |- _ => destruct c eqn:?; [discriminate H|]
  | H : (if ?c then _ else Err _) = Ok _ |- _ => destruct c eqn:?; [|discriminate H]
  | H : Ok _ = Ok _ |- _ => injection H as H
  | H : Err _ = Ok _ |- _ => discriminate H
  end.

(** Case analysis on every [if] and [match] of the goal. *)
Ltac split_cases := repeat (case_match; simplify_eq/=).

Ltac unfold_ints :=
  unfold sat_add, sat_sub, u8_max, u16_max, u32_max, u64_max, i64_max in *.

(** ** Sums over lists *)

Section sum_over.
Context {A : Type}.
Implicit Types (f g : A → Z) (l : list A).

Fixpoint sum_over f l : Z :=
  match l with [] => 0 | a :: l' => f a + sum_over f l' end.

Lemma sum_over_app f l1 l2 : sum_over f (l1 ++ l2) = sum_over f l1 + sum_over f l2.
Proof. induction l1; simpl; lia. Qed.

Lemma sum_over_ext f g l : (∀ a, a ∈ l → f a = g a) → sum_over f l = sum_over g l.
Proof.
  induction l as [|a l IH]; simpl; [done|]; intros H.
  rewrite (H a), IH; set_solver.
Qed.

Lemma sum_over_plus f g l :
  sum_over (λ a, f a + g a) l = sum_over f l + sum_over g l.
Proof. induction l; simpl; lia. Qed.

Lemma sum_over_scale c f l : sum_over (λ a, c * f a) l = c * sum_over f l.
Proof. induction l; simpl; lia. Qed.

Lemma sum_over_le f g l :
  (∀ a, a ∈ l → f a ≤ g a) → sum_over f l ≤ sum_over g l.
Proof.
  induction l as [|a l IH]; simpl; intros H; [lia|].
  pose proof (H a ltac:(set_solver)). enough (sum_over f l ≤ sum_over g l) by lia.
  apply IH. set_solver.
Qed.

Lemma sum_over_nonneg f l : (∀ a, a ∈ l → 0 ≤ f a) → 0 ≤ sum_over f l.
Proof.
  induction l as [|a l IH]; simpl; intros H; [lia|].
  pose proof (H a ltac:(set_solver)). enough (0 ≤ sum_over f l) by lia.
  apply IH. set_solver.
Qed.

Lemma sum_over_elem f l a :
  (∀ b, b ∈ l → 0 ≤ f b) → a ∈ l → f a ≤ sum_over f l.
Proof.
  induction l as [|b l IH]; intros H Ha; [set_solver|]; simpl.
  pose proof (H b ltac:(set_solver)).
  assert (0 ≤ sum_over f l) by (apply sum_over_nonneg; set_solver).
  apply elem_of_cons in Ha as [->|Ha]; [lia|].
  enough (f a ≤ sum_over f l) by lia. apply IH; set_solver.
Qed.

(** Two equal sums of pointwise ordered terms are pointwise equal. *)
Lemma sum_over_squeeze f g l :
  (∀ a, a ∈ l → f a ≤ g a) → sum_over f l = sum_over g l →
  ∀ a, a ∈ l → f a = g a.
Proof.
  induction l as [|b l IH]; intros Hle Heq a Ha; [set_solver|]; simpl in *.
  pose proof (Hle b ltac:(set_solver)).
  assert (sum_over f l ≤ sum_over g l) by (apply sum_over_le; set_solver).
  apply elem_of_cons in Ha as [->|Ha]; [lia|].
  apply IH; [set_solver|lia|done].
Qed.
End sum_over.

Lemma sum_over_fmap {A B} (g : B → A) (f : A → Z) l :
  sum_over f (g <$> l) = sum_over (λ b, f (g b)) l.
Proof. induction l as [|b l IH]; [done|]. rewrite fmap_cons. simpl. lia. Qed.

Lemma sum_over_const {A} (m : Z) (l : list A) : sum_over (λ _, m) l = m * Z.of_nat (length l).
Proof. induction l; simpl; lia. Qed.

Lemma sum_over_seqZ_shift f a n :
  sum_over f (seqZ a n) = sum_over (λ t, f (a + t)) (seqZ 0 n).
Proof. rewrite <- (Z.add_0_r a) at 1. by rewrite <- fmap_add_seqZ, sum_over_fmap. Qed.

(** Every residue occurs equally often below a multiple of the modulus. *)
Lemma sum_over_residues g n (q : nat) :
  0 < n → sum_over (λ v, g (v mod n)) (seqZ 0 (Z.of_nat q * n)) = Z.of_nat q * sum_over g (seqZ 0 n).
Proof.
  intros Hn. induction q as [|q IH]; [done|].
  replace (Z.of_nat (S q) * n) with (Z.of_nat q * n + n) by lia.
  rewrite seqZ_app, sum_over_app, IH, (sum_over_seqZ_shift _ (0 + Z.of_nat q * n)) by nia.
  enough (sum_over (λ t, g ((0 + Z.of_nat q * n + t) mod n)) (seqZ 0 n) = sum_over g (seqZ 0 n))
    by nia. apply sum_over_ext. intros t Ht%elem_of_seqZ. f_equal. rewrite Z.add_0_l, Z.add_comm, Z.mod_add by lia.
  apply Z.mod_small. lia.
Qed.

Lemma omap_length {A B} (f : A → option B) l : (length (omap f l) ≤ length l)%nat.
Proof. induction l as [|x l IH]; csimpl; [lia|]. destruct (f x); csimpl; lia. Qed.

(** Distinct integers in an interval: no more than its length. *)
Lemma NoDup_interval_length (l : list Z) a b :
  NoDup l → a ≤ b → (∀ x, x ∈ l → a ≤ x < b) → Z.of_nat (length l) ≤ b - a.
Proof.
  intros Hnd Hab Hin. assert (l ⊆+ seqZ a (b - a)) as Hsub.
  { apply NoDup_submseteq; [done|]. intros x Hx%Hin. apply elem_of_seqZ. lia. }
  apply submseteq_length in Hsub. rewrite length_seqZ in Hsub. lia.
Qed.

#[export] Hint Resolve sum_over_nonneg sum_over_elem : gateway.

(** Number of occurrences. *)
Definition occurrences {A} `{EqDecision A} (x : A) (l : list A) : Z :=
  sum_over (λ y, if decide (y = x) then 1 else 0) l.

Lemma occurrences_nonneg {A} `{EqDecision A} (x : A) l : 0 ≤ occurrences x l.
Proof. apply sum_over_nonneg. intros. case_decide; lia. Qed.

Lemma occurrences_le_length {A} `{EqDecision A} (x : A) l :
  occurrences x l ≤ Z.of_nat (length l).
Proof. unfold occurrences. induction l; simpl; [lia|]. case_decide; lia. Qed.

Lemma occurrences_pos {A} `{EqDecision A} (x : A) l : x ∈ l → 0 < occurrences x l.
Proof.
  unfold occurrences. induction l as [|y l IH]; intros Hx; [set_solver|]; simpl.
  pose proof (occurrences_nonneg x l) as Hn; unfold occurrences in Hn.
  apply elem_of_cons in Hx as [->|Hx].
  - rewrite decide_True by done. lia.
  - specialize (IH Hx). case_decide; lia.
Qed.

Lemma occurrences_cons {A} `{EqDecision A} (x y : A) l :
  occurrences x (y :: l) = (if decide (y = x) then 1 else 0) + occurrences x l.
Proof. done. Qed.

Lemma sum_indicator {A} `{EqDecision A} (x : A) (l : list A) :
  NoDup l → x ∈ l → sum_over (λ y, if decide (x = y) then 1 else 0) l = 1.
Proof.
  induction l as [|y l IH]; simpl; intros Hnd Hin; [by apply elem_of_nil in Hin|].
  apply NoDup_cons in Hnd as [Hy Hnd]. case_decide as Heq.
  - subst y. rewrite (sum_over_ext _ (λ _, 0)), sum_over_const; [lia|].
    intros z Hz. rewrite decide_False; [done|]. by intros ->.
  - rewrite IH; [done|done|]. apply elem_of_cons in Hin as [?|]; [congruence|done].
Qed.

(** The elements of [l] are each counted once. *)
Lemma sum_occurrences {A} `{EqDecision A} (l d : list A) :
  NoDup d → (∀ x, x ∈ l → x ∈ d) →
  sum_over (λ y, occurrences y l) d = Z.of_nat (length l).
Proof.
  intros Hnd. induction l as [|x l IH]; intros Hin.
  - unfold occurrences; simpl. rewrite sum_over_const. lia.
  - unfold occurrences in *. simpl. rewrite sum_over_plus, IH, sum_indicator;
      [lia|done|apply Hin; constructor|intros y Hy; apply Hin; by constructor].
Qed.

#[export] Hint Resolve occurrences_nonneg : gateway.
