(* ===== verification/Text.v ===== *)
(** * Byte-level string operations of the Rust standard library

    A Rust [&str] is its UTF-8 byte sequence: [String.string] with one [ascii]
    per byte.  This file holds the [str] and [u8] methods the modelled code
    uses, written on byte lists, and their lemmas. *)

From S2P Require Import Prelude.

Abbreviation bytes_of := String.list_ascii_of_string (only parsing).
Abbreviation string_of := String.string_of_list_ascii (only parsing).

Lemma string_of_bytes_of s : string_of (bytes_of s) = s.
Proof. apply String.string_of_list_ascii_of_string. Qed.
Lemma bytes_of_string_of l : bytes_of (string_of l) = l.
Proof. apply String.list_ascii_of_string_of_list_ascii. Qed.
Lemma length_bytes_of s : length (bytes_of s) = String.length s.
Proof. induction s; simpl; auto. Qed.
Lemma bytes_of_app s t : bytes_of (s +:+ t) = bytes_of s ++ bytes_of t.
Proof. induction s; simpl; f_equal; auto. Qed.
Lemma bytes_of_inj s t : bytes_of s = bytes_of t → s = t.
Proof. intros E. by rewrite <-(string_of_bytes_of s), E, string_of_bytes_of. Qed.

Definition byte (c : Ascii.ascii) : Z := Z.of_N (Ascii.N_of_ascii c).

Definition is_ascii_digit (c : Ascii.ascii) : bool := (48 <=? byte c) && (byte c <=? 57).
Definition is_ascii_lowercase (c : Ascii.ascii) : bool := (97 <=? byte c) && (byte c <=? 122).
Definition is_ascii_uppercase (c : Ascii.ascii) : bool := (65 <=? byte c) && (byte c <=? 90).
Definition is_ascii_alphabetic (c : Ascii.ascii) : bool :=
  is_ascii_lowercase c || is_ascii_uppercase c.
Definition is_ascii_alphanumeric (c : Ascii.ascii) : bool :=
  is_ascii_alphabetic c || is_ascii_digit c.


Definition is_ascii (c : Ascii.ascii) : bool := byte c <? 128.
Definition is_ascii_whitespace (c : Ascii.ascii) : bool :=
  (byte c =? 32) || (byte c =? 9) || (byte c =? 10) || (byte c =? 12) || (byte c =? 13).

Definition to_ascii_lowercase (c : Ascii.ascii) : Ascii.ascii :=
  if is_ascii_uppercase c then Ascii.ascii_of_N (Ascii.N_of_ascii c + 32) else c.

Abbreviation str := (list Ascii.ascii) (only parsing).

(** [str::split(c)] for a one-byte separator: always at least one piece. *)
Fixpoint split_on (sep : Ascii.ascii) (s : str) : list str :=
  match s with
  | [] => [[]]
  | c :: s' =>
      if Ascii.eqb c sep then [] :: split_on sep s'
      else match split_on sep s' with
           | [] => [[c]]
           | w :: ws => (c :: w) :: ws
           end
  end.

Definition contains_byte (c : Ascii.ascii) (s : str) : bool := existsb (Ascii.eqb c) s.

Fixpoint strip_prefix (p s : str) : option str :=
  match p, s with
  | [], _ => Some s
  | c :: p', d :: s' => if Ascii.eqb c d then strip_prefix p' s' else None
  | _ :: _, [] => None
  end.

Definition starts_with (p s : str) : bool :=
  match strip_prefix p s with Some _ => true | None => false end.
Definition ends_with (p s : str) : bool := starts_with (rev p) (rev s).

(** ** Characters of a UTF-8 sequence *)

(** [chars().count()]: every byte that is not a continuation byte starts a
    character. *)
Definition is_continuation (c : Ascii.ascii) : bool := (128 <=? byte c) && (byte c <? 192).
Definition chars_count (s : str) : Z :=
  sum_over (λ c, if is_continuation c then 0 else 1) s.

(** The UTF-8 encodings of the characters with the Unicode property
    [White_Space], the ones [char::is_whitespace] accepts. *)
Definition whitespace_encodings : list (list Z) :=
  [[9]; [10]; [11]; [12]; [13]; [32]; [194; 133]; [194; 160]; [225; 154; 128];
   [226; 128; 128]; [226; 128; 129]; [226; 128; 130]; [226; 128; 131]; [226; 128; 132];
   [226; 128; 133]; [226; 128; 134]; [226; 128; 135]; [226; 128; 136]; [226; 128; 137];
   [226; 128; 138]; [226; 128; 168]; [226; 128; 169]; [226; 128; 175]; [226; 129; 159];
   [227; 128; 128]].

Fixpoint bytes_match (e : list Z) (s : str) : bool :=
  match e, s with
  | [], _ => true
  | z :: e', c :: s' => (byte c =? z) && bytes_match e' s'
  | _ :: _, [] => false
  end.

(** Length of the white-space character at the head of [s], [0] if there is none. *)
Definition leading_whitespace (s : str) : nat :=
  match List.find (λ e, bytes_match e s) whitespace_encodings with
  | Some e => length e
  | None => 0
  end.
Definition trailing_whitespace (s : str) : nat :=
  match List.find (λ e, bytes_match (rev e) (rev s)) whitespace_encodings with
  | Some e => length e
  | None => 0
  end.

(** [trim_start] strips one character per step; [length s] steps are enough
    because each strips at least one byte. *)
Fixpoint trim_start_fuel (fuel : nat) (s : str) : str :=
  match fuel with
  | O => s
  | S fuel' =>
      match leading_whitespace s with
      | O => s
      | n => trim_start_fuel fuel' (drop n s)
      end
  end.
Definition trim_start (s : str) : str := trim_start_fuel (length s) s.

Fixpoint trim_end_fuel (fuel : nat) (s : str) : str :=
  match fuel with
  | O => s
  | S fuel' =>
      match trailing_whitespace s with
      | O => s
      | n => trim_end_fuel fuel' (take (length s - n) s)
      end
  end.
Definition trim_end (s : str) : str := trim_end_fuel (length s) s.
Definition trim (s : str) : str := trim_end (trim_start s).

(** ** JSON Pointer texts *)

(** RFC 6901: reference tokens are printed with [~] as [~0] and [/] as [~1],
    each after a [/]. *)
Definition escape_byte (c : Ascii.ascii) : str :=
  if byte c =? 126 then [Ascii.ascii_of_N 126; Ascii.ascii_of_N 48]
  else if byte c =? 47 then [Ascii.ascii_of_N 126; Ascii.ascii_of_N 49]
  else [c].
Definition encode_pointer (tokens : list str) : str :=
  flat_map (λ t, Ascii.ascii_of_N 47 :: flat_map escape_byte t) tokens.

(** ** Lemmas *)

Lemma byte_inj c d : byte c = byte d → c = d.
Proof.
  unfold byte. intros E%N2Z.inj. by rewrite <-(Ascii.ascii_N_embedding c), E, Ascii.ascii_N_embedding.
Qed.

Lemma is_ascii_digit_range c : is_ascii_digit c = true → 48 ≤ byte c ≤ 57.
Proof. unfold is_ascii_digit. intros; breflect; lia. Qed.

Lemma byte_is c n : (n < 256)%N → byte c = Z.of_N n ↔ c = Ascii.ascii_of_N n.
Proof.
  intros Hn. split; [|intros ->; unfold byte; by rewrite Ascii.N_ascii_embedding].
  intros E. apply byte_inj. rewrite E. unfold byte. by rewrite Ascii.N_ascii_embedding.
Qed.

Lemma strip_prefix_Some p s r : strip_prefix p s = Some r ↔ s = p ++ r.
Proof.
  revert s; induction p as [|c p IH]; intros s; simpl; [naive_solver|].
  destruct s as [|d s]; simpl; [naive_solver|].
  destruct (Ascii.eqb_spec c d) as [->|Hne]; [rewrite IH; naive_solver|naive_solver].
Qed.

Lemma starts_with_true p s : starts_with p s = true ↔ ∃ r, s = p ++ r.
Proof.
  unfold starts_with. destruct (strip_prefix p s) as [r|] eqn:E.
  - apply strip_prefix_Some in E. naive_solver.
  - split; [done|]. intros [r Hr%strip_prefix_Some]. congruence.
Qed.

Lemma ends_with_true p s : ends_with p s = true ↔ ∃ r, s = r ++ p.
Proof.
  unfold ends_with. rewrite starts_with_true. split; intros [r Hr].
  - exists (rev r). rewrite <-(rev_involutive s), Hr, rev_app_distr, rev_involutive. done.
  - exists (rev r). by rewrite Hr, rev_app_distr.
Qed.
