(* ===== verification/Decimal.v ===== *)
(** * Interface of the decimal arithmetic

    Amounts, prices and multipliers are [rust_decimal::Decimal] values.  The
    crate is not part of the repository, so its operations are the fields of
    the class [DecimalOps], and what the gateway relies on is stated as the
    laws of [DecimalLaws].  Arithmetic that the crate checks or that panics on
    overflow returns an [option].  The bounded integers of [decimal_int]
    satisfy every law. *)

From S2P Require Import Prelude.

Class DecimalOps (D : Type) : Type := {
  dec_zero : D;                          (** [Decimal::ZERO] *)
  dec_one : D;                           (** [Decimal::ONE] *)
  dec_leb : D → D → bool;                (** the total order [<=] *)
  dec_is_sign_negative : D → bool;       (** [is_sign_negative] *)
  dec_checked_mul : D → D → option D;    (** [checked_mul]; [*] panics on [None] *)
  dec_checked_add : D → D → option D;    (** [checked_add]; [+] panics on [None] *)
  dec_checked_div : D → D → option D;    (** [checked_div]; [/] panics on [None] *)
  dec_of_i64 : Z → D;                    (** [Decimal::from(i64)] *)
  dec_of_i128_with_scale : Z → Z → D;    (** [Decimal::from_i128_with_scale] *)
  dec_round_dp : D → Z → D;              (** [round_dp] *)
}.

Definition dec_ltb {D} `{DecimalOps D} (a b : D) : bool := negb (dec_leb b a).

(** [Ord::max] returns its second argument when the two are equal. *)
Definition dec_max {D} `{DecimalOps D} (a b : D) : D :=
  if dec_ltb b a then a else b.

Class DecimalLaws (D : Type) `{DecimalOps D} : Prop := {
  dec_leb_refl (a : D) : dec_leb a a = true;
  dec_leb_trans (a b c : D) :
    dec_leb a b = true → dec_leb b c = true → dec_leb a c = true;
  dec_leb_total (a b : D) : dec_leb a b = true ∨ dec_leb b a = true;
  dec_zero_le_one : dec_leb dec_zero dec_one = true;
  (** a value without the negative sign is not below zero *)
  dec_sign_nonneg (a : D) :
    dec_is_sign_negative a = false → dec_leb dec_zero a = true;
  (** multiplication by one is exact *)
  dec_mul_one_r (a : D) :
    dec_leb dec_zero a = true →
    ∃ b, dec_checked_mul a dec_one = Some b ∧ dec_leb b a = true ∧ dec_leb a b = true;
  (** on non-negative operands, rounding is monotone and overflow is decided
      by magnitude *)
  dec_mul_mono (a a' b b' c' : D) :
    dec_leb dec_zero a = true → dec_leb a a' = true →
    dec_leb dec_zero b = true → dec_leb b b' = true →
    dec_checked_mul a' b' = Some c' →
    ∃ c, dec_checked_mul a b = Some c ∧ dec_leb dec_zero c = true ∧ dec_leb c c' = true;
  (** rounding to decimal places is monotone and fixes zero *)
  dec_round_mono (a b : D) n :
    dec_leb a b = true → dec_leb (dec_round_dp a n) (dec_round_dp b n) = true;
  dec_round_zero n : dec_leb dec_zero (dec_round_dp dec_zero n) = true;
}.

Section order.
Context {D : Type} `{DecimalLaws D}.
Implicit Types a b c : D.

Lemma dec_ltb_le a b : dec_ltb a b = true → dec_leb a b = true.
Proof.
  unfold dec_ltb. intros Hn%negb_true_iff.
  destruct (dec_leb_total a b); congruence.
Qed.

Lemma dec_ltb_false_le a b : dec_ltb a b = false ↔ dec_leb b a = true.
Proof. unfold dec_ltb. apply negb_false_iff. Qed.

Lemma dec_max_l a b : dec_leb a (dec_max a b) = true.
Proof.
  unfold dec_max. destruct (dec_ltb b a) eqn:E; [apply dec_leb_refl|].
  by apply dec_ltb_false_le.
Qed.

Lemma dec_max_r a b : dec_leb b (dec_max a b) = true.
Proof.
  unfold dec_max. destruct (dec_ltb b a) eqn:E; [by apply dec_ltb_le|].
  apply dec_leb_refl.
Qed.

Lemma dec_max_lub a b c :
  dec_leb a c = true → dec_leb b c = true → dec_leb (dec_max a b) c = true.
Proof. unfold dec_max. by destruct (dec_ltb b a). Qed.

Lemma dec_le_max a b c :
  dec_leb c (dec_max a b) = true ↔ dec_leb c a = true ∨ dec_leb c b = true.
Proof.
  split.
  - unfold dec_max. destruct (dec_ltb b a); auto.
  - intros [Hc|Hc]; eapply dec_leb_trans; eauto using dec_max_l, dec_max_r.
Qed.
End order.

#[export] Hint Resolve dec_leb_refl dec_max_l dec_max_r dec_max_lub dec_ltb_le : gateway.

(** ** A model of the laws: integers of at most 96 bits *)

Definition dec_int_max : Z := 2 ^ 96 - 1.
Definition dec_int_check (z : Z) : option Z :=
  if (Z.abs z <=? dec_int_max) then Some z else None.

#[export] Instance decimal_int : DecimalOps Z := {
  dec_zero := 0;
  dec_one := 1;
  dec_leb := Z.leb;
  dec_is_sign_negative z := z <? 0;
  dec_checked_mul a b :=
    if (b =? 1) then Some a else dec_int_check (a * b);
  dec_checked_add a b := dec_int_check (a + b);
  dec_checked_div a b := if b =? 0 then None else Some (Z.quot a b);
  dec_of_i64 z := z;
  dec_of_i128_with_scale z s := Z.quot z (10 ^ s);
  dec_round_dp z _ := z;
}.

#[export] Instance decimal_int_laws : DecimalLaws Z.
Proof.
  split; unfold dec_leb; simpl; intros.
  - apply Z.leb_refl.
  - rewrite Z.leb_le in *; lia.
  - rewrite !Z.leb_le; lia.
  - done.
  - breflect. apply Z.leb_le; lia.
  - exists a. rewrite Z.leb_refl. auto.
  - rewrite !Z.leb_le in *. unfold dec_int_check in *.
    destruct (Z.eqb_spec b 1) as [->|Hb]; destruct (Z.eqb_spec b' 1) as [->|Hb']; simplify_eq/=.
    + exists a. rewrite !Z.leb_le. auto.
    + exists a. case_match; simplify_eq. rewrite !Z.leb_le. repeat split; [done|nia].
    + assert (b = 0) as -> by lia. exists 0. rewrite Z.mul_0_r. simpl. split; [done|].
      rewrite !Z.leb_le. lia.
    + case_match; simplify_eq. breflect. exists (a * b).
      assert (0 ≤ a * b ≤ a' * b') by nia.
      rewrite (proj2 (Z.leb_le _ _)) by lia. rewrite !Z.leb_le. auto with lia.
  - done.
  - done.
Qed.
