(* ===== verification/Domain.v ===== *)
(** * Domain vocabulary

    Models [src/domain/api_format.rs], [api_operation.rs],
    [channel_capability.rs], [connector.rs] and the request protocol of
    [request_log.rs]: API formats and operations, the transports of an
    operation, connector identifiers, request compression and the validation of
    capability settings. *)

From S2P Require Import Prelude Text Decimal.

(** ** API formats and operations *)

Module ApiFormat.
Inductive t := OpenAiChatCompletions | OpenAiResponses | OpenAiImages.

#[global] Instance eq_dec : EqDecision t.
Proof. solve_decision. Defined.

Definition as_str (f : t) : string :=
  match f with
  | OpenAiChatCompletions => "open_ai_chat_completions"
  | OpenAiResponses => "open_ai_responses"
  | OpenAiImages => "open_ai_images"
  end.

Definition parse (value : string) : option t :=
  if String.eqb value "open_ai_chat_completions" then Some OpenAiChatCompletions
  else if String.eqb value "open_ai_responses" then Some OpenAiResponses
  else if String.eqb value "open_ai_images" then Some OpenAiImages
  else None.
End ApiFormat.

Module CapabilityTransport.
Inductive t := HttpJson | HttpSse | Websocket | Multipart.
#[global] Instance eq_dec : EqDecision t.
Proof. solve_decision. Defined.
End CapabilityTransport.

Module RequestProtocol.
Inductive t := NonStream | Sse | WebSocket.
#[global] Instance eq_dec : EqDecision t.
Proof. solve_decision. Defined.

Definition from_http_streamed (streamed : bool) : t := if streamed then Sse else NonStream.
Definition as_str (p : t) : string :=
  match p with NonStream => "non_stream" | Sse => "sse" | WebSocket => "websocket" end.
Definition is_streamed (p : t) : bool := negb (bool_decide (p = NonStream)).
End RequestProtocol.

Module ApiOperation.
Inductive t :=
| ChatCompletions | Responses | ResponsesWebSocket | StandaloneWebSearch
| ImagesGeneration | ImagesEdit.

#[global] Instance eq_dec : EqDecision t.
Proof. solve_decision. Defined.

Definition all : list t :=
  [ChatCompletions; Responses; ResponsesWebSocket; StandaloneWebSearch;
   ImagesGeneration; ImagesEdit].

Definition index (o : t) : nat :=
  match o with
  | ChatCompletions => 0 | Responses => 1 | ResponsesWebSocket => 2
  | StandaloneWebSearch => 3 | ImagesGeneration => 4 | ImagesEdit => 5
  end%nat.
#[global] Instance countable : Countable t.
Proof.
  apply (inj_countable index (λ n, all !! n)). by intros [].
Defined.

Definition normalize_stored_name (name protocol : string) : string :=
  if String.eqb name "chat_completions" then "chat_completion"
  else if String.eqb name "standalone_web_search" then "web_search"
  else if String.eqb name "responses" && String.eqb protocol "websocket"
  then "responses-ws"
  else name.

Definition api_format (o : t) : ApiFormat.t :=
  match o with
  | ChatCompletions => ApiFormat.OpenAiChatCompletions
  | Responses | ResponsesWebSocket | StandaloneWebSearch => ApiFormat.OpenAiResponses
  | ImagesGeneration | ImagesEdit => ApiFormat.OpenAiImages
  end.

Definition as_str (o : t) : string :=
  match o with
  | ChatCompletions => "chat_completion"
  | Responses => "responses"
  | ResponsesWebSocket => "responses-ws"
  | StandaloneWebSearch => "web_search"
  | ImagesGeneration => "images_generation"
  | ImagesEdit => "images_edit"
  end.

Definition legacy_default (f : ApiFormat.t) : t :=
  match f with
  | ApiFormat.OpenAiChatCompletions => ChatCompletions
  | ApiFormat.OpenAiResponses => Responses
  | ApiFormat.OpenAiImages => ImagesGeneration
  end.

Definition for_legacy_format (api_format : string) : t :=
  match ApiFormat.parse api_format with
  | Some f => legacy_default f
  | None => ChatCompletions
  end.

Definition permits_automatic_retry (o : t) : bool :=
  negb (match o with ResponsesWebSocket | ImagesGeneration | ImagesEdit => true | _ => false end).

Definition is_images (o : t) : bool :=
  match o with ImagesGeneration | ImagesEdit => true | _ => false end.

Definition transports (o : t) : list CapabilityTransport.t :=
  match o with
  | ChatCompletions | Responses => [CapabilityTransport.HttpJson; CapabilityTransport.HttpSse]
  | ResponsesWebSocket => [CapabilityTransport.Websocket]
  | StandaloneWebSearch | ImagesGeneration => [CapabilityTransport.HttpJson]
  | ImagesEdit => [CapabilityTransport.Multipart]
  end.
End ApiOperation.

(** ** Connectors *)

Module ConnectorKind.
(** A plugin identifier is a 64-byte buffer and the length in use. *)
Record ConnectorId := { bytes : list Ascii.ascii; len : Z }.

Inductive t := OpenAiCompatible | CodexOauth | Plugin (id : ConnectorId).

#[global] Instance id_eq_dec : EqDecision ConnectorId.
Proof. solve_decision. Defined.
#[global] Instance eq_dec : EqDecision t.
Proof. solve_decision. Defined.

Definition id_as_str (id : ConnectorId) : string := string_of (take (Z.to_nat id.(len)) id.(bytes)).

Definition connector_byte (c : Ascii.ascii) : bool :=
  is_ascii_lowercase c || is_ascii_digit c || (byte c =? 95) || (byte c =? 45).

Definition parse (value : string) : option t :=
  if String.eqb value "general" then Some OpenAiCompatible
  else if String.eqb value "codex" then Some CodexOauth
  else
    let v := bytes_of value in
    match v with
    | [] => None
    | first :: _ =>
        if (64 <? Z.of_nat (length v)) || negb (is_ascii_lowercase first)
           || negb (forallb connector_byte v)
        then None
        else Some (Plugin {| bytes := v ++ replicate (64 - length v) Ascii.zero;
                             len := Z.of_nat (length v) |})
    end.

Definition as_str (k : t) : string :=
  match k with
  | OpenAiCompatible => "general"
  | CodexOauth => "codex"
  | Plugin id => id_as_str id
  end.
End ConnectorKind.

Module RequestCompression.
Inductive t := Default | Zstd.
#[global] Instance eq_dec : EqDecision t.
Proof. solve_decision. Defined.

Definition parse (value : string) : option t :=
  if String.eqb value "default" then Some Default
  else if String.eqb value "zstd" then Some Zstd else None.
Definition as_str (c : t) : string := match c with Default => "default" | Zstd => "zstd" end.
Definition is_encoded (c : t) : bool := match c with Zstd => true | Default => false end.
End RequestCompression.

(** ** Capability settings *)

Record CapabilitySettings := {
  cs_operation : ApiOperation.t;
  cs_enabled : bool;
  cs_available_models : list string;
  cs_request_compression : RequestCompression.t;
  cs_test_model : option string;
  cs_test_pricing_model_id : option uuid;
  cs_auto_disable_allowed : bool;
}.

Inductive CapabilityError := OperationError | CompressionError | ModelsError | ProbeError.

(** [available_models.iter().any(|m| m.trim().is_empty() || !models.insert(m))] *)
Fixpoint models_invalid (models : gset string) (available : list string) : bool :=
  match available with
  | [] => false
  | m :: rest =>
      match trim (bytes_of m) with
      | [] => true
      | _ => if decide (m ∈ models) then true else models_invalid ({[ m ]} ∪ models) rest
      end
  end.

Definition probe_invalid (connector : ConnectorKind.t) (c : CapabilitySettings) : bool :=
  negb (Bool.eqb (bool_decide (is_Some c.(cs_test_model)))
                 (bool_decide (is_Some c.(cs_test_pricing_model_id))))
  || is_some_and c.(cs_test_model) (λ model,
       negb (bool_decide (connector = ConnectorKind.OpenAiCompatible))
       || negb (match c.(cs_operation) with
                | ApiOperation.ChatCompletions | ApiOperation.Responses => true
                | _ => false end)
       || negb (bool_decide (model ∈ c.(cs_available_models)))).

Definition validate (connector : ConnectorKind.t) (c : CapabilitySettings)
  : result unit CapabilityError :=
  if bool_decide (connector = ConnectorKind.CodexOauth)
     && bool_decide (c.(cs_operation) = ApiOperation.ChatCompletions)
  then Err OperationError
  else if RequestCompression.is_encoded c.(cs_request_compression)
          && negb (bool_decide (c.(cs_operation) = ApiOperation.Responses))
  then Err CompressionError
  else if models_invalid ∅ c.(cs_available_models) then Err ModelsError
  else if probe_invalid connector c then Err ProbeError
  else Ok tt.

(** ** Facts *)

Lemma models_invalid_false models available :
  models_invalid models available = false ↔
  NoDup available ∧ Forall (λ m, trim (bytes_of m) ≠ []) available ∧
  (∀ m, m ∈ available → m ∉ models).
Proof.
  revert models. induction available as [|m rest IH]; intros models; simpl.
  { split; [|done]. intros _. split_and!; [constructor|constructor|set_solver]. }
  rewrite NoDup_cons, Forall_cons. destruct (trim (bytes_of m)) as [|c t]; [naive_solver|].
  case_decide as Hm.
  - split; [done|]. intros (_ & _ & Hno). by destruct (Hno m ltac:(set_solver)).
  - rewrite IH. split.
    + intros (Hnd & Hf & Hno). split_and!; [set_solver|done|done|done|set_solver].
    + intros ((Hnot & Hnd) & (_ & Hf) & Hno). split_and!; [done|done|].
      intros m' Hm'. apply not_elem_of_union. split; [|apply Hno; set_solver].
      apply not_elem_of_singleton. by intros ->.
Qed.

Lemma probe_invalid_false connector c :
  probe_invalid connector c = false ↔
  (is_Some c.(cs_test_model) ↔ is_Some c.(cs_test_pricing_model_id)) ∧
  (∀ m, c.(cs_test_model) = Some m →
     connector = ConnectorKind.OpenAiCompatible ∧ m ∈ c.(cs_available_models) ∧
     (c.(cs_operation) = ApiOperation.ChatCompletions ∨ c.(cs_operation) = ApiOperation.Responses)).
Proof.
  unfold probe_invalid. rewrite orb_false_iff, negb_false_iff, Bool.eqb_true_iff.
  destruct (cs_test_model c) as [m|], (cs_test_pricing_model_id c) as [p|]; simpl; try naive_solver.
  rewrite !orb_false_iff, !negb_false_iff, !bool_decide_eq_true. destruct (cs_operation c); naive_solver.
Qed.

(** Capability settings are accepted exactly when the connector implements
    the operation, compression is requested only for HTTP Responses, the model
    catalogue has no blank or repeated name, and a probe names a catalogued
    model together with its pricing model on a general connector. *)
Theorem capability_validate_ok connector c :
  validate connector c = Ok tt ↔
  ¬ (connector = ConnectorKind.CodexOauth ∧ c.(cs_operation) = ApiOperation.ChatCompletions) ∧
  (c.(cs_request_compression) = RequestCompression.Zstd →
     c.(cs_operation) = ApiOperation.Responses) ∧
  NoDup c.(cs_available_models) ∧
  Forall (λ m, trim (bytes_of m) ≠ []) c.(cs_available_models) ∧
  (is_Some c.(cs_test_model) ↔ is_Some c.(cs_test_pricing_model_id)) ∧
  (∀ m, c.(cs_test_model) = Some m →
     connector = ConnectorKind.OpenAiCompatible ∧ m ∈ c.(cs_available_models) ∧
     (c.(cs_operation) = ApiOperation.ChatCompletions ∨ c.(cs_operation) = ApiOperation.Responses)).
Proof.
  rewrite <- probe_invalid_false. pose proof (models_invalid_false ∅ c.(cs_available_models)) as Hm.
  unfold validate. destruct (models_invalid ∅ _), (probe_invalid connector c), (cs_request_compression c);
    simpl; repeat case_bool_decide; simpl; naive_solver set_solver.
Qed.

(** Connector identifiers round-trip: whatever [parse] accepts prints back
    to the same text. *)
Theorem connector_round_trip value k (Hparse : ConnectorKind.parse value = Some k) :
  ConnectorKind.as_str k = value.
Proof.
  unfold ConnectorKind.parse in Hparse.
  destruct (String.eqb_spec value "general") as [->|_]; [by simplify_eq|].
  destruct (String.eqb_spec value "codex") as [->|_]; [by simplify_eq|].
  destruct (bytes_of value) as [|c v] eqn:E; [done|].
  case_match; [done|]. injection Hparse as <-. unfold ConnectorKind.as_str, ConnectorKind.id_as_str.
  cbn [ConnectorKind.len ConnectorKind.bytes]. rewrite Nat2Z.id. simpl take. rewrite take_app_length, <- E.
  apply string_of_bytes_of.
Qed.
Lemma connector_round_trip_witness :
  ConnectorKind.as_str (default ConnectorKind.CodexOauth (ConnectorKind.parse "acme-native_v1"))
  = "acme-native_v1".
Proof. apply connector_round_trip. vm_compute. reflexivity. Defined.
