(* ===== verification/Records.v ===== *)
(** * Control-plane records

    The persisted rows the snapshot compiler consumes, field by field:
    [ModelRuleRouteCandidate], [ModelRuleRoutingTier], [ModelRuleRecord],
    [ApiKeyRecord], [ChannelGroupRecord] and [ChannelRecord] of
    [src/persistence/postgres_control_plane.rs], and the [CredentialIdentity]
    of [src/persistence/upstream_credentials.rs].  [D] is the decimal type, [V]
    the JSON value type and [T] the UTC instant type. *)

From S2P Require Import Prelude Domain.

Record ModelRuleRouteCandidate := {
  rc_channel_id : uuid;
  rc_upstream_model : string;
  rc_weight : Z;
}.

Record ModelRuleRoutingTier := {
  rt_priority : Z;
  rt_selection_strategy : string;
  rt_candidates : list ModelRuleRouteCandidate;
}.

Record ModelRuleRecord {D V T : Type} := {
  mr_id : uuid;
  mr_client_model : string;
  mr_api_format : string;
  mr_api_operation : ApiOperation.t;
  mr_model_id : uuid;
  mr_model_enabled : bool;
  mr_model_currency : string;
  mr_price_unit_tokens : Z;
  mr_price_effective_at : T;
  mr_input_unit_price : D;
  mr_cached_input_unit_price : D;
  mr_cache_write_unit_price : D;
  mr_output_unit_price : D;
  mr_advanced_billing : V;
  mr_routing_tiers : list ModelRuleRoutingTier;
  mr_enabled : bool;
}.
Arguments ModelRuleRecord D V T : clear implicits.

Record ApiKeyRecord {D T : Type} := {
  ak_id : uuid;
  ak_user_id : uuid;
  ak_user_status : string;
  ak_user_websocket_enabled : bool;
  ak_user_filter_fast_mode : bool;
  ak_secret_value : string;
  ak_status : string;
  ak_expires_at : option T;
  ak_allowed_api_formats : list string;
  ak_permissions : list string;
  ak_allowed_group_ids : list uuid;
  ak_allowed_channel_ids : list uuid;
  ak_requests_per_minute : option Z;
  ak_max_concurrent_requests : option Z;
  ak_quota_limit_amount : option D;
  ak_quota_used_amount : D;
}.
Arguments ApiKeyRecord D T : clear implicits.

Record ChannelGroupRecord := {
  cg_id : uuid;
  cg_name : string;
  cg_api_format : string;
  cg_connector_kind : string;
  cg_request_compression : string;
  cg_enabled : bool;
}.

Record CredentialIdentity := { cred_id : uuid; cred_revision : uuid }.

Record ChannelRecord {D V : Type} := {
  ch_id : uuid;
  ch_channel_group_id : uuid;
  ch_api_format : string;
  ch_logical_channel_id : uuid;
  ch_access_id : uuid;
  ch_api_operation : option ApiOperation.t;
  ch_connector_kind : string;
  ch_request_compression : string;
  ch_access_revision : uuid;
  ch_capability_revision : uuid;
  ch_transports : list CapabilityTransport.t;
  ch_name : string;
  ch_base_url : string;
  ch_enabled : bool;
  ch_supports_websocket : bool;
  ch_supports_standalone_web_search : bool;
  ch_auto_disabled : bool;
  ch_auto_disable_allowed : bool;
  ch_billing_multiplier : D;
  ch_proxy_id : option uuid;
  ch_config_template_id : option uuid;
  ch_override_document : V;
  ch_connect_timeout_ms : option Z;
  ch_response_header_timeout_ms : option Z;
  ch_stream_idle_timeout_ms : option Z;
  ch_upstream_auth_kind : string;
  ch_upstream_auth_header_name : option string;
  ch_upstream_api_key : option string;
  ch_available_models : list string;
  ch_test_model : option string;
  ch_test_pricing_model_id : option uuid;
  ch_credential : option CredentialIdentity;
  ch_credential_binding_revision : uuid;
}.
Arguments ChannelRecord D V : clear implicits.
