(* ===== verification/Billing.v ===== *)
(** * Advanced billing policies

    Models [src/domain/billing.rs]: long-context price tiers, request
    multipliers matched by JSON pointer, recurring weekly UTC price windows,
    their validation ([compile]) and the lookups the data plane performs.

    JSON values ([serde_json::Value]) and UTC instants ([chrono::DateTime])
    come from crates outside the repository: the classes [JsonOps] and
    [UtcOps] list what the code uses of them. *)

From S2P Require Import Prelude Text Decimal.

Definition MAX_JSON_POINTER_BYTES : Z := 512.
Definition MAX_MATCH_VALUE_BYTES : Z := 4 * 1024.
Definition MAX_TIME_MULTIPLIERS : Z := 32.
Definition MAX_TIME_MULTIPLIER_LABEL_CHARS : Z := 80.
Definition DAYS_PER_WEEK : Z := 7.
Definition MINUTES_PER_DAY : Z := 24 * 60.
Definition MINUTES_PER_WEEK : Z := DAYS_PER_WEEK * MINUTES_PER_DAY.

Class JsonOps (V : Type) : Type := {
  json_pointer : V → string → option V;   (** [Value::pointer] *)
  json_eqb : V → V → bool;                (** [==] *)
  json_encoded_len : V → option Z;        (** [serde_json::to_vec(v).len()], [None] on error *)
}.

Class UtcOps (T : Type) : Type := {
  utc_weekday : T → Z;                    (** [weekday().num_days_from_monday()] *)
  utc_hour : T → Z;
  utc_minute : T → Z;
  utc_leb : T → T → bool;                 (** [<=] on instants *)
}.
Class UtcLaws (T : Type) `{UtcOps T} : Prop := {
  utc_weekday_range t : 0 ≤ utc_weekday t < 7;
  utc_hour_range t : 0 ≤ utc_hour t < 24;
  utc_minute_range t : 0 ≤ utc_minute t < 60;
}.

(** ** JSON pointer syntax *)

(** The [while index < bytes.len()] loop, on the remaining bytes. *)
Fixpoint valid_escapes (b : str) : bool :=
  match b with
  | [] => true
  | c :: b' =>
      if byte c =? 126 then
        match b' with
        | [] => false
        | n :: b'' => if negb (byte n =? 48) && negb (byte n =? 49) then false
                      else valid_escapes b''
        end
      else valid_escapes b'
  end.

Definition valid_json_pointer (pointer : str) : bool :=
  match pointer with
  | [] => true
  | c :: _ => if negb (byte c =? 47) then false else valid_escapes pointer
  end.

(** ** Clock times *)

Definition parse_utc_time (value : str) : option Z :=
  match value with
  | [b0; b1; b2; b3; b4] =>
      if negb (byte b2 =? 58)
         || negb (is_ascii_digit b0 && is_ascii_digit b1)
         || negb (is_ascii_digit b3 && is_ascii_digit b4)
      then None
      else
        let hour := (byte b0 - 48) * 10 + (byte b1 - 48) in
        let minute := (byte b3 - 48) * 10 + (byte b4 - 48) in
        if (hour <? 24) && (minute <? 60) then Some (hour * 60 + minute) else None
  | _ => None
  end.

(** ** Weekdays *)

Inductive BillingWeekday :=
| Monday | Tuesday | Wednesday | Thursday | Friday | Saturday | Sunday.

#[export] Instance BillingWeekday_eq_dec : EqDecision BillingWeekday.
Proof. solve_decision. Defined.

Definition BillingWeekday_ALL : list BillingWeekday :=
  [Monday; Tuesday; Wednesday; Thursday; Friday; Saturday; Sunday].

Definition weekday_index (d : BillingWeekday) : Z :=
  match d with
  | Monday => 0 | Tuesday => 1 | Wednesday => 2 | Thursday => 3
  | Friday => 4 | Saturday => 5 | Sunday => 6
  end.
Definition weekday_bit (d : BillingWeekday) : Z := Z.shiftl 1 (weekday_index d).

Definition is_all_billing_weekdays (weekdays : list BillingWeekday) : bool :=
  (Z.of_nat (length weekdays) =? DAYS_PER_WEEK)
  && forallb (λ d, bool_decide (d ∈ weekdays)) BillingWeekday_ALL.

(** The persisted document validation error is value free. *)
Inductive AdvancedBillingError := advanced_billing_error.

Section billing.
Context {D V T : Type} `{DecimalOps D} `{JsonOps V} `{UtcOps T}.

Record LongContextTier := {
  input_tokens_threshold : Z;
  tier_input_unit_price : D;
  tier_cached_input_unit_price : D;
  tier_cache_write_unit_price : D;
  tier_output_unit_price : option D;
}.

Record RequestBillingMultiplier := {
  rule_json_pointer : string;
  rule_value : V;
  rule_multiplier : D;
}.

Record TimeBillingMultiplier := {
  label : string;
  weekdays : list BillingWeekday;
  start_time : string;
  end_time : string;
  time_multiplier_value : D;
}.

Record AdvancedBilling := {
  long_context_tiers : list LongContextTier;
  request_multipliers : list RequestBillingMultiplier;
  time_multipliers : list TimeBillingMultiplier;
}.

Record CompiledTimeBillingMultiplier := {
  start_weekday_mask : Z;
  start_minute : Z;
  end_minute : Z;
  compiled_multiplier : D;
}.

Definition starts_on (r : CompiledTimeBillingMultiplier) (weekday : Z) : bool :=
  negb (Z.land r.(start_weekday_mask) (Z.shiftl 1 weekday) =? 0).

Definition matches (r : CompiledTimeBillingMultiplier) (weekday minute : Z) : bool :=
  if r.(start_minute) <? r.(end_minute) then
    starts_on r weekday && ((r.(start_minute) <=? minute) && (minute <? r.(end_minute)))
  else
    ((r.(start_minute) <=? minute) && starts_on r weekday)
    || ((minute <? r.(end_minute)) && starts_on r ((weekday + 6) mod DAYS_PER_WEEK)).

Record CompiledAdvancedBilling := {
  c_long_context_tiers : list LongContextTier;
  c_request_multipliers : list RequestBillingMultiplier;
  c_time_multipliers : list CompiledTimeBillingMultiplier;
  c_maximum_request_multiplier : D;
  c_maximum_time_multiplier : D;
}.

(** *** Validation *)

(** The loop over the tiers; [previous] is [previous_threshold]. *)
Fixpoint check_tiers (previous : Z) (tiers : list LongContextTier) : bool :=
  match tiers with
  | [] => true
  | t :: tiers' =>
      if (t.(input_tokens_threshold) <=? 0)
         || (t.(input_tokens_threshold) <=? previous)
         || existsb dec_is_sign_negative
              [t.(tier_input_unit_price); t.(tier_cached_input_unit_price);
               t.(tier_cache_write_unit_price)]
         || is_some_and t.(tier_output_unit_price) dec_is_sign_negative
      then false
      else check_tiers t.(input_tokens_threshold) tiers'
  end.

(** The loop over the request rules; [previous] is the slice before the index. *)
Fixpoint check_requests (previous rules : list RequestBillingMultiplier) : bool :=
  match rules with
  | [] => true
  | r :: rules' =>
      if negb (valid_json_pointer (bytes_of r.(rule_json_pointer)))
         || (MAX_JSON_POINTER_BYTES <? Z.of_nat (String.length r.(rule_json_pointer)))
         || dec_is_sign_negative r.(rule_multiplier)
         || match json_encoded_len r.(rule_value) with
            | None => true
            | Some n => MAX_MATCH_VALUE_BYTES <? n
            end
      then false
      else if existsb (λ p, String.eqb p.(rule_json_pointer) r.(rule_json_pointer)
                            && json_eqb p.(rule_value) r.(rule_value)) previous
      then false
      else check_requests (previous ++ [r]) rules'
  end.

(** The weekday mask, rejecting a repeated weekday. *)
Fixpoint weekday_mask (mask : Z) (days : list BillingWeekday) : option Z :=
  match days with
  | [] => Some mask
  | d :: days' =>
      let bit := weekday_bit d in
      if negb (Z.land mask bit =? 0) then None
      else weekday_mask (Z.lor mask bit) days'
  end.

(** The [for offset in 0..duration] loop marking minutes of the week; the
    boolean array [covered_minutes] is the set of its true indices. *)
Fixpoint cover_offsets (covered : gset Z) (week_start : Z) (offset : Z) (n : nat)
  : option (gset Z) :=
  match n with
  | O => Some covered
  | S n' =>
      let i := (week_start + offset) mod MINUTES_PER_WEEK in
      if bool_decide (i ∈ covered) then None
      else cover_offsets ({[i]} ∪ covered) week_start (offset + 1) n'
  end.

Fixpoint cover_days (covered : gset Z) (start duration : Z) (days : list BillingWeekday)
  : option (gset Z) :=
  match days with
  | [] => Some covered
  | d :: days' =>
      match cover_offsets covered (weekday_index d * MINUTES_PER_DAY + start) 0
              (Z.to_nat duration) with
      | None => None
      | Some covered' => cover_days covered' start duration days'
      end
  end.

Definition duration_minutes (start_minute end_minute : Z) : Z :=
  if start_minute <? end_minute then end_minute - start_minute
  else MINUTES_PER_DAY - start_minute + end_minute.

(** One iteration of the loop over the time rules. *)
Definition compile_time_rule (previous : list TimeBillingMultiplier) (covered : gset Z)
    (r : TimeBillingMultiplier) : option (CompiledTimeBillingMultiplier * gset Z) :=
  let l := bytes_of r.(label) in
  if (String.length r.(label) =? 0)%nat
     || negb (bool_decide (trim l = l))
     || (MAX_TIME_MULTIPLIER_LABEL_CHARS <? chars_count l)
     || dec_is_sign_negative r.(time_multiplier_value)
     || existsb (λ p, String.eqb p.(label) r.(label)) previous
  then None
  else
    start ← parse_utc_time (bytes_of r.(start_time));
    stop ← parse_utc_time (bytes_of r.(end_time));
    if start =? stop then None
    else
      mask ← weekday_mask 0 r.(weekdays);
      if mask =? 0 then None
      else
        covered' ← cover_days covered start (duration_minutes start stop) r.(weekdays);
        Some ({| start_weekday_mask := mask; start_minute := start; end_minute := stop;
                 compiled_multiplier := r.(time_multiplier_value) |}, covered').

Fixpoint compile_time_rules (previous : list TimeBillingMultiplier) (covered : gset Z)
    (rules : list TimeBillingMultiplier) : option (list CompiledTimeBillingMultiplier) :=
  match rules with
  | [] => Some []
  | r :: rules' =>
      '(c, covered') ← compile_time_rule previous covered r;
      cs ← compile_time_rules (previous ++ [r]) covered' rules';
      Some (c :: cs)
  end.

(** [try_fold] of the multipliers above one. *)
Fixpoint fold_request_maximum (total : D) (rules : list RequestBillingMultiplier) : option D :=
  match rules with
  | [] => Some total
  | r :: rules' =>
      if dec_ltb dec_one r.(rule_multiplier) then
        total' ← dec_checked_mul total r.(rule_multiplier);
        fold_request_maximum total' rules'
      else fold_request_maximum total rules'
  end.

(** [Iterator::max]: the last of the greatest elements. *)
Definition maximum (l : list D) : option D :=
  match l with
  | [] => None
  | d :: l' => Some (foldl dec_max d l')
  end.

Definition compile (value : AdvancedBilling)
  : result CompiledAdvancedBilling AdvancedBillingError :=
  if negb (check_tiers 0 value.(long_context_tiers)) then Err advanced_billing_error
  else if negb (check_requests [] value.(request_multipliers)) then Err advanced_billing_error
  else if MAX_TIME_MULTIPLIERS <? Z.of_nat (length value.(time_multipliers))
  then Err advanced_billing_error
  else
    match compile_time_rules [] ∅ value.(time_multipliers) with
    | None => Err advanced_billing_error
    | Some compiled =>
        match fold_request_maximum dec_one value.(request_multipliers) with
        | None => Err advanced_billing_error
        | Some max_request =>
            Ok {| c_long_context_tiers := value.(long_context_tiers);
                  c_request_multipliers := value.(request_multipliers);
                  c_time_multipliers := compiled;
                  c_maximum_request_multiplier := max_request;
                  c_maximum_time_multiplier :=
                    default dec_one
                      (maximum (List.filter (dec_ltb dec_one)
                                  (time_multiplier_value <$> value.(time_multipliers)))) |}
        end
    end.

(** *** Lookups *)

Definition prices (b : CompiledAdvancedBilling) (input_tokens : Z)
    (base_input base_cached base_write base_output : D) : D * D * D * D :=
  match List.find (λ t, t.(input_tokens_threshold) <=? input_tokens)
          (rev b.(c_long_context_tiers)) with
  | None => (base_input, base_cached, base_write, base_output)
  | Some t =>
      (t.(tier_input_unit_price), t.(tier_cached_input_unit_price),
       t.(tier_cache_write_unit_price), default base_output t.(tier_output_unit_price))
  end.

Definition rule_applies (request : V) (r : RequestBillingMultiplier) : bool :=
  match json_pointer request r.(rule_json_pointer) with
  | Some v => json_eqb v r.(rule_value)
  | None => false
  end.

(** The fold; [None] is the panic of [expect]. *)
Fixpoint multiply_rules (total : D) (rules : list RequestBillingMultiplier) : option D :=
  match rules with
  | [] => Some total
  | r :: rules' =>
      total' ← dec_checked_mul total r.(rule_multiplier);
      multiply_rules total' rules'
  end.

Definition request_multiplier (b : CompiledAdvancedBilling) (request : V) : option D :=
  multiply_rules dec_one (List.filter (rule_applies request) b.(c_request_multipliers)).

Definition time_multiplier (b : CompiledAdvancedBilling) (started_at : T) : D :=
  let weekday := utc_weekday started_at in
  let minute := utc_hour started_at * 60 + utc_minute started_at in
  match List.find (λ r, matches r weekday minute) b.(c_time_multipliers) with
  | Some r => r.(compiled_multiplier)
  | None => dec_one
  end.

Definition has_request_multipliers (b : CompiledAdvancedBilling) : bool :=
  negb (match b.(c_request_multipliers) with [] => true | _ => false end).

Definition price_candidates (b : CompiledAdvancedBilling)
    (base_input base_cached base_write output : D) : list D :=
  [base_input; base_cached; base_write; output]
  ++ flat_map (λ t,
       [t.(tier_input_unit_price); t.(tier_cached_input_unit_price);
        t.(tier_cache_write_unit_price)]
       ++ match t.(tier_output_unit_price) with Some p => [p] | None => [] end)
     b.(c_long_context_tiers).

Definition default_billing : CompiledAdvancedBilling :=
  {| c_long_context_tiers := []; c_request_multipliers := []; c_time_multipliers := [];
     c_maximum_request_multiplier := dec_one; c_maximum_time_multiplier := dec_one |}.
End billing.

Arguments LongContextTier D : clear implicits.
Arguments RequestBillingMultiplier D V : clear implicits.
Arguments TimeBillingMultiplier D : clear implicits.
Arguments AdvancedBilling D V : clear implicits.
Arguments CompiledTimeBillingMultiplier D : clear implicits.
Arguments CompiledAdvancedBilling D V : clear implicits.

(** ** Weekly windows *)

(** Minute [m] of the week lies in the window of length [duration] that opens
    at minute [start] of weekday [d]; minutes of the week are taken modulo the
    week. *)
Definition window_minute (start duration : Z) (d : BillingWeekday) (m : Z) : Prop :=
  ∃ offset, 0 ≤ offset < duration ∧
    m = (weekday_index d * MINUTES_PER_DAY + start + offset) mod MINUTES_PER_WEEK.

Definition windows_minute (start duration : Z) (days : list BillingWeekday) (m : Z) : Prop :=
  ∃ d, d ∈ days ∧ window_minute start duration d m.

Ltac weeks := unfold MINUTES_PER_WEEK, MINUTES_PER_DAY, DAYS_PER_WEEK in *.

Lemma weekday_index_range d : 0 ≤ weekday_index d < 7.
Proof. destruct d; simpl; lia. Qed.

Lemma weekday_bit_testbit d i :
  0 ≤ i → Z.testbit (weekday_bit d) i = bool_decide (i = weekday_index d).
Proof.
  intros Hi. unfold weekday_bit. pose proof (weekday_index_range d).
  rewrite Z.shiftl_1_l, Z.pow2_bits_eqb by lia.
  destruct (Z.eqb_spec (weekday_index d) i); case_bool_decide; auto; lia.
Qed.

Lemma land_bit_zero m d :
  (Z.land m (weekday_bit d) =? 0) = negb (Z.testbit m (weekday_index d)).
Proof.
  pose proof (weekday_index_range d). destruct (Z.testbit m (weekday_index d)) eqn:E; simpl.
  - apply Z.eqb_neq. intros Hz. apply (f_equal (λ z, Z.testbit z (weekday_index d))) in Hz.
    rewrite Z.land_spec, E, weekday_bit_testbit, Z.bits_0, bool_decide_true in Hz by (lia || done).
    done.
  - apply Z.eqb_eq, Z.bits_inj'. intros n Hn.
    rewrite Z.land_spec, weekday_bit_testbit, Z.bits_0 by lia.
    case_bool_decide; subst; [by rewrite E|by rewrite andb_false_r].
Qed.

Lemma weekday_mask_spec days m m' i :
  weekday_mask m days = Some m' → 0 ≤ i →
  Z.testbit m' i = Z.testbit m i || existsb (λ d, bool_decide (i = weekday_index d)) days.
Proof.
  revert m; induction days as [|d days IH]; simpl; intros m Hm Hi.
  - simplify_eq. by rewrite orb_false_r.
  - case_match; [done|]. rewrite (IH _ Hm Hi), Z.lor_spec, weekday_bit_testbit by done.
    by rewrite orb_assoc.
Qed.

Lemma starts_on_testbit {D} (r : CompiledTimeBillingMultiplier D) w :
  0 ≤ w < 7 → starts_on r w = Z.testbit r.(start_weekday_mask) w.
Proof.
  intros Hw. unfold starts_on.
  assert (∃ d, weekday_index d = w) as [d <-].
  { assert (w = 0 ∨ w = 1 ∨ w = 2 ∨ w = 3 ∨ w = 4 ∨ w = 5 ∨ w = 6) as Hc by lia.
    destruct Hc as [->|[->|[->|[->|[->|[->| ->]]]]]];
      [exists Monday|exists Tuesday|exists Wednesday|exists Thursday|exists Friday
      |exists Saturday|exists Sunday]; done. }
  change (Z.shiftl 1 (weekday_index d)) with (weekday_bit d).
  rewrite land_bit_zero. apply negb_involutive.
Qed.

Lemma starts_on_days {D} (r : CompiledTimeBillingMultiplier D) days w :
  weekday_mask 0 days = Some r.(start_weekday_mask) → 0 ≤ w < 7 →
  starts_on r w = true ↔ ∃ d, d ∈ days ∧ weekday_index d = w.
Proof.
  intros Hm Hw. rewrite starts_on_testbit, (weekday_mask_spec _ _ _ _ Hm), Z.bits_0 by lia.
  simpl. rewrite existsb_exists. setoid_rewrite bool_decide_eq_true.
  setoid_rewrite list_elem_of_In. naive_solver.
Qed.

(** The interval test of [matches] decides membership in the windows the
    validation loop covers. *)
Lemma matches_windows {D} (r : CompiledTimeBillingMultiplier D) days w m :
  weekday_mask 0 days = Some r.(start_weekday_mask) →
  0 ≤ r.(start_minute) < MINUTES_PER_DAY → 0 ≤ r.(end_minute) < MINUTES_PER_DAY →
  r.(start_minute) ≠ r.(end_minute) →
  0 ≤ w < 7 → 0 ≤ m < MINUTES_PER_DAY →
  matches r w m = true ↔
  windows_minute r.(start_minute) (duration_minutes r.(start_minute) r.(end_minute)) days
    (w * MINUTES_PER_DAY + m).
Proof.
  intros Hmask Hs He Hne Hw Hm. unfold matches, windows_minute, window_minute, duration_minutes.
  pose proof (starts_on_days r days w Hmask Hw) as Hon.
  pose proof (starts_on_days r days ((w + 6) mod DAYS_PER_WEEK) Hmask) as Hprev.
  specialize (Hprev ltac:(weeks; apply Z.mod_pos_bound; lia)). weeks.
  destruct (Z.ltb_spec r.(start_minute) r.(end_minute)) as [Hlt|Hge].
  - rewrite !andb_true_iff, Hon, Z.leb_le, Z.ltb_lt. split.
    + intros [[d [Hd <-]] ?]. exists d. split; [done|].
      exists (m - r.(start_minute)). split; [lia|]. rewrite Z.mod_small; lia.
    + intros (d & Hd & off & Hoff & Heq). pose proof (weekday_index_range d).
      rewrite Z.mod_small in Heq by lia. split; [exists d; split; [done|lia]|lia].
  - rewrite orb_true_iff, !andb_true_iff, Hon, Hprev, Z.leb_le, Z.ltb_lt. split.
    + intros [[Hge' [d [Hd <-]]]|[Hlt' [d [Hd Heq]]]]; exists d; (split; [done|]).
      * exists (m - r.(start_minute)). split; [lia|]. rewrite Z.mod_small; lia.
      * exists (24 * 60 - r.(start_minute) + m). split; [lia|]. rewrite Heq.
        Z.to_euclidean_division_equations; lia.
    + intros (d & Hd & off & Hoff & Heq). pose proof (weekday_index_range d).
      assert (weekday_index d = w ∧ r.(start_minute) ≤ m
              ∨ weekday_index d = (w + 6) mod 7 ∧ m < r.(end_minute)) as [[? ?]|[? ?]]
        by (Z.to_euclidean_division_equations; lia); [left|right]; naive_solver.
Qed.

Lemma cover_offsets_spec covered ws off n covered' :
  cover_offsets covered ws off n = Some covered' →
  (∀ m, m ∈ covered' ↔
     m ∈ covered ∨ ∃ k, off ≤ k < off + Z.of_nat n ∧ m = (ws + k) mod MINUTES_PER_WEEK) ∧
  (∀ k, off ≤ k < off + Z.of_nat n → (ws + k) mod MINUTES_PER_WEEK ∉ covered).
Proof.
  revert covered off; induction n as [|n IH]; intros covered off Hc; cbn [cover_offsets] in Hc.
  { simplify_eq. split; [|lia]. intros m. split; [auto|]. intros [?|(?&?&?)]; [done|lia]. }
  case_bool_decide as Hin; [done|]. apply IH in Hc as [Hmem Hfresh]. split.
  - intros m. rewrite Hmem, elem_of_union, elem_of_singleton. split.
    + intros [[->|?]|(k&?&->)]; [right; exists off; lia|auto|right; exists k; lia].
    + intros [?|(k&?&->)]; [auto|]. destruct (decide (k = off)) as [->|]; [auto|].
      right. exists k; lia.
  - intros k Hk. destruct (decide (k = off)) as [->|]; [done|].
    assert (off + 1 ≤ k < off + 1 + Z.of_nat n) as Hk' by lia.
    specialize (Hfresh k Hk'). set_solver.
Qed.

Lemma cover_days_spec covered s dur days covered' :
  0 ≤ dur → cover_days covered s dur days = Some covered' →
  (∀ m, m ∈ covered' ↔ m ∈ covered ∨ windows_minute s dur days m) ∧
  (∀ m, windows_minute s dur days m → m ∉ covered).
Proof.
  intros Hdur. revert covered; induction days as [|d days IH]; intros covered Hc; simpl in Hc.
  { simplify_eq. unfold windows_minute. set_solver. }
  destruct (cover_offsets _ _ _ _) as [c1|] eqn:E; [|done].
  apply cover_offsets_spec in E as [Hmem Hfresh]. apply IH in Hc as [Hmem' Hfresh'].
  assert (∀ m, window_minute s dur d m ↔ ∃ k, 0 ≤ k < 0 + Z.of_nat (Z.to_nat dur) ∧
    m = (weekday_index d * MINUTES_PER_DAY + s + k) mod MINUTES_PER_WEEK) as Hw.
  { intros m. rewrite Z2Nat.id by done. unfold window_minute. naive_solver. }
  unfold windows_minute in *. split.
  - intros m. rewrite Hmem', Hmem, <-Hw. set_solver.
  - intros m (d' & [->|Hd']%elem_of_cons & Hm).
    + apply Hw in Hm as (k & Hk & ->). by apply Hfresh.
    + intros Hin. apply (Hfresh' m); [eauto|]. apply Hmem. auto.
Qed.

Lemma parse_utc_time_range s m : parse_utc_time s = Some m → 0 ≤ m < MINUTES_PER_DAY.
Proof.
  unfold parse_utc_time. destruct s as [|b0 [|b1 [|b2 [|b3 [|b4 [|]]]]]]; try done.
  case_match eqn:Hc; [done|]. apply orb_false_iff in Hc as [[Hc Hd1]%orb_false_iff Hd2].
  breflect. repeat match goal with H : is_ascii_digit _ = true |- _ =>
    apply is_ascii_digit_range in H end.
  case_match eqn:Hr; [|done]. breflect. intros; simplify_eq. weeks. lia.
Qed.

Section time_windows.
Context {D V T : Type} `{DecimalOps D} `{JsonOps V} `{!UtcOps T} `{!UtcLaws T}.

(** A persisted window covers minute [m] of the week. *)
Definition rule_covers (r : TimeBillingMultiplier D) (m : Z) : Prop :=
  ∃ s e, parse_utc_time (bytes_of r.(start_time)) = Some s ∧
    parse_utc_time (bytes_of r.(end_time)) = Some e ∧
    windows_minute s (duration_minutes s e) r.(weekdays) m.

(** [c] is the compiled form of [r]. *)
Definition compiled_from (r : TimeBillingMultiplier D) (c : CompiledTimeBillingMultiplier D) : Prop :=
  c.(compiled_multiplier) = r.(time_multiplier_value) ∧
  dec_is_sign_negative r.(time_multiplier_value) = false ∧
  ∀ w m, 0 ≤ w < 7 → 0 ≤ m < MINUTES_PER_DAY →
    matches c w m = true ↔ rule_covers r (w * MINUTES_PER_DAY + m).

Lemma duration_minutes_pos s e :
  0 ≤ s < MINUTES_PER_DAY → 0 ≤ e → 0 ≤ duration_minutes s e.
Proof. unfold duration_minutes. weeks. case_match; breflect; lia. Qed.

Lemma compile_time_rule_spec prev covered r c covered' :
  compile_time_rule prev covered r = Some (c, covered') →
  compiled_from r c ∧
  (∀ m, m ∈ covered' ↔ m ∈ covered ∨ rule_covers r m) ∧
  (∀ m, rule_covers r m → m ∉ covered).
Proof.
  unfold compile_time_rule. case_match eqn:Hg; [done|]. intros Hc.
  apply bind_Some in Hc as (s & Hs & Hc). apply bind_Some in Hc as (e & He & Hc).
  case_match eqn:Hse; [done|]. breflect.
  apply bind_Some in Hc as (mask & Hmask & Hc). case_match; [done|].
  apply bind_Some in Hc as (cov & Hcov & Hc). simplify_eq.
  pose proof (parse_utc_time_range _ _ Hs). pose proof (parse_utc_time_range _ _ He).
  apply cover_days_spec in Hcov as [Hmem Hfresh]; [|apply duration_minutes_pos; lia].
  assert (∀ m, rule_covers r m ↔ windows_minute s (duration_minutes s e) r.(weekdays) m) as Hrc.
  { intros m. unfold rule_covers. rewrite Hs, He. naive_solver. }
  split; [|split; intros m; rewrite Hrc; auto].
  split; [done|]. split; [done|].
  intros w m Hw Hm. rewrite Hrc.
  match goal with |- matches ?c _ _ = _ ↔ _ =>
    by apply (matches_windows c r.(weekdays)) end.
Qed.

(** At a minute of the week, [c] matches iff its rule covers it, and no two
    rules cover the same minute. *)
Lemma compile_time_rules_spec prev covered rules cs :
  compile_time_rules prev covered rules = Some cs →
  Forall2 compiled_from rules cs ∧
  (∀ r m, r ∈ rules → rule_covers r m → m ∉ covered) ∧
  (∀ i j ri rj m, rules !! i = Some ri → rules !! j = Some rj →
     rule_covers ri m → rule_covers rj m → i = j).
Proof.
  revert prev covered cs; induction rules as [|r rules IH]; intros prev covered cs Hc; simpl in Hc.
  { simplify_eq. split; [done|]. split; [set_solver|]. intros i j; by rewrite lookup_nil. }
  apply bind_Some in Hc as ([c cov] & Hr & Hc). apply bind_Some in Hc as (cs' & Hcs & Hc).
  simplify_eq. apply compile_time_rule_spec in Hr as (Hfrom & Hmem & Hfresh).
  apply IH in Hcs as (IHf & IHfresh & IHuniq).
  assert (∀ j rj m, rules !! j = Some rj → rule_covers r m → ¬ rule_covers rj m) as Hdisj.
  { intros j rj m Hj Hr Hrj. apply (IHfresh rj m); [by eapply list_elem_of_lookup_2|done|].
    apply Hmem. auto. }
  split; [by constructor|]. split.
  - intros r' m [->|Hr']%elem_of_cons Hm; [auto|].
    intros Hin. apply (IHfresh r' m Hr' Hm). apply Hmem. auto.
  - intros [|i] [|j] ri rj m Hi Hj Hmi Hmj; simplify_eq/=; [done| | |].
    + exfalso. by eapply Hdisj.
    + exfalso. by eapply Hdisj.
    + f_equal. by eapply IHuniq.
Qed.

Definition week_minute (t : T) : Z :=
  utc_weekday t * MINUTES_PER_DAY + (utc_hour t * 60 + utc_minute t).

Lemma find_compiled rules cs (t : T) r :
  Forall2 compiled_from rules cs →
  (∀ i j ri rj m, rules !! i = Some ri → rules !! j = Some rj →
     rule_covers ri m → rule_covers rj m → i = j) →
  r ∈ rules → rule_covers r (week_minute t) →
  ∃ c, List.find (λ c, matches c (utc_weekday t) (utc_hour t * 60 + utc_minute t)) cs = Some c
       ∧ c.(compiled_multiplier) = r.(time_multiplier_value).
Proof.
  intros Hf Huniq [i Hi]%list_elem_of_lookup Hcov.
  pose proof (utc_weekday_range t). pose proof (utc_hour_range t). pose proof (utc_minute_range t).
  destruct (List.find _ cs) as [c|] eqn:E.
  - exists c. split; [done|]. apply find_some in E as [Hin Hm].
    apply list_elem_of_In, list_elem_of_lookup in Hin as [j Hj].
    destruct (Forall2_lookup_r _ _ _ _ _ Hf Hj) as (rj & Hrj & Hmul & _ & Hmatch).
    apply Hmatch in Hm; [|lia|weeks; lia].
    assert (i = j) as -> by (by eapply Huniq). congruence.
  - destruct (Forall2_lookup_l _ _ _ _ _ Hf Hi) as (c & Hc & _ & _ & Hmatch).
    pose proof (find_none _ _ E c) as Hno. simpl in Hno.
    specialize (Hmatch (utc_weekday t) (utc_hour t * 60 + utc_minute t)).
    rewrite (proj2 (Hmatch ltac:(lia) ltac:(weeks; lia)) Hcov) in Hno.
    discriminate Hno. apply list_elem_of_In. by eapply list_elem_of_lookup_2.
Qed.

Lemma find_compiled_none rules cs (t : T) :
  Forall2 compiled_from rules cs →
  (∀ r, r ∈ rules → ¬ rule_covers r (week_minute t)) →
  List.find (λ c, matches c (utc_weekday t) (utc_hour t * 60 + utc_minute t)) cs = None.
Proof.
  intros Hf Hno.
  pose proof (utc_weekday_range t). pose proof (utc_hour_range t). pose proof (utc_minute_range t).
  destruct (List.find _ cs) as [c|] eqn:E; [|done]. exfalso.
  apply find_some in E as [Hin Hm]. apply list_elem_of_In, list_elem_of_lookup in Hin as [j Hj].
  destruct (Forall2_lookup_r _ _ _ _ _ Hf Hj) as (rj & Hrj & _ & _ & Hmatch).
  apply Hmatch in Hm; [|lia|weeks; lia]. apply (Hno rj); [by eapply list_elem_of_lookup_2|done].
Qed.

(** What a successful [compile] established. *)
Lemma compile_inv (v : AdvancedBilling D V) b :
  compile v = Ok b →
  check_tiers 0 v.(long_context_tiers) = true ∧
  check_requests [] v.(request_multipliers) = true ∧
  compile_time_rules [] ∅ v.(time_multipliers) = Some b.(c_time_multipliers) ∧
  fold_request_maximum dec_one v.(request_multipliers) = Some b.(c_maximum_request_multiplier) ∧
  b.(c_long_context_tiers) = v.(long_context_tiers) ∧
  b.(c_request_multipliers) = v.(request_multipliers) ∧
  b.(c_maximum_time_multiplier) =
    default dec_one (maximum (List.filter (dec_ltb dec_one)
                                (time_multiplier_value <$> v.(time_multipliers)))).
Proof.
  unfold compile. intros Hc. repeat (case_match; try done).
  simplify_eq/=. breflect. auto 10.
Qed.

(** In a compiled policy the time multiplier of an instant is the
    multiplier of the persisted window that covers its minute of the week
    (windows wrap past midnight and past the end of the week), and one when
    no window covers it.  In particular no instant is covered by two windows
    with different multipliers. *)
Theorem time_multiplier_spec (v : AdvancedBilling D V) b (t : T)
    (Hcompile : compile v = Ok b) :
  (∀ r, r ∈ v.(time_multipliers) → rule_covers r (week_minute t) →
     time_multiplier b t = r.(time_multiplier_value)) ∧
  ((∀ r, r ∈ v.(time_multipliers) → ¬ rule_covers r (week_minute t)) →
     time_multiplier b t = dec_one).
Proof.
  apply compile_inv in Hcompile as (_ & _ & Ht & _).
  apply compile_time_rules_spec in Ht as (Hf & _ & Huniq).
  unfold time_multiplier. split.
  - intros r Hr Hcov.
    destruct (find_compiled _ _ t r Hf Huniq Hr Hcov) as (c & -> & ->). done.
  - intros Hno. by rewrite (find_compiled_none _ _ t Hf Hno).
Qed.
End time_windows.

(** ** Price tiers *)

Section tiers.
Context {D V : Type} `{DecimalOps D} `{JsonOps V}.

Lemma check_tiers_sorted prev (tiers : list (LongContextTier D)) :
  check_tiers prev tiers = true →
  StronglySorted (λ a b, a.(input_tokens_threshold) < b.(input_tokens_threshold)) tiers ∧
  Forall (λ t, prev < t.(input_tokens_threshold)) tiers.
Proof.
  revert prev; induction tiers as [|t tiers IH]; simpl; intros prev Hc; [by split; constructor|].
  case_match eqn:Hg; [done|]. breflect. apply IH in Hc as [Hs Hf].
  split; constructor; [done|done|done|].
  eapply Forall_impl; [done|]. simpl; lia.
Qed.

(** In a strictly sorted list, the first match from the right is the largest match. *)
Lemma find_rev_sorted (tiers : list (LongContextTier D)) n t :
  StronglySorted (λ a b, a.(input_tokens_threshold) < b.(input_tokens_threshold)) tiers →
  t ∈ tiers → t.(input_tokens_threshold) ≤ n →
  (∀ t', t' ∈ tiers → t'.(input_tokens_threshold) ≤ n →
     t'.(input_tokens_threshold) ≤ t.(input_tokens_threshold)) →
  List.find (λ t, t.(input_tokens_threshold) <=? n) (rev tiers) = Some t.
Proof.
  induction tiers as [|t0 tiers IH] using rev_ind; intros Hs Ht Hn Hmax; [set_solver|].
  rewrite rev_app_distr. simpl.
  assert (StronglySorted (λ a b, input_tokens_threshold a < input_tokens_threshold b) tiers
    ∧ ∀ a, a ∈ tiers → input_tokens_threshold a < input_tokens_threshold t0) as [Hs' Hlast].
  { clear -Hs. induction tiers as [|a tiers IH]; simpl in *; [split; [constructor|set_solver]|].
    apply StronglySorted_inv in Hs as [Hs Hf]. destruct (IH Hs) as [? Hl].
    apply Forall_app in Hf as [? Hf']. split; [by constructor|].
    rewrite Forall_singleton in Hf'. set_solver. }
  case_match; breflect.
  - apply elem_of_app in Ht as [Ht|Ht]; [|f_equal; set_solver].
    pose proof (Hlast _ Ht). pose proof (Hmax t0 ltac:(set_solver)). lia.
  - apply elem_of_app in Ht as [Ht|Ht]; [|set_solver by lia].
    apply IH; [done..|set_solver].
Qed.

(** A compiled policy prices a request by the tier with the greatest
    threshold its input-token count reaches, keeping the base output price
    when that tier has none, and by the base prices when it reaches no
    tier. *)
Theorem prices_highest_tier (v : AdvancedBilling D V) b n pi pc pw po
    (Hcompile : compile v = Ok b) :
  (∀ t, t ∈ v.(long_context_tiers) → t.(input_tokens_threshold) ≤ n →
     (∀ t', t' ∈ v.(long_context_tiers) → t'.(input_tokens_threshold) ≤ n →
        t'.(input_tokens_threshold) ≤ t.(input_tokens_threshold)) →
     prices b n pi pc pw po =
       (t.(tier_input_unit_price), t.(tier_cached_input_unit_price),
        t.(tier_cache_write_unit_price), default po t.(tier_output_unit_price))) ∧
  ((∀ t, t ∈ v.(long_context_tiers) → n < t.(input_tokens_threshold)) →
     prices b n pi pc pw po = (pi, pc, pw, po)).
Proof.
  apply compile_inv in Hcompile as (Ht & _ & _ & _ & Htiers & _).
  apply check_tiers_sorted in Ht as [Hs _]. unfold prices. rewrite Htiers. split.
  - intros t Hin Hn Hmax. by rewrite (find_rev_sorted _ n t).
  - intros Hall. destruct (List.find _ _) as [t|] eqn:E; [|done]. exfalso.
    apply find_some in E as [Hin Hle]. breflect.
    apply in_rev, list_elem_of_In, Hall in Hin. lia.
Qed.
End tiers.

(** ** Multiplier bounds *)

Section multipliers.
Context {D V T : Type} `{DecimalLaws D} `{JsonOps V} `{!UtcOps T} `{!UtcLaws T}.
Implicit Types (total mx : D) (rules : list (RequestBillingMultiplier D V)).

Lemma dec_mul_ge_one_grows mx m c :
  dec_leb dec_zero mx = true → dec_ltb dec_one m = true →
  dec_checked_mul mx m = Some c → dec_leb mx c = true.
Proof.
  intros Hmx Hm Hc. destruct (dec_mul_one_r mx Hmx) as (b & Hb & _ & Hle).
  destruct (dec_mul_mono mx mx dec_one m c) as (c' & Hc' & _ & Hle');
    eauto using dec_zero_le_one with gateway.
  assert (b = c') as -> by congruence. eauto using dec_leb_trans.
Qed.

Lemma dec_mul_le_one_shrinks total m :
  dec_leb dec_zero total = true → dec_leb dec_zero m = true → dec_leb m dec_one = true →
  ∃ c, dec_checked_mul total m = Some c ∧ dec_leb dec_zero c = true ∧ dec_leb c total = true.
Proof.
  intros Ht Hm Hone. destruct (dec_mul_one_r total Ht) as (b & Hb & Hle & _).
  destruct (dec_mul_mono total total m dec_one b) as (c & Hc & Hc0 & Hcb);
    eauto using dec_leb_trans with gateway.
Qed.

Lemma multiply_rules_bounded (p : RequestBillingMultiplier D V → bool) rules total mx out :
  Forall (λ r, dec_is_sign_negative r.(rule_multiplier) = false) rules →
  dec_leb dec_zero total = true → dec_leb total mx = true →
  fold_request_maximum mx rules = Some out →
  ∃ m, multiply_rules total (List.filter p rules) = Some m ∧
    dec_leb dec_zero m = true ∧ dec_leb m out = true.
Proof.
  revert total mx. induction rules as [|r rules IH]; simpl; intros total mx Hpos Ht0 Hle Hf.
  { simplify_eq. eauto. }
  apply Forall_cons in Hpos as [Hr%dec_sign_nonneg Hpos].
  assert (dec_leb dec_zero mx = true) by eauto using dec_leb_trans.
  destruct (dec_ltb dec_one _) eqn:Hgt.
  - apply bind_Some in Hf as (mx' & Hmx & Hf).
    pose proof (dec_mul_ge_one_grows _ _ _ ltac:(done) Hgt Hmx).
    destruct (p r); simpl; [|eauto using dec_leb_trans].
    destruct (dec_mul_mono total mx r.(rule_multiplier) r.(rule_multiplier) mx')
      as (c & -> & ? & ?); eauto with gateway.
  - apply dec_ltb_false_le in Hgt. destruct (p r); simpl; [|eauto].
    destruct (dec_mul_le_one_shrinks total r.(rule_multiplier)) as (c & -> & ? & ?); [done..|].
    simpl. eauto using dec_leb_trans.
Qed.

Lemma check_requests_nonneg prev rules :
  check_requests prev rules = true →
  Forall (λ r, dec_is_sign_negative r.(rule_multiplier) = false) rules.
Proof.
  revert prev; induction rules as [|r rules IH]; simpl; intros prev Hc; [constructor|].
  case_match eqn:Hg; [done|]. case_match; [done|]. breflect. constructor; eauto.
Qed.

(** On a compiled policy [request_multiplier] never panics: whatever
    subset of the rules a request matches, every intermediate product fits,
    and the result is non-negative and at most the precomputed
    [maximum_request_multiplier]. *)
Theorem request_multiplier_total (v : AdvancedBilling D V) b (request : V)
    (Hcompile : compile v = Ok b) :
  ∃ m, request_multiplier b request = Some m ∧ dec_leb dec_zero m = true ∧
    dec_leb m b.(c_maximum_request_multiplier) = true.
Proof.
  apply compile_inv in Hcompile as (_ & Hr & _ & Hf & _ & Hreq & _).
  unfold request_multiplier. rewrite Hreq.
  eapply multiply_rules_bounded;
    [by eapply check_requests_nonneg|apply dec_zero_le_one|apply dec_leb_refl|done].
Qed.

Lemma foldl_dec_max_ub (l : list D) d :
  dec_leb d (foldl dec_max d l) = true ∧ ∀ x, x ∈ l → dec_leb x (foldl dec_max d l) = true.
Proof.
  revert d; induction l as [|y l IH]; simpl; intros d; [split; [apply dec_leb_refl|set_solver]|].
  destruct (IH (dec_max d y)) as [Hd Hall]. split; [eauto using dec_leb_trans with gateway|].
  intros x [->|Hx]%elem_of_cons; eauto using dec_leb_trans with gateway.
Qed.

Lemma maximum_ub (l : list D) x : x ∈ l → dec_leb x (default dec_one (maximum l)) = true.
Proof.
  destruct l as [|d l]; [set_solver|]. simpl. destruct (foldl_dec_max_ub l d).
  intros [->|?]%elem_of_cons; auto.
Qed.

Lemma maximum_ge_one (l : list D) :
  Forall (λ d, dec_ltb dec_one d = true) l → dec_leb dec_one (default dec_one (maximum l)) = true.
Proof.
  destruct l as [|d l]; simpl; [intros; apply dec_leb_refl|].
  intros [Hd _]%Forall_cons. destruct (foldl_dec_max_ub l d). eauto using dec_leb_trans with gateway.
Qed.

Lemma time_multiplier_range (v : AdvancedBilling D V) b (t : T) :
  compile v = Ok b →
  dec_leb dec_zero (time_multiplier b t) = true ∧
  dec_leb (time_multiplier b t) b.(c_maximum_time_multiplier) = true.
Proof.
  intros Hcompile. apply compile_inv in Hcompile as (_ & _ & Ht & _ & _ & _ & Hmax).
  apply compile_time_rules_spec in Ht as (Hf & _ & _). rewrite Hmax.
  set (l := List.filter _ _).
  assert (dec_leb dec_one (default dec_one (maximum l)) = true) as Hone.
  { apply maximum_ge_one, Forall_forall. intros d Hd%list_elem_of_In.
    unfold l in Hd. by apply filter_In in Hd as [_ ?]. }
  unfold time_multiplier. destruct (List.find _ _) as [c|] eqn:E;
    [|split; [apply dec_zero_le_one|done]].
  apply find_some in E as [Hin _]. apply list_elem_of_In, list_elem_of_lookup in Hin as [j Hj].
  destruct (Forall2_lookup_r _ _ _ _ _ Hf Hj) as (r & Hr & -> & Hneg & _).
  split; [by apply dec_sign_nonneg|].
  destruct (dec_ltb dec_one r.(time_multiplier_value)) eqn:Hgt.
  - apply maximum_ub, list_elem_of_In, filter_In. split; [|done].
    apply list_elem_of_In, list_elem_of_fmap. eauto using list_elem_of_lookup_2.
  - apply dec_ltb_false_le in Hgt. eauto using dec_leb_trans.
Qed.

(** The time multiplier of a compiled policy is non-negative and never
    above the precomputed [maximum_time_multiplier], the factor the
    publication check of a channel multiplies with. *)
Theorem time_multiplier_bounded (v : AdvancedBilling D V) b (t : T)
    (Hcompile : compile v = Ok b) :
  dec_leb dec_zero (time_multiplier b t) = true ∧
  dec_leb (time_multiplier b t) b.(c_maximum_time_multiplier) = true.
Proof. by eapply time_multiplier_range. Qed.
End multipliers.

(** ** JSON pointers and clock times against reference printers *)

Lemma valid_escapes_token t rest :
  valid_escapes (flat_map escape_byte t ++ rest) = valid_escapes rest.
Proof.
  induction t as [|c t IH]; [done|]. simpl. unfold escape_byte at 1.
  destruct (byte c =? 126) eqn:E1; [done|]. destruct (byte c =? 47); [done|].
  simpl. by rewrite E1.
Qed.

Lemma valid_escapes_pointer tokens : valid_escapes (encode_pointer tokens) = true.
Proof.
  induction tokens as [|t tokens IH]; [done|]. simpl.
  by rewrite valid_escapes_token.
Qed.

Lemma valid_escapes_decode p :
  valid_escapes p = true → ∃ t tokens, p = flat_map escape_byte t ++ encode_pointer tokens.
Proof.
  remember (length p) as n eqn:Hn. revert p Hn.
  induction n as [n IH] using lt_wf_ind; intros p ->.
  destruct p as [|c p]; simpl; [by exists [], []|].
  destruct (byte c =? 126) eqn:E1; breflect.
  - destruct p as [|d p]; [done|]. case_match eqn:Hd; [done|]. intros Hv.
    destruct (IH (length p)) with (p := p) as (t & tokens & ->); [simpl; lia|done|done|].
    apply (byte_is c 126) in E1 as ->; [|lia].
    assert (byte d = 48 ∨ byte d = 49) as Hd'.
    { destruct (Z.eqb_spec (byte d) 48); destruct (Z.eqb_spec (byte d) 49); auto; done. }
    destruct Hd' as [E|E].
    + apply (byte_is d 48) in E as ->; [|lia].
      by exists (Ascii.ascii_of_N 126 :: t), tokens.
    + apply (byte_is d 49) in E as ->; [|lia].
      by exists (Ascii.ascii_of_N 47 :: t), tokens.
  - intros Hv. destruct (IH (length p)) with (p := p) as (t & tokens & ->); [simpl; lia|done|done|].
    destruct (Z.eqb_spec (byte c) 47) as [E2|E2].
    + apply (byte_is c 47) in E2 as ->; [|lia]. by exists [], (t :: tokens).
    + exists (c :: t), tokens. simpl. unfold escape_byte at 2.
      by rewrite (proj2 (Z.eqb_neq _ _) E1), (proj2 (Z.eqb_neq _ _) E2).
Qed.

(** [valid_json_pointer] accepts exactly the byte strings that are the
    RFC 6901 printing of some list of reference tokens. *)
Theorem valid_json_pointer_iff p :
  valid_json_pointer p = true ↔ ∃ tokens, p = encode_pointer tokens.
Proof.
  unfold valid_json_pointer. destruct p as [|c p].
  { split; [by exists []|done]. }
  destruct (Z.eqb_spec (byte c) 47) as [E|E]; simpl.
  - apply (byte_is c 47) in E as ->; [|lia]. split.
    + intros Hv. simpl in Hv. apply valid_escapes_decode in Hv as (t & tokens & ->).
      by exists (t :: tokens).
    + intros [tokens Ht]. pose proof (valid_escapes_pointer tokens) as Hv. by rewrite <-Ht in Hv.
  - split; [done|]. intros [[|t tokens] Ht]; [done|]. exfalso. apply E.
    simpl in Ht. injection Ht as -> _. done.
Qed.

Definition digit (z : Z) : Ascii.ascii := Ascii.ascii_of_N (Z.to_N (48 + z)).
(** [HH:MM] of a minute of the day. *)
Definition format_utc_time (m : Z) : str :=
  [digit (m / 60 / 10); digit (m / 60 mod 10); Ascii.ascii_of_N 58;
   digit (m mod 60 / 10); digit (m mod 60 mod 10)].

Lemma byte_digit z : 0 ≤ z < 10 → byte (digit z) = 48 + z.
Proof. intros Hz. unfold byte, digit. rewrite Ascii.N_ascii_embedding; lia. Qed.

Lemma digit_byte c : is_ascii_digit c = true → c = digit (byte c - 48).
Proof.
  intros Hc%is_ascii_digit_range. apply byte_inj. rewrite byte_digit; lia.
Qed.

(** The accepted clock times are exactly the [HH:MM] printings of the 1440
    minutes of a day, and parsing inverts printing. *)
Theorem parse_utc_time_iff s m :
  parse_utc_time s = Some m ↔ 0 ≤ m < MINUTES_PER_DAY ∧ s = format_utc_time m.
Proof.
  split.
  - intros Hp. split; [by eapply parse_utc_time_range|]. unfold parse_utc_time in Hp.
    destruct s as [|b0 [|b1 [|b2 [|b3 [|b4 [|]]]]]]; try done.
    case_match eqn:Hc; [done|]. apply orb_false_iff in Hc as [[Hc Hd1]%orb_false_iff Hd2].
    breflect. case_match eqn:Hr; [|done]. breflect. simplify_eq.
    apply (byte_is b2 58) in Hc as ->; [|lia].
    repeat match goal with H : is_ascii_digit ?c = true |- _ =>
      pose proof (is_ascii_digit_range c H); apply digit_byte in H end.
    unfold format_utc_time. repeat f_equal.
    all: match goal with H : ?c = digit _ |- ?c = _ => rewrite H at 1 end;
      f_equal; Z.to_euclidean_division_equations; lia.
  - intros [Hm ->]. weeks. unfold parse_utc_time, format_utc_time, is_ascii_digit.
    rewrite !byte_digit by (Z.to_euclidean_division_equations; lia).
    replace (byte (Ascii.ascii_of_N 58)) with 58 by done.
    repeat match goal with |- context[48 <=? ?x] =>
      rewrite (proj2 (Z.leb_le 48 x)) by (Z.to_euclidean_division_equations; lia) end.
    repeat match goal with |- context[?x <=? 57] =>
      rewrite (proj2 (Z.leb_le x 57)) by (Z.to_euclidean_division_equations; lia) end.
    cbn -[Z.div Z.modulo Z.add Z.sub Z.mul].
    repeat match goal with |- context[?x <? ?y] =>
      rewrite (proj2 (Z.ltb_lt x y)) by (Z.to_euclidean_division_equations; lia) end.
    simpl. f_equal. Z.to_euclidean_division_equations; lia.
Qed.

(** ** Concrete instances and witnesses *)

Module BillingExample.
(** JSON scalars as strings: only the empty pointer resolves. *)
#[global] Instance json_scalar : JsonOps string := {
  json_pointer v p := if String.eqb p "" then Some v else None;
  json_eqb := String.eqb;
  json_encoded_len v := Some (Z.of_nat (String.length v) + 2);
}.

(** Instants as minutes since a Monday midnight. *)
#[global] Instance utc_minutes : UtcOps Z := {
  utc_weekday t := t / 1440 mod 7;
  utc_hour t := t mod 1440 / 60;
  utc_minute t := t mod 60;
  utc_leb := Z.leb;
}.
#[global] Instance utc_minutes_laws : UtcLaws Z.
Proof. split; intros t; simpl; Z.to_euclidean_division_equations; lia. Qed.

Definition window : TimeBillingMultiplier Z :=
  {| label := "sunday overnight"; weekdays := [Sunday]; start_time := "22:00";
     end_time := "02:00"; time_multiplier_value := 2 |}.
Definition tier (n p : Z) : LongContextTier Z :=
  {| input_tokens_threshold := n; tier_input_unit_price := p;
     tier_cached_input_unit_price := p + 1; tier_cache_write_unit_price := p + 2;
     tier_output_unit_price := None |}.
Definition policy : AdvancedBilling Z string :=
  {| long_context_tiers := [tier 10 2; tier 100 5];
     request_multipliers := [{| rule_json_pointer := ""; rule_value := "high"; rule_multiplier := 3 |}];
     time_multipliers := [window] |}.
Definition compiled : CompiledAdvancedBilling Z string :=
  match compile policy with Ok b => b | Err _ => default_billing end.

Lemma compiled_ok : compile policy = Ok compiled.
Proof. vm_compute. reflexivity. Qed.

(** Monday 01:59 is inside the window that opened on Sunday. *)
Lemma covers_monday : rule_covers window (week_minute 119).
Proof.
  exists 1320, 120. split; [reflexivity|]. split; [reflexivity|].
  exists Sunday. split; [constructor|]. exists 239. split; [|reflexivity].
  vm_compute. split; congruence.
Qed.
End BillingExample.

Lemma time_multiplier_spec_witness :
  time_multiplier BillingExample.compiled (119 : Z) = 2.
Proof.
  apply (proj1 (time_multiplier_spec BillingExample.policy BillingExample.compiled 119
                  BillingExample.compiled_ok) BillingExample.window).
  - constructor.
  - apply BillingExample.covers_monday.
Defined.

Lemma prices_highest_tier_witness :
  prices BillingExample.compiled 100 0 0 0 9 = (5, 6, 7, 9).
Proof.
  apply (proj1 (prices_highest_tier BillingExample.policy BillingExample.compiled 100 0 0 0 9
                  BillingExample.compiled_ok) (BillingExample.tier 100 5)).
  - apply list_elem_of_In. simpl. auto.
  - simpl. lia.
  - intros t' Ht'%list_elem_of_In. simpl in Ht'. destruct Ht' as [<-|[<-|[]]]; simpl; lia.
Defined.

Lemma request_multiplier_total_witness :
  ∃ m, request_multiplier BillingExample.compiled "high" = Some m ∧ dec_leb 0 m = true ∧
    dec_leb m 3 = true.
Proof.
  apply (request_multiplier_total BillingExample.policy BillingExample.compiled "high"
           BillingExample.compiled_ok).
Defined.

Lemma time_multiplier_bounded_witness :
  dec_leb 0 (time_multiplier BillingExample.compiled (119 : Z)) = true ∧
  dec_leb (time_multiplier BillingExample.compiled (119 : Z)) 2 = true.
Proof.
  apply (time_multiplier_bounded BillingExample.policy BillingExample.compiled 119
           BillingExample.compiled_ok).
Defined.
