(* ===== verification/Cost.v ===== *)
(** * Request costs

    Models [src/application/billing.rs] (effective unit prices, cost and
    throughput of one terminal request), the request-log billing types of
    [src/domain/request_log.rs], and the publication checks of
    [src/runtime_config/mod.rs] that bound effective prices before a snapshot
    is published.  A panicking decimal operation is [None]. *)

From S2P Require Import Prelude Text Decimal Domain Records Billing.

(** ** Domain types *)

Record RequestUsage := {
  input_tokens : Z;
  cached_input_tokens : Z;
  cache_write_tokens : Z;
  output_tokens : Z;
  reasoning_tokens : Z;
}.

Inductive RequestLogOutcome := Succeeded | Failed | Rejected | Cancelled.

Definition forces_zero_cost (o : RequestLogOutcome) : bool :=
  match o with Failed | Cancelled => true | _ => false end.

Definition i64_min : Z := -9223372036854775808.
Definition i32_max : Z := 2147483647.
Definition i32_min : Z := -2147483648.
(** [i64::saturating_sub] / [i32::saturating_sub]. *)
Definition sat_sub_i64 (a b : Z) : Z := Z.max i64_min (Z.min i64_max (a - b)).
Definition sat_sub_i32 (a b : Z) : Z := Z.max i32_min (Z.min i32_max (a - b)).

Section cost.
Context {D V T : Type} `{DecimalOps D} `{JsonOps V} `{UtcOps T}.

Record ModelPriceSnapshot := {
  ps_currency : string;
  ps_price_unit_tokens : Z;
  ps_price_effective_at : T;
  ps_input_unit_price : D;
  ps_cached_input_unit_price : D;
  ps_cache_write_unit_price : D;
  ps_output_unit_price : D;
}.

Record RequestPriceSnapshot := {
  currency : string;
  price_unit_tokens : Z;
  price_effective_at : T;
  input_unit_price : D;
  cached_input_unit_price : D;
  cache_write_unit_price : D;
  output_unit_price : D;
}.

Record RequestBilling := {
  usage : option RequestUsage;
  price : RequestPriceSnapshot;
  cost_amount : option D;
  output_tokens_per_second : option D;
  peak_pricing : bool;
}.

Record RequestBillingFactors := {
  started_at : T;
  channel_multiplier : D;
  factor_request_multiplier : D;
}.

(** ** Cost computation *)

Definition request_billing_multiplier_for_value
    (b : CompiledAdvancedBilling D V) (request : V) : option D :=
  if negb (has_request_multipliers b) then Some dec_one
  else request_multiplier b request.

Definition effective_unit_price (price billing_multiplier : D) : option D :=
  product ← dec_checked_mul price billing_multiplier;
  Some (dec_round_dp product 12).

Definition calculate_cost (u : RequestUsage) (p : RequestPriceSnapshot) : option D :=
  let unit := dec_of_i64 p.(price_unit_tokens) in
  let non_cached_input := sat_sub_i64 u.(input_tokens) u.(cached_input_tokens) in
  a ← dec_checked_mul (dec_of_i64 non_cached_input) p.(input_unit_price);
  b ← dec_checked_mul (dec_of_i64 u.(cached_input_tokens)) p.(cached_input_unit_price);
  ab ← dec_checked_add a b;
  c ← dec_checked_mul (dec_of_i64 u.(cache_write_tokens)) p.(cache_write_unit_price);
  abc ← dec_checked_add ab c;
  d ← dec_checked_mul (dec_of_i64 u.(output_tokens)) p.(output_unit_price);
  total ← dec_checked_add abc d;
  quotient ← dec_checked_div total unit;
  Some (dec_round_dp quotient 8).

(** [Decimal::from(output) * 1000 / generation_ms], rounded to four places. *)
Definition tokens_per_second (u : RequestUsage) (total_duration_ms ttft_ms : Z) : option D :=
  let generation_ms := Z.max (sat_sub_i32 total_duration_ms ttft_ms) 1 in
  product ← dec_checked_mul (dec_of_i64 u.(output_tokens)) (dec_of_i64 1000);
  quotient ← dec_checked_div product (dec_of_i64 generation_ms);
  Some (dec_round_dp quotient 4).

(** The unit prices before multiplication. *)
Definition selected_prices (s : ModelPriceSnapshot) (b : CompiledAdvancedBilling D V)
    (u : option RequestUsage) : D * D * D * D :=
  match u with
  | None =>
      (s.(ps_input_unit_price), s.(ps_cached_input_unit_price),
       s.(ps_cache_write_unit_price), s.(ps_output_unit_price))
  | Some u =>
      prices b u.(input_tokens) s.(ps_input_unit_price) s.(ps_cached_input_unit_price)
        s.(ps_cache_write_unit_price) s.(ps_output_unit_price)
  end.

Definition price_snapshot (s : ModelPriceSnapshot) (selected : D * D * D * D)
    (billing_multiplier : D) : option RequestPriceSnapshot :=
  let '(pi, pc, pw, po) := selected in
  ei ← effective_unit_price pi billing_multiplier;
  ec ← effective_unit_price pc billing_multiplier;
  ew ← effective_unit_price pw billing_multiplier;
  eo ← effective_unit_price po billing_multiplier;
  Some {| currency := s.(ps_currency);
          price_unit_tokens := s.(ps_price_unit_tokens);
          price_effective_at := s.(ps_price_effective_at);
          input_unit_price := ei; cached_input_unit_price := ec;
          cache_write_unit_price := ew; output_unit_price := eo |}.

Definition billing_multiplier (b : CompiledAdvancedBilling D V) (f : RequestBillingFactors)
  : option D :=
  m ← dec_checked_mul f.(channel_multiplier) f.(factor_request_multiplier);
  dec_checked_mul m (time_multiplier b f.(started_at)).

Definition request_billing (s : ModelPriceSnapshot) (b : CompiledAdvancedBilling D V)
    (f : RequestBillingFactors) (u : option RequestUsage) (total_duration_ms : Z)
    (ttft_ms : option Z) (outcome : RequestLogOutcome) : option RequestBilling :=
  multiplier ← billing_multiplier b f;
  price ← price_snapshot s (selected_prices s b u) multiplier;
  cost ← (if forces_zero_cost outcome then Some (Some dec_zero)
          else match u with
               | None => Some None
               | Some u => Some <$> calculate_cost u price
               end);
  tps ← match u, ttft_ms with
        | Some u, Some ttft =>
            if 0 <? u.(output_tokens)
            then Some <$> tokens_per_second u total_duration_ms ttft
            else Some None
        | _, _ => Some None
        end;
  Some {| usage := u; price := price; cost_amount := cost;
          output_tokens_per_second := tps;
          peak_pricing := dec_ltb dec_one (time_multiplier b f.(started_at)) |}.

(** ** Publication checks *)

Inductive ConfigError := ConfigCompile.

(** [serde_json::from_value::<AdvancedBilling>] *)
Context (from_value : V → option (AdvancedBilling D V)).

Definition compile_advanced_billing (r : ModelRuleRecord D V T)
  : result (CompiledAdvancedBilling D V) ConfigError :=
  match from_value r.(mr_advanced_billing) with
  | None => Err ConfigCompile
  | Some v => match compile v with Ok b => Ok b | Err _ => Err ConfigCompile end
  end.

Definition maximum_effective_billing_multiplier (b : CompiledAdvancedBilling D V)
    (channel_multiplier : D) : option D :=
  m ← dec_checked_mul channel_multiplier b.(c_maximum_request_multiplier);
  dec_checked_mul m b.(c_maximum_time_multiplier).

Definition max_persisted_unit_price : D :=
  dec_of_i128_with_scale 999999999999999999999999 12.

(** The body of the loop over the price candidates. *)
Definition price_within (maximum_multiplier price : D) : bool :=
  match dec_checked_mul price maximum_multiplier with
  | None => false
  | Some effective => negb (dec_ltb max_persisted_unit_price (dec_round_dp effective 12))
  end.

Definition validate_effective_channel_prices (r : ModelRuleRecord D V T)
    (billing_multiplier : D) : result unit ConfigError :=
  match compile_advanced_billing r with
  | Err e => Err e
  | Ok b =>
      match maximum_effective_billing_multiplier b billing_multiplier with
      | None => Err ConfigCompile
      | Some maximum_multiplier =>
          if forallb (price_within maximum_multiplier)
               (price_candidates b r.(mr_input_unit_price) r.(mr_cached_input_unit_price)
                  r.(mr_cache_write_unit_price) r.(mr_output_unit_price))
          then Ok tt else Err ConfigCompile
      end
  end.

Definition compile_model_price_snapshot (r : ModelRuleRecord D V T)
  : result ModelPriceSnapshot ConfigError :=
  if negb (String.eqb r.(mr_model_currency) "USD")
     || (r.(mr_price_unit_tokens) <=? 0)
     || existsb dec_is_sign_negative
          [r.(mr_input_unit_price); r.(mr_cached_input_unit_price);
           r.(mr_cache_write_unit_price); r.(mr_output_unit_price)]
  then Err ConfigCompile
  else Ok {| ps_currency := r.(mr_model_currency);
             ps_price_unit_tokens := r.(mr_price_unit_tokens);
             ps_price_effective_at := r.(mr_price_effective_at);
             ps_input_unit_price := r.(mr_input_unit_price);
             ps_cached_input_unit_price := r.(mr_cached_input_unit_price);
             ps_cache_write_unit_price := r.(mr_cache_write_unit_price);
             ps_output_unit_price := r.(mr_output_unit_price) |}.
End cost.

Arguments ModelPriceSnapshot D T : clear implicits.
Arguments RequestPriceSnapshot D T : clear implicits.
Arguments RequestBilling D T : clear implicits.
Arguments RequestBillingFactors D T : clear implicits.

(** ** Effective prices of a published rule *)

Section published.
Context {D V T : Type} `{DecimalLaws D} `{JsonOps V} `{!UtcOps T} `{!UtcLaws T}.
Context (from_value : V → option (AdvancedBilling D V)).
Implicit Types (b : CompiledAdvancedBilling D V) (s : ModelPriceSnapshot D T)
  (r : ModelRuleRecord D V T) (u : option RequestUsage).

(** The facts the snapshot compiler establishes for a rule and a channel
    before it publishes a candidate. *)
Record published r (channel : D) b s : Prop := {
  pub_channel : dec_is_sign_negative channel = false;
  pub_prices : validate_effective_channel_prices from_value r channel = Ok tt;
  pub_billing : compile_advanced_billing from_value r = Ok b;
  pub_snapshot : compile_model_price_snapshot r = Ok s;
}.

Lemma compile_advanced_billing_inv r b :
  compile_advanced_billing from_value r = Ok b → ∃ v, compile v = Ok b.
Proof. unfold compile_advanced_billing. intros. split_cases; eauto. Qed.

Lemma selected_prices_candidates s b u pi pc pw po :
  selected_prices s b u = (pi, pc, pw, po) →
  ∀ p, p ∈ [pi; pc; pw; po] →
    p ∈ price_candidates b s.(ps_input_unit_price) s.(ps_cached_input_unit_price)
          s.(ps_cache_write_unit_price) s.(ps_output_unit_price).
Proof.
  unfold selected_prices, prices, price_candidates. intros Hsel p Hp.
  apply elem_of_app. destruct u as [u|]; [|simplify_eq; set_solver].
  destruct (List.find _ _) as [t|] eqn:E; [|simplify_eq; set_solver].
  apply find_some in E as [Hin%in_rev _]. simplify_eq.
  assert (p ∈ [ps_input_unit_price s; ps_cached_input_unit_price s; ps_cache_write_unit_price s;
               ps_output_unit_price s]
    ∨ p ∈ [tier_input_unit_price t; tier_cached_input_unit_price t; tier_cache_write_unit_price t]
        ++ match tier_output_unit_price t with Some q => [q] | None => [] end) as [Hb|Ht].
  { destruct (tier_output_unit_price t); simpl in *; set_solver. }
  - by left.
  - right. apply list_elem_of_In, in_flat_map. exists t.
    split; [done|by apply list_elem_of_In].
Qed.

Lemma price_candidates_nonneg r b s :
  compile_advanced_billing from_value r = Ok b → compile_model_price_snapshot r = Ok s →
  ∀ p, p ∈ price_candidates b s.(ps_input_unit_price) s.(ps_cached_input_unit_price)
             s.(ps_cache_write_unit_price) s.(ps_output_unit_price) →
    dec_leb dec_zero p = true.
Proof.
  intros [v Hv]%compile_advanced_billing_inv Hs p Hp. apply dec_sign_nonneg.
  apply compile_inv in Hv as (Htiers & _ & _ & _ & Hb & _). unfold price_candidates in Hp.
  apply elem_of_app in Hp as [Hp|Hp].
  - unfold compile_model_price_snapshot in Hs. case_match eqn:Hg; [done|].
    apply orb_false_iff in Hg as [_ Hg]. simplify_eq/=. repeat setoid_rewrite orb_false_iff in Hg.
    set_solver.
  - apply list_elem_of_In, in_flat_map in Hp as (t & Ht & Hp). rewrite Hb in Ht. clear Hb.
    revert Ht Htiers. generalize 0. induction (long_context_tiers v) as [|t' tiers IH];
      intros z Ht Hc; simpl in *; [done|].
    case_match eqn:Hg; [done|]. destruct Ht as [->|Ht]; [|by eapply IH].
    apply orb_false_iff in Hg as [Hg Ho]. apply orb_false_iff in Hg as [_ Hg].
    repeat setoid_rewrite orb_false_iff in Hg.
    destruct (tier_output_unit_price t); simpl in *; naive_solver.
Qed.

Lemma request_multiplier_for_value_bounded b v request :
  compile v = Ok b →
  ∃ m, request_billing_multiplier_for_value b request = Some m ∧
    dec_leb dec_zero m = true ∧ dec_leb m b.(c_maximum_request_multiplier) = true.
Proof.
  intros Hv. apply compile_inv in Hv as (_ & Hr & _ & Hf & _ & Hreq & _).
  unfold request_billing_multiplier_for_value, has_request_multipliers, request_multiplier.
  rewrite Hreq. destruct (request_multipliers v) as [|r0 rs] eqn:E.
  - simpl in *. simplify_eq. exists dec_one. rewrite <-Hf.
    eauto using dec_zero_le_one, dec_leb_refl.
  - simpl negb. cbn iota. rewrite <-E in *. eapply multiply_rules_bounded;
      [by eapply check_requests_nonneg|apply dec_zero_le_one|apply dec_leb_refl|done].
Qed.

Lemma time_multiplier_within b v (t : T) :
  compile v = Ok b →
  dec_leb dec_zero (time_multiplier b t) = true ∧
  dec_leb (time_multiplier b t) b.(c_maximum_time_multiplier) = true.
Proof. apply time_multiplier_range. Qed.

Lemma billing_multiplier_bounded r channel b s (t : T) m :
  published r channel b s →
  dec_leb dec_zero m = true → dec_leb m b.(c_maximum_request_multiplier) = true →
  ∃ M k, maximum_effective_billing_multiplier b channel = Some M ∧
    billing_multiplier b {| started_at := t; channel_multiplier := channel;
                            factor_request_multiplier := m |} = Some k ∧
    dec_leb dec_zero k = true ∧ dec_leb k M = true.
Proof.
  intros [Hch%dec_sign_nonneg Hp Hb _] Hm0 Hle.
  destruct (compile_advanced_billing_inv _ _ Hb) as [v Hv].
  destruct (time_multiplier_within b v t Hv) as [Ht0 Ht].
  unfold validate_effective_channel_prices in Hp. rewrite Hb in Hp.
  destruct (maximum_effective_billing_multiplier b channel) as [M|] eqn:HM; [|done].
  exists M. unfold maximum_effective_billing_multiplier in HM.
  apply bind_Some in HM as (x & Hx & HM). unfold billing_multiplier; simpl.
  destruct (dec_mul_mono channel channel m b.(c_maximum_request_multiplier) x)
    as (y & -> & Hy0 & Hy); eauto using dec_leb_refl. simpl.
  destruct (dec_mul_mono y x (time_multiplier b t) b.(c_maximum_time_multiplier) M)
    as (k & -> & ? & ?); eauto.
Qed.

Lemma effective_price_bounded r channel b s M k p :
  published r channel b s →
  maximum_effective_billing_multiplier b channel = Some M →
  dec_leb dec_zero k = true → dec_leb k M = true →
  p ∈ price_candidates b s.(ps_input_unit_price) s.(ps_cached_input_unit_price)
        s.(ps_cache_write_unit_price) s.(ps_output_unit_price) →
  ∃ e, effective_unit_price p k = Some e ∧ dec_leb dec_zero e = true ∧
    dec_leb e max_persisted_unit_price = true.
Proof.
  intros [_ Hp Hb Hs] HM Hk0 Hk Hin. pose proof (price_candidates_nonneg r b s Hb Hs p Hin) as Hp0.
  unfold validate_effective_channel_prices in Hp. rewrite Hb, HM in Hp.
  case_match eqn:Hall; [|done]. rewrite forallb_forall in Hall.
  assert (price_within M p = true) as Hw.
  { apply Hall, list_elem_of_In. unfold compile_model_price_snapshot in Hs.
    case_match; [done|]. by simplify_eq. }
  unfold price_within in Hw. destruct (dec_checked_mul p M) as [x|] eqn:Hx; [|done].
  apply negb_true_iff, dec_ltb_false_le in Hw.
  destruct (dec_mul_mono p p k M x) as (y & Hy & Hy0 & Hyx); eauto using dec_leb_refl.
  unfold effective_unit_price. rewrite Hy. simpl. eexists; split; [done|]. split.
  - eapply dec_leb_trans; [apply (dec_round_zero 12)|]. by apply dec_round_mono.
  - eapply dec_leb_trans; [|done]. by apply dec_round_mono.
Qed.

(** Both prices computed for a request are within persisted precision. *)
Definition prices_within (p : RequestPriceSnapshot D T) : Prop :=
  ∀ e, e ∈ [p.(input_unit_price); p.(cached_input_unit_price);
            p.(cache_write_unit_price); p.(output_unit_price)] →
    dec_leb dec_zero e = true ∧ dec_leb e max_persisted_unit_price = true.

Lemma price_snapshot_total r channel b s u M k :
  published r channel b s →
  maximum_effective_billing_multiplier b channel = Some M →
  dec_leb dec_zero k = true → dec_leb k M = true →
  ∃ p, price_snapshot s (selected_prices s b u) k = Some p ∧ prices_within p.
Proof.
  intros Hpub HM Hk0 Hk. unfold price_snapshot.
  destruct (selected_prices s b u) as [[[pi pc] pw] po] eqn:Hsel.
  pose proof (selected_prices_candidates s b u _ _ _ _ Hsel) as Hc.
  destruct (effective_price_bounded r channel b s M k pi) as (ei & -> & ?); [set_solver..|].
  destruct (effective_price_bounded r channel b s M k pc) as (ec & -> & ?); [set_solver..|].
  destruct (effective_price_bounded r channel b s M k pw) as (ew & -> & ?); [set_solver..|].
  destruct (effective_price_bounded r channel b s M k po) as (eo & -> & ?); [set_solver..|].
  simpl. eexists; split; [done|]. unfold prices_within; simpl. set_solver.
Qed.

(** For a rule and channel that passed publication, the billing factor
    and the four effective unit prices of any request, at any time and for
    any reported usage, are computed without a decimal overflow (none of the
    [expect]s of the data plane can fire), are non-negative and fit the
    persisted precision of 12 integer and 12 fractional digits. *)
Theorem effective_prices_total r channel b s u (t : T) (request : V)
    (Hpub : published r channel b s) :
  ∃ m k p,
    request_billing_multiplier_for_value b request = Some m ∧
    billing_multiplier b {| started_at := t; channel_multiplier := channel;
                            factor_request_multiplier := m |} = Some k ∧
    price_snapshot s (selected_prices s b u) k = Some p ∧ prices_within p.
Proof.
  destruct (compile_advanced_billing_inv r b) as [v Hv]; [apply Hpub|].
  destruct (request_multiplier_for_value_bounded b v request Hv) as (m & Hm & Hm0 & Hle).
  destruct (billing_multiplier_bounded r channel b s t m) as (M & k & HM & Hk & Hk0 & HkM); [done..|].
  destruct (price_snapshot_total r channel b s u M k) as (p & Hp & Hw); [done..|].
  eauto 10.
Qed.

(** Failed and cancelled requests cost zero, and a request whose usage is
    unknown has no cost unless its outcome forces zero; in both cases the
    billing record of a published rule is produced without a panic. *)
Theorem request_billing_zero_or_unknown r channel b s u (t : T) (request : V) duration ttft outcome
    (Hpub : published r channel b s)
    (Hcase : forces_zero_cost outcome = true ∧ ttft = None ∨ u = None) :
  ∃ m rb,
    request_billing_multiplier_for_value b request = Some m ∧
    request_billing s b {| started_at := t; channel_multiplier := channel;
                           factor_request_multiplier := m |} u duration ttft outcome = Some rb ∧
    rb.(usage) = u ∧
    rb.(cost_amount) = (if forces_zero_cost outcome then Some dec_zero else None) ∧
    rb.(output_tokens_per_second) = None ∧
    rb.(peak_pricing) = dec_ltb dec_one (time_multiplier b t).
Proof.
  destruct (compile_advanced_billing_inv r b) as [v Hv]; [apply Hpub|].
  destruct (request_multiplier_for_value_bounded b v request Hv) as (m & Hm & Hm0 & Hle).
  destruct (billing_multiplier_bounded r channel b s t m) as (M & k & HM & Hk & Hk0 & HkM); [done..|].
  destruct (price_snapshot_total r channel b s u M k) as (p & Hp & _); [done..|].
  exists m. unfold request_billing. rewrite Hk; simpl. rewrite Hp; simpl.
  destruct Hcase as [[-> ->]| ->].
  - destruct u; simpl; eexists; repeat split; done.
  - destruct (forces_zero_cost outcome); simpl; eexists; repeat split; done.
Qed.
End published.

(** ** Concrete instances and witnesses *)

Module CostExample.
Import BillingExample.
Definition parse_policy (v : string) : option (AdvancedBilling Z string) :=
  if String.eqb v "policy" then Some policy
  else Some {| long_context_tiers := []; request_multipliers := []; time_multipliers := [] |}.
Definition record (policy_name : string) (p : Z) : ModelRuleRecord Z string Z :=
  {| mr_id := 1%N; mr_client_model := "model"; mr_api_format := "open_ai_responses";
     mr_api_operation := ApiOperation.Responses; mr_model_id := 2%N; mr_model_enabled := true;
     mr_model_currency := "USD"; mr_price_unit_tokens := 1; mr_price_effective_at := 0;
     mr_input_unit_price := p; mr_cached_input_unit_price := 1; mr_cache_write_unit_price := 1;
     mr_output_unit_price := 4; mr_advanced_billing := policy_name; mr_routing_tiers := [];
     mr_enabled := true |}.
Definition snapshot (p : Z) : ModelPriceSnapshot Z Z :=
  {| ps_currency := "USD"; ps_price_unit_tokens := 1; ps_price_effective_at := 0;
     ps_input_unit_price := p; ps_cached_input_unit_price := 1;
     ps_cache_write_unit_price := 1; ps_output_unit_price := 4 |}.

Lemma published_example : published parse_policy (record "policy" 2) 2 compiled (snapshot 2).
Proof. split; vm_compute; reflexivity. Qed.

Definition huge_usage : RequestUsage :=
  {| input_tokens := i64_max; cached_input_tokens := 0; cache_write_tokens := 0;
     output_tokens := 0; reasoning_tokens := 0 |}.
End CostExample.

Lemma effective_prices_total_witness :
  ∃ m k p,
    request_billing_multiplier_for_value BillingExample.compiled "high" = Some m ∧
    billing_multiplier BillingExample.compiled
      {| started_at := 119; channel_multiplier := 2; factor_request_multiplier := m |} = Some k ∧
    price_snapshot (CostExample.snapshot 2)
      (selected_prices (CostExample.snapshot 2) BillingExample.compiled None) k = Some p ∧
    prices_within p.
Proof.
  apply (effective_prices_total CostExample.parse_policy (CostExample.record "policy" 2) 2
           BillingExample.compiled (CostExample.snapshot 2) None 119 "high").
  apply CostExample.published_example.
Defined.

Lemma request_billing_zero_or_unknown_witness :
  ∃ m rb,
    request_billing_multiplier_for_value BillingExample.compiled "high" = Some m ∧
    request_billing (CostExample.snapshot 2) BillingExample.compiled
      {| started_at := 119; channel_multiplier := 2; factor_request_multiplier := m |}
      None 10 None Failed = Some rb ∧
    rb.(usage) = None ∧ rb.(cost_amount) = Some dec_zero ∧ rb.(output_tokens_per_second) = None ∧
    rb.(peak_pricing) = dec_ltb dec_one (time_multiplier BillingExample.compiled 119).
Proof.
  apply (request_billing_zero_or_unknown CostExample.parse_policy (CostExample.record "policy" 2) 2
           BillingExample.compiled (CostExample.snapshot 2) None 119 "high" 10 None Failed).
  - apply CostExample.published_example.
  - right. reflexivity.
Defined.

