(* ===== verification/Json.v ===== *)
(** * JSON values

    The [serde_json::Value] type as the repository uses it: the crate is built
    without [preserve_order], so an object is a map ordered by key (a
    [BTreeMap]).  Only the accessors the modelled code calls are here. *)

From S2P Require Import Prelude.

(** A number that is an integer of [i64] or [u64], or the bits of an [f64]. *)
Inductive Number := Int (z : Z) | Float (bits : Z).

#[warnings="-register-all"]
Inductive Json :=
| JNull
| JBool (b : bool)
| JNumber (n : Number)
| JString (s : string)
| JArray (l : list Json)
| JObject (fields : list (string * Json)).

(** [BTreeMap::get] *)
Fixpoint map_get (fields : list (string * Json)) (key : string) : option Json :=
  match fields with
  | [] => None
  | (k, v) :: fields' => if String.eqb k key then Some v else map_get fields' key
  end.

(** [BTreeMap::insert]: replaces the value of an existing key. *)
Fixpoint map_insert (fields : list (string * Json)) (key : string) (value : Json) : list (string * Json) :=
  match fields with
  | [] => [(key, value)]
  | (k, v) :: fields' =>
      match String.compare key k with
      | Eq => (key, value) :: fields'
      | Lt => (key, value) :: fields
      | Gt => (k, v) :: map_insert fields' key value
      end
  end.

(** [Value::get] with a string index. *)
Definition value_get (v : Json) (key : string) : option Json :=
  match v with JObject fields => map_get fields key | _ => None end.

(** [Value::as_str], [Value::as_object], [Value::as_bool]. *)
Definition as_str (v : Json) : option string := match v with JString s => Some s | _ => None end.
Definition as_object (v : Json) : option (list (string * Json)) :=
  match v with JObject fields => Some fields | _ => None end.
Definition as_bool (v : Json) : option bool := match v with JBool b => Some b | _ => None end.

(** [Value::as_i64], [Value::as_u64]: integers in the range of the type. *)
Definition as_i64 (v : Json) : option Z :=
  match v with JNumber (Int z) => if (- 2 ^ 63 <=? z) && (z <? 2 ^ 63) then Some z else None | _ => None end.
Definition as_u64 (v : Json) : option Z :=
  match v with JNumber (Int z) => if (0 <=? z) && (z <? 2 ^ 64) then Some z else None | _ => None end.

(** [value[key] = v] for an object or null; it panics on other values. *)
Definition index_set (v : Json) (key : string) (x : Json) : option Json :=
  match v with
  | JObject fields => Some (JObject (map_insert fields key x))
  | JNull => Some (JObject [(key, x)])
  | _ => None
  end.

Lemma map_get_insert fields key x : map_get (map_insert fields key x) key = Some x.
Proof.
  induction fields as [|[k v] fields IH]; simpl; [by rewrite String.eqb_refl|].
  destruct (String.compare key k) eqn:E; simpl; rewrite ?String.eqb_refl; try done.
  destruct (String.eqb_spec k key) as [->|]; [|done].
  pose proof (String.compare_antisym key key) as Ha. by rewrite E in Ha.
Qed.

Lemma map_get_insert_ne fields key key' x :
  key' ≠ key → map_get (map_insert fields key x) key' = map_get fields key'.
Proof.
  intros Hne. assert (Hk : String.eqb key key' = false) by (apply String.eqb_neq; congruence).
  induction fields as [|[k v] fields IH]; simpl; [by rewrite Hk|].
  destruct (String.compare key k) eqn:E; simpl; rewrite ?Hk; try done.
  - apply String.compare_eq_iff in E as <-. by rewrite Hk.
  - by rewrite IH.
Qed.
