(* ===== verification/Journal.v ===== *)
(** * Versioned request-log journal

    Models [src/request_log_journal.rs] and the event type of
    [src/domain/request_log.rs].  The derived [Serialize] and [Deserialize]
    implementations and the JSON text parser are generated or third-party code:
    the class [EventSerde] lists what the journal calls, [EventSerdeLaws] what
    it relies on. *)

From S2P Require Import Prelude Text Decimal Domain Billing Cost Json.

Definition REQUEST_LOG_SCHEMA_VERSION : Z := 8.

(** ** Terminal events *)

Inductive RequestLogSource := Client | ScheduledTest.

Record RequestCredentialAttribution := { credential_id : option uuid }.

Record RequestLogEvent {D T : Type} := {
  ev_id : uuid;
  ev_started_at : T;
  ev_completed_at : T;
  ev_user_id : uuid;
  ev_api_key_id : uuid;
  ev_request_source : RequestLogSource;
  ev_api_format : ApiFormat.t;
  ev_api_operation : ApiOperation.t;
  ev_request_protocol : RequestProtocol.t;
  ev_client_model : string;
  ev_reasoning_effort : option string;
  ev_fast_mode : bool;
  ev_upstream_model : option string;
  ev_model_rule_id : option uuid;
  ev_channel_group_id : option uuid;
  ev_channel_id : option uuid;
  ev_upstream_credential : option RequestCredentialAttribution;
  ev_model_id : option uuid;
  ev_outcome : RequestLogOutcome;
  ev_response_status_code : option Z;
  ev_streamed : bool;
  ev_ttft_ms : option Z;
  ev_total_duration_ms : Z;
  ev_billing : option (RequestBilling D T);
  ev_error_code : option string;
  ev_error_summary : option string;
}.
Arguments RequestLogEvent D T : clear implicits.

Definition effective_cost_amount {D T} `{DecimalOps D} (e : RequestLogEvent D T) : option D :=
  if forces_zero_cost e.(ev_outcome) then Some dec_zero
  else e.(ev_billing) ≫= cost_amount.

(** [event.upstream_credential = None] *)
Definition without_credential {D T} (e : RequestLogEvent D T) : RequestLogEvent D T :=
  {| ev_id := e.(ev_id); ev_started_at := e.(ev_started_at); ev_completed_at := e.(ev_completed_at);
     ev_user_id := e.(ev_user_id); ev_api_key_id := e.(ev_api_key_id);
     ev_request_source := e.(ev_request_source); ev_api_format := e.(ev_api_format);
     ev_api_operation := e.(ev_api_operation); ev_request_protocol := e.(ev_request_protocol);
     ev_client_model := e.(ev_client_model); ev_reasoning_effort := e.(ev_reasoning_effort);
     ev_fast_mode := e.(ev_fast_mode); ev_upstream_model := e.(ev_upstream_model);
     ev_model_rule_id := e.(ev_model_rule_id); ev_channel_group_id := e.(ev_channel_group_id);
     ev_channel_id := e.(ev_channel_id); ev_upstream_credential := None;
     ev_model_id := e.(ev_model_id); ev_outcome := e.(ev_outcome);
     ev_response_status_code := e.(ev_response_status_code); ev_streamed := e.(ev_streamed);
     ev_ttft_ms := e.(ev_ttft_ms); ev_total_duration_ms := e.(ev_total_duration_ms);
     ev_billing := e.(ev_billing); ev_error_code := e.(ev_error_code);
     ev_error_summary := e.(ev_error_summary) |}.

(** ** Codec *)

Record EncodedRequestLog := {
  request_log_id : uuid;
  schema_version : Z;
  payload : list Z;
}.

Inductive JournalCodecError :=
| Serialize
| Deserialize
| UnsupportedVersion (version : Z)
| IdentifierMismatch
| JournalPanic.  (** an [expect] of the decoder that fails *)

Class EventSerde (D T : Type) : Type := {
  event_to_vec : RequestLogEvent D T → option (list Z);  (** [serde_json::to_vec] *)
  value_from_slice : list Z → option Json;               (** [from_slice::<Value>] *)
  event_from_slice : list Z → option (RequestLogEvent D T);
  event_from_value : Json → option (RequestLogEvent D T);
  probe_from_slice : list Z → option bool;               (** [from_slice::<ProtocolProbe>] *)
  format_from_value : Json → option ApiFormat.t;         (** [from_value::<ApiFormat>] *)
}.

(** What [serde] and [serde_json] guarantee of the derived implementations: a
    serialized event parses as an object with every field present, and reads
    back as itself. *)
Class EventSerdeLaws (D T : Type) `{EventSerde D T} : Prop := {
  serialized_value e bytes : event_to_vec e = Some bytes →
    ∃ v, value_from_slice bytes = Some v ∧ value_get v "upstream_credential" ≠ None ∧
      event_from_value v = Some e;
  serialized_text e bytes : event_to_vec e = Some bytes → last bytes = Some 125;  (* a closing brace *)
}.

Section journal.
Context {D T : Type} `{EventSerde D T}.
Local Open Scope gateway_scope.

Definition encode (e : RequestLogEvent D T) : result EncodedRequestLog JournalCodecError :=
  bytes <-! ok_or (event_to_vec e) Serialize;
  Ok {| request_log_id := e.(ev_id); schema_version := REQUEST_LOG_SCHEMA_VERSION; payload := bytes |}.

Definition insert_legacy_operation (fields : list (string * Json))
  : result (list (string * Json)) JournalCodecError :=
  api_format <-! ok_or (map_get fields "api_format") Deserialize;
  api_format <-! ok_or (format_from_value api_format) Deserialize;
  Ok (map_insert fields "api_operation" (JString (ApiOperation.as_str
    (if bool_decide (api_format = ApiFormat.OpenAiResponses)
        && bool_decide ((map_get fields "request_protocol" ≫= as_str) = Some "websocket")
     then ApiOperation.ResponsesWebSocket
     else ApiOperation.legacy_default api_format)))).

Definition decode_legacy_operation (bytes : list Z) : result (RequestLogEvent D T) JournalCodecError :=
  value <-! ok_or (value_from_slice bytes) Deserialize;
  value <-! match value_get value "api_operation" ≫= as_str, value_get value "request_protocol" ≫= as_str with
            | Some name, Some protocol =>
                ok_or (index_set value "api_operation" (JString (ApiOperation.normalize_stored_name name protocol)))
                  JournalPanic
            | _, _ => Ok value
            end;
  ok_or (event_from_value value) Deserialize.

Definition decode_v2 (bytes : list Z) : result (RequestLogEvent D T) JournalCodecError :=
  streamed <-! ok_or (probe_from_slice bytes) Deserialize;
  value <-! ok_or (value_from_slice bytes) Deserialize;
  object <-! ok_or (as_object value) JournalPanic;
  object <-! insert_legacy_operation (map_insert object "request_protocol"
    (JString (RequestProtocol.as_str (RequestProtocol.from_http_streamed streamed))));
  ok_or (event_from_value (JObject object)) Deserialize.

Definition decode_v3 (bytes : list Z) : result (RequestLogEvent D T) JournalCodecError :=
  value <-! ok_or (value_from_slice bytes) Deserialize;
  object <-! ok_or (as_object value) JournalPanic;
  object <-! insert_legacy_operation object;
  ok_or (event_from_value (JObject object)) Deserialize.

(** The current version must name the credential, even if it is null. *)
Definition decode_current (bytes : list Z) : result (RequestLogEvent D T) JournalCodecError :=
  value <-! ok_or (value_from_slice bytes) Deserialize;
  match value_get value "upstream_credential" with
  | None => Err Deserialize
  | Some _ => ok_or (event_from_value value) Deserialize
  end.

Definition decode (r : EncodedRequestLog) : result (RequestLogEvent D T) JournalCodecError :=
  let version := r.(schema_version) in
  event <-! (if version =? 2 then decode_v2 r.(payload)
             else if version =? 3 then decode_v3 r.(payload)
             else if (4 <=? version) && (version <=? 6) then decode_legacy_operation r.(payload)
             else if version =? 7 then ok_or (event_from_slice r.(payload)) Deserialize
             else if version =? REQUEST_LOG_SCHEMA_VERSION then decode_current r.(payload)
             else Err (UnsupportedVersion version));
  let event := if version <? REQUEST_LOG_SCHEMA_VERSION then without_credential event else event in
  if bool_decide (event.(ev_id) = r.(request_log_id)) then Ok event else Err IdentifierMismatch.
End journal.

(** ** Properties of the codec *)

Section journal_properties.
Context {D T : Type} `{EventSerdeLaws D T}.
Implicit Types (e : RequestLogEvent D T) (r : EncodedRequestLog).

Lemma encode_Ok e r : encode e = Ok r →
  r.(request_log_id) = e.(ev_id) ∧ r.(schema_version) = REQUEST_LOG_SCHEMA_VERSION ∧
  event_to_vec e = Some r.(payload).
Proof. unfold encode. destruct (event_to_vec e) as [b|]; simpl; [|done]. intros [= <-]. done. Qed.

(** What is written with the current version reads back unchanged. *)
Lemma decode_encode e r : encode e = Ok r → decode r = Ok e.
Proof.
  intros (Hid & Hv & Hp)%encode_Ok. unfold decode. rewrite Hv. simpl.
  destruct (serialized_value e r.(payload) Hp) as (v & Hfrom & Hcred & Hev).
  unfold decode_current. rewrite Hfrom. simpl. destruct (value_get v "upstream_credential"); [|done].
  rewrite Hev. simpl. by rewrite bool_decide_true.
Qed.

(** The version-specific part of [decode], before the credential and the
    identifier are checked. *)
Lemma decode_Ok r e : decode r = Ok e →
  e.(ev_id) = r.(request_log_id) ∧ 2 ≤ r.(schema_version) ≤ REQUEST_LOG_SCHEMA_VERSION ∧
  (r.(schema_version) < REQUEST_LOG_SCHEMA_VERSION → e.(ev_upstream_credential) = None).
Proof.
  unfold decode, REQUEST_LOG_SCHEMA_VERSION. intros Hd.
  match type of Hd with result_bind ?m _ = _ => destruct m as [e0|] eqn:E; simpl in Hd; [|done] end.
  case_bool_decide as Hid; [|done]. injection Hd as <-. split; [done|]. split.
  - repeat case_match; breflect; try lia; done.
  - intros Hlt. apply Z.ltb_lt in Hlt. by rewrite Hlt.
Qed.

Lemma insert_legacy_operation_no_panic fields : insert_legacy_operation fields ≠ Err JournalPanic.
Proof. unfold insert_legacy_operation, ok_or, result_bind. by repeat case_match; simplify_eq. Qed.

(** [index_set] is only reached with an object. *)
Lemma decode_legacy_operation_no_panic bytes : decode_legacy_operation bytes ≠ Err JournalPanic.
Proof.
  unfold decode_legacy_operation, ok_or, result_bind. destruct (value_from_slice bytes) as [v|]; [|done].
  destruct v; simpl; repeat case_match; simplify_eq; done.
Qed.

Lemma decode_v3_panic bytes : decode_v3 (D := D) (T := T) bytes = Err JournalPanic ↔
  ∃ v, value_from_slice bytes = Some v ∧ as_object v = None.
Proof.
  unfold decode_v3, ok_or, result_bind. destruct (value_from_slice bytes) as [v|]; [|naive_solver].
  destruct (as_object v) as [fields|] eqn:Ho; [|naive_solver].
  pose proof (insert_legacy_operation_no_panic fields). destruct (insert_legacy_operation _); [case_match|]; naive_solver.
Qed.

Lemma decode_v2_panic bytes : decode_v2 (D := D) (T := T) bytes = Err JournalPanic ↔
  probe_from_slice bytes ≠ None ∧ ∃ v, value_from_slice bytes = Some v ∧ as_object v = None.
Proof.
  unfold decode_v2, ok_or, result_bind. destruct (probe_from_slice bytes) as [b|]; [|naive_solver].
  destruct (value_from_slice bytes) as [v|]; [|naive_solver].
  destruct (as_object v) as [fields|] eqn:Ho; [|naive_solver].
  set (fields' := map_insert _ _ _). pose proof (insert_legacy_operation_no_panic fields').
  destruct (insert_legacy_operation _); [case_match|]; naive_solver.
Qed.

(** Only the decoders of the first two versions can panic. *)
Lemma decode_panic r : decode (D := D) (T := T) r = Err JournalPanic ↔
  r.(schema_version) = 2 ∧ decode_v2 (D := D) (T := T) r.(payload) = Err JournalPanic ∨
  r.(schema_version) = 3 ∧ decode_v3 (D := D) (T := T) r.(payload) = Err JournalPanic.
Proof.
  split.
  - unfold decode. intros Hd.
    match type of Hd with result_bind ?m _ = _ => destruct m as [e0|err] eqn:E; simpl in Hd end.
    { by case_bool_decide. }
    injection Hd as ->. repeat case_match; breflect; simplify_eq; auto.
    + by apply decode_legacy_operation_no_panic in E.
    + unfold ok_or in E. case_match; done.
    + unfold decode_current, ok_or, result_bind in E. repeat case_match; simplify_eq; done.
  - unfold decode. intros [[-> Hd]|[-> Hd]]; simpl; by rewrite Hd.
Qed.
End journal_properties.

Section journal_claims.
Context {D T : Type} `{EventSerdeLaws D T}.

(** A journalled event reads back as itself. *)
Theorem journal_round_trip (e : RequestLogEvent D T) r : encode e = Ok r → decode r = Ok e.
Proof. apply decode_encode. Qed.

End journal_claims.
