(* ===== verification/Disk.v ===== *)
(** * Files, faults and crashes

    The file-system calls that the request-log spool makes, on an explicit disk
    and with explicit faults.  Every call consumes one [Outcome] of the fault
    plan: it completes, it returns an I/O error, or the process dies in it.  A
    write that does not complete leaves a prefix of its bytes.  An empty plan
    means that every call completes.

    [IO A] is the monad of such programs over a disk and the volatile memory
    [M] of the process.  A Rust [Err] is the exit [Failed]; the disk and the
    memory keep what was done before it. *)

From S2P Require Import Prelude.

(** ** Disk contents *)

(** A regular file: its bytes, then [hole] zero bytes (an allocated region that
    was never written). *)
Record File := { data : list Z; hole : Z }.

Definition file_len (f : File) : Z := Z.of_nat (length f.(data)) + f.(hole).
(** [n] bytes from [offset], or [None] past the end ([read_exact]). *)
Definition file_read (f : File) (offset n : nat) : option (list Z) :=
  if Z.of_nat (offset + n) <=? file_len f
  then let l := take n (drop offset f.(data)) in Some (l ++ replicate (n - length l) 0)
  else None.
(** The file with [l] written at [offset]; a write past the end extends it. *)
Definition file_write (f : File) (offset : nat) (l : list Z) : File :=
  let before := take offset f.(data) in
  {| data := before ++ replicate (offset - length before) 0 ++ l ++ drop (offset + length l) f.(data);
     hole := Z.min f.(hole) (Z.max 0 (file_len f - Z.of_nat (offset + length l))) |}.
(** [set_len] to a size that is not larger. *)
Definition file_truncate (f : File) (n : nat) : File :=
  {| data := take n f.(data); hole := Z.max 0 (Z.of_nat n - Z.of_nat (length f.(data))) |}.

Inductive Entry := RegularFile (f : File) | OtherEntry.

(** [events]: the bytes of [events.log], [events_synced] of them known to be on
    stable storage.  [checkpoints]: the contents [checkpoint] has had since the
    directory was last synchronised, the current one first.  [admissions]: the
    directory entries by file stem and extension.  [locked]: whether a process
    holds [spool.lock]. *)
Record Disk := {
  events : list Z;
  events_synced : nat;
  checkpoint_file : option (list Z);
  checkpoint_history : list (option (list Z));
  checkpoint_temp : option (list Z);
  admissions : gmap (string * string) Entry;
  locked : bool;
}.

(** The largest offset of a file ([off_t]). *)
Definition max_file_size : Z := i64_max.

(** ** Faults *)

Inductive Verdict := Completes | Fails | Halts.
Record Outcome := {
  verdict : Verdict;
  written : nat;     (** bytes a write leaves when it does not complete *)
  space : Z;         (** the answer to a free-space query *)
}.
Definition completes : Outcome := {| verdict := Completes; written := 0; space := u64_max |}.

(** ** Programs *)

Inductive exit (E A : Type) :=
| Done (a : A)
| Failed (e : E)
| Crashed
| OutOfFuel.
Arguments Done {E A} a.
Arguments Failed {E A} e.
Arguments Crashed {E A}.
Arguments OutOfFuel {E A}.

Record Sys (M : Type) := { disk : Disk; faults : list Outcome; mem : M }.
Arguments disk {M} _.
Arguments faults {M} _.
Arguments mem {M} _.

Definition IO (M E A : Type) : Type := Sys M → Sys M * exit E A.

Section monad.
Context {M E : Type}.

Definition io_ret {A} (a : A) : IO M E A := λ s, (s, Done a).
Definition throw {A} (e : E) : IO M E A := λ s, (s, Failed e).
Definition io_bind {A B} (m : IO M E A) (k : A → IO M E B) : IO M E B := λ s,
  match m s with
  | (s', Done a) => k a s'
  | (s', Failed e) => (s', Failed e)
  | (s', Crashed) => (s', Crashed)
  | (s', OutOfFuel) => (s', OutOfFuel)
  end.
Definition get_mem : IO M E M := λ s, (s, Done s.(mem)).
Definition put_mem (m : M) : IO M E unit := λ s, ({| disk := s.(disk); faults := s.(faults); mem := m |}, Done tt).
Definition get_disk : IO M E Disk := λ s, (s, Done s.(disk)).
(** [if let Err(error) = m { h; return Err(error) }] *)
Definition on_error {A} (m : IO M E A) (h : M → M) : IO M E A := λ s,
  match m s with
  | (s', Failed e) => ({| disk := s'.(disk); faults := s'.(faults); mem := h s'.(mem) |}, Failed e)
  | r => r
  end.
(** [m.is_err()], with the value of a completed call. *)
Definition try_io {A} (m : IO M E A) : IO M E (option A) := λ s,
  match m s with
  | (s', Done a) => (s', Done (Some a))
  | (s', Failed _) => (s', Done None)
  | (s', Crashed) => (s', Crashed)
  | (s', OutOfFuel) => (s', OutOfFuel)
  end.

Definition next_outcome (s : Sys M) : Outcome * Sys M :=
  match s.(faults) with
  | [] => (completes, s)
  | o :: rest => (o, {| disk := s.(disk); faults := rest; mem := s.(mem) |})
  end.
Definition set_disk (s : Sys M) (d : Disk) : Sys M := {| disk := d; faults := s.(faults); mem := s.(mem) |}.
End monad.

Notation "x <~ m ; k" := (io_bind m (λ x, k))
  (at level 20, m at level 100, k at level 200, right associativity) : gateway_scope.
Notation "m ;~ k" := (io_bind m (λ _, k))
  (at level 100, k at level 200, right associativity) : gateway_scope.

(** ** Calls *)

Section calls.
Context {M E : Type} (io_error : E).
Local Open Scope gateway_scope.

(** A call whose effect happens when it completes, or not at all. *)
Definition call (effect : Disk → Disk) : IO M E unit := λ s,
  let (o, s) := next_outcome s in
  match o.(verdict) with
  | Completes => (set_disk s (effect s.(disk)), Done tt)
  | Fails => (s, Failed io_error)
  | Halts => (s, Crashed)
  end.
(** A call without an effect that later calls can see. *)
Definition plain : IO M E unit := call id.

(** A write: an incomplete one has the effect of writing a prefix. *)
Definition write_call (effect : list Z → Disk → Disk) (l : list Z) : IO M E unit := λ s,
  let (o, s) := next_outcome s in
  match o.(verdict) with
  | Completes => (set_disk s (effect l s.(disk)), Done tt)
  | Fails => (set_disk s (effect (take o.(written) l) s.(disk)), Failed io_error)
  | Halts => (set_disk s (effect (take o.(written) l) s.(disk)), Crashed)
  end.

Definition available_space : IO M E Z := λ s,
  let (o, s) := next_outcome s in
  match o.(verdict) with
  | Completes => (s, Done o.(space))
  | Fails => (s, Failed io_error)
  | Halts => (s, Crashed)
  end.

(** *** [events.log] *)

Definition with_events (l : list Z) (synced : nat) (d : Disk) : Disk :=
  {| events := l; events_synced := synced; checkpoint_file := d.(checkpoint_file);
     checkpoint_history := d.(checkpoint_history); checkpoint_temp := d.(checkpoint_temp);
     admissions := d.(admissions); locked := d.(locked) |}.
(** [write_all] on a handle opened with [append(true)]; the file cannot grow
    past the largest offset. *)
Definition append_events (l : list Z) : IO M E unit :=
  d <~ get_disk;
  if Z.of_nat (length d.(events) + length l) <=? max_file_size
  then write_call (λ l d, with_events (d.(events) ++ l) d.(events_synced) d) l
  else throw io_error.
Definition sync_events : IO M E unit :=
  call (λ d, with_events d.(events) (length d.(events)) d).
Definition set_events_len (n : nat) : IO M E unit :=
  call (λ d, with_events (take n d.(events)) (d.(events_synced) `min` n) d).
(** [read_exact] at an offset. *)
Definition read_events (offset n : nat) : IO M E (list Z) :=
  plain ;~
  d <~ get_disk;
  if (offset + n <=? length d.(events))%nat then io_ret (take n (drop offset d.(events))) else throw io_error.

(** *** [checkpoint] *)

Definition with_checkpoint (file temp : option (list Z)) (history : list (option (list Z))) (d : Disk) : Disk :=
  {| events := d.(events); events_synced := d.(events_synced); checkpoint_file := file;
     checkpoint_history := history; checkpoint_temp := temp; admissions := d.(admissions);
     locked := d.(locked) |}.
(** [open] with [create] and [truncate], then [write_all]. *)
Definition create_temp : IO M E unit :=
  call (λ d, with_checkpoint d.(checkpoint_file) (Some []) d.(checkpoint_history) d).
Definition write_temp (l : list Z) : IO M E unit :=
  write_call (λ l d, with_checkpoint d.(checkpoint_file) (Some (default [] d.(checkpoint_temp) ++ l))
                       d.(checkpoint_history) d) l.
Definition rename_temp : IO M E unit :=
  call (λ d, with_checkpoint d.(checkpoint_temp) None (d.(checkpoint_temp) :: d.(checkpoint_history)) d).
(** [sync_all] on the spool directory: earlier names are gone. *)
Definition sync_directory : IO M E unit :=
  call (λ d, with_checkpoint d.(checkpoint_file) d.(checkpoint_temp) [d.(checkpoint_file)] d).

(** *** [admissions] *)

Definition with_admissions (m : gmap (string * string) Entry) (d : Disk) : Disk :=
  {| events := d.(events); events_synced := d.(events_synced); checkpoint_file := d.(checkpoint_file);
     checkpoint_history := d.(checkpoint_history); checkpoint_temp := d.(checkpoint_temp);
     admissions := m; locked := d.(locked) |}.
Definition update_file (p : string * string) (g : File → File) (d : Disk) : Disk :=
  match d.(admissions) !! p with
  | Some (RegularFile f) => with_admissions (<[p := RegularFile (g f)]> d.(admissions)) d
  | _ => d
  end.
(** [create_new]: an existing entry is an error. *)
Definition create_new (p : string * string) : IO M E unit :=
  d <~ get_disk;
  match d.(admissions) !! p with
  | Some _ => plain ;~ throw io_error
  | None => call (λ d, with_admissions (<[p := RegularFile {| data := []; hole := 0 |}]> d.(admissions)) d)
  end.
(** [open] of an existing file for reading or writing: [None] is [NotFound]. *)
Definition open_existing (p : string * string) : IO M E (option File) :=
  plain ;~
  d <~ get_disk;
  match d.(admissions) !! p with
  | None => io_ret None
  | Some (RegularFile f) => io_ret (Some f)
  | Some OtherEntry => throw io_error
  end.
(** [metadata().len()]: [None] is [NotFound]. *)
Definition entry_len (p : string * string) : IO M E (option Z) :=
  plain ;~
  d <~ get_disk;
  match d.(admissions) !! p with
  | None => io_ret None
  | Some (RegularFile f) => io_ret (Some (file_len f))
  | Some OtherEntry => io_ret (Some 0)
  end.
Definition allocate (p : string * string) (n : Z) : IO M E unit :=
  call (update_file p (λ f, {| data := f.(data); hole := Z.max f.(hole) (n - Z.of_nat (length f.(data))) |})).
Definition write_file (p : string * string) (offset : nat) (l : list Z) : IO M E unit :=
  write_call (λ l, update_file p (λ f, file_write f offset l)) l.
(** A write within one sector is atomic. *)
Definition write_sector (p : string * string) (offset : nat) (l : list Z) : IO M E unit :=
  call (update_file p (λ f, file_write f offset l)).
Definition set_file_len (p : string * string) (n : nat) : IO M E unit :=
  call (update_file p (λ f, file_truncate f n)).
(** [remove_file], where [NotFound] is not an error. *)
Definition remove_file (p : string * string) : IO M E unit :=
  d <~ get_disk;
  match d.(admissions) !! p with
  | Some OtherEntry => plain ;~ throw io_error
  | _ => call (λ d, with_admissions (delete p d.(admissions)) d)
  end.
End calls.

(** ** Reasoning about programs

    [wp m Qd Qf Qc s]: the run of [m] from [s] ends, in a state and value in
    [Qd], with an error in [Qf], or in a crash in [Qc].  The rules let a call
    fail or crash only when faults are left ([calm] systems have none), so one
    proof covers both the run with arbitrary faults and the run without. *)

Section wp.
Context {M E : Type}.
Implicit Types (s : Sys M) (d : Disk) (m : M).

Definition calm s : Prop := s.(faults) = [].

Definition wp {A} (p : IO M E A) (Qd : A → Sys M → Prop) (Qf : E → Sys M → Prop) (Qc : Sys M → Prop) s : Prop :=
  match p s with
  | (s', Done a) => Qd a s'
  | (s', Failed e) => Qf e s'
  | (s', Crashed) => Qc s'
  | (_, OutOfFuel) => False
  end.

(** The disk and memory, with some of the faults consumed. *)
Definition sys_after s d m s' : Prop := s'.(disk) = d ∧ s'.(mem) = m ∧ (calm s → calm s').

Lemma wp_mono {A} (p : IO M E A) (Qd Qd' : A → Sys M → Prop) (Qf Qf' : E → Sys M → Prop) (Qc Qc' : Sys M → Prop) s :
  wp p Qd Qf Qc s → (∀ a s', Qd a s' → Qd' a s') → (∀ e s', Qf e s' → Qf' e s') → (∀ s', Qc s' → Qc' s') →
  wp p Qd' Qf' Qc' s.
Proof. unfold wp. destruct (p s) as [s' []]; auto. Qed.

Lemma wp_ret {A} (a : A) (Qd : A → Sys M → Prop) Qf Qc s : Qd a s → wp (io_ret a) Qd Qf Qc s.
Proof. done. Qed.
Lemma wp_throw {A} e (Qd : A → Sys M → Prop) (Qf : E → Sys M → Prop) Qc s : Qf e s → wp (throw e) Qd Qf Qc s.
Proof. done. Qed.
Lemma wp_bind {A B} (p : IO M E A) (k : A → IO M E B) Qd Qf Qc s :
  wp p (λ a s', wp (k a) Qd Qf Qc s') Qf Qc s → wp (io_bind p k) Qd Qf Qc s.
Proof. unfold wp, io_bind. by destruct (p s) as [s' []]. Qed.
Lemma wp_get_mem (Qd : M → Sys M → Prop) Qf Qc s : Qd s.(mem) s → wp get_mem Qd Qf Qc s.
Proof. done. Qed.
Lemma wp_get_disk (Qd : Disk → Sys M → Prop) Qf Qc s : Qd s.(disk) s → wp get_disk Qd Qf Qc s.
Proof. done. Qed.
Lemma wp_put_mem m (Qd : unit → Sys M → Prop) Qf Qc s :
  (∀ s', sys_after s s.(disk) m s' → Qd tt s') → wp (put_mem m) Qd Qf Qc s.
Proof. intros Hq. apply Hq. done. Qed.
Lemma wp_on_error {A} (p : IO M E A) h Qd (Qf : E → Sys M → Prop) Qc s :
  wp p Qd (λ e s', ∀ s'', s''.(disk) = s'.(disk) → s''.(mem) = h s'.(mem) → s''.(faults) = s'.(faults) → Qf e s'') Qc s →
  wp (on_error p h) Qd Qf Qc s.
Proof. unfold wp, on_error. destruct (p s) as [s' []]; auto. Qed.
Lemma wp_try {A} (p : IO M E A) (Qd : option A → Sys M → Prop) Qf Qc s :
  wp p (λ a, Qd (Some a)) (λ _, Qd None) Qc s → wp (try_io p) Qd Qf Qc s.
Proof. unfold wp, try_io. by destruct (p s) as [s' []]. Qed.

Lemma next_outcome_after s o s' : next_outcome s = (o, s') →
  sys_after s s.(disk) s.(mem) s' ∧ (calm s → o = completes).
Proof.
  unfold next_outcome, sys_after, calm. destruct (faults s) eqn:Ef; intros [= <- <-]; simpl; auto.
  split; [|done]. by split_and!.
Qed.

Context (io_error : E).

(** A call fails, or the process dies in it, only when faults are left. *)
Lemma wp_call effect (Qd : unit → Sys M → Prop) (Qf : E → Sys M → Prop) (Qc : Sys M → Prop) s :
  (∀ s', sys_after s (effect s.(disk)) s.(mem) s' → Qd tt s') →
  (¬ calm s → ∀ s', sys_after s s.(disk) s.(mem) s' → Qf io_error s' ∧ Qc s') →
  wp (call io_error effect) Qd Qf Qc s.
Proof.
  intros Hd Hf. unfold wp, call. destruct (next_outcome s) as [o s'] eqn:Ho.
  apply next_outcome_after in Ho as [Ha Hcalm]. pose proof Ha as (Hdisk & Hmem & Hc).
  destruct (verdict o) eqn:Ev.
  - apply Hd. unfold sys_after, calm. simpl. by rewrite Hdisk.
  - apply Hf; [|done]. intros Hs. by rewrite (Hcalm Hs) in Ev.
  - apply Hf; [|done]. intros Hs. by rewrite (Hcalm Hs) in Ev.
Qed.

Lemma wp_plain (Qd : unit → Sys M → Prop) (Qf : E → Sys M → Prop) (Qc : Sys M → Prop) s :
  (∀ s', sys_after s s.(disk) s.(mem) s' → Qd tt s') →
  (¬ calm s → ∀ s', sys_after s s.(disk) s.(mem) s' → Qf io_error s' ∧ Qc s') →
  wp (plain io_error) Qd Qf Qc s.
Proof. apply (wp_call id). Qed.

Lemma wp_write_call effect l (Qd : unit → Sys M → Prop) (Qf : E → Sys M → Prop) (Qc : Sys M → Prop) s :
  (∀ s', sys_after s (effect l s.(disk)) s.(mem) s' → Qd tt s') →
  (¬ calm s → ∀ n s', sys_after s (effect (take n l) s.(disk)) s.(mem) s' → Qf io_error s' ∧ Qc s') →
  wp (write_call io_error effect l) Qd Qf Qc s.
Proof.
  intros Hd Hf. unfold wp, write_call. destruct (next_outcome s) as [o s'] eqn:Ho.
  apply next_outcome_after in Ho as [Ha Hcalm]. pose proof Ha as (Hdisk & Hmem & Hc).
  destruct (verdict o) eqn:Ev.
  - apply Hd. unfold sys_after, calm. simpl. by rewrite Hdisk.
  - apply (Hf (λ Hs, ltac:(by rewrite (Hcalm Hs) in Ev)) (written o)). unfold sys_after, calm. simpl. by rewrite Hdisk.
  - apply (Hf (λ Hs, ltac:(by rewrite (Hcalm Hs) in Ev)) (written o)). unfold sys_after, calm. simpl. by rewrite Hdisk.
Qed.

Lemma wp_available_space (Qd : Z → Sys M → Prop) (Qf : E → Sys M → Prop) (Qc : Sys M → Prop) s :
  (∀ v s', sys_after s s.(disk) s.(mem) s' → Qd v s') →
  (¬ calm s → ∀ s', sys_after s s.(disk) s.(mem) s' → Qf io_error s' ∧ Qc s') →
  wp (available_space io_error) Qd Qf Qc s.
Proof.
  intros Hd Hf. unfold wp, available_space. destruct (next_outcome s) as [o s'] eqn:Ho.
  apply next_outcome_after in Ho as [Ha Hcalm].
  destruct (verdict o) eqn:Ev; [by apply Hd|..]; apply Hf; try done; intros Hs; by rewrite (Hcalm Hs) in Ev.
Qed.
End wp.

(** One step of a program, from a system given by its fields.  The system after
    a call is destructed, so that its disk and memory are visible terms. *)
Ltac io_after :=
  let s := fresh "s" in let d := fresh "d" in let f := fresh "fs" in let m := fresh "m" in
  let Hd := fresh in let Hm := fresh in let Hc := fresh "Hcalm" in
  intros s (Hd & Hm & Hc); destruct s as [d f m]; unfold calm in Hc; simpl in Hd, Hm, Hc; subst d; subst m.
Ltac io_fault := let Hn := fresh "Hnc" in intros Hn; unfold calm in Hn; simpl in Hn.
Ltac io_step :=
  cbv beta;
  lazymatch goal with
  | |- wp (io_bind _ _) _ _ _ _ => apply wp_bind
  | |- wp (io_ret _) _ _ _ _ => apply wp_ret
  | |- wp (throw _) _ _ _ _ => apply wp_throw
  | |- wp get_mem _ _ _ _ => apply wp_get_mem; cbn [mem]
  | |- wp get_disk _ _ _ _ => apply wp_get_disk; cbn [disk]
  | |- wp (put_mem _) _ _ _ _ => apply wp_put_mem; cbn [disk mem]; io_after
  | |- wp (plain _) _ _ _ _ => apply wp_plain; cbn [disk mem]; [io_after|io_fault; io_after]
  | |- wp (available_space _) _ _ _ _ =>
      apply wp_available_space; cbn [disk mem]; [intros ?; io_after|io_fault; io_after]
  | |- wp (call _ _) _ _ _ _ => apply wp_call; cbn [disk mem]; [io_after|io_fault; io_after]
  | |- wp (write_call _ _ _) _ _ _ _ => apply wp_write_call; cbn [disk mem]; [io_after|io_fault; intros ?; io_after]
  | |- wp (on_error _ _) _ _ _ _ => apply wp_on_error
  | |- wp (try_io _) _ _ _ _ => apply wp_try
  end.
