(* ===== verification/Spool.v ===== *)
(** * The request-log spool

    Models [src/request_log_spool.rs] (the append-only [events.log], its
    checkpoint, recovery at startup, compaction and the reader) and
    [src/request_log_admission.rs] (dispatch intents and preallocated terminal
    slots) as programs of [Disk].

    [crc32fast::hash], the UUID encodings and [serde_json] come from crates:
    they are the class [SpoolDeps] and its laws. *)

From S2P Require Import Prelude Text Decimal Domain Billing Cost Json Journal Disk.

(** ** Constants *)

Definition FRAME_MAGIC : list Z := [65; 73; 71; 76].  (* "AIGL" *)
Definition FRAME_HEADER_BYTES : nat := 32.
Definition MAX_PAYLOAD_BYTES : Z := 1048576.
Definition SLOT_MAGIC : list Z := [65; 73; 71; 65].  (* "AIGA" *)
Definition HEADER_BYTES : nat := 16.
Definition MAX_INTENT_BYTES : Z := 16384.
Definition RESERVATION_BYTES : Z := Z.of_nat HEADER_BYTES + MAX_PAYLOAD_BYTES + MAX_INTENT_BYTES.

(** ** Little-endian integers *)

Definition le_bytes (n : Z) (v : Z) : list Z := Z_to_little_endian n 8 v.
Definition from_le (l : list Z) : Z := little_endian_to_Z 8 l.
(** [i16::from_le_bytes] *)
Definition from_le_i16 (l : list Z) : Z := let v := from_le l in if 2 ^ 15 <=? v then v - 2 ^ 16 else v.
Definition bytes_ok (l : list Z) : Prop := Forall (λ b, 0 ≤ b < 256) l.

(** ** Errors *)

Inductive SpoolError :=
| Io
| Lock
| Codec (e : JournalCodecError)
| PayloadTooLarge (bytes : Z)
| OffsetOverflow
| UnavailableAfterWriteFailure
| Capacity
| InvalidCheckpoint (checkpoint end_ : Z)
| Corrupt (what : string).

(** ** What the spool uses of other crates *)

Record RequestLogIntent {T : Type} := {
  in_version : Z;
  in_id : uuid;
  in_user_id : uuid;
  in_api_key_id : uuid;
  in_model_id : uuid;
  in_started_at : T;
  in_api_operation : ApiOperation.t;
  in_request_protocol : RequestProtocol.t;
}.
Arguments RequestLogIntent T : clear implicits.

Class SpoolDeps (T : Type) : Type := {
  crc32 : list Z → Z;                              (** [crc32fast::hash] *)
  uuid_bytes : uuid → list Z;                      (** [Uuid::as_bytes] *)
  uuid_of_bytes : list Z → option uuid;            (** [Uuid::from_slice] *)
  uuid_text : uuid → string;                       (** [Uuid::to_string] *)
  uuid_parse : string → option uuid;               (** [Uuid::parse_str] *)
  intent_to_vec : RequestLogIntent T → option (list Z);  (** [serde_json::to_vec] *)
}.

(** Identifiers are 128 bits wide. *)
Definition uuid_ok (u : uuid) : Prop := (u < 2 ^ 128)%N.

Class SpoolDepsLaws (T : Type) `{SpoolDeps T} : Prop := {
  crc32_range l : 0 ≤ crc32 l < 2 ^ 32;
  uuid_bytes_length u : length (uuid_bytes u) = 16%nat;
  uuid_bytes_ok u : bytes_ok (uuid_bytes u);
  uuid_of_uuid_bytes u : uuid_ok u → uuid_of_bytes (uuid_bytes u) = Some u;
  uuid_parse_text u : uuid_ok u → uuid_parse (uuid_text u) = Some u;
}.

(** ** Volatile state *)

(** [AdmissionStore] *)
Record AdmissionStore := { ids : gset uuid; retained_bytes : Z }.

(** [RequestLogSpool] and its [SpoolWriter] (the [w_] fields). *)
Record Spool := {
  w_end_offset : Z;
  w_failed : bool;
  w_admissions : AdmissionStore;
  end_offset : Z;
  checkpoint_offset : Z;
  synced_offset : Z;
  compaction_threshold_bytes : Z;
  max_bytes : Z;
  min_free_bytes : Z;
  capacity_pressure : bool;
}.

(** Assignments to one field. *)
Definition set_w_end_offset (v : Z) (m : Spool) : Spool :=
  {| w_end_offset := v; w_failed := m.(w_failed); w_admissions := m.(w_admissions);
     end_offset := m.(end_offset); checkpoint_offset := m.(checkpoint_offset);
     synced_offset := m.(synced_offset); compaction_threshold_bytes := m.(compaction_threshold_bytes);
     max_bytes := m.(max_bytes); min_free_bytes := m.(min_free_bytes);
     capacity_pressure := m.(capacity_pressure) |}.
Definition latch_failed (m : Spool) : Spool :=
  {| w_end_offset := m.(w_end_offset); w_failed := true; w_admissions := m.(w_admissions);
     end_offset := m.(end_offset); checkpoint_offset := m.(checkpoint_offset);
     synced_offset := m.(synced_offset); compaction_threshold_bytes := m.(compaction_threshold_bytes);
     max_bytes := m.(max_bytes); min_free_bytes := m.(min_free_bytes);
     capacity_pressure := m.(capacity_pressure) |}.
Definition set_admissions (a : AdmissionStore) (m : Spool) : Spool :=
  {| w_end_offset := m.(w_end_offset); w_failed := m.(w_failed); w_admissions := a;
     end_offset := m.(end_offset); checkpoint_offset := m.(checkpoint_offset);
     synced_offset := m.(synced_offset); compaction_threshold_bytes := m.(compaction_threshold_bytes);
     max_bytes := m.(max_bytes); min_free_bytes := m.(min_free_bytes);
     capacity_pressure := m.(capacity_pressure) |}.
Definition set_end_offset (v : Z) (m : Spool) : Spool :=
  {| w_end_offset := m.(w_end_offset); w_failed := m.(w_failed); w_admissions := m.(w_admissions);
     end_offset := v; checkpoint_offset := m.(checkpoint_offset);
     synced_offset := m.(synced_offset); compaction_threshold_bytes := m.(compaction_threshold_bytes);
     max_bytes := m.(max_bytes); min_free_bytes := m.(min_free_bytes);
     capacity_pressure := m.(capacity_pressure) |}.
Definition set_checkpoint_offset (v : Z) (m : Spool) : Spool :=
  {| w_end_offset := m.(w_end_offset); w_failed := m.(w_failed); w_admissions := m.(w_admissions);
     end_offset := m.(end_offset); checkpoint_offset := v;
     synced_offset := m.(synced_offset); compaction_threshold_bytes := m.(compaction_threshold_bytes);
     max_bytes := m.(max_bytes); min_free_bytes := m.(min_free_bytes);
     capacity_pressure := m.(capacity_pressure) |}.
Definition set_synced_offset (v : Z) (m : Spool) : Spool :=
  {| w_end_offset := m.(w_end_offset); w_failed := m.(w_failed); w_admissions := m.(w_admissions);
     end_offset := m.(end_offset); checkpoint_offset := m.(checkpoint_offset);
     synced_offset := v; compaction_threshold_bytes := m.(compaction_threshold_bytes);
     max_bytes := m.(max_bytes); min_free_bytes := m.(min_free_bytes);
     capacity_pressure := m.(capacity_pressure) |}.
Definition set_pressure (v : bool) (m : Spool) : Spool :=
  {| w_end_offset := m.(w_end_offset); w_failed := m.(w_failed); w_admissions := m.(w_admissions);
     end_offset := m.(end_offset); checkpoint_offset := m.(checkpoint_offset);
     synced_offset := m.(synced_offset); compaction_threshold_bytes := m.(compaction_threshold_bytes);
     max_bytes := m.(max_bytes); min_free_bytes := m.(min_free_bytes);
     capacity_pressure := v |}.

(** [RequestLogSpool::pending_bytes] *)
Definition pending_bytes (m : Spool) : Z := sat_sub m.(end_offset) m.(checkpoint_offset).

Definition reserved_bytes (a : AdmissionStore) : Z :=
  sat_add u64_max (Z.min u64_max (Z.of_nat (size a.(ids)) * (2 * RESERVATION_BYTES))) a.(retained_bytes).
Definition terminal_headroom (a : AdmissionStore) : Z :=
  Z.min u64_max (Z.of_nat (size a.(ids)) * RESERVATION_BYTES).
Definition contains (a : AdmissionStore) (id : uuid) : bool := bool_decide (id ∈ a.(ids)).

(** ** Frames *)

Definition slice (l : list Z) (from n : nat) : list Z := take n (drop from l).

Record ParsedHeader := {
  ph_schema_version : Z;
  ph_payload_len : Z;
  ph_checksum : Z;
  ph_request_log_id : uuid;
}.

(** The bytes after the last nonzero one are not content. *)
Fixpoint content_len (l : list Z) : nat :=
  match l with
  | [] => 0
  | b :: l' => match content_len l' with O => if (b =? 0)%Z then 0 else 1 | n => S n end
  end%nat.

Section programs.
Context {D T : Type} `{EventSerde D T} `{SpoolDeps T}.
Local Open Scope gateway_scope.
Abbreviation io := (IO Spool SpoolError).
Implicit Types (event : RequestLogEvent D T).

Definition lift_result {A} (r : result A SpoolError) : io A :=
  match r with Ok a => io_ret a | Err e => throw e end.
Definition modify (f : Spool → Spool) : io unit := m <~ get_mem; put_mem (f m).

Definition encode_frame (r : EncodedRequestLog) : list Z :=
  FRAME_MAGIC ++ le_bytes 2 r.(schema_version) ++ le_bytes 2 0
  ++ le_bytes 4 (Z.of_nat (length r.(payload))) ++ le_bytes 4 (crc32 r.(payload))
  ++ uuid_bytes r.(request_log_id) ++ r.(payload).

Definition parse_header (header : list Z) : result ParsedHeader SpoolError :=
  if negb (bool_decide (take 4 header = FRAME_MAGIC)) then Err (Corrupt "request-log spool frame magic is invalid")
  else if negb (from_le (slice header 6 2) =? 0)
  then Err (Corrupt "request-log spool frame reserved bits are nonzero")
  else
    let payload_len := from_le (slice header 8 4) in
    if MAX_PAYLOAD_BYTES <? payload_len then Err (PayloadTooLarge payload_len)
    else match uuid_of_bytes (slice header 16 16) with
         | None => Err (Corrupt "request-log spool UUID is invalid")
         | Some id => Ok {| ph_schema_version := from_le_i16 (slice header 4 2);
                            ph_payload_len := payload_len;
                            ph_checksum := from_le (slice header 12 4);
                            ph_request_log_id := id |}
         end.

(** [offset.checked_add(FRAME_HEADER_BYTES)?.checked_add(payload_len)] *)
Definition frame_end_of (offset : nat) (h : ParsedHeader) : io nat :=
  let frame_end := (offset + FRAME_HEADER_BYTES + Z.to_nat h.(ph_payload_len))%nat in
  if Z.of_nat frame_end <=? u64_max then io_ret frame_end else throw OffsetOverflow.

(** ** Admission artefacts *)

Definition path (id : uuid) (extension : string) : string * string := (uuid_text id, extension).

Definition create (id : uuid) (extension : string) : io unit :=
  create_new Io (path id extension) ;~ plain Io.

(** The filters on a directory entry's name. *)
Definition entry_id (p : string * string) : option uuid :=
  id ← uuid_parse p.1;
  if (String.eqb p.2 "json" || String.eqb p.2 "slot") && String.eqb p.1 (uuid_text id) then Some id else None.

Definition set_ids (f : gset uuid → gset uuid) (m : Spool) : Spool :=
  set_admissions {| ids := f m.(w_admissions).(ids); retained_bytes := m.(w_admissions).(retained_bytes) |} m.

(** The [read_dir] loop. *)
Fixpoint list_admissions (entries : list ((string * string) * Entry)) : io unit :=
  match entries with
  | [] => io_ret tt
  | (p, entry) :: entries' =>
      plain Io ;~
      match entry_id p with
      | None => throw (Corrupt "unexpected request-log admission file")
      | Some id =>
          plain Io ;~
          match entry with
          | OtherEntry => throw (Corrupt "admission entry is not a regular file")
          | RegularFile _ => modify (set_ids (λ s, {[ id ]} ∪ s)) ;~ list_admissions entries'
          end
      end
  end.

Definition read_exact (f : File) (offset n : nat) : io (list Z) :=
  plain Io ;~ match file_read f offset n with Some l => io_ret l | None => throw Io end.

(** A header that is not a terminal header, with the payload length it claims. *)
Definition slot_header_len (header : list Z) : option nat :=
  if negb (bool_decide (take 4 header = SLOT_MAGIC)) then None
  else let len := from_le (slice header 8 4) in
       if (MAX_PAYLOAD_BYTES <? len) || negb (bool_decide (slice header 6 2 = [0; 0])) then None
       else Some (Z.to_nat len).

(** [read_terminal] once the slot is open. *)
Definition read_slot (id : uuid) (f : File) : io (option (RequestLogEvent D T)) :=
  header <~ try_io (read_exact f 0 HEADER_BYTES);
  match header ≫= (λ h, n ← slot_header_len h; Some (h, n)) with
  | None => io_ret None
  | Some (header, len) =>
      bytes <~ try_io (read_exact f HEADER_BYTES len);
      match bytes with
      | None => io_ret None
      | Some bytes =>
          if negb (crc32 bytes =? from_le (slice header 12 4)) then io_ret None
          else
            match decode {| request_log_id := id; schema_version := from_le_i16 (slice header 4 2);
                            payload := bytes |} with
            | Err e => throw (Codec e)
            | Ok event =>
                if bool_decide (event.(ev_id) = id) then io_ret (Some event)
                else throw (Corrupt "admission terminal UUID mismatch")
            end
      end
  end.

Definition read_terminal (id : uuid) : io (option (RequestLogEvent D T)) :=
  file <~ open_existing Io (path id "slot");
  match file with None => io_ret None | Some f => read_slot id f end.

Definition add_retained (n : Z) (m : Spool) : Spool :=
  set_admissions {| ids := m.(w_admissions).(ids);
                    retained_bytes := sat_add u64_max m.(w_admissions).(retained_bytes) (Z.max n 4096) |} m.

Definition count_retained (id : uuid) (extension : string) : io unit :=
  len <~ entry_len Io (path id extension);
  match len with Some n => modify (add_retained n) | None => io_ret tt end.

Definition retain_unknown (id : uuid) : io unit :=
  file <~ open_existing Io (path id "slot");
  match file with
  | Some f =>
      plain Io ;~
      if Z.of_nat HEADER_BYTES + MAX_PAYLOAD_BYTES <? file_len f
      then throw (Corrupt "admission slot exceeds size limit")
      else plain Io ;~ set_file_len Io (path id "slot") (content_len f.(data)) ;~ plain Io
  | None => io_ret tt
  end ;~
  count_retained id "json" ;~ count_retained id "slot".

(** The loop over the identifiers found, in ascending order. *)
Fixpoint recover_all (l : list uuid) : io (list (RequestLogEvent D T)) :=
  match l with
  | [] => io_ret []
  | id :: l' =>
      event <~ read_terminal id;
      match event with
      | Some event => rest <~ recover_all l'; io_ret (event :: rest)
      | None => retain_unknown id ;~ modify (set_ids (λ s, s ∖ {[ id ]})) ;~ recover_all l'
      end
  end.

(** The first part of [AdmissionStore::open]: the identifiers of the entries. *)
Definition list_directory : io (list uuid) :=
  plain Io ;~ plain Io ;~ sync_directory Io ;~ plain Io ;~
  modify (set_admissions {| ids := ∅; retained_bytes := 0 |}) ;~
  plain Io ;~
  d <~ get_disk;
  list_admissions (map_to_list d.(admissions)) ;~
  m <~ get_mem;
  io_ret (merge_sort N.le (elements m.(w_admissions).(ids))).

Definition admission_open : io (list (RequestLogEvent D T)) :=
  l <~ list_directory;
  recover_all l.

Definition reserve (intent : RequestLogIntent T) : io unit :=
  bytes <~ lift_result (ok_or (intent_to_vec intent) (Corrupt "cannot encode request-log intent"));
  if MAX_INTENT_BYTES <? Z.of_nat (length bytes) then throw (PayloadTooLarge (Z.of_nat (length bytes)))
  else
    m <~ get_mem;
    if contains m.(w_admissions) intent.(in_id) then throw (Corrupt "duplicate request-log admission UUID")
    else
      modify (set_ids (λ s, {[ intent.(in_id) ]} ∪ s)) ;~
      create intent.(in_id) "slot" ;~
      allocate Io (path intent.(in_id) "slot") (Z.of_nat HEADER_BYTES + MAX_PAYLOAD_BYTES) ;~
      plain Io ;~
      create intent.(in_id) "json" ;~
      write_file Io (path intent.(in_id) "json") 0 bytes ;~
      plain Io ;~ plain Io.

Definition slot_header (r : EncodedRequestLog) : list Z :=
  SLOT_MAGIC ++ le_bytes 2 r.(schema_version) ++ le_bytes 2 0
  ++ le_bytes 4 (Z.of_nat (length r.(payload))) ++ le_bytes 4 (crc32 r.(payload)).

Definition encoded (event : RequestLogEvent D T) : io EncodedRequestLog :=
  r <~ match encode event with Ok r => io_ret r | Err e => throw (Codec e) end;
  if MAX_PAYLOAD_BYTES <? Z.of_nat (length r.(payload))
  then throw (PayloadTooLarge (Z.of_nat (length r.(payload)))) else io_ret r.

Definition save_terminal event : io unit :=
  r <~ encoded event;
  file <~ open_existing Io (path event.(ev_id) "slot");
  match file with
  | None => throw Io
  | Some _ =>
      plain Io ;~
      write_file Io (path event.(ev_id) "slot") HEADER_BYTES r.(payload) ;~
      plain Io ;~
      write_sector Io (path event.(ev_id) "slot") 0 (slot_header r) ;~
      plain Io
  end.

Definition retire (id : uuid) : io unit :=
  remove_file Io (path id "json") ;~ plain Io ;~
  remove_file Io (path id "slot") ;~ plain Io ;~
  modify (set_ids (λ s, s ∖ {[ id ]})).

(** ** The spool *)

Definition spool_admit (intent : RequestLogIntent T) : io unit :=
  m <~ get_mem;
  if m.(w_failed) then throw UnavailableAfterWriteFailure
  else
    let used := sat_add u64_max m.(w_end_offset) (reserved_bytes m.(w_admissions)) in
    refused <~ (if m.(max_bytes) <? sat_add u64_max used (2 * RESERVATION_BYTES) then io_ret true
                else
                  available <~ available_space Io;
                  io_ret (available <? sat_add u64_max
                    (sat_add u64_max m.(min_free_bytes) (terminal_headroom m.(w_admissions)))
                    (2 * RESERVATION_BYTES)));
    if refused : bool then modify (set_pressure true) ;~ throw Capacity
    else on_error (reserve intent) latch_failed.

(** [append] once the terminal slot, if any, is saved: the frame is written,
    synchronised for a reserved request, published, and the slot retired. *)
Definition publish_frame event (reserved : bool) (frame : list Z) : io Z :=
  let len := Z.of_nat (length frame) in
  on_error (append_events Io frame) latch_failed ;~
  m <~ get_mem;
  (if m.(w_end_offset) + len <=? u64_max then modify (set_w_end_offset (m.(w_end_offset) + len))
   else throw OffsetOverflow) ;~
  (if reserved then on_error (sync_events Io) latch_failed else io_ret tt) ;~
  modify (λ m, set_end_offset m.(w_end_offset) m) ;~
  (if reserved then on_error (retire event.(ev_id)) latch_failed else io_ret tt) ;~
  io_ret len.

Definition append event : io Z :=
  r <~ encoded event;
  let frame := encode_frame r in
  m <~ get_mem;
  let reserved := contains m.(w_admissions) event.(ev_id) in
  (if reserved then on_error (save_terminal event) latch_failed else io_ret tt) ;~
  m <~ get_mem;
  if m.(w_failed) then throw UnavailableAfterWriteFailure
  else if negb reserved
          && (m.(max_bytes) <? sat_add u64_max
                (sat_add u64_max m.(w_end_offset) (reserved_bytes m.(w_admissions))) (Z.of_nat (length frame)))
  then throw Capacity
  else publish_frame event reserved frame.

Definition persist_checkpoint (offset : Z) (sync : bool) : io unit :=
  create_temp Io ;~ write_temp Io (le_bytes 8 offset) ;~ plain Io ;~
  (if sync then plain Io else io_ret tt) ;~
  rename_temp Io.

Definition checkpoint (offset : Z) : io unit :=
  m <~ get_mem;
  if (offset <? m.(checkpoint_offset)) || (m.(end_offset) <? offset)
  then throw (InvalidCheckpoint offset m.(end_offset))
  else persist_checkpoint offset false ;~ modify (set_checkpoint_offset offset).

Definition sync_data : io unit :=
  m <~ get_mem;
  let target := m.(end_offset) in
  if target <=? m.(synced_offset) then io_ret tt
  else if target <=? m.(checkpoint_offset) then modify (set_synced_offset target)
  else on_error (sync_events Io) latch_failed ;~ modify (set_synced_offset target).

(** The closure that [compact_if_drained] runs. *)
Definition compact : io unit :=
  sync_events Io ;~
  persist_checkpoint 0 true ;~
  sync_directory Io ;~
  set_events_len Io 0 ;~
  plain Io ;~
  sync_events Io.

Definition compact_if_drained : io bool :=
  m <~ get_mem;
  let pressure := m.(capacity_pressure) in
  if negb (m.(checkpoint_offset) =? m.(end_offset)) || (m.(end_offset) =? 0)
     || (negb pressure && (m.(end_offset) <? m.(compaction_threshold_bytes)))
  then io_ret false
  else if m.(w_failed) then throw UnavailableAfterWriteFailure
  else if negb (m.(checkpoint_offset) =? m.(w_end_offset))
          || (negb pressure && (m.(w_end_offset) <? m.(compaction_threshold_bytes)))
  then io_ret false
  else
    on_error compact latch_failed ;~
    modify (λ m, set_pressure false (set_synced_offset 0 (set_end_offset 0
      (set_checkpoint_offset 0 (set_w_end_offset 0 m))))) ;~
    io_ret true.

(** ** The reader *)

(** [reader]: the position of a new reader. *)
Definition reader : io Z :=
  plain Io ;~ m <~ get_mem; plain Io ;~ io_ret m.(checkpoint_offset).

Record SpoolReadBatch := { records : list EncodedRequestLog; batch_start : Z; batch_end : Z }.

(** The loop, for at most [n] more records; [offset] is the reader's. *)
Fixpoint read_frames (n : nat) (offset : nat) (available_end : Z) : io (list EncodedRequestLog * nat) :=
  match n with
  | O => io_ret ([], offset)
  | S n =>
      if Z.of_nat offset <? available_end then
        header <~ read_events Io offset FRAME_HEADER_BYTES;
        parsed <~ lift_result (parse_header header);
        frame_end <~ frame_end_of offset parsed;
        if available_end <? Z.of_nat frame_end
        then throw (Corrupt "published spool frame extends beyond the durable end offset")
        else
          bytes <~ read_events Io (offset + FRAME_HEADER_BYTES) (Z.to_nat parsed.(ph_payload_len));
          if negb (crc32 bytes =? parsed.(ph_checksum))
          then throw (Corrupt "request-log spool frame checksum mismatch")
          else
            rest <~ read_frames n frame_end available_end;
            io_ret ({| request_log_id := parsed.(ph_request_log_id);
                       schema_version := parsed.(ph_schema_version); payload := bytes |} :: rest.1, rest.2)
      else io_ret ([], offset)
  end.

Definition read_batch (max_records : nat) (start_offset : Z) : io SpoolReadBatch :=
  m <~ get_mem;
  let available_end := m.(end_offset) in
  if (max_records =? 0)%nat || (available_end <=? start_offset)
  then io_ret {| records := []; batch_start := start_offset; batch_end := start_offset |}
  else
    plain Io ;~
    r <~ read_frames max_records (Z.to_nat start_offset) available_end;
    io_ret {| records := r.1; batch_start := start_offset; batch_end := Z.of_nat r.2 |}.

(** ** Recovery at startup *)

Record ScanResult := { scan_end : nat; checkpoint_is_boundary : bool }.

Definition truncate_tail (offset : nat) (boundary : bool) : io ScanResult :=
  set_events_len Io offset ;~ sync_events Io ;~
  io_ret {| scan_end := offset; checkpoint_is_boundary := boundary |}.

(** The loop of [scan_and_repair]; every iteration consumes a frame header, so
    the length of the file is enough fuel. *)
Fixpoint scan_frames (fuel : nat) (len offset : nat) (checkpoint : Z) (boundary : bool) : io ScanResult :=
  match fuel with
  | O => λ s, (s, OutOfFuel)
  | S fuel =>
      if (offset <? len)%nat then
        if (len - offset <? FRAME_HEADER_BYTES)%nat then truncate_tail offset boundary
        else
          plain Io ;~
          header <~ read_events Io offset FRAME_HEADER_BYTES;
          parsed <~ lift_result (parse_header header);
          frame_end <~ frame_end_of offset parsed;
          if (len <? frame_end)%nat then truncate_tail offset boundary
          else
            bytes <~ read_events Io (offset + FRAME_HEADER_BYTES) (Z.to_nat parsed.(ph_payload_len));
            if negb (crc32 bytes =? parsed.(ph_checksum))
            then throw (Corrupt "request-log spool frame checksum mismatch")
            else scan_frames fuel len frame_end checkpoint (boundary || (Z.of_nat frame_end =? checkpoint))
      else io_ret {| scan_end := offset; checkpoint_is_boundary := boundary |}
  end.

Definition scan_and_repair (checkpoint : Z) : io ScanResult :=
  plain Io ;~
  d <~ get_disk;
  scan_frames (S (length d.(events))) (length d.(events)) 0 checkpoint (checkpoint =? 0).

Definition read_checkpoint : io Z :=
  plain Io ;~
  d <~ get_disk;
  match d.(checkpoint_file) with
  | None => io_ret 0
  | Some bytes =>
      if negb (length bytes =? 8)%nat then throw (Corrupt "request-log spool checkpoint has an invalid length")
      else io_ret (from_le bytes)
  end.

Definition set_locked (b : bool) (d : Disk) : Disk :=
  {| events := d.(events); events_synced := d.(events_synced); checkpoint_file := d.(checkpoint_file);
     checkpoint_history := d.(checkpoint_history); checkpoint_temp := d.(checkpoint_temp);
     admissions := d.(admissions); locked := b |}.

(** [try_lock_exclusive] *)
Definition try_lock : io unit :=
  d <~ get_disk;
  if d.(locked) then throw Lock else call Lock (set_locked true).

Fixpoint append_all (l : list (RequestLogEvent D T)) : io unit :=
  match l with [] => io_ret tt | event :: l' => append event ;~ append_all l' end.

(** [open_with_limits] from the checkpoint to the construction of the spool. *)
Definition recover (compaction_threshold max min_free : Z) : io (list (RequestLogEvent D T)) :=
  checkpoint_offset <~ read_checkpoint;
  plain Io ;~ plain Io ;~
  scan <~ scan_and_repair checkpoint_offset;
  if negb scan.(checkpoint_is_boundary)
  then throw (InvalidCheckpoint checkpoint_offset (Z.of_nat scan.(scan_end)))
  else
    plain Io ;~
    recovered <~ admission_open;
    sync_directory Io ;~
    modify (λ m, {| w_end_offset := Z.of_nat scan.(scan_end); w_failed := false;
                    w_admissions := m.(w_admissions); end_offset := Z.of_nat scan.(scan_end);
                    checkpoint_offset := checkpoint_offset; synced_offset := Z.of_nat scan.(scan_end);
                    compaction_threshold_bytes := compaction_threshold; max_bytes := max;
                    min_free_bytes := min_free; capacity_pressure := false |}) ;~
    io_ret recovered.

(** Creating and protecting the directory and the lock file changes nothing that
    is modelled: those calls are [plain]. *)
Definition open_with_limits (compaction_threshold max min_free : Z) : io unit :=
  plain Io ;~ plain Io ;~ plain Io ;~ plain Io ;~
  try_lock ;~
  recovered <~ recover compaction_threshold max min_free;
  append_all recovered.
End programs.
