(* ===== verification/Frames.v ===== *)
(** * Frames of the spool

    The frame format of [Spool] reads back what it wrote, and the scan at
    startup finds every whole frame of [events.log], drops at most one torn
    frame at its end, and accepts every checkpoint on a frame boundary, whatever
    file-system calls fail. *)

From S2P Require Import Prelude Text Decimal Domain Billing Cost Json Journal Disk Spool.

(** ** Bytes *)

Lemma le_bytes_length n v : 0 ≤ n → length (le_bytes n v) = Z.to_nat n.
Proof. intros Hn. pose proof (length_Z_to_little_endian n 8 v Hn). unfold le_bytes. lia. Qed.

Lemma from_le_le_bytes n v : 0 ≤ n → 0 ≤ v < 2 ^ (n * 8) → from_le (le_bytes n v) = v.
Proof.
  intros Hn Hv. unfold from_le, le_bytes. rewrite little_endian_to_Z_to_little_endian by lia.
  apply Z.mod_small. lia.
Qed.

Lemma from_le_i16_le_bytes v : - 2 ^ 15 ≤ v < 2 ^ 15 → from_le_i16 (le_bytes 2 v) = v.
Proof.
  intros Hv. unfold from_le_i16, from_le, le_bytes. rewrite little_endian_to_Z_to_little_endian by lia.
  change (2 * 8) with 16. destruct (decide (0 ≤ v)).
  - rewrite Z.mod_small by lia. destruct (Z.leb_spec (2 ^ 15) v); lia.
  - rewrite <- (Z.mod_add v 1), Z.mod_small by lia. destruct (Z.leb_spec (2 ^ 15) (v + 1 * 2 ^ 16)); lia.
Qed.

Lemma slice_at (a b c : list Z) from n : from = length a → n = length b → slice (a ++ b ++ c) from n = b.
Proof. intros -> ->. unfold slice. rewrite drop_app_length. apply take_app_length. Qed.

Section frames.
Context {T : Type} `{SpoolDepsLaws T}.
Implicit Types (r : EncodedRequestLog) (F : list EncodedRequestLog) (d : Disk) (m : Spool).

(** ** Frames *)

Definition frame_ok r : Prop :=
  Z.of_nat (length r.(payload)) ≤ MAX_PAYLOAD_BYTES ∧ - 2 ^ 15 ≤ r.(schema_version) < 2 ^ 15 ∧
  uuid_ok r.(request_log_id).

Definition frame_header r : list Z := take FRAME_HEADER_BYTES (encode_frame r).

Lemma encode_frame_split r :
  ∃ h, length h = FRAME_HEADER_BYTES ∧ encode_frame r = h ++ r.(payload).
Proof.
  exists (FRAME_MAGIC ++ le_bytes 2 r.(schema_version) ++ le_bytes 2 0
    ++ le_bytes 4 (Z.of_nat (length r.(payload))) ++ le_bytes 4 (crc32 r.(payload)) ++ uuid_bytes r.(request_log_id)).
  split; [|by unfold encode_frame; rewrite <- !app_assoc].
  rewrite !length_app, !le_bytes_length, uuid_bytes_length by lia. done.
Qed.
Lemma encode_frame_header r : encode_frame r = frame_header r ++ r.(payload).
Proof.
  destruct (encode_frame_split r) as (h & Hh & E). unfold frame_header. rewrite E.
  by rewrite take_app_length' by done.
Qed.
Lemma frame_header_length r : length (frame_header r) = FRAME_HEADER_BYTES.
Proof.
  destruct (encode_frame_split r) as (h & Hh & E). unfold frame_header. rewrite E.
  by rewrite take_app_length' by done.
Qed.
Lemma encode_frame_length r : length (encode_frame r) = (FRAME_HEADER_BYTES + length r.(payload))%nat.
Proof. by rewrite encode_frame_header, length_app, frame_header_length. Qed.

Lemma parse_frame_header r : frame_ok r →
  parse_header (frame_header r) =
    Ok {| ph_schema_version := r.(schema_version); ph_payload_len := Z.of_nat (length r.(payload));
          ph_checksum := crc32 r.(payload); ph_request_log_id := r.(request_log_id) |}.
Proof.
  intros (Hlen & Hver & Hid). unfold frame_header, encode_frame.
  set (a := FRAME_MAGIC). set (b := le_bytes 2 (schema_version r)). set (c := le_bytes 2 0).
  set (e := le_bytes 4 (Z.of_nat _)). set (g := le_bytes 4 (crc32 _)). set (u := uuid_bytes _).
  assert (length a = 4%nat) as La by done.
  assert (length b = 2%nat) as Lb by (by apply le_bytes_length).
  assert (length c = 2%nat) as Lc by (by apply le_bytes_length).
  assert (length e = 4%nat) as Le by (by apply le_bytes_length).
  assert (length g = 4%nat) as Lg by (by apply le_bytes_length).
  assert (length u = 16%nat) as Lu by apply uuid_bytes_length.
  assert (take FRAME_HEADER_BYTES (a ++ b ++ c ++ e ++ g ++ u ++ payload r) = a ++ b ++ c ++ e ++ g ++ u) as ->.
  { rewrite !app_assoc. apply take_app_length'. rewrite !length_app. unfold FRAME_HEADER_BYTES. lia. }
  unfold parse_header.
  assert (slice (a ++ b ++ c ++ e ++ g ++ u) 4 2 = b) as -> by (by apply slice_at).
  assert (slice (a ++ b ++ c ++ e ++ g ++ u) 6 2 = c) as ->
    by (rewrite (app_assoc a b); apply slice_at; rewrite ?length_app; lia).
  assert (slice (a ++ b ++ c ++ e ++ g ++ u) 8 4 = e) as ->
    by (rewrite (app_assoc a b), (app_assoc (a ++ b) c); apply slice_at; rewrite ?length_app; lia).
  assert (slice (a ++ b ++ c ++ e ++ g ++ u) 12 4 = g) as ->
    by (rewrite (app_assoc a b), (app_assoc (a ++ b) c), (app_assoc ((a ++ b) ++ c) e);
        apply slice_at; rewrite ?length_app; lia).
  assert (slice (a ++ b ++ c ++ e ++ g ++ u) 16 16 = u) as ->.
  { rewrite <- (app_nil_r u) at 1. rewrite (app_assoc a b), (app_assoc (a ++ b) c), (app_assoc ((a ++ b) ++ c) e),
      (app_assoc (((a ++ b) ++ c) ++ e) g). apply slice_at; rewrite ?length_app; lia. }
  rewrite take_app_length' by done. rewrite bool_decide_true by done. simpl.
  unfold b, c, e, g, u in *. unfold MAX_PAYLOAD_BYTES in *.
  rewrite from_le_i16_le_bytes, !from_le_le_bytes, uuid_of_uuid_bytes by (done || lia || apply crc32_range). simpl.
  destruct (Z.ltb_spec 1048576 (Z.of_nat (length (payload r)))); [lia|done].
Qed.

(** ** Images of frame lists *)

Definition image F : list Z := concat (encode_frame <$> F).

Lemma image_app F F' : image (F ++ F') = image F ++ image F'.
Proof. unfold image. by rewrite fmap_app, concat_app. Qed.
Lemma image_cons r F : image (r :: F) = encode_frame r ++ image F.
Proof. done. Qed.
Lemma image_snoc F r : image (F ++ [r]) = image F ++ encode_frame r.
Proof. by rewrite image_app, image_cons, app_nil_r. Qed.

(** The offset of the [k]th frame boundary. *)
Definition boundary F (k : nat) : Z := Z.of_nat (length (image (take k F))).

Lemma image_length_take F k : (length (image (take k F)) ≤ length (image F))%nat.
Proof. rewrite <- (take_drop k F) at 2. rewrite image_app, length_app. lia. Qed.
Lemma boundary_all F : boundary F (length F) = Z.of_nat (length (image F)).
Proof. unfold boundary. by rewrite take_ge. Qed.
Lemma boundary_le F j k : (j ≤ k)%nat → boundary F j ≤ boundary F k.
Proof.
  intros Hjk. unfold boundary. pose proof (image_length_take (take k F) j) as Hle.
  rewrite take_take, Nat.min_l in Hle by lia. lia.
Qed.
Lemma image_cons_length r F : (length (image (r :: F)) = FRAME_HEADER_BYTES + length r.(payload) + length (image F))%nat.
Proof. by rewrite image_cons, length_app, encode_frame_length. Qed.
Lemma image_length_count F : (length F ≤ length (image F))%nat.
Proof.
  induction F as [|r F IH]; [simpl; lia|]. rewrite image_cons_length. simpl. unfold FRAME_HEADER_BYTES. lia.
Qed.
(** Boundaries of different frames differ. *)
Lemma boundary_lt F j k : (j < k ≤ length F)%nat → boundary F j < boundary F k.
Proof.
  intros [Hjk Hk]. destruct (lookup_lt_is_Some_2 F j) as [r Hr]; [lia|].
  pose proof (boundary_le F (S j) k ltac:(lia)) as Hle. unfold boundary in *.
  rewrite (take_S_r _ _ _ Hr), image_snoc, length_app, encode_frame_length in Hle.
  unfold FRAME_HEADER_BYTES in Hle. lia.
Qed.
Lemma boundary_inj F j k : (j ≤ length F)%nat → (k ≤ length F)%nat → boundary F j = boundary F k → j = k.
Proof.
  intros Hj Hk E. destruct (lt_eq_lt_dec j k) as [[Hlt| ->]|Hlt]; [|done|].
  - pose proof (boundary_lt F j k). lia.
  - pose proof (boundary_lt F k j). lia.
Qed.

(** What an incomplete write of a frame leaves. *)
Definition torn_ok (torn : list Z) : Prop :=
  ∃ r, frame_ok r ∧ torn `prefix_of` encode_frame r ∧ (length torn < length (encode_frame r))%nat.

Lemma torn_nil : torn_ok [].
Proof.
  exists {| request_log_id := 0%N; schema_version := 0; payload := [] |}. split_and!.
  - unfold frame_ok, MAX_PAYLOAD_BYTES, uuid_ok. simpl. split_and!; [lia..|done].
  - apply prefix_nil.
  - rewrite encode_frame_length. simpl. unfold FRAME_HEADER_BYTES. lia.
Qed.

(** A torn frame that is long enough has its header. *)
Lemma torn_header torn : torn_ok torn → (FRAME_HEADER_BYTES ≤ length torn)%nat →
  ∃ r, frame_ok r ∧ take FRAME_HEADER_BYTES torn = frame_header r ∧
       (length torn < FRAME_HEADER_BYTES + length r.(payload))%nat.
Proof.
  intros (r & Hr & [rest Hp] & Hlt) Hlen. exists r. split; [done|]. split; [|by rewrite encode_frame_length in Hlt].
  unfold frame_header. by rewrite Hp, take_app_le.
Qed.

(** ** Reading frames back *)

Lemma wp_read_events offset n (Qd : list Z → Sys Spool → Prop) (Qf : SpoolError → Sys Spool → Prop)
    (Qc : Sys Spool → Prop) s :
  (offset + n ≤ length s.(disk).(events))%nat →
  (∀ s', sys_after s s.(disk) s.(mem) s' → Qd (take n (drop offset s.(disk).(events))) s') →
  (¬ calm s → ∀ s', sys_after s s.(disk) s.(mem) s' → Qf Io s' ∧ Qc s') →
  wp (read_events Io offset n) Qd Qf Qc s.
Proof.
  intros Hlen Hd Hf. unfold read_events. apply wp_bind, wp_plain.
  - intros s' Hs'. apply wp_bind, wp_get_disk. pose proof Hs' as (-> & _).
    rewrite (proj2 (Nat.leb_le _ _)) by done. apply wp_ret. by apply Hd.
  - intros Hn s' Hs'. by apply Hf.
Qed.

Lemma frame_end_exact (offset : nat) r :
  Z.of_nat (offset + FRAME_HEADER_BYTES + length r.(payload)) ≤ u64_max →
  frame_end_of offset {| ph_schema_version := r.(schema_version);
    ph_payload_len := Z.of_nat (length r.(payload)); ph_checksum := crc32 r.(payload);
    ph_request_log_id := r.(request_log_id) |} = io_ret (offset + FRAME_HEADER_BYTES + length r.(payload))%nat.
Proof. intros Hle. unfold frame_end_of. simpl. rewrite Nat2Z.id. by rewrite (proj2 (Z.leb_le _ _)) by lia. Qed.

Lemma image_header F r rest :
  take FRAME_HEADER_BYTES (drop (length (image F)) (image F ++ encode_frame r ++ rest)) = frame_header r.
Proof.
  rewrite drop_app_length, encode_frame_header, <- app_assoc.
  apply take_app_length'. by rewrite frame_header_length.
Qed.
Lemma image_payload F r rest :
  take (length r.(payload)) (drop (length (image F) + FRAME_HEADER_BYTES) (image F ++ encode_frame r ++ rest))
  = r.(payload).
Proof.
  rewrite encode_frame_header, <- app_assoc, app_assoc, drop_app_length'.
  - apply take_app_length.
  - by rewrite length_app, frame_header_length.
Qed.

(** ** The scan at startup *)

(** Only [events.log] differs, and holds [l]. *)
Definition events_are (l : list Z) d d' : Prop := ∃ n, d' = with_events l n d.

Lemma events_are_same l d : d.(events) = l → events_are l d d.
Proof. intros <-. exists d.(events_synced). by destruct d. Qed.

(** A scan that stops early has removed the torn frame or nothing. *)
Definition scan_stopped F torn (s s' : Sys Spool) : Prop :=
  ¬ calm s ∧ (events_are (image F ++ torn) s.(disk) s'.(disk) ∨ events_are (image F) s.(disk) s'.(disk)).
Definition scan_done F (s s' : Sys Spool) : Prop :=
  events_are (image F) s.(disk) s'.(disk) ∧ s'.(mem) = s.(mem) ∧ (calm s → calm s').

Lemma scan_stopped_same F torn d fs fs' m m' :
  d.(events) = image F ++ torn → fs ≠ [] →
  scan_stopped F torn {| disk := d; faults := fs; mem := m |} {| disk := d; faults := fs'; mem := m' |}.
Proof. intros He Hfs. split; [done|]. left. by apply events_are_same. Qed.

Lemma truncate_tail_wp (offset : nat) b s F torn :
  s.(disk).(events) = image F ++ torn → offset = length (image F) →
  wp (truncate_tail offset b)
    (λ res s', res = {| scan_end := offset; checkpoint_is_boundary := b |} ∧ scan_done F s s')
    (λ _ s', scan_stopped F torn s s') (λ s', scan_stopped F torn s s') s.
Proof.
  intros He ->. destruct s as [d fs m]. unfold truncate_tail, set_events_len, sync_events. simpl in *.
  io_step. io_step.
  2: { split; by apply scan_stopped_same. }
  rewrite He, take_app_length. io_step. io_step.
  2: { split; (split; [unfold calm; simpl; tauto|right; by eexists]). }
  io_step. split; [done|]. split_and!; [by eexists|done|unfold calm; simpl; tauto].
Qed.

(** At the last whole frame. *)
Lemma scan_tail_wp F torn fuel b c s :
  s.(disk).(events) = image F ++ torn → torn_ok torn → Z.of_nat (length s.(disk).(events)) ≤ max_file_size →
  wp (scan_frames (S fuel) (length s.(disk).(events)) (length (image F)) c b)
    (λ res s', res = {| scan_end := length (image F); checkpoint_is_boundary := b |} ∧ scan_done F s s')
    (λ _ s', scan_stopped F torn s s') (λ s', scan_stopped F torn s s') s.
Proof.
  intros He Ht Hmax. destruct s as [d fs m]; simpl in He, Hmax |- *. rewrite He, length_app in *.
  destruct (Nat.ltb_spec (length (image F)) (length (image F) + length torn)) as [Hlt|Hge].
  2: { assert (torn = []) as -> by (destruct torn; [done|simpl in Hge; lia]).
       apply wp_ret. rewrite app_nil_r in He. split; [done|]. split_and!; [by apply events_are_same|done|done]. }
  replace (length (image F) + length torn - length (image F))%nat with (length torn) by lia.
  destruct (Nat.ltb_spec (length torn) FRAME_HEADER_BYTES) as [Hs|Hs]; [by apply truncate_tail_wp|].
  destruct (torn_header _ Ht Hs) as (r & Hr & Hh & Hl).
  assert (Z.of_nat (length r.(payload)) ≤ 1048576) by apply Hr.
  io_step. io_step; [|split; by apply scan_stopped_same].
  io_step. apply wp_read_events; cbn [disk mem]; [rewrite He, length_app; lia|io_after|].
  2: { io_fault. io_after. split; apply scan_stopped_same; tauto. }
  rewrite He, drop_app_length, Hh, (parse_frame_header _ Hr). io_step. cbn [lift_result]. io_step. io_step.
  rewrite frame_end_exact by (unfold max_file_size, u64_max, i64_max, FRAME_HEADER_BYTES in *; lia).
  io_step. destruct (Nat.ltb_spec (length (image F) + length torn)
    (length (image F) + FRAME_HEADER_BYTES + length (payload r))); [|lia].
  eapply wp_mono; [by apply (truncate_tail_wp _ _ _ F torn)|..]; cbn beta.
  - intros ? s' [-> (Ha & Hb & Hc)]. split; [done|]. split_and!; [done|done|unfold calm in *; simpl in *; tauto].
  - intros _ s' [Ha Hb]. split; [unfold calm in *; simpl in *; tauto|done].
  - intros s' [Ha Hb]. split; [unfold calm in *; simpl in *; tauto|done].
Qed.

Lemma scan_done_from F s d fs m s' :
  (calm s → fs = []) → s.(disk) = d → s.(mem) = m →
  scan_done F {| disk := d; faults := fs; mem := m |} s' → scan_done F s s'.
Proof. intros Hc <- <- (Ha & Hb & Hd). split_and!; [done|done|]. intros Hs. by apply Hd, Hc. Qed.
Lemma scan_stopped_from F torn s d fs m s' :
  (calm s → fs = []) → s.(disk) = d → scan_stopped F torn {| disk := d; faults := fs; mem := m |} s' →
  scan_stopped F torn s s'.
Proof. intros Hc <- [Ha Hb]. split; [|done]. intros Hs. by apply Ha, Hc. Qed.

Lemma scan_frames_wp F2 : ∀ F1 torn fuel b c s,
  s.(disk).(events) = image (F1 ++ F2) ++ torn → Forall frame_ok F2 → torn_ok torn →
  Z.of_nat (length s.(disk).(events)) ≤ max_file_size → (length F2 < fuel)%nat →
  wp (scan_frames fuel (length s.(disk).(events)) (length (image F1)) c b)
    (λ res s', scan_end res = length (image (F1 ++ F2)) ∧
       ((b = true ∨ ∃ j, (length F1 < j ≤ length (F1 ++ F2))%nat ∧ boundary (F1 ++ F2) j = c) →
        checkpoint_is_boundary res = true) ∧ scan_done (F1 ++ F2) s s')
    (λ _ s', scan_stopped (F1 ++ F2) torn s s') (λ s', scan_stopped (F1 ++ F2) torn s s') s.
Proof.
  induction F2 as [|r F2 IH]; intros F1 torn fuel b c [d fs m] He HF Ht Hmax Hfuel; cbn [disk] in *;
    (destruct fuel as [|fuel]; [simpl in Hfuel; lia|]).
  - rewrite app_nil_r in *.
    eapply wp_mono; [exact (scan_tail_wp F1 torn fuel b c {| disk := d; faults := fs; mem := m |} He Ht Hmax)|..]; cbn beta; [|done|done].
    intros res s' [-> Hd]. split_and!; [done| |done]. intros [->|(j & Hj & _)]; [done|lia].
  - apply Forall_cons in HF as [Hr HF]. assert (Z.of_nat (length r.(payload)) ≤ 1048576) as Hlen by apply Hr.
    assert (He' : events d = image F1 ++ encode_frame r ++ image F2 ++ torn)
      by by rewrite He, image_app, image_cons, <- !app_assoc.
    assert (Hl : length (events d) = (length (image F1) + FRAME_HEADER_BYTES + length r.(payload)
      + length (image F2) + length torn)%nat) by (rewrite He', !length_app, encode_frame_length; lia).
    cbn [scan_frames]. unfold FRAME_HEADER_BYTES in Hl.
    destruct (Nat.ltb_spec (length (image F1)) (length (events d))) as [_|]; [|lia].
    destruct (Nat.ltb_spec (length (events d) - length (image F1)) FRAME_HEADER_BYTES) as [Hs|_];
      [unfold FRAME_HEADER_BYTES in Hs; lia|].
    io_step. io_step; [|split; by apply scan_stopped_same].
    io_step. apply wp_read_events; cbn [disk mem]; [unfold FRAME_HEADER_BYTES; lia|io_after|].
    2: { io_fault. io_after. split; apply scan_stopped_same; tauto. }
    rewrite He', image_header, (parse_frame_header _ Hr), <- He'. io_step. cbn [lift_result]. io_step. io_step.
    rewrite frame_end_exact by (unfold max_file_size, u64_max, i64_max, FRAME_HEADER_BYTES in *; lia).
    io_step. destruct (Nat.ltb_spec (length (events d))
      (length (image F1) + FRAME_HEADER_BYTES + length (payload r))) as [Hlt|_];
      [unfold FRAME_HEADER_BYTES in Hlt; lia|].
    io_step. cbn [ph_payload_len ph_checksum]. rewrite Nat2Z.id.
    apply wp_read_events; cbn [disk mem]; [unfold FRAME_HEADER_BYTES; lia|io_after|].
    2: { io_fault. io_after. split; apply scan_stopped_same; tauto. }
    rewrite He', image_payload, <- He', Z.eqb_refl. cbn [negb].
    replace (length (image F1) + FRAME_HEADER_BYTES + length (payload r))%nat with (length (image (F1 ++ [r])))
      by (rewrite image_snoc, length_app, encode_frame_length; lia).
    eapply wp_mono; [apply (IH (F1 ++ [r]) torn fuel _ c {| disk := d; faults := fs2; mem := m |})|..];
      cbn [disk]; rewrite <- ?app_assoc; cbn [app]; [done|done|done|lia|simpl in Hfuel; lia|..].
    + intros res s' (Hend & Hb & Hd). split_and!; [done| |eapply scan_done_from; [|done..]; tauto].
      intros Hor. apply Hb. destruct Hor as [->|(j & Hj & Ej)]; [by left|].
      destruct (decide (j = S (length F1))) as [->|Hne].
      * left. apply orb_true_iff. right. apply Z.eqb_eq. rewrite <- Ej. unfold boundary.
        rewrite (take_app_ge F1) by lia. replace (S (length F1) - length F1)%nat with 1%nat by lia. done.
      * right. exists j. rewrite !length_app in *. simpl in *. split; [lia|done].
    + intros _ s'. apply scan_stopped_from; [tauto|done].
    + intros s'. apply scan_stopped_from; [tauto|done].
Qed.

(** The scan finds every whole frame and drops the torn one; it accepts every
    checkpoint on a frame boundary. *)
Lemma scan_and_repair_wp F torn k c s :
  s.(disk).(events) = image F ++ torn → Forall frame_ok F → torn_ok torn →
  Z.of_nat (length s.(disk).(events)) ≤ max_file_size → (k ≤ length F)%nat → c = boundary F k →
  wp (scan_and_repair c)
    (λ res s', res = {| scan_end := length (image F); checkpoint_is_boundary := true |} ∧ scan_done F s s')
    (λ _ s', scan_stopped F torn s s') (λ s', scan_stopped F torn s s') s.
Proof.
  intros He HF Ht Hmax Hk ->. destruct s as [d fs m]. cbn [disk] in *. unfold scan_and_repair.
  io_step. io_step; [|split; by apply scan_stopped_same]. io_step. io_step.
  eapply wp_mono; [apply (scan_frames_wp F [] torn _ _ _ {| disk := d; faults := fs0; mem := m |});
    cbn [app disk]; try done|..]; cbn [app].
  - rewrite He, length_app. pose proof (image_length_count F). lia.
  - intros [e b] s' (Hend & Hb & Hd). cbn in Hend, Hb. subst e. split; [f_equal|eapply scan_done_from; [|done..]; tauto].
    apply Hb. destruct k as [|k]; [left; by rewrite Z.eqb_eq|]. right. exists (S k). split; [simpl; lia|done].
  - intros _ s'. apply scan_stopped_from; [tauto|done].
  - intros s'. apply scan_stopped_from; [tauto|done].
Qed.
End frames.
