(* ===== verification/Slots.v ===== *)
(** * Admission artefacts of the spool

    The slots that [Spool] keeps for admitted requests: between any two
    file-system calls a slot is either still unwritten or holds the terminal
    event of its request, and every program of the admission store preserves the
    events that slots hold ([evolves]).  Recovery reads all of them back when no
    call fails ([admission_open_wp]). *)

From S2P Require Import Prelude Text Decimal Domain Billing Cost Json Journal Disk Spool Frames.

Section slots.
Context {D T : Type} `{EventSerdeLaws D T} `{SpoolDepsLaws T}.
(** The terminal event of each request: a request ends once. *)
Context (terminal : uuid → RequestLogEvent D T).
(** The requests whose terminal event is ever appended. *)
Context (submitted : uuid → Prop).
Implicit Types (r : EncodedRequestLog) (F : list EncodedRequestLog) (d : Disk) (m : Spool).

(** ** Terminal slots *)

Context (terminal_id : ∀ id, (terminal id).(ev_id) = id).

(** A slot that was not written yet: its header is zero. *)
Definition zero_headed (f : File) : Prop := Forall (λ b, b = 0) (take HEADER_BYTES f.(data)).
(** A slot that holds the terminal event of its request. *)
Definition holds (id : uuid) (f : File) : Prop :=
  ∃ r rest, encode (terminal id) = Ok r ∧ Z.of_nat (length r.(payload)) ≤ MAX_PAYLOAD_BYTES ∧
    f.(data) = slot_header r ++ r.(payload) ++ rest ∧ submitted id.
Definition slot_ok (id : uuid) (f : File) : Prop :=
  (zero_headed f ∨ holds id f) ∧ file_len f ≤ Z.of_nat HEADER_BYTES + MAX_PAYLOAD_BYTES ∧ 0 ≤ f.(hole).

Lemma slot_header_length r : length (slot_header r) = HEADER_BYTES.
Proof. unfold slot_header. rewrite !length_app, !le_bytes_length by lia. done. Qed.

Lemma slot_header_fields r : Z.of_nat (length r.(payload)) ≤ MAX_PAYLOAD_BYTES → - 2 ^ 15 ≤ r.(schema_version) < 2 ^ 15 →
  slot_header_len (slot_header r) = Some (length r.(payload)) ∧
  from_le (slice (slot_header r) 12 4) = crc32 r.(payload) ∧
  from_le_i16 (slice (slot_header r) 4 2) = r.(schema_version).
Proof.
  intros Hlen Hver. unfold slot_header.
  set (a := SLOT_MAGIC). set (b := le_bytes 2 (schema_version r)). set (c := le_bytes 2 0).
  set (e := le_bytes 4 (Z.of_nat _)). set (g := le_bytes 4 (crc32 _)).
  assert (length a = 4%nat) as La by done.
  assert (length b = 2%nat) as Lb by (by apply le_bytes_length).
  assert (length c = 2%nat) as Lc by (by apply le_bytes_length).
  assert (length e = 4%nat) as Le by (by apply le_bytes_length).
  assert (length g = 4%nat) as Lg by (by apply le_bytes_length).
  unfold slot_header_len. rewrite take_app_length' by done. rewrite bool_decide_true by done. cbn [negb].
  assert (slice (a ++ b ++ c ++ e ++ g) 4 2 = b) as -> by (by apply slice_at).
  assert (slice (a ++ b ++ c ++ e ++ g) 6 2 = c) as ->
    by (rewrite (app_assoc a b); apply slice_at; rewrite ?length_app; lia).
  assert (slice (a ++ b ++ c ++ e ++ g) 8 4 = e) as ->
    by (rewrite (app_assoc a b), (app_assoc (a ++ b) c); apply slice_at; rewrite ?length_app; lia).
  assert (slice (a ++ b ++ c ++ e ++ g) 12 4 = g) as ->.
  { rewrite <- (app_nil_r g) at 1. rewrite (app_assoc a b), (app_assoc (a ++ b) c), (app_assoc ((a ++ b) ++ c) e).
    apply slice_at; rewrite ?length_app; lia. }
  unfold b, c, e, g in *. unfold MAX_PAYLOAD_BYTES in *.
  rewrite from_le_i16_le_bytes, !from_le_le_bytes by (done || lia || apply crc32_range).
  rewrite bool_decide_true by done. split_and!; [|done..].
  destruct (Z.ltb_spec 1048576 (Z.of_nat (length (payload r)))); [lia|]. simpl. by rewrite Nat2Z.id.
Qed.

Lemma holds_encoded id f : holds id f → ∃ r rest, encode (terminal id) = Ok r ∧
  f.(data) = slot_header r ++ r.(payload) ++ rest ∧ r.(request_log_id) = id ∧
  r.(schema_version) = REQUEST_LOG_SCHEMA_VERSION ∧ last r.(payload) = Some 125 ∧
  Z.of_nat (length r.(payload)) ≤ MAX_PAYLOAD_BYTES.
Proof.
  intros (r & rest & He & Hl & Hd & _). exists r, rest. destruct (encode_Ok _ _ He) as (Hid & Hv & Hp).
  split_and!; [done|done|by rewrite Hid, terminal_id|done|by eapply serialized_text|done].
Qed.

(** *** Contents of files *)

Lemma file_read_prefix f (a b : list Z) offset n :
  f.(data) = a ++ b → (length a = offset + n)%nat → 0 ≤ f.(hole) →
  file_read f offset n = Some (drop offset a).
Proof.
  intros Hd Hl Hh. unfold file_read, file_len. rewrite Hd, length_app.
  destruct (Z.leb_spec (Z.of_nat (offset + n)) (Z.of_nat (length a + length b) + f.(hole))); [|lia].
  rewrite drop_app_le by lia. rewrite take_app_length' by (rewrite length_drop; lia).
  rewrite length_drop. replace (n - (length a - offset))%nat with 0%nat by lia. by rewrite app_nil_r.
Qed.

Lemma file_write_len f offset l : 0 ≤ f.(hole) →
  file_len (file_write f offset l) = Z.max (file_len f) (Z.of_nat (offset + length l)) ∧ 0 ≤ (file_write f offset l).(hole).
Proof.
  intros Hh. unfold file_len, file_write, file_len. simpl.
  rewrite !length_app, length_replicate, length_take, length_drop. lia.
Qed.

(** *** Slots under the writes of the code *)

Lemma slot_ok_fresh id : slot_ok id {| data := []; hole := 0 |}.
Proof. split_and!; [left; constructor|done|done]. Qed.

Lemma slot_ok_allocate id f :
  slot_ok id f → slot_ok id {| data := f.(data);
    hole := Z.max f.(hole) (Z.of_nat HEADER_BYTES + MAX_PAYLOAD_BYTES - Z.of_nat (length f.(data))) |}.
Proof. unfold slot_ok, zero_headed, holds, file_len. simpl. intros (Hs & Hl & Hh). split_and!; [done|lia|lia]. Qed.

Lemma slot_write_ok id f offset l : slot_ok id f →
  Z.of_nat (offset + length l) ≤ Z.of_nat HEADER_BYTES + MAX_PAYLOAD_BYTES →
  zero_headed (file_write f offset l) ∨ holds id (file_write f offset l) → slot_ok id (file_write f offset l).
Proof.
  intros (_ & Hl & Hh) Hle Hs. split; [done|]. destruct (file_write_len f offset l Hh) as [-> Hh']. split; [|done]. lia.
Qed.

Lemma zero_headed_payload f l : zero_headed f → zero_headed (file_write f HEADER_BYTES l).
Proof.
  unfold zero_headed, file_write. simpl. intros Hz.
  rewrite app_assoc, take_app_le.
  - rewrite take_ge by (rewrite length_app, length_take, length_replicate; lia).
    apply Forall_app. split; [done|]. apply Forall_replicate. done.
  - rewrite length_app, length_take, length_replicate. lia.
Qed.

(** Writing again what is there. *)
Lemma file_write_same f (a l b : list Z) offset :
  f.(data) = a ++ l ++ b → offset = length a → 0 ≤ f.(hole) → file_write f offset l = f.
Proof.
  intros Hd -> Hh. destruct f as [dat h]. simpl in *. unfold file_write, file_len. simpl. rewrite Hd. f_equal.
  - rewrite take_app_length, Nat.sub_diag. simpl. f_equal. f_equal.
    rewrite drop_app_add. apply drop_app_length.
  - rewrite !length_app. lia.
Qed.

(** An incomplete write of the payload keeps the slot's state. *)
Lemma slot_ok_payload id f r n : slot_ok id f → encode (terminal id) = Ok r →
  Z.of_nat (length r.(payload)) ≤ MAX_PAYLOAD_BYTES → slot_ok id (file_write f HEADER_BYTES (take n r.(payload))).
Proof.
  intros Hs He Hlen. apply slot_write_ok; [done|rewrite length_take; lia|].
  destruct Hs as ([Hz|Hh] & _ & Hhole); [left; by apply zero_headed_payload|right].
  pose proof Hh as (r' & rest & He' & _ & Hd & _). assert (r' = r) as -> by congruence.
  rewrite (file_write_same f (slot_header r) _ (drop n r.(payload) ++ rest)); [done| |by rewrite slot_header_length|done].
  by rewrite Hd, (app_assoc (take n _)), take_drop.
Qed.

(** The payload of the terminal event is in place. *)
Definition payload_in_place (id : uuid) (f : File) : Prop :=
  ∃ r h rest, encode (terminal id) = Ok r ∧ length h = HEADER_BYTES ∧ f.(data) = h ++ r.(payload) ++ rest.

Lemma payload_written id f r : encode (terminal id) = Ok r →
  payload_in_place id (file_write f HEADER_BYTES r.(payload)).
Proof.
  intros He. eexists r, (take HEADER_BYTES f.(data) ++ replicate (HEADER_BYTES - length (take HEADER_BYTES f.(data))) 0),
    (drop (HEADER_BYTES + length r.(payload)) f.(data)). split_and!; [done| |].
  - rewrite length_app, length_take, length_replicate. lia.
  - unfold file_write. simpl. by rewrite <- app_assoc.
Qed.

Lemma holds_header id f r : encode (terminal id) = Ok r → Z.of_nat (length r.(payload)) ≤ MAX_PAYLOAD_BYTES →
  submitted id → payload_in_place id f → holds id (file_write f 0 (slot_header r)).
Proof.
  intros He Hlen Hsub (r' & h & rest & He' & Hh & Hd). assert (r' = r) as -> by congruence.
  exists r, rest. split_and!; [done|done| |done].
  change (data (file_write f 0 (slot_header r))) with (slot_header r ++ drop (length (slot_header r)) f.(data)).
  by rewrite slot_header_length, Hd, <- Hh, drop_app_length.
Qed.

Lemma content_len_app l l' x : last l = Some x → x ≠ 0 → (length l ≤ content_len (l ++ l'))%nat.
Proof.
  intros Hl Hx. revert Hl. induction l as [|b l IH]; [done|]. intros Hl. destruct l as [|c l].
  - simpl in *. injection Hl as ->. destruct (content_len l'); [|lia].
    destruct (Z.eqb_spec x 0); [done|lia].
  - specialize (IH Hl). change (content_len ((b :: c :: l) ++ l'))
      with (match content_len ((c :: l) ++ l') with O => if (b =? 0)%Z then 0 else 1 | n => S n end)%nat.
    destruct (content_len ((c :: l) ++ l')); simpl in *; lia.
Qed.
Lemma content_len_le l : (content_len l ≤ length l)%nat.
Proof. induction l as [|b l IH]; simpl; [lia|]. destruct (content_len l); [case_match; lia|lia]. Qed.

(** Dropping trailing zeros keeps the evidence. *)
Lemma holds_truncate id f : holds id f → holds id (file_truncate f (content_len f.(data))).
Proof.
  intros Hh. assert (Hsub : submitted id) by by destruct Hh as (? & ? & _ & _ & _ & ?).
  apply holds_encoded in Hh as (r & rest & He & Hd & Hlen).
  exists r, (take (content_len f.(data) - length (slot_header r ++ r.(payload))) rest). split_and!; [done|apply Hlen| |done].
  simpl. rewrite Hd at 2. rewrite (app_assoc (slot_header r) (payload r) rest). rewrite take_app_ge.
  - by rewrite <- app_assoc.
  - rewrite Hd, (app_assoc (slot_header r)). apply (content_len_app _ _ 125); [|done].
    rewrite last_app. destruct Hlen as (_ & _ & -> & _). done.
Qed.
Lemma slot_ok_truncate id f : slot_ok id f → slot_ok id (file_truncate f (content_len f.(data))).
Proof.
  intros (Hs & Hl & Hh). pose proof (content_len_le f.(data)) as Hle. split.
  - destruct Hs as [Hz|Hd]; [left|right; by apply holds_truncate].
    unfold zero_headed in *. simpl. rewrite take_take, Nat.min_comm, <- take_take. by apply Forall_take.
  - unfold file_truncate, file_len in *. simpl. rewrite length_take. lia.
Qed.

(** ** The admissions directory *)

Definition slot_holds d (id : uuid) : Prop :=
  ∃ f, d.(admissions) !! path id "slot" = Some (RegularFile f) ∧ holds id f.
Definition admissions_ok d : Prop := ∀ p e, d.(admissions) !! p = Some e →
  ∃ id f, uuid_ok id ∧ e = RegularFile f ∧ (p = path id "json" ∨ p = path id "slot" ∧ slot_ok id f).

Lemma uuid_text_inj id id' : uuid_ok id → uuid_ok id' → uuid_text id = uuid_text id' → id = id'.
Proof. intros Hi Hi' E. apply uuid_parse_text in Hi, Hi'. rewrite E in Hi. congruence. Qed.

Lemma admissions_slot d id f : admissions_ok d → uuid_ok id →
  d.(admissions) !! path id "slot" = Some (RegularFile f) → slot_ok id f.
Proof.
  intros Hok Hid Hf. destruct (Hok _ _ Hf) as (id' & f' & Hid' & [= <-] & [[= E]|[[= E] Hs]]).
  by rewrite (uuid_text_inj id id').
Qed.

(** The log is untouched, the directory stays well formed and no terminal event
    is lost. *)
Definition same_log d d' : Prop :=
  d'.(events) = d.(events) ∧ d'.(checkpoint_file) = d.(checkpoint_file) ∧ d'.(locked) = d.(locked).
Definition evolves d d' : Prop :=
  same_log d d' ∧
  (admissions_ok d → admissions_ok d' ∧ ∀ id, uuid_ok id → slot_holds d id → slot_holds d' id).

#[local] Instance evolves_preorder : PreOrder evolves.
Proof.
  split.
  - intros d. split; [done|]. done.
  - intros d1 d2 d3 [(E1 & E2 & E3) H12] [(E1' & E2' & E3') H23]. split; [split_and!; congruence|].
    intros Hok. apply H12 in Hok as [Hok Hm]. apply H23 in Hok as [Hok Hm']. split; [done|]. auto.
Qed.

Lemma evolves_create d id ext : uuid_ok id → ext = "json" ∨ ext = "slot" →
  d.(admissions) !! path id ext = None →
  evolves d (with_admissions (<[path id ext := RegularFile {| data := []; hole := 0 |}]> d.(admissions)) d).
Proof.
  intros Hid Hext Hnone. split; [done|]. intros Hok. split.
  - intros p e. simpl. rewrite lookup_insert_Some. intros [[<- <-]|[_ Hp]]; [|by apply Hok].
    exists id, {| data := []; hole := 0 |}. split_and!; [done..|].
    destruct Hext as [->| ->]; [by left|right; split; [done|apply slot_ok_fresh]].
  - intros id' _ (f & Hf & Hh). exists f. split; [|done]. simpl. rewrite lookup_insert_ne; [done|].
    intros E. rewrite E in Hnone. congruence.
Qed.

Lemma evolves_update_slot d id g : uuid_ok id →
  (∀ f, d.(admissions) !! path id "slot" = Some (RegularFile f) → slot_ok id f →
     slot_ok id (g f) ∧ (holds id f → holds id (g f))) →
  evolves d (update_file (path id "slot") g d).
Proof.
  intros Hid Hg. unfold update_file. destruct (admissions d !! path id "slot") as [[f|]|] eqn:Hf; [|reflexivity..].
  split; [done|]. intros Hok. destruct (Hg f eq_refl (admissions_slot _ _ _ Hok Hid Hf)) as [Hs Hh]. split.
  - intros p e. simpl. rewrite lookup_insert_Some. intros [[<- <-]|[_ Hp]]; [|by apply Hok].
    exists id, (g f). split_and!; [done..|]. by right.
  - intros id' Hid' (f' & Hf' & Hh'). destruct (decide (id' = id)) as [->|Hne].
    + exists (g f). simpl. rewrite lookup_insert_eq. split; [done|]. rewrite Hf in Hf'. injection Hf' as <-. auto.
    + exists f'. simpl. rewrite lookup_insert_ne; [done|]. intros [= E].
      by apply Hne, uuid_text_inj.
Qed.

Lemma evolves_update_json d id g : evolves d (update_file (path id "json") g d).
Proof.
  unfold update_file. destruct (admissions d !! path id "json") as [[f|]|] eqn:Hf; [|reflexivity..].
  split; [done|]. intros Hok. split.
  - intros p e. simpl. rewrite lookup_insert_Some. intros [[<- <-]|[_ Hp]]; [|by apply Hok].
    destruct (Hok _ _ Hf) as (id' & f' & Hid' & _ & [E|[[= E] _]]). exists id', (g f). split_and!; [done..|by left].
  - intros id' Hid' (f' & Hf' & Hh'). exists f'. simpl. by rewrite lookup_insert_ne.
Qed.

Lemma evolves_remove_json d id : evolves d (with_admissions (delete (path id "json") d.(admissions)) d).
Proof.
  split; [done|]. intros Hok. split.
  - intros p e. simpl. rewrite lookup_delete_Some. intros [_ Hp]. by apply Hok.
  - intros id' _ (f & Hf & Hh). exists f. simpl. by rewrite lookup_delete_ne.
Qed.

(** Removing a slot loses at most its own event. *)
Lemma remove_slot_ok d id : admissions_ok d →
  admissions_ok (with_admissions (delete (path id "slot") d.(admissions)) d).
Proof. intros Hok p e. simpl. rewrite lookup_delete_Some. intros [_ Hp]. by apply Hok. Qed.
Lemma remove_slot_holds d id id' : uuid_ok id → uuid_ok id' → id' ≠ id → slot_holds d id' →
  slot_holds (with_admissions (delete (path id "slot") d.(admissions)) d) id'.
Proof.
  intros Hid Hid' Hne (f & Hf & Hh). exists f. simpl. rewrite lookup_delete_ne; [done|].
  intros [= E]. by apply Hne, uuid_text_inj.
Qed.

(** The two writes of [save_terminal]. *)
Lemma evolves_payload d id r n : uuid_ok id → encode (terminal id) = Ok r →
  Z.of_nat (length r.(payload)) ≤ MAX_PAYLOAD_BYTES →
  evolves d (update_file (path id "slot") (λ f, file_write f HEADER_BYTES (take n r.(payload))) d).
Proof.
  intros Hid He Hlen. apply evolves_update_slot; [done|]. intros f _ Hs. split; [by apply slot_ok_payload|].
  intros Hh. pose proof Hh as (r' & rest & He' & _ & Hd & _). assert (r' = r) as -> by congruence.
  rewrite (file_write_same f (slot_header r) _ (drop n r.(payload) ++ rest)); [done| |by rewrite slot_header_length|apply Hs].
  by rewrite Hd, (app_assoc (take n _)), take_drop.
Qed.

Lemma update_file_lookup p g d f : d.(admissions) !! p = Some (RegularFile f) →
  (update_file p g d).(admissions) !! p = Some (RegularFile (g f)).
Proof. intros Hf. unfold update_file. rewrite Hf. simpl. by rewrite lookup_insert_eq. Qed.

Lemma evolves_header d id r f : uuid_ok id → encode (terminal id) = Ok r →
  Z.of_nat (length r.(payload)) ≤ MAX_PAYLOAD_BYTES →
  d.(admissions) !! path id "slot" = Some (RegularFile f) → submitted id → payload_in_place id f →
  let d' := update_file (path id "slot") (λ f, file_write f 0 (slot_header r)) d in
  evolves d d' ∧ slot_holds d' id.
Proof.
  intros Hid He Hlen Hf Hsub Hp d'. pose proof (holds_header id f r He Hlen Hsub Hp) as Hh. split.
  - apply evolves_update_slot; [done|]. intros f' Hf' Hs. rewrite Hf in Hf'. injection Hf' as <-.
    split; [|done]. apply slot_write_ok; [done| |by right]. rewrite slot_header_length. unfold MAX_PAYLOAD_BYTES. lia.
  - exists (file_write f 0 (slot_header r)). split; [by apply (update_file_lookup _ (λ f, file_write f 0 _))|done].
Qed.

(** ** Programs of the admission store *)

(** From [s] to [s'] the directory evolved and, in memory, at most the admission
    store changed. *)
Definition evolved (s s' : Sys Spool) : Prop :=
  evolves s.(disk) s'.(disk) ∧ (∃ a, s'.(mem) = set_admissions a s.(mem)) ∧ (calm s → calm s').

Lemma set_admissions_same m : ∃ a, m = set_admissions a m.
Proof. exists m.(w_admissions). by destruct m. Qed.
Hint Resolve set_admissions_same : core.
Lemma set_admissions_twice a b m : ∃ c, set_admissions a (set_admissions b m) = set_admissions c m.
Proof. by exists a. Qed.

Lemma evolved_intro d fs m d' fs' m' :
  evolves d d' → (∃ a, m' = set_admissions a m) → (fs = [] → fs' = []) →
  evolved {| disk := d; faults := fs; mem := m |} {| disk := d'; faults := fs'; mem := m' |}.
Proof. done. Qed.
Lemma evolved_disk d fs m d' fs' m' :
  evolves d d' → evolves (disk {| disk := d; faults := fs; mem := m |}) (disk {| disk := d'; faults := fs'; mem := m' |}).
Proof. done. Qed.

Ltac evolve :=
  cbn [disk faults mem]; try (apply evolved_intro; [|by eauto|tauto]);
  try match goal with |- evolves _ _ => eassumption || reflexivity | |- _ = _ => reflexivity end.

Lemma create_wp id ext s : uuid_ok id → ext = "json" ∨ ext = "slot" →
  wp (create id ext) (λ _ s', evolved s s' ∧ s'.(mem) = s.(mem)) (λ _ s', evolved s s' ∧ s'.(mem) = s.(mem))
    (λ s', evolves s.(disk) s'.(disk)) s.
Proof.
  intros Hid Hext. destruct s as [d fs m]. unfold create, create_new. io_step. io_step. io_step.
  destruct (admissions d !! path id ext) eqn:Hp.
  - io_step. io_step; [io_step|split]; split_and?; evolve.
  - pose proof (evolves_create d id ext Hid Hext Hp) as Hev. io_step; [|split; split_and?; evolve].
    io_step; [|split]; split_and?; evolve.
Qed.

Lemma reserve_wp i s : uuid_ok i.(in_id) →
  wp (reserve i) (λ _ s', evolved s s') (λ _ s', evolved s s') (λ s', evolves s.(disk) s'.(disk)) s.
Proof.
  intros Hid. destruct s as [d fs m]. unfold reserve. io_step.
  destruct (intent_to_vec i) as [bytes|]; cbn [ok_or lift_result]; [|io_step; evolve]. io_step.
  destruct (MAX_INTENT_BYTES <? _); [io_step; evolve|]. io_step. io_step.
  destruct (contains _ _); [io_step; evolve|]. unfold modify. io_step. io_step. io_step. io_step.
  io_step. eapply wp_mono; [apply create_wp; [done|by right]|..]; cbn beta.
  2: { intros _ s' [(Hd & _ & Hc) Hm]. destruct s' as [d' fs' m']. simpl in *. subst. evolve. }
  2: { intros s' Hd. destruct s'. evolve. }
  intros _ [d1 fs1 m1] [(Hd1 & _ & Hc1) Hm1]. unfold calm in Hc1. simpl in Hd1, Hm1, Hc1. subst m1.
  io_step. unfold allocate.
  pose proof (evolves_update_slot d1 i.(in_id) _ Hid (λ f _ Hs, conj (slot_ok_allocate _ _ Hs) (λ Hh, Hh))) as Hal.
  pose proof (transitivity Hd1 Hal) as Hd2.
  io_step; [|split; evolve]. io_step. io_step; [|split; evolve].
  io_step. eapply wp_mono; [apply create_wp; [done|by left]|..]; cbn beta.
  2: { intros _ [d' fs' m'] [(Hd & _ & Hc) Hm]. unfold calm in Hc. simpl in *. subst. evolve. by etrans. }
  2: { intros [d' fs' m'] Hd. simpl in *. by etrans. }
  intros _ [d3 fs9 m3] [(Hd3 & _ & Hc3) Hm3]. unfold calm in Hc3. simpl in Hd3, Hm3, Hc3. subst m3.
  pose proof (transitivity Hd2 Hd3) as Hd4. unfold write_file. io_step. io_step.
  2: { pose proof (transitivity Hd4 (evolves_update_json d3 i.(in_id) (λ f, file_write f 0 (take n bytes)))).
       split; evolve. }
  pose proof (transitivity Hd4 (evolves_update_json d3 i.(in_id) (λ f, file_write f 0 bytes))) as Hd5.
  io_step. io_step; [|split; evolve]. io_step; [|split; evolve]. evolve.
Qed.

Lemma encoded_wp event (Qd : EncodedRequestLog → Sys Spool → Prop) (Qf : SpoolError → Sys Spool → Prop) Qc s :
  (∀ r, encode event = Ok r → Z.of_nat (length r.(payload)) ≤ MAX_PAYLOAD_BYTES → Qd r s) →
  (∀ e, Qf e s) → wp (encoded event) Qd Qf Qc s.
Proof.
  intros Hd Hf. unfold encoded. io_step. destruct (encode event) as [r|e]; [|io_step; apply Hf]. io_step.
  destruct (Z.ltb_spec MAX_PAYLOAD_BYTES (Z.of_nat (length (payload r)))); io_step; [apply Hf|by apply Hd].
Qed.

(** Once [save_terminal] returns, the slot holds the event; without faults it
    can only fail if the slot did not hold it before. *)
Lemma save_terminal_wp id s : uuid_ok id → submitted id →
  wp (save_terminal (terminal id))
    (λ _ s', evolved s s' ∧ s'.(mem) = s.(mem) ∧ slot_holds s'.(disk) id)
    (λ e s', evolved s s' ∧ s'.(mem) = s.(mem) ∧ (calm s → ¬ slot_holds s.(disk) id) ∧ e ≠ UnavailableAfterWriteFailure)
    (λ s', ¬ calm s ∧ evolves s.(disk) s'.(disk)) s.
Proof.
  intros Hid Hsub. destruct s as [d fs m]. unfold save_terminal, encoded, calm. cbn [disk faults]. rewrite terminal_id.
  do 2 io_step. destruct (encode (terminal id)) as [r|e] eqn:He.
  2: { io_step. split_and!; evolve; [|done]. intros _ (f & _ & r & _ & He' & _). congruence. }
  io_step. destruct (Z.ltb_spec MAX_PAYLOAD_BYTES (Z.of_nat (length (payload r)))) as [Hbig|Hlen]; io_step.
  { split_and!; evolve; [|done]. intros _ (f & _ & r' & _ & He' & Hl & _). rewrite He in He'. injection He' as <-. lia. }
  unfold open_existing. io_step. io_step. io_step; [|split; split_and?; evolve; done || tauto].
  io_step. io_step. destruct (admissions d !! path id "slot") as [[f|]|] eqn:Hf; io_step.
  2: { split_and!; evolve; [|done]. intros _ (f & Hf' & _). simpl in Hf'. congruence. }
  2: { io_step. split_and!; evolve; [|done]. intros _ (f & Hf' & _). simpl in Hf'. congruence. }
  io_step. io_step; [|split; split_and?; evolve; done || tauto]. unfold write_file, write_sector.
  io_step. io_step.
  2: { pose proof (evolves_payload d id r n Hid He Hlen) as Hp. split; split_and?; evolve; done || tauto. }
  pose proof (evolves_payload d id r (length r.(payload)) Hid He Hlen) as Hp. rewrite firstn_all in Hp.
  pose proof (update_file_lookup (path id "slot") (λ f, file_write f HEADER_BYTES r.(payload)) d f Hf) as Hf1.
  set (d1 := update_file _ _ d) in *.
  io_step. io_step; [|split; split_and?; evolve; done || tauto].
  destruct (evolves_header d1 id r _ Hid He Hlen Hf1 Hsub (payload_written id f r He)) as [Hh Hs].
  pose proof (transitivity Hp Hh) as Hd2.
  io_step. io_step; [|split; split_and?; evolve; done || tauto]. io_step; [|split]; split_and?; evolve; done || tauto.
Qed.

(** The programs of recovery read the directory or trim it. *)
Definition slot_known (s : Sys Spool) (id : uuid) (o : option (RequestLogEvent D T)) : Prop :=
  match o with
  | Some e => e = terminal id ∧ slot_holds s.(disk) id
  | None => calm s → ¬ slot_holds s.(disk) id
  end.

Lemma zero_headed_no_terminal f h : zero_headed f → file_read f 0 HEADER_BYTES = Some h → slot_header_len h = None.
Proof.
  unfold zero_headed, file_read. intros Hz. case_match; [|done]. intros [= <-]. change (drop 0 (data f)) with (data f).
  assert (Forall (λ b, b = 0) (take HEADER_BYTES (data f) ++ replicate (HEADER_BYTES - length (take HEADER_BYTES (data f))) 0)) as Hall.
  { apply Forall_app. split; [done|]. by apply Forall_replicate. }
  unfold slot_header_len. rewrite bool_decide_false; [done|]. intros E.
  apply (Forall_take _ 4%nat) in Hall. rewrite E in Hall. by apply Forall_cons in Hall as [? _].
Qed.

Lemma holds_read id f : holds id f → 0 ≤ f.(hole) → ∃ r,
  file_read f 0 HEADER_BYTES = Some (slot_header r) ∧
  file_read f HEADER_BYTES (length r.(payload)) = Some r.(payload) ∧
  slot_header_len (slot_header r) = Some (length r.(payload)) ∧
  crc32 r.(payload) = from_le (slice (slot_header r) 12 4) ∧
  decode {| request_log_id := id; schema_version := from_le_i16 (slice (slot_header r) 4 2);
            payload := r.(payload) |} = Ok (terminal id).
Proof.
  intros (r & rest & He & Hd & Hid & Hv & Hlast & Hlen)%holds_encoded Hh. exists r.
  destruct (slot_header_fields r Hlen) as (H4 & H5 & H6); [by rewrite Hv|]. split_and!; [| |done|done|].
  - rewrite (file_read_prefix _ (slot_header r) (r.(payload) ++ rest)); [done|done| |done]. by rewrite slot_header_length.
  - rewrite (file_read_prefix _ (slot_header r ++ r.(payload)) rest); [|by rewrite Hd, app_assoc| |done].
    + by rewrite <- (slot_header_length r), drop_app_length.
    + by rewrite length_app, slot_header_length.
  - rewrite H6. subst id. destruct r as [i v p]. simpl in *. by apply decode_encode.
Qed.

Lemma read_exact_wp f offset n (Qd : list Z → Sys Spool → Prop) (Qf : SpoolError → Sys Spool → Prop)
    (Qc : Sys Spool → Prop) s :
  (∀ l s', file_read f offset n = Some l → sys_after s s.(disk) s.(mem) s' → Qd l s') →
  (∀ s', sys_after s s.(disk) s.(mem) s' → (calm s → file_read f offset n = None) → Qf Io s') →
  (¬ calm s → ∀ s', sys_after s s.(disk) s.(mem) s' → Qc s') →
  wp (read_exact f offset n) Qd Qf Qc s.
Proof.
  intros Hd Hf Hc. unfold read_exact. apply wp_bind, wp_plain.
  - intros s' Hs'. destruct (file_read f offset n) as [l|]; io_step; [by apply Hd|by apply Hf].
  - intros Hn s' Hs'. split; [apply Hf; [done|tauto]|by apply Hc].
Qed.

(** Reading an open slot. *)
Lemma read_slot_zero_wp id f s : zero_headed f →
  wp (read_slot id f) (λ o s', o = None ∧ sys_after s s.(disk) s.(mem) s')
    (λ _ _, False) (λ s', ¬ calm s ∧ s'.(disk) = s.(disk)) s.
Proof.
  intros Hz. destruct s as [d fs m]. unfold read_slot, sys_after, calm. io_step. io_step. cbn [disk mem faults].
  apply read_exact_wp; cbn [disk mem].
  - intros h. intros s' Hh. revert s'. io_after. cbn [mbind option_bind]. rewrite (zero_headed_no_terminal f h Hz Hh). cbn [mbind option_bind]. io_step. done.
  - io_after. intros _. cbn [mbind option_bind]. io_step. done.
  - io_fault. io_after. done.
Qed.

Lemma read_slot_holds_wp id f s : holds id f → 0 ≤ f.(hole) →
  wp (read_slot id f)
    (λ o s', (o = Some (terminal id) ∨ o = None ∧ ¬ calm s) ∧ sys_after s s.(disk) s.(mem) s')
    (λ _ _, False) (λ s', ¬ calm s ∧ s'.(disk) = s.(disk)) s.
Proof.
  intros Hh Hhole. destruct (holds_read id f Hh Hhole) as (r & Hr1 & Hr2 & Hlen & Hcrc & Hdec).
  destruct s as [d fs m]. unfold read_slot, sys_after, calm. io_step. io_step. cbn [disk mem faults].
  apply read_exact_wp; cbn [disk mem].
  - intros h s' Hh'. revert s'. io_after. rewrite Hr1 in Hh'. injection Hh' as <-.
    cbn [mbind option_bind]. rewrite Hlen. cbn [mbind option_bind]. io_step. io_step.
    apply read_exact_wp; cbn [disk mem].
    + intros l s' Hl. revert s'. io_after. rewrite Hr2 in Hl. injection Hl as <-.
      rewrite <- Hcrc, Z.eqb_refl. cbn [negb]. rewrite Hdec, bool_decide_true by apply terminal_id.
      io_step. split_and!; [by left|done|done|simpl; tauto].
    + io_after. intros Hn. io_step. split_and!; [right; split; [done|]|done|done|simpl; tauto].
      intros Hc. unfold calm in Hn. simpl in Hn. rewrite Hr2 in Hn. by specialize (Hn (Hcalm Hc)).
    + io_fault. io_after. split; [tauto|done].
  - io_after. intros Hn. cbn [mbind option_bind]. io_step. split_and!; [right; split; [done|]|done|done|simpl; tauto].
    intros Hc. unfold calm in Hn. simpl in Hn. rewrite Hr1 in Hn. by specialize (Hn Hc).
  - io_fault. io_after. done.
Qed.

Lemma zero_headed_not_holds id f : zero_headed f → 0 ≤ f.(hole) → ¬ holds id f.
Proof.
  intros Hz Hh Hx. destruct (holds_read id f Hx Hh) as (r & Hr & _ & Hl & _).
  by rewrite (zero_headed_no_terminal _ _ Hz Hr) in Hl.
Qed.

(** Reading a slot back: its event when it holds one; [None] for a slot that
    holds nothing, or when a read fails. *)
Lemma read_terminal_wp id s : admissions_ok s.(disk) → uuid_ok id →
  wp (read_terminal id)
    (λ o s', sys_after s s.(disk) s.(mem) s' ∧ slot_known s id o)
    (λ _ s', ¬ calm s ∧ s'.(disk) = s.(disk)) (λ s', ¬ calm s ∧ s'.(disk) = s.(disk)) s.
Proof.
  intros Hok Hid. destruct s as [d fs m]. cbn [disk] in Hok. unfold read_terminal, open_existing.
  io_step. io_step. io_step; [|split; done]. io_step. io_step.
  destruct (admissions d !! path id "slot") as [[f|]|] eqn:Hf.
  2: { exfalso. by destruct (Hok _ _ Hf) as (? & ? & _ & ? & _). }
  2: { do 2 io_step. split; [done|]. intros _ (f & Hf' & _). simpl in Hf'. congruence. }
  pose proof (admissions_slot _ _ _ Hok Hid Hf) as (Hs & Hl & Hh). io_step.
  destruct (decide (fs0 = [])) as [->|Hne].
  all: destruct Hs as [Hz|Hx]; [eapply wp_mono; [by apply read_slot_zero_wp|..]|
    eapply wp_mono; [by apply read_slot_holds_wp|..]]; cbn beta; unfold sys_after, calm; cbn [disk faults mem]; try tauto.
  all: try (intros ? s' (? & ? & ? & ?)); try (intros s' (? & ?)); subst; split_and?; try tauto; cbn.
  - intros _ (f' & Hf' & Hx). simpl in Hf'. rewrite Hf in Hf'. injection Hf' as <-. by apply zero_headed_not_holds in Hx.
  - destruct H3 as [->|[_ ?]]; [|done]. split; [done|]. by exists f.
  - intros _ (f' & Hf' & Hx). simpl in Hf'. rewrite Hf in Hf'. injection Hf' as <-. by apply zero_headed_not_holds in Hx.
  - destruct H3 as [->|[-> _]]; [split; [done|]; by exists f|]. unfold calm. simpl. tauto.
Qed.

(** *** Startup *)

(** A program that only evolves the directory, and stops early only when calls
    fail. *)
Definition halted (s s' : Sys Spool) : Prop := ¬ calm s ∧ evolves s.(disk) s'.(disk).
Definition same_ids (s s' : Sys Spool) : Prop := s'.(mem).(w_admissions).(ids) = s.(mem).(w_admissions).(ids).
Definition tidies {A} (p : IO Spool SpoolError A) s : Prop :=
  wp p (λ _ s', evolved s s' ∧ same_ids s s') (λ _ s', halted s s') (λ s', halted s s') s.

Lemma halted_from s s1 s' : evolved s s1 → halted s1 s' → halted s s'.
Proof. intros (Hd & _ & Hc) [Hn Hd']. split; [tauto|by etrans]. Qed.
Lemma evolved_trans s s1 s' : evolved s s1 → evolved s1 s' → evolved s s'.
Proof.
  intros (Hd & [a Ha] & Hc) (Hd' & [b Hb] & Hc'). split_and!; [by etrans| |tauto]. exists b. by rewrite Hb, Ha.
Qed.
Lemma tidies_bind {A B} (p : IO Spool SpoolError A) (k : A → IO Spool SpoolError B) s :
  tidies p s → (∀ a s', evolved s s' → same_ids s s' → tidies (k a) s') → tidies (io_bind p k) s.
Proof.
  intros Hp Hk. apply wp_bind. eapply wp_mono; [exact Hp|..]; cbn beta; [|done..].
  intros a s1 [He Hi]. eapply wp_mono; [by apply Hk|..]; cbn beta.
  - intros b s2 [He2 Hi2]. split; [by eapply evolved_trans|]. unfold same_ids in *. congruence.
  - intros _ s2. by apply halted_from.
  - intros s2. by apply halted_from.
Qed.
Lemma evolved_refl s : evolved s s.
Proof. destruct s. split_and!; [reflexivity|eauto|done]. Qed.
Lemma tidies_ret {A} (a : A) s : tidies (io_ret a) s.
Proof. split; [apply evolved_refl|done]. Qed.
Lemma tidies_plain s : tidies (plain Io) s.
Proof.
  destruct s as [d fs m]. unfold tidies. io_step; [|split; split; done].
  split; [evolve|done].
Qed.
Lemma tidies_update_slot id g s : uuid_ok id →
  (∀ f, s.(disk).(admissions) !! path id "slot" = Some (RegularFile f) → slot_ok id f →
     slot_ok id (g f) ∧ (holds id f → holds id (g f))) →
  tidies (call Io (update_file (path id "slot") g)) s.
Proof.
  intros Hid Hg. destruct s as [d fs m]. unfold tidies. io_step; [|split; split; done].
  split; [|done]. apply evolved_intro; [by apply evolves_update_slot|eauto|tauto].
Qed.
Lemma evolved_ok s s' : evolved s s' → admissions_ok s.(disk) → admissions_ok s'.(disk).
Proof. intros ([_ He] & _). tauto. Qed.

Lemma count_retained_wp id ext s : tidies (count_retained id ext) s.
Proof.
  apply tidies_bind.
  - apply tidies_bind; [apply tidies_plain|]. intros _ s' _ _. destruct s' as [d fs m]. unfold tidies. io_step. io_step.
    destruct (admissions d !! path id ext) as [[f|]|]; apply tidies_ret.
  - intros [n|] s' _ _; [|apply tidies_ret]. destruct s' as [d fs m]. unfold tidies, modify. io_step. io_step. io_step.
    split; [|done]. evolve.
Qed.

Lemma tidies_open id s (k : option File → IO Spool SpoolError unit) :
  admissions_ok s.(disk) → uuid_ok id →
  (∀ s' f, s'.(disk) = s.(disk) → s.(disk).(admissions) !! path id "slot" = Some (RegularFile f) →
     slot_ok id f → tidies (k (Some f)) s') →
  (∀ s', s'.(disk) = s.(disk) → tidies (k None) s') →
  tidies (file <~ open_existing Io (path id "slot"); k file)%gw s.
Proof.
  intros Hok Hid Hsome Hnone. apply wp_bind. unfold open_existing. destruct s as [d fs m].
  assert (Hk : ∀ o fs', (fs = [] → fs' = []) → tidies (k o) {| disk := d; faults := fs'; mem := m |} →
    wp (k o) (λ _ s', evolved {| disk := d; faults := fs; mem := m |} s' ∧ same_ids {| disk := d; faults := fs; mem := m |} s')
      (λ _ s', halted {| disk := d; faults := fs; mem := m |} s')
      (λ s', halted {| disk := d; faults := fs; mem := m |} s') {| disk := d; faults := fs'; mem := m |}).
  { intros o fs' Hfs Ht. assert (He : evolved {| disk := d; faults := fs; mem := m |} {| disk := d; faults := fs'; mem := m |})
      by evolve. eapply wp_mono; [exact Ht|..]; cbn beta.
    - intros _ s2 [He2 Hi2]. split; [by eapply evolved_trans|done].
    - intros _ s2. by apply halted_from.
    - intros s2. by apply halted_from. }
  io_step. io_step; [|split; split; done]. io_step. io_step. cbn [disk] in *.
  destruct (admissions d !! path id "slot") as [[f|]|] eqn:Hf.
  - io_step. apply Hk; [tauto|]. apply (Hsome _ f); [done|done|]. by eapply admissions_slot.
  - exfalso. by destruct (Hok _ _ Hf) as (? & ? & _ & ? & _).
  - io_step. apply Hk; [tauto|]. by apply Hnone.
Qed.

(** The part of [retain_unknown] that trims an open slot. *)
Lemma trim_wp id f s : uuid_ok id → s.(disk).(admissions) !! path id "slot" = Some (RegularFile f) → slot_ok id f →
  tidies (plain Io ;~
      if Z.of_nat HEADER_BYTES + MAX_PAYLOAD_BYTES <? file_len f
      then throw (Corrupt "admission slot exceeds size limit")
      else plain Io ;~ set_file_len Io (path id "slot") (content_len f.(data)) ;~ plain Io)%gw s.
Proof.
  intros Hid Hf Hslot. destruct s as [d fs m]. cbn [disk] in Hf. unfold tidies, set_file_len.
  assert (Hev : evolves d (update_file (path id "slot") (λ f', file_truncate f' (content_len (data f))) d)).
  { apply evolves_update_slot; [done|]. intros f' Hf' Hs. rewrite Hf in Hf'. injection Hf' as <-.
    split; [by apply slot_ok_truncate|by apply holds_truncate]. }
  io_step. io_step; [|split; split; done]. destruct Hslot as (_ & Hl & _).
  destruct (Z.ltb_spec (Z.of_nat HEADER_BYTES + MAX_PAYLOAD_BYTES) (file_len f)); [lia|].
  io_step. io_step; [|split; split; try done; unfold calm; simpl; tauto].
  io_step. io_step; [|split; split; try done; unfold calm; simpl; tauto].
  io_step; [|split; split; try done; unfold calm; simpl; tauto]. split; [evolve|done].
Qed.

Lemma retain_unknown_wp id s : admissions_ok s.(disk) → uuid_ok id → tidies (retain_unknown id) s.
Proof.
  intros Hok Hid.
  assert (∀ s', tidies (count_retained id "json" ;~ count_retained id "slot")%gw s') as Hcount.
  { intros s'. apply tidies_bind; [apply count_retained_wp|]. intros. apply count_retained_wp. }
  apply tidies_open; [done|done| |].
  - intros s' f Hs' Hf Hslot. apply tidies_bind; [|intros; apply Hcount]. apply trim_wp; [done| |done]. by rewrite Hs'.
  - intros s' Hs'. apply tidies_bind; [apply tidies_ret|]. intros. apply Hcount.
Qed.

(** *** Listing and recovering *)

Lemma entry_id_path id ext : uuid_ok id → ext = "json" ∨ ext = "slot" → entry_id (path id ext) = Some id.
Proof.
  intros Hid Hext. unfold entry_id. simpl. rewrite uuid_parse_text by done. simpl.
  rewrite String.eqb_refl. by destruct Hext as [->| ->].
Qed.

Lemma entry_id_ok d p e id : admissions_ok d → d.(admissions) !! p = Some e → entry_id p = Some id → uuid_ok id.
Proof.
  intros Hok Hpe Hid. destruct (Hok _ _ Hpe) as (id' & f & Hid' & _ & Hp).
  assert (entry_id p = Some id') as E by (destruct Hp as [->|[-> _]]; apply entry_id_path; auto). congruence.
Qed.

(** [list_admissions] collects the identifiers of the entries. *)
Lemma list_admissions_wp entries : ∀ s,
  (∀ p e, (p, e) ∈ entries → ∃ id f, uuid_ok id ∧ e = RegularFile f ∧ (p = path id "json" ∨ p = path id "slot")) →
  wp (list_admissions entries)
    (λ _ s', evolved s s' ∧ s'.(disk) = s.(disk) ∧
       (∀ id, id ∈ s'.(mem).(w_admissions).(ids) ↔
          id ∈ s.(mem).(w_admissions).(ids) ∨ ∃ p e, (p, e) ∈ entries ∧ entry_id p = Some id))
    (λ _ s', halted s s') (λ s', halted s s') s.
Proof.
  induction entries as [|[p e] entries IH]; intros [d fs m] Hall; cbn [list_admissions].
  - io_step. split_and!; [apply evolved_refl|done|]. intros id. split; [by left|]. intros [?|(p & e & Hin & _)]; [done|].
    by apply elem_of_nil in Hin.
  - destruct (Hall p e) as (id & f & Hid & -> & Hp); [by left|].
    assert (He : entry_id p = Some id) by (destruct Hp as [->| ->]; apply entry_id_path; auto).
    io_step. io_step; [|split; split; done]. rewrite He. io_step.
    io_step; [|split; split; try done; unfold calm; simpl; tauto].
    unfold modify. io_step. io_step. io_step. io_step.
    eapply wp_mono; [apply IH; intros p' e' Hin; apply Hall; by right|..]; cbn beta.
    + intros _ [d' fs' m'] ((Hd & [a Ha] & Hc) & Hd' & Hids). unfold calm in Hc. cbn [disk mem faults] in *. subst d'.
      split_and!; [apply evolved_intro; [done| |tauto]|done|].
      * exists a. by rewrite Ha.
      * intros id'. rewrite Hids. simpl. rewrite elem_of_union, elem_of_singleton. split.
        -- intros [[->|?]|(p' & e' & Hin & Hx)]; [|by left|].
           ++ right. exists p, (RegularFile f). split; [by left|done].
           ++ right. exists p', e'. split; [by right|done].
        -- intros [?|(p' & e' & Hin & Hx)]; [by left; right|]. apply elem_of_cons in Hin as [[= -> ->]|Hin].
           ++ left. left. congruence.
           ++ right. by exists p', e'.
    + intros _ s' [Hn Hd]. split; [unfold calm in *; simpl in *; tauto|done].
    + intros s' [Hn Hd]. split; [unfold calm in *; simpl in *; tauto|done].
Qed.

Definition known_ids (s : Sys Spool) : gset uuid := s.(mem).(w_admissions).(ids).

(** What recovery found: some of the requests [l], whose slots hold their event
    and which are still reserved; all of them if no call failed. *)
Definition recovered_from (l : list uuid) (s s' : Sys Spool) (evs : list (RequestLogEvent D T)) : Prop :=
  ∃ l', evs = terminal <$> l' ∧ sublist l' l ∧
    (∀ id, id ∈ l' → id ∈ known_ids s' ∧ slot_holds s'.(disk) id) ∧
    (∀ id, id ∈ known_ids s → id ∉ l → id ∈ known_ids s') ∧
    (calm s → ∀ id, id ∈ l → slot_holds s.(disk) id → id ∈ l').

Lemma evolved_slot s s' id : evolved s s' → admissions_ok s.(disk) → uuid_ok id →
  slot_holds s.(disk) id → slot_holds s'.(disk) id.
Proof. intros ([_ He] & _) Hok Hid Hs. destruct (He Hok) as [_ Hm]. auto. Qed.

Lemma recover_all_wp l : ∀ s, admissions_ok s.(disk) → Forall uuid_ok l → NoDup l →
  (∀ id, id ∈ l → id ∈ known_ids s) →
  wp (recover_all l) (λ evs s', evolved s s' ∧ recovered_from l s s' evs) (λ _ s', halted s s') (λ s', halted s s') s.
Proof.
  induction l as [|id l IH]; intros s Hok Hids Hnd Hin; cbn [recover_all].
  { apply wp_ret. split; [apply evolved_refl|]. exists []. split_and!; [done|done|set_solver|done|set_solver]. }
  apply Forall_cons in Hids as [Hid Hids]. apply NoDup_cons in Hnd as [Hni Hnd].
  apply wp_bind. eapply wp_mono; [by apply read_terminal_wp|..]; cbn beta.
  2: { intros _ s' [Hn E]. split; [done|]. by rewrite E. }
  2: { intros s' [Hn E]. split; [done|]. by rewrite E. }
  intros o s1 ((E1 & Em1 & Hc1) & Hk).
  assert (He1 : evolved s s1) by (split_and!; [by rewrite E1|rewrite Em1; eauto|done]).
  assert (Hk1 : known_ids s1 = known_ids s) by (unfold known_ids; by rewrite Em1).
  destruct o as [e|].
  - destruct Hk as [-> Hs]. apply wp_bind. eapply wp_mono; [apply IH; [by rewrite E1|done|done|]|..]; cbn beta.
    + intros id' Hid'. rewrite Hk1. apply Hin. by right.
    + intros evs s2 [He2 (l' & -> & Hsub & Hl' & Hkeep & Hall)]. apply wp_ret.
      split; [by eapply evolved_trans|]. exists (id :: l'). split_and!; [done|by constructor| | |].
      * intros id' [->|Hid']%elem_of_cons; [|by apply Hl']. split.
        -- apply Hkeep; [|done]. rewrite Hk1. apply Hin. by left.
        -- eapply evolved_slot; [exact He2|by rewrite E1|done|by rewrite E1].
      * intros id' Hid' Hn. apply Hkeep; [by rewrite Hk1|]. intros ?. apply Hn. by right.
      * intros Hc id' [->|Hid']%elem_of_cons Hx; [by left|]. right. apply Hall; [by apply Hc1|done|by rewrite E1].
    + intros _ s2. by apply halted_from.
    + intros s2. by apply halted_from.
  - apply wp_bind. eapply wp_mono; [apply retain_unknown_wp; [by rewrite E1|done]|..]; cbn beta.
    2: { intros _ s2. by apply halted_from. }
    2: { intros s2. by apply halted_from. }
    intros _ s2 [He2 Hi2]. pose proof (evolved_trans _ _ _ He1 He2) as He12. unfold modify.
    io_step. io_step. apply wp_get_mem, wp_put_mem. intros s3 (E3 & Em3 & Hc3).
    assert (He3 : evolved s2 s3) by (split_and!; [by rewrite E3|rewrite Em3; by eexists|done]).
    pose proof (evolved_trans _ _ _ He12 He3) as He13.
    assert (Hk3 : known_ids s3 = known_ids s ∖ {[id]}).
    { unfold known_ids in *. rewrite Em3. simpl. unfold same_ids in Hi2. rewrite Hi2. by rewrite Hk1. }
    eapply wp_mono; [apply IH; [by eapply evolved_ok|done|done|]|..]; cbn beta.
    + intros id' Hid'. rewrite Hk3. apply elem_of_difference. split; [apply Hin; by right|set_solver].
    + intros evs s4 [He4 (l' & -> & Hsub & Hl' & Hkeep & Hall)].
      split; [by eapply evolved_trans|]. exists l'. split_and!; [done|by constructor|done| |].
      * intros id' Hid' Hn. apply Hkeep; [rewrite Hk3; set_solver|set_solver].
      * intros Hc id' [->|Hid']%elem_of_cons Hx; [by destruct (Hk Hc)|].
        apply Hall; [by apply He13|done|]. eapply evolved_slot; [exact He13|done| |done].
        by eapply Forall_forall in Hids.
    + intros _ s4. by apply halted_from.
    + intros s4. by apply halted_from.
Qed.

(** A step that changes neither the directory nor the known identifiers. *)
Definition quiet (s s' : Sys Spool) : Prop :=
  evolved s s' ∧ s'.(disk).(admissions) = s.(disk).(admissions) ∧ same_ids s s'.

Lemma quiet_refl s : quiet s s.
Proof. split_and!; [apply evolved_refl|done|done]. Qed.
Lemma quiet_call {A} effect (k : unit → IO Spool SpoolError A) Q s s1 :
  (∀ d, same_log d (effect d)) → (∀ d, (effect d).(admissions) = d.(admissions)) → quiet s s1 →
  (∀ s', quiet s s' → wp (k tt) Q (λ _ s', halted s s') (λ s', halted s s') s') →
  wp (io_bind (call Io effect) k) Q (λ _ s', halted s s') (λ s', halted s s') s1.
Proof.
  intros Hlog Hadm (He & Ea & Hi) Hk. destruct s1 as [d fs m].
  assert (Hev : ∀ d, evolves d (effect d)).
  { intros d0. split; [apply Hlog|]. unfold admissions_ok, slot_holds. rewrite Hadm. done. }
  io_step. io_step.
  - apply Hk. split_and!; [eapply evolved_trans; [exact He|]; evolve; apply Hev|cbn [disk]; by rewrite Hadm|done].
  - split; (eapply halted_from; [exact He|]; split; done).
Qed.

(** The listing knows exactly the requests that have an entry. *)
Lemma list_directory_wp s : admissions_ok s.(disk) →
  wp list_directory
    (λ l s', evolved s s' ∧ NoDup l ∧ (∀ id, id ∈ l → id ∈ known_ids s') ∧
       (∀ id, id ∈ l ↔ ∃ p e, s.(disk).(admissions) !! p = Some e ∧ entry_id p = Some id))
    (λ _ s', halted s s') (λ s', halted s s') s.
Proof.
  intros Hok. unfold list_directory, plain, sync_directory.
  apply (quiet_call _ _ _ s); [done|done|apply quiet_refl|]. intros s1 Hq.
  apply (quiet_call _ _ _ s); [done|done|done|]. clear s1 Hq. intros s1 Hq.
  apply (quiet_call _ _ _ s); [done|done|done|]. clear s1 Hq. intros s1 Hq.
  apply (quiet_call _ _ _ s); [done|done|done|]. clear s1 Hq. intros s1 (He1 & Ea1 & _).
  unfold modify. do 2 io_step. apply wp_get_mem, wp_put_mem. intros s2 (E2 & Em2 & Hc2).
  assert (He2 : evolved s s2).
  { eapply evolved_trans; [exact He1|]. split_and!; [by rewrite E2|rewrite Em2; by eexists|done]. }
  io_step. apply (wp_call _ id); [|intros Hn s3 (E3 & _); split; (eapply halted_from; [exact He2|split; [done|by rewrite E3]])].
  intros s3 (E3 & Em3 & Hc3). unfold id in E3.
  assert (He3 : evolved s s3).
  { eapply evolved_trans; [exact He2|]. split_and!; [by rewrite E3|rewrite Em3; eauto|done]. }
  assert (Ea3 : s3.(disk).(admissions) = s.(disk).(admissions)) by by rewrite E3, E2.
  io_step. apply wp_get_disk. rewrite Ea3. io_step. eapply wp_mono; [apply list_admissions_wp|..]; cbn beta;
    [|intros [] s4 (He4 & E4 & Hids)|intros _ s4 Hs4; by eapply halted_from|intros s4 Hs4; by eapply halted_from].
  { intros p e Hpe%elem_of_map_to_list. destruct (Hok _ _ Hpe) as (id & f & Hid & -> & [->|[-> _]]); eauto 6. }
  io_step. apply wp_get_mem. io_step. split_and!; [by eapply evolved_trans| | |].
  - rewrite merge_sort_Permutation. apply NoDup_elements.
  - intros id. rewrite merge_sort_Permutation. unfold known_ids. by rewrite elem_of_elements.
  - intros id. rewrite merge_sort_Permutation, elem_of_elements, Hids, Em3, Em2. simpl.
    setoid_rewrite elem_of_map_to_list. set_solver.
Qed.

Lemma admission_open_wp s : admissions_ok s.(disk) →
  wp admission_open
    (λ evs s', evolved s s' ∧ ∃ l', evs = terminal <$> l' ∧ NoDup l' ∧
       (∀ id, id ∈ l' → uuid_ok id ∧ id ∈ known_ids s' ∧ slot_holds s'.(disk) id) ∧
       (∀ id, id ∈ l' → ∃ p e, s.(disk).(admissions) !! p = Some e ∧ entry_id p = Some id) ∧
       (calm s → ∀ id, uuid_ok id → slot_holds s.(disk) id → id ∈ l'))
    (λ _ s', halted s s') (λ s', halted s s') s.
Proof.
  intros Hok. unfold admission_open. apply wp_bind. eapply wp_mono; [by apply list_directory_wp|..]; cbn beta; [|done|done].
  intros l s1 (He1 & Hnd & Hin & Hl). eapply wp_mono; [apply recover_all_wp; [by eapply evolved_ok| |done|done]|..]; cbn beta.
  - apply Forall_forall. intros id (p & e & Hpe & Hid)%Hl. by eapply entry_id_ok.
  - intros evs s2 [He2 (l' & -> & Hsub & Hl' & _ & Hall)]. split; [by eapply evolved_trans|].
    assert (Hsub' : ∀ id, id ∈ l' → ∃ p e, s.(disk).(admissions) !! p = Some e ∧ entry_id p = Some id).
    { intros id Hid. apply Hl. by eapply elem_of_sublist. }
    exists l'. split_and!; [done|by eapply sublist_NoDup| |done|].
    + intros id Hid. split; [|by apply Hl']. destruct (Hsub' id Hid) as (p & e & Hpe & Hx). by eapply entry_id_ok.
    + intros Hc id Hid Hx. apply Hall; [by apply He1| |by eapply evolved_slot]. apply Hl.
      destruct Hx as (f & Hf & _). exists (path id "slot"), (RegularFile f). split; [done|]. apply entry_id_path; auto.
  - intros _ s2 Hs2. by eapply halted_from.
  - intros s2 Hs2. by eapply halted_from.
Qed.
End slots.
