(* ===== verification/Recovery.v ===== *)
(** * Crash recovery of the spool

    The invariant of the disk of [Spool] between any two file-system calls,
    whatever calls fail and wherever the process dies: whole frames followed by
    at most one torn frame, a checkpoint on a frame boundary before which every
    record is in the database, and every acknowledged event in the database, in
    a frame after the checkpoint, or in its slot.  Each operation of the spool
    preserves it, and keeps its volatile state in step with the disk. *)

From S2P Require Import Prelude Text Decimal Domain Billing Cost Json Journal Disk Spool Frames Slots.

(** What the spool owes for an acknowledged request: that its event is kept
    somewhere, or that it is in the log (or already accepted). *)
Inductive Promise := Kept (id : uuid) | Logged (id : uuid).
Definition promised (x : Promise) : uuid := match x with Kept id | Logged id => id end.

Section recovery.
Context {D T : Type} `{EventSerdeLaws D T} `{SpoolDepsLaws T}.
(** The terminal event of each request: a request ends once. *)
Context (terminal : uuid → RequestLogEvent D T) (terminal_id : ∀ id, (terminal id).(ev_id) = id).
(** The requests whose terminal event is ever appended. *)
Context (submitted : uuid → Prop).
(** The records that the database has accepted and the acknowledged requests. *)
Implicit Types (r : EncodedRequestLog) (F db : list EncodedRequestLog) (d : Disk) (m : Spool) (acked : list Promise).

(** ** The invariant of the disk *)

(** A record that [append] wrote. *)
Definition genuine r : Prop :=
  ∃ id, uuid_ok id ∧ encode (terminal id) = Ok r ∧ Z.of_nat (length r.(payload)) ≤ MAX_PAYLOAD_BYTES ∧ submitted id.

Definition checkpoint_value d : option Z :=
  match d.(checkpoint_file) with
  | None => Some 0
  | Some bytes => if (length bytes =? 8)%nat then Some (from_le bytes) else None
  end.

(** The event is accepted, pending in a frame, or (if that is enough) in its slot. *)
Definition covered db F (k : nat) d (x : Promise) : Prop :=
  (∃ r, encode (terminal (promised x)) = Ok r ∧ (r ∈ db ∨ r ∈ drop k F)) ∨
  (x = Kept (promised x) ∧ slot_holds terminal submitted d (promised x)).

Record log_ok db acked F (k : nat) (torn : list Z) d : Prop := {
  lo_events : d.(events) = image F ++ torn;
  lo_torn : torn_ok torn;
  lo_frames : Forall genuine F;
  lo_size : Z.of_nat (length d.(events)) ≤ max_file_size;
  lo_checkpoint : checkpoint_value d = Some (boundary F k);
  lo_k : (k ≤ length F)%nat;
  lo_db : ∀ r, r ∈ take k F → r ∈ db;
  lo_admissions : admissions_ok terminal submitted d;
  lo_covered : ∀ x, x ∈ acked → uuid_ok (promised x) ∧ covered db F k d x;
}.
Definition disk_ok db acked d : Prop := ∃ F k torn, log_ok db acked F k torn d.

Lemma genuine_ok r : genuine r → frame_ok r.
Proof.
  intros (id & Hid & He & Hlen & _). destruct (encode_Ok _ _ He) as (Hr & Hv & _).
  split; [done|]. split.
  - rewrite Hv. unfold REQUEST_LOG_SCHEMA_VERSION. lia.
  - by rewrite Hr, terminal_id.
Qed.
Lemma genuine_frames F : Forall genuine F → Forall frame_ok F.
Proof. intros HF. eapply Forall_impl; [exact HF|]. apply genuine_ok. Qed.

(** *** Changes of the disk that keep it *)

Lemma log_ok_evolves db acked F k torn d d' :
  evolves terminal submitted d d' → log_ok db acked F k torn d → log_ok db acked F k torn d'.
Proof.
  intros [(Ee & Ec & _) Hev] [He Ht Hf Hs Hc Hk Hdb Ha Hcov]. destruct (Hev Ha) as [Ha' Hm].
  split; [by rewrite Ee|done|done|by rewrite Ee| |done|done|done|].
  - unfold checkpoint_value in *. by rewrite Ec.
  - intros x Hx. destruct (Hcov x Hx) as [Hok [Hr|[Ex Hsl]]]; (split; [done|]); [by left|right; auto].
Qed.

(** A disk that differs only in what the invariant does not mention. *)
Lemma log_ok_same db acked F k torn d d' :
  d'.(events) = d.(events) → d'.(checkpoint_file) = d.(checkpoint_file) → d'.(admissions) = d.(admissions) →
  log_ok db acked F k torn d → log_ok db acked F k torn d'.
Proof.
  intros Ee Ec Ea [He Ht Hf Hs Hc Hk Hdb Ha Hcov]. split; try done.
  - by rewrite Ee.
  - by rewrite Ee.
  - unfold checkpoint_value in *. by rewrite Ec.
  - unfold admissions_ok in *. by rewrite Ea.
  - intros id Hid. destruct (Hcov id Hid) as [Hok Hc']. split; [done|]. unfold covered, slot_holds in *. by rewrite Ea.
Qed.

(** Repair drops the torn frame. *)
Lemma log_ok_repaired db acked F k torn d d' :
  events_are (image F) d d' → log_ok db acked F k torn d → log_ok db acked F k [] d'.
Proof.
  intros [n ->] [He Ht Hf Hs Hc Hk Hdb Ha Hcov].
  split; simpl; [by rewrite app_nil_r|apply torn_nil|done| |done..].
  rewrite He, length_app in Hs. lia.
Qed.

(** What a write of a frame leaves, complete or not. *)
Lemma log_ok_write db acked F k d r n :
  log_ok db acked F k [] d → genuine r →
  Z.of_nat (length d.(events) + length (encode_frame r)) ≤ max_file_size →
  let d' := with_events (d.(events) ++ take n (encode_frame r)) d.(events_synced) d in
  (log_ok db acked F k (take n (encode_frame r)) d' ∧ (n < length (encode_frame r))%nat) ∨
  (log_ok db acked (F ++ [r]) k [] d' ∧ (length (encode_frame r) ≤ n)%nat).
Proof.
  intros [He Ht Hf Hs Hc Hk Hdb Ha Hcov] Hr Hsize d'. rewrite app_nil_r in He.
  destruct (decide (n < length (encode_frame r))%nat) as [Hlt|Hge]; [left|right]; (split; [|lia]); split; simpl; try done.
  - by rewrite He.
  - exists r. split_and!; [by apply genuine_ok|apply prefix_take|rewrite length_take; lia].
  - rewrite length_app, length_take in *. lia.
  - rewrite app_nil_r, image_snoc, He, take_ge; [done|lia].
  - apply Forall_app. split; [done|]. by constructor.
  - rewrite length_app, length_take in *. lia.
  - etrans; [exact Hc|]. unfold boundary. by rewrite take_app_le.
  - rewrite length_app. simpl. lia.
  - intros r' Hr'. rewrite take_app_le in Hr' by done. auto.
  - intros id Hid. destruct (Hcov id Hid) as [Hok [(r' & He' & Hin)|Hsl]]; (split; [done|]); [left|by right].
    exists r'. split; [done|]. destruct Hin as [|Hin]; [by left|right]. rewrite drop_app_le by done.
    apply elem_of_app. by left.
Qed.

(** A new checkpoint on a boundary below which everything is accepted. *)
Lemma log_ok_checkpoint db acked F k torn d j history temp :
  log_ok db acked F k torn d → (j ≤ length F)%nat → (∀ r, r ∈ take j F → r ∈ db) →
  log_ok db acked F j torn (with_checkpoint (Some (le_bytes 8 (boundary F j))) temp history d).
Proof.
  intros [He Ht Hf Hs Hc Hk Hdb Ha Hcov] Hj Hdbj. split; try done.
  - unfold checkpoint_value. cbn [checkpoint_file with_checkpoint]. rewrite le_bytes_length by lia. change (Z.to_nat 8) with 8%nat. cbn [Nat.eqb].
    rewrite from_le_le_bytes; [done|lia|]. pose proof (image_length_take F j). unfold boundary.
    rewrite He, length_app in Hs. unfold max_file_size, i64_max in Hs. lia.
  - intros id Hid. destruct (Hcov id Hid) as [Hok [(r' & He' & Hin)|Hsl]]; (split; [done|]); [left|by right].
    exists r'. split; [done|]. destruct Hin as [|Hin]; [by left|].
    assert (r' ∈ F) as Hr' by (rewrite <- (take_drop k F); apply elem_of_app; by right).
    rewrite <- (take_drop j F) in Hr'. apply elem_of_app in Hr' as [Hr'|Hr']; [left; auto|by right].
Qed.

(** Truncating a log whose records are all accepted. *)
Lemma log_ok_truncate db acked F torn d n :
  log_ok db acked F 0 torn d → (∀ r, r ∈ F → r ∈ db) → log_ok db acked [] 0 [] (with_events [] n d).
Proof.
  intros [He Ht Hf Hs Hc Hk Hdb Ha Hcov] Hall. split; simpl; try done.
  - apply torn_nil.
  - intros id Hid. destruct (Hcov id Hid) as [Hok [(r' & He' & Hin)|Hsl]]; (split; [done|]); [left|by right].
    exists r'. split; [done|]. left. destruct Hin as [|Hin]; [done|]. by apply Hall.
Qed.

(** Retiring the slot of an event that is in a frame. *)
Lemma log_ok_retire db acked F k torn d id r :
  log_ok db acked F k torn d → uuid_ok id → encode (terminal id) = Ok r → r ∈ drop k F →
  log_ok db acked F k torn (with_admissions (delete (path id "slot") d.(admissions)) d).
Proof.
  intros [He Ht Hf Hs Hc Hk Hdb Ha Hcov] Hid Her Hin. split; try done.
  - by apply remove_slot_ok.
  - intros x Hx. destruct (Hcov x Hx) as [Hok Hcv]. split; [done|].
    destruct (decide (promised x = id)) as [E|Hne]; [left; exists r; rewrite E; auto|].
    destruct Hcv as [Hr|[Ex Hsl]]; [by left|right]. split; [done|]. by apply remove_slot_holds.
Qed.

Lemma log_ok_ack db acked F k torn d x :
  log_ok db acked F k torn d → uuid_ok (promised x) → covered db F k d x → log_ok db (x :: acked) F k torn d.
Proof.
  intros [He Ht Hf Hs Hc Hk Hdb Ha Hcov] Hid Hc'. split; try done.
  intros y [->|Hy]%elem_of_cons; [done|auto].
Qed.
Lemma log_ok_db db db' acked F k torn d :
  (∀ r, r ∈ db → r ∈ db') → log_ok db acked F k torn d → log_ok db' acked F k torn d.
Proof.
  intros Hsub [He Ht Hf Hs Hc Hk Hdb Ha Hcov]. split; try done; [by auto|].
  intros id Hid. destruct (Hcov id Hid) as [Hok [(r' & He' & Hin)|Hsl]]; (split; [done|]); [left|by right].
  exists r'. split; [done|]. destruct Hin as [|Hin]; [left; auto|by right].
Qed.

(** ** The invariant of the volatile state *)

(** [F'] are the published frames.  A failed spool may lag behind its disk, or
    have drained it: then nothing is left to read. *)
Definition mem_ok F (k : nat) (torn : list Z) m : Prop :=
  (∃ F', F' `prefix_of` F ∧ (k ≤ length F')%nat ∧ m.(end_offset) = Z.of_nat (length (image F')) ∧
     m.(checkpoint_offset) = boundary F k ∧
     (m.(w_failed) = false → F' = F ∧ torn = [] ∧ m.(w_end_offset) = m.(end_offset))) ∨
  (m.(w_failed) = true ∧ m.(checkpoint_offset) = m.(end_offset)).
Definition live db acked (s : Sys Spool) : Prop :=
  ∃ F k torn, log_ok db acked F k torn s.(disk) ∧ mem_ok F k torn s.(mem).

Lemma live_disk_ok db acked s : live db acked s → disk_ok db acked s.(disk).
Proof. intros (F & k & torn & Hl & _). by exists F, k, torn. Qed.

(** Before anything failed. *)
Lemma mem_ok_running F k torn m : mem_ok F k torn m → m.(w_failed) = false →
  torn = [] ∧ m.(w_end_offset) = m.(end_offset) ∧ m.(end_offset) = Z.of_nat (length (image F)) ∧
  m.(checkpoint_offset) = boundary F k.
Proof.
  intros [(F' & _ & _ & He & Hc & Hf)|[Hf _]] Hr; [|congruence]. destruct (Hf Hr) as (-> & -> & Hw). done.
Qed.
Lemma mem_ok_latch F k torn m : mem_ok F k torn m → mem_ok F k torn (latch_failed m).
Proof. intros [(F' & Hp & Hk & He & Hc & _)|[_ Hc]]; [left|by right]. exists F'. split_and!; done. Qed.
Lemma mem_ok_admissions F k torn m a : mem_ok F k torn m → mem_ok F k torn (set_admissions a m).
Proof. done. Qed.

Lemma evolved_live db acked s s' : evolved terminal submitted s s' → live db acked s → live db acked s'.
Proof.
  intros (He & [a Ha] & _) (F & k & torn & Hl & Hm). exists F, k, torn.
  split; [by eapply log_ok_evolves|by rewrite Ha].
Qed.
Lemma evolves_disk_ok db acked d d' : evolves terminal submitted d d' → disk_ok db acked d → disk_ok db acked d'.
Proof. intros He (F & k & torn & Hl). exists F, k, torn. by eapply log_ok_evolves. Qed.
Lemma live_latch db acked s s' : live db acked s → s'.(disk) = s.(disk) → s'.(mem) = latch_failed s.(mem) →
  live db acked s'.
Proof. intros (F & k & torn & Hl & Hm) E1 E2. exists F, k, torn. rewrite E1, E2. split; [done|by apply mem_ok_latch]. Qed.

(** ** Operations *)

Lemma admit_wp db acked i s : live db acked s → uuid_ok i.(in_id) →
  wp (spool_admit i) (λ _ s', live db acked s') (λ _ s', live db acked s') (λ s', disk_ok db acked s'.(disk)) s.
Proof.
  intros Hlive Hid. pose proof (live_disk_ok _ _ _ Hlive) as Hdisk. destruct s as [d fs m]. unfold spool_admit.
  io_step. io_step. destruct (w_failed m); [io_step; done|].
  assert (Hend : ∀ (refused : bool) fs', live db acked {| disk := d; faults := fs'; mem := m |} →
    wp (if refused then modify (set_pressure true) ;~ throw Capacity else on_error (reserve i) latch_failed)%gw
      (λ _ s', live db acked s') (λ _ s', live db acked s') (λ s', disk_ok db acked s'.(disk))
      {| disk := d; faults := fs'; mem := m |}).
  { intros refused fs' Hl. destruct refused.
    - unfold modify. io_step. io_step. io_step. io_step. io_step. destruct Hl as (F & k & torn & Hl & Hm).
      exists F, k, torn. done.
    - io_step. eapply wp_mono; [by apply (reserve_wp terminal submitted)|..]; cbn beta.
      + intros _ s' Hs'. by eapply evolved_live.
      + intros _ s' Hs' s'' E1 E2 E3. eapply live_latch; [|done|done]. by eapply evolved_live.
      + intros s' Hs'. by eapply evolves_disk_ok. }
  io_step. destruct (max_bytes m <? _); [io_step; by apply (Hend true)|].
  io_step. io_step; [io_step; by apply Hend|done].
Qed.

Lemma persist_checkpoint_wp db acked F k torn j sync s :
  log_ok db acked F k torn s.(disk) → (j ≤ length F)%nat → (∀ r, r ∈ take j F → r ∈ db) →
  wp (persist_checkpoint (boundary F j) sync)
    (λ _ s', log_ok db acked F j torn s'.(disk) ∧ s'.(mem) = s.(mem) ∧ (calm s → calm s'))
    (λ _ s', ¬ calm s ∧ log_ok db acked F k torn s'.(disk) ∧ s'.(mem) = s.(mem))
    (λ s', ¬ calm s ∧ log_ok db acked F k torn s'.(disk)) s.
Proof.
  intros Hl Hj Hdb. destruct s as [d fs m]. cbn [disk] in Hl. unfold persist_checkpoint, create_temp, write_temp, rename_temp, calm.
  cbn [disk faults mem]. io_step. io_step; [|split; split_and?; done].
  assert (∀ t h, log_ok db acked F k torn (with_checkpoint d.(checkpoint_file) t h d)) as Hkeep
    by (intros; by apply (log_ok_same _ _ _ _ _ d)).
  io_step. io_step; [|cbn; split; split_and?; try tauto; apply Hkeep].
  cbn [checkpoint_temp checkpoint_file checkpoint_history with_checkpoint default option_map app].
  io_step. io_step; [|split; split_and?; try tauto; by apply (log_ok_same _ _ _ _ _ d)].
  destruct sync; [io_step; io_step; [|split; split_and?; try tauto; by apply (log_ok_same _ _ _ _ _ d)]|io_step; io_step].
  all: io_step; [|split; split_and?; try tauto; by apply (log_ok_same _ _ _ _ _ d)].
  all: split_and!; [|done|tauto]; cbn [checkpoint_temp with_checkpoint]; (apply (log_ok_checkpoint db acked F k torn); [by apply (log_ok_same _ _ _ _ _ d)|done|done]).
Qed.

(** Slots of other requests survive. *)
Definition keeps_slots (id : uuid) d d' : Prop :=
  ∀ id', uuid_ok id' → id' ≠ id → slot_holds terminal submitted d id' → slot_holds terminal submitted d' id'.

Lemma retire_wp db acked F k torn id r s :
  log_ok db acked F k torn s.(disk) → uuid_ok id → encode (terminal id) = Ok r → r ∈ drop k F →
  wp (retire id)
    (λ _ s', log_ok db acked F k torn s'.(disk) ∧ s'.(mem) = set_ids (λ l, l ∖ {[ id ]}) s.(mem) ∧
       keeps_slots id s.(disk) s'.(disk) ∧ s'.(disk).(events) = s.(disk).(events) ∧ (calm s → calm s'))
    (λ _ s', ¬ calm s ∧ log_ok db acked F k torn s'.(disk) ∧ s'.(mem) = s.(mem))
    (λ s', ¬ calm s ∧ log_ok db acked F k torn s'.(disk)) s.
Proof.
  intros Hl Hid He Hr. destruct s as [d fs m]. cbn [disk] in Hl. unfold retire, remove_file, calm. cbn [disk faults mem].
  pose proof (lo_admissions _ _ _ _ _ _ Hl) as Hok.
  assert (Hno : ∀ p, d.(admissions) !! p ≠ Some OtherEntry)
    by (intros p Hp; by destruct (Hok _ _ Hp) as (? & ? & _ & ? & _)).
  set (d1 := with_admissions (delete (path id "json") d.(admissions)) d).
  pose proof (evolves_remove_json terminal submitted d id) as Hev. fold d1 in Hev.
  pose proof (log_ok_evolves _ _ _ _ _ _ _ Hev Hl) as Hl1.
  pose proof (log_ok_retire _ _ _ _ _ _ _ _ Hl1 Hid He Hr) as Hl2.
  set (d2 := with_admissions (delete (path id "slot") d1.(admissions)) d1) in *.
  assert (Hkeep : keeps_slots id d d2).
  { intros id' Hid' Hne Hx. apply remove_slot_holds; try done. destruct Hev as [_ Hev]. destruct (Hev Hok) as [_ Hm]. auto. }
  io_step. io_step. io_step.
  destruct (admissions d !! path id "json") as [[f|]|] eqn:Ej; [|by apply Hno in Ej|].
  all: io_step; [|split; split_and?; done].
  all: change (with_admissions (delete (path id "json") (admissions d)) d) with d1.
  all: io_step; io_step; [|split; split_and?; try tauto; done].
  all: io_step; io_step; io_step.
  all: destruct (admissions d1 !! path id "slot") as [[f'|]|] eqn:Es;
    [|exfalso; simpl in Es; rewrite lookup_delete_ne in Es by done; by apply Hno in Es|].
  all: io_step; [|split; split_and?; try tauto; done].
  all: change (with_admissions (delete (path id "slot") (admissions d1)) d1) with d2.
  all: io_step; io_step; [|split; split_and?; try tauto; done].
  all: unfold modify; io_step; io_step; io_step; split_and!; try done; tauto.
Qed.

(** The state after the frame is written, before it is published. *)
Definition written_ok db acked F (k : nat) r (s : Sys Spool) : Prop :=
  log_ok db acked (F ++ [r]) k [] s.(disk) ∧ (k ≤ length F)%nat ∧
  s.(mem).(end_offset) = Z.of_nat (length (image F)) ∧ s.(mem).(checkpoint_offset) = boundary (F ++ [r]) k.

Lemma written_live db acked F k r s : written_ok db acked F k r s → s.(mem).(w_failed) = true → live db acked s.
Proof.
  intros (Hl & Hk & Hend & Hck) Hf. exists (F ++ [r]), k, []. split; [done|]. left. exists F.
  split_and!; try done; [by exists [r]|]. rewrite Hf. done.
Qed.
Lemma written_published db acked F k r s : written_ok db acked F k r s → s.(mem).(w_failed) = false →
  s.(mem).(w_end_offset) = Z.of_nat (length (image F)) + Z.of_nat (length (encode_frame r)) →
  mem_ok (F ++ [r]) k [] (set_end_offset s.(mem).(w_end_offset) s.(mem)).
Proof.
  intros (Hl & Hk & Hend & Hck) Hf Hw. left. exists (F ++ [r]). split_and!; try done.
  - rewrite length_app. lia.
  - simpl. rewrite Hw, image_snoc, length_app. lia.
Qed.

(** [publish_frame] after the write. *)
Lemma publish_rest_wp db acked F k id r (reserved : bool) s :
  written_ok db acked F k r s → s.(mem).(w_failed) = false → uuid_ok id → encode (terminal id) = Ok r →
  s.(mem).(w_end_offset) = Z.of_nat (length (image F)) + Z.of_nat (length (encode_frame r)) →
  wp ((if reserved then on_error (sync_events Io) latch_failed else io_ret tt) ;~
      modify (λ m, set_end_offset m.(w_end_offset) m) ;~
      (if reserved then on_error (retire (terminal id).(ev_id)) latch_failed else io_ret tt) ;~
      io_ret (Z.of_nat (length (encode_frame r))))%gw
    (λ _ s', live db (Logged id :: acked) s' ∧ s'.(mem).(w_failed) = false ∧ keeps_slots id s.(disk) s'.(disk) ∧
       known_ids s' = (if reserved then known_ids s ∖ {[ id ]} else known_ids s) ∧
       s'.(disk).(events) = s.(disk).(events) ∧ (calm s → calm s'))
    (λ _ s', ¬ calm s ∧ live db acked s') (λ s', ¬ calm s ∧ disk_ok db acked s'.(disk)) s.
Proof.
  intros Hwr Hf Hid He Hw. rewrite terminal_id. pose proof Hwr as (Hl0 & Hk0 & _).
  assert (Hin : r ∈ drop k (F ++ [r])).
  { rewrite drop_app_le by apply Hwr. apply elem_of_app. right. by left. }
  assert (Hack : ∀ d', log_ok db acked (F ++ [r]) k [] d' → log_ok db (Logged id :: acked) (F ++ [r]) k [] d').
  { intros d' Hd'. apply log_ok_ack; [done|done|]. left. exists r. auto. }
  pose proof (written_published _ _ _ _ _ _ Hwr Hf Hw) as Hm.
  destruct s as [d fs m]. cbn [disk mem] in *. destruct reserved.
  - unfold sync_events. io_step. io_step. io_step.
    2: { split; [intros [d' fs' m'] E1 E2 _; simpl in *; subst; split; [done|]; by eapply (written_live _ _ F k r)|].
         split; [done|]. by exists (F ++ [r]), k, []. }
    assert (Hl1 : log_ok db acked (F ++ [r]) k [] (with_events (events d) (length (events d)) d))
      by (apply (log_ok_same _ _ _ _ _ d); done).
    unfold modify. io_step. io_step. io_step. io_step. io_step. io_step.
    eapply wp_mono; [by eapply (retire_wp db acked (F ++ [r]) k [] id r)|..]; cbn beta.
    + intros _ [d' fs' m'] (Hl' & Em & Hk' & Ee & Hc'). unfold calm in Hc'. cbn [disk mem faults] in *. subst m'. io_step.
      split_and!; [|done|done|done|done|unfold calm; simpl; tauto]. eexists _, _, _. split; [by apply Hack|done].
    + intros _ [d' fs' m'] (Hn & Hl' & Em) [d2 fs2 m2] E1 E2 _. unfold calm in *. simpl in *. subst.
      split; [tauto|]. eexists _, _, _. split; [done|]. by apply mem_ok_latch.
    + intros s' [Hn Hl']. split; [unfold calm in *; simpl in *; tauto|]. by eexists _, _, _.
  - io_step. io_step. unfold modify. io_step. io_step. io_step. io_step. io_step. io_step. io_step.
    split_and!; [|done|by intros ?|done|done|unfold calm; simpl; tauto]. eexists _, _, _. split; [by apply Hack, Hwr|done].
Qed.

Lemma publish_frame_wp db acked F k id r reserved s :
  log_ok db acked F k [] s.(disk) → mem_ok F k [] s.(mem) → s.(mem).(w_failed) = false →
  uuid_ok id → submitted id → encode (terminal id) = Ok r → Z.of_nat (length r.(payload)) ≤ MAX_PAYLOAD_BYTES →
  wp (publish_frame (terminal id) reserved (encode_frame r))
    (λ _ s', live db (Logged id :: acked) s' ∧ s'.(mem).(w_failed) = false ∧ keeps_slots id s.(disk) s'.(disk) ∧
       known_ids s' = (if reserved then known_ids s ∖ {[ id ]} else known_ids s) ∧
       (length s'.(disk).(events) = length s.(disk).(events) + length (encode_frame r))%nat ∧ (calm s → calm s'))
    (λ _ s', live db acked s' ∧
       (calm s → max_file_size < Z.of_nat (length s.(disk).(events) + length (encode_frame r))))
    (λ s', ¬ calm s ∧ disk_ok db acked s'.(disk)) s.
Proof.
  intros Hl Hm Hrun Hid Hsub He Hlen. destruct s as [d fs m]. cbn [disk mem] in *.
  pose proof (mem_ok_running _ _ _ _ Hm Hrun) as (_ & Hw & Hend & Hck).
  assert (Hg : genuine r) by (exists id; done). unfold publish_frame, append_events.
  io_step. io_step. io_step. io_step.
  destruct (Z.leb_spec (Z.of_nat (length (events d) + length (encode_frame r))) max_file_size) as [Hroom|Hfull].
  2: { io_step. intros [d' fs' m'] E1 E2 _. simpl in *. subst. split; [|done].
       exists F, k, []. split; [done|by apply mem_ok_latch]. }
  pose proof (λ n, log_ok_write db acked F k d r n Hl Hg Hroom) as Hwrite.
  assert (Hck' : checkpoint_offset m = boundary (F ++ [r]) k)
    by (rewrite Hck; unfold boundary; by rewrite take_app_le by apply Hl).
  io_step.
  2: { split; [intros [d' fs' m'] E1 E2 _; simpl in *; subst; split; [|tauto]|split; [done|]];
       destruct (Hwrite n) as [[Hx Hn]|[Hx Hn]].
       - exists F, k, (take n (encode_frame r)). split; [done|]. left. exists F. split_and!; try done. apply Hl.
       - eapply (written_live _ _ F k r); [|done]. split_and!; try done. apply Hl.
       - by eexists _, _, _.
       - by eexists _, _, _. }
  destruct (Hwrite (length (encode_frame r))) as [[_ Hn]|[Hx _]]; [lia|]. rewrite firstn_all in Hx.
  io_step. io_step. io_step. rewrite Hw, Hend.
  assert (Z.of_nat (length (image F)) ≤ max_file_size).
  { pose proof (lo_size _ _ _ _ _ _ Hl) as Hs. rewrite (lo_events _ _ _ _ _ _ Hl), app_nil_r in Hs. done. }
  destruct (Z.leb_spec (Z.of_nat (length (image F)) + Z.of_nat (length (encode_frame r))) u64_max) as [_|Hbig].
  2: { rewrite encode_frame_length in Hbig. unfold FRAME_HEADER_BYTES, MAX_PAYLOAD_BYTES, max_file_size, u64_max, i64_max in *. lia. }
  unfold modify at 1. io_step. io_step. io_step. eapply wp_mono; [eapply (publish_rest_wp db acked F k id r reserved); try done|..]; cbn beta.
  - split_and!; try done. apply Hl.
  - intros _ s' (? & ? & ? & ? & Ee & ?). unfold calm in *. cbn [disk mem faults] in *. split_and!; try done; [|tauto].
    rewrite Ee. simpl. by rewrite length_app.
  - intros _ s' [Hn ?]. split; [done|]. unfold calm in *. simpl in *. tauto.
  - intros s' [Hn ?]. split; [|done]. unfold calm in *. simpl in *. tauto.
Qed.

(** A reserved request with its event in the slot, on a healthy spool with room. *)
Definition ready (s : Sys Spool) (id : uuid) : Prop :=
  calm s ∧ s.(mem).(w_failed) = false ∧ id ∈ known_ids s ∧ slot_holds terminal submitted s.(disk) id ∧
  Z.of_nat (length s.(disk).(events) + FRAME_HEADER_BYTES) + MAX_PAYLOAD_BYTES ≤ max_file_size.

Definition appended db acked id (s s' : Sys Spool) : Prop :=
  live db (Logged id :: acked) s' ∧ s'.(mem).(w_failed) = false ∧ keeps_slots id s.(disk) s'.(disk) ∧
  known_ids s' = known_ids s ∖ {[ id ]} ∧
  Z.of_nat (length s'.(disk).(events)) ≤
    Z.of_nat (length s.(disk).(events) + FRAME_HEADER_BYTES) + MAX_PAYLOAD_BYTES ∧
  (calm s → calm s').

Lemma evolves_keeps id d d' : evolves terminal submitted d d' → admissions_ok terminal submitted d → keeps_slots id d d'.
Proof. intros [_ He] Hok id' Hid' _ Hx. destruct (He Hok) as [_ Hm]. auto. Qed.

Lemma log_ok_weaken db acked acked' F k torn d : acked ⊆ acked' →
  log_ok db acked' F k torn d → log_ok db acked F k torn d.
Proof. intros Hsub [He Ht Hf Hs Hc Hk Hdb Ha Hcov]. split; try done. intros id Hid. apply Hcov. set_solver. Qed.
Lemma live_weaken db acked acked' s : acked ⊆ acked' → live db acked' s → live db acked s.
Proof. intros Hsub (F & k & torn & Hl & Hm). exists F, k, torn. split; [by eapply log_ok_weaken|done]. Qed.
Lemma disk_ok_weaken db acked acked' d : acked ⊆ acked' → disk_ok db acked' d → disk_ok db acked d.
Proof. intros Hsub (F & k & torn & Hl). exists F, k, torn. by eapply log_ok_weaken. Qed.

(** The part of [append] after the slot is saved. *)
Lemma append_rest_wp db acked id r (reserved : bool) s :
  live db acked s → uuid_ok id → submitted id → encode (terminal id) = Ok r → Z.of_nat (length r.(payload)) ≤ MAX_PAYLOAD_BYTES →
  (if reserved then id ∈ known_ids s else id ∉ known_ids s) →
  wp (m <~ get_mem;
      if m.(w_failed) then throw UnavailableAfterWriteFailure
      else if negb reserved
              && (m.(max_bytes) <? sat_add u64_max
                    (sat_add u64_max m.(w_end_offset) (reserved_bytes m.(w_admissions)))
                    (Z.of_nat (length (encode_frame r))))
      then throw Capacity
      else publish_frame (terminal id) reserved (encode_frame r))%gw
    (λ _ s', appended db acked id s s') (λ _ s', live db acked s' ∧ ¬ ready s id)
    (λ s', ¬ calm s ∧ disk_ok db acked s'.(disk)) s.
Proof.
  intros Hlive Hid Hsub He Hlen Hres. io_step. apply wp_get_mem.
  destruct (w_failed (mem s)) eqn:Hf; [io_step; split; [done|]; intros (_ & E & _); congruence|].
  destruct (negb reserved && _) eqn:Hcap.
  { io_step. split; [done|]. intros (_ & _ & Hin & _). by destruct reserved. }
  destruct Hlive as (F & k & torn & Hl & Hm). destruct (mem_ok_running _ _ _ _ Hm Hf) as (-> & _).
  eapply wp_mono; [by eapply (publish_frame_wp db acked F k id r reserved)|..]; cbn beta; [| |done].
  - intros _ s' (Hl' & Hf' & Hk & Hids & Hlen' & Hc). split_and!; try done.
    + rewrite Hids. destruct reserved; [done|]. set_solver.
    + rewrite encode_frame_length in Hlen'. lia.
  - intros _ s' [Hl' Hfull]. split; [done|]. intros (Hc & _ & _ & _ & Hroom). specialize (Hfull Hc).
    rewrite encode_frame_length in Hfull. lia.
Qed.

(** [append] of a reserved request once its slot is saved. *)
Lemma append_saved_wp db acked id r s s1 :
  live db acked s → uuid_ok id → submitted id → encode (terminal id) = Ok r → Z.of_nat (length r.(payload)) ≤ MAX_PAYLOAD_BYTES →
  id ∈ known_ids s → evolved terminal submitted s s1 → s1.(mem) = s.(mem) → slot_holds terminal submitted s1.(disk) id →
  wp (m <~ get_mem;
      if m.(w_failed) then throw UnavailableAfterWriteFailure
      else if negb true
              && (m.(max_bytes) <? sat_add u64_max
                    (sat_add u64_max m.(w_end_offset) (reserved_bytes m.(w_admissions)))
                    (Z.of_nat (length (encode_frame r))))
      then throw Capacity
      else publish_frame (terminal id) true (encode_frame r))%gw
    (λ _ s', appended db acked id s s')
    (λ e s', live db acked s' ∧ ¬ ready s id ∧
       (id ∈ known_ids s → e = UnavailableAfterWriteFailure → live db (Kept id :: acked) s'))
    (λ s', ¬ calm s ∧ disk_ok db acked s'.(disk)) s1.
Proof.
  intros Hlive Hid Hsub He Hlen Hin Hev Em Hs.
  assert (Hlive1 : live db (Kept id :: acked) s1).
  { pose proof (evolved_live _ _ _ _ Hev Hlive) as (F & k & torn & Hl & Hm). exists F, k, torn. split; [|done].
    apply log_ok_ack; [done|done|]. by right. }
  assert (Hok : admissions_ok terminal submitted (disk s)) by (destruct Hlive as (F & k & torn & Hl & _); apply Hl).
  assert (Hk1 : known_ids s1 = known_ids s) by (unfold known_ids; by rewrite Em).
  pose proof Hev as ([(Ee & _) Hev'] & _ & Hcalm). destruct (Hev' Hok) as [_ Hmono].
  eapply wp_mono; [apply (append_rest_wp db (Kept id :: acked) id r true); try done; by rewrite Hk1|..]; cbn beta.
  - intros _ s2 (Ha & Hb & Hc & Hd & Hx & Hy).
    split_and!; [eapply live_weaken; [|exact Ha]; set_solver|done| |by rewrite Hd, Hk1|by rewrite <- Ee|tauto].
    intros id' Hid' Hne Hsl. apply Hc; auto.
  - intros e s2 [Hl2 Hr]. split_and!; [eapply live_weaken; [|exact Hl2]; set_solver| |done].
    intros (Hc & Hf & _ & Hsl & Hroom). apply Hr. split_and!; [tauto|by rewrite Em|by rewrite Hk1|done|by rewrite Ee].
  - intros s2 [Hn Hd]. split; [tauto|]. eapply disk_ok_weaken; [|exact Hd]. set_solver.
Qed.

Lemma append_wp db acked id s : live db acked s → uuid_ok id → submitted id →
  wp (append (terminal id)) (λ _ s', appended db acked id s s')
    (λ e s', live db acked s' ∧ ¬ ready s id ∧
       (id ∈ known_ids s → e = UnavailableAfterWriteFailure → live db (Kept id :: acked) s'))
    (λ s', ¬ calm s ∧ disk_ok db acked s'.(disk)) s.
Proof.
  intros Hlive Hid Hsub. unfold append. io_step. rewrite terminal_id.
  unfold encoded. destruct (encode (terminal id)) as [r|e] eqn:He.
  2: { do 2 io_step. split_and!; [done| |done]. intros (_ & _ & _ & (f & _ & (r & _ & He' & _)) & _). congruence. }
  do 2 io_step. destruct (Z.ltb_spec MAX_PAYLOAD_BYTES (Z.of_nat (length (payload r)))) as [Hbig|Hlen]; io_step.
  { split_and!; [done| |done]. intros (_ & _ & _ & (f & _ & (r' & _ & He' & Hl' & _)) & _).
    rewrite He in He'. injection He' as <-. lia. }
  io_step. apply wp_get_mem. cbv zeta. unfold contains. io_step.
  destruct (bool_decide (id ∈ ids (w_admissions (mem s)))) eqn:Hin;
    [apply bool_decide_eq_true in Hin|apply bool_decide_eq_false in Hin].
  2: { io_step. eapply wp_mono; [by apply (append_rest_wp db acked id r false)|..]; cbn beta; [done| |done].
       intros e s' [Hl' Hr]. split_and!; done. }
  io_step. eapply wp_mono; [by apply (save_terminal_wp terminal submitted terminal_id)|..]; cbn beta.
  - intros _ s1 (Hev & Em & Hs). by apply append_saved_wp.
  - intros e s1 (Hev & Em & Hn & Hne) s2 E1 E2 _. assert (live db acked s2) by (eapply live_latch; [by eapply evolved_live|done|done]).
    split_and!; [done| |done]. intros (Hc & _ & _ & Hs & _). by apply (Hn Hc).
  - intros s1 [Hn Hev]. split; [done|]. eapply evolves_disk_ok; [done|by apply live_disk_ok].
Qed.

(** ** Startup *)

Definition frame_limit : Z := Z.of_nat FRAME_HEADER_BYTES + MAX_PAYLOAD_BYTES.

(** Every request of [l] is [ready], with room for all of them. *)
Definition all_ready (l : list uuid) (s : Sys Spool) : Prop :=
  calm s ∧ s.(mem).(w_failed) = false ∧
  (∀ id, id ∈ l → id ∈ known_ids s ∧ slot_holds terminal submitted s.(disk) id) ∧
  Z.of_nat (length s.(disk).(events)) + Z.of_nat (length l) * frame_limit ≤ max_file_size.

Lemma append_all_wp db l : ∀ acked s, live db acked s → Forall (λ id, uuid_ok id ∧ submitted id) l → NoDup l →
  wp (append_all (terminal <$> l))
    (λ _ s', live db ((Logged <$> l) ++ acked) s' ∧ (calm s → calm s') ∧
       (s.(mem).(w_failed) = false → s'.(mem).(w_failed) = false))
    (λ _ s', live db acked s' ∧ ¬ all_ready l s) (λ s', ¬ calm s ∧ disk_ok db acked s'.(disk)) s.
Proof.
  induction l as [|id l IH]; intros acked s Hlive Hok Hnd; [by apply wp_ret|].
  apply Forall_cons in Hok as [[Hid Hsub] Hok]. apply NoDup_cons in Hnd as [Hni Hnd]. rewrite !fmap_cons. cbn [append_all].
  apply wp_bind. eapply wp_mono; [by apply append_wp|..]; cbn beta; [| |done].
  - intros _ s1 (Hl1 & Hf1 & Hk1 & Hi1 & Hlen1 & Hc1).
    eapply wp_mono; [by apply (IH (Logged id :: acked))|..]; cbn beta.
    + intros _ s2 (Hl2 & Hc2 & Hf2). split_and!; [|tauto|tauto]. eapply live_weaken; [|exact Hl2]. set_solver.
    + intros _ s2 [Hl2 Hr]. split; [eapply live_weaken; [|exact Hl2]; set_solver|].
      intros (Hc & _ & Hin & Hroom). apply Hr. split_and!; [tauto|done| |].
      * intros id' Hid'. destruct (Hin id') as [Ha Hb]; [by right|]. assert (id' ≠ id) by (intros ->; done).
        split; [rewrite Hi1; set_solver|]. apply Hk1; try done. eapply Forall_forall in Hok; [|exact Hid']. apply Hok.
      * unfold frame_limit, FRAME_HEADER_BYTES, MAX_PAYLOAD_BYTES in *. simpl length in Hroom. lia.
    + intros s2 [Hn Hd]. split; [tauto|]. eapply disk_ok_weaken; [|exact Hd]. set_solver.
  - intros _ s1 (Hl1 & Hr & _). split; [done|]. intros (Hc & Hf & Hin & Hroom). apply Hr.
    destruct (Hin id) as [Ha Hb]; [by left|]. split_and!; try done.
    unfold frame_limit, FRAME_HEADER_BYTES, MAX_PAYLOAD_BYTES in *. simpl length in Hroom. lia.
Qed.

(** Requests with an entry are not more than the entries. *)
Lemma entries_bound d (l : list uuid) : NoDup l →
  (∀ id, id ∈ l → ∃ p e, d.(admissions) !! p = Some e ∧ entry_id p = Some id) → (length l ≤ size d.(admissions))%nat.
Proof.
  intros Hnd Hl. rewrite <- length_map_to_list, <- (length_fmap fst).
  assert (l ⊆+ omap entry_id (map_to_list d.(admissions)).*1) as Hsub.
  { apply NoDup_submseteq; [done|]. intros id (p & e & Hpe & Hid)%Hl. apply list_elem_of_omap. exists p. split; [|done].
    apply list_elem_of_fmap. exists (p, e). split; [done|]. by apply elem_of_map_to_list. }
  apply submseteq_length in Hsub. pose proof (omap_length entry_id (map_to_list d.(admissions)).*1). lia.
Qed.

(** Room for one frame of the largest size for every admission file. *)
Definition room d : Prop :=
  Z.of_nat (length d.(events)) + Z.of_nat (size d.(admissions)) * frame_limit ≤ max_file_size.

Lemma disk_ok_read_checkpoint db acked F k torn s : log_ok db acked F k torn s.(disk) →
  wp read_checkpoint (λ c s', c = boundary F k ∧ sys_after s s.(disk) s.(mem) s')
    (λ _ s', ¬ calm s ∧ s'.(disk) = s.(disk)) (λ s', ¬ calm s ∧ s'.(disk) = s.(disk)) s.
Proof.
  intros Hl. pose proof (lo_checkpoint _ _ _ _ _ _ Hl) as Hc. unfold checkpoint_value in Hc. unfold read_checkpoint.
  destruct s as [d fs m]. cbn [disk] in *. io_step. io_step; [|done]. io_step. io_step.
  destruct (checkpoint_file d) as [bytes|]; [|io_step; injection Hc as <-; done].
  destruct (length bytes =? 8)%nat; [|done]. simpl. io_step. injection Hc as <-. done.
Qed.

(** What [recover] hands to [append_all]. *)
Definition recovered_ok db acked (s s' : Sys Spool) (evs : list (RequestLogEvent D T)) : Prop :=
  live db acked s' ∧ (calm s → calm s') ∧ ∃ l, evs = terminal <$> l ∧ Forall (λ id, uuid_ok id ∧ submitted id) l ∧ NoDup l ∧
    (calm s → room s.(disk) → all_ready l s' ∧ ∀ id, uuid_ok id → slot_holds terminal submitted s.(disk) id → id ∈ l).

(** The last steps of [recover]. *)
Lemma recover_rest_wp db acked F k threshold max min_free s s0 :
  log_ok db acked F k [] s.(disk) →
  s.(disk).(admissions) = s0.(disk).(admissions) → (length s.(disk).(events) ≤ length s0.(disk).(events))%nat →
  (calm s0 → calm s) →
  wp (recovered <~ admission_open;
      sync_directory Io ;~
      modify (λ m, {| w_end_offset := Z.of_nat (length (image F)); w_failed := false;
                      w_admissions := m.(w_admissions); end_offset := Z.of_nat (length (image F));
                      checkpoint_offset := boundary F k; synced_offset := Z.of_nat (length (image F));
                      compaction_threshold_bytes := threshold; max_bytes := max;
                      min_free_bytes := min_free; capacity_pressure := false |}) ;~
      io_ret recovered)%gw
    (λ evs s', recovered_ok db acked s0 s' evs)
    (λ _ s', ¬ calm s0 ∧ disk_ok db acked s'.(disk)) (λ s', ¬ calm s0 ∧ disk_ok db acked s'.(disk)) s.
Proof.
  intros Hl Ea Hlen Hcalm0. assert (Hok : admissions_ok terminal submitted (disk s)) by apply Hl.
  assert (Hhalt : ∀ s', halted terminal submitted s s' → ¬ calm s0 ∧ disk_ok db acked s'.(disk)).
  { intros s' [Hn He]. split; [tauto|]. exists F, k, []. by eapply log_ok_evolves. }
  apply wp_bind. eapply wp_mono; [by apply (admission_open_wp terminal submitted terminal_id)|..]; cbn beta; [|by auto|by auto].
  intros evs s1 (He1 & l & -> & Hnd & Hl' & Hent & Hall).
  pose proof (log_ok_evolves _ _ _ _ _ _ _ (proj1 He1) Hl) as Hl1.
  assert (Ee1 : s1.(disk).(events) = s.(disk).(events)) by apply He1.
  destruct s1 as [d1 fs1 m1]. unfold sync_directory. io_step. io_step.
  2: { split; (split; [intros Hc; apply Hnc, He1; tauto|]; exists F, k, []; done). }
  unfold modify. do 5 io_step. cbn [disk mem] in *.
  assert (Hc0 : calm s0 → fs0 = []) by (intros Hc; apply Hcalm1, Hcalm, He1; tauto). split_and!; [|done|].
  - exists F, k, []. split; [by apply (log_ok_same _ _ _ _ _ d1)|]. left. exists F. cbn [mem]. split_and!; try done. apply Hl.
  - exists l. split_and!; [done| |done|].
    { apply Forall_forall. intros id Hid. destruct (Hl' id Hid) as (Hu & _ & f & _ & ? & ? & _ & _ & _ & ?). done. }
    intros Hc Hroom. split; [split_and!|].
    + by apply Hc0.
    + done.
    + intros id Hid. by apply Hl'.
    + unfold room in Hroom. cbn [disk events with_checkpoint]. rewrite Ee1. rewrite <- Ea in Hroom.
      pose proof (entries_bound _ l Hnd Hent). unfold frame_limit, MAX_PAYLOAD_BYTES, FRAME_HEADER_BYTES in *. lia.
    + intros id Hid Hx. apply Hall; [tauto|done|]. unfold slot_holds in *. by rewrite Ea.
Qed.

Lemma recover_wp db acked threshold max min_free s : disk_ok db acked s.(disk) →
  wp (recover threshold max min_free) (λ evs s', recovered_ok db acked s s' evs)
    (λ _ s', ¬ calm s ∧ disk_ok db acked s'.(disk)) (λ s', ¬ calm s ∧ disk_ok db acked s'.(disk)) s.
Proof.
  intros (F & k & torn & Hl). unfold recover. apply wp_bind.
  assert (Hsame : ∀ s' : Sys Spool, s'.(disk) = s.(disk) → disk_ok db acked s'.(disk)) by (intros s' ->; by exists F, k, torn).
  eapply wp_mono; [by eapply disk_ok_read_checkpoint|..]; cbn beta.
  2: { intros _ s1 [Hn E]. auto. }
  2: { intros s1 [Hn E]. auto. }
  intros c s1 [-> (E1 & Em1 & Hc1)]. destruct s1 as [d1 fs1 m1]. unfold calm in Hc1. cbn [disk mem faults] in *. subst d1 m1.
  io_step. io_step; [|split; (split; [unfold calm; tauto|by apply Hsame])].
  io_step. io_step; [|split; (split; [unfold calm; tauto|by apply Hsame])].
  assert (Hstop : ∀ s', scan_stopped F torn {| disk := disk s; faults := fs0; mem := mem s |} s' →
    ¬ calm s ∧ disk_ok db acked s'.(disk)).
  { intros s' [Hn Hd]. split; [unfold calm in *; simpl in *; tauto|]. destruct Hd as [[x Hd]|Hd].
    - exists F, k, torn. apply (log_ok_same _ _ _ _ _ (disk s)); rewrite ?Hd; try done. symmetry. apply Hl.
    - exists F, k, []. by eapply log_ok_repaired. }
  io_step. eapply wp_mono; [apply (scan_and_repair_wp F torn k); cbn [disk]; try apply Hl; [|done]|..]; cbn beta; [| |intros _ s3; apply Hstop|intros s3; apply Hstop].
  { apply genuine_frames, Hl. }
  intros scan s2 [-> (Hev & Em2 & Hc2)]. cbn [disk mem scan_end checkpoint_is_boundary negb] in *.
  pose proof (log_ok_repaired _ _ _ _ _ _ _ Hev Hl) as Hl2.
  destruct s2 as [d2 fs2 m2]. unfold calm in Hc2. cbn [disk mem faults] in *.
  io_step. io_step; [|split; (split; [unfold calm; tauto|by exists F, k, []])].
  apply recover_rest_wp; [done|..]; cbn [disk].
  - by destruct Hev as [x ->].
  - destruct Hev as [x ->]. cbn [events with_events]. rewrite (lo_events _ _ _ _ _ _ Hl), length_app. lia.
  - unfold calm. cbn [faults]. tauto.
Qed.

(** Everything before [recover]. *)
Lemma lock_wp db acked s (k : unit → IO Spool SpoolError unit) Qd (Qf : SpoolError → Sys Spool → Prop) Qc :
  disk_ok db acked s.(disk) → s.(disk).(locked) = false →
  (∀ s', s'.(disk) = set_locked true s.(disk) → (calm s → calm s') → wp (k tt) Qd Qf Qc s') →
  (∀ e s', ¬ calm s → disk_ok db acked s'.(disk) → Qf e s' ∧ Qc s') →
  wp (plain Io ;~ plain Io ;~ plain Io ;~ plain Io ;~ x <~ try_lock; k x)%gw Qd Qf Qc s.
Proof.
  intros Hd Hun Hk Hf. destruct s as [d fs m]. cbn [disk] in *. unfold calm in Hf, Hk. cbn [faults] in Hf, Hk.
  do 4 (io_step; io_step; [|split; (apply (Hf Io) || apply (Hf Lock)); cbn [disk]; tauto]).
  io_step. unfold try_lock. io_step. io_step. rewrite Hun. io_step.
  - apply Hk; [done|]. cbn [faults]. tauto.
  - split; apply (Hf Lock); cbn [disk]; tauto.
Qed.

Lemma disk_ok_locked db acked b d : disk_ok db acked d → disk_ok db acked (set_locked b d).
Proof. intros (F & k & torn & Hl). exists F, k, torn. by apply (log_ok_same _ _ _ _ _ d). Qed.

(** A start of the process, whatever calls fail. *)
Lemma open_wp db acked threshold max min_free s : disk_ok db acked s.(disk) → s.(disk).(locked) = false →
  wp (open_with_limits threshold max min_free) (λ _ s', live db acked s')
    (λ _ s', disk_ok db acked s'.(disk) ∧ ¬ (calm s ∧ room s.(disk))) (λ s', ¬ calm s ∧ disk_ok db acked s'.(disk)) s.
Proof.
  intros Hd Hun. unfold open_with_limits. apply (lock_wp db acked); [done|done| |intros e s' Hn Hd'; split; tauto].
  intros s1 E1 Hc1. apply wp_bind. eapply wp_mono; [apply (recover_wp db acked); rewrite E1; by apply disk_ok_locked|..]; cbn beta.
  - intros evs s2 (Hl2 & Hc2 & l & -> & Hok & Hnd & Hready). eapply wp_mono; [by apply append_all_wp|..]; cbn beta.
    + intros _ s3 [Hl3 _]. eapply live_weaken; [|exact Hl3]. set_solver.
    + intros _ s3 [Hl3 Hn]. split; [by apply live_disk_ok|]. intros [Hc Hroom]. apply Hn, Hready; [tauto|]. by rewrite E1.
    + intros s3 [Hn Hd3]. split; [tauto|done].
  - intros _ s2 [Hn Hd2]. split; [done|tauto].
  - intros s2 [Hn Hd2]. split; [tauto|done].
Qed.

(** Promises that the log keeps already, and those that only a slot keeps. *)
Lemma log_ok_promote db acked F k torn d : log_ok db acked F k torn d →
  ∃ A, log_ok db A F k torn d ∧ ∀ x, x ∈ acked → Logged (promised x) ∈ A ∨ slot_holds terminal submitted d (promised x).
Proof.
  induction acked as [|x acked IH]; intros Hl; [exists []; split; [done|set_solver]|].
  destruct IH as (A & HA & Hall); [eapply log_ok_weaken; [|exact Hl]; set_solver|].
  destruct (lo_covered _ _ _ _ _ _ Hl x) as [Hok [Hr|[_ Hs]]]; [by left|..].
  - exists (Logged (promised x) :: A). split; [by apply log_ok_ack; [| |left]|].
    intros y [->|Hy]%elem_of_cons; [left; by left|]. destruct (Hall y Hy) as [|]; [left; by right|by right].
  - exists A. split; [done|]. intros y [->|Hy]%elem_of_cons; [by right|auto].
Qed.

(** A start in which no call fails: the spool opens, and the log holds every
    event that was promised. *)
Lemma open_calm_wp db acked threshold max min_free s :
  disk_ok db acked s.(disk) → s.(disk).(locked) = false → calm s → room s.(disk) →
  wp (open_with_limits threshold max min_free)
    (λ _ s', live db ((λ x, Logged (promised x)) <$> acked) s' ∧ calm s' ∧ s'.(mem).(w_failed) = false)
    (λ _ _, False) (λ _, False) s.
Proof.
  intros (F & k & torn & Hl) Hun Hc Hroom. destruct (log_ok_promote _ _ _ _ _ _ Hl) as (A & HA & Hall).
  unfold open_with_limits. apply (lock_wp db A); [by exists F, k, torn|done| |done].
  intros s1 E1 Hc1. assert (disk_ok db A (disk s1)) as Hd1 by (rewrite E1; apply disk_ok_locked; by exists F, k, torn).
  apply wp_bind. eapply wp_mono; [by apply (recover_wp db A)|..]; cbn beta; [|tauto|tauto].
  intros evs s2 (Hl2 & Hc2 & l & -> & Hok & Hnd & Hready). destruct Hready as [Hready Hslots]; [auto|by rewrite E1|].
  eapply wp_mono; [by apply append_all_wp|..]; cbn beta; [|tauto|tauto].
  intros _ s3 (Hl3 & Hc3 & Hf3). pose proof Hready as (Hcr & Hfr & _). split_and!; [|tauto|tauto].
  eapply live_weaken; [|exact Hl3]. intros y (x & -> & Hx)%list_elem_of_fmap. apply elem_of_app. destruct (Hall x Hx) as [HxA|Hs]; [by right|left].
  apply list_elem_of_fmap. exists (promised x). split; [done|]. apply Hslots; [|by rewrite E1].
  by apply (lo_covered _ _ _ _ _ _ Hl x).
Qed.
End recovery.
