(* ===== verification/Ingest.v ===== *)
(** * Ingestion of the spool

    Models [run_spool_ingest_worker] of [src/workers/durable_request_log.rs]: the
    worker reads a batch of frames, presents it to the database, advances the
    checkpoint once the batch is accepted and compacts a drained spool.  The
    database ([accept_batch]) is seen through the result of the call and the
    records it holds afterwards.

    The pipeline is a transition system of the spool, its worker and the
    database, in which the process can die at any file-system call and start
    again. *)

From S2P Require Import Prelude Text Decimal Domain Billing Cost Json Journal Disk Spool Frames Slots Recovery.

(** ** The worker *)

(** [timeout(.., repository.accept_batch(..))] *)
Inductive AcceptResult := Accepted (rows : Z) | Refused | TimedOut.

Section worker.
Context {D T : Type} `{EventSerde D T} `{SpoolDeps T}.
Local Open Scope gateway_scope.
Abbreviation io := (IO Spool SpoolError).

(** [reader.reset(offset)]: the worker ends when the seek fails. *)
Definition reset (offset : Z) : io (option Z) :=
  r <~ try_io (plain Io);
  io_ret (match r with Some _ => Some offset | None => None end).

(** [compact_spool], then the reset to the start of an emptied log.  An error of
    the compaction is only reported. *)
Definition compact_and_reset (reader : Z) : io (option Z) :=
  compacted <~ try_io compact_if_drained;
  match compacted with Some true => reset 0 | _ => io_ret (Some reader) end.

(** The body of the loop after [read_batch] returned [b]; the result is the
    reader's position, or [None] when the worker returns. *)
Definition after_read (draining : bool) (b : SpoolReadBatch) (accepted : AcceptResult) : io (option Z) :=
  if negb (length b.(records) =? 0)%nat then
    match accepted with
    | Accepted rows =>
        if negb (rows =? Z.of_nat (length b.(records))) then reset b.(batch_start)
        else
          committed <~ try_io (checkpoint b.(batch_end));
          match committed with
          | None => reset b.(batch_start)
          | Some _ => compact_and_reset b.(batch_end)
          end
    | Refused | TimedOut => reset b.(batch_start)
    end
  else
    compacted <~ try_io compact_if_drained;
    match compacted with
    | Some true => reset 0
    | _ => if draining then try_io sync_data ;~ io_ret None else io_ret (Some b.(batch_end))
    end.

(** One iteration of the loop.  [expired]: the drain deadline is reached;
    [draining]: a shutdown was requested. *)
Definition ingest_turn (expired draining : bool) (batch_size : nat) (accept : list EncodedRequestLog → AcceptResult)
    (reader : Z) : io (option Z) :=
  if expired then try_io sync_data ;~ io_ret None
  else
    batch <~ try_io (read_batch batch_size reader);
    match batch with
    | None => io_ret None
    | Some b => after_read draining b (accept b.(records))
    end.
End worker.

Section ingest.
Context {D T : Type} `{EventSerdeLaws D T} `{SpoolDepsLaws T}.
Context (terminal : uuid → RequestLogEvent D T) (terminal_id : ∀ id, (terminal id).(ev_id) = id).
Context (submitted : uuid → Prop).
Implicit Types (r : EncodedRequestLog) (F db : list EncodedRequestLog) (d : Disk) (m : Spool) (acked : list Promise).

(** ** Reading a batch *)

Lemma prefix_image F F' : F' `prefix_of` F → image F' `prefix_of` image F.
Proof. intros [G ->]. rewrite image_app. by exists (image G). Qed.

Lemma boundary_prefix F F' k : F' `prefix_of` F → (k ≤ length F')%nat → boundary F' k = boundary F k.
Proof. intros [G ->] Hk. unfold boundary. by rewrite take_app_le. Qed.

Lemma take_upto {A} (l : list A) k n : take k l ++ take n (drop k l) = take (k + length (take n (drop k l))) l.
Proof.
  rewrite take_take_drop, length_take, length_drop. destruct (decide (n ≤ length l - k)%nat).
  - by rewrite Nat.min_l.
  - rewrite !take_ge by lia. done.
Qed.

(** Frames read back one after the other, up to the published end. *)
Lemma read_frames_wp G : ∀ n F1 rest s, Forall frame_ok G →
  s.(disk).(events) = image F1 ++ image G ++ rest → Z.of_nat (length s.(disk).(events)) ≤ max_file_size →
  wp (read_frames n (length (image F1)) (Z.of_nat (length (image (F1 ++ G)))))
    (λ res s', res = (take n G, length (image (F1 ++ take n G))) ∧ sys_after s s.(disk) s.(mem) s')
    (λ _ s', ¬ calm s ∧ sys_after s s.(disk) s.(mem) s') (λ s', ¬ calm s ∧ s'.(disk) = s.(disk)) s.
Proof.
  induction G as [|r G IH]; intros n F1 rest [d fs m] HG He Hmax; cbn [disk] in He, Hmax; destruct n as [|n]; cbn [read_frames].
  - io_step. split; [by rewrite app_nil_r|done].
  - rewrite app_nil_r. rewrite Z.ltb_irrefl. io_step. split; [by rewrite app_nil_r|done].
  - io_step. split; [by rewrite app_nil_r|done].
  - apply Forall_cons in HG as [Hr HG]. assert (Z.of_nat (length r.(payload)) ≤ 1048576) as Hlen by apply Hr.
    assert (He' : events d = image F1 ++ encode_frame r ++ image G ++ rest)
      by by rewrite He, image_cons, <- !app_assoc.
    assert (Hl : length (events d) = (length (image F1) + 32 + length r.(payload) + length (image G) + length rest)%nat)
      by (rewrite He', !length_app, encode_frame_length; unfold FRAME_HEADER_BYTES; lia).
    assert (Hend : length (image (F1 ++ r :: G)) = (length (image F1) + 32 + length r.(payload) + length (image G))%nat)
      by (rewrite image_app, length_app, image_cons_length; unfold FRAME_HEADER_BYTES; lia).
    rewrite Hend. destruct (Z.ltb_spec (Z.of_nat (length (image F1)))
      (Z.of_nat (length (image F1) + 32 + length (payload r) + length (image G)))) as [_|]; [|lia].
    io_step. apply wp_read_events; cbn [disk mem]; [unfold FRAME_HEADER_BYTES; lia|io_after|io_fault; io_after; done].
    rewrite He', image_header, (parse_frame_header _ Hr). io_step. cbn [lift_result]. io_step. io_step.
    rewrite frame_end_exact by (unfold max_file_size, u64_max, i64_max, FRAME_HEADER_BYTES in *; lia).
    io_step. destruct (Z.ltb_spec (Z.of_nat (length (image F1) + 32 + length (payload r) + length (image G)))
      (Z.of_nat (length (image F1) + FRAME_HEADER_BYTES + length (payload r)))) as [Hlt|_];
      [unfold FRAME_HEADER_BYTES in Hlt; lia|].
    io_step. cbn [ph_payload_len ph_checksum]. rewrite Nat2Z.id.
    apply wp_read_events; cbn [disk mem]; [unfold FRAME_HEADER_BYTES; lia|io_after|].
    2: { io_fault. io_after. unfold calm, sys_after. cbn. unfold calm. cbn. split_and!; try tauto; done. }
    rewrite He', image_payload, Z.eqb_refl. cbn [negb].
    replace (length (image F1) + FRAME_HEADER_BYTES + length (payload r))%nat with (length (image (F1 ++ [r])))
      by (rewrite image_snoc, length_app, encode_frame_length; lia).
    rewrite <- Hend. replace (F1 ++ r :: G) with ((F1 ++ [r]) ++ G) by by rewrite <- app_assoc.
    io_step. eapply wp_mono; [apply (IH n (F1 ++ [r]) rest); [done|by rewrite image_snoc, <- app_assoc|done]|..]; cbn beta.
    + intros [G' e] s' [[= -> ->] (E1 & E2 & E3)]. unfold calm in E3. cbn [disk mem faults] in *. io_step. split.
      * cbn. rewrite <- app_assoc. by destruct r.
      * split_and!; try done. unfold calm. cbn. tauto.
    + intros _ s' [Hn (E1 & E2 & E3)]. unfold calm, sys_after in *. cbn in *. unfold calm in *. cbn in *. tauto.
    + intros s' [Hn E1]. unfold calm in *. cbn in *. tauto.
Qed.

(** The volatile state publishes the frames [F'] of the log, from the [k]th on. *)
Definition publishes F F' (k : nat) m : Prop :=
  F' `prefix_of` F ∧ (k ≤ length F')%nat ∧ m.(end_offset) = Z.of_nat (length (image F')) ∧
  m.(checkpoint_offset) = boundary F k.

(** A batch is the next published records, in order. *)
Lemma read_batch_wp db acked F F' k torn n s :
  log_ok terminal submitted db acked F k torn s.(disk) → publishes F F' k s.(mem) →
  wp (read_batch n s.(mem).(checkpoint_offset))
    (λ b s', b = {| records := take n (drop k F'); batch_start := boundary F k;
                    batch_end := boundary F (k + length (take n (drop k F'))) |} ∧ sys_after s s.(disk) s.(mem) s')
    (λ _ s', ¬ calm s ∧ sys_after s s.(disk) s.(mem) s') (λ s', ¬ calm s ∧ s'.(disk) = s.(disk)) s.
Proof.
  intros Hl (Hp & Hk & Hend & Hck). destruct s as [d fs m]. cbn [disk mem] in *. unfold read_batch.
  io_step. io_step. rewrite Hck, Hend. rewrite <- (boundary_prefix F F' k Hp Hk).
  assert (HF' : drop k F' = [] ∨ boundary F' k < Z.of_nat (length (image F'))).
  { destruct (decide (k = length F')) as [->|Hne]; [left; by apply drop_ge|right].
    rewrite <- boundary_all. apply boundary_lt. lia. }
  destruct ((n =? 0)%nat || (Z.of_nat (length (image F')) <=? boundary F' k)) eqn:Hempty.
  { io_step. assert (take n (drop k F') = []) as ->.
    { apply orb_true_iff in Hempty as [->%Nat.eqb_eq|Hle%Z.leb_le]; [done|].
      destruct HF' as [->|]; [by destruct n|lia]. }
    split; [|done]. simpl. by rewrite Nat.add_0_r, (boundary_prefix F F' k Hp Hk). }
  apply orb_false_iff in Hempty as [_ Hlt%Z.leb_gt].
  assert (Hlen : (length (take n (drop k F')) ≤ length F' - k)%nat) by (rewrite length_take, length_drop; lia).
  pose proof Hp as [G HG].
  io_step. io_step; [|split; done]. io_step. unfold boundary at 1. rewrite Nat2Z.id. rewrite <- (take_drop k F') at 2.
  eapply wp_mono; [apply (read_frames_wp (drop k F') n (take k F') (image G ++ torn)); cbn [disk]|..]; cbn beta.
  - apply Forall_drop. eapply Forall_impl; [|apply (genuine_ok terminal terminal_id submitted)].
    pose proof (lo_frames _ _ _ _ _ _ _ _ Hl) as HF. rewrite HG in HF. by apply Forall_app in HF as [HF _].
  - rewrite app_assoc, <- image_app, take_drop, (lo_events _ _ _ _ _ _ _ _ Hl), HG, image_app. by rewrite app_assoc.
  - apply Hl.
  - intros res s' [-> (E1 & E2 & E3)]. unfold calm in E3. cbn [disk mem faults] in *. io_step. cbn [fst snd].
    split; [|split_and!; try done; unfold calm; cbn; tauto]. f_equal.
    rewrite <- (boundary_prefix F F') by (done || lia). unfold boundary. f_equal. f_equal. f_equal.
    apply take_upto.
  - intros _ s' [Hn (E1 & E2 & E3)]. unfold calm, sys_after in *. cbn in *. unfold calm in *. cbn in *. tauto.
  - intros s' [Hn E1]. unfold calm in *. cbn in *. tauto.
Qed.

(** ** Checkpoints and compaction *)

(** The worker's position and the live spool. *)
Definition working db acked (s : Sys Spool) (reader : Z) : Prop :=
  live terminal submitted db acked s ∧ reader = s.(mem).(checkpoint_offset).

Lemma checkpoint_wp db acked F F' k torn j s :
  log_ok terminal submitted db acked F k torn s.(disk) → publishes F F' k s.(mem) →
  (s.(mem).(w_failed) = false → F' = F ∧ torn = [] ∧ s.(mem).(w_end_offset) = s.(mem).(end_offset)) →
  (k ≤ j ≤ length F')%nat → (∀ r, r ∈ take j F → r ∈ db) →
  wp (checkpoint (boundary F j)) (λ _ s', working db acked s' (boundary F j) ∧ (calm s → calm s'))
    (λ _ s', ¬ calm s ∧ live terminal submitted db acked s' ∧ s'.(mem) = s.(mem))
    (λ s', ¬ calm s ∧ disk_ok terminal submitted db acked s'.(disk)) s.
Proof.
  intros Hl (Hp & Hk & Hend & Hck) Hrun Hj Hdb. unfold checkpoint. io_step. apply wp_get_mem. rewrite Hck, Hend.
  pose proof (boundary_le F k j ltac:(lia)). pose proof (boundary_le F' j (length F') ltac:(lia)) as Hle.
  rewrite boundary_all, (boundary_prefix F F' j Hp) in Hle by lia.
  destruct (Z.ltb_spec (boundary F j) (boundary F k)); [lia|].
  destruct (Z.ltb_spec (Z.of_nat (length (image F'))) (boundary F j)); [lia|]. cbn [orb].
  assert (HjF : (j ≤ length F)%nat) by (apply prefix_length in Hp; lia).
  io_step. eapply wp_mono; [by eapply (persist_checkpoint_wp terminal submitted db acked F k torn j false)|..]; cbn beta.
  - intros _ s1 (Hl1 & Em & Hc). unfold modify. io_step. apply wp_get_mem, wp_put_mem. intros s2 (E2 & Em2 & Hc2).
    split; [|tauto]. split; [|by rewrite Em2]. exists F, j, torn. rewrite E2, Em2, Em. split; [done|].
    left. exists F'. split_and!; [done|lia|done|done|done].
  - intros _ s1 (Hn & Hl1 & Em). split_and!; [done| |done]. exists F, k, torn. rewrite Em. split; [done|].
    left. exists F'. done.
  - intros s1 (Hn & Hl1). split; [done|]. by exists F, k, torn.
Qed.

(** While the log is emptied: some log is well formed, and in memory the spool is
    still drained. *)
Definition emptying db acked m0 (s : Sys Spool) : Prop := disk_ok terminal submitted db acked s.(disk) ∧ s.(mem) = m0.

Lemma emptying_latched db acked m0 (s s' : Sys Spool) : emptying db acked m0 s → m0.(checkpoint_offset) = m0.(end_offset) →
  s'.(disk) = s.(disk) → s'.(mem) = latch_failed s.(mem) → live terminal submitted db acked s'.
Proof.
  intros [(F & k & torn & Hl) Em] Hd E1 E2. exists F, k, torn. rewrite E1, E2, Em. split; [done|]. by right.
Qed.

Lemma compact_wp db acked F torn s : log_ok terminal submitted db acked F (length F) torn s.(disk) →
  wp compact (λ _ s', log_ok terminal submitted db acked [] 0 [] s'.(disk) ∧ s'.(mem) = s.(mem) ∧ (calm s → calm s'))
    (λ _ s', ¬ calm s ∧ emptying db acked s.(mem) s') (λ s', ¬ calm s ∧ disk_ok terminal submitted db acked s'.(disk)) s.
Proof.
  intros Hl. assert (Hall : ∀ r, r ∈ F → r ∈ db).
  { intros r Hr. apply (lo_db _ _ _ _ _ _ _ _ Hl). by rewrite firstn_all. }
  unfold compact, sync_events, sync_directory, set_events_len. destruct s as [d fs m]. cbn [disk mem] in *.
  assert (Hl1 : ∀ n, log_ok terminal submitted db acked F (length F) torn (with_events (events d) n d))
    by (intros n; by apply (log_ok_same _ _ _ _ _ _ _ d)).
  assert (Hd0 : disk_ok terminal submitted db acked d) by by exists F, (length F), torn.
  io_step. io_step; [|split; split; done].
  io_step. change 0 with (boundary F 0).
  eapply wp_mono; [apply (persist_checkpoint_wp terminal submitted db acked F (length F) torn 0 true); cbn [disk]; [apply Hl1|lia|set_solver]|..];
    cbn beta; cbn [disk mem].
  2: { intros _ s1 (Hn & Hl2 & Em). split; [unfold calm in *; cbn in *; tauto|]. split; [|done]. by exists F, (length F), torn. }
  2: { intros s1 (Hn & Hl2). split; [unfold calm in *; cbn in *; tauto|]. by exists F, (length F), torn. }
  intros _ [d1 fs1 m1] (Hl2 & Em & Hc). unfold calm in *. cbn [disk mem faults] in *. subst m1.
  io_step. io_step.
  2: { assert (disk_ok terminal submitted db acked d1) by by exists F, 0%nat, torn. split; (split; [tauto|]); done. }
  assert (Hl3 : log_ok terminal submitted db acked F 0 torn (with_checkpoint (checkpoint_file d1) (checkpoint_temp d1) [checkpoint_file d1] d1))
    by by apply (log_ok_same _ _ _ _ _ _ _ d1).
  set (d2 := with_checkpoint _ _ _ d1) in *. io_step. io_step.
  2: { assert (disk_ok terminal submitted db acked d2) by by exists F, 0%nat, torn. split; (split; [tauto|]); done. }
  pose proof (λ n, log_ok_truncate terminal submitted db acked F torn d2 n Hl3 Hall) as Hl4. change (take 0 (events d2)) with (@nil Z).
  assert (Hd4 : ∀ n, disk_ok terminal submitted db acked (with_events [] n d2)) by (intros n; by exists [], 0%nat, []).
  io_step. io_step; [|split; (split; [tauto|]); [split; [|done]|]; apply Hd4].
  io_step; [|split; (split; [tauto|]); [split; [|done]|]; apply Hd4].
  split_and!; [by apply (log_ok_same _ _ _ _ _ _ _ (with_events [] (events_synced d2 `min` 0) d2))|done|tauto].
Qed.

Lemma compact_if_drained_wp db acked reader s : working db acked s reader →
  wp compact_if_drained
    (λ b s', if b : bool then working db acked s' 0 else working db acked s' reader)
    (λ _ s', working db acked s' reader) (λ s', disk_ok terminal submitted db acked s'.(disk)) s.
Proof.
  intros [Hlive ->]. unfold compact_if_drained. io_step. apply wp_get_mem. cbv zeta.
  destruct (negb _ || _ || _) eqn:Hskip; [by io_step|]. destruct (w_failed (mem s)) eqn:Hf; [by io_step|].
  destruct (negb _ || (_ && _)) eqn:Hskip2; [by io_step|]. clear Hskip2. breflect.
  destruct Hlive as (F & k & torn & Hl & Hm). pose proof (mem_ok_running _ _ _ _ Hm Hf) as (-> & _ & Hend & Hck).
  assert (k = length F) as ->.
  { apply (boundary_inj F); [apply Hl|done|]. rewrite boundary_all. congruence. }
  io_step. io_step. eapply wp_mono; [by apply (compact_wp db acked F [])|..]; cbn beta.
  - intros _ s1 (Hl1 & Em & Hc). unfold modify. io_step. io_step. apply wp_get_mem, wp_put_mem. intros s2 (E2 & Em2 & Hc2).
    io_step. split; [|by rewrite Em2]. exists [], 0%nat, []. rewrite E2, Em2, Em. split; [done|]. left. exists [].
    split_and!; done.
  - intros _ s1 [Hn He] s2 E1 E2 _. split; [eapply emptying_latched; eauto|]. rewrite E2. destruct He as [_ ->]. done.
  - intros s1 [Hn Hd]. done.
Qed.

Lemma sync_data_wp db acked reader s : working db acked s reader →
  wp sync_data (λ _ s', working db acked s' reader) (λ _ s', working db acked s' reader)
    (λ s', disk_ok terminal submitted db acked s'.(disk)) s.
Proof.
  intros [(F & k & torn & Hl & Hm) ->]. destruct s as [d fs m]. unfold sync_data, sync_events. io_step. io_step. cbv zeta.
  destruct (end_offset m <=? synced_offset m); [io_step; split; [by exists F, k, torn|done]|].
  destruct (end_offset m <=? checkpoint_offset m).
  { unfold modify. do 3 io_step. split; [by exists F, k, torn|done]. }
  io_step. io_step. io_step.
  - unfold modify. do 3 io_step. split; [|done]. exists F, k, torn. split; [by apply (log_ok_same _ _ _ _ _ _ _ d)|done].
  - split; [|by exists F, k, torn]. intros s' E1 E2 _. split; [|by rewrite E2]. exists F, k, torn. rewrite E1, E2.
    split; [done|by apply mem_ok_latch].
Qed.

(** ** One iteration of the worker *)

(** What [read_batch] returned in the state [s]: nothing, or the records of the
    published frames from the checkpoint up to the [j]th. *)
Definition batch_for db acked (s : Sys Spool) (b : SpoolReadBatch) : Prop :=
  live terminal submitted db acked s ∧ b.(batch_start) = s.(mem).(checkpoint_offset) ∧
  ((b.(records) = [] ∧ b.(batch_end) = b.(batch_start)) ∨
   ∃ F F' k torn j, log_ok terminal submitted db acked F k torn s.(disk) ∧ publishes F F' k s.(mem) ∧
     (s.(mem).(w_failed) = false → F' = F ∧ torn = [] ∧ s.(mem).(w_end_offset) = s.(mem).(end_offset)) ∧
     (k ≤ j ≤ length F')%nat ∧ take j F = take k F ++ b.(records) ∧ b.(batch_end) = boundary F j).

Lemma batch_for_db db db' acked s b : (∀ r, r ∈ db → r ∈ db') → batch_for db acked s b → batch_for db' acked s b.
Proof.
  intros Hsub ((F & k & torn & Hl & Hm) & Hs & Hb). split; [exists F, k, torn; split; [by eapply log_ok_db|done]|].
  split; [done|]. destruct Hb as [|(G & G' & i & t & j & Hl' & Hrest)]; [by left|right].
  exists G, G', i, t, j. split; [by eapply log_ok_db|done].
Qed.

Lemma batch_for_same db acked (s s' : Sys Spool) b : s'.(disk) = s.(disk) → s'.(mem) = s.(mem) →
  batch_for db acked s b → batch_for db acked s' b.
Proof. unfold batch_for, live. by intros -> ->. Qed.

Lemma read_turn_wp db acked n reader s : working db acked s reader →
  wp (read_batch n reader) (λ b s', batch_for db acked s' b ∧ (calm s → calm s'))
    (λ _ s', ¬ calm s ∧ live terminal submitted db acked s') (λ s', ¬ calm s ∧ disk_ok terminal submitted db acked s'.(disk)) s.
Proof.
  intros [Hlive ->]. pose proof Hlive as (F & k & torn & Hl & Hm).
  pose proof (live_disk_ok _ _ _ _ _ Hlive) as Hdisk.
  assert (Hsame : ∀ s', sys_after s s.(disk) s.(mem) s' → live terminal submitted db acked s')
    by (unfold live; intros s' (-> & -> & _); done).
  destruct Hm as [(F' & Hp & Hk & Hend & Hck & Hrun)|[Hf Hdr]].
  - eapply wp_mono; [by apply (read_batch_wp db acked F F' k torn n)|..]; cbn beta.
    + intros b s' [-> Hs']. pose proof Hs' as (E1 & E2 & Hc). split; [|done]. eapply batch_for_same; [done|done|].
      split; [done|]. split; [done|]. right. exists F, F', k, torn, (k + length (take n (drop k F')))%nat. cbn [records batch_end].
      split_and!; try done; [lia|rewrite length_take, length_drop; lia|]. destruct Hp as [G ->].
      assert (Hlen : (length (take n (drop k F')) ≤ length F' - k)%nat) by (rewrite length_take, length_drop; lia).
      rewrite !take_app_le by lia. by rewrite <- take_upto.
    + intros _ s' [Hn Hs']. auto.
    + intros s' [Hn E]. split; [done|]. by rewrite E.
  - unfold read_batch. io_step. apply wp_get_mem. rewrite Hdr, Z.leb_refl, orb_true_r. io_step. split; [|done].
    split; [done|]. split; [done|]. by left.
Qed.

(** The position that a turn leaves, while the worker runs. *)
Definition positioned db acked (o : option Z) (s : Sys Spool) : Prop :=
  live terminal submitted db acked s ∧ ∀ reader, o = Some reader → reader = s.(mem).(checkpoint_offset).

Lemma reset_wp db acked s offset : live terminal submitted db acked s → offset = s.(mem).(checkpoint_offset) →
  wp (reset offset) (λ o s', positioned db acked o s') (λ _ _, False) (λ s', disk_ok terminal submitted db acked s'.(disk)) s.
Proof.
  intros Hlive ->. pose proof (live_disk_ok _ _ _ _ _ Hlive) as Hdisk. unfold reset. io_step. io_step. apply wp_plain.
  - intros s' (E1 & E2 & _). io_step. split; [by unfold live; rewrite E1, E2|]. intros ? [= <-]. by rewrite E2.
  - intros _ s' (E1 & E2 & _). rewrite E1. split; [|done]. io_step. split; [by unfold live; rewrite E1, E2|done].
Qed.

Lemma compact_and_reset_wp db acked s reader : working db acked s reader →
  wp (compact_and_reset reader) (λ o s', positioned db acked o s') (λ _ _, False)
    (λ s', disk_ok terminal submitted db acked s'.(disk)) s.
Proof.
  intros Hw. unfold compact_and_reset. io_step. io_step. eapply wp_mono; [by apply compact_if_drained_wp|..]; cbn beta; [| |done].
  - intros [] s1 [Hl ->]; [by apply reset_wp|]. io_step. split; [done|]. by intros ? [= <-].
  - intros _ s1 [Hl ->]. io_step. split; [done|]. by intros ? [= <-].
Qed.

Lemma idle_wp db acked s (draining : bool) reader : working db acked s reader →
  wp (if draining then try_io sync_data ;~ io_ret None else io_ret (Some reader))%gw
    (λ o s', positioned db acked o s') (λ _ _, False) (λ s', disk_ok terminal submitted db acked s'.(disk)) s.
Proof.
  intros Hw. destruct draining.
  - io_step. io_step. eapply wp_mono; [by apply sync_data_wp|..]; cbn beta; [| |done];
      intros _ s1 [Hl _]; io_step; split; done.
  - destruct Hw as [Hl ->]. io_step. split; [done|]. by intros ? [= <-].
Qed.

Lemma after_read_wp db acked s draining b a : batch_for db acked s b →
  (a = Accepted (Z.of_nat (length b.(records))) → ∀ r, r ∈ b.(records) → r ∈ db) →
  wp (after_read draining b a) (λ o s', positioned db acked o s') (λ _ _, False)
    (λ s', disk_ok terminal submitted db acked s'.(disk)) s.
Proof.
  intros (Hlive & Hstart & Hb) Hacc. unfold after_read. destruct (length (records b) =? 0)%nat eqn:Hempty; cbn [negb].
  - apply Nat.eqb_eq in Hempty.
    assert (batch_end b = checkpoint_offset (mem s)) as He.
    { rewrite <- Hstart. destruct Hb as [[_ ?]|(F & F' & k & torn & j & Hl & Hp & _ & Hj & Ht & He)]; [done|].
      rewrite He, Hstart. destruct Hp as (Hpre & _ & _ & ->). f_equal. apply nil_length_inv in Hempty. rewrite Hempty, app_nil_r in Ht.
      apply (f_equal length) in Ht. apply prefix_length in Hpre. rewrite !length_take in Ht. lia. }
    io_step. io_step. eapply wp_mono; [by apply (compact_if_drained_wp db acked (checkpoint_offset (mem s)))|..]; cbn beta; [| |done].
    + intros [] s1 Hw; [destruct Hw; by apply reset_wp|]. rewrite He. by apply idle_wp.
    + intros _ s1 Hw. rewrite He. by apply idle_wp.
  - assert (Hreset : wp (reset (batch_start b)) (λ o s', positioned db acked o s') (λ _ _, False)
      (λ s', disk_ok terminal submitted db acked s'.(disk)) s) by by apply reset_wp.
    destruct a as [rows| |]; [|done|done].
    destruct (rows =? Z.of_nat (length (records b))) eqn:Hrows; cbn [negb]; [apply Z.eqb_eq in Hrows as ->|done].
    destruct Hb as [[Hnil _]|(F & F' & k & torn & j & Hl & Hp & Hrun & Hj & Ht & He)]; [by rewrite Hnil in Hempty|].
    rewrite He. io_step. io_step. eapply wp_mono; [apply (checkpoint_wp db acked F F' k torn j); try done|..]; cbn beta.
    + intros r. rewrite Ht. intros [Hr|Hr]%elem_of_app; [by apply (lo_db _ _ _ _ _ _ _ _ Hl)|by apply Hacc].
    + intros _ s1 [Hw _]. by apply compact_and_reset_wp.
    + intros _ s1 (_ & Hl1 & Em). apply reset_wp; [done|]. by rewrite Em.
    + by intros s1 [_ ?].
Qed.
End ingest.
