(* ===== verification/Pipeline.v ===== *)
(** * The durable request-log pipeline

    The transition system of the spool process, its ingest worker and the
    database: requests are admitted and end, the worker moves batches to the
    database, any file-system call can fail, and the process can die at any of
    them (or between them) and start again.  The theorems follow an event from
    its acknowledgement to the database. *)

From S2P Require Import Prelude Text Decimal Domain Billing Cost Json Journal Disk Spool Frames Slots Recovery Ingest.

Section pipeline.
Context {D T : Type} `{EventSerde D T} `{SpoolDeps T}.
Context (terminal : uuid → RequestLogEvent D T) (submitted : uuid → Prop).
Local Open Scope gateway_scope.

(** [DurableRequestLogWorker::start_inner] up to the spawned workers: the spool
    and the position of the ingest worker's reader. *)
Definition start_inner (compaction_threshold max min_free : Z) : IO Spool SpoolError Z :=
  open_with_limits compaction_threshold max min_free ;~ reader.

(** A running process has its spool and, until the ingest worker returns, the
    reader's position.  [accepted]: the records that the database has accepted;
    [acked]: the requests whose event was acknowledged. *)
Record Node := {
  n_disk : Disk;
  n_process : option (Spool * option Z);
  n_accepted : list EncodedRequestLog;
  n_acked : list uuid;
}.

Definition empty_disk : Disk :=
  {| events := []; events_synced := 0; checkpoint_file := None; checkpoint_history := [None];
     checkpoint_temp := None; admissions := ∅; locked := false |}.
Definition initial : Node := {| n_disk := empty_disk; n_process := None; n_accepted := []; n_acked := [] |}.

(** The node after a program: a crash ends the process and releases its lock. *)
Definition dead (s : Sys Spool) accepted acked : Node :=
  {| n_disk := set_locked false s.(disk); n_process := None; n_accepted := accepted; n_acked := acked |}.
Definition settle {A} (s : Sys Spool) (e : exit SpoolError A) (worker : option Z) accepted acked : Node :=
  match e with
  | Done _ | Failed _ =>
      {| n_disk := s.(disk); n_process := Some (s.(mem), worker); n_accepted := accepted; n_acked := acked |}
  | Crashed | OutOfFuel => dead s accepted acked
  end.

(** [append] acknowledges an event when it returns; and for a reserved request
    also when it reports that the log is unavailable, since the slot holds it. *)
Definition acknowledges (m : Spool) (id : uuid) (e : exit SpoolError Z) : bool :=
  match e with
  | Done _ => true
  | Failed UnavailableAfterWriteFailure => contains m.(w_admissions) id
  | _ => false
  end.

Inductive step : Node → Node → Prop :=
| step_start d db acked fs m0 threshold max min_free s p :
    start_inner threshold max min_free {| disk := d; faults := fs; mem := m0 |} = (s, Done p) →
    step {| n_disk := d; n_process := None; n_accepted := db; n_acked := acked |}
         {| n_disk := s.(disk); n_process := Some (s.(mem), Some p); n_accepted := db; n_acked := acked |}
| step_start_failed d db acked fs m0 threshold max min_free s e :
    start_inner threshold max min_free {| disk := d; faults := fs; mem := m0 |} = (s, e) →
    (∀ p, e ≠ Done p) →
    step {| n_disk := d; n_process := None; n_accepted := db; n_acked := acked |} (dead s db acked)
| step_admit d m w db acked fs i s e :
    uuid_ok i.(in_id) → spool_admit i {| disk := d; faults := fs; mem := m |} = (s, e) →
    step {| n_disk := d; n_process := Some (m, w); n_accepted := db; n_acked := acked |} (settle s e w db acked)
| step_append d m w db acked fs id s e :
    uuid_ok id → submitted id → append (terminal id) {| disk := d; faults := fs; mem := m |} = (s, e) →
    step {| n_disk := d; n_process := Some (m, w); n_accepted := db; n_acked := acked |}
         (settle s e w db (if acknowledges m id e then id :: acked else acked))
| step_sync d m w db acked fs s e :
    sync_data {| disk := d; faults := fs; mem := m |} = (s, e) →
    step {| n_disk := d; n_process := Some (m, w); n_accepted := db; n_acked := acked |} (settle s e w db acked)
| step_turn d m p db db' acked fs expired draining n accept s e :
    (∀ r, r ∈ db → r ∈ db') →
    (** [accept_batch] returns the number of records only when it has stored them *)
    (∀ s1 b, read_batch n p {| disk := d; faults := fs; mem := m |} = (s1, Done b) →
       accept b.(records) = Accepted (Z.of_nat (length b.(records))) → ∀ r, r ∈ b.(records) → r ∈ db') →
    ingest_turn expired draining n accept p {| disk := d; faults := fs; mem := m |} = (s, e) →
    step {| n_disk := d; n_process := Some (m, Some p); n_accepted := db; n_acked := acked |}
         (settle s e (match e with Done o => o | _ => None end) db' acked)
| step_kill d m w db acked :
    step {| n_disk := d; n_process := Some (m, w); n_accepted := db; n_acked := acked |}
         (dead {| disk := d; faults := []; mem := m |} db acked).

Definition reachable (n : Node) : Prop := rtc step initial n.
End pipeline.

Section invariant.
Context {D T : Type} `{EventSerdeLaws D T} `{SpoolDepsLaws T}.
Context (terminal : uuid → RequestLogEvent D T) (terminal_id : ∀ id, (terminal id).(ev_id) = id).
Context (submitted : uuid → Prop).
Implicit Types (n : Node) (acked : list uuid).
Abbreviation live := (Recovery.live terminal submitted).
Abbreviation disk_ok := (Recovery.disk_ok terminal submitted).

(** ** The invariant of the pipeline *)

Definition node_ok n : Prop :=
  match n.(n_process) with
  | None => disk_ok n.(n_accepted) (Kept <$> n.(n_acked)) n.(n_disk) ∧ n.(n_disk).(locked) = false
  | Some (m, w) => ∀ fs, let s := {| disk := n.(n_disk); faults := fs; mem := m |} in
      live n.(n_accepted) (Kept <$> n.(n_acked)) s ∧ ∀ p, w = Some p → p = m.(checkpoint_offset)
  end.

Lemma dead_ok s db acked : disk_ok db (Kept <$> acked) s.(disk) → node_ok (dead s db acked).
Proof. intros Hd. split; [by apply disk_ok_locked|done]. Qed.

Lemma live_node db acked s w : live db (Kept <$> acked) s → (∀ p, w = Some p → p = s.(mem).(checkpoint_offset)) →
  node_ok {| n_disk := s.(disk); n_process := Some (s.(mem), w); n_accepted := db; n_acked := acked |}.
Proof. intros Hl Hw fs. split; done. Qed.

(** The post-condition of a program, for the run that a step takes. *)
Lemma wp_run {A} (p : IO Spool SpoolError A) Qd Qf Qc s s' e : wp p Qd Qf Qc s → p s = (s', e) →
  match e with Done a => Qd a s' | Failed x => Qf x s' | Crashed => Qc s' | OutOfFuel => False end.
Proof. unfold wp. intros Hw Hr. by rewrite Hr in Hw. Qed.

(** A process that keeps running, or dies. *)
Lemma settle_ok {A} (p : IO Spool SpoolError A) Qd Qf s s' e w db acked :
  wp p Qd Qf (λ s', disk_ok db (Kept <$> acked) s'.(disk)) s → p s = (s', e) →
  (∀ a, e = Done a → Qd a s' → live db (Kept <$> acked) s') →
  (∀ x, e = Failed x → Qf x s' → live db (Kept <$> acked) s') →
  (∀ q, w = Some q → q = s'.(mem).(checkpoint_offset)) → node_ok (settle s' e w db acked).
Proof.
  intros Hwp Hrun Hd Hf Hw. pose proof (wp_run _ _ _ _ _ _ _ Hwp Hrun) as Hpost.
  destruct e as [a|x| |]; [| |by apply dead_ok|done]; apply live_node; eauto.
Qed.

(** ** Programs that leave the checkpoint alone *)

Definition keeps {A} (p : IO Spool SpoolError A) : Prop :=
  ∀ s, (p s).1.(mem).(checkpoint_offset) = s.(mem).(checkpoint_offset).

Lemma keeps_ret {A} (a : A) : keeps (io_ret a).
Proof. done. Qed.
Lemma keeps_throw {A} e : keeps (@throw Spool SpoolError A e).
Proof. done. Qed.
Lemma keeps_get_mem : keeps get_mem.
Proof. done. Qed.
Lemma keeps_get_disk : keeps get_disk.
Proof. done. Qed.
Lemma keeps_bind {A B} (p : IO Spool SpoolError A) (k : A → IO Spool SpoolError B) :
  keeps p → (∀ a, keeps (k a)) → keeps (io_bind p k).
Proof.
  intros Hp Hk s. unfold io_bind. pose proof (Hp s) as E. destruct (p s) as [s' []]; [|done..].
  by rewrite Hk.
Qed.
Lemma keeps_modify f : (∀ m, (f m).(checkpoint_offset) = m.(checkpoint_offset)) → keeps (modify f).
Proof. intros Hf s. apply Hf. Qed.
Lemma keeps_on_error {A} (p : IO Spool SpoolError A) : keeps p → keeps (on_error p latch_failed).
Proof. intros Hp s. unfold on_error. pose proof (Hp s) as E. by destruct (p s) as [s' []]. Qed.
Lemma keeps_next s o s' : next_outcome s = (o, s') → s'.(mem) = (s : Sys Spool).(mem).
Proof. intros [(_ & E & _) _]%next_outcome_after. done. Qed.
Lemma keeps_call effect : keeps (call Io effect).
Proof.
  intros s. unfold call. destruct (next_outcome s) as [o s'] eqn:E. apply keeps_next in E.
  destruct (verdict o); simpl; by rewrite E.
Qed.
Lemma keeps_write_call effect l : keeps (write_call Io effect l).
Proof.
  intros s. unfold write_call. destruct (next_outcome s) as [o s'] eqn:E. apply keeps_next in E.
  destruct (verdict o); simpl; by rewrite E.
Qed.
Lemma keeps_available_space : keeps (available_space Io).
Proof.
  intros s. unfold available_space. destruct (next_outcome s) as [o s'] eqn:E. apply keeps_next in E.
  destruct (verdict o); simpl; by rewrite E.
Qed.

Ltac keeps_tac := repeat (intros; first
  [ apply keeps_ret | apply keeps_throw | apply keeps_get_mem | apply keeps_get_disk | apply keeps_bind
  | apply keeps_on_error | apply keeps_call | apply keeps_write_call | apply keeps_available_space
  | apply keeps_modify; done | case_match ]).

Lemma keeps_admit i : keeps (spool_admit i).
Proof.
  unfold spool_admit, reserve, create, create_new, allocate, write_file, plain, lift_result. keeps_tac.
Qed.
Lemma keeps_append event : keeps (append event).
Proof.
  unfold append, encoded, save_terminal, open_existing, publish_frame, append_events, sync_events, retire, remove_file,
    write_file, write_sector, plain. keeps_tac.
Qed.
Lemma keeps_sync : keeps sync_data.
Proof. unfold sync_data, sync_events. keeps_tac. Qed.

Lemma reader_wp db ps s : live db ps s →
  wp reader (λ p s', live db ps s' ∧ p = s'.(mem).(checkpoint_offset)) (λ _ s', disk_ok db ps s'.(disk))
    (λ s', disk_ok db ps s'.(disk)) s.
Proof.
  intros Hl. pose proof (live_disk_ok _ _ _ _ _ Hl) as Hd. destruct s as [d fs m]. unfold reader.
  io_step. io_step; [|done]. io_step. io_step. io_step. io_step; [|done]. io_step. done.
Qed.

Lemma start_wp db ps threshold max min_free s : disk_ok db ps s.(disk) → s.(disk).(locked) = false →
  wp (start_inner threshold max min_free)
    (λ p s', live db ps s' ∧ p = s'.(mem).(checkpoint_offset)) (λ _ s', disk_ok db ps s'.(disk))
    (λ s', disk_ok db ps s'.(disk)) s.
Proof.
  intros Hd Hun. unfold start_inner. io_step. eapply wp_mono; [by apply (open_wp terminal terminal_id submitted db ps)|..]; cbn beta.
  - intros _ s1 Hl. by apply reader_wp.
  - by intros _ s1 [? _].
  - by intros s1 [_ ?].
Qed.

Lemma ingest_turn_wp db ps expired draining k accept p s :
  working terminal submitted db ps s p →
  (∀ s1 b, read_batch k p s = (s1, Done b) → accept b.(records) = Accepted (Z.of_nat (length b.(records))) →
     ∀ r, r ∈ b.(records) → r ∈ db) →
  wp (ingest_turn expired draining k accept p) (λ o s', positioned terminal submitted db ps o s') (λ _ _, False)
    (λ s', disk_ok db ps s'.(disk)) s.
Proof.
  intros Hw Hacc. unfold ingest_turn. destruct expired; [by eapply (idle_wp terminal submitted db ps s true p)|].
  pose proof (read_turn_wp _ terminal_id _ _ _ k _ _ Hw) as Hr.
  unfold wp in Hr |- *. unfold io_bind, try_io. destruct (read_batch k p s) as [s1 e] eqn:Hrun.
  destruct e as [b|x| |]; [| |apply Hr|done].
  - destruct Hr as [Hb _]. apply (after_read_wp terminal terminal_id submitted db ps s1 draining b _ Hb). by apply (Hacc s1).
  - split; [apply Hr|done].
Qed.

Lemma initial_ok : node_ok initial.
Proof.
  split; [|done]. exists [], 0%nat, []. split; cbn; try done.
  - apply torn_nil.
  - intros x Hx. by apply elem_of_nil in Hx.
Qed.

Lemma live_db db db' ps s : (∀ r, r ∈ db → r ∈ db') → live db ps s → live db' ps s.
Proof. intros Hsub (F & k & torn & Hl & Hm). exists F, k, torn. split; [by eapply log_ok_db|done]. Qed.

(** What is in the log is kept. *)
Lemma live_kept db id ps s : live db (Logged id :: ps) s → live db (Kept id :: ps) s.
Proof.
  intros (F & k & torn & Hl & Hm). exists F, k, torn. split; [|done].
  destruct (lo_covered _ _ _ _ _ _ _ _ Hl (Logged id)) as [Hok Hc]; [by left|].
  apply log_ok_ack; [by apply (log_ok_weaken terminal terminal_id submitted _ _ (Logged id :: ps)); [set_solver|]|done|]. left. by destruct Hc as [|[? _]].
Qed.

Lemma append_step_ok d m w db acked fs id s e :
  node_ok {| n_disk := d; n_process := Some (m, w); n_accepted := db; n_acked := acked |} →
  uuid_ok id → submitted id → append (terminal id) {| disk := d; faults := fs; mem := m |} = (s, e) →
  node_ok (settle s e w db (if acknowledges m id e then id :: acked else acked)).
Proof.
  intros Hn Hid Hsub Hrun. destruct (Hn fs) as [Hl Hw]. cbn [n_disk n_accepted n_acked] in Hl.
  pose proof (keeps_append (terminal id) {| disk := d; faults := fs; mem := m |}) as Hk. rewrite Hrun in Hk. cbn in Hk.
  pose proof (wp_run _ _ _ _ _ _ _ (append_wp terminal terminal_id submitted _ _ _ _ Hl Hid Hsub) Hrun) as Hpost.
  destruct e as [a|x| |]; cbn [acknowledges settle]; [| |apply dead_ok, Hpost|done].
  - apply live_node; [|by rewrite Hk]. rewrite fmap_cons. apply live_kept, Hpost.
  - destruct Hpost as (Hl' & _ & Hun). apply live_node; [|by rewrite Hk].
    destruct x; try exact Hl'. destruct (contains _ _) eqn:Hc; [|exact Hl'].
    rewrite fmap_cons. apply Hun; [|done]. by apply bool_decide_eq_true in Hc.
Qed.

Lemma step_ok n n' : node_ok n → step terminal submitted n n' → node_ok n'.
Proof.
  intros Hn Hstep. destruct Hstep as
    [d db acked fs m0 th mx mf s p Hrun|d db acked fs m0 th mx mf s e Hrun Hfail|d m w db acked fs i s e Hid Hrun
    |d m w db acked fs id s e Hid Hsub Hrun|d m w db acked fs s e Hrun
    |d m p db db' acked fs expired draining k accept s e Hdb Hacc Hrun|d m w db acked].
  - destruct Hn as [Hd Hun]. cbn in Hd, Hun.
    pose proof (wp_run _ _ _ _ _ _ _ (start_wp db (Kept <$> acked) th mx mf {| disk := d; faults := fs; mem := m0 |} Hd Hun) Hrun)
      as [Hl ->]. apply live_node; [done|]. by intros ? [= <-].
  - destruct Hn as [Hd Hun]. cbn in Hd, Hun.
    pose proof (wp_run _ _ _ _ _ _ _ (start_wp db (Kept <$> acked) th mx mf {| disk := d; faults := fs; mem := m0 |} Hd Hun) Hrun) as Hp.
    destruct e; [by destruct (Hfail a)|by apply dead_ok|by apply dead_ok|done].
  - destruct (Hn fs) as [Hl Hw]. pose proof (keeps_admit i {| disk := d; faults := fs; mem := m |}) as Hk. rewrite Hrun in Hk.
    eapply settle_ok; [by apply (admit_wp terminal submitted)|exact Hrun|done|done|]. cbn in Hk. by rewrite Hk.
  - by eapply append_step_ok.
  - destruct (Hn fs) as [Hl Hw]. pose proof (keeps_sync {| disk := d; faults := fs; mem := m |}) as Hk. rewrite Hrun in Hk.
    eapply settle_ok; [by apply (sync_data_wp terminal submitted db (Kept <$> acked) (checkpoint_offset m))|exact Hrun
      |by intros ? _ [? _]|by intros ? _ [? _]|]. cbn in Hk. by rewrite Hk.
  - destruct (Hn fs) as [Hl Hw]. pose proof (live_db _ db' _ _ Hdb Hl) as Hl'.
    pose proof (wp_run _ _ _ _ _ _ _ (ingest_turn_wp db' (Kept <$> acked) expired draining k accept p _
      (conj Hl' (Hw p eq_refl)) Hacc) Hrun) as Hp.
    destruct e as [o|x| |]; [|done|by apply dead_ok|done]. destruct Hp as [Hlo Hpo]. by apply live_node.
  - destruct (Hn []) as [Hl _]. apply dead_ok. by apply live_disk_ok.
Qed.

Lemma reachable_ok n : reachable terminal submitted n → node_ok n.
Proof.
  unfold reachable. intros Hr. pose proof initial_ok as H0'. induction Hr as [|n1 n2 n3 Hs _ IH]; [done|].
  apply IH. by eapply step_ok.
Qed.

(** A start in which no call fails. *)
Lemma start_calm_wp db ps threshold max min_free s :
  disk_ok db ps s.(disk) → s.(disk).(locked) = false → calm s → room s.(disk) →
  wp (start_inner threshold max min_free)
    (λ p s', live db ((λ x, Logged (promised x)) <$> ps) s' ∧ p = s'.(mem).(checkpoint_offset) ∧ calm s' ∧
       s'.(mem).(w_failed) = false)
    (λ _ _, False) (λ _, False) s.
Proof.
  intros Hd Hun Hc Hroom. unfold start_inner. io_step.
  eapply wp_mono; [by apply (open_calm_wp terminal terminal_id submitted db ps)|..]; cbn beta; [|done|done].
  intros _ [d fs m] (Hl & Hc' & Hf). unfold calm in *. cbn [faults mem] in *. subst fs. unfold reader.
  io_step. io_step; [|done]. io_step. io_step. io_step. io_step; [|tauto]. io_step. cbn [faults mem]. split_and!; try done. auto.
Qed.

Lemma wp_total {A} (p : IO Spool SpoolError A) Qd s : wp p Qd (λ _ _, False) (λ _, False) s →
  ∃ s' a, p s = (s', Done a) ∧ Qd a s'.
Proof. unfold wp. destruct (p s) as [s' []]; naive_solver. Qed.
End invariant.

(** ** Claims *)

Section claims.
Context {D T : Type} `{EventSerdeLaws D T} `{SpoolDepsLaws T}.
Context (terminal : uuid → RequestLogEvent D T) (terminal_id : ∀ id, (terminal id).(ev_id) = id).
Context (submitted : uuid → Prop).

(** C3: Durability of acknowledged events: after any history of admissions, ended
    requests, ingest turns, failed file-system calls and crashes, a process that
    starts without faults opens its spool, and a reader finds in it every
    acknowledged event that the database has not accepted yet; every record it
    reads is the event of a request that ended. *)
Theorem acknowledged_events_survive n threshold max min_free m0 :
  reachable terminal submitted n → n.(n_process) = None → room n.(n_disk) →
  ∃ s p s' b,
    start_inner threshold max min_free {| disk := n.(n_disk); faults := []; mem := m0 |} = (s, Done p) ∧
    read_batch (S (length s.(disk).(events))) p s = (s', Done b) ∧
    (∀ id, id ∈ n.(n_acked) → ∃ r, encode (terminal id) = Ok r ∧ (r ∈ n.(n_accepted) ∨ r ∈ b.(records))) ∧
    (∀ r, r ∈ b.(records) → ∃ id, submitted id ∧ encode (terminal id) = Ok r).
Proof.
  intros Hr Hdead Hroom. apply reachable_ok in Hr; [|done]. unfold node_ok in Hr. rewrite Hdead in Hr. destruct Hr as [Hd Hun].
  destruct (wp_total _ _ _ (start_calm_wp terminal terminal_id submitted _ _ threshold max min_free
    {| disk := n_disk n; faults := []; mem := m0 |} Hd Hun eq_refl Hroom)) as (s & p & Hrun & (F & k & torn & Hl & Hm) & -> & Hc & Hf).
  assert (HF : ∃ F', F' = F ∧ publishes F F' k (mem s)).
  { destruct Hm as [(F' & Hp & Hk & He & Hck & Hrunning)|[Hbad _]]; [|congruence].
    destruct (Hrunning Hf) as (-> & _). exists F. done. }
  destruct HF as (F' & -> & Hpub).
  set (k' := S (length (events (disk s)))).
  pose proof (read_batch_wp terminal terminal_id submitted _ _ F F k torn k' s Hl Hpub) as Hread.
  assert (Hall : take k' (drop k F) = drop k F).
  { apply take_ge. rewrite length_drop. unfold k'. rewrite (lo_events _ _ _ _ _ _ _ _ Hl), length_app.
    pose proof (image_length_count F). lia. }
  destruct (wp_total (read_batch k' (checkpoint_offset (mem s))) _ s (wp_mono _ _ _ _ _ _ _ s Hread (λ _ _ Hx, Hx)
    (λ _ _ Hx, proj1 Hx Hc) (λ _ Hx, proj1 Hx Hc))) as (s' & b & Hrb & -> & _).
  exists s, (checkpoint_offset (mem s)), s'. eexists. split_and!; [done|exact Hrb|..]; cbn [records]; rewrite Hall.
  - intros id Hid. destruct (lo_covered _ _ _ _ _ _ _ _ Hl (Logged id)) as [_ [Hcov|[[=] _]]]; [|done].
    apply list_elem_of_fmap. exists (Kept id). split; [done|]. apply list_elem_of_fmap. by exists id.
  - intros r Hin. pose proof (lo_frames _ _ _ _ _ _ _ _ Hl) as Hg. rewrite Forall_forall in Hg.
    destruct (Hg r) as (id & _ & He & _ & Hs); [|by exists id].
    rewrite <- (take_drop k F). apply elem_of_app. by right.
Qed.

(** C28: The layout of the log in every reachable state, crashes included: a sequence
    of whole frames of ended requests, at most one torn frame after them, and a
    checkpoint on a frame boundary, before which the database has every record. *)
Theorem log_always_well_formed n : reachable terminal submitted n →
  ∃ F k torn, n.(n_disk).(events) = image F ++ torn ∧ torn_ok torn ∧ Forall (genuine terminal submitted) F ∧
    (k ≤ length F)%nat ∧ checkpoint_value n.(n_disk) = Some (boundary F k) ∧ ∀ r, r ∈ take k F → r ∈ n.(n_accepted).
Proof.
  intros Hr. apply reachable_ok in Hr; [|done].
  assert (Hd : disk_ok terminal submitted n.(n_accepted) (Kept <$> n.(n_acked)) n.(n_disk)).
  { unfold node_ok in Hr. destruct (n_process n) as [[m w]|]; [|apply Hr]. by apply (live_disk_ok _ _ _ _ _ (proj1 (Hr []))). }
  destruct Hd as (F & k & torn & Hl). exists F, k, torn. by destruct Hl.
Qed.
End claims.
