(* ===== verification/Capacity.v ===== *)
(** * Capacity of the spool

    [admit] and [append] never let the log and its reservations grow past
    [max_bytes]: each admission reserves room for the request's terminal frame,
    and writing that frame uses at most what it reserved. *)

From S2P Require Import Prelude Text Decimal Domain Billing Cost Json Journal Disk Spool Frames Ingest Pipeline.

(** ** Programs that leave the memory alone *)

Section still.
Abbreviation io := (IO Spool SpoolError).

Definition still {A} (p : io A) : Prop := ∀ s,
  wp p (λ _ s', s'.(mem) = s.(mem)) (λ _ s', s'.(mem) = s.(mem)) (λ _, True) s.

Lemma still_ret {A} (a : A) : still (io_ret a).
Proof. by intros s. Qed.
Lemma still_throw {A} e : still (@throw Spool SpoolError A e).
Proof. by intros s. Qed.
Lemma still_get_mem : still get_mem.
Proof. by intros s. Qed.
Lemma still_get_disk : still get_disk.
Proof. by intros s. Qed.
Lemma still_bind {A B} (p : io A) (k : A → io B) : still p → (∀ a, still (k a)) → still (io_bind p k).
Proof.
  intros Hp Hk s. apply wp_bind. eapply wp_mono; [apply Hp|..]; cbn beta; [|done|done].
  intros a s1 E1. eapply wp_mono; [apply Hk|..]; cbn beta; [| |done]; intros; congruence.
Qed.
Lemma still_call effect : still (call Io effect).
Proof. intros [d fs m]. io_step; done. Qed.
Lemma still_write_call effect l : still (write_call Io effect l).
Proof. intros [d fs m]. io_step; done. Qed.
Lemma still_available_space : still (available_space Io).
Proof. intros [d fs m]. io_step; done. Qed.

(** The rule for such a program in a larger one. *)
Lemma wp_still {A} (p : io A) (Qd : A → Sys Spool → Prop) (Qf : SpoolError → Sys Spool → Prop) s :
  still p → (∀ a s', s'.(mem) = s.(mem) → Qd a s') → (∀ e s', s'.(mem) = s.(mem) → Qf e s') →
  wp p Qd Qf (λ _, True) s.
Proof. intros Hp Hd Hf. eapply wp_mono; [apply Hp|..]; cbn beta; auto. Qed.
Lemma wp_modify f (Qd : unit → Sys Spool → Prop) (Qf : SpoolError → Sys Spool → Prop) Qc s :
  (∀ s', s'.(mem) = f s.(mem) → Qd tt s') → wp (modify f) Qd Qf Qc s.
Proof. intros Hq. unfold modify. io_step. io_step. apply wp_put_mem. intros s' (_ & E & _). by apply Hq. Qed.
End still.

Ltac still_tac := repeat (intros; first
  [ apply still_ret | apply still_throw | apply still_get_mem | apply still_get_disk | apply still_bind
  | apply still_call | apply still_write_call | apply still_available_space | case_match ]).

(** ** What the spool counts *)

(** The log and the reservations, as [admit] adds them up. *)
Definition used (m : Spool) : Z := sat_add u64_max m.(w_end_offset) (reserved_bytes m.(w_admissions)).

Definition within_capacity (m : Spool) : Prop :=
  m.(w_failed) = false → 0 ≤ m.(w_end_offset) ∧ 0 ≤ m.(w_admissions).(retained_bytes) ∧ used m ≤ m.(max_bytes).

Ltac unfold_sizes :=
  unfold RESERVATION_BYTES, MAX_PAYLOAD_BYTES, MAX_INTENT_BYTES, HEADER_BYTES, FRAME_HEADER_BYTES in *; unfold_ints.

Lemma used_reserve m id : id ∉ m.(w_admissions).(ids) → 0 ≤ m.(w_end_offset) → 0 ≤ m.(w_admissions).(retained_bytes) →
  used (set_ids (λ l, {[ id ]} ∪ l) m) ≤ sat_add u64_max (used m) (2 * RESERVATION_BYTES).
Proof.
  intros Hid Hw Hr. unfold used, reserved_bytes. cbn. rewrite size_union, size_singleton by set_solver. unfold_sizes. lia.
Qed.

(** A frame fits in what its request reserved. *)
Lemma used_retire m id len : id ∈ m.(w_admissions).(ids) → 0 ≤ m.(w_end_offset) → 0 ≤ m.(w_admissions).(retained_bytes) →
  0 ≤ len ≤ 2 * RESERVATION_BYTES →
  used (set_ids (λ l, l ∖ {[ id ]}) (set_end_offset (m.(w_end_offset) + len) (set_w_end_offset (m.(w_end_offset) + len) m))) ≤ used m.
Proof.
  intros Hid Hw Hr Hlen. unfold used, reserved_bytes. cbn.
  assert (Hsize : size m.(w_admissions).(ids) = S (size (m.(w_admissions).(ids) ∖ {[ id ]}))).
  { rewrite (union_difference_L {[ id ]} m.(w_admissions).(ids)) at 1 by set_solver.
    rewrite size_union, size_singleton by set_solver. lia. }
  rewrite Hsize. unfold_sizes. lia.
Qed.

Section capacity.
Context {D T : Type} `{EventSerde D T} `{SpoolDepsLaws T}.
Local Open Scope gateway_scope.
Implicit Types (m : Spool) (s : Sys Spool).

(** Programs that stay within the capacity. *)
Definition bounded {A} (p : IO Spool SpoolError A) : Prop := ∀ s, within_capacity s.(mem) →
  wp p (λ _ s', within_capacity s'.(mem)) (λ _ s', within_capacity s'.(mem)) (λ _, True) s.

Lemma latched_capacity m : within_capacity (latch_failed m).
Proof. intros [=]. Qed.

Lemma encoded_len_wp event s : wp (encoded event)
  (λ r s', s'.(mem) = s.(mem) ∧ Z.of_nat (length r.(payload)) ≤ MAX_PAYLOAD_BYTES) (λ _ s', s'.(mem) = s.(mem)) (λ _, True) s.
Proof.
  unfold encoded. io_step. destruct (encode event) as [r|e]; io_step; [|done].
  destruct (Z.ltb_spec MAX_PAYLOAD_BYTES (Z.of_nat (length r.(payload)))); io_step; done.
Qed.
Lemma still_save_terminal event : still (save_terminal event).
Proof. unfold save_terminal, encoded, open_existing, write_file, write_sector, plain. still_tac. Qed.

Lemma reserve_mem_wp (i : RequestLogIntent T) s :
  wp (reserve i) (λ _ s', (i.(in_id) ∉ s.(mem).(w_admissions).(ids))
      ∧ s'.(mem) = set_ids (λ l, ({[ i.(in_id) ]} : gset uuid) ∪ l) s.(mem)) (λ _ _, True) (λ _, True) s.
Proof.
  unfold reserve. io_step. apply wp_still; [unfold lift_result; still_tac| |done]. intros bytes s1 E1.
  case_match; [io_step; done|]. io_step. io_step. rewrite E1. destruct (contains _ _) eqn:Hc; [io_step; done|].
  io_step. apply wp_modify. intros s2 E2. apply wp_still; [| |done].
  - unfold create, create_new, allocate, write_file, plain. still_tac.
  - intros _ s3 E3. split; [by apply bool_decide_eq_false in Hc|]. congruence.
Qed.

Lemma admit_capacity (i : RequestLogIntent T) : bounded (spool_admit i).
Proof.
  intros s Hm. unfold spool_admit. io_step. io_step. destruct (w_failed _) eqn:Hf; [io_step; done|].
  io_step. set (u := sat_add u64_max (w_end_offset (mem s)) _).
  destruct (Z.ltb_spec (max_bytes (mem s)) (sat_add u64_max u (2 * RESERVATION_BYTES))) as [|Hroom].
  { io_step. io_step. apply wp_modify. intros s1 E1. io_step. rewrite E1. exact Hm. }
  apply wp_still; [still_tac| |by intros ? ? ->]. intros [] s1 E1.
  { io_step. apply wp_modify. intros s2 E2. io_step. rewrite E2, E1. exact Hm. }
  io_step. eapply wp_mono; [apply reserve_mem_wp|..]; cbn beta; [|intros ?? _ s2 _ -> _; apply latched_capacity|done].
  rewrite E1. intros _ s2 [Hid ->] _. destruct (Hm Hf) as (Hw & Hr & _). split; [done|split; [done|]].
  etransitivity; [by apply used_reserve|done].
Qed.

Lemma retire_mem_wp id s :
  wp (retire id) (λ _ s', s'.(mem) = set_ids (λ l, l ∖ {[ id ]}) s.(mem)) (λ _ _, True) (λ _, True) s.
Proof.
  unfold retire, remove_file. do 4 (io_step; apply wp_still; [unfold plain; still_tac| |done]; intros _ ? ?).
  apply wp_modify. congruence.
Qed.

(** A frame of at most the size reserved, with room for it when nothing was. *)
Lemma publish_capacity (event : RequestLogEvent D T) frame s :
  let reserved := contains s.(mem).(w_admissions) event.(ev_id) in
  let len := Z.of_nat (length frame) in
  within_capacity s.(mem) → s.(mem).(w_failed) = false → len ≤ 2 * RESERVATION_BYTES →
  (reserved = false → sat_add u64_max (used s.(mem)) len ≤ s.(mem).(max_bytes)) →
  wp (publish_frame event reserved frame) (λ _ s', within_capacity s'.(mem)) (λ _ s', within_capacity s'.(mem))
    (λ _, True) s.
Proof.
  intros reserved len Hm Hf Hlen Hroom. destruct (Hm Hf) as (Hw & Hr & Hu). unfold publish_frame. fold len.
  io_step. io_step. apply wp_still; [unfold append_events; still_tac| |intros ?? _ s1 _ -> _; apply latched_capacity].
  intros _ s1 E1. io_step. io_step. io_step. rewrite E1.
  destruct (Z.leb_spec (w_end_offset (mem s) + len) u64_max) as [Hmax|]; [|io_step; by rewrite E1].
  apply wp_modify. intros s2 E2. rewrite E1 in E2. io_step. destruct reserved eqn:Hres.
  - io_step. apply wp_still; [unfold sync_events; still_tac| |intros ?? _ s3 _ -> _; apply latched_capacity].
    intros _ s3 E3. io_step. apply wp_modify. intros s4 E4. io_step. io_step.
    eapply wp_mono; [apply retire_mem_wp|..]; cbn beta; [|intros ?? _ s5 _ -> _; apply latched_capacity|done].
    intros _ s5 E5. io_step. rewrite E5, E4, E3, E2. intros _.
    split; [cbn; lia|split; [done|]]. etransitivity; [apply used_retire|exact Hu]; try lia.
    by apply bool_decide_eq_true in Hres.
  - io_step. io_step. apply wp_modify. intros s3 E3. io_step. io_step. io_step. rewrite E3, E2. intros _.
    split; [cbn; lia|split; [done|]]. etransitivity; [|by apply Hroom]. unfold used, reserved_bytes. cbn. unfold_sizes. lia.
Qed.

Lemma append_capacity (event : RequestLogEvent D T) : bounded (append event).
Proof.
  intros s Hm. unfold append. io_step. eapply wp_mono; [apply encoded_len_wp|..]; cbn beta; [|by intros ?? ->|done].
  intros r s1 [E1 Hlen]. io_step. io_step. io_step. rewrite E1.
  apply wp_mono with (Qd := λ _ s2, s2.(mem) = s.(mem)) (Qf := λ _ s2, within_capacity s2.(mem)) (Qc := λ _, True); [| |done|done].
  { destruct (contains _ _); io_step; [|done].
    apply wp_still; [apply still_save_terminal|congruence|intros ?? _ s2 _ -> _; apply latched_capacity]. }
  intros _ s2 E2. io_step. io_step. destruct (w_failed (mem s2)) eqn:Hf; [io_step; by rewrite E2|].
  rewrite <- E2. rewrite <- E2 in Hm. destruct (_ && _) eqn:Hroom; [io_step; done|].
  apply publish_capacity; try done. 1: rewrite encode_frame_length; unfold_sizes; lia.
  intros Hc. rewrite Hc in Hroom. simpl in Hroom. apply Z.ltb_ge in Hroom. exact Hroom.
Qed.

Lemma bounded_still {A} (p : IO Spool SpoolError A) : still p → bounded p.
Proof. intros Hp s Hs. apply wp_still; [done|by intros ?? ->..]. Qed.
Lemma bounded_bind {A B} (p : IO Spool SpoolError A) (k : A → IO Spool SpoolError B) :
  bounded p → (∀ a, bounded (k a)) → bounded (io_bind p k).
Proof.
  intros Hp Hk s Hs. apply wp_bind. eapply wp_mono; [by apply Hp|..]; cbn beta; [|done|done]. intros; by apply Hk.
Qed.
Lemma bounded_try {A} (p : IO Spool SpoolError A) : bounded p → bounded (try_io p).
Proof. intros Hp s Hs. apply wp_try. by apply Hp. Qed.
Lemma bounded_on_error {A} (p : IO Spool SpoolError A) : bounded p → bounded (on_error p latch_failed).
Proof.
  intros Hp s Hs. apply wp_on_error. eapply wp_mono; [by apply Hp|..]; cbn beta; [done| |done].
  intros _ s1 _ s2 _ -> _. apply latched_capacity.
Qed.
Lemma bounded_modify f : (∀ m, within_capacity m → within_capacity (f m)) → bounded (modify f).
Proof. intros Hf s Hs. apply wp_modify. intros s' ->. auto. Qed.

Ltac bounded_tac := repeat (intros; first
  [ assumption | apply bounded_modify; let Hm := fresh in intros ? Hm; exact Hm | by apply bounded_still; still_tac
  | apply bounded_bind | apply bounded_try | apply bounded_on_error | case_match ]).

Lemma emptied_capacity m : within_capacity m →
  within_capacity (set_pressure false (set_synced_offset 0 (set_end_offset 0 (set_checkpoint_offset 0 (set_w_end_offset 0 m))))).
Proof.
  intros Hm Hf. destruct (Hm Hf) as (? & ? & Hu). split; [done|split; [done|]]. etransitivity; [|exact Hu].
  unfold used, reserved_bytes. cbn. unfold_sizes. lia.
Qed.

Lemma sync_data_capacity : bounded sync_data.
Proof. unfold sync_data, sync_events. bounded_tac. Qed.
Lemma persist_still offset sync : still (persist_checkpoint offset sync).
Proof. unfold persist_checkpoint, create_temp, write_temp, rename_temp, plain. still_tac. Qed.
Lemma checkpoint_capacity offset : bounded (checkpoint offset).
Proof. unfold checkpoint. pose proof (persist_still offset false). bounded_tac. Qed.
Lemma compact_capacity : bounded compact_if_drained.
Proof.
  unfold compact_if_drained, compact, sync_events, sync_directory, set_events_len, plain.
  pose proof (persist_still 0 true). pose proof (bounded_modify _ emptied_capacity). bounded_tac.
Qed.
Lemma read_frames_still n offset e : still (read_frames n offset e).
Proof.
  revert offset. induction n as [|n IH]; intros offset; cbn [read_frames]; [apply still_ret|].
  unfold read_events, lift_result, frame_end_of. still_tac. apply IH.
Qed.
Lemma turn_capacity expired draining n accept p : bounded (ingest_turn expired draining n accept p).
Proof.
  pose proof sync_data_capacity. pose proof compact_capacity. pose proof checkpoint_capacity. pose proof read_frames_still.
  assert (bounded (read_batch n p)). { unfold read_batch, plain. bounded_tac. }
  unfold ingest_turn, after_read, compact_and_reset, reset, plain. bounded_tac. all: auto.
Qed.

Context (terminal : uuid → RequestLogEvent D T) (submitted : uuid → Prop).

(** C29: the spool never outgrows its limit: in a running process that has not
    latched a failure, the log and the room reserved for the admitted requests
    together stay within [max_bytes] through every admission, append,
    synchronisation and turn of the ingest worker, faults included. *)
Theorem spool_stays_within_capacity (n n' : Node) m w m' w' :
  step terminal submitted n n' → n.(n_process) = Some (m, w) → n'.(n_process) = Some (m', w') →
  within_capacity m → within_capacity m'.
Proof.
  intros Hs Hn Hn' Hm. destruct Hs; cbn [n_process dead] in Hn, Hn'; simplify_eq.
  all: match goal with Hrun : ?p ?s = (_, ?e) |- _ =>
    assert (Hw : bounded p) by auto using sync_data_capacity, turn_capacity, admit_capacity, append_capacity;
    pose proof (wp_run _ _ _ _ _ _ _ (Hw s Hm) Hrun) as Hpost; destruct e; by simplify_eq/= end.
Qed.
End capacity.
