(* ===== verification/LogExamples.v ===== *)
(** * Executions of the request-log pipeline

    A concrete serializer for one family of events, the CRC-32 checksum and the
    identifiers as bytes, and executions of the pipeline with them. *)

From S2P Require Import Prelude Text Decimal Domain Billing Cost Json Journal Disk Spool Frames Recovery Ingest Pipeline Capacity.

(** ** Checksums and identifiers *)

(** CRC-32, bit by bit. *)
Definition crc_bit (c : Z) : Z :=
  let h := Z.shiftr c 1 in if Z.testbit c 0 then Z.lxor h 0xedb88320 else h.
Definition crc_byte (c b : Z) : Z := Nat.iter 8 crc_bit (Z.lxor c b).
Definition crc32_of (l : list Z) : Z :=
  Z.land (Z.lxor (foldl crc_byte 0xffffffff l) 0xffffffff) (Z.ones 32).

Definition id_bytes (u : uuid) : list Z := le_bytes 16 (Z.of_N u).
Definition id_of_bytes (l : list Z) : option uuid :=
  if (length l =? 16)%nat then Some (Z.to_N (from_le l)) else None.
Definition id_text (u : uuid) : string :=
  String.string_of_list_ascii (map (λ b, Ascii.ascii_of_N (Z.to_N b)) (id_bytes u)).
Definition id_parse (s : string) : option uuid :=
  id_of_bytes (map (λ a, Z.of_N (Ascii.N_of_ascii a)) (String.list_ascii_of_string s)).

#[export] Instance example_deps : SpoolDeps unit := {
  crc32 := crc32_of;
  uuid_bytes := id_bytes;
  uuid_of_bytes := id_of_bytes;
  uuid_text := id_text;
  uuid_parse := id_parse;
  intent_to_vec i := Some (123 :: id_bytes i.(in_id) ++ [125]);
}.

Lemma le_bytes_ok n v : 0 ≤ n → bytes_ok (le_bytes n v).
Proof. intros Hn. by apply (Z_to_little_endian_bound n 8 v). Qed.

Lemma id_of_id_bytes u : uuid_ok u → id_of_bytes (id_bytes u) = Some u.
Proof.
  intros Hu. unfold uuid_ok in Hu. unfold id_of_bytes, id_bytes. rewrite le_bytes_length by lia. cbn [Nat.eqb Z.to_nat Pos.to_nat].
  change (Z.to_nat 16 =? 16)%nat with true. cbn iota.
  rewrite from_le_le_bytes by lia. by rewrite N2Z.id.
Qed.

#[export] Instance example_deps_laws : SpoolDepsLaws unit.
Proof.
  split.
  - intros l. simpl. unfold crc32_of. rewrite Z.land_ones by lia. apply Z.mod_pos_bound. lia.
  - intros u. apply le_bytes_length. lia.
  - intros u. by apply le_bytes_ok.
  - apply id_of_id_bytes.
  - intros u Hu. simpl. unfold id_parse, id_text. rewrite String.list_ascii_of_string_of_list_ascii, map_map.
    rewrite (map_ext_Forall _ id), map_id; [by apply id_of_id_bytes|].
    eapply Forall_impl; [by apply (le_bytes_ok 16 (Z.of_N u))|]. intros b Hb. unfold id; cbn beta in *. rewrite Ascii.N_ascii_embedding; lia.
Qed.

(** ** Events *)

Definition event (n : uuid) : RequestLogEvent unit unit :=
  {| ev_id := n; ev_started_at := tt; ev_completed_at := tt; ev_user_id := 7%N; ev_api_key_id := 8%N;
     ev_request_source := Client; ev_api_format := ApiFormat.OpenAiResponses;
     ev_api_operation := ApiOperation.legacy_default ApiFormat.OpenAiResponses;
     ev_request_protocol := RequestProtocol.from_http_streamed false; ev_client_model := "gpt";
     ev_reasoning_effort := None; ev_fast_mode := false; ev_upstream_model := None; ev_model_rule_id := None;
     ev_channel_group_id := None; ev_channel_id := None; ev_upstream_credential := None; ev_model_id := None;
     ev_outcome := Succeeded; ev_response_status_code := Some 200; ev_streamed := false; ev_ttft_ms := None;
     ev_total_duration_ms := 12; ev_billing := None; ev_error_code := None; ev_error_summary := None |}.

#[local] Instance RequestLogSource_eq_dec : EqDecision RequestLogSource.
Proof. solve_decision. Defined.
#[local] Instance RequestLogOutcome_eq_dec : EqDecision RequestLogOutcome.
Proof. solve_decision. Defined.
#[local] Instance RequestUsage_eq_dec : EqDecision RequestUsage.
Proof. solve_decision. Defined.
#[local] Instance RequestPriceSnapshot_eq_dec : EqDecision (RequestPriceSnapshot unit unit).
Proof. solve_decision. Defined.
#[local] Instance RequestBilling_eq_dec : EqDecision (RequestBilling unit unit).
Proof. solve_decision. Defined.
#[local] Instance RequestCredentialAttribution_eq_dec : EqDecision RequestCredentialAttribution.
Proof. solve_decision. Defined.
#[local] Instance RequestLogEvent_eq_dec : EqDecision (RequestLogEvent unit unit).
Proof. solve_decision. Defined.

(** The events above as objects with an identifier and a null credential. *)
Definition example_text (n : uuid) : list Z := 123 :: id_bytes n ++ [125].
Definition example_value (bytes : list Z) : option Json :=
  match bytes with
  | 123 :: l =>
      n ← id_of_bytes (take 16 l);
      Some (JObject [("id", JString (id_text n)); ("upstream_credential", JNull)])
  | [49] => Some (JNumber (Int 1))
  | _ => None
  end.
Definition example_event (v : Json) : option (RequestLogEvent unit unit) :=
  id ← value_get v "id"; id ← as_str id; id ← id_parse id; Some (event id).

#[export] Instance example_serde : EventSerde unit unit := {
  event_to_vec e := if bool_decide (e = event e.(ev_id)) && (e.(ev_id) <? 2 ^ 128)%N
                    then Some (example_text e.(ev_id)) else None;
  value_from_slice := example_value;
  event_from_slice bytes := example_value bytes ≫= example_event;
  event_from_value := example_event;
  probe_from_slice bytes := v ← example_value bytes; (value_get v "streamed" ≫= as_bool);
  format_from_value v := s ← as_str v; if String.eqb s "openai_responses" then Some ApiFormat.OpenAiResponses else None;
}.

#[export] Instance example_serde_laws : EventSerdeLaws unit unit.
Proof.
  split; intros e bytes; cbn [event_to_vec example_serde]; case_match eqn:Hc; intros [= <-].
  - apply andb_true_iff in Hc as [He%bool_decide_eq_true Hu%N.ltb_lt].
    exists (JObject [("id", JString (id_text e.(ev_id))); ("upstream_credential", JNull)]).
    split; [|split; [done|]].
    + cbn [value_from_slice example_serde example_value example_text].
      rewrite take_app_length' by (symmetry; by apply le_bytes_length). by rewrite id_of_id_bytes.
    + pose proof (uuid_parse_text (T := unit) _ Hu) as Hp. cbn [uuid_parse uuid_text example_deps] in Hp.
      cbn [event_from_value example_serde]. unfold example_event.
      change (value_get _ "id") with (Some (JString (id_text e.(ev_id)))).
      cbn [mbind option_bind as_str]. rewrite Hp. cbn [mbind option_bind]. by rewrite <- He.
  - unfold example_text. by rewrite app_comm_cons, last_snoc.
Qed.

(** ** Executions *)

Section run.
Context {D T : Type} `{EventSerde D T} `{SpoolDeps T}.
Context (terminal : uuid → RequestLogEvent D T) (no_spool : Spool).
Implicit Types (n : Node) (fs : list Outcome).

(** What happens next, each with its faults. *)
Inductive Action :=
| Start (fs : list Outcome) (threshold max min_free : Z)
| Arrive (fs : list Outcome) (i : RequestLogIntent T)
| Finish (fs : list Outcome) (id : uuid)
| Turn (fs : list Outcome) (batch : nat)  (** a turn whose batch the database accepts *)
| Kill.

Definition on n (f : Spool → option Z → Node) : Node :=
  match n.(n_process) with Some (m, w) => f m w | None => n end.

Definition act n (a : Action) : Node :=
  let d := n.(n_disk) in
  match a with
  | Start fs threshold max min_free =>
      match n.(n_process) with
      | Some _ => n
      | None =>
          match start_inner threshold max min_free {| disk := d; faults := fs; mem := no_spool |} with
          | (s, Done p) => {| n_disk := s.(disk); n_process := Some (s.(mem), Some p);
                              n_accepted := n.(n_accepted); n_acked := n.(n_acked) |}
          | (s, _) => dead s n.(n_accepted) n.(n_acked)
          end
      end
  | Arrive fs i => on n (λ m w,
      if (i.(in_id) <? 2 ^ 128)%N then
        let r := spool_admit i {| disk := d; faults := fs; mem := m |} in settle r.1 r.2 w n.(n_accepted) n.(n_acked)
      else n)
  | Finish fs id => on n (λ m w,
      if (id <? 2 ^ 128)%N then
        let r := append (terminal id) {| disk := d; faults := fs; mem := m |} in
        settle r.1 r.2 w n.(n_accepted) (if acknowledges m id r.2 then id :: n.(n_acked) else n.(n_acked))
      else n)
  | Turn fs batch => on n (λ m w,
      match w with
      | None => n
      | Some p =>
          let s := {| disk := d; faults := fs; mem := m |} in
          let stored := match (read_batch batch p s).2 with Done b => b.(records) | _ => [] end in
          let r := ingest_turn false false batch (λ l, Accepted (Z.of_nat (length l))) p s in
          settle r.1 r.2 (match r.2 with Done o => o | _ => None end) (stored ++ n.(n_accepted)) n.(n_acked)
      end)
  | Kill => on n (λ m w, dead {| disk := d; faults := []; mem := m |} n.(n_accepted) n.(n_acked))
  end.

Lemma act_step n a : rtc (step terminal (λ _, True)) n (act n a).
Proof.
  destruct n as [d [[m w]|] db acked], a; unfold act, on; cbn [n_disk n_process n_accepted n_acked]; try apply rtc_refl.
  - destruct (N.ltb_spec (in_id i) (2 ^ 128)); [|apply rtc_refl]. apply rtc_once.
    by apply (step_admit _ _ _ _ _ _ _ fs i _ _), surjective_pairing.
  - destruct (N.ltb_spec id (2 ^ 128)); [|apply rtc_refl]. apply rtc_once.
    by apply (step_append _ _ _ _ _ _ _ fs id _ _), surjective_pairing.
  - destruct w as [p|]; [|apply rtc_refl]. apply rtc_once.
    apply (step_turn _ _ _ _ _ _ _ _ fs false false batch (λ l, Accepted (Z.of_nat (length l)))); [..|apply surjective_pairing].
    + intros r Hr. apply elem_of_app. by right.
    + intros s1 b Hb _ r Hr. rewrite Hb. apply elem_of_app. by left.
  - apply rtc_once. apply step_kill.
  - destruct (start_inner _ _ _ _) as [s e] eqn:E. apply rtc_once.
    destruct e; [by eapply step_start|by eapply step_start_failed..].
Qed.

Lemma run_reachable l n : reachable terminal (λ _, True) n → reachable terminal (λ _, True) (foldl act n l).
Proof.
  revert n. induction l as [|a l IH]; intros n Hn; [done|]. apply IH. unfold reachable in *. by etransitivity; [|apply act_step].
Qed.
End run.

Definition no_spool : Spool :=
  {| w_end_offset := 0; w_failed := false; w_admissions := {| ids := ∅; retained_bytes := 0 |}; end_offset := 0;
     checkpoint_offset := 0; synced_offset := 0; compaction_threshold_bytes := 0; max_bytes := 0;
     min_free_bytes := 0; capacity_pressure := false |}.
Definition intent : RequestLogIntent unit :=
  {| in_version := 1; in_id := 5%N; in_user_id := 7%N; in_api_key_id := 8%N; in_model_id := 9%N; in_started_at := tt;
     in_api_operation := ApiOperation.ResponsesWebSocket; in_request_protocol := RequestProtocol.from_http_streamed false |}.
Definition run (l : list (Action (T := unit))) : Node := foldl (act event no_spool) initial l.

Lemma run_is_reachable l : reachable event (λ _, True) (run l).
Proof. apply run_reachable, rtc_refl. Qed.

(** The frame of a reserved request's event is not written: the log fails. *)
Definition log_fault : list Outcome :=
  replicate 6 completes ++ [{| verdict := Fails; written := 11; space := 0 |}].
(** A request is admitted; its event reaches the slot but not the log, which the
    second attempt reports; then the process dies. *)
Definition slot_actions : list (Action (T := unit)) :=
  [Start [] 4096 100000000 0; Arrive [] intent; Finish log_fault 5; Finish [] 5; Kill].
Definition slot_story : Node := run slot_actions.

(** A dead node that owes the event 5 to the database, and room to replay it. *)
Definition owes_event (n : Node) : bool :=
  bool_decide (n.(n_acked) = [5%N]) && bool_decide (n.(n_accepted) = [])
  && match n.(n_process) with None => true | _ => false end
  && (Z.of_nat (length n.(n_disk).(events)) + Z.of_nat (size n.(n_disk).(admissions)) * frame_limit <=? max_file_size).

Lemma owes_event_facts n : owes_event n = true →
  n.(n_acked) = [5%N] ∧ n.(n_accepted) = [] ∧ n.(n_process) = None ∧ room n.(n_disk).
Proof.
  intros [[[Hack Hacc]%andb_true_iff Hp]%andb_true_iff Hroom]%andb_true_iff.
  apply bool_decide_eq_true in Hack, Hacc. apply Z.leb_le in Hroom. by destruct (n_process n).
Qed.

Lemma slot_story_owes : owes_event slot_story = true.
Proof. vm_cast_no_check (eq_refl true). Qed.

(** The event that only its slot holds is in the log of the next process. *)
Lemma acknowledged_events_survive_witness : ∃ s p s' b r,
  start_inner 4096 100000000 0 {| disk := slot_story.(n_disk); faults := []; mem := no_spool |} = (s, Done p) ∧
  read_batch (S (length s.(disk).(events))) p s = (s', Done b) ∧ encode (event 5) = Ok r ∧ r ∈ b.(records).
Proof.
  destruct (owes_event_facts _ slot_story_owes) as (Hack & Hacc & Hp & Hroom).
  destruct (acknowledged_events_survive event (λ _, eq_refl) (λ _, True) slot_story 4096 100000000 0 no_spool
    (run_is_reachable slot_actions) Hp Hroom) as (s & p & s' & b & Hstart & Hread & Hall & _).
  rewrite Hack, Hacc in Hall. destruct (Hall 5%N) as (r & Hr & [Hin|Hin]); [by left|by inversion Hin|].
  exact (ex_intro _ s (ex_intro _ p (ex_intro _ s' (ex_intro _ b (ex_intro _ r (conj Hstart (conj Hread (conj Hr Hin)))))))).
Defined.

Lemma log_always_well_formed_witness : ∃ F k torn,
  slot_story.(n_disk).(events) = image F ++ torn ∧ torn_ok torn ∧ Forall (genuine event (λ _, True)) F ∧
  (k ≤ length F)%nat ∧ checkpoint_value slot_story.(n_disk) = Some (boundary F k) ∧
  ∀ r, r ∈ take k F → r ∈ slot_story.(n_accepted).
Proof. exact (log_always_well_formed event (λ _, eq_refl) (λ _, True) slot_story (run_is_reachable slot_actions)). Defined.

(** ** Power loss *)

(** What the medium keeps when the power fails: of the log a prefix with all that
    was synchronised, of the checkpoint any version that was renamed into place
    since the directory was last synchronised. *)
Definition power_loss (d d' : Disk) : Prop :=
  d'.(events) `prefix_of` d.(events) ∧ (d.(events_synced) ≤ length d'.(events))%nat ∧
  d'.(checkpoint_file) ∈ d.(checkpoint_file) :: d.(checkpoint_history) ∧ d'.(admissions) = d.(admissions) ∧
  d'.(locked) = false.

(** An event without a reservation is logged and ingested. *)
Definition ingested_actions : list (Action (T := unit)) := [Start [] 4096 100000000 0; Finish [] 5; Turn [] 10; Kill].
Definition ingested_story : Node := run ingested_actions.
(** The log was never synchronised: nothing of it is kept. *)
Definition log_lost (d : Disk) : Disk :=
  {| events := take d.(events_synced) d.(events); events_synced := d.(events_synced); checkpoint_file := d.(checkpoint_file);
     checkpoint_history := d.(checkpoint_history); checkpoint_temp := d.(checkpoint_temp); admissions := d.(admissions);
     locked := false |}.
Definition restart_refused (n : Node) : bool :=
  (n.(n_disk).(events_synced) <=? length n.(n_disk).(events))%nat &&
  match n.(n_process) with None => true | _ => false end &&
  match (start_inner 4096 100000000 0 {| disk := log_lost n.(n_disk); faults := []; mem := no_spool |}).2 with
  | Disk.Failed (InvalidCheckpoint checkpoint end_) => (checkpoint =? 50) && (end_ =? 0)
  | _ => false
  end.

Lemma restart_refused_holds : restart_refused ingested_story = true.
Proof. vm_cast_no_check (eq_refl true). Qed.

Lemma log_lost_power_loss d : (d.(events_synced) ≤ length d.(events))%nat → power_loss d (log_lost d).
Proof.
  intros Hs. unfold power_loss. cbn [log_lost events checkpoint_file admissions locked]. rewrite length_take.
  split; [by exists (drop (events_synced d) (events d)); rewrite take_drop|]. split; [lia|]. split; [by left|done].
Qed.

Lemma power_loss_refused n : reachable event (λ _, True) n → restart_refused n = true →
  ∃ n d',
  reachable event (λ _, True) n ∧ n.(n_process) = None ∧ power_loss n.(n_disk) d' ∧
  ∃ checkpoint end_, (start_inner 4096 100000000 0 {| disk := d'; faults := []; mem := no_spool |}).2
    = Disk.Failed (InvalidCheckpoint checkpoint end_).
Proof.
  intros Hn [[Hs%Nat.leb_le Hd]%andb_true_iff Hf]%andb_true_iff. exists n, (log_lost n.(n_disk)).
  split; [done|]. split; [by destruct (n_process n)|]. split; [by apply log_lost_power_loss|].
  destruct (start_inner _ _ _ _).2 as [|[]| |]; try done. by eexists _, _.
Qed.

(** C38: A power failure can leave a spool that does not open: the checkpoint of
    ingested events is on the medium, the frames it covers are not, since
    neither [checkpoint] nor [sync_data] synchronises a log that is ingested. *)
Theorem power_loss_can_refuse_restart : ∃ n d',
  reachable event (λ _, True) n ∧ n.(n_process) = None ∧ power_loss n.(n_disk) d' ∧
  ∃ checkpoint end_, (start_inner 4096 100000000 0 {| disk := d'; faults := []; mem := no_spool |}).2
    = Disk.Failed (InvalidCheckpoint checkpoint end_).
Proof.
  exact (power_loss_refused ingested_story (run_is_reachable ingested_actions) restart_refused_holds).
Qed.

(** ** Codec and capacity *)

Lemma journal_round_trip_witness :
  let r := {| request_log_id := 5%N; schema_version := 8; payload := example_text 5 |} in
  encode (event 5) = Ok r ∧ decode r = Ok (event 5).
Proof.
  assert (He : encode (event 5) = Ok {| request_log_id := 5%N; schema_version := 8; payload := example_text 5 |})
    by reflexivity.
  split; [exact He|exact (journal_round_trip _ _ He)].
Defined.

(** An idle process, and the same process with an admitted request. *)
Definition idle_node : Node :=
  {| n_disk := empty_disk;
     n_process := Some ({| w_end_offset := 0; w_failed := false; w_admissions := {| ids := ∅; retained_bytes := 0 |};
       end_offset := 0; checkpoint_offset := 0; synced_offset := 0; compaction_threshold_bytes := 4096;
       max_bytes := 100000000; min_free_bytes := 0; capacity_pressure := false |}, None);
     n_accepted := []; n_acked := [] |}.
Definition busy_node : Node := act event no_spool idle_node (Arrive [] intent).

Definition running (n : Node) : bool := match n.(n_process) with Some (_, None) => true | _ => false end.
Lemma busy_running : running busy_node = true.
Proof. vm_cast_no_check (eq_refl true). Qed.

Lemma running_process n : running n = true → ∃ m, n.(n_process) = Some (m, None).
Proof. unfold running. destruct (n_process n) as [[m [|]]|]; [done|by exists m|done]. Qed.

Lemma idle_within m w : idle_node.(n_process) = Some (m, w) → within_capacity m.
Proof. intros [= <- <-] _. by vm_compute. Qed.

Lemma spool_stays_within_capacity_witness : ∃ m', busy_node.(n_process) = Some (m', None) ∧ within_capacity m'.
Proof.
  destruct (running_process _ busy_running) as [m' Hm'].
  exact (ex_intro _ m' (conj Hm' (spool_stays_within_capacity event (λ _, True) idle_node busy_node _ _ m' None
    (step_admit event (λ _, True) empty_disk _ None [] [] [] intent _ _ eq_refl (surjective_pairing _)) eq_refl Hm'
    (idle_within _ _ eq_refl)))).
Defined.

(** ** A torn slot header *)

(** The slot of [r] when only the first half of its header was written. *)
Definition torn_slot {T} `{SpoolDeps T} (r : EncodedRequestLog) (unused : Z) : File :=
  {| data := take 8 (slot_header r) ++ replicate 8 0 ++ r.(payload); hole := unused |}.


