(* ===== verification/Usage.v ===== *)
(** * Token usage of a response

    Models [crates/connector-sdk/src/usage.rs] (the normalisation of an
    upstream's usage object into token counters) and the parser part of
    [src/application/usage.rs].  The JSON printer and parser are third-party code
    ([JsonText]); a connector plugin is code the host loads ([plugin_call]). *)

From S2P Require Import Prelude Text Domain Json.

(** ** JSON text *)

Class JsonText : Type := {
  from_slice : str → option Json;   (** [serde_json::from_slice::<Value>] *)
  to_vec : Json → str;              (** what [serde_json::to_writer] writes *)
  pretty : Json → str;              (** what [serde_json::to_writer_pretty] writes *)
  number_text : Number → str;       (** [Number::to_string] *)
}.

Definition is_object (v : Json) : bool := match v with JObject _ => true | _ => false end.
Definition is_null (v : Json) : bool := match v with JNull => true | _ => false end.
Definition as_array (v : Json) : option (list Json) := match v with JArray l => Some l | _ => None end.

(** [i64::checked_add] of non-negative numbers. *)
Definition checked_add_i64 (a b : Z) : option Z := if a + b <=? i64_max then Some (a + b) else None.

(** ** Counters *)

Definition MAX_USAGE_BYTES : nat := 64 * 1024.
Definition MAX_USAGE_INTERFACE_BYTES : nat := 64.

Inductive UsageFormat := UOpenAiChatCompletions | UOpenAiResponses | UOpenAiImages | UAnthropicMessages.
#[export] Instance UsageFormat_eq_dec : EqDecision UsageFormat.
Proof. solve_decision. Defined.

Record CanonicalUsage := {
  cu_input_tokens : Z;
  cu_cached_input_tokens : Z;
  cu_cache_write_tokens : Z;
  cu_output_tokens : Z;
  cu_reasoning_tokens : Z;
}.

Definition usage_validate (u : CanonicalUsage) : bool :=
  (0 <=? u.(cu_input_tokens)) && (0 <=? u.(cu_cached_input_tokens)) && (0 <=? u.(cu_cache_write_tokens))
  && (0 <=? u.(cu_output_tokens)) && (0 <=? u.(cu_reasoning_tokens))
  && (u.(cu_cached_input_tokens) <=? u.(cu_input_tokens)) && (u.(cu_cache_write_tokens) <=? u.(cu_input_tokens))
  && (u.(cu_reasoning_tokens) <=? u.(cu_output_tokens)).

Definition token (v : option Json) : option Z :=
  v ← v; n ← as_i64 v; if 0 <=? n then Some n else None.

(** [Ok(None)] is [Some None], [Err(())] is [None]. *)
Definition optional_token (usage : Json) (key : string) : option (option Z) :=
  match value_get usage key with None => Some None | Some v => Some <$> token (Some v) end.

Definition details (usage : Json) (key : string) : option (option Json) :=
  match value_get usage key with
  | None | Some JNull => Some None
  | Some v => if is_object v then Some (Some v) else None
  end.

Definition detail_token (d : option Json) (key : string) : option (option Z) :=
  match d with None => Some None | Some d => optional_token d key end.

Definition or {A} (a b : option A) : option A := match a with Some _ => a | None => b end.

Section sdk.
Context `{JsonText}.

(** The counting writer fails once more than [limit] bytes are written. *)
Definition serialized_within (v : Json) (limit : nat) : bool := (length (to_vec v) <=? limit)%nat.

Definition anthropic_usage (usage : Json) : option CanonicalUsage :=
  uncached ← token (value_get usage "input_tokens");
  cached ← optional_token usage "cache_read_input_tokens";
  written ← optional_token usage "cache_creation_input_tokens";
  let cached := default 0 cached in
  let written := default 0 written in
  input ← checked_add_i64 uncached cached;
  input ← checked_add_i64 input written;
  output ← token (value_get usage "output_tokens");
  Some {| cu_input_tokens := input; cu_cached_input_tokens := cached; cu_cache_write_tokens := written;
          cu_output_tokens := output; cu_reasoning_tokens := 0 |}.

Definition openai_usage (chat : bool) (usage : Json) : option CanonicalUsage :=
  let '(input, output, input_details, output_details) :=
    if chat then ("prompt_tokens", "completion_tokens", "prompt_tokens_details", "completion_tokens_details")
    else ("input_tokens", "output_tokens", "input_tokens_details", "output_tokens_details") in
  input_details ← details usage input_details;
  output_details ← details usage output_details;
  nested_cached ← detail_token input_details "cached_tokens";
  cached ← (if chat then
              hit ← optional_token usage "prompt_cache_hit_tokens";
              _ ← optional_token usage "prompt_cache_miss_tokens";
              Some (or hit nested_cached)
            else Some nested_cached);
  written ← detail_token input_details "cache_write_tokens";
  creation ← detail_token input_details "cache_creation_tokens";
  input ← token (value_get usage input);
  output ← token (value_get usage output);
  reasoning ← detail_token output_details "reasoning_tokens";
  Some {| cu_input_tokens := input; cu_cached_input_tokens := default 0 cached;
          cu_cache_write_tokens := default 0 (or written creation);
          cu_output_tokens := output; cu_reasoning_tokens := default 0 reasoning |}.

Definition parse_general_usage (format : UsageFormat) (usage : Json) : option CanonicalUsage :=
  if negb (is_object usage) || negb (serialized_within usage MAX_USAGE_BYTES) then None
  else
    parsed ← match format with
             | UAnthropicMessages => anthropic_usage usage
             | _ => openai_usage (bool_decide (format = UOpenAiChatCompletions)) usage
             end;
    if usage_validate parsed then Some parsed else None.
End sdk.

Definition interface_byte (c : Ascii.ascii) : bool :=
  is_ascii_lowercase c || is_ascii_digit c || contains_byte c (bytes_of "_-./").
Definition valid_interface (interface : str) : bool :=
  match interface with
  | [] => false
  | c :: _ => (length interface <=? MAX_USAGE_INTERFACE_BYTES)%nat && forallb interface_byte interface
              && is_ascii_lowercase c
  end.

(** ** The configured parser *)

Record ResponseUsage := {
  ru_input_tokens : Z;
  ru_cached_input_tokens : Z;
  ru_cache_write_tokens : Z;
  ru_output_tokens : Z;
  ru_reasoning_tokens : Z;
}.
Definition response_usage (u : CanonicalUsage) : ResponseUsage :=
  {| ru_input_tokens := u.(cu_input_tokens); ru_cached_input_tokens := u.(cu_cached_input_tokens);
     ru_cache_write_tokens := u.(cu_cache_write_tokens); ru_output_tokens := u.(cu_output_tokens);
     ru_reasoning_tokens := u.(cu_reasoning_tokens) |}.

(** A loaded connector and the derived reader of its answer. *)
Class UsagePlugin (P : Type) : Type := {
  plugin_call : P → string → Json → str → option (Json * str);  (** [Plugin::call]: metadata and body *)
  output_from_value : Json → option (option CanonicalUsage);    (** [from_value::<UsageParseOutput>] *)
}.

Inductive UsageParserConfig (P : Type) :=
| General (format : UsageFormat)
| PluginParser (plugin : P) (operation : ApiOperation.t) (interface : string).
Arguments General {P} format.
Arguments PluginParser {P} plugin operation interface.

Definition default_usage_format (f : ApiFormat.t) : UsageFormat :=
  match f with
  | ApiFormat.OpenAiChatCompletions => UOpenAiChatCompletions
  | ApiFormat.OpenAiResponses => UOpenAiResponses
  | ApiFormat.OpenAiImages => UOpenAiImages
  end.

Definition for_operation {P} (operation : ApiOperation.t) : UsageParserConfig P :=
  General (default_usage_format (ApiOperation.api_format operation)).

Definition usage_object (value : Json) : option Json :=
  or (value_get value "usage")
    (or (value_get value "response" ≫= λ r, value_get r "usage")
        (value_get value "message" ≫= λ m, value_get m "usage")).

(** The counters of a stream, the last values seen: [None] once a counter was
    reported with a value that is not a count. *)
Record AnthropicUsageSnapshot := {
  sn_input : option Z;
  sn_cached : option Z;
  sn_written : option Z;
  sn_output : option Z;
}.
Definition snapshot_default : AnthropicUsageSnapshot :=
  {| sn_input := None; sn_cached := Some 0; sn_written := Some 0; sn_output := None |}.
Definition invalidated : AnthropicUsageSnapshot :=
  {| sn_input := None; sn_cached := None; sn_written := None; sn_output := None |}.

(** One counter of [observe]. *)
Definition observe_counter (value : Json) (key : string) (counter : option Z) : option Z :=
  match value_get value key with Some v => token (Some v) | None => counter end.
Definition count (n : Z) : Json := JNumber (Int n).

Definition snapshot_observe (value : Json) (s : AnthropicUsageSnapshot) : AnthropicUsageSnapshot * option Json :=
  let s := {| sn_input := observe_counter value "input_tokens" s.(sn_input);
              sn_cached := observe_counter value "cache_read_input_tokens" s.(sn_cached);
              sn_written := observe_counter value "cache_creation_input_tokens" s.(sn_written);
              sn_output := observe_counter value "output_tokens" s.(sn_output) |} in
  (s, input ← s.(sn_input); cached ← s.(sn_cached); written ← s.(sn_written); output ← s.(sn_output);
      Some (JObject [("cache_creation_input_tokens", count written); ("cache_read_input_tokens", count cached);
                     ("input_tokens", count input); ("output_tokens", count output)])).

Section parser.
Context `{JsonText} {P : Type} `{UsagePlugin P}.

(** The bounded writer fails once more than [MAX_USAGE_BYTES] are written. *)
Definition bounded_usage_body (v : Json) : option str :=
  if is_object v && serialized_within v MAX_USAGE_BYTES then Some (to_vec v) else None.

Definition input_validate_bounds (operation interface : string) (body : str) : bool :=
  existsb (String.eqb operation)
    ["chat_completion"; "responses"; "responses-ws"; "web_search"; "images_generation"; "images_edit"]
  && valid_interface (bytes_of interface) && (length body <=? MAX_USAGE_BYTES)%nat
  && match from_slice body with Some v => is_object v | None => false end.

Definition parse_plugin (plugin : P) (operation : ApiOperation.t) (interface : string) (usage : Json)
  : option ResponseUsage :=
  body ← bounded_usage_body usage;
  if negb (input_validate_bounds (ApiOperation.as_str operation) interface body) then None
  else
    out ← plugin_call plugin "usage.parse/v1"
      (JObject [("interface", JString interface); ("operation", JString (ApiOperation.as_str operation))]) body;
    if negb (length out.2 =? 0)%nat || bool_decide (value_get out.1 "usage" = None) then None
    else
      output ← output_from_value out.1;
      if match output with None => true | Some u => usage_validate u end then response_usage <$> output else None.

Definition parser_parse (config : UsageParserConfig P) (usage : Json) (partial : AnthropicUsageSnapshot)
  : AnthropicUsageSnapshot * option ResponseUsage :=
  match config with
  | General UAnthropicMessages =>
      match bounded_usage_body usage with
      | None => (invalidated, None)
      | Some _ =>
          let '(partial, value) := snapshot_observe usage partial in
          (partial, v ← value; response_usage <$> parse_general_usage UAnthropicMessages v)
      end
  | General format => (partial, response_usage <$> parse_general_usage format usage)
  | PluginParser plugin operation interface => (partial, parse_plugin plugin operation interface usage)
  end.
End parser.
