(* ===== verification/ErrorText.v ===== *)
(** * Error texts of upstream responses

    Models the error part of [src/application/usage.rs]: the sanitised,
    bounded code and summary that a failed response leaves in the request log.
    A character is its UTF-8 encoding, a text the list of its characters;
    [from_utf8_lossy] and the [char] predicates of the standard library are
    written out. *)

From S2P Require Import Prelude Text Json Usage.

Definition MAX_ERROR_CODE_BYTES : nat := 100.
Definition MAX_ERROR_SUMMARY_BYTES : nat := 16 * 1024.

(** ** Characters *)

(** A character and the number of bytes of its encoding ([len_utf8]). *)
Abbreviation char := (list Ascii.ascii) (only parsing).
Abbreviation text := (list (list Ascii.ascii)) (only parsing).

Definition ascii_z (z : Z) : Ascii.ascii := Ascii.ascii_of_N (Z.to_N z).
(** [U+FFFD] and the horizontal ellipsis. *)
Definition replacement : char := ascii_z <$> [239; 191; 189].
Definition ELLIPSIS : char := ascii_z <$> [226; 128; 166].

Definition in_range (lo hi : Z) (c : option Ascii.ascii) : bool :=
  match c with Some c => (lo <=? byte c) && (byte c <=? hi) | None => false end.

(** The range of the second byte of a sequence that starts with [b]. *)
Definition second_range (b : Z) : Z * Z :=
  if b =? 224 then (160, 191) else if b =? 237 then (128, 159)
  else if b =? 240 then (144, 191) else if b =? 244 then (128, 143) else (128, 191).

(** The length of the character at the head of [s], or the number of bytes that
    one replacement character stands for: the longest proper prefix of a valid
    sequence, at least one byte. *)
Definition head_char (s : str) : bool * nat :=
  match s with
  | [] => (true, 0%nat)
  | c :: s' =>
      let b := byte c in
      let '(lo, hi) := second_range b in
      if b <? 128 then (true, 1%nat)
      else if (194 <=? b) && (b <=? 223) then (if in_range 128 191 (head s') then (true, 2%nat) else (false, 1%nat))
      else if (224 <=? b) && (b <=? 239) then
        if in_range lo hi (head s') then
          (if in_range 128 191 (s' !! 1%nat) then (true, 3%nat) else (false, 2%nat))
        else (false, 1%nat)
      else if (240 <=? b) && (b <=? 244) then
        if in_range lo hi (head s') then
          if in_range 128 191 (s' !! 1%nat) then
            (if in_range 128 191 (s' !! 2%nat) then (true, 4%nat) else (false, 3%nat))
          else (false, 2%nat)
        else (false, 1%nat)
      else (false, 1%nat)
  end.

(** [String::from_utf8_lossy], and [chars] of a valid string; every step takes a
    byte. *)
Fixpoint lossy_chars (fuel : nat) (s : str) : text :=
  match fuel, s with
  | O, _ | _, [] => []
  | S fuel, _ =>
      let '(valid, n) := head_char s in
      (if valid then take n s else replacement) :: lossy_chars fuel (drop n s)
  end.
Definition chars (s : str) : text := lossy_chars (length s) s.

(** The scalar value of a one- or two-byte character; all others are above the
    control characters. *)
Definition is_control (c : char) : bool :=
  match c with
  | [b] => (byte b <? 32) || (byte b =? 127)
  | [b; b'] => (byte b =? 194) && (byte b' <? 160)
  | _ => false
  end.
Definition is_whitespace (c : char) : bool := bool_decide (byte <$> c ∈ whitespace_encodings).

Definition text_len (t : text) : nat := length (concat t).

Fixpoint trim_chars (t : text) : text :=
  match t with c :: t' => if is_whitespace c then trim_chars t' else t | [] => [] end.
(** [str::trim] *)
Definition trim_text (t : text) : text := rev (trim_chars (rev (trim_chars t))).

(** ** [sanitize_error_text] *)

Definition CR : char := [ascii_z 13].
Definition LF : char := [ascii_z 10].
Definition TAB : char := [ascii_z 9].
Definition SPACE : char := [ascii_z 32].

(** The loop over the characters: the text, and whether it was cut. *)
Fixpoint sanitize_loop (maximum : nat) (multiline previous_was_cr : bool) (sanitized : text) (t : text) : text * bool :=
  match t with
  | [] => (sanitized, false)
  | c :: t' =>
      let push c cr :=
        if (maximum <? text_len sanitized + length c)%nat then (sanitized, true)
        else sanitize_loop maximum multiline cr (sanitized ++ [c]) t' in
      if bool_decide (c = CR) && multiline then push LF true
      else if bool_decide (c = LF) && multiline && previous_was_cr
      then sanitize_loop maximum multiline false sanitized t'
      else if (bool_decide (c = LF) || bool_decide (c = TAB)) && multiline then push c false
      else if is_control c then push SPACE false
      else push c false
  end.

(** The longest prefix of at most [target] bytes. *)
Fixpoint truncate_text (target : nat) (t : text) : text :=
  match t with
  | [] => []
  | c :: t' => if (length c <=? target)%nat then c :: truncate_text (target - length c) t' else []
  end.

Definition sanitize_error_text (value : text) (maximum : nat) (multiline force_truncated : bool) : option text :=
  let '(sanitized, cut) := sanitize_loop maximum multiline false [] value in
  match trim_text sanitized with
  | [] => None
  | trimmed =>
      Some (if force_truncated || cut then truncate_text (maximum - length ELLIPSIS) trimmed ++ [ELLIPSIS]
            else trimmed)
  end.

(** ** Details of an error *)

Record ResponseErrorDetails := { err_code : option text; err_summary : option text }.

Definition from_message (code : option text) (message : text) : ResponseErrorDetails :=
  {| err_code := code ≫= λ c, sanitize_error_text c MAX_ERROR_CODE_BYTES false false;
     err_summary := sanitize_error_text message MAX_ERROR_SUMMARY_BYTES true false |}.

Definition not_null (v : option Json) : option Json :=
  v ← v; if is_null v then None else Some v.

Section details.
Context `{JsonText}.

Definition error_scalar (v : Json) : option str :=
  match v with
  | JString s => Some (bytes_of s)
  | JNumber n => Some (number_text n)
  | JBool b => Some (bytes_of (if b then "true" else "false"))
  | JNull | JArray _ | JObject _ => None
  end.

(** [to_writer_pretty] into the bounded writer: it keeps the first [limit] bytes
    and fails when there are more. *)
Definition bounded_pretty (v : Json) (limit : nat) : str * bool :=
  (take limit (pretty v), (limit <? length (pretty v))%nat).

Definition render_error_summary (value : Json) (message : option str) : option text :=
  match value with
  | JString s => sanitize_error_text (chars (bytes_of s)) MAX_ERROR_SUMMARY_BYTES true false
  | _ =>
      let summary := default []
        (m ← message; sanitize_error_text (chars m) MAX_ERROR_SUMMARY_BYTES true false) in
      let summary := if (text_len summary <? MAX_ERROR_SUMMARY_BYTES)%nat && negb (length summary =? 0)%nat
                     then summary ++ [LF; LF] else summary in
      let '(bytes, truncated) := bounded_pretty value (MAX_ERROR_SUMMARY_BYTES - text_len summary) in
      sanitize_error_text (summary ++ chars bytes) MAX_ERROR_SUMMARY_BYTES true truncated
  end.

Definition extract_response_error (value : Json) : ResponseErrorDetails :=
  let nested := or (not_null (value_get value "error"))
    (not_null (value_get value "response" ≫= λ r, value_get r "error")) in
  let code := or
    (e ← nested; or (value_get e "code" ≫= error_scalar) (value_get e "type" ≫= error_scalar))
    (value_get value "code" ≫= error_scalar) in
  let message := or
    (e ← nested; match e with
                 | JString m => Some (bytes_of m)
                 | JObject _ => bytes_of <$> (value_get e "message" ≫= as_str)
                 | _ => None
                 end)
    (bytes_of <$> (value_get value "message" ≫= as_str)) in
  {| err_code := code ≫= λ c, sanitize_error_text (chars c) MAX_ERROR_CODE_BYTES false false;
     err_summary := render_error_summary value message |}.
End details.

(** ** Bounded capture of an error body *)

Record ErrorBodyCapture := { cap_bytes : str; cap_truncated : bool }.
Definition capture_default : ErrorBodyCapture := {| cap_bytes := []; cap_truncated := false |}.

Definition capture_push (bytes : str) (c : ErrorBodyCapture) : ErrorBodyCapture :=
  let remaining := (MAX_ERROR_SUMMARY_BYTES - length c.(cap_bytes))%nat in
  let copied := (remaining `min` length bytes)%nat in
  {| cap_bytes := c.(cap_bytes) ++ take copied bytes;
     cap_truncated := c.(cap_truncated) || (copied <? length bytes)%nat |}.

Definition capture_details `{JsonText} (c : ErrorBodyCapture) : option ResponseErrorDetails :=
  match c.(cap_bytes) with
  | [] => None
  | bytes =>
      match (if c.(cap_truncated) then None else from_slice bytes) with
      | Some value => Some (extract_response_error value)
      | None => Some {| err_code := None;
          err_summary := sanitize_error_text (chars bytes) MAX_ERROR_SUMMARY_BYTES true c.(cap_truncated) |}
      end
  end.

(** ** Lemmas *)

Lemma text_len_app t t' : text_len (t ++ t') = (text_len t + text_len t')%nat.
Proof. unfold text_len. by rewrite concat_app, length_app. Qed.
Lemma text_len_single c : text_len [c] = length c.
Proof. unfold text_len. simpl. by rewrite app_nil_r. Qed.

(** The characters a sanitised text may have. *)
Definition clean (multiline : bool) (c : char) : Prop :=
  is_control c = false ∨ multiline = true ∧ (c = LF ∨ c = TAB).

Lemma clean_space multiline : clean multiline SPACE.
Proof. by left. Qed.
Lemma clean_lf : clean true LF.
Proof. right. auto. Qed.
Lemma clean_ellipsis multiline : clean multiline ELLIPSIS.
Proof. by left. Qed.
#[local] Hint Resolve clean_space clean_lf clean_ellipsis : core.

Lemma sanitize_loop_ok maximum multiline t : ∀ cr acc,
  (text_len acc ≤ maximum)%nat → Forall (clean multiline) acc →
  let '(r, _) := sanitize_loop maximum multiline cr acc t in (text_len r ≤ maximum)%nat ∧ Forall (clean multiline) r.
Proof.
  induction t as [|c t IH]; intros cr acc Hlen Hacc; cbn [sanitize_loop]; [done|].
  assert (Hpush : ∀ c cr, clean multiline c →
    let '(r, _) := if (maximum <? text_len acc + length c)%nat then (acc, true)
      else sanitize_loop maximum multiline cr (acc ++ [c]) t in (text_len r ≤ maximum)%nat ∧ Forall (clean multiline) r).
  { intros c' cr' Hc. destruct (Nat.ltb_spec maximum (text_len acc + length c')); [done|].
    apply IH; [rewrite text_len_app, text_len_single; lia|apply Forall_app; auto]. }
  destruct (bool_decide (c = CR) && multiline) eqn:E1; [apply andb_true_iff in E1 as [_ ->]; by apply Hpush|].
  destruct (bool_decide (c = LF) && multiline && cr); [by apply IH|].
  destruct ((bool_decide (c = LF) || bool_decide (c = TAB)) && multiline) eqn:E2.
  - apply andb_true_iff in E2 as [Hc ->]. apply Hpush. right. split; [done|].
    apply orb_true_iff in Hc as [->%bool_decide_eq_true| ->%bool_decide_eq_true]; auto.
  - destruct (is_control c) eqn:Hctl; apply Hpush; [done|by left].
Qed.

Lemma trim_chars_suffix t : ∃ p, t = p ++ trim_chars t.
Proof.
  induction t as [|c t [p IH]]; simpl; [by exists []|]. destruct (is_whitespace c); [|by exists []].
  exists (c :: p). simpl. by f_equal.
Qed.

(** [trim] keeps a contiguous part. *)
Lemma trim_text_infix t : ∃ p q, t = p ++ trim_text t ++ q.
Proof.
  unfold trim_text. destruct (trim_chars_suffix t) as [p Hp]. destruct (trim_chars_suffix (rev (trim_chars t))) as [q Hq].
  exists p, (rev q). rewrite Hp at 1. f_equal. rewrite <- rev_app_distr, <- Hq. by rewrite rev_involutive.
Qed.

Lemma truncate_text_ok target t : (text_len (truncate_text target t) ≤ target)%nat ∧ truncate_text target t `prefix_of` t.
Proof.
  revert target. induction t as [|c t IH]; intros target; simpl; [split; [apply Nat.le_0_l|done]|].
  destruct (Nat.leb_spec (length c) target); [|split; [apply Nat.le_0_l|apply prefix_nil]].
  destruct (IH (target - length c)%nat) as [Hl Hp]. split; [|by apply prefix_cons].
  unfold text_len in *. simpl. rewrite length_app. lia.
Qed.

Lemma Forall_prefix {A} (P : A → Prop) l l' : l `prefix_of` l' → Forall P l' → Forall P l.
Proof. intros [k ->] [? _]%Forall_app. done. Qed.

(** Sanitised texts are bounded, not empty and free of control characters. *)
Lemma sanitize_ok value maximum multiline force t : (length ELLIPSIS ≤ maximum)%nat →
  sanitize_error_text value maximum multiline force = Some t →
  (text_len t ≤ maximum)%nat ∧ t ≠ [] ∧ Forall (clean multiline) t.
Proof.
  intros Hmax. unfold sanitize_error_text.
  pose proof (sanitize_loop_ok maximum multiline value false [] (Nat.le_0_l _) (Forall_nil_2 _)) as Hloop.
  destruct (sanitize_loop _ _ _ _ _) as [s cut]. destruct Hloop as [Hlen Hclean].
  destruct (trim_text_infix s) as (p & q & Hs).
  assert (Htl : (text_len (trim_text s) ≤ maximum)%nat ∧ Forall (clean multiline) (trim_text s)).
  { rewrite Hs in Hlen, Hclean. rewrite !text_len_app in Hlen. apply Forall_app in Hclean as [_ [Hc _]%Forall_app].
    split; [lia|done]. }
  destruct Htl as [Htl Htc]. destruct (trim_text s) as [|c t'] eqn:Et; [done|]. rewrite <- Et in *.
  intros [= <-]. destruct (force || cut); [|by rewrite Et in *].
  destruct (truncate_text_ok (maximum - length ELLIPSIS) (trim_text s)) as [Hl Hp].
  split_and!; [|by destruct (truncate_text _ _)|apply Forall_app; split; [by eapply Forall_prefix|by constructor]].
  rewrite text_len_app, text_len_single. change 3%nat with (length ELLIPSIS). lia.
Qed.

(** What is captured of an error body does not depend on how it is split. *)
Lemma capture_push_app a b c : (length c.(cap_bytes) ≤ MAX_ERROR_SUMMARY_BYTES)%nat →
  capture_push (a ++ b) c = capture_push b (capture_push a c).
Proof.
  intros Hc. unfold capture_push. cbn [cap_bytes cap_truncated].
  set (M := MAX_ERROR_SUMMARY_BYTES) in *. rewrite !length_app, length_take.
  f_equal.
  - rewrite <- app_assoc. f_equal. rewrite take_app.
    replace (take ((M - length (cap_bytes c)) `min` (length a + length b)) a)
      with (take ((M - length (cap_bytes c)) `min` length a) a).
    + f_equal. f_equal. lia.
    + destruct (decide (M - length (cap_bytes c) ≤ length a)%nat); [f_equal; lia|]. rewrite !take_ge by lia. done.
  - rewrite <- orb_assoc. f_equal. apply eq_true_iff_eq. rewrite orb_true_iff, !Nat.ltb_lt. lia.
Qed.
