(* ===== verification/Sse.v ===== *)
(** * Server-sent event frames

    Models the SSE part of [src/application/usage.rs]: the scanner that cuts a
    response stream into frames and what the gateway observes of a frame.  The
    properties relate the scanner to the frames of the unsplit stream. *)

From S2P Require Import Prelude Text Domain Json Usage ErrorText.

Definition MAX_SSE_FRAME_BYTES : Z := 8 * 1024 * 1024.

Definition is_cr (c : Ascii.ascii) : bool := byte c =? 13.
Definition is_lf (c : Ascii.ascii) : bool := byte c =? 10.

(** ** Frames *)

(** [index] and [line_start] are the loop's variables, [s] the bytes from
    [index] on. *)
Fixpoint frame_end_from (s : str) (index line_start : nat) : option nat :=
  match s with
  | [] => None
  | c :: s' =>
      if is_cr c then
        match s' with
        | d :: s'' =>
            if is_lf d then
              if (index =? line_start)%nat then Some (index + 2)%nat else frame_end_from s'' (index + 2) (index + 2)
            else if (index =? line_start)%nat then Some (index + 1)%nat else frame_end_from s' (index + 1) (index + 1)
        | [] => if (index =? line_start)%nat then Some (index + 1)%nat else None
        end
      else if is_lf c then
        if (index =? line_start)%nat then Some (index + 1)%nat else frame_end_from s' (index + 1) (index + 1)
      else frame_end_from s' (index + 1) line_start
  end.
Definition sse_frame_end (bytes : str) : option nat := frame_end_from bytes 0 0.

(** The line at the cursor and what follows its terminator. *)
Fixpoint take_line (s : str) : str * str :=
  match s with
  | [] => ([], [])
  | c :: s' =>
      if is_cr c then ([], match s' with d :: s'' => if is_lf d then s'' else s' | [] => [] end)
      else if is_lf c then ([], s')
      else let '(line, rest) := take_line s' in (c :: line, rest)
  end.
(** [next_sse_line]; the rest stands for the cursor. *)
Definition next_sse_line (s : str) : option (str * str) :=
  match s with [] => None | _ => Some (take_line s) end.

(** The bytes before and after the first colon. *)
Fixpoint split_colon (line : str) : option (str * str) :=
  match line with
  | [] => None
  | c :: line' =>
      if byte c =? 58 then Some ([], line')
      else '(field, value) ← split_colon line'; Some (c :: field, value)
  end.

Definition sse_field (line : str) : option (str * str) :=
  match line with
  | c :: _ => if byte c =? 58 then None
              else
                let '(field, value) := default (line, []) (split_colon line) in
                Some (field, default value (strip_prefix (bytes_of " ") value))
  | [] => Some ([], [])
  end.

(** The fields of a frame: its event name, its data and whether it has data. *)
Record SseFields := { sse_event : option str; sse_data : str; sse_has_data : bool }.
Definition no_fields : SseFields := {| sse_event := None; sse_data := []; sse_has_data := false |}.

Definition add_field (f : SseFields) (line : str) : SseFields :=
  match sse_field line with
  | None => f
  | Some (field, value) =>
      if bool_decide (field = bytes_of "event")
      then {| sse_event := Some value; sse_data := f.(sse_data); sse_has_data := f.(sse_has_data) |}
      else if bool_decide (field = bytes_of "data")
      then {| sse_event := f.(sse_event);
              sse_data := (if f.(sse_has_data) then f.(sse_data) ++ LF else f.(sse_data)) ++ value;
              sse_has_data := true |}
      else f
  end.

(** The line loop; every line takes at least a byte. *)
Fixpoint fields_loop (fuel : nat) (frame : str) (f : SseFields) : SseFields :=
  match fuel with
  | O => f
  | S fuel =>
      match next_sse_line frame with
      | None => f
      | Some ([], _) => f
      | Some (line, rest) => fields_loop fuel rest (add_field f line)
      end
  end.
Definition frame_fields (frame : str) : SseFields := fields_loop (length frame) frame no_fields.

(** ** What a frame says *)

Inductive SseTerminalOutcome := Completed | OutcomeFailed.
#[export] Instance SseTerminalOutcome_eq_dec : EqDecision SseTerminalOutcome.
Proof. solve_decision. Defined.

Record SseFrameObservation := {
  ob_value : option Json;
  ob_terminal : option SseTerminalOutcome;
  ob_error : option ResponseErrorDetails;
}.

(** [json!({"usage": null})] *)
Definition null_usage : Json := JObject [("usage", JNull)].

Definition named (event : option str) (names : list string) : bool :=
  match event with Some e => existsb (λ n, bool_decide (e = bytes_of n)) names | None => false end.
Definition typed (event_type : option string) (names : list string) : bool :=
  match event_type with Some t => existsb (String.eqb t) names | None => false end.

Definition failed_names : list string := ["response.failed"; "response.incomplete"; "response.cancelled"].

Section observe.
Context `{JsonText}.

Definition observe_fields (f : SseFields) (api_format : ApiFormat.t) : SseFrameObservation :=
  let value := if f.(sse_has_data) then from_slice f.(sse_data) else None in
  let event_type := value ≫= λ v, value_get v "type" ≫= as_str in
  let error_envelope := match value ≫= λ v, value_get v "error" with Some e => negb (is_null e) | None => false end in
  let responses := bool_decide (api_format = ApiFormat.OpenAiResponses) in
  let done := bool_decide (f.(sse_data) = bytes_of "[DONE]") in
  let failed := named f.(sse_event) ["error"] || typed event_type ["error"] || error_envelope
    || (responses && (named f.(sse_event) failed_names || typed event_type failed_names)) in
  let completed := done
    || (responses && (named f.(sse_event) ["response.completed"] || typed event_type ["response.completed"])) in
  {| ob_value := if completed && negb done && negb (match value with Some v => is_object v | None => false end)
                 then Some null_usage else value;
     ob_terminal := if failed then Some OutcomeFailed else if completed then Some Completed else None;
     ob_error := if failed then Some (match value with
                                      | None => from_message None (chars f.(sse_data))
                                      | Some v => extract_response_error v
                                      end) else None |}.

Definition observe_sse_frame (frame : str) (api_format : ApiFormat.t) : SseFrameObservation :=
  observe_fields (frame_fields frame) api_format.

(** ** The scanner *)

Record SseUsageScanner := { sse_bytes : str; sse_disabled : bool }.
Definition sse_default : SseUsageScanner := {| sse_bytes := []; sse_disabled := false |}.

(** The values, the outcome and the error of a call. *)
Definition Observed : Type := list Json * option SseTerminalOutcome * option ResponseErrorDetails.

Definition option_list {A} (o : option A) : list A := match o with Some a => [a] | None => [] end.

(** The frame loop; every frame takes at least a byte. *)
Fixpoint drain_frames (fuel : nat) (bytes : str) (api_format : ApiFormat.t) (values : list Json) : str * Observed :=
  match fuel with
  | O => (bytes, (values, None, None))
  | S fuel =>
      match sse_frame_end bytes with
      | None => (bytes, (values, None, None))
      | Some end_ =>
          let observation := observe_sse_frame (take end_ bytes) api_format in
          let values := values ++ option_list observation.(ob_value) in
          match observation.(ob_terminal) with
          | Some _ => (drop end_ bytes, (values, observation.(ob_terminal), observation.(ob_error)))
          | None => drain_frames fuel (drop end_ bytes) api_format values
          end
      end
  end.

Definition sse_push (bytes : str) (api_format : ApiFormat.t) (s : SseUsageScanner) : SseUsageScanner * Observed :=
  if s.(sse_disabled) then (s, ([], None, None))
  else if MAX_SSE_FRAME_BYTES <? Z.of_nat (length s.(sse_bytes) + length bytes)
  then ({| sse_bytes := []; sse_disabled := true |}, ([null_usage], None, None))
  else
    let buffer := s.(sse_bytes) ++ bytes in
    let '(rest, observed) := drain_frames (S (length buffer)) buffer api_format [] in
    ({| sse_bytes := rest; sse_disabled := false |}, observed).

Definition sse_finalize (api_format : ApiFormat.t) (s : SseUsageScanner) : SseUsageScanner * Observed :=
  if s.(sse_disabled) then (s, ([], None, None))
  else
    let observation := observe_sse_frame s.(sse_bytes) api_format in
    ({| sse_bytes := []; sse_disabled := false |},
     (option_list observation.(ob_value), observation.(ob_terminal), observation.(ob_error))).
End observe.
