(* ===== verification/SseFrames.v ===== *)
(** * The frames of a stream

    The scanner of [Sse] cuts its buffer after every blank line and starts over
    with what is left.  Here the frames of a whole stream are compared with the
    frames of its chunks: a stream cut between the two bytes of a line end
    yields one frame more, which is empty. *)

From S2P Require Import Prelude Text Domain Json Usage ErrorText Sse.

(** ** The length of the first frame *)

(** [line_start]: the text begins at the start of a line. *)
Fixpoint frame_len (line_start : bool) (s : str) : option nat :=
  match s with
  | [] => None
  | c :: s' =>
      if is_cr c then
        match s' with
        | d :: s'' =>
            if is_lf d then if line_start then Some 2%nat else (λ n, S (S n)) <$> frame_len true s''
            else if line_start then Some 1%nat else S <$> frame_len true s'
        | [] => if line_start then Some 1%nat else None
        end
      else if is_lf c then if line_start then Some 1%nat else S <$> frame_len true s'
      else S <$> frame_len false s'
  end.

Lemma length_ind {A} (P : list A → Prop) :
  (∀ l, (∀ l', (length l' < length l)%nat → P l') → P l) → ∀ l, P l.
Proof.
  intros Hstep l. remember (length l) as n eqn:Hn. revert l Hn. induction (lt_wf n) as [n _ IH]. intros l ->.
  apply Hstep. intros l' Hl. by eapply IH.
Qed.

(** The equations of a line end and of any other byte. *)
Lemma frame_len_crlf b c d s : is_cr c = true → is_lf d = true →
  frame_len b (c :: d :: s) = if b then Some 2%nat else (λ n, S (S n)) <$> frame_len true s.
Proof. intros Hc Hd. cbn. by rewrite Hc, Hd. Qed.
Lemma frame_len_end b c s : is_cr c || is_lf c = true → (is_cr c = true → match s with d :: _ => is_lf d = false | [] => True end) →
  frame_len b (c :: s) = if b then Some 1%nat else S <$> frame_len true s.
Proof.
  intros Hc Hs. cbn [frame_len]. destruct (is_cr c); [|simpl in Hc; by rewrite Hc].
  destruct s as [|d s]; [by destruct b|]. by rewrite (Hs eq_refl).
Qed.
Lemma frame_len_other b c s : is_cr c = false → is_lf c = false → frame_len b (c :: s) = S <$> frame_len false s.
Proof. intros Hc Hl. cbn [frame_len]. by rewrite Hc, Hl. Qed.

(** A byte and what follows it, by those cases. *)
Inductive head_case (c : Ascii.ascii) (s : str) : Prop :=
| case_crlf d s' : is_cr c = true → is_lf d = true → s = d :: s' → head_case c s
| case_end : is_cr c || is_lf c = true → (is_cr c = true → match s with d :: _ => is_lf d = false | [] => True end) → head_case c s
| case_other : is_cr c = false → is_lf c = false → head_case c s.

Lemma head_cases c s : head_case c s.
Proof.
  destruct (is_cr c) eqn:Hc.
  - destruct s as [|d s]; [apply case_end; by rewrite ?Hc|]. destruct (is_lf d) eqn:Hd.
    + by eapply case_crlf.
    + apply case_end; by rewrite ?Hc.
  - destruct (is_lf c) eqn:Hl; [apply case_end; by rewrite ?Hc, ?Hl|by apply case_other].
Qed.

Lemma lf_not_cr c : is_lf c = true → is_cr c = false.
Proof. unfold is_lf, is_cr. by intros ->%Z.eqb_eq. Qed.

Lemma frame_end_len s : ∀ index line_start, (line_start ≤ index)%nat →
  frame_end_from s index line_start = (λ n, (index + n)%nat) <$> frame_len (index =? line_start)%nat s.
Proof.
  induction s as [s IH] using length_ind. intros i l Hle.
  destruct s as [|c s]; [done|]. destruct (head_cases c s) as [d s' Hc Hd ->|Hc Hs|Hc Hl].
  - rewrite frame_len_crlf by done. cbn [frame_end_from]. rewrite Hc, Hd. destruct (i =? l)%nat; [done|].
    rewrite IH, Nat.eqb_refl by (simpl; lia). destruct (frame_len true s'); [|done]. cbn. f_equal. lia.
  - rewrite frame_len_end by done. assert (E : frame_end_from (c :: s) i l
      = if (i =? l)%nat then Some (i + 1)%nat else frame_end_from s (i + 1) (i + 1)).
    { cbn [frame_end_from]. destruct (is_cr c); [|simpl in Hc; by rewrite Hc].
      destruct s as [|d s]; [by destruct (i =? l)%nat|]. by rewrite (Hs eq_refl). }
    rewrite E. destruct (i =? l)%nat; [done|].
    rewrite IH, Nat.eqb_refl by (simpl; lia). destruct (frame_len true s); [|done]. cbn. f_equal. lia.
  - rewrite frame_len_other by done. cbn [frame_end_from]. rewrite Hc, Hl, IH by (simpl; lia).
    rewrite (proj2 (Nat.eqb_neq (i + 1) l)) by lia. destruct (frame_len false s); [|done]. cbn. f_equal. lia.
Qed.

Lemma sse_frame_end_len s : sse_frame_end s = frame_len true s.
Proof. unfold sse_frame_end. rewrite frame_end_len by lia. rewrite Nat.eqb_refl. by destruct (frame_len true s). Qed.

Lemma frame_len_bound s : ∀ b n, frame_len b s = Some n → (0 < n ≤ length s)%nat.
Proof.
  induction s as [s IH] using length_ind. intros b n.
  destruct s as [|c s]; [done|]. destruct (head_cases c s) as [d s' Hc Hd ->|Hc Hs|Hc Hl].
  - rewrite frame_len_crlf by done. destruct b; [intros [= <-]; simpl; lia|].
    intros (k & E & ->)%fmap_Some. apply IH in E; simpl in *; lia.
  - rewrite frame_len_end by done. destruct b; [intros [= <-]; simpl; lia|].
    intros (k & E & ->)%fmap_Some. apply IH in E; simpl in *; lia.
  - rewrite frame_len_other by done. intros (k & E & ->)%fmap_Some. apply IH in E; simpl in *; lia.
Qed.

(** More input does not change a frame, unless it completes its last line end. *)
Lemma frame_len_app s t : ∀ b n, frame_len b s = Some n →
  frame_len b (s ++ t) = Some n ∨
  n = length s ∧ (∃ s' c, s = s' ++ [c] ∧ is_cr c = true) ∧ (∃ d t', t = d :: t' ∧ is_lf d = true) ∧
  frame_len b (s ++ t) = Some (S n).
Proof.
  induction s as [s IH] using length_ind. intros b n.
  destruct s as [|c s]; [done|]. destruct (head_cases c s) as [d s' Hc Hd ->|Hc Hs|Hc Hl].
  - rewrite <- !app_comm_cons, !frame_len_crlf by done. destruct b; [auto|]. intros (k & E & ->)%fmap_Some.
    destruct (IH s' ltac:(simpl; lia) _ _ E) as [->|(-> & (s1 & x & -> & Hx) & Ht & ->)]; [auto|]. right.
    split_and!; [done|by exists (c :: d :: s1), x|done|done].
  - rewrite frame_len_end by done. rewrite <- app_comm_cons.
    destruct (head_cases c (s ++ t)) as [d t' Hcr Hd Est|Hc' Hs'|Hc' Hl'].
    + destruct s as [|x s]; [|injection Est as -> _; by rewrite Hs in Hd]. cbn [app] in Est. subst t.
      cbn [app]. rewrite frame_len_crlf by done. destruct b; [|done]. intros [= <-]. right.
      split_and!; [done|by exists [], c|by exists d, t'|done].
    + rewrite frame_len_end by done.
      destruct b; [auto|]. intros (k & E & ->)%fmap_Some.
      destruct (IH s ltac:(simpl; lia) _ _ E) as [->|(-> & (s1 & x & -> & Hx) & Ht & ->)]; [auto|]. right.
      split_and!; [done|by exists (c :: s1), x|done|done].
    + rewrite Hc', Hl' in Hc. done.
  - rewrite <- app_comm_cons, !frame_len_other by done. intros (k & E & ->)%fmap_Some.
    destruct (IH s ltac:(simpl; lia) _ _ E) as [->|(-> & (s1 & x & -> & Hx) & Ht & ->)]; [auto|]. right.
    split_and!; [done|by exists (c :: s1), x|done|done].
Qed.

(** ** The fields of a frame *)

Lemma take_line_rest c s : (length (take_line (c :: s)).2 ≤ length s)%nat.
Proof.
  revert c. induction s as [|d s IH]; intros c; cbn [take_line].
  - destruct (is_cr c), (is_lf c); simpl; lia.
  - destruct (is_cr c); [destruct (is_lf d); simpl; lia|]. destruct (is_lf c); [simpl; lia|].
    specialize (IH d). cbn [take_line] in IH. destruct (is_cr d); [destruct s; simpl in *; lia|].
    destruct (is_lf d); [simpl in *; lia|]. destruct (take_line s) as [l r]. simpl in *. lia.
Qed.

Lemma take_line_app s t : ∀ l r, take_line s = (l, r) → r ≠ [] → take_line (s ++ t) = (l, r ++ t).
Proof.
  induction s as [|c s IH]; intros l r E Hr; [by injection E as <- <-|]. cbn [take_line app] in *.
  destruct (is_cr c); [|destruct (is_lf c); [by injection E as <- <-|]].
  - injection E as <- <-. destruct s as [|d s]; [done|]. cbn [app]. by destruct (is_lf d).
  - destruct (take_line s) as [l1 r1] eqn:E1. injection E as <- <-. by rewrite (IH _ _ eq_refl Hr).
Qed.

(** After a line that is not blank the frame goes on. *)
Lemma frame_len_line s : ∀ b n l r, take_line s = (l, r) → b = false ∨ l ≠ [] → frame_len b s = Some n →
  ∃ m, frame_len true r = Some m.
Proof.
  induction s as [|c s IH]; intros b n l r E Hb Hn; [done|]. cbn [take_line] in E.
  destruct (is_cr c) eqn:Hc; [|destruct (is_lf c) eqn:Hl].
  - injection E as <- <-. destruct Hb as [->|[]]; [|done]. destruct s as [|d s].
    + cbn in Hn. by rewrite Hc in Hn.
    + destruct (is_lf d) eqn:Hd; [rewrite frame_len_crlf in Hn by done|rewrite frame_len_end in Hn by (rewrite ?Hc; done)];
        apply fmap_Some in Hn as (m & Hm & _); by exists m.
  - injection E as <- <-. destruct Hb as [->|[]]; [|done]. rewrite frame_len_end in Hn by (by rewrite ?Hc, ?Hl).
    apply fmap_Some in Hn as (m & Hm & _). by exists m.
  - destruct (take_line s) as [l1 r1] eqn:E1. injection E as <- <-. rewrite frame_len_other in Hn by done.
    apply fmap_Some in Hn as (m & Hm & _). by apply (IH false m l1 r1); auto.
Qed.

(** Only the lines before the blank one count, and the fuel is enough. *)
Lemma fields_loop_app s : ∀ t n fuel f, frame_len true s = Some n → (length s ≤ fuel)%nat →
  fields_loop fuel (s ++ t) f = fields_loop (length s) s f.
Proof.
  induction s as [s IH] using length_ind. intros t n fuel f Hn Hf. destruct s as [|c s]; [done|]. destruct fuel as [|fuel]; [simpl in Hf; lia|].
  cbn [length fields_loop]. cbn [app next_sse_line]. destruct (take_line (c :: s)) as [l r] eqn:E.
  pose proof (take_line_rest c s) as Hr. rewrite E in Hr. cbn [snd] in Hr. destruct l as [|x l].
  - cbn [app take_line] in E |- *. destruct (is_cr c); [done|]. destruct (is_lf c); [done|]. by destruct (take_line s).
  - destruct (frame_len_line _ _ _ _ _ E ltac:(by right) Hn) as [m Hm].
    assert (r ≠ []) as Hne by by intros ->. rewrite app_comm_cons, (take_line_app _ t _ _ E Hne).
    rewrite (IH r ltac:(simpl; lia) _ _ _ _ Hm) by (simpl in Hf; lia).
    pose proof (IH r ltac:(simpl; lia) [] m (length s) (add_field f (x :: l)) Hm Hr) as Hs. by rewrite app_nil_r in Hs.
Qed.

Lemma frame_fields_app s t n : frame_len true s = Some n → frame_fields (s ++ t) = frame_fields s.
Proof. intros Hn. unfold frame_fields. apply (fields_loop_app _ _ n _ _); [done|]. rewrite length_app. lia. Qed.

(** A frame that is only a line end says nothing. *)
Lemma frame_fields_lf d : is_lf d = true → frame_fields [d] = no_fields.
Proof. intros Hd. unfold frame_fields. cbn. by rewrite Hd, (lf_not_cr _ Hd). Qed.

(** ** The observations of a stream *)

Section stream.
Context `{JsonText} (fmt : ApiFormat.t).
Implicit Types (s t : str) (os : list SseFrameObservation).

(** Every frame of a text, without stopping at a terminal one, and the rest. *)
Fixpoint all_frames (fuel : nat) (s : str) : list SseFrameObservation * str :=
  match fuel with
  | O => ([], s)
  | S fuel =>
      match frame_len true s with
      | None => ([], s)
      | Some n => let '(os, rest) := all_frames fuel (drop n s) in (observe_sse_frame (take n s) fmt :: os, rest)
      end
  end.
Definition observations (s : str) : list SseFrameObservation * str := all_frames (length s) s.

Lemma all_frames_fuel s : ∀ fuel, (length s ≤ fuel)%nat → all_frames fuel s = observations s.
Proof.
  induction s as [s IH] using length_ind. intros fuel Hf. unfold observations. destruct s as [|c s]; [by destruct fuel|].
  destruct fuel as [|fuel]; [simpl in Hf; lia|]. cbn [length all_frames].
  destruct (frame_len true (c :: s)) as [n|] eqn:E; [|done]. apply frame_len_bound in E. cbn [length] in E, Hf.
  assert (Hd : (length (drop n (c :: s)) ≤ length s)%nat) by (rewrite length_drop; simpl; lia).
  rewrite !IH by (simpl in *; lia). done.
Qed.

Lemma observations_step s :
  observations s = match frame_len true s with
                   | None => ([], s)
                   | Some n => let '(os, rest) := observations (drop n s) in (observe_sse_frame (take n s) fmt :: os, rest)
                   end.
Proof.
  unfold observations at 1. destruct s as [|c s]; [done|]. cbn [length all_frames].
  destruct (frame_len true (c :: s)) as [n|] eqn:E; [|done]. apply frame_len_bound in E.
  rewrite all_frames_fuel; [done|]. rewrite length_drop. simpl in *. lia.
Qed.

Definition significant (o : SseFrameObservation) : bool :=
  match o.(ob_value), o.(ob_terminal) with None, None => false | _, _ => true end.

Lemma observe_lf d : is_lf d = true → significant (observe_sse_frame [d] fmt) = false.
Proof. intros Hd. unfold observe_sse_frame. rewrite frame_fields_lf by done. unfold observe_fields. cbn. by rewrite !andb_false_r. Qed.

(** Cutting a stream anywhere keeps what it says. *)
Lemma observations_app s t :
  List.filter significant (observations (s ++ t)).1
    = List.filter significant (observations s).1 ++ List.filter significant (observations ((observations s).2 ++ t)).1 ∧
  (observations (s ++ t)).2 = (observations ((observations s).2 ++ t)).2.
Proof.
  induction s as [s IH] using length_ind. rewrite (observations_step s). destruct (frame_len true s) as [n|] eqn:E; [|done].
  pose proof (frame_len_bound _ _ _ E) as Hn. rewrite (observations_step (s ++ t)).
  destruct (frame_len_app s t _ _ E) as [->|(Hlen & _ & (d & t' & -> & Hd) & ->)].
  - rewrite take_app_le, drop_app_le by lia. destruct (IH (drop n s)) as [IH1 IH2]; [rewrite length_drop; lia|].
    destruct (observations (drop n s)) as [os r]. destruct (observations (drop n s ++ t)) as [os' r']. cbn [fst snd List.filter] in *.
    rewrite IH1. by destruct (significant _).
  - rewrite (drop_ge s), (take_ge s) by lia.
    change (observations []) with (@nil SseFrameObservation, @nil Ascii.ascii). cbn [fst snd app].
    assert (Ht : take (S n) (s ++ d :: t') = s ++ [d]) by (rewrite take_app_ge by lia; by replace (S n - length s)%nat with 1%nat by lia).
    assert (Hr : drop (S n) (s ++ d :: t') = t') by (rewrite drop_app_ge by lia; by replace (S n - length s)%nat with 1%nat by lia).
    rewrite Ht, Hr. unfold observe_sse_frame at 1. rewrite (frame_fields_app _ _ _ E).
    rewrite (observations_step (d :: t')), frame_len_end by (rewrite ?(lf_not_cr _ Hd), ?Hd; done).
    change (take 1 (d :: t')) with [d]. change (drop 1 (d :: t')) with t'.
    destruct (observations t') as [os r]. cbn [fst snd List.filter]. rewrite (observe_lf _ Hd).
    change (observe_fields (frame_fields s) fmt) with (observe_sse_frame s fmt). by destruct (significant _).
Qed.

(** What is reported of a list of observations: the scanner stops at a terminal one. *)
Fixpoint collect (os : list SseFrameObservation) : Observed :=
  match os with
  | [] => ([], None, None)
  | o :: os' =>
      match o.(ob_terminal) with
      | Some _ => (option_list o.(ob_value), o.(ob_terminal), o.(ob_error))
      | None => let '(values, outcome, error) := collect os' in (option_list o.(ob_value) ++ values, outcome, error)
      end
  end.

Lemma collect_significant os : collect (List.filter significant os) = collect os.
Proof.
  induction os as [|o os IH]; [done|]. cbn [List.filter]. unfold significant at 1.
  destruct (ob_value o) eqn:Ev, (ob_terminal o) eqn:Et; cbn [collect]; rewrite ?Ev, ?Et; try done; rewrite IH; try done.
  by destruct (collect os) as [[] ].
Qed.

Lemma collect_app os os' :
  collect (os ++ os') =
  let '(values, outcome, error) := collect os in
  match outcome with
  | Some _ => (values, outcome, error)
  | None => let '(values', outcome', error') := collect os' in (values ++ values', outcome', error')
  end.
Proof.
  induction os as [|o os IH]; cbn [app collect]; [by destruct (collect os') as [[] ]|].
  destruct (ob_terminal o); [done|]. rewrite IH. destruct (collect os) as [[v t] e].
  destruct t; [done|]. destruct (collect os') as [[v' t'] e']. by rewrite app_assoc.
Qed.

Lemma ob_error_terminal frame : (observe_sse_frame frame fmt).(ob_terminal) = None →
  (observe_sse_frame frame fmt).(ob_error) = None.
Proof. unfold observe_sse_frame, observe_fields. cbn [ob_terminal ob_error]. by case_match. Qed.

(** The frame loop reports the observations of its buffer. *)
Lemma drain_frames_spec s : ∀ fuel values, (length s < fuel)%nat →
  let '(v, outcome, error) := collect (observations s).1 in
  ∃ rest, drain_frames fuel s fmt values = (rest, (values ++ v, outcome, error)) ∧
    (outcome = None → rest = (observations s).2).
Proof.
  induction s as [s IH] using length_ind. intros fuel values Hf. destruct fuel as [|fuel]; [lia|].
  cbn [drain_frames]. rewrite sse_frame_end_len, observations_step.
  destruct (frame_len true s) as [n|] eqn:E; [|exists s; by rewrite app_nil_r].
  pose proof (frame_len_bound _ _ _ E) as Hn.
  pose proof (IH (drop n s) ltac:(rewrite length_drop; lia) fuel
    (values ++ option_list (ob_value (observe_sse_frame (take n s) fmt))) ltac:(rewrite length_drop; lia)) as Hrest.
  destruct (observations (drop n s)) as [os r]. cbn [fst snd] in *. cbn [collect].
  destruct (ob_terminal (observe_sse_frame (take n s) fmt)) as [o|] eqn:Et.
  - exists (drop n s). done.
  - destruct (collect os) as [[v t] e]. destruct Hrest as (rest & Hd & Hr). exists rest. split; [|done].
    by rewrite Hd, app_assoc.
Qed.
End stream.
