(* ===== verification/JsonScan.v ===== *)
(** * Scanning a JSON body for its usage object

    Models [TopLevelUsageScanner] and [JsonObjectCapture] of
    [src/application/usage.rs]: a byte-by-byte automaton that finds the
    [usage] member of the top-level object without keeping the body. *)

From S2P Require Import Prelude Text Json Usage.

Definition MAX_USAGE_OBJECT_BYTES : Z := 64 * 1024.

(** ** Capturing an object *)

Record JsonObjectCapture := { oc_bytes : str; oc_depth : Z; oc_in_string : bool; oc_escaped : bool }.
Definition new_capture (first : Ascii.ascii) : JsonObjectCapture :=
  {| oc_bytes := [first]; oc_depth := 1; oc_in_string := false; oc_escaped := false |}.

Definition opens (b : Ascii.ascii) : bool := (byte b =? 123) || (byte b =? 91).   (* { [ *)
Definition closes (b : Ascii.ascii) : bool := (byte b =? 125) || (byte b =? 93).  (* } ] *)
Definition is_quote (b : Ascii.ascii) : bool := byte b =? 34.
Definition is_backslash (b : Ascii.ascii) : bool := byte b =? 92.

(** The capture after a byte, and the object when the byte completes it. *)
Definition oc_push (b : Ascii.ascii) (c : JsonObjectCapture) : JsonObjectCapture * option str :=
  let bytes := c.(oc_bytes) ++ [b] in
  let next depth in_string escaped :=
    {| oc_bytes := bytes; oc_depth := depth; oc_in_string := in_string; oc_escaped := escaped |} in
  if c.(oc_in_string) then
    (if c.(oc_escaped) then next c.(oc_depth) true false
     else if is_backslash b then next c.(oc_depth) true true
     else if is_quote b then next c.(oc_depth) false false
     else next c.(oc_depth) true false, None)
  else if is_quote b then (next c.(oc_depth) true c.(oc_escaped), None)
  else if opens b then (next (c.(oc_depth) + 1) false c.(oc_escaped), None)
  else if closes b then
    let depth := sat_sub c.(oc_depth) 1 in
    (next depth false c.(oc_escaped), if depth =? 0 then Some bytes else None)
  else (next c.(oc_depth) false c.(oc_escaped), None).

(** ** The scanner *)

Record TopLevelUsageScanner := {
  sc_depth : Z;
  sc_in_string : bool;
  sc_escaped : bool;
  sc_key : str;
  sc_reading_top_level_key : bool;
  sc_expecting_colon : bool;
  sc_expecting_value : bool;
  sc_capture : option JsonObjectCapture;
  sc_disabled : bool;
}.
Definition scanner_default : TopLevelUsageScanner :=
  {| sc_depth := 0; sc_in_string := false; sc_escaped := false; sc_key := []; sc_reading_top_level_key := false;
     sc_expecting_colon := false; sc_expecting_value := false; sc_capture := None; sc_disabled := false |}.

(** Assignments. *)
Definition set_expecting (colon value : bool) (s : TopLevelUsageScanner) : TopLevelUsageScanner :=
  {| sc_depth := s.(sc_depth); sc_in_string := s.(sc_in_string); sc_escaped := s.(sc_escaped); sc_key := s.(sc_key);
     sc_reading_top_level_key := s.(sc_reading_top_level_key); sc_expecting_colon := colon;
     sc_expecting_value := value; sc_capture := s.(sc_capture); sc_disabled := s.(sc_disabled) |}.
Definition set_capture (c : option JsonObjectCapture) (s : TopLevelUsageScanner) : TopLevelUsageScanner :=
  {| sc_depth := s.(sc_depth); sc_in_string := s.(sc_in_string); sc_escaped := s.(sc_escaped); sc_key := s.(sc_key);
     sc_reading_top_level_key := s.(sc_reading_top_level_key); sc_expecting_colon := s.(sc_expecting_colon);
     sc_expecting_value := s.(sc_expecting_value); sc_capture := c; sc_disabled := s.(sc_disabled) |}.
Definition set_sc_disabled (s : TopLevelUsageScanner) : TopLevelUsageScanner :=
  {| sc_depth := s.(sc_depth); sc_in_string := s.(sc_in_string); sc_escaped := s.(sc_escaped); sc_key := s.(sc_key);
     sc_reading_top_level_key := s.(sc_reading_top_level_key); sc_expecting_colon := s.(sc_expecting_colon);
     sc_expecting_value := s.(sc_expecting_value); sc_capture := s.(sc_capture); sc_disabled := true |}.
Definition set_string (in_string escaped : bool) (key : str) (reading : bool) (s : TopLevelUsageScanner)
  : TopLevelUsageScanner :=
  {| sc_depth := s.(sc_depth); sc_in_string := in_string; sc_escaped := escaped; sc_key := key;
     sc_reading_top_level_key := reading; sc_expecting_colon := s.(sc_expecting_colon);
     sc_expecting_value := s.(sc_expecting_value); sc_capture := s.(sc_capture); sc_disabled := s.(sc_disabled) |}.
Definition set_depth (depth : Z) (s : TopLevelUsageScanner) : TopLevelUsageScanner :=
  {| sc_depth := depth; sc_in_string := s.(sc_in_string); sc_escaped := s.(sc_escaped); sc_key := s.(sc_key);
     sc_reading_top_level_key := s.(sc_reading_top_level_key); sc_expecting_colon := s.(sc_expecting_colon);
     sc_expecting_value := s.(sc_expecting_value); sc_capture := s.(sc_capture); sc_disabled := s.(sc_disabled) |}.

Definition push_key (b : Ascii.ascii) (s : TopLevelUsageScanner) : TopLevelUsageScanner :=
  if (length s.(sc_key) <? 5)%nat
  then set_string s.(sc_in_string) s.(sc_escaped) (s.(sc_key) ++ [b]) s.(sc_reading_top_level_key) s
  else set_string s.(sc_in_string) s.(sc_escaped) s.(sc_key) false s.

(** Inside a string. *)
Definition string_byte (b : Ascii.ascii) (s : TopLevelUsageScanner) : TopLevelUsageScanner :=
  if s.(sc_escaped) then
    let s := set_string true false s.(sc_key) s.(sc_reading_top_level_key) s in
    if s.(sc_reading_top_level_key) then push_key b s else s
  else if is_backslash b then set_string true true s.(sc_key) s.(sc_reading_top_level_key) s
  else if is_quote b then
    let colon := s.(sc_reading_top_level_key) && bool_decide (s.(sc_key) = bytes_of "usage") in
    set_string false false s.(sc_key) false
      (set_expecting (s.(sc_expecting_colon) || colon) s.(sc_expecting_value) s)
  else if s.(sc_reading_top_level_key) then push_key b s
  else s.

(** The end of the loop body. *)
Definition plain_byte (b : Ascii.ascii) (s : TopLevelUsageScanner) : TopLevelUsageScanner :=
  if s.(sc_in_string) then string_byte b s
  else if opens b then set_depth (sat_add u64_max s.(sc_depth) 1) s
  else if closes b then set_depth (sat_sub s.(sc_depth) 1) s
  else if is_quote b then set_string true s.(sc_escaped) [] (s.(sc_depth) =? 1) s
  else s.

(** The body of the loop without a capture, from the value on. *)
Definition value_byte (b : Ascii.ascii) (s : TopLevelUsageScanner) : TopLevelUsageScanner * list Json :=
  if s.(sc_expecting_value) then
    if is_ascii_whitespace b then (s, [])
    else
      let s := set_expecting s.(sc_expecting_colon) false s in
      if byte b =? 123 then (set_capture (Some (new_capture b)) s, []) else (plain_byte b s, [JNull])
  else (plain_byte b s, []).

Definition colon_byte (b : Ascii.ascii) (s : TopLevelUsageScanner) : TopLevelUsageScanner * list Json :=
  if s.(sc_expecting_colon) then
    if is_ascii_whitespace b then (s, [])
    else if byte b =? 58 then (set_expecting false true s, [])
    else value_byte b (set_expecting false s.(sc_expecting_value) s)
  else value_byte b s.

Section scan.
Context `{JsonText}.

Definition scan_byte (b : Ascii.ascii) (s : TopLevelUsageScanner) : TopLevelUsageScanner * list Json :=
  match s.(sc_capture) with
  | Some c =>
      if Z.of_nat (length c.(oc_bytes)) =? MAX_USAGE_OBJECT_BYTES
      then (set_sc_disabled (set_capture None s), [JNull])
      else
        match oc_push b c with
        | (_, Some value) => (set_capture None s, [default JNull (from_slice value)])
        | (c', None) => (set_capture (Some c') s, [])
        end
  | None => colon_byte b s
  end.

(** The loop ends at the byte that disables the scanner. *)
Fixpoint scan_bytes (bytes : str) (s : TopLevelUsageScanner) : TopLevelUsageScanner * list Json :=
  match bytes with
  | [] => (s, [])
  | b :: bytes' =>
      if s.(sc_disabled) then (s, [])
      else
        let '(s', values) := scan_byte b s in
        let '(s'', rest) := scan_bytes bytes' s' in
        (s'', values ++ rest)
  end.
(** [push]: a disabled scanner ignores its input. *)
Definition json_push (bytes : str) (s : TopLevelUsageScanner) : TopLevelUsageScanner * list Json := scan_bytes bytes s.

Definition json_finalize (s : TopLevelUsageScanner) : TopLevelUsageScanner * list Json :=
  if negb s.(sc_disabled)
     && (match s.(sc_capture) with Some _ => true | None => false end || s.(sc_expecting_value) || s.(sc_expecting_colon))
  then (set_sc_disabled (set_capture None s), [JNull])
  else (s, []).
End scan.

(** ** Splitting the input *)

Section scan_properties.
Context `{JsonText}.
Implicit Types (s : TopLevelUsageScanner) (t : str) (b : Ascii.ascii).

Lemma scan_bytes_disabled t s : s.(sc_disabled) = true → scan_bytes t s = (s, []).
Proof. intros Hs. destruct t; simpl; [done|]. by rewrite Hs. Qed.

Lemma scan_bytes_app t t' s :
  scan_bytes (t ++ t') s =
  let '(s1, v1) := scan_bytes t s in let '(s2, v2) := scan_bytes t' s1 in (s2, v1 ++ v2).
Proof.
  revert s. induction t as [|b t IH]; intros s; simpl; [by destruct (scan_bytes t' s)|].
  destruct (sc_disabled s) eqn:Hd; [by rewrite scan_bytes_disabled|].
  destruct (scan_byte b s) as [s1 v1]. rewrite IH. destruct (scan_bytes t s1) as [s2 v2].
  destruct (scan_bytes t' s2) as [s3 v3]. by rewrite app_assoc.
Qed.

(** ** Texts *)

(** Bytes that neither open or close a group nor delimit a string. *)
Definition neutral b : bool := negb (opens b) && negb (closes b) && negb (is_quote b).

(** The inside of a string: escapes are pairs. *)
Inductive string_body : str → Prop :=
| sb_nil : string_body []
| sb_plain b t : is_quote b = false → is_backslash b = false → string_body t → string_body (b :: t)
| sb_escape b e t : is_backslash b = true → string_body t → string_body (b :: e :: t).

(** Text with matching brackets outside of strings. *)
Inductive balanced : str → Prop :=
| ba_nil : balanced []
| ba_neutral b t : neutral b = true → balanced t → balanced (b :: t)
| ba_string q t q' t' : is_quote q = true → string_body t → is_quote q' = true → balanced t' →
    balanced (q :: t ++ q' :: t')
| ba_group o t c t' : opens o = true → balanced t → closes c = true → balanced t' →
    balanced (o :: t ++ c :: t').

Lemma byte_cases b : neutral b = true ∨ opens b = true ∨ closes b = true ∨ is_quote b = true.
Proof. unfold neutral. destruct (opens b), (closes b), (is_quote b); auto. Qed.

Lemma opens_facts b : opens b = true → closes b = false ∧ is_quote b = false.
Proof. unfold opens, closes, is_quote. intros [->%Z.eqb_eq| ->%Z.eqb_eq]%orb_true_iff; done. Qed.
Lemma closes_facts b : closes b = true → opens b = false ∧ is_quote b = false.
Proof. unfold opens, closes, is_quote. intros [->%Z.eqb_eq| ->%Z.eqb_eq]%orb_true_iff; done. Qed.
Lemma quote_facts b : is_quote b = true → opens b = false ∧ closes b = false ∧ is_backslash b = false.
Proof. unfold opens, closes, is_quote, is_backslash. intros ->%Z.eqb_eq. done. Qed.
Lemma backslash_facts b : is_backslash b = true → is_quote b = false.
Proof. unfold is_quote, is_backslash. intros ->%Z.eqb_eq. done. Qed.
Lemma neutral_facts b : neutral b = true → opens b = false ∧ closes b = false ∧ is_quote b = false.
Proof. unfold neutral. destruct (opens b), (closes b), (is_quote b); done. Qed.

(** ** A capture follows the brackets *)

Definition cap (bytes : str) (depth : Z) (in_string escaped : bool) : JsonObjectCapture :=
  {| oc_bytes := bytes; oc_depth := depth; oc_in_string := in_string; oc_escaped := escaped |}.
Definition capturing (c : JsonObjectCapture) s : TopLevelUsageScanner := set_capture (Some c) s.

Lemma scan_cons b t s : s.(sc_disabled) = false →
  scan_bytes (b :: t) s =
  let '(s1, v1) := scan_byte b s in let '(s2, v2) := scan_bytes t s1 in (s2, v1 ++ v2).
Proof. intros Hs. simpl. by rewrite Hs. Qed.

Lemma capturing_byte b c c' s : Z.of_nat (length c.(oc_bytes)) < MAX_USAGE_OBJECT_BYTES →
  oc_push b c = (c', None) → scan_byte b (capturing c s) = (capturing c' s, []).
Proof.
  intros Hlen Hp. unfold scan_byte. cbn [capturing set_capture sc_capture].
  destruct (Z.eqb_spec (Z.of_nat (length (oc_bytes c))) MAX_USAGE_OBJECT_BYTES); [lia|]. by rewrite Hp.
Qed.

Lemma capturing_cons b t c c' s : s.(sc_disabled) = false → Z.of_nat (length c.(oc_bytes)) < MAX_USAGE_OBJECT_BYTES →
  oc_push b c = (c', None) → scan_bytes (b :: t) (capturing c s) = scan_bytes t (capturing c' s).
Proof.
  intros Hs Hlen Hp. rewrite scan_cons by done. rewrite (capturing_byte _ _ _ _ Hlen Hp).
  by destruct (scan_bytes t (capturing c' s)).
Qed.

Lemma capture_string_body t : string_body t → ∀ bytes d s, s.(sc_disabled) = false →
  Z.of_nat (length bytes + length t) <= MAX_USAGE_OBJECT_BYTES →
  scan_bytes t (capturing (cap bytes d true false) s) = (capturing (cap (bytes ++ t) d true false) s, []).
Proof.
  induction 1 as [|b t Hq Hb Ht IH|b e t Hb Ht IH]; intros bytes d s Hs Hlen; simpl length in Hlen.
  - by rewrite app_nil_r.
  - rewrite (capturing_cons b t _ (cap (bytes ++ [b]) d true false)); [|done|simpl; lia|].
    + rewrite IH; [by rewrite <- app_assoc|done|rewrite length_app; simpl; lia].
    + unfold oc_push. cbn. by rewrite Hb, Hq.
  - rewrite (capturing_cons b _ _ (cap (bytes ++ [b]) d true true)); [|done|simpl; lia|unfold oc_push; cbn; by rewrite Hb].
    rewrite (capturing_cons e t _ (cap ((bytes ++ [b]) ++ [e]) d true false));
      [|done|simpl; rewrite length_app; simpl; lia|done].
    rewrite IH; [by rewrite <- !app_assoc|done|rewrite !length_app; simpl; lia].
Qed.

Lemma capture_balanced t : balanced t → ∀ bytes d s, s.(sc_disabled) = false → 1 <= d →
  Z.of_nat (length bytes + length t) <= MAX_USAGE_OBJECT_BYTES →
  scan_bytes t (capturing (cap bytes d false false) s) = (capturing (cap (bytes ++ t) d false false) s, []).
Proof.
  induction 1 as [|b t Hn Ht IH|q t q' t' Hq Ht Hq' Ht' IH|o t c t' Ho Ht IH Hc Ht' IH']; intros bytes d s Hs Hd Hlen.
  - by rewrite app_nil_r.
  - destruct (neutral_facts _ Hn) as (Ho & Hc & Hq). simpl length in Hlen.
    rewrite (capturing_cons b t _ (cap (bytes ++ [b]) d false false)); [|done|simpl; lia|].
    + rewrite IH; [by rewrite <- app_assoc|done|done|rewrite length_app; simpl; lia].
    + unfold oc_push. cbn. by rewrite Hq, Ho, Hc.
  - simpl length in Hlen. rewrite length_app in Hlen. simpl length in Hlen.
    rewrite (capturing_cons q _ _ (cap (bytes ++ [q]) d true false)); [|done|simpl; lia|unfold oc_push; cbn; by rewrite Hq].
    rewrite scan_bytes_app, capture_string_body; [|done|done|rewrite length_app; simpl; lia].
    destruct (quote_facts _ Hq') as (_ & _ & Hb).
    rewrite (capturing_cons q' t' _ (cap (((bytes ++ [q]) ++ t) ++ [q']) d false false));
      [|done|simpl; rewrite !length_app; simpl; lia|unfold oc_push; cbn; by rewrite Hb, Hq'].
    rewrite IH; [by rewrite <- !app_assoc|done|done|rewrite !length_app; simpl; lia].
  - simpl length in Hlen. rewrite length_app in Hlen. simpl length in Hlen.
    destruct (opens_facts _ Ho) as [_ Hoq]. destruct (closes_facts _ Hc) as [Hco Hcq].
    rewrite (capturing_cons o _ _ (cap (bytes ++ [o]) (d + 1) false false)); [|done|simpl; lia|unfold oc_push; cbn; by rewrite Hoq, Ho].
    rewrite scan_bytes_app, IH; [|done|lia|rewrite length_app; simpl; lia].
    rewrite (capturing_cons c t' _ (cap (((bytes ++ [o]) ++ t) ++ [c]) d false false)); [|done|simpl; rewrite !length_app; simpl; lia|].
    + rewrite IH'; [by rewrite <- !app_assoc|done|done|rewrite !length_app; simpl; lia].
    + unfold oc_push. cbn -[sat_sub]. rewrite Hcq, Hco, Hc. unfold sat_sub. replace (Z.max 0 (d + 1 - 1)) with d by lia.
      destruct (Z.eqb_spec d 0); [lia|done].
Qed.

(** The byte that closes the captured object. *)
Lemma capture_close c bytes s : closes c = true → Z.of_nat (length bytes) < MAX_USAGE_OBJECT_BYTES →
  scan_byte c (capturing (cap bytes 1 false false) s)
  = (set_capture None s, [default JNull (from_slice (bytes ++ [c]))]).
Proof.
  intros Hc Hlen. destruct (closes_facts _ Hc) as [Ho Hq]. unfold scan_byte. cbn [capturing set_capture sc_capture cap oc_bytes].
  destruct (Z.eqb_spec (Z.of_nat (length bytes)) MAX_USAGE_OBJECT_BYTES); [lia|].
  unfold oc_push. cbn -[sat_sub]. by rewrite Hq, Ho, Hc.
Qed.

(** ** Outside of captures *)

(** Between tokens at a depth; [colon]: a top-level string [usage] was just read. *)
Definition idle (depth : Z) (key : str) (colon value : bool) : TopLevelUsageScanner :=
  {| sc_depth := depth; sc_in_string := false; sc_escaped := false; sc_key := key; sc_reading_top_level_key := false;
     sc_expecting_colon := colon; sc_expecting_value := value; sc_capture := None; sc_disabled := false |}.
(** Inside a string. *)
Definition inside (depth : Z) (key : str) (reading : bool) : TopLevelUsageScanner :=
  {| sc_depth := depth; sc_in_string := true; sc_escaped := false; sc_key := key; sc_reading_top_level_key := reading;
     sc_expecting_colon := false; sc_expecting_value := false; sc_capture := None; sc_disabled := false |}.

(** The bytes of a string as the scanner reads a key: escapes without their backslash. *)
Fixpoint raw_key (t : str) : str :=
  match t with
  | [] => []
  | b :: t' => if is_backslash b then match t' with e :: t'' => e :: raw_key t'' | [] => [] end else b :: raw_key t'
  end.
Definition add_key (kr : str * bool) b : str * bool :=
  if kr.2 then if (length kr.1 <? 5)%nat then (kr.1 ++ [b], true) else (kr.1, false) else kr.

Lemma inside_push b d k (r : bool) :
  (if r then push_key b (inside d k r) else inside d k r) = inside d (add_key (k, r) b).1 (add_key (k, r) b).2.
Proof. unfold push_key, add_key. destruct r; [|done]. cbn [sc_key inside fst snd]. by destruct (length k <? 5)%nat. Qed.

Lemma scan_string_body t : string_body t → ∀ d k r,
  scan_bytes t (inside d k r) = (inside d (foldl add_key (k, r) (raw_key t)).1 (foldl add_key (k, r) (raw_key t)).2, []).
Proof.
  induction 1 as [|b t Hq Hb Ht IH|b e t Hb Ht IH]; intros d k r.
  - done.
  - cbn [raw_key]. rewrite Hb. cbn [foldl]. rewrite scan_cons by done.
    assert (Hs : scan_byte b (inside d k r) = (inside d (add_key (k, r) b).1 (add_key (k, r) b).2, [])).
    { rewrite <- inside_push. unfold scan_byte. cbn. unfold value_byte, plain_byte, string_byte. cbn.
      rewrite Hb, Hq. done. }
    rewrite Hs, IH. by destruct (add_key (k, r) b).
  - cbn [raw_key]. rewrite Hb. cbn [foldl]. rewrite scan_cons by done.
    set (esc := {| sc_depth := d; sc_in_string := true; sc_escaped := true; sc_key := k; sc_reading_top_level_key := r;
      sc_expecting_colon := false; sc_expecting_value := false; sc_capture := None; sc_disabled := false |}).
    assert (Hs : scan_byte b (inside d k r) = (esc, [])).
    { unfold scan_byte. cbn. unfold value_byte, plain_byte, string_byte. cbn. by rewrite Hb. }
    rewrite Hs, scan_cons by done.
    assert (He : scan_byte e esc = (inside d (add_key (k, r) e).1 (add_key (k, r) e).2, [])).
    { rewrite <- inside_push. done. }
    rewrite He, IH. by destruct (add_key (k, r) e).
Qed.

Lemma add_key_false (k l : str) : foldl add_key (k, false) l = (k, false).
Proof. induction l as [|b l IH]; [done|]. cbn [foldl]. unfold add_key at 2. cbn. apply IH. Qed.

Lemma add_key_true (l : str) : ∀ k : str, (length k ≤ 5)%nat →
  foldl add_key (k, true) l = if (length k + length l <=? 5)%nat then (k ++ l, true) else (take 5 (k ++ l), false).
Proof.
  induction l as [|b l IH]; intros k Hk; cbn [foldl length].
  - rewrite Nat.add_0_r, app_nil_r. by rewrite (proj2 (Nat.leb_le _ _)).
  - unfold add_key at 2. cbn [fst snd]. destruct (Nat.ltb_spec (length k) 5).
    + rewrite IH by (rewrite length_app; simpl; lia). rewrite length_app, <- app_assoc. cbn [length app].
      by replace (length k + 1 + length l)%nat with (length k + S (length l))%nat by lia.
    + rewrite add_key_false. destruct (Nat.leb_spec (length k + S (length l)) 5); [lia|].
      rewrite take_app_le by lia. by rewrite take_ge by lia.
Qed.

(** A key is recognised exactly when it reads [usage]. *)
Lemma key_recognised (l : str) :
  (foldl add_key ([], true) l).2 && bool_decide ((foldl add_key ([], true) l).1 = bytes_of "usage")
  = bool_decide (l = bytes_of "usage").
Proof.
  rewrite add_key_true by (simpl; lia). cbn [length app]. destruct (Nat.leb_spec (0 + length l) 5) as [Hl|Hl]; [done|].
  symmetry. apply bool_decide_eq_false. intros ->. simpl in Hl. lia.
Qed.

(** ** Between tokens *)

Abbreviation idle0 d k := (idle d k false false).

Lemma idle_neutral b d k : neutral b = true → scan_byte b (idle0 d k) = (idle0 d k, []).
Proof.
  intros (Ho & Hc & Hq)%neutral_facts. unfold scan_byte. cbn. unfold value_byte, plain_byte. cbn.
  by rewrite Ho, Hc, Hq.
Qed.
Lemma idle_open b d k : opens b = true → d + 1 <= u64_max → scan_byte b (idle0 d k) = (idle0 (d + 1) k, []).
Proof.
  intros Ho Hd. unfold scan_byte. cbn. unfold value_byte, plain_byte. cbn -[sat_add]. rewrite Ho.
  unfold sat_add. by rewrite Z.min_r by lia.
Qed.
Lemma idle_close b d k : closes b = true → 0 <= d → scan_byte b (idle0 (d + 1) k) = (idle0 d k, []).
Proof.
  intros Hc Hd. destruct (closes_facts _ Hc) as [Ho _]. unfold scan_byte. cbn. unfold value_byte, plain_byte.
  cbn -[sat_sub]. rewrite Ho, Hc. unfold sat_sub. by replace (Z.max 0 (d + 1 - 1)) with d by lia.
Qed.
Lemma idle_quote b d k : is_quote b = true → scan_byte b (idle0 d k) = (inside d [] (d =? 1), []).
Proof.
  intros Hq. destruct (quote_facts _ Hq) as (Ho & Hc & _). unfold scan_byte. cbn. unfold value_byte, plain_byte. cbn.
  by rewrite Ho, Hc, Hq.
Qed.
Lemma inside_quote b d k r : is_quote b = true →
  scan_byte b (inside d k r) = (idle d k (r && bool_decide (k = bytes_of "usage")) false, []).
Proof.
  intros Hq. destruct (quote_facts _ Hq) as (_ & _ & Hb). unfold scan_byte. cbn -[bool_decide].
  unfold value_byte, plain_byte, string_byte. cbn -[bool_decide]. by rewrite Hb, Hq.
Qed.

Lemma idle_cons b t d k s' : scan_byte b (idle0 d k) = (s', []) → scan_bytes (b :: t) (idle0 d k) = scan_bytes t s'.
Proof. intros Hb. rewrite scan_cons by done. rewrite Hb. by destruct (scan_bytes t s'). Qed.
Lemma inside_cons b t d k r s' : scan_byte b (inside d k r) = (s', []) → scan_bytes (b :: t) (inside d k r) = scan_bytes t s'.
Proof. intros Hb. rewrite scan_cons by done. rewrite Hb. by destruct (scan_bytes t s'). Qed.

(** A string: below the top level nothing comes of it, there it may be a key. *)
Lemma scan_string q t q' rest d k : is_quote q = true → string_body t → is_quote q' = true →
  ∃ k', scan_bytes (q :: t ++ q' :: rest) (idle0 d k)
    = scan_bytes rest (idle d k' ((d =? 1) && bool_decide (raw_key t = bytes_of "usage")) false).
Proof.
  intros Hq Ht Hq'. rewrite (idle_cons _ _ _ _ _ (idle_quote _ _ _ Hq)), scan_bytes_app, (scan_string_body _ Ht).
  rewrite (inside_cons _ _ _ _ _ _ (inside_quote _ _ _ _ Hq')).
  exists (foldl add_key ([], d =? 1) (raw_key t)).1. destruct (d =? 1).
  - rewrite key_recognised. by destruct (scan_bytes rest _).
  - rewrite add_key_false. by destruct (scan_bytes rest _).
Qed.

Lemma idle_balanced t : balanced t → ∀ d k, 2 <= d → d + Z.of_nat (length t) <= u64_max →
  ∃ k', scan_bytes t (idle0 d k) = (idle0 d k', []).
Proof.
  induction 1 as [|b t Hn Ht IH|q t q' t' Hq Ht Hq' Ht' IH|o t c t' Ho Ht IH Hc Ht' IH']; intros d k Hd Hlen.
  - by exists k.
  - simpl length in Hlen. rewrite (idle_cons _ _ _ _ _ (idle_neutral _ _ _ Hn)). apply IH; lia.
  - simpl length in Hlen. rewrite length_app in Hlen. simpl length in Hlen.
    destruct (scan_string q t q' t' d k Hq Ht Hq') as [k' ->]. rewrite (proj2 (Z.eqb_neq _ _)) by lia. apply IH; lia.
  - simpl length in Hlen. rewrite length_app in Hlen. simpl length in Hlen.
    rewrite (idle_cons _ _ _ _ _ (idle_open o d k Ho ltac:(lia))), scan_bytes_app.
    destruct (IH (d + 1) k) as [k1 ->]; [lia..|].
    rewrite (idle_cons _ _ _ _ _ (idle_close c d k1 Hc ltac:(lia))).
    destruct (IH' d k1) as [k2 ->]; [lia..|]. by exists k2.
Qed.

(** ** Members of the top-level object *)

Definition is_ws b : Prop := is_ascii_whitespace b = true.
Definition scalar_byte b : Prop := neutral b = true ∧ is_ascii_whitespace b = false ∧ (byte b =? 58) = false.

Inductive value_text : str → Prop :=
| vt_scalar b t : scalar_byte b → Forall scalar_byte t → value_text (b :: t)
| vt_string q t q' : is_quote q = true → string_body t → is_quote q' = true → value_text (q :: t ++ [q'])
| vt_group o t c : opens o = true → balanced t → closes c = true → value_text (o :: t ++ [c]).

Lemma ws_facts b : is_ws b → neutral b = true ∧ (byte b =? 58) = false.
Proof.
  unfold is_ws, is_ascii_whitespace, neutral, opens, closes, is_quote. intros Hb.
  repeat (apply orb_true_iff in Hb as [Hb|Hb]); apply Z.eqb_eq in Hb as ->; done.
Qed.

Lemma scan_ws t d k c v : Forall is_ws t → scan_bytes t (idle d k c v) = (idle d k c v, []).
Proof.
  induction 1 as [|b t Hb Ht IH]; [done|]. destruct (ws_facts _ Hb) as [Hn _]. rewrite scan_cons by done.
  assert (Hs : scan_byte b (idle d k c v) = (idle d k c v, [])).
  { destruct c, v; [..|by apply idle_neutral]; unfold scan_byte; cbn; unfold value_byte; cbn; by rewrite Hb. }
  by rewrite Hs, IH.
Qed.

Lemma scan_scalar t d k : Forall scalar_byte t → scan_bytes t (idle0 d k) = (idle0 d k, []).
Proof. induction 1 as [|b t (Hb & _) Ht IH]; [done|]. by rewrite (idle_cons _ _ _ _ _ (idle_neutral _ _ _ Hb)). Qed.

Lemma scan_group o t c d k : opens o = true → balanced t → closes c = true → 1 <= d →
  d + 1 + Z.of_nat (length t) <= u64_max → ∃ k', scan_bytes (o :: t ++ [c]) (idle0 d k) = (idle0 d k', []).
Proof.
  intros Ho Ht Hc Hd Hlen. rewrite (idle_cons _ _ _ _ _ (idle_open o d k Ho ltac:(lia))), scan_bytes_app.
  destruct (idle_balanced t Ht (d + 1) k) as [k1 ->]; [lia..|].
  rewrite (idle_cons _ _ _ _ _ (idle_close c d k1 Hc ltac:(lia))). by exists k1.
Qed.

(** A value at the top level; a string [usage] is taken for a key at first. *)
Lemma scan_value v k : value_text v → 1 + Z.of_nat (length v) <= u64_max →
  ∃ k' c, scan_bytes v (idle0 1 k) = (idle 1 k' c false, []).
Proof.
  destruct 1 as [b t Hb Ht|q t q' Hq Ht Hq'|o t c Ho Ht Hc]; intros Hlen.
  - exists k, false. apply scan_scalar. by constructor.
  - destruct (scan_string q t q' [] 1 k Hq Ht Hq') as [k' ->]. by eexists _, _.
  - simpl length in Hlen. rewrite length_app in Hlen. simpl length in Hlen.
    destruct (scan_group o t c 1 k Ho Ht Hc) as [k' ->]; [lia..|]. by exists k', false.
Qed.

(** The value of a [usage] member that is not an object is reported as null. *)
Lemma scan_usage_other b t k : is_ascii_whitespace b = false → (byte b =? 123) = false →
  scan_bytes (b :: t) (idle 1 k false true)
  = ((scan_bytes (b :: t) (idle0 1 k)).1, JNull :: (scan_bytes (b :: t) (idle0 1 k)).2).
Proof.
  intros Hw Hb. rewrite !scan_cons by done.
  assert (Hs : scan_byte b (idle 1 k false true) = ((scan_byte b (idle0 1 k)).1, JNull :: (scan_byte b (idle0 1 k)).2)).
  { unfold scan_byte. cbn. unfold value_byte. cbn. by rewrite Hw, Hb. }
  rewrite Hs. destruct (scan_byte b (idle0 1 k)) as [s1 v1]. simpl. by destruct (scan_bytes t s1).
Qed.

(** An object is captured whole. *)
Lemma scan_usage_object o t c k : (byte o =? 123) = true → balanced t → closes c = true →
  Z.of_nat (length (o :: t ++ [c])) <= MAX_USAGE_OBJECT_BYTES →
  scan_bytes (o :: t ++ [c]) (idle 1 k false true) = (idle0 1 k, [default JNull (from_slice (o :: t ++ [c]))]).
Proof.
  intros Ho Ht Hc Hlen. simpl length in Hlen. rewrite length_app in Hlen. simpl length in Hlen. rewrite scan_cons by done.
  assert (Hs : scan_byte o (idle 1 k false true) = (capturing (cap [o] 1 false false) (idle0 1 k), [])).
  { assert (Hw : is_ascii_whitespace o = false) by (unfold is_ascii_whitespace; by apply Z.eqb_eq in Ho as ->).
    unfold scan_byte. cbn. unfold value_byte. cbn. by rewrite Hw, Ho. }
  rewrite Hs, scan_bytes_app, capture_balanced; [|done|done|lia|simpl; lia].
  rewrite scan_cons by done. rewrite capture_close; [done|done|]. rewrite length_app. simpl. lia.
Qed.

Record Member := { mb_gap : str; mb_key : str; mb_before_colon : str; mb_after_colon : str; mb_value : str; mb_after : str }.

Definition quote : Ascii.ascii := Ascii.ascii_of_N 34.
Definition colon : Ascii.ascii := Ascii.ascii_of_N 58.
Definition comma : Ascii.ascii := Ascii.ascii_of_N 44.
Definition lbrace : Ascii.ascii := Ascii.ascii_of_N 123.
Definition rbrace : Ascii.ascii := Ascii.ascii_of_N 125.

Definition member_text (m : Member) : str :=
  m.(mb_gap) ++ quote :: m.(mb_key) ++ quote :: m.(mb_before_colon) ++ colon :: m.(mb_after_colon)
  ++ m.(mb_value) ++ m.(mb_after).
Fixpoint members_text (ms : list Member) : str :=
  match ms with [] => [] | [m] => member_text m | m :: ms => member_text m ++ comma :: members_text ms end.
Definition object_text (ms : list Member) : str := lbrace :: members_text ms ++ [rbrace].

Definition is_usage (m : Member) : bool := bool_decide (raw_key m.(mb_key) = bytes_of "usage").
Definition starts_object (v : str) : bool := match v with b :: _ => byte b =? 123 | [] => false end.

Record member_ok (m : Member) : Prop := {
  mo_gap : Forall is_ws m.(mb_gap);
  mo_key : string_body m.(mb_key);
  mo_before : Forall is_ws m.(mb_before_colon);
  mo_after_colon : Forall is_ws m.(mb_after_colon);
  mo_value : value_text m.(mb_value);
  mo_after : Forall is_ws m.(mb_after);
  mo_bound : is_usage m = true → Z.of_nat (length m.(mb_value)) <= MAX_USAGE_OBJECT_BYTES;
}.

(** What the scanner reports of a member. *)
Definition reported (m : Member) : list Json :=
  if is_usage m then [if starts_object m.(mb_value) then default JNull (from_slice m.(mb_value)) else JNull] else [].

Lemma scan_usage_value v k : value_text v → Z.of_nat (length v) <= MAX_USAGE_OBJECT_BYTES →
  ∃ k' c, scan_bytes v (idle 1 k false true)
    = (idle 1 k' c false, [if starts_object v then default JNull (from_slice v) else JNull]).
Proof.
  intros Hv Hlen. destruct (starts_object v) eqn:Hobj.
  - destruct Hv as [b t (Hb & _)|q t q' Hq|o t c Ho Ht Hc]; simpl in Hobj.
    + destruct (neutral_facts _ Hb) as [Ho _]. unfold opens in Ho. by rewrite Hobj in Ho.
    + apply Z.eqb_eq in Hobj, Hq. congruence.
    + exists k, false. by apply scan_usage_object.
  - destruct (scan_value v k Hv) as (k' & c & Hs); [unfold MAX_USAGE_OBJECT_BYTES in Hlen; unfold_ints; lia|].
    exists k', c. destruct v as [|b t]; [by inversion Hv|]. rewrite scan_usage_other, Hs; [done| |done].
    inversion Hv as [? ? (_ & Hw & _)|q ? ? Hq|o ? ? Ho]; subst; [done|..];
      unfold is_ascii_whitespace; [by apply Z.eqb_eq in Hq as ->|].
    apply orb_true_iff in Ho as [->%Z.eqb_eq| ->%Z.eqb_eq]; done.
Qed.

(** The key, the colon and the value. *)
Lemma scan_member m k : member_ok m → 1 + Z.of_nat (length (member_text m)) <= u64_max →
  ∃ k' c, scan_bytes (member_text m) (idle0 1 k) = (idle 1 k' c false, reported m).
Proof.
  intros [Hgap Hkey Hbefore Hafter Hvalue Hend Hbound] Hlen.
  assert (Hv : 1 + Z.of_nat (length (mb_value m)) <= u64_max).
  { unfold member_text in Hlen. rewrite !length_app in Hlen. simpl in Hlen. rewrite !length_app in Hlen. simpl in Hlen.
    rewrite !length_app in Hlen. simpl in Hlen. rewrite !length_app in Hlen. lia. }
  unfold member_text. rewrite scan_bytes_app, (scan_ws _ _ _ _ _ Hgap).
  destruct (scan_string quote (mb_key m) quote (mb_before_colon m ++ colon :: mb_after_colon m ++ mb_value m ++ mb_after m)
    1 k eq_refl Hkey eq_refl) as [k1 ->].
  change (1 =? 1) with true. cbn [andb]. change (bool_decide (raw_key (mb_key m) = _)) with (is_usage m).
  rewrite scan_bytes_app, (scan_ws _ _ _ _ _ Hbefore). unfold reported. destruct (is_usage m) eqn:Hu.
  - rewrite scan_cons by done. assert (Hc : scan_byte colon (idle 1 k1 true false) = (idle 1 k1 false true, [])) by done.
    rewrite Hc, scan_bytes_app, (scan_ws _ _ _ _ _ Hafter), scan_bytes_app.
    destruct (scan_usage_value (mb_value m) k1 Hvalue (Hbound eq_refl)) as (k2 & c & ->).
    rewrite (scan_ws _ _ _ _ _ Hend). by exists k2, c.
  - rewrite (idle_cons _ _ _ _ _ (idle_neutral colon 1 k1 eq_refl)), scan_bytes_app, (scan_ws _ _ _ _ _ Hafter), scan_bytes_app.
    destruct (scan_value (mb_value m) k1 Hvalue Hv) as (k2 & c & ->). rewrite (scan_ws _ _ _ _ _ Hend). by exists k2, c.
Qed.

Lemma scan_separator b k c : neutral b = true → is_ascii_whitespace b = false → (byte b =? 58) = false →
  scan_byte b (idle 1 k c false) = (idle0 1 k, []).
Proof.
  intros Hn Hw Hc. destruct c; [|by apply idle_neutral]. unfold scan_byte. cbn. unfold colon_byte. cbn. rewrite Hw, Hc.
  pose proof (idle_neutral b 1 k Hn) as Hi. unfold scan_byte in Hi. cbn in Hi. exact Hi.
Qed.
Lemma scan_rbrace k c : scan_byte rbrace (idle 1 k c false) = (idle0 0 k, []).
Proof. by destruct c. Qed.

Lemma scan_members ms : Forall member_ok ms → ∀ k, 1 + Z.of_nat (length (members_text ms)) <= u64_max →
  ∃ k' c, scan_bytes (members_text ms) (idle0 1 k) = (idle 1 k' c false, flat_map reported ms).
Proof.
  induction 1 as [|m ms Hm Hms IH]; intros k Hlen; [by exists k, false|].
  destruct ms as [|m' ms].
  - cbn [members_text flat_map]. rewrite app_nil_r. by apply scan_member.
  - change (members_text (m :: m' :: ms)) with (member_text m ++ comma :: members_text (m' :: ms)) in *.
    rewrite length_app in Hlen. cbn [length] in Hlen. rewrite scan_bytes_app.
    destruct (scan_member m k Hm) as (k1 & c1 & ->); [lia|]. rewrite scan_cons by done.
    rewrite (scan_separator comma k1 c1) by done. destruct (IH k1) as (k2 & c2 & ->); [lia|].
    exists k2, c2. done.
Qed.

(** ** Whole bodies *)

(** A body that arrives in chunks. *)
Definition push_chunks (chunks : list str) (s : TopLevelUsageScanner) : TopLevelUsageScanner * list Json :=
  foldl (λ sv chunk, let '(s, values) := sv in let '(s', values') := json_push chunk s in (s', values ++ values'))
    (s, []) chunks.

Lemma push_chunks_concat chunks s : push_chunks chunks s = scan_bytes (concat chunks) s.
Proof.
  unfold push_chunks, json_push. enough (Hgen : ∀ v, foldl (λ sv chunk, let '(s, values) := sv in
    let '(s', values') := scan_bytes chunk s in (s', values ++ values')) (s, v) chunks
    = let '(s', v') := scan_bytes (concat chunks) s in (s', v ++ v')).
  { rewrite Hgen. by destruct (scan_bytes _ _). }
  revert s. induction chunks as [|t chunks IH]; intros s v; simpl; [by rewrite app_nil_r|].
  rewrite scan_bytes_app. destruct (scan_bytes t s) as [s1 v1]. rewrite IH. destruct (scan_bytes _ s1).
  by rewrite app_assoc.
Qed.

Lemma scan_object ms before after : Forall is_ws before → Forall is_ws after → Forall member_ok ms →
  Z.of_nat (length (object_text ms)) <= u64_max →
  ∃ k, scan_bytes (before ++ object_text ms ++ after) scanner_default = (idle0 0 k, flat_map reported ms).
Proof.
  intros Hbefore Hafter Hms Hlen. unfold object_text in *. simpl length in Hlen. rewrite length_app in Hlen. simpl length in Hlen.
  change scanner_default with (idle0 0 []). rewrite scan_bytes_app, (scan_ws _ _ _ _ _ Hbefore).
  rewrite <- app_comm_cons. rewrite (idle_cons lbrace _ 0 [] (idle0 1 [])) by done.
  rewrite <- app_assoc, scan_bytes_app. destruct (scan_members ms Hms []) as (k & c & ->); [lia|].
  rewrite <- app_comm_cons, scan_cons by done. rewrite scan_rbrace, (scan_ws _ _ _ _ _ Hafter).
  exists k. cbn [app]. by rewrite !app_nil_r.
Qed.

(** ** Bounds *)

Definition scanner_bounded s : Prop :=
  (length s.(sc_key) ≤ 5)%nat ∧
  match s.(sc_capture) with Some c => Z.of_nat (length c.(oc_bytes)) <= MAX_USAGE_OBJECT_BYTES | None => True end.

Lemma oc_push_bytes b c : (oc_push b c).1.(oc_bytes) = c.(oc_bytes) ++ [b].
Proof. unfold oc_push. by repeat case_match. Qed.

Lemma push_key_bounded b s : scanner_bounded s → scanner_bounded (push_key b s).
Proof.
  intros [Hk Hc]. unfold push_key. destruct (Nat.ltb_spec (length (sc_key s)) 5); split; cbn; try done.
  rewrite length_app. simpl. lia.
Qed.
Lemma plain_byte_bounded b s : scanner_bounded s → scanner_bounded (plain_byte b s).
Proof.
  intros Hs. unfold plain_byte, string_byte.
  repeat match goal with |- context [if ?c then _ else _] => destruct c end; try (apply push_key_bounded); try exact Hs.
  split; cbn; [lia|apply Hs].
Qed.
Lemma scan_byte_bounded b s : scanner_bounded s → scanner_bounded (scan_byte b s).1.
Proof.
  intros Hs. pose proof Hs as [Hk Hc]. unfold scan_byte. destruct (sc_capture s) as [c|] eqn:Ec.
  - destruct (Z.eqb_spec (Z.of_nat (length (oc_bytes c))) MAX_USAGE_OBJECT_BYTES); [by split|].
    pose proof (oc_push_bytes b c) as Hp. destruct (oc_push b c) as [c' [v|]]; split; cbn; try done.
    cbn in Hp. rewrite Hp, length_app. simpl. lia.
  - unfold colon_byte, value_byte.
    repeat case_match; cbn [fst]; try done; try (apply plain_byte_bounded); split; cbn; rewrite ?Ec; done.
Qed.
Lemma scan_bytes_bounded t s : scanner_bounded s → scanner_bounded (scan_bytes t s).1.
Proof.
  revert s. induction t as [|b t IH]; intros s Hs; simpl; [done|]. destruct (sc_disabled s); [done|].
  pose proof (scan_byte_bounded b s Hs) as Hb. destruct (scan_byte b s) as [s1 v1]. specialize (IH s1 Hb).
  by destruct (scan_bytes t s1).
Qed.
End scan_properties.
