(* ===== verification/Collector.v ===== *)
(** * The usage collector of a response

    Models [UsageCollector] of [src/application/usage.rs]: it observes the chunks
    of a response body, or the events of a WebSocket, and reports the token
    usage, the protocol outcome and the details of an error. *)

From S2P Require Import Prelude Text Domain Json Usage ErrorText Sse SseFrames JsonScan.

Section collector.
Context `{JsonText} {P : Type} `{UsagePlugin P}.

Inductive CollectorMode := JsonMode (scanner : TopLevelUsageScanner) | SseMode (scanner : SseUsageScanner).

Record UsageCollector := {
  co_api_format : ApiFormat.t;
  co_parser : UsageParserConfig P;
  co_partial : AnthropicUsageSnapshot;
  co_mode : CollectorMode;
  co_latest : option ResponseUsage;
  co_terminal : option ResponseUsage;
  co_terminal_usage_seen : bool;
  co_outcome : option SseTerminalOutcome;
  co_response_error : option ResponseErrorDetails;
  co_error_body : option ErrorBodyCapture;
}.

Definition with_parser (api_format : ApiFormat.t) (sse : bool) (parser : UsageParserConfig P) : UsageCollector :=
  {| co_api_format := api_format; co_parser := parser; co_partial := snapshot_default;
     co_mode := if sse then SseMode sse_default else JsonMode scanner_default;
     co_latest := None; co_terminal := None; co_terminal_usage_seen := false; co_outcome := None;
     co_response_error := None; co_error_body := None |}.
Definition new (api_format : ApiFormat.t) (sse : bool) : UsageCollector :=
  with_parser api_format sse (General (default_usage_format api_format)).
Definition collector_reset (sse : bool) (c : UsageCollector) : UsageCollector :=
  with_parser c.(co_api_format) sse c.(co_parser).
Definition set_parser (parser : UsageParserConfig P) (c : UsageCollector) : UsageCollector :=
  with_parser c.(co_api_format) false parser.

(** Assignments. *)
Definition set_error_body (e : option ErrorBodyCapture) (c : UsageCollector) : UsageCollector :=
  {| co_api_format := c.(co_api_format); co_parser := c.(co_parser); co_partial := c.(co_partial);
     co_mode := c.(co_mode); co_latest := c.(co_latest); co_terminal := c.(co_terminal);
     co_terminal_usage_seen := c.(co_terminal_usage_seen); co_outcome := c.(co_outcome);
     co_response_error := c.(co_response_error); co_error_body := e |}.
Definition set_outcome (outcome : option SseTerminalOutcome) (error : option ResponseErrorDetails) (c : UsageCollector)
  : UsageCollector :=
  {| co_api_format := c.(co_api_format); co_parser := c.(co_parser); co_partial := c.(co_partial);
     co_mode := c.(co_mode); co_latest := c.(co_latest); co_terminal := c.(co_terminal);
     co_terminal_usage_seen := c.(co_terminal_usage_seen); co_outcome := outcome;
     co_response_error := error; co_error_body := c.(co_error_body) |}.
Definition set_mode (mode : CollectorMode) (c : UsageCollector) : UsageCollector :=
  {| co_api_format := c.(co_api_format); co_parser := c.(co_parser); co_partial := c.(co_partial);
     co_mode := mode; co_latest := c.(co_latest); co_terminal := c.(co_terminal);
     co_terminal_usage_seen := c.(co_terminal_usage_seen); co_outcome := c.(co_outcome);
     co_response_error := c.(co_response_error); co_error_body := c.(co_error_body) |}.
Definition set_usage (partial : AnthropicUsageSnapshot) (latest terminal : option ResponseUsage) (seen : bool)
    (c : UsageCollector) : UsageCollector :=
  {| co_api_format := c.(co_api_format); co_parser := c.(co_parser); co_partial := partial;
     co_mode := c.(co_mode); co_latest := latest; co_terminal := terminal;
     co_terminal_usage_seen := seen; co_outcome := c.(co_outcome);
     co_response_error := c.(co_response_error); co_error_body := c.(co_error_body) |}.

Definition capture_error_body (c : UsageCollector) : UsageCollector :=
  match c.(co_mode), c.(co_error_body) with
  | JsonMode _, None => set_error_body (Some capture_default) c
  | _, _ => c
  end.

Definition is_terminal_usage_event (api_format : ApiFormat.t) (value : Json) : bool :=
  match api_format with
  | ApiFormat.OpenAiChatCompletions =>
      match value_get value "choices" ≫= as_array with
      | Some choices =>
          (length choices =? 0)%nat
          || existsb (λ choice, match value_get choice "finish_reason" with Some r => negb (is_null r) | None => false end) choices
      | None => false
      end
  | ApiFormat.OpenAiResponses => typed (value_get value "type" ≫= as_str) ("response.completed" :: failed_names)
  | ApiFormat.OpenAiImages => false
  end.

(** One iteration of [record]; [last_terminal]: the value is the last one of a
    call that saw a terminal event. *)
Definition record_value (usage_objects last_terminal : bool) (value : Json) (c : UsageCollector) : UsageCollector :=
  match (if usage_objects then Some value else usage_object value) with
  | None => c
  | Some source =>
      let '(partial, usage) := parser_parse c.(co_parser) source c.(co_partial) in
      if is_terminal_usage_event c.(co_api_format) value || last_terminal
      then set_usage partial usage usage true c
      else set_usage partial usage (match usage with None => None | Some _ => c.(co_terminal) end)
             c.(co_terminal_usage_seen) c
  end.

Fixpoint record_values (values : list Json) (usage_objects terminal : bool) (c : UsageCollector) : UsageCollector :=
  match values with
  | [] => c
  | [value] => record_value usage_objects terminal value c
  | value :: values => record_values values usage_objects terminal (record_value usage_objects false value c)
  end.

(** The end of [observe] and [finalize]. *)
Definition observed (o : Observed) (usage_objects : bool) (c : UsageCollector) : UsageCollector :=
  let '(values, outcome, error) := o in
  let c := match c.(co_outcome) with None => set_outcome outcome error c | Some _ => c end in
  record_values values usage_objects (match outcome with Some _ => true | None => false end) c.

Definition observe (bytes : str) (c : UsageCollector) : UsageCollector :=
  match c.(co_outcome) with
  | Some _ => c
  | None =>
      let c := set_error_body (capture_push bytes <$> c.(co_error_body)) c in
      match c.(co_mode) with
      | JsonMode scanner =>
          let '(scanner, values) := json_push bytes scanner in
          observed (values, None, None) true (set_mode (JsonMode scanner) c)
      | SseMode scanner =>
          let '(scanner, o) := sse_push bytes c.(co_api_format) scanner in
          observed o false (set_mode (SseMode scanner) c)
      end
  end.

Definition finalize (c : UsageCollector) : UsageCollector :=
  match c.(co_outcome) with
  | Some _ => c
  | None =>
      match c.(co_mode) with
      | JsonMode scanner =>
          let '(scanner, values) := json_finalize scanner in
          observed (values, None, None) true (set_mode (JsonMode scanner) c)
      | SseMode scanner =>
          let '(scanner, o) := sse_finalize c.(co_api_format) scanner in
          observed o false (set_mode (SseMode scanner) c)
      end
  end.

Definition latest (c : UsageCollector) : option ResponseUsage :=
  if c.(co_terminal_usage_seen) then c.(co_terminal) else c.(co_latest).
Definition sse_terminal_outcome (c : UsageCollector) : option SseTerminalOutcome := c.(co_outcome).
Definition error_details (c : UsageCollector) : option ResponseErrorDetails :=
  match c.(co_response_error) with Some e => Some e | None => c.(co_error_body) ≫= capture_details end.

(** [kind]: the [type] member of [EventTypeProbe], [None] if the probe fails. *)
Definition observe_websocket_event (probe : str → option (option string)) (bytes : str) (c : UsageCollector)
  : UsageCollector * option SseTerminalOutcome :=
  match c.(co_outcome) with
  | Some _ => (c, None)
  | None =>
      match probe bytes with
      | None => (c, None)
      | Some kind =>
          let outcome := if typed kind ["response.completed"] then Some Completed
                         else if typed kind ("error" :: failed_names) then Some OutcomeFailed else None in
          match outcome, from_slice bytes with
          | Some o, Some value =>
              let error := if bool_decide (o = OutcomeFailed) then Some (extract_response_error value) else None in
              (record_values [value] false true (set_outcome outcome error c), outcome)
          | _, _ => (c, None)
          end
      end
  end.
End collector.
