(* ===== verification/Collection.v ===== *)
(** * What the collector reports

    Properties of the usage collector: its memory is bounded, and what it
    reports of a stream does not depend on how the stream is cut into chunks. *)

From S2P Require Import Prelude Text Domain Json Usage ErrorText Sse SseFrames JsonScan Collector.

(** ** Recording values *)

Section recording.
Context `{JsonText} {P : Type} `{UsagePlugin P}.
Implicit Types (c : UsageCollector (P := P)) (v : Json) (vs : list Json).

(** The part of a collector that recording does not touch. *)
Lemma record_value_frame uo b v c :
  let c' := record_value uo b v c in
  co_api_format c' = co_api_format c ∧ co_parser c' = co_parser c ∧ co_mode c' = co_mode c ∧
  co_outcome c' = co_outcome c ∧ co_response_error c' = co_response_error c ∧ co_error_body c' = co_error_body c.
Proof.
  unfold record_value. destruct (if uo then _ else _); [|done]. destruct (parser_parse _ _ _).
  by destruct (_ || _).
Qed.
Lemma record_values_frame uo b vs : ∀ c,
  let c' := record_values vs uo b c in
  co_api_format c' = co_api_format c ∧ co_parser c' = co_parser c ∧ co_mode c' = co_mode c ∧
  co_outcome c' = co_outcome c ∧ co_response_error c' = co_response_error c ∧ co_error_body c' = co_error_body c.
Proof.
  induction vs as [|v vs IH]; intros c; [done|]. destruct vs as [|v' vs]; [apply record_value_frame|].
  destruct (record_value_frame uo false v c) as (E1 & E2 & E3 & E4 & E5 & E6).
  destruct (IH (record_value uo false v c)) as (F1 & F2 & F3 & F4 & F5 & F6).
  rewrite <- E1, <- E2, <- E3, <- E4, <- E5, <- E6. done.
Qed.

(** Recording reads only the usage part, so it commutes with the rest. *)
Lemma record_value_mode uo b v m c : record_value uo b v (set_mode m c) = set_mode m (record_value uo b v c).
Proof.
  unfold record_value. destruct (if uo then _ else _); [|done]. cbn. destruct (parser_parse _ _ _). by destruct (_ || _).
Qed.
Lemma record_values_mode uo b vs m : ∀ c, record_values vs uo b (set_mode m c) = set_mode m (record_values vs uo b c).
Proof.
  induction vs as [|v vs IH]; intros c; [done|]. destruct vs as [|v' vs]; [apply record_value_mode|].
  cbn [record_values]. rewrite record_value_mode. apply IH.
Qed.
Lemma record_value_outcome uo b v o e c :
  record_value uo b v (set_outcome o e c) = set_outcome o e (record_value uo b v c).
Proof.
  unfold record_value. destruct (if uo then _ else _); [|done]. cbn. destruct (parser_parse _ _ _). by destruct (_ || _).
Qed.
Lemma record_values_outcome uo b vs o e : ∀ c,
  record_values vs uo b (set_outcome o e c) = set_outcome o e (record_values vs uo b c).
Proof.
  induction vs as [|v vs IH]; intros c; [done|]. destruct vs as [|v' vs]; [apply record_value_outcome|].
  cbn [record_values]. rewrite record_value_outcome. apply IH.
Qed.

Lemma record_values_app uo b vs vs' : vs' ≠ [] → ∀ c,
  record_values (vs ++ vs') uo b c = record_values vs' uo b (record_values vs uo false c).
Proof.
  intros Hne. induction vs as [|v vs IH]; intros c; [done|]. cbn [app]. destruct vs as [|v' vs].
  - by destruct vs'.
  - cbn [app record_values] in *. apply IH.
Qed.
Lemma record_values_app_false uo vs vs' c :
  record_values (vs ++ vs') uo false c = record_values vs' uo false (record_values vs uo false c).
Proof.
  destruct vs' as [|v' vs']; [by rewrite app_nil_r|]. by apply record_values_app.
Qed.

(** ** When the flag of the last value matters *)

(** A value with a usage object that ends the usage of its stream. *)
Definition terminal_usage (fmt : ApiFormat.t) v : bool :=
  match usage_object v with Some _ => is_terminal_usage_event fmt v | None => false end.

(** No further usage follows the one that ends it. *)
Definition settled (fmt : ApiFormat.t) vs : bool :=
  match rev vs with
  | [] => true
  | v :: before =>
      match usage_object v with None => true | Some _ => is_terminal_usage_event fmt v end
      || negb (existsb (terminal_usage fmt) before)
  end.

Lemma record_value_seen v c :
  (record_value false false v c).(co_terminal_usage_seen) = c.(co_terminal_usage_seen) || terminal_usage c.(co_api_format) v.
Proof.
  unfold record_value, terminal_usage. destruct (usage_object v) as [u|]; [|by rewrite orb_false_r].
  destruct (parser_parse _ _ _). rewrite orb_false_r. destruct (is_terminal_usage_event _ _); cbn; by rewrite ?orb_true_r, ?orb_false_r.
Qed.
Lemma record_values_seen vs : ∀ c,
  (record_values vs false false c).(co_terminal_usage_seen)
  = c.(co_terminal_usage_seen) || existsb (terminal_usage c.(co_api_format)) vs.
Proof.
  induction vs as [|v vs IH]; intros c; [by rewrite orb_false_r|].
  assert (E : record_values (v :: vs) false false c = record_values vs false false (record_value false false v c))
    by by destruct vs.
  rewrite E, IH, record_value_seen. destruct (record_value_frame false false v c) as (-> & _). cbn. by rewrite orb_assoc.
Qed.

(** The flag of a value changes the report only if an earlier value ended the usage. *)
Lemma record_value_flag v c :
  match usage_object v with None => true | Some _ => is_terminal_usage_event c.(co_api_format) v end
  || negb c.(co_terminal_usage_seen) = true →
  latest (record_value false true v c) = latest (record_value false false v c).
Proof.
  unfold record_value. destruct (usage_object v) as [u|]; [|done]. destruct (parser_parse _ _ _) as [p r].
  rewrite orb_true_r, orb_false_r. destruct (is_terminal_usage_event _ _); [done|].
  destruct (co_terminal_usage_seen c) eqn:Hs; [done|]. done.
Qed.

(** The same for the values of a stream, the last of them recorded in a call with
    or without the terminal event. *)
Lemma record_values_flag vs vs' c : c.(co_terminal_usage_seen) = false → settled c.(co_api_format) (vs ++ vs') = true →
  latest (record_values vs' false true (record_values vs false false c)) = latest (record_values (vs ++ vs') false false c).
Proof.
  intros Hc. rewrite record_values_app_false. destruct (rev vs') as [|v rvs] eqn:Er.
  { apply (f_equal (@rev _)) in Er. rewrite rev_involutive in Er. by subst vs'. }
  apply (f_equal (@rev _)) in Er. rewrite rev_involutive in Er. cbn in Er. subst vs'.
  unfold settled. rewrite app_assoc, rev_unit. intros Hset. set (c1 := record_values vs false false c).
  rewrite (record_values_app false true), record_values_app_false by done. cbn [record_values].
  set (c2 := record_values (rev rvs) false false c1).
  assert (Hc2 : c2 = record_values (vs ++ rev rvs) false false c) by (unfold c2, c1; by rewrite record_values_app_false).
  apply record_value_flag. rewrite Hc2, record_values_seen, Hc. cbn [orb].
  destruct (record_values_frame false false (vs ++ rev rvs) c) as (-> & _).
  apply orb_true_iff in Hset as [->|Hset]; [done|]. apply orb_true_iff. right. rewrite negb_true_iff in *.
  apply not_true_iff_false in Hset. apply not_true_iff_false. intros (x & Hx & Ht)%existsb_exists. apply Hset.
  apply existsb_exists. exists x. split; [|done]. by apply in_rev in Hx.
Qed.
End recording.

(** ** Streams *)

Section streams.
Context `{JsonText} {P : Type} `{UsagePlugin P}.
Context (fmt : ApiFormat.t) (parser : UsageParserConfig P).
Implicit Types (os : list SseFrameObservation) (s t : str) (chunks : list str).
Abbreviation obs := (observations fmt).

(** The terminal observation has a value of its own. *)
Fixpoint carries os : bool :=
  match os with
  | [] => false
  | o :: os' => match o.(ob_terminal) with
                | Some _ => match o.(ob_value) with Some _ => true | None => false end
                | None => carries os'
                end
  end.

Lemma carries_significant os : carries (List.filter significant os) = carries os.
Proof.
  induction os as [|o os IH]; [done|]. cbn [List.filter]. unfold significant at 1.
  destruct (ob_value o) eqn:Ev, (ob_terminal o) eqn:Et; cbn [carries]; rewrite ?Ev, ?Et; done.
Qed.
Lemma carries_app os os' : carries (os ++ os') = match (collect os).1.2 with Some _ => carries os | None => carries os' end.
Proof.
  induction os as [|o os IH]; cbn [app collect carries]; [done|]. destruct (ob_terminal o); [done|].
  rewrite IH. by destruct (collect os) as [[? []] ?].
Qed.
Lemma carries_value os : carries os = true → (collect os).1.1 ≠ [].
Proof.
  induction os as [|o os IH]; cbn [collect carries]; [done|]. destruct (ob_terminal o).
  - by destruct (ob_value o).
  - intros Hc%IH. destruct (collect os) as [[v ?] ?]. cbn in *. by destruct (ob_value o).
Qed.
Lemma collect_no_error os : Forall (λ o, o.(ob_terminal) = None → o.(ob_error) = None) os →
  (collect os).1.2 = None → (collect os).2 = None ∧ carries os = false.
Proof.
  induction 1 as [|o os Ho Hos IH]; [done|]. cbn [collect carries]. destruct (ob_terminal o); [done|].
  destruct (collect os) as [[v ?] ?]. cbn in *. auto.
Qed.

Lemma observations_errors s : Forall (λ o, o.(ob_terminal) = None → o.(ob_error) = None) (obs s).1.
Proof.
  induction s as [s IH] using length_ind. rewrite observations_step. destruct (frame_len true s) as [n|] eqn:E; [|done].
  apply frame_len_bound in E. specialize (IH (drop n s)). destruct (obs (drop n s)) as [os r].
  constructor; [apply ob_error_terminal|]. apply IH. rewrite length_drop. lia.
Qed.

(** What is reported of a stream [s ++ t], from the reports of its parts. *)
Lemma collect_split s t :
  collect (obs (s ++ t)).1 =
    (let '(v, o, e) := collect (obs s).1 in
     match o with
     | Some _ => (v, o, e)
     | None => let '(v', o', e') := collect (obs ((obs s).2 ++ t)).1 in (v ++ v', o', e')
     end) ∧
  carries (obs (s ++ t)).1 =
    match (collect (obs s).1).1.2 with Some _ => carries (obs s).1 | None => carries (obs ((obs s).2 ++ t)).1 end.
Proof.
  destruct (observations_app fmt s t) as [Hos _]. split.
  - rewrite <- collect_significant, Hos, collect_app, !collect_significant. done.
  - rewrite <- carries_significant, Hos, carries_app, collect_significant, !carries_significant. done.
Qed.

Lemma observations_rest s : (length (obs s).2 ≤ length s)%nat.
Proof.
  induction s as [s IH] using length_ind. rewrite observations_step. destruct (frame_len true s) as [n|] eqn:E; [|done].
  apply frame_len_bound in E. specialize (IH (drop n s)). rewrite length_drop in IH.
  destruct (obs (drop n s)) as [os r]. cbn in *. lia.
Qed.

(** A push of the scanner. *)
Lemma sse_push_spec s t : Z.of_nat (length s + length t) <= MAX_SSE_FRAME_BYTES →
  let '(v, o, e) := collect (obs (s ++ t)).1 in
  ∃ rest, sse_push t fmt {| sse_bytes := s; sse_disabled := false |}
    = ({| sse_bytes := rest; sse_disabled := false |}, (v, o, e)) ∧ (o = None → rest = (obs (s ++ t)).2).
Proof.
  intros Hlen. unfold sse_push. cbn [sse_disabled sse_bytes]. rewrite (proj2 (Z.ltb_ge _ _)) by done.
  pose proof (drain_frames_spec fmt (s ++ t) (S (length (s ++ t))) [] ltac:(lia)) as Hd.
  destruct (collect (obs (s ++ t)).1) as [[v o] e]. destruct Hd as (rest & -> & Hr). exists rest. done.
Qed.

Definition start_sse : UsageCollector := with_parser fmt true parser.
Definition feed chunks : UsageCollector := foldl (λ c t, observe t c) start_sse chunks.

(** The collector between chunks. *)
Definition scanning (rest : str) (vs : list Json) : UsageCollector :=
  set_mode (SseMode {| sse_bytes := rest; sse_disabled := false |}) (record_values vs false false start_sse).

Lemma scanning_facts rest vs :
  (scanning rest vs).(co_outcome) = None ∧ (scanning rest vs).(co_response_error) = None ∧
  (scanning rest vs).(co_error_body) = None ∧ (scanning rest vs).(co_api_format) = fmt ∧
  (scanning rest vs).(co_mode) = SseMode {| sse_bytes := rest; sse_disabled := false |}.
Proof.
  unfold scanning. destruct (record_values_frame false false vs start_sse) as (E1 & _ & _ & E4 & E5 & E6). cbn in *.
  done.
Qed.

Lemma set_error_body_id (c : UsageCollector (P := P)) : set_error_body c.(co_error_body) c = c.
Proof. by destruct c. Qed.
Lemma set_outcome_id (c : UsageCollector (P := P)) : set_outcome c.(co_outcome) c.(co_response_error) c = c.
Proof. by destruct c. Qed.
Lemma set_mode_twice m m' (c : UsageCollector (P := P)) : set_mode m (set_mode m' c) = set_mode m c.
Proof. done. Qed.

(** One more chunk: the values of its frames are recorded. *)
Lemma observe_scanning s vs t : Z.of_nat (length s + length t) <= MAX_SSE_FRAME_BYTES →
  let '(v, o, e) := collect (obs (s ++ t)).1 in
  ∃ rest, (o = None → rest = (obs (s ++ t)).2) ∧
    observe t (scanning s vs)
    = set_outcome o e (set_mode (SseMode {| sse_bytes := rest; sse_disabled := false |})
        (record_values v false (match o with Some _ => true | None => false end) (record_values vs false false start_sse))).
Proof.
  intros Hlen. pose proof (sse_push_spec s t Hlen) as Hpush. destruct (collect (obs (s ++ t)).1) as [[v o] e].
  destruct Hpush as (rest & Hpush & Hrest). exists rest. split; [done|].
  destruct (scanning_facts s vs) as (Ho & He & Hb & Hf & Hm). unfold observe. rewrite Ho, Hb. cbn [fmap option_fmap option_map].
  pose proof (set_error_body_id (scanning s vs)) as Hid. rewrite Hb in Hid. rewrite Hid, Hm, Hf, Hpush.
  unfold observed. cbn [co_outcome set_mode]. rewrite Ho. unfold scanning.
  by rewrite set_mode_twice, record_values_outcome, record_values_mode.
Qed.

(** What the collector has reported after some chunks, in terms of the stream. *)
Lemma feed_spec chunks : Z.of_nat (length (concat chunks)) <= MAX_SSE_FRAME_BYTES →
  let '(v, o, e) := collect (obs (concat chunks)).1 in
  (feed chunks).(co_outcome) = o ∧ (feed chunks).(co_response_error) = e ∧
  (o = None → feed chunks = scanning (obs (concat chunks)).2 v) ∧
  (carries (obs (concat chunks)).1 || settled fmt v = true →
     latest (feed chunks) = latest (record_values v false (carries (obs (concat chunks)).1) start_sse)).
Proof.
  induction chunks as [|t chunks IH] using rev_ind; [done|]. rewrite concat_app. cbn [concat]. rewrite app_nil_r.
  set (s := concat chunks) in *. intros Hlen. rewrite length_app in Hlen. specialize (IH ltac:(lia)).
  unfold feed. rewrite foldl_app. cbn [foldl]. fold (feed chunks).
  destruct (collect_split s t) as [-> ->]. pose proof (collect_no_error (obs s).1 (observations_errors s)) as Hnone.
  destruct (collect (obs s).1) as [[v o] e]. cbn [fst snd] in *. destruct IH as (Ho & He & Hscan & Hlatest).
  destruct o as [o|].
  { assert (Hobs : observe t (feed chunks) = feed chunks) by (unfold observe; by rewrite Ho). by rewrite Hobs. }
  rewrite (Hscan eq_refl). destruct (Hnone eq_refl) as [-> Hcar]. pose proof (observations_rest s) as Hrest.
  pose proof (observe_scanning (obs s).2 v t ltac:(lia)) as Hobs. pose proof (collect_no_error _ (observations_errors ((obs s).2 ++ t))) as Hnone'.
  pose proof (carries_value (obs ((obs s).2 ++ t)).1) as Hval.
  destruct (collect (obs ((obs s).2 ++ t)).1) as [[v' o'] e']. cbn [fst snd] in *. destruct Hobs as (rest & Hr & ->).
  split; [done|]. split; [done|]. split.
  - intros ->. rewrite (Hr eq_refl). destruct (Hnone' eq_refl) as [-> _]. unfold scanning. rewrite record_values_app_false.
    destruct (observations_app fmt s t) as [_ ->].
    pose proof (set_outcome_id (scanning (obs ((obs s).2 ++ t)).2 (v ++ v'))) as Hid.
    destruct (scanning_facts (obs ((obs s).2 ++ t)).2 (v ++ v')) as (E1 & E2 & _). rewrite E1, E2 in Hid.
    unfold scanning in Hid. by rewrite record_values_app_false in Hid.
  - change (latest (set_outcome _ _ (set_mode _ ?c))) with (latest c). destruct (carries (obs ((obs s).2 ++ t)).1) eqn:Hc'.
    + intros _. rewrite record_values_app by by apply Hval. destruct o'; [done|]. destruct (Hnone' eq_refl) as [_ Hf]. congruence.
    + cbn [orb]. intros Hset. destruct o' as [o'|].
      * by apply record_values_flag.
      * by rewrite record_values_app_false.
Qed.

Lemma observe_error_body t (c : UsageCollector (P := P)) : c.(co_error_body) = None → (observe t c).(co_error_body) = None.
Proof.
  intros Hb. unfold observe. destruct (co_outcome c); [done|]. rewrite Hb. cbn [fmap option_fmap option_map co_mode set_error_body].
  destruct (co_mode c); [destruct (json_push t scanner) as [s v]|destruct (sse_push _ _ _) as [s [[v o] e]]];
    unfold observed; cbn [co_outcome set_mode set_error_body]; destruct (co_outcome c);
    by match goal with |- co_error_body (record_values ?vs ?uo ?b ?c) = _ =>
      destruct (record_values_frame uo b vs c) as (_ & _ & _ & _ & _ & ->) end.
Qed.
Lemma feed_error_body chunks : (feed chunks).(co_error_body) = None.
Proof.
  unfold feed. induction chunks as [|t chunks IH] using rev_ind; [done|]. rewrite foldl_app. by apply observe_error_body.
Qed.
End streams.

(** ** JSON bodies *)

Section bodies.
Context `{JsonText} {P : Type} `{UsagePlugin P}.
Implicit Types (c : UsageCollector (P := P)) (t : str) (chunks : list str).

(** The collector of a JSON body, as it is between chunks. *)
Definition json_bounded c : Prop :=
  match c.(co_error_body) with Some b => (length b.(cap_bytes) ≤ MAX_ERROR_SUMMARY_BYTES)%nat | None => True end.

Lemma record_values_error_body uo b vs e : ∀ c,
  record_values vs uo b (set_error_body e c) = set_error_body e (record_values vs uo b c).
Proof.
  assert (Hone : ∀ b v c, record_value uo b v (set_error_body e c) = set_error_body e (record_value uo b v c)).
  { intros b' v c. unfold record_value. destruct (if uo then _ else _); [|done]. cbn. destruct (parser_parse _ _ _). by destruct (_ || _). }
  induction vs as [|v vs IH]; intros c; [done|]. destruct vs as [|v' vs]; [apply Hone|].
  cbn [record_values]. rewrite Hone. apply IH.
Qed.

Lemma observe_json t c scanner : c.(co_outcome) = None → c.(co_response_error) = None → c.(co_mode) = JsonMode scanner →
  observe t c = set_mode (JsonMode (scan_bytes t scanner).1) (set_error_body (capture_push t <$> c.(co_error_body))
    (record_values (scan_bytes t scanner).2 true false c)).
Proof.
  intros Ho He Hm. unfold observe. rewrite Ho. cbn [co_mode set_error_body]. rewrite Hm. unfold json_push.
  destruct (scan_bytes t scanner) as [sc vs]. unfold observed. cbn [co_outcome set_mode set_error_body fst snd]. rewrite Ho.
  rewrite record_values_outcome, record_values_mode, record_values_error_body.
  set (c1 := set_mode _ _). pose proof (set_outcome_id c1) as Hid.
  destruct (record_values_frame true false vs c) as (_ & _ & _ & E1 & E2 & _).
  change (co_outcome c1) with (co_outcome (record_values vs true false c)) in Hid.
  change (co_response_error c1) with (co_response_error (record_values vs true false c)) in Hid.
  by rewrite E1, E2, Ho, He in Hid.
Qed.

(** A JSON body may be cut anywhere. *)
Lemma observe_json_app t t' c scanner : c.(co_outcome) = None → c.(co_response_error) = None →
  c.(co_mode) = JsonMode scanner → json_bounded c → observe (t ++ t') c = observe t' (observe t c).
Proof.
  intros Ho He Hm Hb. rewrite !(observe_json _ c scanner) by done.
  destruct (record_values_frame true false (scan_bytes t scanner).2 c) as (_ & _ & _ & E1 & E2 & E3).
  rewrite (observe_json _ _ (scan_bytes t scanner).1) by (cbn; congruence).
  rewrite record_values_mode, record_values_error_body, <- record_values_app_false, scan_bytes_app.
  destruct (scan_bytes t scanner) as [s1 v1]. cbn [fst snd] in *. destruct (scan_bytes t' s1) as [s2 v2]. cbn [fst snd].
  unfold set_mode, set_error_body. cbn. f_equal. unfold json_bounded in Hb.
  destruct (co_error_body c) as [b|]; [|done]. cbn. f_equal. by apply capture_push_app.
Qed.

Definition start_json (fmt : ApiFormat.t) (parser : UsageParserConfig P) (capture : bool) : UsageCollector :=
  (if capture then capture_error_body else id) (with_parser fmt false parser).

Lemma start_json_facts fmt parser capture :
  let c := start_json fmt parser capture in
  c.(co_outcome) = None ∧ c.(co_response_error) = None ∧ c.(co_mode) = JsonMode scanner_default ∧ json_bounded c.
Proof. destruct capture; repeat split; try done. apply Nat.le_0_l. Qed.

Lemma feed_json chunks c scanner : c.(co_outcome) = None → c.(co_response_error) = None →
  c.(co_mode) = JsonMode scanner → json_bounded c → chunks ≠ [] →
  foldl (λ c t, observe t c) c chunks = observe (concat chunks) c.
Proof.
  intros Ho He Hm Hb Hne. destruct chunks as [|t chunks]; [done|]. clear Hne. revert t.
  induction chunks as [|t' chunks IH] using rev_ind; intros t; [cbn; by rewrite app_nil_r|].
  rewrite app_comm_cons, foldl_app, IH. cbn [foldl]. rewrite <- (observe_json_app _ _ _ scanner) by done.
  f_equal. cbn. rewrite concat_app. cbn. by rewrite app_nil_r, app_assoc.
Qed.
End bodies.

Lemma finalize_idle `{JsonText} {P : Type} `{UsagePlugin P} (c : UsageCollector (P := P)) d k e :
  c.(co_outcome) = None → c.(co_response_error) = None →
  finalize (set_mode (JsonMode (idle d k false false)) (set_error_body e c))
  = set_mode (JsonMode (idle d k false false)) (set_error_body e c).
Proof. intros Ho He. destruct c. cbn in *. by subst. Qed.

(** ** Every operation *)

Section operations.
Context `{JsonText} {P : Type} `{UsagePlugin P}.
Implicit Types (c : UsageCollector (P := P)).

Inductive Operation :=
| Observe (bytes : str)
| Finalize
| CaptureErrorBody
| WebsocketEvent (probe : str → option (option string)) (bytes : str)
| Reset (sse : bool)
| SetParser (parser : UsageParserConfig P).

Definition operate c (op : Operation) : UsageCollector :=
  match op with
  | Observe bytes => observe bytes c
  | Finalize => finalize c
  | CaptureErrorBody => capture_error_body c
  | WebsocketEvent probe bytes => (observe_websocket_event probe bytes c).1
  | Reset sse => collector_reset sse c
  | SetParser parser => set_parser parser c
  end.

(** The counters of a usage record: totals include their parts. *)
Definition canonical (u : ResponseUsage) : Prop :=
  0 <= u.(ru_cached_input_tokens) <= u.(ru_input_tokens) ∧ 0 <= u.(ru_cache_write_tokens) <= u.(ru_input_tokens) ∧
  0 <= u.(ru_reasoning_tokens) <= u.(ru_output_tokens).

Definition buffers_bounded c : Prop :=
  match c.(co_mode) with
  | JsonMode s => scanner_bounded s
  | SseMode s => Z.of_nat (length s.(sse_bytes)) <= MAX_SSE_FRAME_BYTES
  end ∧ json_bounded c.
Definition usage_canonical c : Prop :=
  (∀ u, c.(co_latest) = Some u → canonical u) ∧ (∀ u, c.(co_terminal) = Some u → canonical u).
Definition collector_ok c : Prop := buffers_bounded c ∧ usage_canonical c.

Lemma validate_canonical u : usage_validate u = true → canonical (response_usage u).
Proof. unfold usage_validate, canonical. rewrite !andb_true_iff, !Z.leb_le. simpl. lia. Qed.

Lemma parse_general_canonical format v u : parse_general_usage format v = Some u → usage_validate u = true.
Proof.
  unfold parse_general_usage. destruct (_ || _); [done|]. intros (p & _ & Hp)%bind_Some.
  destruct (usage_validate p) eqn:E; [|done]. by injection Hp as <-.
Qed.

Lemma parser_canonical (config : UsageParserConfig P) v partial u :
  (parser_parse config v partial).2 = Some u → canonical u.
Proof.
  assert (Hgen : ∀ f x, response_usage <$> parse_general_usage f x = Some u → canonical u).
  { intros f x (w & Hw%parse_general_canonical & ->)%fmap_Some. by apply validate_canonical. }
  destruct config as [[]|plugin operation interface]; cbn [parser_parse snd]; try apply Hgen.
  - destruct (bounded_usage_body v); [|done]. destruct (snapshot_observe v partial) as [p [x|]]; [|done]. apply Hgen.
  - unfold parse_plugin. intros (body & _ & Hb)%bind_Some. destruct (negb _); [done|].
    apply bind_Some in Hb as (out & _ & Hout). destruct (_ || _); [done|].
    apply bind_Some in Hout as ([w|] & _ & Hw); [|done]. destruct (usage_validate w) eqn:Ew; [|done].
    injection Hw as <-. by apply validate_canonical.
Qed.

Lemma record_value_canonical uo b v c : usage_canonical c → usage_canonical (record_value uo b v c).
Proof.
  intros [Hl Ht]. unfold record_value. destruct (if uo then _ else _) as [x|]; [|done].
  pose proof (parser_canonical (co_parser c) x (co_partial c)) as Hp. destruct (parser_parse _ _ _) as [p r]. cbn in Hp.
  destruct (_ || _); split; cbn; auto. by destruct r.
Qed.
Lemma record_values_canonical uo b vs : ∀ c, usage_canonical c → usage_canonical (record_values vs uo b c).
Proof.
  induction vs as [|v vs IH]; intros c Hc; [done|]. destruct vs as [|v' vs]; [by apply record_value_canonical|].
  cbn [record_values]. apply IH. by apply record_value_canonical.
Qed.

Lemma record_values_buffers uo b vs c : buffers_bounded c → buffers_bounded (record_values vs uo b c).
Proof.
  unfold buffers_bounded, json_bounded. destruct (record_values_frame uo b vs c) as (_ & _ & -> & _ & _ & ->). done.
Qed.
Lemma observed_ok o uo c : collector_ok c → collector_ok (observed o uo c).
Proof.
  intros [Hb Hu]. unfold observed. destruct o as [[vs outcome] error].
  destruct (co_outcome c); (split; [by apply record_values_buffers|by apply record_values_canonical]).
Qed.

Lemma drain_frames_length fmt : ∀ fuel bytes vs,
  (length (drain_frames fuel bytes fmt vs).1 ≤ length bytes)%nat.
Proof.
  induction fuel as [|fuel IH]; intros bytes vs; cbn [drain_frames]; [done|].
  destruct (sse_frame_end bytes) as [n|]; [|done]. destruct (ob_terminal _); [cbn; rewrite length_drop; lia|].
  etransitivity; [apply IH|]. rewrite length_drop. lia.
Qed.
Lemma sse_push_length fmt t s : Z.of_nat (length s.(sse_bytes)) <= MAX_SSE_FRAME_BYTES →
  Z.of_nat (length (sse_push t fmt s).1.(sse_bytes)) <= MAX_SSE_FRAME_BYTES.
Proof.
  intros Hs. unfold sse_push. destruct (sse_disabled s); [done|]. destruct (Z.ltb_spec MAX_SSE_FRAME_BYTES
    (Z.of_nat (length (sse_bytes s) + length t))) as [|Hle]; [done|].
  pose proof (drain_frames_length fmt (S (length (sse_bytes s ++ t))) (sse_bytes s ++ t) []) as Hd.
  destruct (drain_frames _ _ _ _) as [rest o]. cbn in *. rewrite length_app in Hd. lia.
Qed.

Lemma operate_ok c op : collector_ok c → collector_ok (operate c op).
Proof.
  intros Hc. pose proof Hc as [[Hm Hb] Hu]. destruct op as [bytes| | |probe bytes|sse|parser]; cbn [operate].
  - unfold observe. destruct (co_outcome c); [done|]. cbn [co_mode set_error_body co_api_format].
    assert (Hb' : match capture_push bytes <$> co_error_body c with
      | Some b => (length b.(cap_bytes) ≤ MAX_ERROR_SUMMARY_BYTES)%nat | None => True end).
    { unfold json_bounded in Hb. destruct (co_error_body c) as [b|]; [|done].
      cbn [fmap option_fmap option_map capture_push cap_bytes]. rewrite length_app, length_take. lia. }
    destruct (co_mode c) as [s|s].
    + pose proof (scan_bytes_bounded bytes s Hm) as Hs. unfold json_push. destruct (scan_bytes bytes s) as [s' vs].
      by apply observed_ok.
    + pose proof (sse_push_length (co_api_format c) bytes s Hm) as Hs. destruct (sse_push _ _ _) as [s' o].
      by apply observed_ok.
  - unfold finalize. destruct (co_outcome c); [done|]. destruct (co_mode c) as [s|s].
    + unfold json_finalize. destruct (_ && _); (apply observed_ok; split; [split; [|done]|done]); [|done].
      destruct Hm as [Hk _]. split; [done|done].
    + unfold sse_finalize. destruct (sse_disabled s); (apply observed_ok; split; [split; [|done]|done]); done.
  - unfold capture_error_body. destruct (co_mode c) eqn:Em; [|done]. destruct (co_error_body c); [done|].
    split; [split|done]; cbn; rewrite ?Em; [done|apply Nat.le_0_l].
  - unfold observe_websocket_event. destruct (co_outcome c); [done|]. destruct (probe bytes) as [kind|]; [|done].
    destruct (if typed kind _ then _ else _); [|done]. destruct (from_slice bytes); [|done]. cbn [fst].
    split; [by apply record_values_buffers|by apply record_values_canonical].
  - destruct sse; repeat split; try done; apply Nat.le_0_l.
  - repeat split; try done; apply Nat.le_0_l.
Qed.
End operations.

(** ** Claims *)

Lemma reported_usage `{JsonText} ms : flat_map reported ms = flat_map reported (List.filter is_usage ms).
Proof.
  induction ms as [|m ms IH]; [done|]. cbn. unfold reported at 1. destruct (is_usage m) eqn:Hu; [|done].
  cbn. unfold reported at 2. rewrite Hu. by rewrite IH.
Qed.

Section collection_claims.
Context `{JsonText} {P : Type} `{UsagePlugin P}.

(** The usage of a stream does not depend on the call that sees its end: the
    terminal event has a value, or no usage follows the one that ends it. *)
Definition well_ended (fmt : ApiFormat.t) (stream : str) : bool :=
  let os := (observations fmt stream).1 in carries os || settled fmt (collect os).1.1.

(** C11: Chunks are irrelevant: however an event stream of at most the frame limit is
    cut into chunks, also inside lines and line ends, the collector reports the
    outcome and the error it reports of the whole stream at once, before and
    after [finalize], and the same usage for streams that end well. *)
Theorem stream_chunks_irrelevant fmt (parser : UsageParserConfig P) chunks :
  Z.of_nat (length (concat chunks)) <= MAX_SSE_FRAME_BYTES →
  let cut := finalize (feed fmt parser chunks) in
  let whole := finalize (feed fmt parser [concat chunks]) in
  sse_terminal_outcome cut = sse_terminal_outcome whole ∧ error_details cut = error_details whole ∧
  (well_ended fmt (concat chunks) = true → latest cut = latest whole).
Proof.
  intros Hlen. pose proof (feed_spec fmt parser chunks Hlen) as Hcut.
  pose proof (feed_spec fmt parser [concat chunks]) as Hwhole. cbn [concat] in Hwhole. rewrite app_nil_r in Hwhole.
  specialize (Hwhole Hlen). unfold well_ended. destruct (collect (observations fmt (concat chunks)).1) as [[v o] e].
  destruct Hcut as (Ho & He & Hs & Hl), Hwhole as (Ho' & He' & Hs' & Hl'). destruct o as [o|].
  - assert (Hfin : ∀ c : UsageCollector (P := P), c.(co_outcome) = Some o → finalize c = c)
      by (intros c Hc; unfold finalize; by rewrite Hc).
    rewrite !Hfin by done. unfold sse_terminal_outcome, error_details.
    rewrite Ho, Ho', He, He'. split; [done|]. split; [|intros Hw; by rewrite Hl, Hl'].
    destruct e; [done|]. rewrite !feed_error_body. done.
  - rewrite (Hs eq_refl), (Hs' eq_refl). done.
Qed.

(** A JSON body, whole or in chunks, with one top-level [usage] member of at most
    the capture limit is reported with exactly what the configured parser makes
    of that member; without such a member nothing is reported. *)
Theorem json_body_usage fmt (parser : UsageParserConfig P) capture chunks before ms after :
  chunks ≠ [] → concat chunks = before ++ object_text ms ++ after →
  Forall is_ws before → Forall is_ws after → Forall member_ok ms → Z.of_nat (length (object_text ms)) <= u64_max →
  let c := finalize (foldl (λ c t, observe t c) (start_json fmt parser capture) chunks) in
  (List.filter is_usage ms = [] → latest c = None) ∧
  (∀ m, List.filter is_usage ms = [m] →
     latest c = (parser_parse parser (if starts_object m.(mb_value) then default JNull (from_slice m.(mb_value)) else JNull)
                   snapshot_default).2).
Proof.
  intros Hne Hcat Hbefore Hafter Hms Hlen c. unfold c. destruct (start_json_facts fmt parser capture) as (Ho & He & Hm & Hb).
  rewrite (feed_json _ _ scanner_default) by done. rewrite Hcat, (observe_json _ _ scanner_default) by done.
  destruct (scan_object ms before after Hbefore Hafter Hms Hlen) as [k ->]. cbn [fst snd].
  rewrite finalize_idle by (destruct (record_values_frame true false (flat_map reported ms) (start_json fmt parser capture))
    as (_ & _ & _ & E1 & E2 & _); by rewrite ?E1, ?E2).
  rewrite reported_usage. split.
  - intros ->. by destruct capture.
  - intros m Hf. rewrite Hf. assert (Hu : is_usage m = true) by (eapply proj2, filter_In; by rewrite Hf; left).
    cbn [flat_map]. unfold reported. rewrite Hu. cbn [app record_values]. unfold record_value.
    by destruct capture; cbn; destruct (parser_parse _ _ _) as [? []]; destruct (is_terminal_usage_event _ _).
Qed.

(** The collector is safe to feed with anything: after any sequence of operations
    its buffers are within their limits and the usage it reports is consistent,
    with totals that include their cached, written and reasoning parts. *)
Theorem collector_invariant fmt sse (parser : UsageParserConfig P) ops :
  let c := foldl operate (with_parser fmt sse parser) ops in
  buffers_bounded c ∧ ∀ u, latest c = Some u → canonical u.
Proof.
  assert (Hok : collector_ok (foldl operate (with_parser fmt sse parser) ops)).
  { assert (Hstart : collector_ok (with_parser fmt sse parser)) by (destruct sse; repeat split; try done; apply Nat.le_0_l).
    revert Hstart. generalize (with_parser fmt sse parser). induction ops as [|op ops IH]; intros c Hc; [done|].
    by apply IH, operate_ok. }
  destruct Hok as [Hb [Hl Ht]]. split; [done|]. intros u. unfold latest. destruct (co_terminal_usage_seen _); auto.
Qed.
End collection_claims.
