(* ===== verification/CollectionExamples.v ===== *)
(** * Collected responses

    Executions of the usage collector with a JSON reader that knows the texts
    used here. *)

From S2P Require Import Prelude Text Domain Json Usage ErrorText Sse SseFrames JsonScan Collector Collection.

(** Texts are written with apostrophes for quotation marks. *)
Definition quoted (s : string) : str := map (λ c, if byte c =? 39 then quote else c) (bytes_of s).
Definition line (s : string) : str := quoted s ++ [ascii_z 10].
Definition crlf : str := [ascii_z 13; ascii_z 10].

Definition usage_text (n : string) : string := "{'prompt_tokens':" +:+ n +:+ ",'completion_tokens':" +:+ n +:+ "}".
Definition usage_value (n : Z) : Json := JObject [("completion_tokens", count n); ("prompt_tokens", count n)].
(** A chunk that ends its choice, and one that does not, with a usage object. *)
Definition final_text : string := "{'choices':[{'finish_reason':'stop'}],'usage':" +:+ usage_text "1" +:+ "}".
Definition final_value : Json :=
  JObject [("choices", JArray [JObject [("finish_reason", JString "stop")]]); ("usage", usage_value 1)].
Definition later_text : string := "{'choices':[{'finish_reason':null}],'usage':" +:+ usage_text "2" +:+ "}".
Definition later_value : Json :=
  JObject [("choices", JArray [JObject [("finish_reason", JNull)]]); ("usage", usage_value 2)].

#[export] Instance example_json : JsonText := {
  from_slice bytes :=
    if bool_decide (bytes = quoted final_text) then Some final_value
    else if bool_decide (bytes = quoted later_text) then Some later_value
    else if bool_decide (bytes = quoted (usage_text "1")) then Some (usage_value 1)
    else None;
  to_vec _ := bytes_of "{}";
  pretty _ := bytes_of "{}";
  number_text _ := bytes_of "0";
}.
#[export] Instance no_plugin : UsagePlugin False := {
  plugin_call p _ _ _ := match p with end;
  output_from_value _ := None;
}.

Abbreviation chat := ApiFormat.OpenAiChatCompletions.
Definition chat_parser : UsageParserConfig False := General UOpenAiChatCompletions.

Definition reports (chunks : list str) (input : Z) : bool :=
  match latest (finalize (feed chat chat_parser chunks)) with
  | Some u => u.(ru_input_tokens) =? input
  | None => false
  end.

(** ** Usage after the end of a choice *)

Definition first_event : str := quoted ("data: " +:+ final_text) ++ crlf ++ crlf.
Definition second_event : str := quoted ("data: " +:+ later_text) ++ crlf ++ crlf.
Definition done_event : str := quoted "data: [DONE]" ++ crlf ++ crlf.

Lemma cut_reports_first : reports [first_event; second_event; done_event] 1 = true.
Proof. vm_cast_no_check (eq_refl true). Qed.
Lemma whole_reports_second : reports [first_event ++ second_event ++ done_event] 2 = true.
Proof. vm_cast_no_check (eq_refl true). Qed.

Lemma reports_usage chunks n : reports chunks n = true →
  ∃ u, latest (finalize (feed chat chat_parser chunks)) = Some u ∧ u.(ru_input_tokens) = n.
Proof. unfold reports. destruct (latest _) as [u|]; [|done]. intros E%Z.eqb_eq. by exists u. Qed.

(** C35: The usage of a stream can depend on how it is cut: when usage follows the
    event that ended a choice, the collector reports the ending one, unless
    the last usage arrives together with [DONE], which then counts as the
    terminal summary. *)
Theorem usage_depends_on_chunks : ∃ chunks chunks' u u',
  concat chunks = concat chunks' ∧ Z.of_nat (length (concat chunks)) <= MAX_SSE_FRAME_BYTES ∧
  latest (finalize (feed chat chat_parser chunks)) = Some u ∧
  latest (finalize (feed chat chat_parser chunks')) = Some u' ∧ u.(ru_input_tokens) ≠ u'.(ru_input_tokens).
Proof.
  destruct (reports_usage _ _ cut_reports_first) as (u & Hu & Hn), (reports_usage _ _ whole_reports_second) as (u' & Hu' & Hn').
  exists [first_event; second_event; done_event], [first_event ++ second_event ++ done_event], u, u'.
  split; [done|]. split; [by vm_compute|]. split; [exact Hu|]. split; [exact Hu'|]. lia.
Qed.

(** ** A stream cut inside its line ends *)

Definition cut_stream : list str :=
  [quoted "data: " ; quoted final_text ++ [ascii_z 13]; [ascii_z 10; ascii_z 13]; ascii_z 10 :: done_event].

Lemma cut_stream_ends : well_ended chat (concat cut_stream) = true.
Proof. vm_cast_no_check (eq_refl true). Qed.

Lemma stream_chunks_irrelevant_witness :
  Z.of_nat (length (concat cut_stream)) <= MAX_SSE_FRAME_BYTES ∧
  latest (finalize (feed chat chat_parser cut_stream)) = latest (finalize (feed chat chat_parser [concat cut_stream])).
Proof.
  assert (Hlen : Z.of_nat (length (concat cut_stream)) <= MAX_SSE_FRAME_BYTES) by (by vm_compute).
  split; [exact Hlen|].
  exact (proj2 (proj2 (stream_chunks_irrelevant chat chat_parser cut_stream Hlen)) cut_stream_ends).
Defined.

(** ** A body in two chunks *)

Definition usage_member : Member :=
  {| mb_gap := bytes_of " "; mb_key := bytes_of "usage"; mb_before_colon := []; mb_after_colon := bytes_of " ";
     mb_value := quoted (usage_text "1"); mb_after := [] |}.
Definition id_member : Member :=
  {| mb_gap := []; mb_key := bytes_of "id"; mb_before_colon := []; mb_after_colon := [];
     mb_value := quoted "'usage'"; mb_after := [] |}.
Definition body : str := object_text [id_member; usage_member].

Lemma plain_body t : forallb (λ b, negb (is_quote b) && negb (is_backslash b)) t = true → string_body t.
Proof.
  induction t as [|b t IH]; [constructor|]. cbn. intros [[Hq Hb]%andb_true_iff Ht]%andb_true_iff.
  apply negb_true_iff in Hq, Hb. apply sb_plain; auto.
Qed.
Lemma neutral_text t t' : forallb neutral t = true → balanced t' → balanced (t ++ t').
Proof. induction t as [|b t IH]; [done|]. cbn. intros [Hb Ht]%andb_true_iff Hr. apply ba_neutral; auto. Qed.

Lemma usage_text_value : value_text (quoted (usage_text "1")).
Proof.
  apply (vt_group lbrace (quote :: bytes_of "prompt_tokens" ++ quote :: bytes_of ":1," ++
    quote :: bytes_of "completion_tokens" ++ quote :: bytes_of ":1" ++ []) rbrace); [done| |done].
  apply (ba_string quote (bytes_of "prompt_tokens") quote); [done|by apply plain_body|done|].
  apply neutral_text; [done|].
  apply (ba_string quote (bytes_of "completion_tokens") quote); [done|by apply plain_body|done|].
  apply neutral_text; [done|constructor].
Qed.

Lemma body_members : Forall member_ok [id_member; usage_member].
Proof.
  apply Forall_cons; split; [|apply Forall_cons; split; [|constructor]]; split; try (by apply plain_body); try done;
    try (by repeat constructor).
  - apply (vt_string quote (bytes_of "usage") quote); [done|by apply plain_body|done].
  - apply usage_text_value.
Qed.

Lemma json_body_usage_witness :
  latest (finalize (foldl (λ c t, observe t c) (start_json chat chat_parser false) [take 20 body; drop 20 body]))
  = (parser_parse chat_parser (usage_value 1) snapshot_default).2.
Proof.
  refine (proj2 (json_body_usage chat chat_parser false [take 20 body; drop 20 body] [] [id_member; usage_member] []
    _ _ (Forall_nil_2 _) (Forall_nil_2 _) body_members _) usage_member eq_refl); [done|reflexivity|by vm_compute].
Defined.
