(* ===== verification/Headers.v ===== *)
(** * HTTP headers

    The [http] crate's header types as the gateway uses them, and the header
    name lists of [src/request_policy.rs].  A [HeaderName] is its lower-case
    text and a [HeaderValue] its bytes; the multimap [HeaderMap] is third-party
    code: a class of operations with the documented laws, so that no theorem
    depends on its representation. *)

From S2P Require Import Prelude Text.

(** ** Names and values *)

Class HeaderText : Type := {
  header_name : str → option string;       (** [HeaderName::from_bytes] *)
  header_value : string → option str;      (** [HeaderValue::from_str] *)
  header_to_str : str → option string;     (** [HeaderValue::to_str] *)
}.

(** The characters [HeaderValue::to_str] accepts. *)
Definition visible (c : Ascii.ascii) : bool := ((32 <=? byte c) && (byte c <? 127)) || (byte c =? 9).

Class HeaderTextLaws `{HeaderText} : Prop := {
  header_name_empty : header_name [] = None;
  header_to_str_visible : ∀ v s, header_to_str v = Some s → bytes_of s = v ∧ forallb visible v = true;
}.

(** ** Multimaps *)

Class HeaderLib : Type := {
  HeaderMap : Type;
  headers_new : HeaderMap;                                  (** [HeaderMap::new] *)
  get_all : HeaderMap → string → list str;
  headers_insert : HeaderMap → string → str → HeaderMap;
  headers_append : HeaderMap → string → str → HeaderMap;
  headers_remove : HeaderMap → string → HeaderMap;
  headers_iter : HeaderMap → list (string * str);           (** every name with each of its values *)
  headers_keys : HeaderMap → list string;
}.

Class HeaderLaws `{HeaderLib} : Prop := {
  get_all_new : ∀ n, get_all headers_new n = [];
  get_all_insert : ∀ m n v n', get_all (headers_insert m n v) n' = if String.eqb n n' then [v] else get_all m n';
  get_all_append : ∀ m n v n', get_all (headers_append m n v) n' = if String.eqb n n' then get_all m n' ++ [v] else get_all m n';
  get_all_remove : ∀ m n n', get_all (headers_remove m n) n' = if String.eqb n n' then [] else get_all m n';
  iter_values : ∀ m n, map snd (List.filter (λ e, String.eqb e.1 n) (headers_iter m)) = get_all m n;
  keys_values : ∀ m n, n ∈ headers_keys m ↔ get_all m n ≠ [];
}.

(** ** Reserved names *)

Definition header_is_hop_by_hop (name : string) : bool :=
  existsb (String.eqb name)
    ["connection"; "keep-alive"; "proxy-authenticate"; "proxy-authorization"; "proxy-connection"; "te";
     "trailer"; "transfer-encoding"; "upgrade"].

Definition request_header_is_protected (name : string) : bool :=
  header_is_hop_by_hop name
  || existsb (String.eqb name)
       ["host"; "content-length"; "content-encoding"; "authorization"; "cookie"; "accept-encoding"].

(** ** Lemmas *)

Section multimap.
Context `{HL : HeaderLib} `{!HeaderLaws}.
Implicit Types m : HeaderMap.

(** Appending values one by one. *)
Lemma get_all_append_list m n vs n' :
  get_all (foldl (λ m v, headers_append m n v) m vs) n'
  = if String.eqb n n' then get_all m n' ++ vs else get_all m n'.
Proof.
  revert m; induction vs as [|v vs IH]; intros m; simpl.
  - destruct (String.eqb n n'); by rewrite ?app_nil_r.
  - rewrite IH, get_all_append. destruct (String.eqb n n'); [by rewrite <-app_assoc|done].
Qed.

Lemma get_all_remove_list m ns n :
  get_all (foldl headers_remove m ns) n = if existsb (String.eqb n) ns then [] else get_all m n.
Proof.
  revert m; induction ns as [|k ns IH]; intros m; simpl; [done|].
  rewrite IH, get_all_remove, (String.eqb_sym k n).
  destruct (String.eqb n k); simpl; [|done]. by destruct (existsb _ ns).
Qed.
End multimap.

Lemma existsb_eqb_elem n (l : list string) : existsb (String.eqb n) l = true ↔ n ∈ l.
Proof.
  induction l as [|k l IH]; simpl; [split; [done|by intros ?%elem_of_nil]|].
  rewrite orb_true_iff, IH, elem_of_cons, String.eqb_eq. done.
Qed.

Lemma existsb_eqb_bool n (l : list string) : existsb (String.eqb n) l = bool_decide (n ∈ l).
Proof. apply eq_bool_prop_intro. rewrite bool_decide_spec, Is_true_true. apply existsb_eqb_elem. Qed.
