(* ===== verification/JsonPatch.v ===== *)
(** * JSON Pointer and JSON Patch

    The crates [json-patch], [jsonptr] and the pointer methods of
    [serde_json::Value] are third-party code: [PatchLib] holds the operations
    the transforms call and [PatchLaws] says that they implement RFC 6901
    (pointers) and RFC 6902 (add, replace, remove), given by the executable
    definitions of this file.  The lemmas bound what an operation can change. *)

From S2P Require Import Prelude Text Json.

(** ** Objects and values *)

(** [BTreeMap::remove] *)
Fixpoint map_delete (fields : list (string * Json)) (key : string) : list (string * Json) :=
  match fields with
  | [] => []
  | (k, v) :: fields' => if String.eqb k key then map_delete fields' key else (k, v) :: map_delete fields' key
  end.

(** [BTreeMap::append]: the entries of [other] replace those of [fields]. *)
Definition map_append (fields other : list (string * Json)) : list (string * Json) :=
  foldl (λ fields e, map_insert fields e.1 e.2) fields other.

(** [Value] equality: floats are compared as numbers, so the two zeros are
    equal; no [Value] holds a NaN. *)
Definition number_eqb (a b : Number) : bool :=
  match a, b with
  | Int x, Int y => x =? y
  | Float x, Float y => (x =? y) || ((x mod 2 ^ 63 =? 0) && (y mod 2 ^ 63 =? 0))
  | _, _ => false
  end.

Fixpoint json_eqb (a b : Json) {struct a} : bool :=
  match a, b with
  | JNull, JNull => true
  | JBool x, JBool y => Bool.eqb x y
  | JNumber x, JNumber y => number_eqb x y
  | JString x, JString y => String.eqb x y
  | JArray l, JArray l' =>
      (fix eqb_list (l l' : list Json) : bool :=
         match l, l' with
         | [], [] => true
         | x :: l, y :: l' => json_eqb x y && eqb_list l l'
         | _, _ => false
         end) l l'
  | JObject f, JObject f' =>
      (fix eqb_fields (f f' : list (string * Json)) : bool :=
         match f, f' with
         | [], [] => true
         | (k, x) :: f, (k', y) :: f' => String.eqb k k' && json_eqb x y && eqb_fields f f'
         | _, _ => false
         end) f f'
  | _, _ => false
  end.

(** ** RFC 6901: pointers *)

Definition digits_value (s : str) : Z := foldl (λ n c, 10 * n + (byte c - 48)) 0 s.

(** An array index: decimal digits without a leading zero, in the range of
    [usize]. *)
Definition array_index (token : string) : option nat :=
  match bytes_of token with
  | [] => None
  | c :: s =>
      if forallb is_ascii_digit (c :: s) && (negb (byte c =? 48) || bool_decide (s = []))
         && (digits_value (c :: s) <? 2 ^ 64)
      then Some (Z.to_nat (digits_value (c :: s))) else None
  end.

Definition child (token : string) (v : Json) : option Json :=
  match v with
  | JObject fields => map_get fields token
  | JArray l => i ← array_index token; l !! i
  | _ => None
  end.

Fixpoint lookup_path (tokens : list string) (v : Json) : option Json :=
  match tokens with
  | [] => Some v
  | t :: tokens => child t v ≫= lookup_path tokens
  end.

(** The text of a pointer. *)
Definition pointer_text (tokens : list string) : string :=
  string_of (encode_pointer (String.list_ascii_of_string <$> tokens)).

(** ** RFC 6902: operations *)

Definition set_child (token : string) (c : Json) (v : Json) : option Json :=
  match v with
  | JObject fields => _ ← map_get fields token; Some (JObject (map_insert fields token c))
  | JArray l => i ← array_index token; _ ← l !! i; Some (JArray (<[i := c]> l))
  | _ => None
  end.

(** [g] at the node [tokens] points to. *)
Fixpoint alter_path (g : Json → option Json) (tokens : list string) (v : Json) : option Json :=
  match tokens with
  | [] => g v
  | t :: tokens => c ← child t v; c' ← alter_path g tokens c; set_child t c' v
  end.

Definition add_member (token : string) (x : Json) (v : Json) : option Json :=
  match v with
  | JObject fields => Some (JObject (map_insert fields token x))
  | JArray l =>
      if String.eqb token "-" then Some (JArray (l ++ [x]))
      else i ← array_index token; if (i <=? length l)%nat then Some (JArray (take i l ++ x :: drop i l)) else None
  | _ => None
  end.

Definition remove_member (token : string) (v : Json) : option Json :=
  match v with
  | JObject fields => _ ← map_get fields token; Some (JObject (map_delete fields token))
  | JArray l => i ← array_index token; _ ← l !! i; Some (JArray (take i l ++ drop (S i) l))
  | _ => None
  end.

(** A member operation at a non-empty path. *)
Fixpoint at_parent (g : string → Json → option Json) (tokens : list string) (v : Json) : option Json :=
  match tokens with
  | [] => None
  | [t] => g t v
  | t :: tokens => c ← child t v; c' ← at_parent g tokens c; set_child t c' v
  end.

Definition rfc_add (tokens : list string) (x v : Json) : option Json :=
  match tokens with [] => Some x | _ => at_parent (λ t, add_member t x) tokens v end.
Definition rfc_replace (tokens : list string) (x v : Json) : option Json :=
  alter_path (λ _, Some x) tokens v.
Definition rfc_remove (tokens : list string) (v : Json) : option Json := at_parent remove_member tokens v.

(** ** The libraries *)

Inductive PatchOperation := AddOperation (path : string) (value : Json)
| ReplaceOperation (path : string) (value : Json) | RemoveOperation (path : string).

Class PatchLib : Type := {
  pointer_valid : string → bool;                    (** [PointerBuf::parse] succeeds *)
  patch : Json → PatchOperation → option Json;      (** [json_patch::patch] of one operation *)
  value_pointer : Json → string → option Json;      (** [Value::pointer], and what [pointer_mut] refers to *)
  pointer_assign : Json → string → Json → Json;     (** a write through [pointer_mut] *)
}.

Class PatchLaws `{PatchLib} : Prop := {
  pointer_text_valid : ∀ ts, pointer_valid (pointer_text ts) = true;
  patch_add : ∀ v ts x, patch v (AddOperation (pointer_text ts) x) = rfc_add ts x v;
  patch_replace : ∀ v ts x, patch v (ReplaceOperation (pointer_text ts) x) = rfc_replace ts x v;
  patch_remove : ∀ v t ts, patch v (RemoveOperation (pointer_text (t :: ts))) = rfc_remove (t :: ts) v;
  value_pointer_text : ∀ v ts, value_pointer v (pointer_text ts) = lookup_path ts v;
  pointer_assign_text : ∀ v ts old x, lookup_path ts v = Some old →
    Some (pointer_assign v (pointer_text ts) x) = alter_path (λ _, Some x) ts v;
}.

(** ** Array indices are canonical *)

Lemma digits_value_snoc s c : digits_value (s ++ [c]) = 10 * digits_value s + (byte c - 48).
Proof. unfold digits_value. by rewrite foldl_app. Qed.

Lemma digits_value_bounds s :
  forallb is_ascii_digit s = true → 0 ≤ digits_value s < 10 ^ Z.of_nat (length s).
Proof.
  induction s as [|c s IH] using rev_ind; [done|].
  rewrite forallb_app. intros [Hs Hc]%andb_true_iff. simpl in Hc. rewrite andb_true_r in Hc.
  rewrite digits_value_snoc, length_app, Nat2Z.inj_add, Z.pow_add_r by lia.
  apply is_ascii_digit_range in Hc. specialize (IH Hs). change (10 ^ Z.of_nat (length [c])) with 10. lia.
Qed.

Lemma digits_value_inj s s' :
  length s = length s' → forallb is_ascii_digit s = true → forallb is_ascii_digit s' = true →
  digits_value s = digits_value s' → s = s'.
Proof.
  revert s'. induction s as [|c s IH] using rev_ind; intros s' Hl Hs Hs' Hv.
  { by destruct s'. }
  destruct s' as [|c' s' _] using rev_ind; [by rewrite length_app in Hl; simpl in Hl; lia|].
  rewrite !length_app in Hl. rewrite !forallb_app in Hs, Hs'.
  apply andb_true_iff in Hs as [Hs Hc], Hs' as [Hs' Hc']. simpl in Hc, Hc', Hl.
  rewrite andb_true_r in Hc, Hc'. rewrite !digits_value_snoc in Hv.
  apply is_ascii_digit_range in Hc, Hc'.
  rewrite (IH s') by (done || lia). f_equal. f_equal. apply byte_inj. lia.
Qed.

(** Without a leading zero the length is determined by the value. *)
Lemma digits_value_lower c s :
  forallb is_ascii_digit (c :: s) = true → byte c ≠ 48 → 10 ^ Z.of_nat (length s) ≤ digits_value (c :: s).
Proof.
  induction s as [|d s IH] using rev_ind; intros Hd Hc.
  - simpl in Hd. rewrite andb_true_r in Hd. apply is_ascii_digit_range in Hd.
    unfold digits_value. simpl. lia.
  - rewrite app_comm_cons, forallb_app in Hd. apply andb_true_iff in Hd as [Hd Hx].
    simpl in Hx. rewrite andb_true_r in Hx. apply is_ascii_digit_range in Hx.
    rewrite app_comm_cons, digits_value_snoc, length_app, Nat2Z.inj_add, Z.pow_add_r by lia.
    specialize (IH Hd Hc). change (10 ^ Z.of_nat (length [d])) with 10. lia.
Qed.

Lemma array_index_spec t i :
  array_index t = Some i ↔
  ∃ c s, bytes_of t = c :: s ∧ forallb is_ascii_digit (c :: s) = true ∧ (byte c ≠ 48 ∨ s = [])
         ∧ digits_value (c :: s) < 2 ^ 64 ∧ i = Z.to_nat (digits_value (c :: s)).
Proof.
  unfold array_index. destruct (bytes_of t) as [|c s]; [naive_solver|].
  destruct (_ && _) eqn:E; [|split; [done|]].
  - apply andb_true_iff in E as [[E1 E2]%andb_true_iff E3%Z.ltb_lt].
    apply orb_true_iff in E2. rewrite negb_true_iff, Z.eqb_neq, bool_decide_eq_true in E2. naive_solver.
  - intros (c' & s' & [= <- <-] & H1 & H2 & H3 & _). rewrite H1, (proj2 (Z.ltb_lt _ _) H3) in E.
    rewrite andb_true_r in E. simpl in E. apply orb_false_iff in E as [E1 E2].
    rewrite negb_false_iff, Z.eqb_eq in E1. apply bool_decide_eq_false in E2. tauto.
Qed.

Lemma digits_length_le c s c' s' :
  forallb is_ascii_digit (c :: s) = true → forallb is_ascii_digit (c' :: s') = true →
  (byte c' ≠ 48 ∨ s' = []) → digits_value (c :: s) = digits_value (c' :: s') → (length s' ≤ length s)%nat.
Proof.
  intros Hd Hd' [Hc| ->] Hv; [|simpl; lia].
  pose proof (digits_value_lower c' s' Hd' Hc). pose proof (digits_value_bounds _ Hd) as Hb.
  simpl length in Hb. destruct (decide (length s' ≤ length s)%nat) as [|Hn]; [done|].
  pose proof (Z.pow_le_mono_r 10 (Z.of_nat (S (length s))) (Z.of_nat (length s'))). lia.
Qed.

(** Different tokens are different indices. *)
Lemma array_index_inj t t' i : array_index t = Some i → array_index t' = Some i → t = t'.
Proof.
  intros (c & s & Ht & Hd & Hz & Hm & Hi)%array_index_spec (c' & s' & Ht' & Hd' & Hz' & Hm' & Hi')%array_index_spec.
  apply bytes_of_inj. rewrite Ht, Ht'.
  assert (digits_value (c :: s) = digits_value (c' :: s')) as Hv.
  { pose proof (digits_value_bounds _ Hd). pose proof (digits_value_bounds _ Hd'). lia. }
  apply digits_value_inj; [|done..]. simpl.
  pose proof (digits_length_le c s c' s' Hd Hd' Hz' Hv).
  pose proof (digits_length_le c' s' c s Hd' Hd Hz (eq_sym Hv)). lia.
Qed.

(** ** What an operation leaves alone *)

Lemma map_get_delete_ne fields key key' :
  key' ≠ key → map_get (map_delete fields key) key' = map_get fields key'.
Proof.
  intros Hne. induction fields as [|[k v] fields IH]; simpl; [done|].
  destruct (String.eqb_spec k key) as [->|]; simpl; [|by rewrite IH].
  destruct (String.eqb_spec key key') as [->|]; [done|done].
Qed.

Lemma map_get_delete fields key : map_get (map_delete fields key) key = None.
Proof.
  induction fields as [|[k v] fields IH]; simpl; [done|].
  destruct (String.eqb_spec k key); simpl; [done|].
  destruct (String.eqb_spec k key); [done|done].
Qed.

Lemma set_child_same t c v v' : set_child t c v = Some v' → child t v' = Some c.
Proof.
  destruct v; simpl; try done; intros H.
  - destruct (array_index t) as [i|] eqn:Ei; simplify_eq/=.
    destruct (l !! i) eqn:El; simplify_eq/=. rewrite Ei. simpl.
    apply list_lookup_insert_eq. by apply lookup_lt_Some in El.
  - destruct (map_get fields t); simplify_eq/=. apply map_get_insert.
Qed.

Lemma set_child_other t k c v v' : set_child t c v = Some v' → k ≠ t → child k v' = child k v.
Proof.
  destruct v; simpl; try done; intros H Hne.
  - destruct (array_index t) as [i|] eqn:Ei; simplify_eq/=.
    destruct (l !! i) eqn:El; simplify_eq/=. destruct (array_index k) as [m|] eqn:Ej; [|done]. simpl.
    apply list_lookup_insert_ne. intros ->. apply Hne. by eapply array_index_inj.
  - destruct (map_get fields t); simplify_eq/=. by apply map_get_insert_ne.
Qed.

(** The members of a node a change leaves alone: those of other names that are
    not array indices. *)
Definition member_local (g : string → Json → option Json) : Prop :=
  ∀ t v v' k, g t v = Some v' → k ≠ t → array_index k = None → child k v' = child k v.

Lemma add_member_local x : member_local (λ t, add_member t x).
Proof.
  intros t v v' k Hg Hne Hk. destruct v; simpl in Hg; try done.
  - destruct (String.eqb t "-"); simplify_eq/=; [by rewrite Hk|].
    destruct (array_index t); simplify_eq/=. case_match; simplify_eq/=. by rewrite Hk.
  - simplify_eq/=. by apply map_get_insert_ne.
Qed.

Lemma remove_member_local : member_local remove_member.
Proof.
  intros t v v' k Hg Hne Hk. destruct v; simpl in Hg; try done.
  - destruct (array_index t); simplify_eq/=. destruct (l !! n); simplify_eq/=. by rewrite Hk.
  - destruct (map_get fields t); simplify_eq/=. by apply map_get_delete_ne.
Qed.

(** [spares p q]: an operation at [p] leaves what [q] points to alone, because
    the two paths part, at the last token of [p] with a token that is not an
    array index (a removal or insertion shifts the elements of an array). *)
Fixpoint spares (p q : list string) : Prop :=
  match p, q with
  | [a], k :: _ => k ≠ a ∧ array_index k = None
  | a :: p, k :: q => k ≠ a ∨ (k = a ∧ spares p q)
  | _, _ => False
  end.

Lemma at_parent_cons g a b p v v' :
  at_parent g (a :: b :: p) v = Some v' →
  ∃ c c', child a v = Some c ∧ at_parent g (b :: p) c = Some c' ∧ set_child a c' v = Some v'.
Proof.
  change (at_parent g (a :: b :: p) v) with (c ← child a v; c' ← at_parent g (b :: p) c; set_child a c' v).
  intros (c & Hc & (c' & Hc' & Hs)%bind_Some)%bind_Some. eauto.
Qed.

Lemma at_parent_spares g p q v v' :
  member_local g → at_parent g p v = Some v' → spares p q → lookup_path q v' = lookup_path q v.
Proof.
  intros Hg. revert q v v'. induction p as [|a p IH]; [done|]; intros q v v' Hp Hs.
  destruct q as [|k q]; [by destruct p|]. destruct p as [|b p].
  - destruct Hs as [Hne Hk]. cbn [lookup_path]. by rewrite (Hg _ _ _ _ Hp Hne Hk).
  - apply at_parent_cons in Hp as (c & c' & Hc & Hp & Hset). cbn [lookup_path].
    destruct Hs as [Hne|[-> Hs]]; [by rewrite (set_child_other _ _ _ _ _ Hset Hne)|].
    rewrite (set_child_same _ _ _ _ Hset), Hc. by apply (IH q c c').
Qed.

(** A change at the node itself is a change of the member that holds it. *)
Lemma alter_at_parent g t p v :
  alter_path g (t :: p) v = at_parent (λ t v, c ← child t v; c' ← g c; set_child t c' v) (t :: p) v.
Proof.
  revert t v. induction p as [|b p IH]; intros t v; [done|].
  change (alter_path g (t :: b :: p) v) with (c ← child t v; c' ← alter_path g (b :: p) c; set_child t c' v).
  destruct (child t v) as [c|] eqn:Ec; [|by cbn; rewrite Ec].
  cbn [mbind option_bind]. rewrite IH. cbn. by rewrite Ec.
Qed.

Lemma alter_path_spares g p q v v' :
  alter_path g p v = Some v' → spares p q → lookup_path q v' = lookup_path q v.
Proof.
  destruct p as [|t p]; [by destruct q|]. rewrite alter_at_parent. intros Hp Hs.
  eapply at_parent_spares; [|done..].
  intros t' w w' k Hw Hne _. destruct (child t' w); simplify_eq/=. destruct (g j); simplify_eq/=.
  by eapply set_child_other.
Qed.

(** ** Nodes above an operation keep their kind and length *)

Inductive Shape := ShScalar | ShArray (n : nat) | ShObject.
Definition shape (v : Json) : Shape :=
  match v with JArray l => ShArray (length l) | JObject _ => ShObject | _ => ShScalar end.

Lemma set_child_shape t c v v' : set_child t c v = Some v' → shape v' = shape v.
Proof.
  destruct v; simpl; try done; intros H.
  - destruct (array_index t); simplify_eq/=. destruct (l !! n); simplify_eq/=. by rewrite length_insert.
  - destruct (map_get fields t); simplify_eq/=. done.
Qed.

(** An operation two or more tokens below [q] keeps the shape of the node. *)
Lemma at_parent_shape g q a b p v v' :
  at_parent g (q ++ a :: b :: p) v = Some v' → shape <$> lookup_path q v' = shape <$> lookup_path q v.
Proof.
  revert v v'. induction q as [|k q IH]; intros v v' Hp.
  - apply at_parent_cons in Hp as (c & c' & _ & _ & Hset). simpl. f_equal. by eapply set_child_shape.
  - destruct (q ++ a :: b :: p) as [|x r] eqn:E; [by destruct q|].
    rewrite <-app_comm_cons, E in Hp. apply at_parent_cons in Hp as (c & c' & Hc & Hp & Hset).
    cbn [lookup_path]. rewrite (set_child_same _ _ _ _ Hset), Hc. by apply IH.
Qed.
