(* ===== verification/Plans.v ===== *)
(** * Transform plans

    Models the compiler of [src/transforms/mod.rs]: a channel's transform
    document becomes header operations, JSON patch operations and patches of
    server-sent events, and the layers of a template and a channel are composed.
    [plan_ok] is what every compiled plan satisfies; the properties of its
    application are in the files that follow. *)

From S2P Require Import Prelude Text Domain Json Usage Headers JsonPatch.
Open Scope gateway_scope.

(** ** Plans *)

Inductive TransformCompileError :=
| DocumentMustBeObject | UnknownField | UnsupportedVersion | InvalidApiFormat | FormatMismatch
| HeaderPlanMustBeObject | HeaderSetMustBeObject | HeaderRemoveMustBeArray | HeaderRenameMustBeObject
| HeaderNameMustBeString | HeaderValueMustBeString | InvalidHeaderName | InvalidHeaderValue
| CompileProtectedHeader | ConflictingHeaderOperation
| PatchMustBeArray | PatchOperationMustBeObject | PatchOperationMissingField | UnsupportedPatchOperation
| PatchValueRequired | PatchValueForbidden | PatchIndexRequired | PatchIndexForbidden
| PatchConditionMustBeObject | PatchConditionMustHaveOnePredicate | InvalidPatchCondition
| IncompatiblePatchCondition | InvalidValueExpression | ValueExpressionTooDeep | TemplateTooLong
| CompileInvalidJsonPointer | RootJsonPointer | ProtectedJsonPath | ConflictingJsonOperation
| IncompatibleJsonPatchLayers | SseEventPatchesMustBeArray | SsePatchEntryMustBeObject
| SsePatchEntryMissingField | UnsupportedSseEvent | DuplicateSseEvent | ProtectedSseJsonPath.

Abbreviation compiled A := (result A TransformCompileError) (only parsing).

Inductive HeaderOperation :=
| HeaderSet (name : string) (value : str)
| HeaderRemove (name : string)
| HeaderRename (from to : string).
Definition HeaderPlan := list HeaderOperation.

Record JsonPointer := { raw : string; tokens : list string }.

#[warnings="-register-all"]
Inductive JsonValueExpression :=
| Literal (value : Json)
| Current
| Template (template : string)
| ArrayExpr (items : list JsonValueExpression)
| ObjectExpr (entries : list (string * JsonValueExpression)).

Inductive JsonValueType := TyObject | TyArray | TyString | TyNumber | TyBoolean | TyNull.
Inductive JsonCondition := Exists (expected : bool) | HasType (expected : JsonValueType) | Equals (expected : Json).

Inductive AdvancedJsonOperation :=
| AdvAdd (path : JsonPointer) (value : JsonValueExpression) (when : option JsonCondition)
| AdvReplace (path : JsonPointer) (value : JsonValueExpression) (when : option JsonCondition)
| AdvRemove (path : JsonPointer) (when : option JsonCondition)
| ArrayAppend (path : JsonPointer) (value : JsonValueExpression) (when : option JsonCondition)
| ArrayPrepend (path : JsonPointer) (value : JsonValueExpression) (when : option JsonCondition)
| ArrayInsert (path : JsonPointer) (index : Z) (value : JsonValueExpression) (when : option JsonCondition)
| ArrayRemove (path : JsonPointer) (index : Z) (when : option JsonCondition)
| Merge (path : JsonPointer) (value : JsonValueExpression) (when : option JsonCondition).

Inductive JsonPatchOperation :=
| PatchAdd (path : JsonPointer) (value : Json)
| PatchReplace (path : JsonPointer) (value : Json)
| PatchRemove (path : JsonPointer)
| Advanced (operation : AdvancedJsonOperation).
Definition JsonPatchPlan := list JsonPatchOperation.

Inductive ChatCompletionsSseEvent := ChatCompletionChunk.
Inductive ResponsesSseEvent :=
| ResponseOutputTextDelta | ResponseRefusalDelta | ResponseFunctionCallArgumentsDelta
| ResponseOutputTextDone | ResponseCompleted.
#[export] Instance ChatCompletionsSseEvent_eq_dec : EqDecision ChatCompletionsSseEvent.
Proof. solve_decision. Defined.
#[export] Instance ResponsesSseEvent_eq_dec : EqDecision ResponsesSseEvent.
Proof. solve_decision. Defined.

Record ChatCompletionsSsePatchEntry := { chat_event : ChatCompletionsSseEvent; chat_json : JsonPatchPlan }.
Record ResponsesSsePatchEntry := { responses_event : ResponsesSseEvent; responses_json : JsonPatchPlan }.

Inductive SseEventPatchPlan :=
| SseChatCompletions (entries : list ChatCompletionsSsePatchEntry)
| SseResponses (entries : list ResponsesSsePatchEntry)
| SseImages.

Record TransformPlan := {
  plan_format : ApiFormat.t;
  request_headers : HeaderPlan;
  response_headers : HeaderPlan;
  request_json : JsonPatchPlan;
  sse_event_patches : SseEventPatchPlan;
}.

Definition sse_empty (api_format : ApiFormat.t) : SseEventPatchPlan :=
  match api_format with
  | ApiFormat.OpenAiChatCompletions => SseChatCompletions []
  | ApiFormat.OpenAiResponses => SseResponses []
  | ApiFormat.OpenAiImages => SseImages
  end.

Definition noop (api_format : ApiFormat.t) : TransformPlan :=
  {| plan_format := api_format; request_headers := []; response_headers := []; request_json := [];
     sse_event_patches := sse_empty api_format |}.

Definition is_empty_plan (p : JsonPatchPlan) : bool := match p with [] => true | _ => false end.

Definition has_operations (plan : SseEventPatchPlan) : bool :=
  match plan with
  | SseChatCompletions entries => existsb (λ e, negb (is_empty_plan e.(chat_json))) entries
  | SseResponses entries => existsb (λ e, negb (is_empty_plan e.(responses_json))) entries
  | SseImages => false
  end.

(** ** Accessors of operations *)

Definition adv_path (o : AdvancedJsonOperation) : JsonPointer :=
  match o with
  | AdvAdd p _ _ | AdvReplace p _ _ | AdvRemove p _ | ArrayAppend p _ _ | ArrayPrepend p _ _
  | ArrayInsert p _ _ _ | ArrayRemove p _ _ | Merge p _ _ => p
  end.

Definition adv_when (o : AdvancedJsonOperation) : option JsonCondition :=
  match o with
  | AdvAdd _ _ w | AdvReplace _ _ w | AdvRemove _ w | ArrayAppend _ _ w | ArrayPrepend _ _ w
  | ArrayInsert _ _ _ w | ArrayRemove _ _ w | Merge _ _ w => w
  end.

Definition adv_value (o : AdvancedJsonOperation) : option JsonValueExpression :=
  match o with
  | AdvAdd _ v _ | AdvReplace _ v _ | ArrayAppend _ v _ | ArrayPrepend _ v _
  | ArrayInsert _ _ v _ | Merge _ v _ => Some v
  | AdvRemove _ _ | ArrayRemove _ _ _ => None
  end.

Definition is_array_operation (o : AdvancedJsonOperation) : bool :=
  match o with ArrayAppend _ _ _ | ArrayPrepend _ _ _ | ArrayInsert _ _ _ _ | ArrayRemove _ _ _ => true | _ => false end.
Definition is_remove (o : AdvancedJsonOperation) : bool := match o with AdvRemove _ _ => true | _ => false end.
Definition can_create_target (o : AdvancedJsonOperation) : bool := match o with AdvAdd _ _ _ => true | _ => false end.
Definition requires_existing_target (o : AdvancedJsonOperation) : bool := negb (can_create_target o).

Definition operation_path (o : JsonPatchOperation) : JsonPointer :=
  match o with PatchAdd p _ | PatchReplace p _ | PatchRemove p => p | Advanced o => adv_path o end.

Definition operation_removed_path (o : JsonPatchOperation) : option JsonPointer :=
  match o with
  | PatchRemove p => Some p
  | Advanced o => if is_remove o then Some (adv_path o) else None
  | _ => None
  end.

Definition operation_can_create_target (o : JsonPatchOperation) : bool :=
  match o with PatchAdd _ _ => true | Advanced o => can_create_target o | _ => false end.

Definition operation_is_array_only (o : JsonPatchOperation) : bool :=
  match o with Advanced o => is_array_operation o | _ => false end.

(** ** Pointers *)

(** The inner loop of [parse_pointer] over one token. *)
Fixpoint decode_token (s : str) : option str :=
  match s with
  | [] => Some []
  | c :: s' =>
      if byte c =? 126 then
        match s' with
        | d :: s'' =>
            if byte d =? 48 then cons (Ascii.ascii_of_N 126) <$> decode_token s''
            else if byte d =? 49 then cons (Ascii.ascii_of_N 47) <$> decode_token s''
            else None
        | [] => None
        end
      else cons c <$> decode_token s'
  end.

Definition parse_pointer (raw : string) : compiled JsonPointer :=
  let b := bytes_of raw in
  if negb (bool_decide (b = [])) && negb (starts_with (bytes_of "/") b) then Err CompileInvalidJsonPointer
  else
    ts <-! ok_or (mapM decode_token (tail (split_on (Ascii.ascii_of_N 47) b))) CompileInvalidJsonPointer;
    Ok {| raw := raw; tokens := string_of <$> ts |}.

Inductive PatchScope := ScopeRequest | ScopeSse (api_format : ApiFormat.t).

Definition one_of (t : string) (names : list string) : bool := existsb (String.eqb t) names.

(** [Iterator::position] *)
Fixpoint position (p : string → bool) (l : list string) : option nat :=
  match l with
  | [] => None
  | t :: l => if p t then Some O else S <$> position p l
  end.

Definition is_array_item_or_its_index (tokens : list string) (array : string) : bool :=
  is_some_and (position (λ t, String.eqb t array) tokens) (λ p, (length tokens <=? p + 2)%nat).

Definition is_immutable_sse_path (pointer : JsonPointer) (api_format : ApiFormat.t) : bool :=
  match pointer.(tokens) with
  | [] => true
  | first :: rest =>
      match api_format with
      | ApiFormat.OpenAiChatCompletions =>
          one_of first ["id"; "object"; "created"; "model"]
          || is_array_item_or_its_index pointer.(tokens) "choices"
          || existsb (λ t, one_of t ["id"; "index"; "item_id"]) pointer.(tokens)
      | ApiFormat.OpenAiResponses =>
          one_of first ["type"; "sequence_number"]
          || (String.eqb first "response" && match rest with [] => true | _ => false end)
          || (String.eqb first "response" && match rest with field :: _ => one_of field ["id"; "status"] | [] => false end)
          || is_array_item_or_its_index pointer.(tokens) "output"
          || existsb (λ t, one_of t ["id"; "item_id"; "call_id"; "response_id"; "index"; "output_index";
                                     "content_index"; "type"; "sequence_number"]) pointer.(tokens)
      | ApiFormat.OpenAiImages => true
      end
  end.

Definition validate_pointer (pointer : JsonPointer) (scope : PatchScope) : compiled unit :=
  match pointer.(tokens) with
  | [] => Err RootJsonPointer
  | _ =>
      match scope with
      | ScopeRequest =>
          if existsb (λ t, one_of t ["model"; "stream"]) pointer.(tokens) then Err ProtectedJsonPath else Ok tt
      | ScopeSse f => if is_immutable_sse_path pointer f then Err ProtectedSseJsonPath else Ok tt
      end
  end.

(** All tokens of [l] open [r]. *)
Definition tokens_prefix (l r : list string) : bool :=
  (length l <=? length r)%nat && forallb (λ e, String.eqb e.1 e.2) (zip l r).

Definition pointers_conflict (left right : JsonPointer) : bool :=
  tokens_prefix left.(tokens) right.(tokens) || tokens_prefix right.(tokens) left.(tokens).

Definition pointer_eqb (left right : JsonPointer) : bool :=
  String.eqb left.(raw) right.(raw) && bool_decide (left.(tokens) = right.(tokens)).

Definition json_operations_conflict (left right : JsonPatchOperation) : bool :=
  let left_path := operation_path left in
  let right_path := operation_path right in
  if negb (pointers_conflict left_path right_path) then false
  else negb (pointer_eqb left_path right_path && operation_is_array_only left && operation_is_array_only right).

(** ** Headers *)

Inductive HeaderScope := RequestScope | ResponseScope.

Definition is_protected_header (name : string) (scope : HeaderScope) : bool :=
  if header_is_hop_by_hop name then true
  else match scope with
       | RequestScope => request_header_is_protected name
       | ResponseScope => one_of name ["content-length"; "content-type"; "set-cookie"; "content-encoding"]
       end.

Definition reject_unknown (object : list (string * Json)) (allowed : list string) : compiled unit :=
  if existsb (λ e, negb (existsb (String.eqb e.1) allowed)) object then Err UnknownField else Ok tt.

(** [HashSet::insert] reports whether the element is new. *)
Definition insert_new (name : string) (seen : list string) : option (list string) :=
  if existsb (String.eqb name) seen then None else Some (name :: seen).

Section headers.
Context `{HeaderText}.

Definition checked_header (raw : string) (scope : HeaderScope) : compiled string :=
  name <-! ok_or (header_name (bytes_of raw)) InvalidHeaderName;
  if is_protected_header name scope then Err CompileProtectedHeader else Ok name.

(** The names seen so far and the operations so far. *)
Definition HeaderState : Type := list string * list HeaderOperation.

Definition compile_set (scope : HeaderScope) (st : HeaderState) (entry : string * Json) : compiled HeaderState :=
  let '(seen, operations) := st in
  name <-! checked_header entry.1 scope;
  seen <-! ok_or (insert_new name seen) ConflictingHeaderOperation;
  value <-! ok_or (as_str entry.2) HeaderValueMustBeString;
  value <-! ok_or (header_value value) InvalidHeaderValue;
  Ok (seen, operations ++ [HeaderSet name value]).

Definition compile_remove (scope : HeaderScope) (st : HeaderState) (raw_name : Json) : compiled HeaderState :=
  let '(seen, operations) := st in
  raw_name <-! ok_or (as_str raw_name) HeaderNameMustBeString;
  name <-! checked_header raw_name scope;
  seen <-! ok_or (insert_new name seen) ConflictingHeaderOperation;
  Ok (seen, operations ++ [HeaderRemove name]).

Definition compile_rename (scope : HeaderScope) (st : HeaderState) (entry : string * Json) : compiled HeaderState :=
  let '(seen, operations) := st in
  from <-! checked_header entry.1 scope;
  raw_to <-! ok_or (as_str entry.2) HeaderNameMustBeString;
  to <-! checked_header raw_to scope;
  seen <-! ok_or (insert_new from seen ≫= insert_new to) ConflictingHeaderOperation;
  Ok (seen, operations ++ [HeaderRename from to]).

(** One of the three optional sections. *)
Definition header_section {A} (object : list (string * Json)) (key : string) (get : Json → option (list A))
    (error : TransformCompileError) (step : HeaderState → A → compiled HeaderState) (st : HeaderState)
    : compiled HeaderState :=
  match map_get object key with
  | None => Ok st
  | Some v => l <-! ok_or (get v) error; try_fold step st l
  end.

Definition compile_headers (value : option Json) (scope : HeaderScope) : compiled HeaderPlan :=
  match value with
  | None => Ok []
  | Some value =>
      object <-! ok_or (as_object value) HeaderPlanMustBeObject;
      _ <-! reject_unknown object ["set"; "remove"; "rename"];
      st <-! header_section object "set" as_object HeaderSetMustBeObject (compile_set scope) ([], []);
      st <-! header_section object "remove" as_array HeaderRemoveMustBeArray (compile_remove scope) st;
      st <-! header_section object "rename" as_object HeaderRenameMustBeObject (compile_rename scope) st;
      Ok st.2
  end.
End headers.

(** ** JSON patches *)

Definition MAX_VALUE_EXPRESSION_DEPTH : nat := 32.
Definition MAX_TEMPLATE_BYTES : Z := 4 * 1024.

(** The only member of a one-member object, if it has this key. *)
Definition marker (object : list (string * Json)) (key : string) : option Json :=
  if (length object =? 1)%nat then map_get object key else None.

Definition compile_template_expression (template : option string) : compiled JsonValueExpression :=
  template <-! ok_or template InvalidValueExpression;
  if MAX_TEMPLATE_BYTES <? Z.of_nat (String.length template) then Err TemplateTooLong else Ok (Template template).

Fixpoint compile_value_expression (value : Json) (depth : nat) : compiled JsonValueExpression :=
  if (MAX_VALUE_EXPRESSION_DEPTH <? depth)%nat then Err ValueExpressionTooDeep
  else
    match value with
    | JArray values =>
        items <-! try_map (λ v, compile_value_expression v (S depth)) values; Ok (ArrayExpr items)
    | JObject object =>
        match marker object "$ref", marker object "$template", marker object "$literal" with
        | Some v, _, _ =>
            if bool_decide (as_str v = Some "current") then Ok Current else Err InvalidValueExpression
        | None, Some v, _ => compile_template_expression (as_str v)
        | None, None, Some v => Ok (Literal v)
        | None, None, None =>
            entries <-! try_map (λ e, x <-! compile_value_expression e.2 (S depth); Ok (e.1, x)) object;
            Ok (ObjectExpr entries)
        end
    | value => Ok (Literal value)
    end.

Definition parse_json_value_type (value : string) : compiled JsonValueType :=
  if String.eqb value "object" then Ok TyObject
  else if String.eqb value "array" then Ok TyArray
  else if String.eqb value "string" then Ok TyString
  else if String.eqb value "number" then Ok TyNumber
  else if String.eqb value "boolean" then Ok TyBoolean
  else if String.eqb value "null" then Ok TyNull
  else Err InvalidPatchCondition.

Definition compile_patch_condition (value : option Json) : compiled (option JsonCondition) :=
  match value with
  | None => Ok None
  | Some value =>
      object <-! ok_or (as_object value) PatchConditionMustBeObject;
      _ <-! reject_unknown object ["exists"; "type"; "equals"];
      if negb (length object =? 1)%nat then Err PatchConditionMustHaveOnePredicate
      else match map_get object "exists" with
           | Some exists_ => b <-! ok_or (as_bool exists_) InvalidPatchCondition; Ok (Some (Exists b))
           | None =>
               match map_get object "type" ≫= as_str with
               | Some kind => t <-! parse_json_value_type kind; Ok (Some (HasType t))
               | None =>
                   match map_get object "equals" with
                   | Some expected => Ok (Some (Equals expected))
                   | None => Err PatchConditionMustHaveOnePredicate
                   end
               end
           end
  end.

Definition contains_key (object : list (string * Json)) (key : string) : bool :=
  match map_get object key with Some _ => true | None => false end.

Definition compile_v1_patch_operation (object : list (string * Json)) (op : string) (path : JsonPointer)
    : compiled JsonPatchOperation :=
  _ <-! reject_unknown object ["op"; "path"; "value"];
  if String.eqb op "add" then v <-! ok_or (map_get object "value") PatchValueRequired; Ok (PatchAdd path v)
  else if String.eqb op "replace" then v <-! ok_or (map_get object "value") PatchValueRequired; Ok (PatchReplace path v)
  else if String.eqb op "remove" then
    if contains_key object "value" then Err PatchValueForbidden else Ok (PatchRemove path)
  else Err UnsupportedPatchOperation.

(** The closures [value], [forbid_value], [forbid_index] and [index] of
    [compile_v2_patch_operation]. *)
Definition v2_value (object : list (string * Json)) : compiled JsonValueExpression :=
  v <-! ok_or (map_get object "value") PatchValueRequired; compile_value_expression v 0.
Definition forbid_value (object : list (string * Json)) : compiled unit :=
  if contains_key object "value" then Err PatchValueForbidden else Ok tt.
Definition forbid_index (object : list (string * Json)) : compiled unit :=
  if contains_key object "index" then Err PatchIndexForbidden else Ok tt.
Definition v2_index (object : list (string * Json)) : compiled Z :=
  ok_or (map_get object "index" ≫= as_u64) PatchIndexRequired.

Definition v2_operation (object : list (string * Json)) (op : string) (path : JsonPointer)
    (when : option JsonCondition) : compiled AdvancedJsonOperation :=
  if String.eqb op "add" then _ <-! forbid_index object; v <-! v2_value object; Ok (AdvAdd path v when)
  else if String.eqb op "replace" then _ <-! forbid_index object; v <-! v2_value object; Ok (AdvReplace path v when)
  else if String.eqb op "remove" then _ <-! forbid_value object; _ <-! forbid_index object; Ok (AdvRemove path when)
  else if String.eqb op "array_append" then _ <-! forbid_index object; v <-! v2_value object; Ok (ArrayAppend path v when)
  else if String.eqb op "array_prepend" then _ <-! forbid_index object; v <-! v2_value object; Ok (ArrayPrepend path v when)
  else if String.eqb op "array_insert" then i <-! v2_index object; v <-! v2_value object; Ok (ArrayInsert path i v when)
  else if String.eqb op "array_remove" then _ <-! forbid_value object; i <-! v2_index object; Ok (ArrayRemove path i when)
  else if String.eqb op "merge" then _ <-! forbid_index object; v <-! v2_value object; Ok (Merge path v when)
  else Err UnsupportedPatchOperation.

Definition compile_v2_patch_operation (object : list (string * Json)) (op : string) (path : JsonPointer)
    : compiled JsonPatchOperation :=
  _ <-! reject_unknown object ["op"; "path"; "value"; "index"; "when"];
  when <-! compile_patch_condition (map_get object "when");
  operation <-! v2_operation object op path when;
  if requires_existing_target operation && match adv_when operation with Some (Exists false) => true | _ => false end
  then Err IncompatiblePatchCondition else Ok (Advanced operation).

Inductive TransformDocumentVersion := V1 | V2.

(** The loop body of [compile_patch]. *)
Definition compile_operation (scope : PatchScope) (version : TransformDocumentVersion)
    (operations : list JsonPatchOperation) (value : Json) : compiled (list JsonPatchOperation) :=
  object <-! ok_or (as_object value) PatchOperationMustBeObject;
  op <-! ok_or (map_get object "op" ≫= as_str) PatchOperationMissingField;
  path <-! ok_or (map_get object "path" ≫= as_str) PatchOperationMissingField;
  path <-! parse_pointer path;
  _ <-! validate_pointer path scope;
  operation <-! match version with
                | V1 => compile_v1_patch_operation object op path
                | V2 => compile_v2_patch_operation object op path
                end;
  if existsb (λ other, json_operations_conflict other operation) operations then Err ConflictingJsonOperation
  else Ok (operations ++ [operation]).

Definition compile_patch (value : option Json) (scope : PatchScope) (version : TransformDocumentVersion)
    : compiled JsonPatchPlan :=
  match value with
  | None => Ok []
  | Some value =>
      values <-! ok_or (as_array value) PatchMustBeArray;
      try_fold (compile_operation scope version) [] values
  end.

(** ** Patches of server-sent events *)

Definition sse_entry_object (value : Json) : compiled (list (string * Json)) :=
  object <-! ok_or (as_object value) SsePatchEntryMustBeObject;
  _ <-! reject_unknown object ["event"; "json"];
  if negb (contains_key object "json") then Err SsePatchEntryMissingField else Ok object.

Definition sse_event_name (object : list (string * Json)) : compiled string :=
  ok_or (map_get object "event" ≫= as_str) SsePatchEntryMissingField.

Definition parse_chat_completions_sse_event (object : list (string * Json)) : compiled ChatCompletionsSseEvent :=
  name <-! sse_event_name object;
  if String.eqb name "chat.completion.chunk" then Ok ChatCompletionChunk else Err UnsupportedSseEvent.

Definition response_selector (event : string) : option ResponsesSseEvent :=
  if String.eqb event "response.output_text.delta" then Some ResponseOutputTextDelta
  else if String.eqb event "response.refusal.delta" then Some ResponseRefusalDelta
  else if String.eqb event "response.function_call_arguments.delta" then Some ResponseFunctionCallArgumentsDelta
  else if String.eqb event "response.output_text.done" then Some ResponseOutputTextDone
  else if String.eqb event "response.completed" then Some ResponseCompleted
  else None.

Definition parse_responses_sse_event (object : list (string * Json)) : compiled ResponsesSseEvent :=
  name <-! sse_event_name object;
  if String.eqb name "response.output_text.delta" then Ok ResponseOutputTextDelta
  else if String.eqb name "response.refusal.delta" then Ok ResponseRefusalDelta
  else if String.eqb name "response.function_call_arguments.delta" then Ok ResponseFunctionCallArgumentsDelta
  else if String.eqb name "response.output_text.done" then Ok ResponseOutputTextDone
  else if String.eqb name "response.completed" then Ok ResponseCompleted
  else Err UnsupportedSseEvent.

(** The loop bodies of [compile_sse_event_patches]; the events seen so far are
    those of the compiled entries. *)
Definition compile_chat_entry (version : TransformDocumentVersion) (entries : list ChatCompletionsSsePatchEntry)
    (entry : Json) : compiled (list ChatCompletionsSsePatchEntry) :=
  object <-! sse_entry_object entry;
  event <-! parse_chat_completions_sse_event object;
  if existsb (λ e, bool_decide (e.(chat_event) = event)) entries then Err DuplicateSseEvent
  else
    json <-! compile_patch (map_get object "json") (ScopeSse ApiFormat.OpenAiChatCompletions) version;
    Ok (entries ++ [{| chat_event := event; chat_json := json |}]).

Definition compile_responses_entry (version : TransformDocumentVersion) (entries : list ResponsesSsePatchEntry)
    (entry : Json) : compiled (list ResponsesSsePatchEntry) :=
  object <-! sse_entry_object entry;
  event <-! parse_responses_sse_event object;
  if existsb (λ e, bool_decide (e.(responses_event) = event)) entries then Err DuplicateSseEvent
  else
    json <-! compile_patch (map_get object "json") (ScopeSse ApiFormat.OpenAiResponses) version;
    Ok (entries ++ [{| responses_event := event; responses_json := json |}]).

Definition compile_sse_event_patches (value : option Json) (api_format : ApiFormat.t)
    (version : TransformDocumentVersion) : compiled SseEventPatchPlan :=
  match value with
  | None => Ok (sse_empty api_format)
  | Some value =>
      entries <-! ok_or (as_array value) SseEventPatchesMustBeArray;
      match api_format with
      | ApiFormat.OpenAiChatCompletions =>
          compiled <-! try_fold (compile_chat_entry version) [] entries; Ok (SseChatCompletions compiled)
      | ApiFormat.OpenAiResponses =>
          compiled <-! try_fold (compile_responses_entry version) [] entries; Ok (SseResponses compiled)
      | ApiFormat.OpenAiImages => match entries with [] => Ok SseImages | _ => Err UnsupportedSseEvent end
      end
  end.

(** ** Documents *)

Definition parse_format (value : option string) : compiled ApiFormat.t :=
  match value with
  | Some s =>
      if String.eqb s "open_ai_chat_completions" then Ok ApiFormat.OpenAiChatCompletions
      else if String.eqb s "open_ai_responses" then Ok ApiFormat.OpenAiResponses
      else if String.eqb s "open_ai_images" then Ok ApiFormat.OpenAiImages
      else Err InvalidApiFormat
  | None => Err InvalidApiFormat
  end.

Definition parse_document_version (value : option Json) : compiled TransformDocumentVersion :=
  match value ≫= as_u64 with
  | Some 1 => Ok V1
  | Some 2 => Ok V2
  | _ => Err UnsupportedVersion
  end.

Definition compile_document `{HeaderText} (document : Json) (expected_format : ApiFormat.t) : compiled TransformPlan :=
  object <-! ok_or (as_object document) DocumentMustBeObject;
  if match object with [] => true | _ => false end then Ok (noop expected_format)
  else
    _ <-! reject_unknown object ["version"; "api_format"; "request_headers"; "response_headers"; "request_json"; "sse"];
    version <-! parse_document_version (map_get object "version");
    format <-! parse_format (map_get object "api_format" ≫= as_str);
    if negb (bool_decide (format = expected_format)) then Err FormatMismatch
    else
      request_headers <-! compile_headers (map_get object "request_headers") RequestScope;
      response_headers <-! compile_headers (map_get object "response_headers") ResponseScope;
      request_json <-! compile_patch (map_get object "request_json") ScopeRequest version;
      sse <-! compile_sse_event_patches (map_get object "sse") format version;
      Ok {| plan_format := format; request_headers := request_headers; response_headers := response_headers;
            request_json := request_json; sse_event_patches := sse |}.

Definition declared_api_format (document : Json) : compiled (option ApiFormat.t) :=
  object <-! ok_or (as_object document) DocumentMustBeObject;
  match object with
  | [] => Ok None
  | _ => format <-! parse_format (map_get object "api_format" ≫= as_str); Ok (Some format)
  end.

(** ** Layers *)

Definition removed_path_invalidates_operation (removed : JsonPointer) (o : JsonPatchOperation) : bool :=
  let path := operation_path o in
  if negb (tokens_prefix removed.(tokens) path.(tokens)) then false
  else (length removed.(tokens) <? length path.(tokens))%nat || negb (operation_can_create_target o).

Definition reject_removed_ancestors (defaults override_plan : JsonPatchPlan) : compiled unit :=
  if existsb (λ o, is_some_and (operation_removed_path o)
                     (λ removed, existsb (removed_path_invalidates_operation removed) override_plan)) defaults
  then Err IncompatibleJsonPatchLayers else Ok tt.

(** [None] is the [unreachable!] of plans of different formats. *)
Definition reject_sse_removed_ancestors (defaults override_plan : SseEventPatchPlan) : option (compiled unit) :=
  match defaults, override_plan with
  | SseChatCompletions defaults, SseChatCompletions override_plan =>
      Some (try_fold (λ _ d,
              match List.find (λ e, bool_decide (e.(chat_event) = d.(chat_event))) override_plan with
              | Some e => reject_removed_ancestors d.(chat_json) e.(chat_json)
              | None => Ok tt
              end) tt defaults)
  | SseResponses defaults, SseResponses override_plan =>
      Some (try_fold (λ _ d,
              match List.find (λ e, bool_decide (e.(responses_event) = d.(responses_event))) override_plan with
              | Some e => reject_removed_ancestors d.(responses_json) e.(responses_json)
              | None => Ok tt
              end) tt defaults)
  | SseImages, SseImages => Some (Ok tt)
  | _, _ => None
  end.

Definition sse_append (left right : SseEventPatchPlan) : option SseEventPatchPlan :=
  match left, right with
  | SseChatCompletions l, SseChatCompletions r => Some (SseChatCompletions (l ++ r))
  | SseResponses l, SseResponses r => Some (SseResponses (l ++ r))
  | SseImages, SseImages => Some SseImages
  | _, _ => None
  end.

(** [None] is a panic. *)
Definition compose (defaults override_plan : TransformPlan) : option (compiled TransformPlan) :=
  if negb (bool_decide (defaults.(plan_format) = override_plan.(plan_format))) then Some (Err FormatMismatch)
  else
    match reject_removed_ancestors defaults.(request_json) override_plan.(request_json) with
    | Err e => Some (Err e)
    | Ok _ =>
        checked ← reject_sse_removed_ancestors defaults.(sse_event_patches) override_plan.(sse_event_patches);
        match checked with
        | Err e => Some (Err e)
        | Ok _ =>
            sse ← sse_append defaults.(sse_event_patches) override_plan.(sse_event_patches);
            Some (Ok {| plan_format := defaults.(plan_format);
                        request_headers := defaults.(request_headers) ++ override_plan.(request_headers);
                        response_headers := defaults.(response_headers) ++ override_plan.(response_headers);
                        request_json := defaults.(request_json) ++ override_plan.(request_json);
                        sse_event_patches := sse |})
        end
    end.

(** ** The layers of a channel *)

Record CompiledConfigTemplate := {
  template_format : option ApiFormat.t;
  template_chat : TransformPlan;
  template_responses : TransformPlan;
  template_images : TransformPlan;
}.

Definition transform_plan (t : CompiledConfigTemplate) (format : ApiFormat.t) : TransformPlan :=
  match format with
  | ApiFormat.OpenAiChatCompletions => t.(template_chat)
  | ApiFormat.OpenAiResponses => t.(template_responses)
  | ApiFormat.OpenAiImages => t.(template_images)
  end.

Section layers.
Context `{HeaderText}.

(** The plan of a template for one format: none when it declares another. *)
Definition template_plan (declared : option ApiFormat.t) (document : Json) (format : ApiFormat.t) : compiled TransformPlan :=
  if is_none_or declared (λ f, bool_decide (f = format)) then compile_document document format else Ok (noop format).

Definition compile_config_template (document : Json) : compiled CompiledConfigTemplate :=
  declared <-! declared_api_format document;
  chat <-! template_plan declared document ApiFormat.OpenAiChatCompletions;
  responses <-! template_plan declared document ApiFormat.OpenAiResponses;
  images <-! template_plan declared document ApiFormat.OpenAiImages;
  Ok {| template_format := declared; template_chat := chat; template_responses := responses; template_images := images |}.

(** The transforms of a channel: its template's layer under its own. *)
Definition effective_transforms (template : option CompiledConfigTemplate) (override_document : Json)
    (format : ApiFormat.t) : option (compiled TransformPlan) :=
  match compile_document override_document format with
  | Err e => Some (Err e)
  | Ok channel_override =>
      let defaults := match template with Some t => transform_plan t format | None => noop format end in
      compose defaults channel_override
  end.
End layers.

(** ** Pointers against RFC 6901 *)

Definition SLASH : Ascii.ascii := Ascii.ascii_of_N 47.

Lemma split_on_pieces sep s :
  ∃ w ws, split_on sep s = w :: ws ∧ s = w ++ flat_map (cons sep) ws ∧ Forall (λ x, sep ∉ x) (w :: ws).
Proof.
  induction s as [|c s (w & ws & Hs & -> & Hf)].
  - exists [], []. split_and!; [done..|]. repeat constructor. by intros ?%elem_of_nil.
  - simpl. destruct (Ascii.eqb_spec c sep) as [->|Hne].
    + exists [], (w :: ws). rewrite Hs. split_and!; [done..|]. constructor; [by intros ?%elem_of_nil|done].
    + exists (c :: w), ws. rewrite Hs. split_and!; [done..|]. inversion Hf; subst. constructor; [|done]. set_solver.
Qed.

Lemma split_on_free sep w : sep ∉ w → split_on sep w = [w].
Proof.
  induction w as [|c w IH]; simpl; [done|]. intros Hn. destruct (Ascii.eqb_spec c sep) as [->|]; [set_solver|].
  rewrite IH by set_solver. done.
Qed.

Lemma split_on_app sep w r : sep ∉ w → split_on sep (w ++ sep :: r) = w :: split_on sep r.
Proof.
  induction w as [|c w IH]; intros Hn; simpl; [by rewrite Ascii.eqb_refl|].
  destruct (Ascii.eqb_spec c sep) as [->|]; [set_solver|]. rewrite IH by set_solver. done.
Qed.

Lemma split_on_join sep ws :
  Forall (λ x, sep ∉ x) ws → tail (split_on sep (flat_map (cons sep) ws)) = ws.
Proof.
  destruct ws as [|w ws]; [done|]. simpl. rewrite Ascii.eqb_refl. simpl.
  revert w. induction ws as [|w' ws IH]; intros w [Hw Hf]%Forall_cons; simpl.
  - rewrite app_nil_r. by apply split_on_free.
  - rewrite split_on_app by done. f_equal. by apply IH.
Qed.

Lemma escape_free t : SLASH ∉ flat_map escape_byte t.
Proof.
  induction t as [|c t IH]; simpl; [by intros ?%elem_of_nil|]. rewrite elem_of_app. intros [H|]; [|done].
  unfold escape_byte in H. destruct (byte c =? 126); [by vm_compute in H; repeat (inversion H as [|? ? ? H']; subst; clear H; rename H' into H)|].
  destruct (Z.eqb_spec (byte c) 47) as [|Hne].
  - by vm_compute in H; repeat (inversion H as [|? ? ? H']; subst; clear H; rename H' into H).
  - apply Hne. apply list_elem_of_singleton in H as <-. done.
Qed.

Lemma decode_escape t : decode_token (flat_map escape_byte t) = Some t.
Proof.
  induction t as [|c t IH]; simpl; [done|]. unfold escape_byte at 1.
  destruct (Z.eqb_spec (byte c) 126) as [E|E]; simpl.
  - rewrite IH. apply (byte_is c 126) in E as ->; [done|lia].
  - destruct (Z.eqb_spec (byte c) 47) as [E'|E']; simpl.
    + rewrite IH. apply (byte_is c 47) in E' as ->; [done|lia].
    + by rewrite (proj2 (Z.eqb_neq _ _) E), IH.
Qed.

Lemma escape_decode s t : decode_token s = Some t → SLASH ∉ s → flat_map escape_byte t = s.
Proof.
  remember (length s) as n eqn:Hn. revert s t Hn. induction n as [n IH] using lt_wf_ind; intros s t ->.
  destruct s as [|c s]; simpl; [by intros [= <-]|].
  destruct (Z.eqb_spec (byte c) 126) as [E|E].
  - destruct s as [|d s]; [done|]. apply (byte_is c 126) in E as ->; [|lia].
    destruct (Z.eqb_spec (byte d) 48) as [E'|E']; [|destruct (Z.eqb_spec (byte d) 49) as [E''|]; [|done]];
      intros (t' & Ht & ->)%fmap_Some Hs; simpl;
      rewrite (IH (length s) ltac:(simpl; lia) s t' eq_refl Ht) by set_solver.
    + apply (byte_is d 48) in E' as ->; [done|lia].
    + apply (byte_is d 49) in E'' as ->; [done|lia].
  - intros (t' & Ht & ->)%fmap_Some Hs. simpl.
    rewrite (IH (length s) ltac:(simpl; lia) s t' eq_refl Ht) by set_solver.
    unfold escape_byte at 1. rewrite (proj2 (Z.eqb_neq _ _) E). destruct (Z.eqb_spec (byte c) 47) as [E'|]; [|done].
    apply (byte_is c 47) in E' as ->; [|lia]. unfold SLASH in Hs. set_solver.
Qed.

Lemma encode_pointer_pieces ts : encode_pointer ts = flat_map (cons SLASH) (flat_map escape_byte <$> ts).
Proof. induction ts as [|t ts IH]; [done|]. simpl. by rewrite IH. Qed.

Lemma mapM_decode ws ts :
  Forall (λ x, SLASH ∉ x) ws → mapM decode_token ws = Some ts → flat_map escape_byte <$> ts = ws.
Proof.
  intros Hf Hm%mapM_Some. induction Hm as [|w t ws ts Hd _ IH]; [done|].
  apply Forall_cons in Hf as [Hw Hf]. rewrite fmap_cons, IH by done. f_equal. by apply escape_decode.
Qed.

Lemma parse_pointer_sound r p : parse_pointer r = Ok p → p.(raw) = r ∧ r = pointer_text p.(tokens).
Proof.
  unfold parse_pointer, pointer_text. destruct (_ && _) eqn:Eg; [done|].
  destruct (mapM _ _) as [ts|] eqn:Em; [|done]. simpl. intros [= <-]. simpl. split; [done|].
  rewrite <-(string_of_bytes_of r) at 1. f_equal. rewrite <-list_fmap_compose.
  rewrite (list_fmap_ext _ id) by (intros; apply bytes_of_string_of). rewrite list_fmap_id, encode_pointer_pieces.
  destruct (split_on_pieces SLASH (bytes_of r)) as (w & ws & Hs & Hb & Hf). fold SLASH in Em. rewrite Hs in Em. simpl in Em.
  apply Forall_cons in Hf as [Hw Hf]. rewrite (mapM_decode ws ts Hf Em), Hb.
  apply andb_false_iff in Eg as [Eg|Eg]; breflect; [by rewrite Hb in Eg; destruct w|].
  apply starts_with_true in Eg as [x Hx]. rewrite Hx in Hb. simpl in Hb. destruct w as [|c w]; [done|].
  simplify_eq/=. exfalso. apply Hw. by left.
Qed.

Lemma parse_pointer_complete ts :
  parse_pointer (pointer_text ts) = Ok {| raw := pointer_text ts; tokens := ts |}.
Proof.
  unfold parse_pointer, pointer_text. rewrite bytes_of_string_of, encode_pointer_pieces. fold SLASH.
  set (ws := flat_map escape_byte <$> (String.list_ascii_of_string <$> ts)).
  assert (Forall (λ x, SLASH ∉ x) ws) as Hf.
  { apply Forall_forall. intros x (t & -> & _)%list_elem_of_fmap. apply escape_free. }
  destruct (_ && _) eqn:Eg.
  { apply andb_true_iff in Eg as [Eg1 Eg2]. destruct ws as [|w ws']; [done|]. done. }
  rewrite split_on_join by done. assert (mapM decode_token ws = Some (String.list_ascii_of_string <$> ts)) as ->.
  { apply mapM_Some. subst ws. apply Forall2_fmap_l, Forall_Forall2_diag, Forall_true. apply decode_escape. }
  simpl. rewrite <-list_fmap_compose. do 3 f_equal. rewrite <-(list_fmap_id ts) at 2.
  apply list_fmap_ext. intros. apply string_of_bytes_of.
Qed.

(** ** Well-formed plans *)

(** The pointer of an operation is the text of its tokens and passes the checks
    of its scope. *)
Definition op_ok (scope : PatchScope) (o : JsonPatchOperation) : Prop :=
  (operation_path o).(raw) = pointer_text (operation_path o).(tokens)
  ∧ validate_pointer (operation_path o) scope = Ok tt.
Definition json_plan_ok (scope : PatchScope) (plan : JsonPatchPlan) : Prop := Forall (op_ok scope) plan.

Definition operation_names (o : HeaderOperation) : list string :=
  match o with HeaderSet n _ | HeaderRemove n => [n] | HeaderRename from to => [from; to] end.
Definition header_plan_ok (scope : HeaderScope) (plan : HeaderPlan) : Prop :=
  Forall (λ o, Forall (λ n, is_protected_header n scope = false) (operation_names o)) plan.

Definition sse_plan_ok (format : ApiFormat.t) (plan : SseEventPatchPlan) : Prop :=
  match format, plan with
  | ApiFormat.OpenAiChatCompletions, SseChatCompletions entries =>
      Forall (λ e, json_plan_ok (ScopeSse format) e.(chat_json)) entries
  | ApiFormat.OpenAiResponses, SseResponses entries =>
      Forall (λ e, json_plan_ok (ScopeSse format) e.(responses_json)) entries
  | ApiFormat.OpenAiImages, SseImages => True
  | _, _ => False
  end.

Definition plan_ok (plan : TransformPlan) : Prop :=
  header_plan_ok RequestScope plan.(request_headers)
  ∧ header_plan_ok ResponseScope plan.(response_headers)
  ∧ json_plan_ok ScopeRequest plan.(request_json)
  ∧ sse_plan_ok plan.(plan_format) plan.(sse_event_patches).

Lemma compile_v1_path object op path o : compile_v1_patch_operation object op path = Ok o → operation_path o = path.
Proof. unfold compile_v1_patch_operation. intros. inv_ok. split_cases; inv_ok; by subst. Qed.

Lemma v2_operation_path object op path when o : v2_operation object op path when = Ok o → adv_path o = path.
Proof. unfold v2_operation. intros. repeat case_match; inv_ok; by subst. Qed.

Lemma compile_v2_path object op path o : compile_v2_patch_operation object op path = Ok o → operation_path o = path.
Proof. unfold compile_v2_patch_operation. intros. inv_ok. subst. by eapply v2_operation_path. Qed.

Lemma compile_operation_ok scope version ops v ops' :
  json_plan_ok scope ops → compile_operation scope version ops v = Ok ops' → json_plan_ok scope ops'.
Proof.
  unfold compile_operation. intros Hops H. inv_ok. subst ops'. apply Forall_app. split; [done|].
  match goal with H : parse_pointer _ = Ok ?p |- _ => apply parse_pointer_sound in H as [Hr Ht]; rename p into q end.
  apply Forall_singleton. assert (operation_path x4 = q) as Hp.
  { destruct version; [by eapply compile_v1_path|by eapply compile_v2_path]. }
  unfold op_ok. rewrite Hp. split; [congruence|]. by destruct x3.
Qed.

Lemma compile_patch_ok v scope version plan : compile_patch v scope version = Ok plan → json_plan_ok scope plan.
Proof.
  unfold compile_patch. destruct v; intros; inv_ok; subst; [|constructor].
  eapply try_fold_inv; [|constructor|done]. intros. by eapply compile_operation_ok.
Qed.

Section compiled_headers.
Context `{HeaderText}.

Lemma checked_header_ok r scope n : checked_header r scope = Ok n → is_protected_header n scope = false.
Proof. unfold checked_header. intros. inv_ok. by subst. Qed.
Hint Resolve checked_header_ok : gateway.

Lemma header_section_ok {A} scope object key (get : Json → option (list A)) e step st st' :
  (∀ st a st', header_plan_ok scope st.2 → step st a = Ok st' → header_plan_ok scope st'.2) →
  header_plan_ok scope st.2 → header_section object key get e step st = Ok st' → header_plan_ok scope st'.2.
Proof.
  unfold header_section. intros Hstep Hst. destruct (map_get object key); intros; inv_ok; subst; [|done].
  by eapply (try_fold_inv (λ st, header_plan_ok scope st.2)).
Qed.

Ltac step_ok :=
  intros [seen ops] a st' Hops Hstep; cbn in Hstep, Hops; inv_ok; subst st';
  (apply Forall_app; split; [done|]); repeat constructor; eauto with gateway.

Lemma compile_headers_ok v scope plan : compile_headers v scope = Ok plan → header_plan_ok scope plan.
Proof.
  unfold compile_headers. destruct v as [v|]; intros; inv_ok; subst; [|constructor].
  assert (Hset : ∀ st a st', header_plan_ok scope st.2 → compile_set scope st a = Ok st' → header_plan_ok scope st'.2) by step_ok.
  assert (Hremove : ∀ st a st', header_plan_ok scope st.2 → compile_remove scope st a = Ok st' → header_plan_ok scope st'.2) by step_ok.
  assert (Hrename : ∀ st a st', header_plan_ok scope st.2 → compile_rename scope st a = Ok st' → header_plan_ok scope st'.2) by step_ok.
  do 3 (eapply header_section_ok; cycle 2; [eassumption..|]). constructor.
Qed.

Lemma compile_sse_ok v format version plan : compile_sse_event_patches v format version = Ok plan → sse_plan_ok format plan.
Proof.
  unfold compile_sse_event_patches. destruct v as [v|]; intros; inv_ok; [|subst; by destruct format; repeat constructor].
  destruct format; inv_ok; subst; simpl.
  - eapply (try_fold_inv (λ es, Forall (λ e, json_plan_ok _ e.(chat_json)) es)); [|constructor|done].
    intros es e es' Hes. unfold compile_chat_entry. intros. inv_ok. subst es'. apply Forall_app. split; [done|].
    repeat constructor. by eapply compile_patch_ok.
  - eapply (try_fold_inv (λ es, Forall (λ e, json_plan_ok _ e.(responses_json)) es)); [|constructor|done].
    intros es e es' Hes. unfold compile_responses_entry. intros. inv_ok. subst es'. apply Forall_app. split; [done|].
    repeat constructor. by eapply compile_patch_ok.
  - done.
Qed.

Lemma noop_ok format : plan_ok (noop format).
Proof. by destruct format; repeat constructor. Qed.

Lemma compile_document_ok document format plan :
  compile_document document format = Ok plan → plan_ok plan ∧ plan.(plan_format) = format.
Proof.
  unfold compile_document. intros. inv_ok. destruct (match x with [] => true | _ => false end); inv_ok; subst; [by split; [apply noop_ok|]|].
  breflect. subst. repeat split; simpl; eauto using compile_headers_ok, compile_patch_ok, compile_sse_ok.
Qed.
End compiled_headers.

(** Plans of one format do not hit the [unreachable!] branches, and layers of
    well-formed plans are well-formed. *)
Lemma compose_total d o : plan_ok d → plan_ok o → is_Some (compose d o).
Proof.
  intros (_ & _ & _ & Hd) (_ & _ & _ & Ho). unfold compose. destruct (bool_decide _) eqn:Ef; [|done]. breflect.
  destruct (reject_removed_ancestors _ _); [|done]. rewrite Ef in Hd.
  destruct (plan_format o), (sse_event_patches d), (sse_event_patches o); try done; simpl; split_cases; done.
Qed.

Lemma compose_ok d o plan : plan_ok d → plan_ok o → compose d o = Some (Ok plan) →
  plan_ok plan ∧ plan.(plan_format) = d.(plan_format).
Proof.
  intros (Hd1 & Hd2 & Hd3 & Hd) (Ho1 & Ho2 & Ho3 & Ho). unfold compose. destruct (bool_decide _) eqn:Ef; [|done]. breflect.
  simpl. destruct (reject_removed_ancestors _ _); [|done].
  intros (checked & Hc & Hk)%bind_Some. destruct checked; [|done]. apply bind_Some in Hk as (sse & Hs & [= <-]).
  split; [|done]. repeat split; simpl; try (by apply Forall_app). rewrite Ef in *.
  destruct (plan_format o), (sse_event_patches d), (sse_event_patches o); simplify_eq/=; try done; by apply Forall_app.
Qed.

Section layers_ok.
Context `{HeaderText}.

Lemma template_plan_ok declared document format plan :
  template_plan declared document format = Ok plan → plan_ok plan ∧ plan.(plan_format) = format.
Proof.
  unfold template_plan. case_match; [apply compile_document_ok|]. intros [= <-]. split; [apply noop_ok|done].
Qed.

Lemma transform_plan_ok document t format :
  compile_config_template document = Ok t → plan_ok (transform_plan t format) ∧ (transform_plan t format).(plan_format) = format.
Proof.
  unfold compile_config_template. intros. inv_ok. subst t. destruct format; simpl; eauto using template_plan_ok.
Qed.

Definition template_compiled (template : option CompiledConfigTemplate) : Prop :=
  match template with Some t => ∃ document, compile_config_template document = Ok t | None => True end.

Lemma defaults_ok template format :
  template_compiled template →
  let defaults := match template with Some t => transform_plan t format | None => noop format end in
  plan_ok defaults ∧ defaults.(plan_format) = format.
Proof. destruct template as [t|]; [intros [d Hd]; by eapply transform_plan_ok|]. split; [apply noop_ok|done]. Qed.

Lemma effective_transforms_ok template document format :
  template_compiled template →
  is_Some (effective_transforms template document format)
  ∧ ∀ plan, effective_transforms template document format = Some (Ok plan) → plan_ok plan ∧ plan.(plan_format) = format.
Proof.
  intros [Hd Hf]%(defaults_ok _ format). unfold effective_transforms.
  destruct (compile_document document format) as [o|e] eqn:Eo; [|by split; [|intros plan]].
  apply compile_document_ok in Eo as [Ho Hof]. split; [by apply compose_total|].
  intros plan Hp. apply compose_ok in Hp as [? ->]; done.
Qed.
End layers_ok.
