(* ===== verification/Transform.v ===== *)
(** * Applying transform plans

    Models the data-plane half of [src/transforms/mod.rs]: header plans on a
    [HeaderMap], JSON patch plans on documents and bodies, and event patches on
    server-sent event frames and WebSocket messages.  The theorems say what a
    compiled plan can never change, and that layers are applied in order. *)

From S2P Require Import Prelude Text Domain Json Usage Sse Headers JsonPatch Plans.
Open Scope gateway_scope.

Inductive TransformApplyError :=
| ProtectedHeader | InvalidJsonBody | InvalidJsonPointer | PatchFailed | SerializationFailed | SseFrameTooLarge.
Abbreviation applied A := (result A TransformApplyError) (only parsing).

(** ** Headers *)

Fixpoint skip_whitespace (s : str) : str :=
  match s with
  | c :: s' => if is_ascii_whitespace c then skip_whitespace s' else s
  | [] => []
  end.

(** Bytes that are all whitespace stay as they are. *)
Definition trim_ascii_bytes (bytes : str) : str :=
  match skip_whitespace bytes with
  | [] => bytes
  | s => rev (skip_whitespace (rev s))
  end.

Section header_plans.
Context `{HeaderText, HeaderLib}.

Definition parse_connection_header_names (value : str) : list string :=
  omap (λ name, header_name (trim_ascii_bytes name)) (split_on (Ascii.ascii_of_N 44) value).

Definition connection_header_names (headers : HeaderMap) : list string :=
  flat_map parse_connection_header_names (get_all headers "connection").

Definition ensure_runtime_header_allowed (name : string) (connection_names : list string) (scope : HeaderScope)
    : applied unit :=
  if is_protected_header name scope || existsb (String.eqb name) connection_names then Err ProtectedHeader else Ok tt.

(** One operation: the headers after it, or its error. *)
Definition apply_header_operation (connection_names : list string) (scope : HeaderScope) (headers : HeaderMap)
    (operation : HeaderOperation) : applied HeaderMap :=
  match operation with
  | HeaderSet name value =>
      _ <-! ensure_runtime_header_allowed name connection_names scope;
      Ok (headers_insert headers name value)
  | HeaderRemove name =>
      _ <-! ensure_runtime_header_allowed name connection_names scope;
      Ok (headers_remove headers name)
  | HeaderRename from to =>
      _ <-! ensure_runtime_header_allowed from connection_names scope;
      _ <-! ensure_runtime_header_allowed to connection_names scope;
      match get_all headers from with
      | [] => Ok headers
      | values => Ok (foldl (λ h v, headers_append h to v) (headers_remove headers from) values)
      end
  end.

(** The loop changes the caller's headers operation by operation, so an error
    leaves the operations before it applied. *)
Fixpoint header_loop (connection_names : list string) (scope : HeaderScope) (headers : HeaderMap) (plan : HeaderPlan)
    : HeaderMap * applied unit :=
  match plan with
  | [] => (headers, Ok tt)
  | operation :: plan =>
      match apply_header_operation connection_names scope headers operation with
      | Ok headers => header_loop connection_names scope headers plan
      | Err e => (headers, Err e)
      end
  end.

Definition apply_header_plan_in_scope (headers : HeaderMap) (plan : HeaderPlan) (scope : HeaderScope)
    : HeaderMap * applied unit :=
  header_loop (connection_header_names headers) scope headers plan.
Definition apply_header_plan (headers : HeaderMap) (plan : HeaderPlan) : HeaderMap * applied unit :=
  apply_header_plan_in_scope headers plan RequestScope.
Definition apply_response_header_plan (headers : HeaderMap) (plan : HeaderPlan) : HeaderMap * applied unit :=
  apply_header_plan_in_scope headers plan ResponseScope.
End header_plans.

(** ** JSON patches *)

(** [str::replace]: occurrences from left to right; [skip] counts the bytes of
    the current occurrence. *)
Fixpoint replace_from (pattern replacement : str) (skip : nat) (s : str) : str :=
  match s with
  | [] => []
  | c :: s' =>
      match skip with
      | S skip => replace_from pattern replacement skip s'
      | O => if starts_with pattern s then replacement ++ replace_from pattern replacement (length pattern - 1) s'
             else c :: replace_from pattern replacement 0 s'
      end
  end.
(** [str::contains] *)
Fixpoint contains (pattern s : str) : bool :=
  starts_with pattern s || match s with [] => false | _ :: s' => contains pattern s' end.

Definition VALUE_MARK : str := bytes_of "{{value}}".

Definition json_type_matches (t : JsonValueType) (v : Json) : bool :=
  match t, v with
  | TyObject, JObject _ | TyArray, JArray _ | TyString, JString _ | TyNumber, JNumber _ | TyBoolean, JBool _
  | TyNull, JNull => true
  | _, _ => false
  end.

Definition condition_matches (c : JsonCondition) (current : option Json) : bool :=
  match c with
  | Exists expected => Bool.eqb (match current with Some _ => true | None => false end) expected
  | HasType t => is_some_and current (json_type_matches t)
  | Equals expected => is_some_and current (λ v, json_eqb v expected)
  end.

Section patches.
Context `{JsonText, PatchLib}.

Definition render_template_value (value : Json) : string :=
  match value with JString s => s | v => string_of (to_vec v) end.

Definition resolve_template (template : string) (current : option Json) : applied Json :=
  replacement <-! (if contains VALUE_MARK (bytes_of template)
                   then v <-! ok_or current PatchFailed; Ok (render_template_value v)
                   else Ok EmptyString);
  Ok (JString (string_of (replace_from VALUE_MARK (bytes_of replacement) 0 (bytes_of template)))).

Fixpoint resolve (e : JsonValueExpression) (current : option Json) : applied Json :=
  match e with
  | Literal value => Ok value
  | Current => ok_or current PatchFailed
  | Template template => resolve_template template current
  | ArrayExpr items => l <-! try_map (λ item, resolve item current) items; Ok (JArray l)
  | ObjectExpr entries =>
      l <-! try_map (λ e, v <-! resolve e.2 current; Ok (e.1, v)) entries;
      Ok (JObject (foldl (λ object e, map_insert object e.1 e.2) [] l))
  end.

Definition apply_static_patch (document : Json) (operation : PatchOperation) : applied Json :=
  ok_or (patch document operation) PatchFailed.

Definition runtime_pointer (pointer : JsonPointer) : applied string :=
  if pointer_valid pointer.(raw) then Ok pointer.(raw) else Err InvalidJsonPointer.

Definition target_array (document : Json) (path : JsonPointer) : applied (list Json) :=
  ok_or (value_pointer document path.(raw) ≫= as_array) PatchFailed.

(** A write of the array through [target_array_mut]. *)
Definition write_array (document : Json) (path : JsonPointer) (array : list Json) : Json :=
  pointer_assign document path.(raw) (JArray array).

(** The operation with its resolved value. *)
Definition run_advanced (document : Json) (operation : AdvancedJsonOperation) (value : Json) : applied Json :=
  match operation with
  | AdvAdd path _ _ => p <-! runtime_pointer path; apply_static_patch document (AddOperation p value)
  | AdvReplace path _ _ => p <-! runtime_pointer path; apply_static_patch document (ReplaceOperation p value)
  | AdvRemove path _ => p <-! runtime_pointer path; apply_static_patch document (RemoveOperation p)
  | ArrayAppend path _ _ => array <-! target_array document path; Ok (write_array document path (array ++ [value]))
  | ArrayPrepend path _ _ => array <-! target_array document path; Ok (write_array document path (value :: array))
  | ArrayInsert path index _ _ =>
      array <-! target_array document path;
      if Z.of_nat (length array) <? index then Err PatchFailed
      else Ok (write_array document path (take (Z.to_nat index) array ++ value :: drop (Z.to_nat index) array))
  | ArrayRemove path index _ =>
      array <-! target_array document path;
      if Z.of_nat (length array) <=? index then Err PatchFailed
      else Ok (write_array document path (take (Z.to_nat index) array ++ drop (S (Z.to_nat index)) array))
  | Merge path _ _ =>
      incoming <-! ok_or (as_object value) PatchFailed;
      target <-! ok_or (value_pointer document path.(raw) ≫= as_object) PatchFailed;
      Ok (pointer_assign document path.(raw) (JObject (map_append target incoming)))
  end.

Definition apply_advanced_patch (document : Json) (operation : AdvancedJsonOperation) : applied Json :=
  let current := value_pointer document (adv_path operation).(raw) in
  if is_some_and (adv_when operation) (λ condition, negb (condition_matches condition current)) then Ok document
  else
    value <-! match adv_value operation with
              | Some expression => resolve expression current
              | None => Ok JNull
              end;
    run_advanced document operation value.

Definition apply_json_patch_operation (document : Json) (operation : JsonPatchOperation) : applied Json :=
  match operation with
  | PatchAdd path value => p <-! runtime_pointer path; apply_static_patch document (AddOperation p value)
  | PatchReplace path value => p <-! runtime_pointer path; apply_static_patch document (ReplaceOperation p value)
  | PatchRemove path => p <-! runtime_pointer path; apply_static_patch document (RemoveOperation p)
  | Advanced operation => apply_advanced_patch document operation
  end.

(** The candidate replaces the document only when every operation succeeds. *)
Definition apply_json_patch_value (document : Json) (plan : JsonPatchPlan) : applied Json :=
  try_fold apply_json_patch_operation document plan.

Definition apply_json_patch_plan (body : str) (plan : JsonPatchPlan) : applied str :=
  if is_empty_plan plan then Ok body
  else
    document <-! ok_or (from_slice body) InvalidJsonBody;
    document <-! apply_json_patch_value document plan;
    Ok (to_vec document).

(** ** Events *)

(** Whether an entry matched, and the patched value. *)
Definition apply_matching_chat_entries (value : Json) (entries : list ChatCompletionsSsePatchEntry)
    : applied (Json * bool) :=
  try_fold (λ st entry,
    if bool_decide (entry.(chat_event) = ChatCompletionChunk) && negb (is_empty_plan entry.(chat_json))
    then v <-! apply_json_patch_value st.1 entry.(chat_json); Ok (v, true) else Ok st) (value, false) entries.

Definition apply_matching_response_entries (value : Json) (entries : list ResponsesSsePatchEntry)
    (selector : ResponsesSseEvent) : applied (Json * bool) :=
  try_fold (λ st entry,
    if bool_decide (entry.(responses_event) = selector) && negb (is_empty_plan entry.(responses_json))
    then v <-! apply_json_patch_value st.1 entry.(responses_json); Ok (v, true) else Ok st) (value, false) entries.

Definition MAX_FRAME_BYTES : Z := 8 * 1024 * 1024.

Definition apply_websocket_event_plan (payload : str) (plan : SseEventPatchPlan) : applied str :=
  if negb (has_operations plan) then Ok payload
  else if MAX_FRAME_BYTES <? Z.of_nat (length payload) then Err SseFrameTooLarge
  else
    match plan, from_slice payload with
    | SseResponses entries, Some value =>
        if negb (is_object value) then Ok payload
        else match (value_get value "type" ≫= as_str) ≫= response_selector with
             | None => Ok payload
             | Some selector =>
                 r <-! apply_matching_response_entries value entries selector;
                 Ok (if r.2 then to_vec r.1 else payload)
             end
    | _, _ => Ok payload
    end.

(** [next_sse_line]: the content of the line at the cursor, its terminator and
    the rest; an unterminated line is none. *)
Fixpoint frame_line (s : str) : option (str * str * str) :=
  match s with
  | [] => None
  | c :: s' =>
      if is_lf c then Some ([], [c], s')
      else if is_cr c then
        match s' with
        | d :: s'' => if is_lf d then Some ([], [c; d], s'') else Some ([], [c], s')
        | [] => Some ([], [c], [])
        end
      else '(content, eol, rest) ← frame_line s'; Some (c :: content, eol, rest)
  end.

(** The line loop of [transform_sse_frame], up to the blank line. *)
Fixpoint event_fields (fuel : nat) (s : str) (f : SseFields) : SseFields :=
  match fuel, frame_line s with
  | S fuel, Some ((_ :: _) as content, _, rest) => event_fields fuel rest (add_field f content)
  | _, _ => f
  end.

Definition is_data_line (content : str) : bool :=
  is_some_and (sse_field content) (λ e, bool_decide (e.1 = bytes_of "data")).

(** The bytes before the cursor are copied line by line, the first data line is
    replaced and the others are left out. *)
Fixpoint rewrite_lines (fuel : nat) (s json : str) (replaced : bool) : str :=
  match fuel, frame_line s with
  | S fuel, Some ((_ :: _) as content, eol, rest) =>
      if is_data_line content
      then (if replaced then [] else bytes_of "data: " ++ json ++ eol) ++ rewrite_lines fuel rest json true
      else content ++ eol ++ rewrite_lines fuel rest json replaced
  | _, _ => s
  end.
Definition rewrite_sse_data_lines (frame json : str) : str := rewrite_lines (length frame) frame json false.

(** Whether the value was patched, and the value. *)
Definition patch_event (event : option str) (value : Json) (plan : SseEventPatchPlan) : applied (Json * bool) :=
  match plan with
  | SseChatCompletions entries =>
      let chat_chunk := bool_decide (value_get value "object" ≫= as_str = Some "chat.completion.chunk") in
      if negb chat_chunk || is_some_and event (λ name, negb (bool_decide (name = []))) then Ok (value, false)
      else apply_matching_chat_entries value entries
  | SseResponses entries =>
      match value_get value "type" ≫= as_str with
      | None => Ok (value, false)
      | Some event_type =>
          match response_selector event_type with
          | None => Ok (value, false)
          | Some selector =>
              if is_some_and event (λ name, negb (bool_decide (name = bytes_of event_type))) then Ok (value, false)
              else apply_matching_response_entries value entries selector
          end
      end
  | SseImages => Ok (value, false)
  end.

Definition transform_sse_frame (frame : str) (plan : SseEventPatchPlan) : applied str :=
  let f := event_fields (length frame) frame no_fields in
  if negb f.(sse_has_data) then Ok frame
  else
    match from_slice f.(sse_data) with
    | None => Ok frame
    | Some value =>
        if negb (is_object value) then Ok frame
        else
          r <-! patch_event f.(sse_event) value plan;
          Ok (if r.2 then rewrite_sse_data_lines frame (to_vec r.1) else frame)
    end.
End patches.

(** ** Header plans against a multimap specification *)

Section header_props.
Context `{HT : HeaderText, HL : HeaderLib} `{!HeaderLaws}.
Implicit Types (h : HeaderMap) (plan : HeaderPlan).

(** What an operation means for the values of every name. *)
Definition header_effect (values : string → list str) (o : HeaderOperation) (n : string) : list str :=
  match o with
  | HeaderSet name v => if String.eqb name n then [v] else values n
  | HeaderRemove name => if String.eqb name n then [] else values n
  | HeaderRename from to =>
      let rest := if String.eqb from n then [] else values n in
      if String.eqb to n then rest ++ values from else rest
  end.

Definition name_allowed (connection_names : list string) (scope : HeaderScope) (n : string) : bool :=
  negb (is_protected_header n scope) && negb (existsb (String.eqb n) connection_names).

(** The operations up to the first one that names a refused header. *)
Fixpoint allowed_prefix (connection_names : list string) (scope : HeaderScope) (plan : HeaderPlan) : HeaderPlan :=
  match plan with
  | [] => []
  | o :: plan =>
      if forallb (name_allowed connection_names scope) (operation_names o)
      then o :: allowed_prefix connection_names scope plan else []
  end.

Lemma ensure_allowed n names scope :
  ensure_runtime_header_allowed n names scope = if name_allowed names scope n then Ok tt else Err ProtectedHeader.
Proof.
  unfold ensure_runtime_header_allowed, name_allowed. rewrite <-negb_orb. by destruct (_ || _).
Qed.

Lemma header_operation_spec names scope h o :
  if forallb (name_allowed names scope) (operation_names o)
  then ∃ h', apply_header_operation names scope h o = Ok h' ∧ ∀ n, get_all h' n = header_effect (get_all h) o n
  else apply_header_operation names scope h o = Err ProtectedHeader.
Proof.
  destruct o as [name v|name|from to]; simpl; rewrite ?andb_true_r, !ensure_allowed.
  - destruct (name_allowed names scope name); [|done]. eexists. split; [done|]. intros n. apply get_all_insert.
  - destruct (name_allowed names scope name); [|done]. eexists. split; [done|]. intros n. apply get_all_remove.
  - destruct (name_allowed names scope from); [|done]. destruct (name_allowed names scope to); [|done]. simpl.
    destruct (get_all h from) as [|v vs] eqn:Ef; eexists; (split; [done|]); intros n.
    + rewrite app_nil_r. destruct (String.eqb_spec from n) as [->|]; [|by destruct (String.eqb to n)].
      rewrite Ef. by destruct (String.eqb to n).
    + change (foldl (λ h v, headers_append h to v) (headers_append (headers_remove h from) to v) vs)
        with (foldl (λ h v, headers_append h to v) (headers_remove h from) (v :: vs)).
      by rewrite get_all_append_list, get_all_remove.
Qed.

Lemma header_effect_ext f g o n : (∀ n, f n = g n) → header_effect f o n = header_effect g o n.
Proof. intros E. destruct o; simpl; by rewrite ?E. Qed.

Lemma header_effects_ext f g plan n : (∀ n, f n = g n) → foldl header_effect f plan n = foldl header_effect g plan n.
Proof. revert f g. induction plan as [|o plan IH]; intros f g E; simpl; [done|]. apply IH. intros. by apply header_effect_ext. Qed.

Lemma header_loop_spec names scope h plan :
  let '(h', r) := header_loop names scope h plan in
  (∀ n, get_all h' n = foldl header_effect (get_all h) (allowed_prefix names scope plan) n)
  ∧ r = if forallb (λ o, forallb (name_allowed names scope) (operation_names o)) plan then Ok tt else Err ProtectedHeader.
Proof.
  revert h. induction plan as [|o plan IH]; intros h; simpl; [done|].
  pose proof (header_operation_spec names scope h o) as Ho.
  destruct (forallb _ (operation_names o)); simpl; [|by rewrite Ho].
  destruct Ho as (h1 & -> & Hh1). specialize (IH h1). destruct (header_loop names scope h1 plan) as [h' r].
  destruct IH as [IH ->]. split; [|done]. intros n. rewrite IH. by apply header_effects_ext.
Qed.

(** A name no operation may touch keeps its values. *)
Lemma refused_name_kept names scope plan f n :
  name_allowed names scope n = false → foldl header_effect f (allowed_prefix names scope plan) n = f n.
Proof.
  intros Hn. revert f. induction plan as [|o plan IH]; intros f; simpl; [done|].
  destruct (forallb _ (operation_names o)) eqn:Eo; simpl; [|done]. rewrite IH.
  destruct o as [name v|name|from to]; simpl in *; breflect;
    repeat match goal with |- context [String.eqb ?a n] => destruct (String.eqb_spec a n); [subst; congruence|] end; done.
Qed.

Lemma name_allowed_true names scope n :
  name_allowed names scope n = true ↔ is_protected_header n scope = false ∧ n ∉ names.
Proof. unfold name_allowed. rewrite andb_true_iff, !negb_true_iff, existsb_eqb_bool, bool_decide_eq_false. done. Qed.

Lemma header_plan_keeps h plan scope n :
  is_protected_header n scope = true ∨ n ∈ connection_header_names h →
  get_all (apply_header_plan_in_scope h plan scope).1 n = get_all h n.
Proof.
  intros Hn. unfold apply_header_plan_in_scope. pose proof (header_loop_spec (connection_header_names h) scope h plan) as Hl.
  destruct (header_loop _ _ _ _) as [h' r]. destruct Hl as [Hl _]. simpl. rewrite Hl. apply refused_name_kept.
  destruct (name_allowed _ _ n) eqn:E; [|done]. apply name_allowed_true in E. naive_solver.
Qed.

(** Whatever a header plan does, and also when it fails half-way, it performs
    exactly its operations up to the first one that names a reserved or
    connection-specific header; it succeeds iff there is no such operation, and
    reserved and connection-specific headers keep their values. *)
Theorem header_plan_exact h plan scope :
  let names := connection_header_names h in
  let '(h', r) := apply_header_plan_in_scope h plan scope in
  (∀ n, get_all h' n = foldl header_effect (get_all h) (allowed_prefix names scope plan) n)
  ∧ (r = Ok tt ↔ ∀ o n, o ∈ plan → n ∈ operation_names o → is_protected_header n scope = false ∧ n ∉ names)
  ∧ (∀ n, is_protected_header n scope = true ∨ n ∈ names → get_all h' n = get_all h n).
Proof.
  simpl. unfold apply_header_plan_in_scope. set (names := connection_header_names h).
  pose proof (header_loop_spec names scope h plan) as Hl. destruct (header_loop names scope h plan) as [h' r].
  destruct Hl as [Hh ->]. split_and!; [done| |].
  - transitivity (forallb (λ o, forallb (name_allowed names scope) (operation_names o)) plan = true).
    { by destruct (forallb _ plan). }
    rewrite forallb_forall. setoid_rewrite forallb_forall. setoid_rewrite <-list_elem_of_In.
    setoid_rewrite name_allowed_true. naive_solver.
  - intros n Hn. rewrite Hh. apply refused_name_kept. destruct (name_allowed names scope n) eqn:E; [|done].
    apply name_allowed_true in E. naive_solver.
Qed.

Lemma connection_names_kept h plan scope :
  connection_header_names (apply_header_plan_in_scope h plan scope).1 = connection_header_names h.
Proof.
  unfold connection_header_names. by rewrite header_plan_keeps by (left; by destruct scope).
Qed.

Lemma header_loop_app names scope h p1 p2 :
  header_loop names scope h (p1 ++ p2)
  = let '(h', r) := header_loop names scope h p1 in
    match r with Ok _ => header_loop names scope h' p2 | Err e => (h', Err e) end.
Proof. revert h. induction p1 as [|o p1 IH]; intros h; simpl; [done|]. destruct (apply_header_operation _ _ _ _); [apply IH|done]. Qed.

Lemma header_plan_app h p1 p2 scope :
  apply_header_plan_in_scope h (p1 ++ p2) scope
  = let '(h', r) := apply_header_plan_in_scope h p1 scope in
    match r with Ok _ => apply_header_plan_in_scope h' p2 scope | Err e => (h', Err e) end.
Proof.
  pose proof (connection_names_kept h p1 scope) as Hk. unfold apply_header_plan_in_scope in *.
  rewrite header_loop_app. destruct (header_loop (connection_header_names h) scope h p1) as [h' r]. simpl in Hk.
  by rewrite Hk.
Qed.
End header_props.

(** ** What a patch can change *)

Section patch_props.
Context `{JT : JsonText, PL : PatchLib} {PLaws : PatchLaws}.
Implicit Types (d v : Json) (q : list string).

Definition pointed (p : JsonPointer) : Prop := p.(raw) = pointer_text p.(tokens) ∧ p.(tokens) ≠ [].

Lemma op_ok_pointed scope o : op_ok scope o → pointed (operation_path o).
Proof. intros [Hr Hv]. split; [done|]. unfold validate_pointer in Hv. by destruct (tokens _). Qed.

(** A change of one member at the path. *)
Definition member_change (p : JsonPointer) d d' : Prop :=
  ∃ g, member_local g ∧ at_parent g p.(tokens) d = Some d'.

Lemma alter_change p g d d' : pointed p → alter_path g p.(tokens) d = Some d' → member_change p d d'.
Proof.
  intros [_ Hne]. destruct (tokens p) as [|t ts] eqn:E; [done|]. rewrite alter_at_parent. intros Ha.
  eexists. rewrite E. split; [|exact Ha]. intros t' w w' k Hw Hk _.
  destruct (child t' w); simplify_eq/=. destruct (g _); simplify_eq/=. by eapply set_child_other.
Qed.

Lemma runtime_pointer_pointed p s : pointed p → runtime_pointer p = Ok s → s = pointer_text p.(tokens).
Proof. unfold runtime_pointer. intros [Hr _]. case_match; [|done]. congruence. Qed.

Lemma add_change p s x d d' :
  pointed p → runtime_pointer p = Ok s → apply_static_patch d (AddOperation s x) = Ok d' → member_change p d d'.
Proof.
  intros Hp ->%runtime_pointer_pointed; [|done]. unfold apply_static_patch. rewrite patch_add, ok_or_Ok.
  destruct Hp as [_ Hne]. intros Ha. exists (λ t, add_member t x). split; [apply add_member_local|]. by destruct (tokens p).
Qed.

Lemma replace_change p s x d d' :
  pointed p → runtime_pointer p = Ok s → apply_static_patch d (ReplaceOperation s x) = Ok d' → member_change p d d'.
Proof.
  intros Hp ->%runtime_pointer_pointed; [|done]. unfold apply_static_patch. rewrite patch_replace, ok_or_Ok.
  by apply alter_change.
Qed.

Lemma remove_change p s d d' :
  pointed p → runtime_pointer p = Ok s → apply_static_patch d (RemoveOperation s) = Ok d' → member_change p d d'.
Proof.
  intros Hp ->%runtime_pointer_pointed; [|done]. destruct Hp as [_ Hne]. unfold apply_static_patch, member_change.
  destruct (tokens p) as [|t ts]; [done|]. rewrite patch_remove, ok_or_Ok. intros Ha. eauto using remove_member_local.
Qed.

Lemma assign_change p x y d : pointed p → value_pointer d p.(raw) = Some y → member_change p d (pointer_assign d p.(raw) x).
Proof.
  intros Hp Hv. pose proof Hp as [Hr _]. rewrite Hr, value_pointer_text in Hv. rewrite Hr.
  eapply alter_change; [done|]. symmetry. by eapply pointer_assign_text.
Qed.

Lemma target_array_pointer p d l : target_array d p = Ok l → value_pointer d p.(raw) = Some (JArray l).
Proof.
  unfold target_array. rewrite ok_or_Ok, bind_Some. intros (v & -> & Hv). destruct v; simplify_eq/=. done.
Qed.

Lemma run_advanced_change o x d d' : pointed (adv_path o) → run_advanced d o x = Ok d' → member_change (adv_path o) d d'.
Proof.
  destruct o; simpl; intros Hp Hr; inv_ok;
    eauto using add_change, replace_change, remove_change; subst d'; unfold write_array;
    try (eapply assign_change; [done|]; by eauto using target_array_pointer).
  match goal with H : _ ≫= as_object = Some _ |- _ => apply bind_Some in H as (y & Hy & _) end.
  by eapply assign_change.
Qed.

Lemma operation_change o d d' :
  pointed (operation_path o) → apply_json_patch_operation d o = Ok d' → d' = d ∨ member_change (operation_path o) d d'.
Proof.
  intros Hp. destruct o as [path x|path x|path|o]; simpl in *; intros H; inv_ok;
    eauto using add_change, replace_change, remove_change.
  unfold apply_advanced_patch in H. destruct (is_some_and (adv_when o) _); inv_ok; [by left|].
  right. by eapply run_advanced_change.
Qed.

Lemma operation_spares o q d d' :
  pointed (operation_path o) → spares (operation_path o).(tokens) q →
  apply_json_patch_operation d o = Ok d' → lookup_path q d' = lookup_path q d.
Proof.
  intros Hp Hs [->|(g & Hg & Ha)]%operation_change; [done| |done]. by eapply at_parent_spares.
Qed.

Lemma plan_spares scope plan q d d' :
  json_plan_ok scope plan →
  (∀ o, op_ok scope o → spares (operation_path o).(tokens) q) →
  apply_json_patch_value d plan = Ok d' → lookup_path q d' = lookup_path q d.
Proof.
  intros Hok Hs. unfold apply_json_patch_value. revert d. induction Hok as [|o plan Ho _ IH]; intros d; simpl; [by intros [= <-]|].
  intros (d1 & H1 & H2)%result_bind_Ok. rewrite (IH d1 H2). eapply operation_spares; eauto using op_ok_pointed.
Qed.

(** A top-level name no path starts with. *)
Lemma spares_first k p : array_index k = None → p ≠ [] → head p ≠ Some k → spares p [k].
Proof. destruct p as [|a [|b p]]; simpl; [done| |]; intros Hk _ Hne; [split; congruence|left; congruence]. Qed.

Lemma one_of_true t names : one_of t names = true ↔ t ∈ names.
Proof. apply existsb_eqb_elem. Qed.

Lemma existsb_false_elem {A} (f : A → bool) l x : existsb f l = false → x ∈ l → f x = false.
Proof.
  intros He Hx. destruct (f x) eqn:E; [|done]. rewrite <-He. symmetry. apply existsb_exists. exists x.
  by rewrite <-list_elem_of_In.
Qed.

Lemma request_op_spares o k : k ∈ ["model"; "stream"] → op_ok ScopeRequest o → spares (operation_path o).(tokens) [k].
Proof.
  intros Hk Ho. pose proof (op_ok_pointed _ _ Ho) as [_ Hne]. destruct Ho as [_ Hv]. unfold validate_pointer in Hv.
  apply spares_first; [|done|].
  - by repeat (apply elem_of_cons in Hk as [->|Hk]; [done|]); apply elem_of_nil in Hk.
  - destruct (tokens _) as [|t ts] eqn:E; [done|]. simpl. intros [= ->].
    destruct (existsb _ (k :: ts)) eqn:Ex; [done|]. apply (existsb_false_elem _ _ k) in Ex; [|left].
    apply not_true_iff_false in Ex. by rewrite one_of_true in Ex.
Qed.
End patch_props.
