(* ===== verification/Envelope.v ===== *)
(** * What transforms keep

    The end-to-end properties of [src/transforms/mod.rs]: documents compiled by
    [compile_document] and layered by [TransformPlan::compose], applied to
    request bodies and to the events of a response stream.  Paths are lists of
    tokens; [lookup_path] is RFC 6901. *)

From S2P Require Import Prelude Text Domain Json Usage ErrorText Sse Headers JsonPatch Plans Transform.
Open Scope gateway_scope.

(** ** The protected parts of events *)

Definition chat_envelope : list (list string) := [["id"]; ["object"]; ["created"]; ["model"]].
Definition responses_envelope : list (list string) :=
  [["type"]; ["sequence_number"]; ["item_id"]; ["output_index"]; ["content_index"]; ["call_id"]; ["response_id"];
   ["response"; "id"]; ["response"; "status"]].
Definition envelope (format : ApiFormat.t) : list (list string) :=
  match format with
  | ApiFormat.OpenAiChatCompletions => chat_envelope
  | ApiFormat.OpenAiResponses => responses_envelope
  | ApiFormat.OpenAiImages => []
  end.

(** Where the items of an event are. *)
Definition items_path (format : ApiFormat.t) : list string :=
  match format with ApiFormat.OpenAiResponses => ["response"; "output"] | _ => ["choices"] end.

(** The identifying members, the number of items and the index of every choice. *)
Definition envelope_kept (format : ApiFormat.t) (v v' : Json) : Prop :=
  (∀ q, q ∈ envelope format → lookup_path q v' = lookup_path q v)
  ∧ shape <$> lookup_path (items_path format) v' = shape <$> lookup_path (items_path format) v
  ∧ (format = ApiFormat.OpenAiChatCompletions →
     ∀ i, lookup_path ["choices"; i; "index"] v' = lookup_path ["choices"; i; "index"] v).

Lemma envelope_kept_refl format v : envelope_kept format v v.
Proof. done. Qed.

Lemma envelope_kept_trans format v1 v2 v3 :
  envelope_kept format v1 v2 → envelope_kept format v2 v3 → envelope_kept format v1 v3.
Proof.
  intros (H1 & H2 & H3) (H4 & H5 & H6). split_and!.
  - intros q Hq. rewrite (H4 q Hq). auto.
  - congruence.
  - intros Hf i. rewrite (H6 Hf i). auto.
Qed.

(** ** Paths an accepted operation can have *)

Ltac in_list H := repeat (apply elem_of_cons in H as [->|H]); try by apply elem_of_nil in H.

Lemma position_first t l : position (λ t', String.eqb t' t) (t :: l) = Some O.
Proof. simpl. by rewrite String.eqb_refl. Qed.

Lemma chat_path p : is_immutable_sse_path p ApiFormat.OpenAiChatCompletions = false →
  ∃ a l, p.(tokens) = a :: l ∧ (a ∉ ["id"; "object"; "created"; "model"])
         ∧ (a = "choices" → (2 ≤ length l)%nat) ∧ "index" ∉ a :: l.
Proof.
  unfold is_immutable_sse_path. destruct (tokens p) as [|a l]; [done|].
  intros [[H1 H2]%orb_false_iff H3]%orb_false_iff. exists a, l. split_and!; [done| | |].
  - intros Hin%one_of_true. congruence.
  - intros ->. unfold is_array_item_or_its_index in H2. rewrite position_first in H2. simpl in H2.
    destruct l as [|? [|? l]]; simpl in *; [done|done|lia].
  - intros Hin. by apply (existsb_false_elem _ _ _ H3) in Hin.
Qed.

Lemma responses_path p : is_immutable_sse_path p ApiFormat.OpenAiResponses = false →
  ∃ a l, p.(tokens) = a :: l
         ∧ (∀ t, t ∈ a :: l → t ∉ ["type"; "sequence_number"; "item_id"; "output_index"; "content_index"; "call_id"; "response_id"])
         ∧ (a = "response" → ∃ b l', l = b :: l' ∧ (b ∉ ["id"; "status"]) ∧ (b = "output" → (2 ≤ length l')%nat)).
Proof.
  unfold is_immutable_sse_path. destruct (tokens p) as [|a l]; [done|].
  intros [[[[H1 H2]%orb_false_iff H3]%orb_false_iff H4]%orb_false_iff H5]%orb_false_iff. exists a, l. split_and!; [done| |].
  - intros t Ht Hin. apply (existsb_false_elem _ _ _ H5) in Ht. apply not_true_iff_false in Ht. apply Ht, one_of_true.
    set_solver.
  - intros ->. destruct l as [|b l]; [done|]. exists b, l. split_and!; [done| |].
    + intros Hin%one_of_true. apply andb_false_iff in H3 as [H3|H3]; [done|congruence].
    + intros ->. unfold is_array_item_or_its_index in H4. simpl in H4. destruct l as [|? [|? l]]; simpl in *; [done|done|lia].
Qed.

Lemma chat_spares_choice a l i :
  (a = "choices" → (2 ≤ length l)%nat) → "index" ∉ a :: l → spares (a :: l) ["choices"; i; "index"].
Proof.
  intros Hc Hi. destruct (decide (a = "choices")) as [->|Hne].
  - specialize (Hc eq_refl). destruct l as [|j [|x l]]; [simpl in Hc; lia..|]. right. split; [done|].
    destruct (decide (i = j)) as [->|]; [|by left]. right. split; [done|].
    assert ("index" ≠ x) by (intros <-; apply Hi; do 2 right; left). destruct l; [done|by left].
  - destruct l as [|b l]; simpl; [split; [congruence|done]|left; congruence].
Qed.

(** The shape of a node no operation is at or directly below. *)
Section events.
Context `{JT : JsonText, PL : PatchLib} {PLaws : PatchLaws}.

Lemma plan_shape scope plan q d d' :
  json_plan_ok scope plan →
  (∀ o, op_ok scope o → spares (operation_path o).(tokens) q ∨ ∃ a b l, (operation_path o).(tokens) = q ++ a :: b :: l) →
  apply_json_patch_value d plan = Ok d' → shape <$> lookup_path q d' = shape <$> lookup_path q d.
Proof.
  intros Hok Hs. unfold apply_json_patch_value. revert d. induction Hok as [|o plan Ho _ IH]; intros d; simpl; [by intros [= <-]|].
  intros (d1 & H1 & H2)%result_bind_Ok. rewrite (IH d1 H2). pose proof (op_ok_pointed _ _ Ho) as Hp.
  destruct (Hs o Ho) as [Hq|(a & b & l & Hq)]; [by rewrite (operation_spares o q d d1)|].
  apply operation_change in H1 as [->|(g & _ & Hg)]; [done| |done]. rewrite Hq in Hg. by eapply at_parent_shape.
Qed.

Lemma sse_op_path format o : op_ok (ScopeSse format) o → is_immutable_sse_path (operation_path o) format = false.
Proof. intros [_ Hv]. unfold validate_pointer in Hv. destruct (tokens _); [done|]. by destruct (is_immutable_sse_path _ _). Qed.

Lemma chat_plan_envelope plan v v' :
  json_plan_ok (ScopeSse ApiFormat.OpenAiChatCompletions) plan → apply_json_patch_value v plan = Ok v' →
  envelope_kept ApiFormat.OpenAiChatCompletions v v'.
Proof.
  intros Hok Ha. split_and!.
  - intros q Hq. eapply plan_spares; [done| |done]. intros o (a & l & -> & Hn & _)%sse_op_path%chat_path.
    in_list Hq; (apply spares_first; [done|done|]; simpl; intros [= ->]; apply Hn; set_solver).
  - eapply plan_shape; [done| |done]. intros o (a & l & -> & _ & Hc & _)%sse_op_path%chat_path.
    destruct (decide (a = "choices")) as [->|Hne].
    + specialize (Hc eq_refl). destruct l as [|b [|c l]]; [simpl in Hc; lia..|]. right. by exists b, c, l.
    + left. apply spares_first; [done|done|]. simpl. congruence.
  - intros _ i. eapply plan_spares; [done| |done]. intros o (a & l & -> & _ & Hc & Hi)%sse_op_path%chat_path.
    by apply chat_spares_choice.
Qed.

Lemma responses_plan_envelope plan v v' :
  json_plan_ok (ScopeSse ApiFormat.OpenAiResponses) plan → apply_json_patch_value v plan = Ok v' →
  envelope_kept ApiFormat.OpenAiResponses v v'.
Proof.
  intros Hok Ha. split_and!; [| |done].
  - intros q Hq. eapply plan_spares; [done| |done]. intros o (a & l & -> & Hn & Hr)%sse_op_path%responses_path.
    in_list Hq; try (apply spares_first; [done|done|]; simpl; intros [= ->]; apply (Hn _ ltac:(left)); set_solver);
      (destruct (decide (a = "response")) as [->|Hne];
       [destruct (Hr eq_refl) as (b & l' & -> & Hb & _); right; split; [done|]; apply spares_first; [done|done|];
        simpl; intros [= ->]; apply Hb; set_solver
       |destruct l; simpl; [split; [congruence|done]|left; congruence]]).
  - eapply plan_shape; [done| |done]. intros o (a & l & -> & _ & Hr)%sse_op_path%responses_path.
    destruct (decide (a = "response")) as [->|Hne].
    + destruct (Hr eq_refl) as (b & l' & -> & _ & Ho). destruct (decide (b = "output")) as [->|Hb].
      * specialize (Ho eq_refl). destruct l' as [|c [|e l']]; [simpl in Ho; lia..|]. right. by exists c, e, l'.
      * left. right. split; [done|]. apply spares_first; [done|done|]. simpl. congruence.
    + left. destruct l; simpl; [split; [congruence|done]|left; congruence].
Qed.

(** ** Matching entries *)

Lemma patch_event_envelope format event v plan r :
  sse_plan_ok format plan → patch_event event v plan = Ok r → envelope_kept format v r.1.
Proof.
  destruct plan as [entries|entries|]; destruct format; try done; simpl; intros Hok.
  - case_match; [by intros [= <-]|]. unfold apply_matching_chat_entries.
    change v with (v, false).1 at 2. generalize (v, false). clear -Hok PLaws.
    induction Hok as [|e entries He _ IH]; intros st; simpl; [by intros [= <-]|].
    intros (st1 & H1 & H2)%result_bind_Ok. eapply envelope_kept_trans; [|by apply IH].
    case_match; inv_ok; subst st1; [by eapply chat_plan_envelope|done].
  - case_match; [|by intros [= <-]]. case_match; [|by intros [= <-]]. case_match; [by intros [= <-]|].
    unfold apply_matching_response_entries. change v with (v, false).1 at 2. generalize (v, false). clear -Hok PLaws.
    induction Hok as [|e entries He _ IH]; intros st; simpl; [by intros [= <-]|].
    intros (st1 & H1 & H2)%result_bind_Ok. eapply envelope_kept_trans; [|by apply IH].
    case_match; inv_ok; subst st1; [by eapply responses_plan_envelope|done].
  - by intros [= <-].
Qed.
End events.

(** ** Lines of a frame *)

Definition no_eol (s : str) : Prop := Forall (λ c, is_cr c = false ∧ is_lf c = false) s.

(** A CR that is not followed by LF. *)
Fixpoint bare_cr (s : str) : bool :=
  match s with
  | [] => false
  | c :: s' => (is_cr c && negb (match s' with d :: _ => is_lf d | [] => false end)) || bare_cr s'
  end.

Definition proper_eol (eol : str) : Prop :=
  (∃ c, eol = [c] ∧ is_lf c = true) ∨ ∃ c d, eol = [c; d] ∧ is_lf c = false ∧ is_cr c = true ∧ is_lf d = true.

Lemma frame_line_text content eol rest :
  no_eol content → proper_eol eol → frame_line (content ++ eol ++ rest) = Some (content, eol, rest).
Proof.
  intros Hc He. induction Hc as [|c content [Hr Hl] _ IH].
  - destruct He as [(c & -> & Hc)|(c & d & -> & Hc & Hr & Hd)]; simpl; [by rewrite Hc|by rewrite Hc, Hr, Hd].
  - simpl in *. by rewrite Hl, Hr, IH.
Qed.

Lemma frame_line_parts s content eol rest :
  bare_cr s = false → frame_line s = Some (content, eol, rest) →
  s = content ++ eol ++ rest ∧ no_eol content ∧ proper_eol eol ∧ bare_cr rest = false.
Proof.
  revert content eol rest. induction s as [|c s IH]; intros content eol rest Hb; simpl; [done|].
  simpl in Hb. apply orb_false_iff in Hb as [Hc Hb].
  destruct (is_lf c) eqn:El; [|destruct (is_cr c) eqn:Er].
  - intros [= <- <- <-]. split_and!; [done|constructor|left; eauto|done].
  - destruct s as [|d s]; [done|]. simpl in Hc, Hb. destruct (is_lf d) eqn:Ed; [|done].
    apply orb_false_iff in Hb as [_ Hb]. intros [= <- <- <-]. split_and!; [done|constructor|right; naive_solver|done].
  - destruct (frame_line s) as [[[content' eol'] rest']|]; [|done]. intros [= <- <- <-].
    destruct (IH content' eol' rest' Hb eq_refl) as (-> & Hn & He & Hr). split_and!; [done|by constructor|done|done].
Qed.

Lemma frame_line_length s content eol rest : frame_line s = Some (content, eol, rest) → (length rest < length s)%nat.
Proof.
  revert content eol rest. induction s as [|c s IH]; intros content eol rest; simpl; [done|].
  destruct (is_lf c); [intros [= _ _ <-]; lia|]. destruct (is_cr c).
  - destruct s as [|d s]; [intros [= _ _ <-]; simpl; lia|]. destruct (is_lf d); intros [= _ _ <-]; simpl; lia.
  - destruct (frame_line s) as [[[content' eol'] rest']|]; [|done]. intros [= _ _ <-].
    specialize (IH _ _ _ eq_refl). lia.
Qed.

(** The loops with enough fuel, as recursions on the text. *)
Definition fields_from (s : str) (f : SseFields) : SseFields := event_fields (length s) s f.
Definition rewritten (s json : str) (replaced : bool) : str := rewrite_lines (length s) s json replaced.

Lemma event_fields_fuel n m s f : (length s ≤ n)%nat → (length s ≤ m)%nat → event_fields n s f = event_fields m s f.
Proof.
  revert m s f. induction n as [|n IH]; intros m s f Hn Hm.
  { destruct s; [|simpl in Hn; lia]. by destruct m. }
  destruct m as [|m]; [destruct s; [done|simpl in Hm; lia]|]. simpl.
  destruct (frame_line s) as [[[[|c content] eol] rest]|] eqn:E; [done| |done].
  apply frame_line_length in E. apply IH; lia.
Qed.

Lemma rewrite_lines_fuel n m s json b :
  (length s ≤ n)%nat → (length s ≤ m)%nat → rewrite_lines n s json b = rewrite_lines m s json b.
Proof.
  revert m s b. induction n as [|n IH]; intros m s b Hn Hm.
  { destruct s; [|simpl in Hn; lia]. by destruct m. }
  destruct m as [|m]; [destruct s; [done|simpl in Hm; lia]|]. simpl.
  destruct (frame_line s) as [[[[|c content] eol] rest]|] eqn:E; [done| |done].
  apply frame_line_length in E. by rewrite !(IH m) by lia.
Qed.

Lemma fields_from_line s f c content eol rest :
  frame_line s = Some (c :: content, eol, rest) → fields_from s f = fields_from rest (add_field f (c :: content)).
Proof.
  intros E. pose proof (frame_line_length _ _ _ _ E) as Hl. unfold fields_from.
  destruct (length s) as [|k] eqn:Ek; [lia|]. simpl. rewrite E. apply event_fields_fuel; lia.
Qed.

Lemma rewritten_line s json b c content eol rest :
  frame_line s = Some (c :: content, eol, rest) →
  rewritten s json b
  = if is_data_line (c :: content)
    then (if b then [] else bytes_of "data: " ++ json ++ eol) ++ rewritten rest json true
    else (c :: content) ++ eol ++ rewritten rest json b.
Proof.
  intros E. pose proof (frame_line_length _ _ _ _ E) as Hl. unfold rewritten.
  destruct (length s) as [|k] eqn:Ek; [lia|]. simpl. rewrite E. by rewrite !(rewrite_lines_fuel k (length rest)) by lia.
Qed.

Lemma fields_from_end s f :
  (∀ c content eol rest, frame_line s ≠ Some (c :: content, eol, rest)) →
  fields_from s f = f ∧ ∀ json b, rewritten s json b = s.
Proof.
  intros Hs. unfold fields_from, rewritten. destruct (length s); simpl; [done|].
  destruct (frame_line s) as [[[[|c content] eol] rest]|] eqn:E; [done| |done]. by destruct (Hs _ _ _ _ eq_refl).
Qed.

(** ** Rewritten frames *)

Lemma data_line_fields f json : sse_field (bytes_of "data: " ++ json) = Some (bytes_of "data", json)
  ∧ is_data_line (bytes_of "data: " ++ json) = true
  ∧ add_field f (bytes_of "data: " ++ json)
    = {| sse_event := f.(sse_event); sse_data := (if f.(sse_has_data) then f.(sse_data) ++ LF else f.(sse_data)) ++ json;
         sse_has_data := true |}.
Proof.
  assert (sse_field (bytes_of "data: " ++ json) = Some (bytes_of "data", json)) as E by done.
  split; [done|]. unfold is_data_line, add_field. by rewrite E.
Qed.

Lemma other_line_fields f g content :
  is_data_line content = false → f.(sse_event) = g.(sse_event) →
  (add_field f content).(sse_event) = (add_field g content).(sse_event)
  ∧ (add_field f content).(sse_data) = f.(sse_data) ∧ (add_field f content).(sse_has_data) = f.(sse_has_data).
Proof.
  unfold is_data_line, add_field. destruct (sse_field content) as [[field value]|]; [|done]. simpl. intros ->.
  by case_bool_decide.
Qed.

Lemma data_line_has f content :
  is_data_line content = true →
  (add_field f content).(sse_event) = f.(sse_event) ∧ (add_field f content).(sse_has_data) = true.
Proof.
  unfold is_data_line, add_field. destruct (sse_field content) as [[field value]|]; [|done]. simpl. intros Hd%bool_decide_eq_true.
  subst field. done.
Qed.

(** [g] are the fields of the rewritten text so far, [f] those of the original. *)
Definition rewriting (json : str) (replaced : bool) (f g : SseFields) : Prop :=
  g.(sse_event) = f.(sse_event) ∧ g.(sse_has_data) = replaced ∧ f.(sse_has_data) = replaced
  ∧ if replaced then g.(sse_data) = json else f.(sse_data) = [] ∧ g.(sse_data) = [].

Lemma rewritten_fields n s json b f g :
  (length s ≤ n)%nat → bare_cr s = false → no_eol json → rewriting json b f g →
  ∃ b', rewriting json b' (fields_from s f) (fields_from (rewritten s json b) g).
Proof.
  intros Hn Hcr Hj. revert s b f g Hn Hcr. induction n as [|n IH]; intros s b f g Hn Hcr Hrw.
  { destruct s; [|simpl in Hn; lia]. by exists b. }
  destruct (frame_line s) as [[[[|c content] eol] rest]|] eqn:E;
    [destruct (fields_from_end s f) as [-> Hr]; [naive_solver|]; rewrite Hr;
     destruct (fields_from_end s g) as [-> _]; [naive_solver|by exists b]| |
     destruct (fields_from_end s f) as [-> Hr]; [naive_solver|]; rewrite Hr;
     destruct (fields_from_end s g) as [-> _]; [naive_solver|by exists b]].
  pose proof (frame_line_length _ _ _ _ E) as Hlen. destruct (frame_line_parts _ _ _ _ Hcr E) as (_ & Hc & He & Hr).
  rewrite (rewritten_line _ _ _ _ _ _ _ E), (fields_from_line _ f _ _ _ _ E).
  destruct Hrw as (Hev & Hg & Hf & Hd). destruct (is_data_line (c :: content)) eqn:Edata.
  - destruct (data_line_has f _ Edata) as [Hfe Hfh]. destruct b.
    + apply (IH rest true); [lia|done|]. split_and!; [congruence|done|done|done].
    + change (bytes_of "data: ") with (bytes_of "d" ++ bytes_of "ata: ").
      rewrite <- !app_assoc. rewrite (fields_from_line _ g (Ascii.ascii_of_N 100) (bytes_of "ata: " ++ json) eol (rewritten rest json true)).
      2:{ rewrite <-(frame_line_text (bytes_of "data: " ++ json)); [|by apply Forall_app; split; [repeat constructor|]|done].
          by rewrite <-app_assoc. }
      apply (IH rest true); [lia|done|]. destruct (data_line_fields g json) as (_ & _ & Hadd).
      match goal with |- context [add_field g ?x] => change x with (bytes_of "data: " ++ json) end. rewrite Hadd, Hg. destruct Hd as [_ ->]. split_and!; simpl; congruence.
  - rewrite (fields_from_line _ g c content eol (rewritten rest json b)) by (by apply frame_line_text).
    destruct (other_line_fields f g _ Edata (eq_sym Hev)) as (H1 & H2 & H3).
    destruct (other_line_fields g f _ Edata Hev) as (_ & H5 & H6).
    apply (IH rest b); [lia|done|]. split_and!; [congruence..|]. destruct b; [congruence|]. naive_solver congruence.
Qed.

(** ** The properties *)

(** The compact printer of [serde_json] writes no line end. *)
Class CompactJson `{JsonText} : Prop := { to_vec_no_eol : ∀ v, no_eol (to_vec v) }.

Section kept.
Context `{HT : HeaderText, JT : JsonText, PL : PatchLib} {PLaws : PatchLaws}.
Implicit Types (template : option CompiledConfigTemplate) (document : Json) (plan : TransformPlan).

(** The transforms of a channel never panic while they are layered, and
    every accepted plan is of the channel's format and well-formed: its pointers
    are the RFC 6901 texts of their tokens, and no operation names a reserved
    header, the model, the stream flag or the envelope of an event. *)
Theorem channel_transforms_well_formed template document format (Ht : template_compiled template) :
  is_Some (effective_transforms template document format)
  ∧ ∀ plan, effective_transforms template document format = Some (Ok plan) → plan_ok plan ∧ plan.(plan_format) = format.
Proof. by apply effective_transforms_ok. Qed.

Lemma lookup_path_single k v : array_index k = None → lookup_path [k] v = value_get v k.
Proof. intros Hk. destruct v; simpl; try done; [by rewrite Hk|]. by destruct (map_get _ k). Qed.

(** A request body that passes the transforms of a channel is unchanged byte
    for byte, or is the printing of a document with the same model and the same
    stream flag as the client's: no template and no channel document can
    redirect a request or change how it is answered. *)
Theorem model_and_stream_kept template document format plan body body'
    (Ht : template_compiled template)
    (Hplan : effective_transforms template document format = Some (Ok plan))
    (Happly : apply_json_patch_plan body plan.(request_json) = Ok body') :
  body' = body ∨
  ∃ d d', from_slice body = Some d ∧ body' = to_vec d'
          ∧ value_get d' "model" = value_get d "model" ∧ value_get d' "stream" = value_get d "stream".
Proof.
  apply effective_transforms_ok in Hplan as [(_ & _ & Hj & _) _]; [|done].
  unfold apply_json_patch_plan in Happly. destruct (is_empty_plan _); inv_ok; [by left|right].
  match goal with H : apply_json_patch_value ?d _ = Ok ?d' |- _ => exists d, d'; rename H into Ha end.
  split_and!; [done|done| |]; rewrite <- !lookup_path_single by done;
    (eapply plan_spares; [done| |done]); intros; apply request_op_spares; set_solver.
Qed.

End kept.

(** ** Layers *)

Section layering.
Context `{HT : HeaderText, HL : HeaderLib, JT : JsonText, PL : PatchLib} {HLaws : HeaderLaws} {PLaws : PatchLaws}.

(** A loop that patches the value and notes whether it did. *)
Lemma matching_flag {A} (matches : A → bool) (f : Json → A → applied Json) l v b :
  try_fold (λ st a, if matches a then v <-! f st.1 a; Ok (v, true) else Ok st) (v, b) l
  = (r <-! try_fold (λ st a, if matches a then v <-! f st.1 a; Ok (v, true) else Ok st) (v, false) l; Ok (r.1, b || r.2)).
Proof.
  revert v b. induction l as [|a l IH]; intros v b; simpl; [by rewrite orb_false_r|].
  destruct (matches a); simpl; [|by rewrite IH].
  destruct (f v a) as [v'|]; simpl; [|done]. rewrite IH. by destruct (try_fold _ _ l) as [[v'' []]|]; simpl; rewrite ?orb_true_r.
Qed.

Lemma matching_app {A} (matches : A → bool) (f : Json → A → applied Json) l1 l2 v :
  let run := λ v l, try_fold (λ st a, if matches a then v <-! f st.1 a; Ok (v, true) else Ok st) (v, false) l in
  run v (l1 ++ l2) = (r1 <-! run v l1; r2 <-! run r1.1 l2; Ok (r2.1, r1.2 || r2.2)).
Proof.
  simpl. rewrite try_fold_app. destruct (try_fold _ _ l1) as [[v1 b1]|]; simpl; [|done]. apply matching_flag.
Qed.

Lemma kept_member format v v' k : envelope_kept format v v' → [k] ∈ envelope format → array_index k = None → value_get v' k = value_get v k.
Proof. intros (H & _) Hin Hk. rewrite <- !lookup_path_single by done. by apply H. Qed.

Lemma patch_event_append format event v d o sse :
  sse_plan_ok format d → sse_plan_ok format o → sse_append d o = Some sse →
  patch_event event v sse = (r1 <-! patch_event event v d; r2 <-! patch_event event r1.1 o; Ok (r2.1, r1.2 || r2.2)).
Proof.
  intros Hd Ho Ha. pose proof (λ r, patch_event_envelope format event v d r Hd) as Hk.
  destruct format, d as [d|d|], o as [o|o|]; simplify_eq/=; try done.
  - destruct (negb _ || _) eqn:Eg; simpl; [by rewrite Eg|].
    unfold apply_matching_chat_entries at 1.
    rewrite (matching_app (λ e, bool_decide (chat_event e = ChatCompletionChunk) && negb (is_empty_plan e.(chat_json)))
               (λ v e, apply_json_patch_value v e.(chat_json))).
    fold (apply_matching_chat_entries v d). destruct (apply_matching_chat_entries v d) as [r1|] eqn:E1; simpl; [|done].
    rewrite (kept_member _ _ _ "object" (Hk r1 eq_refl)), Eg by (done || set_solver). done.
  - destruct (value_get v "type" ≫= as_str) as [ty|] eqn:Et; simpl; [|by rewrite Et].
    destruct (response_selector ty) as [sel|] eqn:Es; simpl; [|by rewrite Et, Es].
    destruct (is_some_and event _) eqn:Eg; simpl; [by rewrite Et, Es, Eg|].
    unfold apply_matching_response_entries at 1.
    rewrite (matching_app (λ e, bool_decide (responses_event e = sel) && negb (is_empty_plan e.(responses_json)))
               (λ v e, apply_json_patch_value v e.(responses_json))).
    fold (apply_matching_response_entries v d sel). destruct (apply_matching_response_entries v d sel) as [r1|] eqn:E1; simpl; [|done].
    rewrite (kept_member _ _ _ "type" (Hk r1 eq_refl)), Et, Es, Eg by (done || set_solver). done.
Qed.

Lemma compose_parts d o plan : compose d o = Some (Ok plan) →
  plan.(request_headers) = d.(request_headers) ++ o.(request_headers)
  ∧ plan.(response_headers) = d.(response_headers) ++ o.(response_headers)
  ∧ plan.(request_json) = d.(request_json) ++ o.(request_json)
  ∧ sse_append d.(sse_event_patches) o.(sse_event_patches) = Some plan.(sse_event_patches)
  ∧ d.(plan_format) = o.(plan_format).
Proof.
  unfold compose. destruct (bool_decide _) eqn:Ef; [|done]. breflect. simpl. destruct (reject_removed_ancestors _ _); [|done].
  intros (checked & _ & Hk)%bind_Some. destruct checked; [|done]. by apply bind_Some in Hk as (sse & -> & [= <-]).
Qed.

(** The transforms of a channel are its template's followed by its own, for
    request bodies, request and response headers and stream events alike:
    applying the layered plan is applying one layer and then the other. *)
Theorem layers_apply_in_order (template : option CompiledConfigTemplate) (document : Json) format plan
    (Ht : template_compiled template)
    (Hplan : effective_transforms template document format = Some (Ok plan)) :
  let defaults := match template with Some t => transform_plan t format | None => noop format end in
  ∃ own, compile_document document format = Ok own
  ∧ (∀ d, apply_json_patch_value d plan.(request_json)
          = (d <-! apply_json_patch_value d defaults.(request_json); apply_json_patch_value d own.(request_json)))
  ∧ (∀ h, apply_header_plan h plan.(request_headers)
          = let '(h, r) := apply_header_plan h defaults.(request_headers) in
            match r with Ok _ => apply_header_plan h own.(request_headers) | Err e => (h, Err e) end)
  ∧ (∀ h, apply_response_header_plan h plan.(response_headers)
          = let '(h, r) := apply_response_header_plan h defaults.(response_headers) in
            match r with Ok _ => apply_response_header_plan h own.(response_headers) | Err e => (h, Err e) end)
  ∧ (∀ event v, patch_event event v plan.(sse_event_patches)
          = (r1 <-! patch_event event v defaults.(sse_event_patches);
             r2 <-! patch_event event r1.1 own.(sse_event_patches); Ok (r2.1, r1.2 || r2.2))).
Proof.
  destruct (defaults_ok _ format Ht) as [(_ & _ & _ & Hd) Hf]. unfold effective_transforms in Hplan. simpl.
  destruct (compile_document document format) as [own|] eqn:Eo; [|done]. exists own. split; [done|].
  apply compile_document_ok in Eo as [(_ & _ & _ & Ho) Hof].
  apply compose_parts in Hplan as (H1 & H2 & H3 & H4 & _). rewrite Hf in Hd. rewrite Hof in Ho.
  split_and!; intros.
  - rewrite H3. apply try_fold_app.
  - rewrite H1. apply header_plan_app.
  - rewrite H2. apply header_plan_app.
  - by eapply patch_event_append.
Qed.
End layering.

(** The pointer parser accepts exactly the RFC 6901 texts and reads back the
    tokens they were printed from; everything else is an invalid pointer. *)
Theorem parse_pointer_exact (text : string) (p : JsonPointer) :
  (parse_pointer text = Ok p ↔ p = {| raw := text; tokens := p.(tokens) |} ∧ text = pointer_text p.(tokens))
  ∧ ((∀ ts, text ≠ pointer_text ts) ↔ parse_pointer text = Err CompileInvalidJsonPointer).
Proof.
  split; split.
  - intros [Hr Ht]%parse_pointer_sound. split; [|done]. destruct p. simpl in *. by subst.
  - intros [Hp Ht]. rewrite Hp, Ht. apply parse_pointer_complete.
  - intros Hn. destruct (parse_pointer text) as [q|e] eqn:E.
    { apply parse_pointer_sound in E as [_ E]. by destruct (Hn _ E). }
    unfold parse_pointer in E. case_match; [congruence|]. destruct (mapM _ _); simpl in E; congruence.
  - intros E ts ->. by rewrite parse_pointer_complete in E.
Qed.
