(* ===== verification/SseTransform.v ===== *)
(** * The stream transformer

    Models [SseTransformer] of [src/transforms/mod.rs]: a pull-driven scanner
    that cuts a response stream into frames and transforms each one.  Its
    property relates every way of cutting the stream into chunks to the frames
    of the unsplit stream.  A chunk and its read offset are the unread rest of
    the chunk. *)

From S2P Require Import Prelude Text Domain Json Usage Sse JsonPatch Plans Transform.
Open Scope gateway_scope.

Record SseTransformer := {
  st_plan : SseEventPatchPlan;
  st_frame : str;
  st_source : option str;
  line_has_content : bool;
  pending_cr : bool;
}.

Definition new_transformer (plan : SseEventPatchPlan) : SseTransformer :=
  {| st_plan := plan; st_frame := []; st_source := None; line_has_content := false; pending_cr := false |}.

(** The scanner's fields apart from the plan. *)
Definition with_state (t : SseTransformer) (frame : str) (source : option str) (content cr : bool) : SseTransformer :=
  {| st_plan := t.(st_plan); st_frame := frame; st_source := source; line_has_content := content; pending_cr := cr |}.

(** [None] is the failed assertion that the last chunk was drained. *)
Definition push (t : SseTransformer) (bytes : str) : option SseTransformer :=
  match t.(st_source) with
  | None => Some (with_state t t.(st_frame) (Some bytes) t.(line_has_content) t.(pending_cr))
  | Some _ => None
  end.

(** [append]: the frame with one more byte, within the limit. *)
Definition append_byte (frame : str) (c : Ascii.ascii) : applied str :=
  if Z.of_nat (length frame) =? MAX_FRAME_BYTES then Err SseFrameTooLarge else Ok (frame ++ [c]).

Section transformer.
Context `{JsonText, PatchLib}.

(** A completed frame is transformed and the next one starts empty. *)
Definition emit (t : SseTransformer) (frame : str) (rest : str) : SseTransformer * applied (option str) :=
  (with_state t [] (Some rest) false false,
   frame <-! transform_sse_frame frame t.(st_plan); Ok (Some frame)).

(** [next_frame] on the unread bytes. *)
Fixpoint scan (t : SseTransformer) (frame : str) (content cr : bool) (source : str)
    : SseTransformer * applied (option str) :=
  match source with
  | [] => (with_state t frame None content cr, Ok None)
  | c :: rest =>
      let consume (content : bool) :=
        match append_byte frame c with
        | Err e => (with_state t frame (Some source) content false, Err e)
        | Ok frame =>
            if is_lf c then
              if content then scan t frame false false rest else emit t frame rest
            else if is_cr c then scan t frame content true rest
            else scan t frame true false rest
        end in
      if cr then
        if is_lf c then
          match append_byte frame c with
          | Err e => (with_state t frame (Some source) content false, Err e)
          | Ok frame => if content then scan t frame false false rest else emit t frame rest
          end
        else if content then consume false else emit t frame source
      else consume content
  end.

Definition next_frame (t : SseTransformer) : SseTransformer * applied (option str) :=
  match t.(st_source) with
  | None => (t, Ok None)
  | Some source => scan t t.(st_frame) t.(line_has_content) t.(pending_cr) source
  end.

Definition finish (t : SseTransformer) : SseTransformer * option str :=
  match t.(st_frame) with
  | [] => (t, None)
  | frame => (with_state t [] t.(st_source) t.(line_has_content) t.(pending_cr), Some frame)
  end.

(** ** Driving the transformer *)

(** [next_frame] until it returns [Ok(None)] or an error: what it yielded.
    Every frame takes a byte of the chunk or ends a line whose CR was taken, so
    one more call than the chunk has bytes is enough. *)
Fixpoint drain (fuel : nat) (t : SseTransformer) (out : list str) : SseTransformer * list str * option TransformApplyError :=
  match fuel with
  | O => (t, out, None)
  | S fuel =>
      match next_frame t with
      | (t, Ok (Some frame)) => drain fuel t (out ++ [frame])
      | (t, Ok None) => (t, out, None)
      | (t, Err e) => (t, out, Some e)
      end
  end.

(** Chunks pushed and drained in order, up to the first error. *)
Fixpoint drive (t : SseTransformer) (chunks : list str) (out : list str)
    : option (SseTransformer * list str * option TransformApplyError) :=
  match chunks with
  | [] => Some (t, out, None)
  | chunk :: chunks =>
      t ← push t chunk;
      match drain (length chunk + 3) t out with
      | (t, out, None) => drive t chunks out
      | r => Some r
      end
  end.
End transformer.

(** ** The frames of a stream *)

Definition prepend (p : str) (o : option (str * str)) : option (str * str) :=
  '(f, rest) ← o; Some (p ++ f, rest).

(** The text up to and including the first blank line, and what follows it.
    [content] says whether the current line has content; a CR at the end of the
    text is not yet a line end, as an LF may follow. *)
Fixpoint split_frame (content : bool) (s : str) : option (str * str) :=
  match s with
  | [] => None
  | c :: s' =>
      if is_lf c then if content then prepend [c] (split_frame false s') else Some ([c], s')
      else if is_cr c then
        match s' with
        | [] => None
        | d :: s'' =>
            if is_lf d then if content then prepend [c; d] (split_frame false s'') else Some ([c; d], s'')
            else if content then prepend [c] (split_frame false s') else Some ([c], s')
        end
      else prepend [c] (split_frame true s')
  end.

(** All complete frames and the unfinished rest; every frame has a byte. *)
Fixpoint frames_fuel (fuel : nat) (s : str) : list str * str :=
  match fuel, split_frame false s with
  | S fuel, Some (f, rest) => let '(fs, r) := frames_fuel fuel rest in (f :: fs, r)
  | _, _ => ([], s)
  end.
Definition frames_of (s : str) : list str * str := frames_fuel (length s) s.

(** What a stream of frames yields, up to the first error. *)
Definition too_large (frame : str) : bool := MAX_FRAME_BYTES <? Z.of_nat (length frame).

Section reference.
Context `{JsonText, PatchLib}.
Fixpoint yielded (plan : SseEventPatchPlan) (frames : list str) (rest : str) : list str * option TransformApplyError :=
  match frames with
  | [] => ([], if too_large rest then Some SseFrameTooLarge else None)
  | f :: frames =>
      if too_large f then ([], Some SseFrameTooLarge)
      else match transform_sse_frame f plan with
           | Err e => ([], Some e)
           | Ok g => let '(out, e) := yielded plan frames rest in (g :: out, e)
           end
  end.
End reference.

(** The same from the middle of a frame, with a CR pending. *)
Definition split_from (content cr : bool) (s : str) : option (str * str) :=
  if cr then
    match s with
    | [] => None
    | d :: s' =>
        if is_lf d then if content then prepend [d] (split_frame false s') else Some ([d], s')
        else if content then split_frame false s else Some ([], s)
    end
  else split_frame content s.

Lemma prepend_app p q o : prepend p (prepend q o) = prepend (p ++ q) o.
Proof. destruct o as [[f r]|]; simpl; [by rewrite <-app_assoc|done]. Qed.

(** One step, without unfolding the recursive calls. *)
Lemma split_frame_cons content c s :
  split_frame content (c :: s)
  = if is_lf c then if content then prepend [c] (split_frame false s) else Some ([c], s)
    else if is_cr c then
      match s with
      | [] => None
      | d :: s'' =>
          if is_lf d then if content then prepend [c; d] (split_frame false s'') else Some ([c; d], s'')
          else if content then prepend [c] (split_frame false s) else Some ([c], s)
      end
    else prepend [c] (split_frame true s).
Proof. done. Qed.

Lemma split_frame_parts content s f rest :
  split_frame content s = Some (f, rest) → s = f ++ rest ∧ (0 < length f)%nat ∧ ∀ s', split_frame content (s ++ s') = Some (f, rest ++ s').
Proof.
  remember (length s) as n eqn:Hn. revert content s f rest Hn.
  induction n as [n IH] using lt_wf_ind; intros content s f rest ->. destruct s as [|c s]; [done|].
  assert (Hrec : ∀ content' s1 p, (length s1 < length (c :: s))%nat → prepend p (split_frame content' s1) = Some (f, rest) →
     ∃ f1, f = p ++ f1 ∧ s1 = f1 ++ rest ∧ (0 < length f1)%nat ∧ ∀ s', split_frame content' (s1 ++ s') = Some (f1, rest ++ s')).
  { intros content' s1 p Hl ([f1 rest1] & Hq & Heq)%bind_Some. injection Heq as <- ->.
    destruct (IH _ Hl content' s1 f1 rest eq_refl Hq) as (? & ? & ?). by exists f1. }
  setoid_rewrite <-app_comm_cons. setoid_rewrite split_frame_cons.
  destruct (is_lf c) eqn:Ec; [|destruct (is_cr c) eqn:Er; [destruct s as [|d s]; [done|]; cbn [app]; destruct (is_lf d) eqn:Ed|]];
    try destruct content; intros E;
    try (by injection E as <- <-; simpl; split_and!; [done|lia|done]);
    (apply Hrec in E as (f1 & -> & Hs & Hl & E); [|simpl; lia]);
    (split_and!; [cbn [app]; by rewrite Hs|simpl; lia|intros s'; cbn [app] in E; rewrite E; done]).
Qed.

Lemma frames_fuel_enough n m s : (length s ≤ n)%nat → (length s ≤ m)%nat → frames_fuel n s = frames_fuel m s.
Proof.
  revert m s. induction n as [|n IH]; intros m s Hn Hm.
  { destruct s; [|simpl in Hn; lia]. by destruct m. }
  destruct m as [|m]; [destruct s; [done|simpl in Hm; lia]|]. simpl.
  destruct (split_frame false s) as [[f rest]|] eqn:E; [|done]. apply split_frame_parts in E as (-> & Hf & _).
  rewrite length_app in Hn, Hm. by rewrite (IH m) by lia.
Qed.

Lemma frames_of_split s :
  frames_of s = match split_frame false s with
                | Some (f, rest) => let '(fs, r) := frames_of rest in (f :: fs, r)
                | None => ([], s)
                end.
Proof.
  unfold frames_of. destruct (split_frame false s) as [[f rest]|] eqn:E.
  - pose proof (split_frame_parts _ _ _ _ E) as (Hs & Hf & _).
    assert (length s = (length f + length rest)%nat) as Hl by (rewrite Hs at 1; apply length_app).
    destruct (length s) as [|n] eqn:En; [lia|]. simpl. rewrite E. by rewrite (frames_fuel_enough n (length rest)) by lia.
  - destruct (length s); simpl; [done|]. by rewrite E.
Qed.

Lemma frames_of_text s : concat (frames_of s).1 ++ (frames_of s).2 = s.
Proof.
  remember (length s) as n eqn:Hn. revert s Hn. induction n as [n IH] using lt_wf_ind; intros s ->.
  rewrite frames_of_split. destruct (split_frame false s) as [[f rest]|] eqn:E; [|done].
  apply split_frame_parts in E as (Hs & Hf & _).
  assert (length rest < length s)%nat as Hl by (rewrite Hs, length_app; lia).
  specialize (IH _ Hl rest eq_refl). destruct (frames_of rest) as [fs r]. simpl in *. by rewrite <-app_assoc, IH.
Qed.

(** ** The scanner *)

Section scanner.
Context `{JT : JsonText, PL : PatchLib}.
Implicit Types (t : SseTransformer) (s frame : str).

Lemma append_byte_spec frame c :
  (Z.of_nat (length frame) ≤ MAX_FRAME_BYTES) →
  append_byte frame c = if too_large (frame ++ [c]) then Err SseFrameTooLarge else Ok (frame ++ [c]).
Proof.
  intros Hl. unfold append_byte, too_large. rewrite length_app, Nat2Z.inj_add.
  destruct (Z.eqb_spec (Z.of_nat (length frame)) MAX_FRAME_BYTES), (Z.ltb_spec MAX_FRAME_BYTES (Z.of_nat (length frame) + Z.of_nat (length [c])));
    simpl in *; [done|lia|lia|done].
Qed.

Lemma too_large_app frame s : too_large frame = true → too_large (frame ++ s) = true.
Proof. unfold too_large. rewrite length_app, !Z.ltb_lt. lia. Qed.
Lemma small_frame frame : too_large frame = false → Z.of_nat (length frame) ≤ MAX_FRAME_BYTES.
Proof. unfold too_large. intros. by breflect. Qed.

(** The state after bytes that complete no frame. *)
Fixpoint after (content cr : bool) (s : str) : bool * bool :=
  match s with
  | [] => (content, cr)
  | c :: s =>
      if is_lf c then after false false s
      else if is_cr c then after (if cr then false else content) true s
      else after true false s
  end.

(** What a scan from a state yields, given the split of the unread bytes. *)
Definition scan_result t frame content cr s (r : SseTransformer * applied (option str)) : Prop :=
  match split_from content cr s with
  | Some (p, rest) => if too_large (frame ++ p) then r.2 = Err SseFrameTooLarge else r = emit t (frame ++ p) rest
  | None =>
      if too_large (frame ++ s) then r.2 = Err SseFrameTooLarge
      else r = (with_state t (frame ++ s) None (after content cr s).1 (after content cr s).2, Ok None)
  end.

(** Reading one more byte [c] of an unfinished frame. *)
Lemma scan_result_step t frame content cr content' cr' c s r :
  split_from content cr (c :: s) = prepend [c] (split_from content' cr' s) →
  after content cr (c :: s) = after content' cr' s →
  (if too_large (frame ++ [c]) then r.2 = Err SseFrameTooLarge else scan_result t (frame ++ [c]) content' cr' s r) →
  scan_result t frame content cr (c :: s) r.
Proof.
  intros Hstep Hafter. unfold scan_result. rewrite Hstep, Hafter.
  assert (∀ x, (frame ++ [c]) ++ x = frame ++ c :: x) as Happ by (intros; by rewrite <-app_assoc).
  destruct (split_from content' cr' s) as [[p rest]|]; simpl; [rewrite <-(Happ p)|rewrite <-(Happ s)];
    (destruct (too_large (frame ++ [c])) eqn:El; [by rewrite too_large_app|done]).
Qed.

Lemma split_from_other content cr c s :
  is_lf c = false → is_cr c = false → (cr = true → content = true) →
  split_from content cr (c :: s) = prepend [c] (split_from true false s).
Proof.
  intros Hl Hr Hc. unfold split_from. destruct cr; [rewrite Hl, (Hc eq_refl)|]; by rewrite split_frame_cons, Hl, Hr.
Qed.

Lemma split_from_cr content cr c s :
  is_lf c = false → is_cr c = true → (cr = true → content = true) →
  split_from content cr (c :: s) = prepend [c] (split_from (if cr then false else content) true s).
Proof.
  intros Hl Hr Hc. unfold split_from. destruct cr; [rewrite Hl, (Hc eq_refl)|]; rewrite split_frame_cons, Hl, Hr.
  - destruct s as [|d s]; [done|]. by destruct (is_lf d).
  - destruct s as [|d s]; [done|]. destruct (is_lf d), content; try done; by rewrite prepend_app.
Qed.

Lemma split_from_lf cr c s : is_lf c = true → split_from true cr (c :: s) = prepend [c] (split_from false false s).
Proof. intros Hl. destruct cr; simpl; by rewrite Hl. Qed.

Lemma scan_spec t s : ∀ frame content cr,
  too_large frame = false → scan_result t frame content cr s (scan t frame content cr s).
Proof.
  induction s as [|c s IH]; intros frame content cr Hl.
  { unfold scan_result. destruct cr; simpl; by rewrite app_nil_r, Hl. }
  pose proof (append_byte_spec frame c (small_frame _ Hl)) as Ha.
  cbn [scan]. rewrite Ha. destruct (is_lf c) eqn:El.
  - destruct content.
    + eapply scan_result_step; [by apply split_from_lf|by simpl; rewrite El|].
      destruct cr, (too_large (frame ++ [c])) eqn:Et; try done; by apply IH.
    + unfold scan_result. destruct cr; simpl; rewrite El; destruct (too_large (frame ++ [c])); done.
  - destruct (cr && negb content) eqn:Eb.
    { apply andb_true_iff in Eb as [-> ->%negb_true_iff]. unfold scan_result. simpl. by rewrite El, app_nil_r, Hl. }
    assert (cr = true → content = true) as Hc by (intros ->; by destruct content).
    destruct (is_cr c) eqn:Er.
    + eapply scan_result_step; [by apply split_from_cr|by simpl; rewrite El, Er|].
      destruct cr; [rewrite (Hc eq_refl)|]; destruct (too_large (frame ++ [c])) eqn:Et; try done; by apply IH.
    + eapply scan_result_step; [by apply split_from_other|by simpl; rewrite El, Er|].
      destruct cr; [rewrite (Hc eq_refl)|]; destruct (too_large (frame ++ [c])) eqn:Et; try done; by apply IH.
Qed.

Lemma prepend_nil o : prepend [] o = o.
Proof. by destruct o as [[f r]|]. Qed.

Lemma scan_plan t s : ∀ frame content cr, (scan t frame content cr s).1.(st_plan) = t.(st_plan).
Proof.
  induction s as [|c s IH]; intros frame content cr; cbn [scan]; [done|].
  destruct cr, content, (is_lf c), (append_byte frame c), (is_cr c); simpl; done || apply IH.
Qed.

(** Splitting does not look beyond the frame. *)
Lemma split_from_Some content cr s p rest :
  split_from content cr s = Some (p, rest) → s = p ++ rest ∧ ∀ s', split_from content cr (s ++ s') = Some (p, rest ++ s').
Proof.
  unfold split_from. destruct cr; [|intros (? & _ & ?)%split_frame_parts; done].
  destruct s as [|d s]; [done|]. cbn [app]. destruct (is_lf d), content.
  - intros ([f1 r1] & Hq & Heq)%bind_Some. injection Heq as <- ->. apply split_frame_parts in Hq as (-> & _ & Hq).
    split; [done|]. intros s'. by rewrite Hq.
  - by intros [= <- <-].
  - intros (Hs & _ & Hq)%split_frame_parts. split; [done|]. intros s'. by rewrite <-Hq.
  - by intros [= <- <-].
Qed.

Lemma split_from_None s : ∀ content cr s',
  split_from content cr s = None →
  split_from content cr (s ++ s') = prepend s (split_from (after content cr s).1 (after content cr s).2 s').
Proof.
  induction s as [|c s IH]; intros content cr s' Hn; [by rewrite prepend_nil|].
  assert (Hrec : ∀ content' cr', after content cr (c :: s) = after content' cr' s →
    (∀ s, split_from content cr (c :: s) = prepend [c] (split_from content' cr' s)) →
    split_from content cr (c :: s ++ s') = prepend (c :: s) (split_from (after content cr (c :: s)).1 (after content cr (c :: s)).2 s')).
  { intros content' cr' Ha Hs. rewrite Ha, Hs, IH, prepend_app; [done|]. rewrite Hs in Hn.
    by destruct (split_from content' cr' s) as [[]|]. }
  cbn [app]. destruct (is_lf c) eqn:El.
  - destruct content; [|by destruct cr; simpl in Hn; rewrite El in Hn].
    eapply Hrec; [by simpl; rewrite El|]. intros. by apply split_from_lf.
  - assert (cr = true → content = true) as Hc.
    { intros ->. destruct content; [done|]. simpl in Hn. by rewrite El in Hn. }
    destruct (is_cr c) eqn:Er; (eapply Hrec; [by simpl; rewrite El, Er|]); intros.
    + by apply split_from_cr.
    + by apply split_from_other.
Qed.

(** ** Chunks *)

(** The unfinished frame of a drained transformer, with the state it left. *)
Definition resumes t frame : Prop :=
  too_large frame = false ∧ t.(st_frame) = frame
  ∧ ∀ s, split_frame false (frame ++ s) = prepend frame (split_from t.(line_has_content) t.(pending_cr) s).

(** What the text yields from now on. *)
Definition text_yield (plan : SseEventPatchPlan) (text : str) : list str * option TransformApplyError :=
  yielded plan (frames_of text).1 (frames_of text).2.

Lemma text_yield_split plan text :
  text_yield plan text
  = match split_frame false text with
    | Some (f, rest) =>
        if too_large f then ([], Some SseFrameTooLarge)
        else match transform_sse_frame f plan with
             | Err e => ([], Some e)
             | Ok g => let '(out, e) := text_yield plan rest in (g :: out, e)
             end
    | None => ([], if too_large text then Some SseFrameTooLarge else None)
    end.
Proof.
  unfold text_yield. rewrite frames_of_split. destruct (split_frame false text) as [[f rest]|]; [|done].
  by destruct (frames_of rest).
Qed.

(** Frames within the limit and what they are transformed to. *)
Definition transforms (plan : SseEventPatchPlan) : list str → list str → Prop :=
  Forall2 (λ f g, too_large f = false ∧ transform_sse_frame f plan = Ok g).

Lemma yielded_app plan fs outs fs' r :
  transforms plan fs outs → yielded plan (fs ++ fs') r = let '(out, e) := yielded plan fs' r in (outs ++ out, e).
Proof.
  induction 1 as [|f g fs outs [Hl Hg] _ IH]; simpl; [by destruct (yielded plan fs' r)|].
  rewrite Hl, Hg, IH. by destruct (yielded plan fs' r).
Qed.

(** The state after draining a chunk, given what follows the chunk. *)
Definition drained t frame chunk tail t' outs (e : option TransformApplyError) : Prop :=
  t'.(st_plan) = t.(st_plan) ∧
  match e with
  | Some e => text_yield t.(st_plan) (frame ++ chunk ++ tail) = (outs, Some e)
  | None => t'.(st_source) = None ∧ ∃ frame' fs, resumes t' frame' ∧ transforms t.(st_plan) fs outs
            ∧ frames_of (frame ++ chunk ++ tail) = (fs ++ (frames_of (frame' ++ tail)).1, (frames_of (frame' ++ tail)).2)
  end.

Lemma resumes_start t source : resumes (with_state t [] source false false) [].
Proof. split_and!; [done|done|]. intros s. by rewrite prepend_nil. Qed.

(** A frame that completes within the chunk, and then the rest of the chunk. *)
Lemma drained_frame t frame chunk tail p rest g t' outs e :
  split_frame false (frame ++ chunk ++ tail) = Some (frame ++ p, rest ++ tail) →
  too_large (frame ++ p) = false → transform_sse_frame (frame ++ p) t.(st_plan) = Ok g →
  drained (with_state t [] (Some rest) false false) [] rest tail t' outs e → drained t frame chunk tail t' (g :: outs) e.
Proof.
  intros Hs Hl Hg (Hp & He). split; [done|]. destruct e as [e|].
  - rewrite text_yield_split, Hs, Hl, Hg. simpl in He. by rewrite He.
  - destruct He as (Hsrc & frame' & fs & Hres & Htr & Hfs). split; [done|]. exists frame', ((frame ++ p) :: fs).
    split_and!; [done|by constructor|]. rewrite frames_of_split, Hs. simpl in Hfs. by rewrite Hfs.
Qed.

Lemma drain_spec fuel tail : ∀ t frame chunk out,
  resumes t frame → t.(st_source) = Some chunk → (length chunk + (if t.(pending_cr) then 1 else 0) < fuel)%nat →
  ∃ t' outs e, drain fuel t out = (t', out ++ outs, e) ∧ drained t frame chunk tail t' outs e.
Proof.
  induction fuel as [|fuel IH]; intros t frame chunk out (Hl & Hfr & Hres) Hsrc Hfuel; [lia|].
  cbn [drain]. unfold next_frame. rewrite Hsrc, Hfr.
  pose proof (scan_spec t chunk frame t.(line_has_content) t.(pending_cr) Hl) as Hscan. unfold scan_result in Hscan.
  destruct (split_from _ _ chunk) as [[p rest]|] eqn:E.
  - pose proof (split_from_Some _ _ _ _ _ E) as [Hchunk Hext]. pose proof (Hres (chunk ++ tail)) as Hs.
    rewrite Hext in Hs. simpl in Hs. destruct (too_large (frame ++ p)) eqn:Et.
    + pose proof (scan_plan t chunk frame t.(line_has_content) t.(pending_cr)) as Hp.
      destruct (scan _ _ _ _ _) as [t1 r]. simpl in Hscan, Hp. subst r. exists t1, [], (Some SseFrameTooLarge).
      rewrite app_nil_r. split; [done|]. split; [done|]. by rewrite text_yield_split, Hs, Et.
    + rewrite Hscan. unfold emit. destruct (transform_sse_frame (frame ++ p) (st_plan t)) as [g|e] eqn:Eg; simpl.
      * assert (length rest < fuel)%nat as Hf.
        { rewrite Hchunk, length_app in Hfuel. unfold split_from in E. destruct (pending_cr t); [lia|].
          apply split_frame_parts in E as (_ & Hp & _). lia. }
        destruct (IH (with_state t [] (Some rest) false false) [] rest (out ++ [g])) as (t' & outs & e & Hd & Hdr);
          [apply resumes_start|done|simpl; lia|].
        exists t', (g :: outs), e. rewrite Hd, <-app_assoc. split; [done|]. by eapply drained_frame.
      * eexists _, [], (Some e). rewrite app_nil_r. split; [done|]. split; [done|].
        by rewrite text_yield_split, Hs, Et, Eg.
  - pose proof (λ s, split_from_None chunk _ _ s E) as Hext. pose proof (Hres (chunk ++ tail)) as Hs.
    rewrite Hext, prepend_app in Hs. destruct (too_large (frame ++ chunk)) eqn:Et.
    + pose proof (scan_plan t chunk frame t.(line_has_content) t.(pending_cr)) as Hp.
      destruct (scan _ _ _ _ _) as [t1 r]. simpl in Hscan, Hp. subst r. exists t1, [], (Some SseFrameTooLarge).
      rewrite app_nil_r. split; [done|]. split; [done|]. rewrite text_yield_split, Hs.
      destruct (split_from _ _ tail) as [[f rest]|]; simpl; [by rewrite too_large_app|].
      by rewrite app_assoc, too_large_app.
    + rewrite Hscan. eexists _, [], None. rewrite app_nil_r. split; [done|]. split; [done|]. split; [done|].
      exists (frame ++ chunk), []. split_and!; [|constructor|].
      * split_and!; [done|done|]. intros s. by rewrite <-app_assoc, Hres, Hext, prepend_app.
      * rewrite <-app_assoc. by destruct (frames_of _).
Qed.

Lemma resumes_frames t frame : resumes t frame → frames_of frame = ([], frame).
Proof.
  intros (_ & _ & Hres). specialize (Hres []). rewrite app_nil_r in Hres. rewrite frames_of_split, Hres.
  by destruct (pending_cr t), (line_has_content t).
Qed.

Lemma resumes_push t frame chunk :
  resumes t frame → resumes (with_state t t.(st_frame) (Some chunk) t.(line_has_content) t.(pending_cr)) frame.
Proof. done. Qed.

Lemma drive_spec chunks : ∀ t frame out,
  resumes t frame → t.(st_source) = None →
  ∃ t' outs e, drive t chunks out = Some (t', out ++ outs, e)
  ∧ text_yield t.(st_plan) (frame ++ concat chunks) = (outs, e)
  ∧ (e = None → t'.(st_frame) = (frames_of (frame ++ concat chunks)).2).
Proof.
  induction chunks as [|chunk chunks IH]; intros t frame out Hres Hsrc.
  - exists t, [], None. simpl. rewrite !app_nil_r. split; [done|]. unfold text_yield.
    rewrite (resumes_frames t frame Hres). simpl. by destruct Hres as (-> & -> & _).
  - cbn [drive]. unfold push. rewrite Hsrc. simpl.
    destruct (drain_spec (length chunk + 3) (concat chunks) _ frame chunk out (resumes_push t frame chunk Hres))
      as (t1 & outs & e & -> & Hp & He); [done|simpl; destruct (pending_cr t); lia|]. simpl in Hp, He.
    destruct e as [e|].
    + exists t1, outs, (Some e). split; [done|]. by rewrite He.
    + destruct He as (Hs1 & frame' & fs & Hres' & Htr & Hfs).
      destruct (IH t1 frame' (out ++ outs) Hres' Hs1) as (t2 & outs2 & e2 & Hd & Hy & Hf).
      exists t2, (outs ++ outs2), e2. rewrite Hd, <-app_assoc. split; [done|]. unfold text_yield in *. rewrite Hfs. simpl.
      rewrite (yielded_app _ _ outs) by done. rewrite Hp in Hy. by rewrite Hy.
Qed.

(** C12: However a response stream is cut into chunks, the transformer never
    trips its assertion and yields, in order, the transforms of the frames of
    the unsplit stream up to the first error; a frame or rest above 8 MiB is an
    error; at the end the unfinished rest is handed over byte for byte.  The
    frames and the rest are the whole stream. *)
Theorem stream_frames_exact plan chunks :
  let '(frames, rest) := frames_of (concat chunks) in
  concat frames ++ rest = concat chunks
  ∧ ∃ t out e, drive (new_transformer plan) chunks [] = Some (t, out, e)
    ∧ yielded plan frames rest = (out, e)
    ∧ (e = None → (finish t).2 = match rest with [] => None | _ => Some rest end).
Proof.
  pose proof (frames_of_text (concat chunks)) as Ht.
  destruct (drive_spec chunks (new_transformer plan) [] []) as (t & outs & e & Hd & Hy & Hf); [|done|].
  { split_and!; [done|done|]. intros s. by rewrite prepend_nil. }
  unfold text_yield in Hy. simpl in Hy, Hf. destruct (frames_of (concat chunks)) as [frames rest]. simpl in *.
  split; [done|]. exists t, outs, e. split_and!; [done|done|]. intros He. unfold finish. rewrite (Hf He). by destruct rest.
Qed.
End scanner.
