(* ===== verification/TransformExamples.v ===== *)
(** * Transforms at work

    The pointer and patch libraries by the RFC definitions, a header multimap as
    an association list, and a JSON reader and printer that know the texts used
    here; with them the hypotheses of the transform theorems hold of a template
    and a channel, and one frame shows what mixed line ends do. *)

From S2P Require Import Prelude Text Domain Json Usage ErrorText Sse Headers JsonPatch Plans Transform Envelope SseTransform.
Open Scope gateway_scope.

(** ** Libraries *)

Definition by_pointer {A} (text : string) (k : list string → option A) : option A :=
  match parse_pointer text with Ok p => k p.(tokens) | Err _ => None end.

#[export] Instance rfc_patch : PatchLib := {
  pointer_valid text := match parse_pointer text with Ok _ => true | Err _ => false end;
  patch v o :=
    match o with
    | AddOperation p x => by_pointer p (λ ts, rfc_add ts x v)
    | ReplaceOperation p x => by_pointer p (λ ts, rfc_replace ts x v)
    | RemoveOperation p => by_pointer p (λ ts, rfc_remove ts v)
    end;
  value_pointer v p := by_pointer p (λ ts, lookup_path ts v);
  pointer_assign v p x := default v (by_pointer p (λ ts, alter_path (λ _, Some x) ts v));
}.

Lemma alter_path_exists x ts v old : lookup_path ts v = Some old → is_Some (alter_path (λ _, Some x) ts v).
Proof.
  revert v. induction ts as [|t ts IH]; intros v; simpl; [done|]. intros (c & Hc & Hl)%bind_Some.
  rewrite Hc. simpl. destruct (IH c Hl) as [c' ->]. simpl. destruct v; simpl in *; try done.
  - apply bind_Some in Hc as (i & -> & Hi). simpl. rewrite Hi. done.
  - by rewrite Hc.
Qed.

#[export] Instance rfc_patch_laws : PatchLaws.
Proof.
  split; intros; simpl; unfold by_pointer; rewrite ?parse_pointer_complete; try done.
  cbn [tokens]. match goal with H : lookup_path _ _ = Some _ |- _ => by destruct (alter_path_exists x _ _ _ H) as [? ->] end.
Qed.

(** Token characters of a header name, lower-cased. *)
#[export] Instance example_headers_text : HeaderText := {
  header_name b := if forallb (λ c, is_ascii_alphanumeric c || (byte c =? 45) || (byte c =? 95)) b && negb (bool_decide (b = []))
                   then Some (string_of (map to_ascii_lowercase b)) else None;
  header_value s := Some (bytes_of s);
  header_to_str v := if forallb visible v then Some (string_of v) else None;
}.

#[export] Instance example_headers_text_laws : HeaderTextLaws.
Proof.
  split; [done|]. simpl. intros v s. destruct (forallb visible v) eqn:E; [|done]. intros [= <-]. by rewrite bytes_of_string_of.
Qed.

#[export] Instance list_headers : HeaderLib := {
  HeaderMap := list (string * str);
  headers_new := [];
  get_all m n := map snd (List.filter (λ e, String.eqb e.1 n) m);
  headers_insert m n v := List.filter (λ e, negb (String.eqb e.1 n)) m ++ [(n, v)];
  headers_append m n v := m ++ [(n, v)];
  headers_remove m n := List.filter (λ e, negb (String.eqb e.1 n)) m;
  headers_iter m := m;
  headers_keys m := map fst m;
}.

Lemma filter_other (m : list (string * str)) n n' :
  List.filter (λ e, String.eqb e.1 n') (List.filter (λ e, negb (String.eqb e.1 n)) m)
  = if String.eqb n n' then [] else List.filter (λ e, String.eqb e.1 n') m.
Proof.
  induction m as [|[k v] m IH]; simpl; [by destruct (String.eqb n n')|].
  destruct (String.eqb_spec k n) as [->|Hk]; simpl; rewrite ?IH.
  - by destruct (String.eqb n n').
  - destruct (String.eqb_spec k n') as [->|]; [|done].
    destruct (String.eqb_spec n n') as [->|]; done.
Qed.

Lemma filter_nonempty (m : list (string * str)) n :
  n ∈ map fst m ↔ map snd (List.filter (λ e, String.eqb e.1 n) m) ≠ [].
Proof.
  induction m as [|[k v] m IH]; simpl; [split; [by intros ?%elem_of_nil|done]|]. rewrite elem_of_cons, IH.
  destruct (String.eqb_spec k n) as [->|Hne]; simpl; [naive_solver|]. split; [intros [->|?]; done|auto].
Qed.

#[export] Instance list_headers_laws : HeaderLaws.
Proof.
  split; simpl; intros; [done| | | |done|apply filter_nonempty].
  - rewrite List.filter_app, filter_other. simpl. by destruct (String.eqb n n'); rewrite ?app_nil_r.
  - rewrite List.filter_app, map_app. simpl. destruct (String.eqb n n'); simpl; [done|by rewrite app_nil_r].
  - rewrite filter_other. by destruct (String.eqb n n').
Qed.

(** ** A template and a channel *)

Abbreviation chat_format := ApiFormat.OpenAiChatCompletions.

Definition patch_document (version : Z) (members : list (string * Json)) : Json :=
  JObject ([("api_format", JString "open_ai_chat_completions")] ++ members ++ [("version", JNumber (Int version))]).
Definition operation (op path : string) (value : Json) : Json :=
  JObject [("op", JString op); ("path", JString path); ("value", value)].

(** The template names a header, adds a temperature and rewrites a choice. *)
Definition template_document : Json :=
  patch_document 1
    [("request_headers", JObject [("set", JObject [("x-tag", JString "gateway")])]);
     ("request_json", JArray [operation "add" "/temperature" (JNumber (Int 1))]);
     ("sse", JArray [JObject [("event", JString "chat.completion.chunk");
                              ("json", JArray [operation "replace" "/choices/0/delta" (JString "hidden")])]])].
(** The channel fills a template string with the value it replaces. *)
Definition channel_document : Json :=
  patch_document 2
    [("request_json", JArray [operation "replace" "/user" (JObject [("$template", JString "team-{{value}}")])])].

Definition body_value (model : string) : Json :=
  JObject [("model", JString model); ("stream", JBool true); ("user", JString "ada")].
Definition patched_body (model : string) : Json :=
  JObject [("model", JString model); ("stream", JBool true); ("temperature", JNumber (Int 1)); ("user", JString "team-ada")].
Definition chunk_value (delta : Json) : Json :=
  JObject [("choices", JArray [JObject [("delta", delta); ("index", JNumber (Int 0))]]); ("id", JString "c1");
           ("object", JString "chat.completion.chunk")].

Definition body_text : str := bytes_of "{body}".
Definition chunk_text : str := bytes_of "{chunk}".
(** The same on two lines. *)
Definition folded_text : str := bytes_of "{chunk," ++ LF ++ bytes_of "folded}".

(** The texts of the documents, also of the body with the upstream's model. *)
#[export] Instance transform_json : JsonText := {
  from_slice b :=
    if bool_decide (b = body_text) then Some (body_value "m")
    else if bool_decide (b = chunk_text) then Some (chunk_value JNull)
    else if bool_decide (b = folded_text) then Some (chunk_value JNull)
    else if bool_decide (b = bytes_of "{upstream}") then Some (body_value "u")
    else if bool_decide (b = bytes_of "{patched}") then Some (patched_body "u")
    else None;
  to_vec v := if json_eqb v (patched_body "u") then bytes_of "{patched}"
              else if json_eqb v (body_value "u") then bytes_of "{upstream}" else bytes_of "{}";
  pretty _ := bytes_of "{}";
  number_text _ := bytes_of "0";
}.

#[export] Instance transform_json_compact : CompactJson.
Proof.
  split. intros v. simpl. destruct (json_eqb v (patched_body "u")); [|destruct (json_eqb v (body_value "u"))]; repeat constructor.
Qed.

(** The value of a run that succeeds. *)
Definition ok_or_noop (r : option (compiled TransformPlan)) : TransformPlan :=
  match r with Some (Ok p) => p | _ => noop chat_format end.
Definition is_ok (r : option (compiled TransformPlan)) : bool := match r with Some (Ok _) => true | _ => false end.
Lemma is_ok_plan r : is_ok r = true → r = Some (Ok (ok_or_noop r)).
Proof. by destruct r as [[|]|]. Qed.

Definition example_template : option CompiledConfigTemplate :=
  match compile_config_template template_document with Ok t => Some t | Err _ => None end.
Lemma example_template_compiled : template_compiled example_template.
Proof. unfold example_template. destruct (compile_config_template template_document) as [t|] eqn:E; simpl; eauto. Qed.

Definition example_run : option (compiled TransformPlan) := effective_transforms example_template channel_document chat_format.
Lemma example_accepted : is_ok example_run = true.
Proof. vm_cast_no_check (eq_refl true). Qed.
Definition example_plan : TransformPlan := ok_or_noop example_run.
Lemma example_plan_accepted : effective_transforms example_template channel_document chat_format = Some (Ok example_plan).
Proof. exact (is_ok_plan _ example_accepted). Qed.

Lemma channel_transforms_well_formed_witness :
  template_compiled example_template ∧ is_Some (effective_transforms example_template channel_document chat_format).
Proof.
  split; [apply example_template_compiled|].
  apply (channel_transforms_well_formed example_template channel_document chat_format example_template_compiled).
Defined.

(** The text an apply run returns, as a check. *)
Definition gives (r : result str TransformApplyError) (text : str) : bool :=
  match r with Ok b => bool_decide (b = text) | Err _ => false end.
Lemma gives_ok r text : gives r text = true → r = Ok text.
Proof. destruct r; simpl; [|done]. intros H%bool_decide_eq_true. by rewrite H. Qed.

Lemma body_patched : gives (apply_json_patch_plan (bytes_of "{upstream}") example_plan.(request_json)) (bytes_of "{patched}") = true.
Proof. vm_cast_no_check (eq_refl true). Qed.

Lemma model_and_stream_kept_witness :
  effective_transforms example_template channel_document chat_format = Some (Ok example_plan)
  ∧ apply_json_patch_plan (bytes_of "{upstream}") example_plan.(request_json) = Ok (bytes_of "{patched}")
  ∧ (bytes_of "{patched}" = bytes_of "{upstream}" ∨
     ∃ d d', from_slice (bytes_of "{upstream}") = Some d ∧ bytes_of "{patched}" = to_vec d'
             ∧ value_get d' "model" = value_get d "model" ∧ value_get d' "stream" = value_get d "stream").
Proof.
  exact (conj example_plan_accepted (conj (gives_ok _ _ body_patched)
    (model_and_stream_kept _ _ _ _ _ _ example_template_compiled example_plan_accepted (gives_ok _ _ body_patched)))).
Defined.

(** ** An event *)

Definition crlf_line : str := [Ascii.ascii_of_N 13; Ascii.ascii_of_N 10].
Definition lf_line : str := [Ascii.ascii_of_N 10].
Definition cr_line : str := [Ascii.ascii_of_N 13].
Definition chunk_frame : str := bytes_of ": note" ++ crlf_line ++ bytes_of "data: " ++ chunk_text ++ crlf_line ++ crlf_line.
Definition patched_frame : str := bytes_of ": note" ++ crlf_line ++ bytes_of "data: {}" ++ crlf_line ++ crlf_line.

Lemma frame_patched : gives (transform_sse_frame chunk_frame example_plan.(sse_event_patches)) patched_frame = true.
Proof. vm_cast_no_check (eq_refl true). Qed.

Lemma chunk_frame_no_cr : bare_cr chunk_frame = false.
Proof. reflexivity. Qed.


Lemma layers_apply_in_order_witness :
  effective_transforms example_template channel_document chat_format = Some (Ok example_plan)
  ∧ ∃ own, compile_document channel_document chat_format = Ok own.
Proof.
  split; [exact example_plan_accepted|].
  destruct (layers_apply_in_order example_template channel_document chat_format example_plan
              example_template_compiled example_plan_accepted) as (own & Hown & _).
  exact (ex_intro _ own Hown).
Defined.

(** ** Mixed line ends *)

(** Two data lines, the first ended by a CR and the second by an LF, and the
    blank line: a complete frame. *)
Definition mixed_frame : str :=
  bytes_of "data: {chunk," ++ cr_line ++ bytes_of "data: folded}" ++ lf_line ++ lf_line.
Definition glued_frame : str := bytes_of "data: {}" ++ crlf_line.

Lemma mixed_patched : gives (transform_sse_frame mixed_frame example_plan.(sse_event_patches)) glued_frame = true.
Proof. vm_cast_no_check (eq_refl true). Qed.


(** ** Connection-specific headers *)

Definition hop_headers : HeaderMap := [("connection", bytes_of "close, X-Hop"); ("x-hop", bytes_of "1")].
Definition hop_plan : HeaderPlan := [HeaderSet "x-tag" (bytes_of "t"); HeaderRemove "x-hop"].

Lemma hop_named : "x-hop" ∈ connection_header_names hop_headers.
Proof. apply existsb_eqb_elem. reflexivity. Qed.

Lemma header_plan_exact_witness :
  (apply_header_plan_in_scope hop_headers hop_plan RequestScope).2 ≠ Ok tt
  ∧ get_all (apply_header_plan_in_scope hop_headers hop_plan RequestScope).1 "x-hop" = get_all hop_headers "x-hop".
Proof.
  pose proof (header_plan_exact hop_headers hop_plan RequestScope) as Hp. cbv zeta in Hp.
  destruct (apply_header_plan_in_scope hop_headers hop_plan RequestScope) as [h' r].
  destruct Hp as (_ & Hr & Hk). cbn [fst snd]. split; [|exact (Hk _ (or_intror hop_named))].
  intros E. apply (proj2 (proj1 Hr E (HeaderRemove "x-hop") "x-hop" ltac:(right; left) ltac:(left))), hop_named.
Defined.
