(* ===== verification/RequestPolicy.v ===== *)
(** * Request allowlists

    Models [src/request_policy.rs]: the contract that says which body fields and
    headers of a client request are forwarded, its validation, and the policies
    applied with it.  The contract is data ([docs/reference/request-allowlists.json])
    and an argument of every function; the theorems hold for every contract that
    passes [validate_contract]. *)

From S2P Require Import Prelude Text Domain Json Usage Headers JsonPatch Plans.
Open Scope gateway_scope.

(** ** Interfaces and errors *)

Inductive RequestInterface :=
| IfChatCompletions | IfResponsesHttp | IfResponsesWebSocket | IfStandaloneWebSearch
| IfImagesGeneration | IfImagesEdit.
#[export] Instance RequestInterface_eq_dec : EqDecision RequestInterface.
Proof. solve_decision. Defined.

Definition REQUIRED_INTERFACES : list RequestInterface :=
  [IfChatCompletions; IfResponsesHttp; IfResponsesWebSocket; IfStandaloneWebSearch; IfImagesGeneration; IfImagesEdit].

Definition for_http (o : ApiOperation.t) : RequestInterface :=
  match o with
  | ApiOperation.ChatCompletions => IfChatCompletions
  | ApiOperation.Responses => IfResponsesHttp
  | ApiOperation.ResponsesWebSocket => IfResponsesWebSocket
  | ApiOperation.StandaloneWebSearch => IfStandaloneWebSearch
  | ApiOperation.ImagesGeneration => IfImagesGeneration
  | ApiOperation.ImagesEdit => IfImagesEdit
  end.

Definition interface_name (i : RequestInterface) : string :=
  match i with
  | IfChatCompletions => "chat_completions"
  | IfResponsesHttp => "responses_http"
  | IfResponsesWebSocket => "responses_websocket"
  | IfStandaloneWebSearch => "standalone_web_search"
  | IfImagesGeneration => "images_generation"
  | IfImagesEdit => "images_edit"
  end.

Inductive RequestPolicyLocation := LocHeader | LocBody.
Inductive RequestPolicyFailure := InvalidBody | UnsupportedField | UnsupportedValue.

(** The only layer is the client's. *)
Record RequestPolicyError := {
  connector_code : option string;
  err_interface : RequestInterface;
  err_location : RequestPolicyLocation;
  err_failure : RequestPolicyFailure;
  err_field : option string;
}.

Definition MAX_FIELD_CHARS : Z := 128.

(** The first [n] characters of a UTF-8 string. *)
Fixpoint take_chars (n : nat) (s : str) : str :=
  match s with
  | [] => []
  | c :: s' =>
      if is_continuation c then c :: take_chars n s'
      else match n with O => [] | S n => c :: take_chars n s' end
  end.

(** A horizontal ellipsis. *)
Definition ELLIPSIS_BYTES : str := Ascii.ascii_of_N <$> [226; 128; 166]%N.

Definition bounded_field_name (field : string) : string :=
  let bounded := take_chars (Z.to_nat MAX_FIELD_CHARS) (bytes_of field) in
  string_of (if MAX_FIELD_CHARS <? chars_count (bytes_of field) then bounded ++ ELLIPSIS_BYTES else bounded).

Definition invalid_body (i : RequestInterface) : RequestPolicyError :=
  {| connector_code := None; err_interface := i; err_location := LocBody; err_failure := InvalidBody; err_field := None |}.

Definition field_error (i : RequestInterface) (location : RequestPolicyLocation) (failure : RequestPolicyFailure)
    (field : string) : RequestPolicyError :=
  {| connector_code := None; err_interface := i; err_location := location; err_failure := failure;
     err_field := Some (bounded_field_name field) |}.

Definition connector_body_rejection (i : RequestInterface) (code : string) : RequestPolicyError :=
  {| connector_code := Some code; err_interface := i; err_location := LocBody; err_failure := UnsupportedField;
     err_field := None |}.

Definition error_message (e : RequestPolicyError) : string :=
  match e.(connector_code), e.(err_failure) with
  | Some _, _ => "The selected connector rejected an unsupported body field or value."
  | None, InvalidBody => "Request body must be a JSON object."
  | None, failure =>
      "The client request " +:+ match e.(err_location) with LocHeader => "header" | LocBody => "body field" end
      +:+ " `" +:+ default "unknown" e.(err_field) +:+ "` "
      +:+ match failure with UnsupportedValue => "has an unsupported value" | _ => "is not supported" end
      +:+ " for `" +:+ interface_name e.(err_interface) +:+ "`."
  end.

Definition error_param (e : RequestPolicyError) : string :=
  match e.(err_location) with LocHeader => "headers" | LocBody => "body" end.

Definition error_code (e : RequestPolicyError) : string :=
  match e.(connector_code) with
  | Some code => code
  | None =>
      match e.(err_location), e.(err_failure) with
      | _, InvalidBody => "invalid_request"
      | LocHeader, UnsupportedField => "request_header_unsupported"
      | LocHeader, UnsupportedValue => "request_header_value_unsupported"
      | LocBody, UnsupportedField => "request_body_field_unsupported"
      | LocBody, UnsupportedValue => "request_body_field_value_unsupported"
      end
  end.

(** ** The contract *)

Inductive UnknownAction := ActAllow | ActIgnore | ActReject.
#[export] Instance UnknownAction_eq_dec : EqDecision UnknownAction.
Proof. solve_decision. Defined.

Record HeaderPolicy := {
  hp_unknown : UnknownAction;
  hp_allow : list string;
  hp_allow_prefixes : list string;
  hp_ignore : list string;
  hp_generated : list string;
}.

Definition IgnoredFieldRule : Type := option (list Json).   (** [accepted_values] *)

Record BodyPolicy := {
  bp_unknown : UnknownAction;
  bp_allow : list string;
  bp_ignore : list (string * IgnoredFieldRule);
  bp_reject : list string;
}.

Record RequestPolicySources := { openai_node_commit : string; codex_commit : string; codex_standalone_commit : string }.

(** An [InterfacePolicy] is its client body policy. *)
Record RequestPolicyContract := {
  contract_version : Z;
  verified_at : string;
  sources : RequestPolicySources;
  client_headers : HeaderPolicy;
  interfaces : list (string * BodyPolicy);
}.

(** [BTreeMap::get] for any value type. *)
Fixpoint assoc_get {A} (l : list (string * A)) (key : string) : option A :=
  match l with
  | [] => None
  | (k, v) :: l => if String.eqb k key then Some v else assoc_get l key
  end.

(** [slice::binary_search_by] of the standard library: [size] elements from
    [base] are left, and the loop halves them. *)
Fixpoint search_loop (fuel : nat) (values : list string) (candidate : string) (base size : nat) : nat :=
  match fuel with
  | O => base
  | S fuel =>
      if (size <=? 1)%nat then base
      else
        let half := (size / 2)%nat in
        let mid := (base + half)%nat in
        let base := match String.compare (nth mid values EmptyString) candidate with Gt => base | _ => mid end in
        search_loop fuel values candidate base (size - half)
  end.

Definition contains_sorted (values : list string) (candidate : string) : bool :=
  match values with
  | [] => false
  | _ =>
      let base := search_loop (length values) values candidate 0 (length values) in
      match String.compare (nth base values EmptyString) candidate with Eq => true | _ => false end
  end.

(** ** Validation of the contract *)

Inductive ContractError :=
| ContractVersion | VerificationDate | SourceCommits | NotSortedUnique (label : string) | MultipleHeaderActions (name : string)
| InvalidPolicyHeader (name : string) | HeaderNotLowercase (name : string) | InvalidHeaderPrefix (prefix : string)
| UnknownHeadersNotIgnored | InterfaceCount | MissingInterface (name : string) | MultipleFieldActions (field : string)
| EmptyFieldName | UnknownFieldsNotRejected (name : string) | ModelNotAllowed (name : string) | TypeNotAllowed
| ImageAliasesNotAllowed.
Abbreviation checked := (result unit ContractError) (only parsing).

Definition str_lt (a b : string) : bool := match String.compare a b with Lt => true | _ => false end.

(** No pair of neighbours with [pair[0] >= pair[1]]. *)
Fixpoint sorted_unique (values : list string) : bool :=
  match values with
  | a :: ((b :: _) as rest) => str_lt a b && sorted_unique rest
  | _ => true
  end.
Definition validate_sorted_unique (label : string) (values : list string) : checked :=
  if sorted_unique values then Ok tt else Err (NotSortedUnique label).

Definition prefix_byte (c : Ascii.ascii) : bool :=
  is_ascii_lowercase c || is_ascii_digit c || (byte c =? 33) || ((35 <=? byte c) && (byte c <=? 39))
  || contains_byte c (bytes_of "*+-.^_`|~").

Definition is_ascii_hexdigit (c : Ascii.ascii) : bool :=
  is_ascii_digit c || ((97 <=? byte c) && (byte c <=? 102)) || ((65 <=? byte c) && (byte c <=? 70)).

(** The index of a byte and whether it fits a [YYYY-MM-DD] date. *)
Fixpoint date_bytes (index : Z) (s : str) : bool :=
  match s with
  | [] => true
  | c :: s => (if (index =? 4) || (index =? 7) then byte c =? 45 else is_ascii_digit c) && date_bytes (index + 1) s
  end.

Definition check_each {A} (f : A → checked) (l : list A) : checked := try_fold (λ _ a, f a) tt l.

Definition check (b : bool) (e : ContractError) : checked := if b then Ok tt else Err e.

Definition validate_header_policy `{HeaderText} (policy : HeaderPolicy) : checked :=
  _ <-! validate_sorted_unique "allowed headers" policy.(hp_allow);
  _ <-! validate_sorted_unique "allowed header prefixes" policy.(hp_allow_prefixes);
  _ <-! validate_sorted_unique "ignored headers" policy.(hp_ignore);
  _ <-! validate_sorted_unique "generated headers" policy.(hp_generated);
  _ <-! match List.find (contains_sorted policy.(hp_ignore)) policy.(hp_allow) with
        | Some name => Err (MultipleHeaderActions name)
        | None => Ok tt
        end;
  _ <-! check_each (λ name,
          parsed <-! ok_or (header_name (bytes_of name)) (InvalidPolicyHeader name);
          check (String.eqb parsed name) (HeaderNotLowercase name))
          (policy.(hp_allow) ++ policy.(hp_ignore) ++ policy.(hp_generated));
  check_each (λ prefix,
    check (negb (String.eqb prefix EmptyString) && forallb prefix_byte (bytes_of prefix)) (InvalidHeaderPrefix prefix))
    policy.(hp_allow_prefixes).

(** [seen.insert] of each field, refusing one that is seen. *)
Definition insert_fields (seen : list string) (fields : list string) : result (list string) ContractError :=
  try_fold (λ seen field, ok_or (insert_new field seen) (MultipleFieldActions field)) seen fields.

Definition validate_body_policy (policy : BodyPolicy) : checked :=
  _ <-! validate_sorted_unique "allowed body fields" policy.(bp_allow);
  _ <-! validate_sorted_unique "rejected body fields" policy.(bp_reject);
  seen <-! insert_fields policy.(bp_allow) (map fst policy.(bp_ignore));
  seen <-! insert_fields seen policy.(bp_reject);
  check (negb (existsb (String.eqb EmptyString) seen)) EmptyFieldName.

Definition validate_interface (contract : RequestPolicyContract) (i : RequestInterface) : checked :=
  policy <-! ok_or (assoc_get contract.(interfaces) (interface_name i)) (MissingInterface (interface_name i));
  _ <-! validate_body_policy policy;
  _ <-! check (bool_decide (policy.(bp_unknown) = ActReject)) (UnknownFieldsNotRejected (interface_name i));
  let allows := contains_sorted policy.(bp_allow) in
  _ <-! check (allows "model") (ModelNotAllowed (interface_name i));
  _ <-! check (negb (bool_decide (i = IfResponsesWebSocket)) || allows "type") TypeNotAllowed;
  check (negb (bool_decide (i = IfImagesEdit)) || (allows "image" && allows "image[]" && allows "mask"))
    ImageAliasesNotAllowed.

Definition validate_contract `{HeaderText} (contract : RequestPolicyContract) : checked :=
  _ <-! check (contract.(contract_version) =? 4) ContractVersion;
  let verified := bytes_of contract.(verified_at) in
  _ <-! check ((length verified =? 10)%nat && date_bytes 0 verified) VerificationDate;
  _ <-! check_each (λ commit,
          check ((String.length commit =? 40)%nat && forallb is_ascii_hexdigit (bytes_of commit)) SourceCommits)
          [contract.(sources).(openai_node_commit); contract.(sources).(codex_commit);
           contract.(sources).(codex_standalone_commit)];
  _ <-! validate_header_policy contract.(client_headers);
  _ <-! check (bool_decide (contract.(client_headers).(hp_unknown) = ActIgnore)) UnknownHeadersNotIgnored;
  _ <-! check (length contract.(interfaces) =? length REQUIRED_INTERFACES)%nat InterfaceCount;
  check_each (validate_interface contract) REQUIRED_INTERFACES.

(** ** Body fields *)

Inductive FieldDisposition := FieldAllow | FieldIgnore.
#[export] Instance FieldDisposition_eq_dec : EqDecision FieldDisposition.
Proof. solve_decision. Defined.

Record AppliedJsonBody := { applied_body : str; applied_changed : bool }.

Definition field_disposition_for_policy (i : RequestInterface) (policy : BodyPolicy) (field : string) (value : option Json)
    : result FieldDisposition RequestPolicyError :=
  if contains_sorted policy.(bp_allow) field then Ok FieldAllow
  else
    match assoc_get policy.(bp_ignore) field with
    | Some rule =>
        if is_some_and rule (λ accepted, is_none_or value (λ v, negb (existsb (λ c, json_eqb c v) accepted)))
        then Err (field_error i LocBody UnsupportedValue field)
        else Ok FieldIgnore
    | None =>
        if contains_sorted policy.(bp_reject) field then Err (field_error i LocBody UnsupportedField field)
        else
          match policy.(bp_unknown) with
          | ActAllow => Ok FieldAllow
          | ActIgnore => Ok FieldIgnore
          | ActReject => Err (field_error i LocBody UnsupportedField field)
          end
    end.

(** [None] is the panic of a contract without the interface. *)
Definition body_policy (contract : RequestPolicyContract) (i : RequestInterface) : option BodyPolicy :=
  assoc_get contract.(interfaces) (interface_name i).

Definition body_field_disposition (contract : RequestPolicyContract) (i : RequestInterface) (field : string)
    (value : option Json) : option (result FieldDisposition RequestPolicyError) :=
  policy ← body_policy contract i; Some (field_disposition_for_policy i policy field value).

(** [serde_json::from_slice::<BTreeMap<String, &RawValue>>]: the members of a
    JSON object with the texts of their values, sorted by name. *)
Class RawJson : Type := { raw_fields : str → option (list (string * str)) }.

Section bodies.
Context `{JsonText, RawJson}.

(** The loop of [apply_json_body_policy]: the ignored fields. *)
Definition classify_field (i : RequestInterface) (policy : BodyPolicy) (ignored : list string) (entry : string * str)
    : result (list string) RequestPolicyError :=
  inspected <-! match assoc_get policy.(bp_ignore) entry.1 with
                | Some (Some _) => v <-! ok_or (from_slice entry.2) (invalid_body i); Ok (Some v)
                | _ => Ok None
                end;
  disposition <-! field_disposition_for_policy i policy entry.1 inspected;
  Ok (if bool_decide (disposition = FieldIgnore) then ignored ++ [entry.1] else ignored).

Definition apply_body_policy (i : RequestInterface) (policy : BodyPolicy) (body : str)
    : result AppliedJsonBody RequestPolicyError :=
  fields <-! ok_or (raw_fields body) (invalid_body i);
  ignored <-! try_fold (classify_field i policy) [] fields;
  match ignored with
  | [] => Ok {| applied_body := body; applied_changed := false |}
  | _ =>
      value <-! ok_or (from_slice body) (invalid_body i);
      object <-! ok_or (as_object value) (invalid_body i);
      Ok {| applied_body := to_vec (JObject (foldl map_delete object ignored)); applied_changed := true |}
  end.

Definition apply_json_body_policy (contract : RequestPolicyContract) (i : RequestInterface) (body : str)
    : option (result AppliedJsonBody RequestPolicyError) :=
  policy ← body_policy contract i; Some (apply_body_policy i policy body).

Definition apply_client_fast_mode_filter (i : RequestInterface) (body : str) (enabled : bool)
    : result AppliedJsonBody RequestPolicyError :=
  if negb enabled then Ok {| applied_body := body; applied_changed := false |}
  else
    value <-! ok_or (from_slice body) (invalid_body i);
    object <-! ok_or (as_object value) (invalid_body i);
    match map_get object "service_tier" with
    | None => Ok {| applied_body := body; applied_changed := false |}
    | Some _ => Ok {| applied_body := to_vec (JObject (map_delete object "service_tier")); applied_changed := true |}
    end.
End bodies.

(** ** Headers *)

Definition header_action (policy : HeaderPolicy) (name : string) : UnknownAction :=
  if contains_sorted policy.(hp_allow) name then ActAllow
  else if contains_sorted policy.(hp_ignore) name then ActIgnore
  else if existsb (λ prefix, starts_with (bytes_of prefix) (bytes_of name)) policy.(hp_allow_prefixes) then ActAllow
  else policy.(hp_unknown).

Definition client_header_allowed (contract : RequestPolicyContract) (name : string) : bool :=
  bool_decide (header_action contract.(client_headers) name = ActAllow).
Definition client_header_explicitly_ignored (contract : RequestPolicyContract) (name : string) : bool :=
  contains_sorted contract.(client_headers).(hp_ignore) name.

Definition connector_header_is_forbidden (contract : RequestPolicyContract) (name : string) : bool :=
  (negb (String.eqb name "authorization") && request_header_is_protected name)
  || starts_with (bytes_of "sec-websocket-") (bytes_of name)
  || client_header_explicitly_ignored contract name.

Section policy_headers.
Context `{HeaderText, HeaderLib}.

(** The names a [Connection] header lists, read as text: a value with an opaque
    byte lists none. *)
Definition policy_connection_names (headers : HeaderMap) : list string :=
  flat_map (λ value,
    match header_to_str value with
    | Some text => omap (λ name, header_name (trim name)) (split_on (Ascii.ascii_of_N 44) (bytes_of text))
    | None => []
    end) (get_all headers "connection").

Definition filter_header (i : RequestInterface) (policy : HeaderPolicy) (connection_names : list string)
    (filtered : HeaderMap) (entry : string * str) : result HeaderMap RequestPolicyError :=
  let '(name, value) := entry in
  let internal_connection_header := existsb (String.eqb name) connection_names || String.eqb name "connection" in
  match header_action policy name with
  | ActAllow => Ok (headers_append filtered name value)
  | ActIgnore => Ok (if internal_connection_header then headers_append filtered name value else filtered)
  | ActReject => Err (field_error i LocHeader UnsupportedField name)
  end.

Definition filter_client_headers (contract : RequestPolicyContract) (i : RequestInterface) (headers : HeaderMap)
    : result HeaderMap RequestPolicyError :=
  try_fold (filter_header i contract.(client_headers) (policy_connection_names headers)) headers_new (headers_iter headers).

Definition sanitize_outbound_request_headers (contract : RequestPolicyContract) (headers : HeaderMap) : HeaderMap :=
  let connection_names := policy_connection_names headers in
  let removed := List.filter (λ name,
      (negb (String.eqb name "cookie") && connector_header_is_forbidden contract name)
      || (negb (String.eqb name "authorization") && existsb (String.eqb name) connection_names)) (headers_keys headers) in
  foldl headers_remove headers removed.
End policy_headers.

(** ** The byte order of strings *)

Lemma ascii_compare_byte a b : Ascii.compare a b = (byte a ?= byte b).
Proof. unfold Ascii.compare, byte. by rewrite N2Z.inj_compare. Qed.

Lemma str_lt_trans a b c : str_lt a b = true → str_lt b c = true → str_lt a c = true.
Proof.
  unfold str_lt. revert b c. induction a as [|x a IH]; intros [|y b] [|z c]; simpl; try done.
  rewrite !ascii_compare_byte.
  destruct (Z.compare_spec (byte x) (byte y)), (Z.compare_spec (byte y) (byte z)), (Z.compare_spec (byte x) (byte z));
    try done; try lia. apply IH.
Qed.

Lemma compare_refl s : String.compare s s = Eq.
Proof. pose proof (String.compare_antisym s s) as E. by destruct (String.compare s s). Qed.

(** Elements of a sorted list are ordered by position. *)
Lemma sorted_unique_nth l i j d :
  sorted_unique l = true → (i < j)%nat → (j < length l)%nat → str_lt (nth i l d) (nth j l d) = true.
Proof.
  revert i j. induction l as [|a l IH]; intros i j Hs Hij Hj; [simpl in Hj; lia|].
  destruct l as [|b l]; [simpl in Hj; lia|]. change (str_lt a b && sorted_unique (b :: l) = true) in Hs.
  apply andb_true_iff in Hs as [Hab Hs]. destruct j as [|j]; [lia|]. cbn [nth]. destruct i as [|i].
  - destruct j as [|j]; [done|]. eapply str_lt_trans; [exact Hab|].
    apply (IH 0%nat (S j) Hs); simpl in *; lia.
  - apply IH; [done|lia|simpl in *; lia].
Qed.

(** The loop keeps the position of the candidate in its window. *)
Lemma search_loop_spec l c i : sorted_unique l = true → nth i l EmptyString = c → (i < length l)%nat →
  ∀ fuel base size, (size ≤ S fuel)%nat → (base ≤ i < base + size)%nat → (base + size ≤ length l)%nat →
  search_loop fuel l c base size = i.
Proof.
  intros Hs Hi Hl. induction fuel as [|fuel IH]; intros base size Hf Hb Hlen; cbn [search_loop]; [lia|].
  destruct (Nat.leb_spec size 1); [lia|].
  assert (0 < size / 2)%nat as Hhalf by (apply Nat.div_str_pos; lia).
  assert (size / 2 < size)%nat as Hlt by (apply Nat.div_lt; lia).
  pose proof (Nat.Div0.mul_div_le size 2).
  destruct (String.compare (nth (base + size / 2) l EmptyString) c) eqn:E.
  - apply String.compare_eq_iff in E. assert (base + size / 2 = i)%nat as Hm.
    { destruct (Nat.lt_trichotomy (base + size / 2) i) as [H'|[H'|H']]; [|done|].
      - pose proof (sorted_unique_nth l _ _ EmptyString Hs H' Hl) as Ho. unfold str_lt in Ho. by rewrite E, Hi, compare_refl in Ho.
      - pose proof (sorted_unique_nth l _ _ EmptyString Hs H' ltac:(lia)) as Ho. unfold str_lt in Ho. by rewrite E, Hi, compare_refl in Ho. }
    apply IH; lia.
  - assert (base + size / 2 ≤ i)%nat as Hm.
    { destruct (Nat.lt_ge_cases i (base + size / 2)) as [H'|]; [|done].
      pose proof (sorted_unique_nth l _ _ EmptyString Hs H' ltac:(lia)) as Ho. unfold str_lt in Ho.
      rewrite Hi, String.compare_antisym, E in Ho. done. }
    apply IH; lia.
  - assert (i < base + size / 2)%nat as Hm.
    { destruct (Nat.lt_trichotomy (base + size / 2) i) as [H'|[H'|H']]; [| |done].
      - pose proof (sorted_unique_nth l _ _ EmptyString Hs H' Hl) as Ho. unfold str_lt in Ho. by rewrite Hi, E in Ho.
      - by rewrite H', Hi, compare_refl in E. }
    apply IH; lia.
Qed.

Lemma search_loop_bound l c fuel : ∀ base size,
  (size ≤ S fuel)%nat → (0 < size)%nat → (base + size ≤ length l)%nat → (search_loop fuel l c base size < length l)%nat.
Proof.
  induction fuel as [|fuel IH]; intros base size Hf Hs Hl; cbn [search_loop]; [lia|].
  destruct (Nat.leb_spec size 1); [lia|].
  assert (size / 2 < size)%nat as Hlt by (apply Nat.div_lt; lia).
  assert (0 < size / 2)%nat as Hhalf by (apply Nat.div_str_pos; lia).
  apply IH; [lia|lia|]. destruct (String.compare _ _); lia.
Qed.

Lemma contains_sorted_elem l c : sorted_unique l = true → contains_sorted l c = bool_decide (c ∈ l).
Proof.
  intros Hs. apply eq_bool_prop_intro. rewrite bool_decide_spec, Is_true_true.
  unfold contains_sorted. destruct l as [|a l]; [split; [done|by intros ?%elem_of_nil]|].
  set (L := a :: l) in *. set (base := search_loop _ _ _ _ _). split.
  - destruct (String.compare _ _) eqn:E; try done. intros _. apply String.compare_eq_iff in E. rewrite <-E.
    apply list_elem_of_In, nth_In. apply search_loop_bound; [lia| |done]. simpl. lia.
  - intros Hin%list_elem_of_In. apply (In_nth _ _ EmptyString) in Hin as (i & Hi & Hn). subst base.
    rewrite (search_loop_spec L c i Hs Hn Hi) by lia. by rewrite Hn, compare_refl.
Qed.

(** On the lists of a contract, which are checked to be sorted, the binary
    search of the policies finds exactly the listed names. *)
Theorem contains_sorted_exact values candidate (Hs : validate_sorted_unique "values" values = Ok tt) :
  contains_sorted values candidate = bool_decide (candidate ∈ values).
Proof. apply contains_sorted_elem. unfold validate_sorted_unique in Hs. by destruct (sorted_unique values). Qed.

(** ** Validated contracts *)

Lemma check_Ok b e u : check b e = Ok u ↔ b = true.
Proof. destruct b, u; simpl; naive_solver. Qed.

Lemma check_each_Forall {A} (f : A → checked) l u : check_each f l = Ok u → Forall (λ a, f a = Ok tt) l.
Proof.
  unfold check_each. generalize tt at 1 as v. induction l as [|a l IH]; intros v; simpl; [constructor|].
  intros ([] & Ha & Hl)%result_bind_Ok. constructor; eauto.
Qed.

Lemma insert_fields_seen seen fields seen' :
  insert_fields seen fields = Ok seen' → (∀ f, f ∈ fields → f ∉ seen) ∧ (∀ f, f ∈ seen' ↔ f ∈ seen ∨ f ∈ fields).
Proof.
  unfold insert_fields. revert seen. induction fields as [|g fields IH]; intros seen; simpl.
  { intros [= <-]. set_solver. }
  intros (seen1 & Hg & H)%result_bind_Ok. apply ok_or_Ok in Hg. unfold insert_new in Hg.
  destruct (existsb (String.eqb g) seen) eqn:E; [done|]. injection Hg as <-. apply IH in H as [H1 H2].
  assert (g ∉ seen) by (rewrite <-existsb_eqb_elem; congruence). split; set_solver.
Qed.

(** What a body policy of a validated contract satisfies. *)
Record policy_ok (policy : BodyPolicy) : Prop := {
  allow_sorted : sorted_unique policy.(bp_allow) = true;
  reject_sorted : sorted_unique policy.(bp_reject) = true;
  unknown_rejected : policy.(bp_unknown) = ActReject;
  model_allowed : "model" ∈ policy.(bp_allow);
  actions_disjoint : ∀ f, f ∈ map fst policy.(bp_ignore) → f ∉ policy.(bp_allow);
}.

Lemma validate_sorted_unique_Ok label l u : validate_sorted_unique label l = Ok u ↔ sorted_unique l = true.
Proof. unfold validate_sorted_unique. destruct (sorted_unique l), u; naive_solver. Qed.

Lemma validate_interface_ok c i : validate_interface c i = Ok tt → ∃ policy, body_policy c i = Some policy ∧ policy_ok policy.
Proof.
  unfold validate_interface, body_policy. intros. inv_ok.
  repeat match goal with H : check _ _ = Ok _ |- _ => apply check_Ok in H end.
  match goal with H : validate_body_policy _ = Ok _ |- _ => unfold validate_body_policy in H; rename H into Hb end. inv_ok.
  repeat match goal with H : validate_sorted_unique _ _ = Ok _ |- _ => apply validate_sorted_unique_Ok in H end.
  repeat match goal with H : insert_fields _ _ = Ok _ |- _ => apply insert_fields_seen in H as [? ?] end.
  eexists. split; [eassumption|]. breflect. split; try done.
  match goal with H : contains_sorted _ "model" = true |- _ => rewrite contains_sorted_elem in H by done end. by breflect.
Qed.

Section validated.
Context `{HT : HeaderText}.

Lemma validate_contract_interfaces c i :
  validate_contract c = Ok tt → ∃ policy, body_policy c i = Some policy ∧ policy_ok policy.
Proof.
  unfold validate_contract. intros. inv_ok. match goal with H : check_each (validate_interface c) _ = Ok _ |- _ => apply check_each_Forall in H as Hf end.
  apply validate_interface_ok. rewrite Forall_forall in Hf. apply Hf. destruct i; set_solver.
Qed.

Lemma validate_contract_headers c :
  validate_contract c = Ok tt →
  sorted_unique c.(client_headers).(hp_allow) = true ∧ sorted_unique c.(client_headers).(hp_ignore) = true
  ∧ c.(client_headers).(hp_unknown) = ActIgnore.
Proof.
  unfold validate_contract. intros. inv_ok. repeat match goal with H : check _ _ = Ok _ |- _ => apply check_Ok in H end.
  match goal with H : validate_header_policy _ = Ok _ |- _ => unfold validate_header_policy in H; rename H into Hb end. inv_ok.
  repeat match goal with H : validate_sorted_unique _ _ = Ok _ |- _ => apply validate_sorted_unique_Ok in H end.
  by breflect.
Qed.
End validated.

(** ** The body policy *)

Lemma assoc_get_elem {A} (l : list (string * A)) k v : assoc_get l k = Some v → k ∈ map fst l.
Proof.
  induction l as [|[k' v'] l IH]; simpl; [done|]. destruct (String.eqb_spec k' k) as [->|]; [by left|]. right. auto.
Qed.

(** The fields a policy lets through: listed, or to be dropped with a value the
    rule accepts. *)
Definition field_passes `{JsonText} (policy : BodyPolicy) (entry : string * str) : Prop :=
  entry.1 ∈ policy.(bp_allow) ∨
  ∃ rule, assoc_get policy.(bp_ignore) entry.1 = Some rule ∧
    match rule with
    | None => True
    | Some accepted => ∃ v, from_slice entry.2 = Some v ∧ existsb (λ c, json_eqb c v) accepted = true
    end.

Section body_policy.
Context `{JT : JsonText, RJ : RawJson}.

Lemma disposition_spec i policy field value :
  policy_ok policy →
  field_disposition_for_policy i policy field value
  = if bool_decide (field ∈ policy.(bp_allow)) then Ok FieldAllow
    else match assoc_get policy.(bp_ignore) field with
         | Some rule =>
             if is_some_and rule (λ accepted, is_none_or value (λ v, negb (existsb (λ c, json_eqb c v) accepted)))
             then Err (field_error i LocBody UnsupportedValue field) else Ok FieldIgnore
         | None => Err (field_error i LocBody UnsupportedField field)
         end.
Proof.
  intros [Ha Hr Hu _ _]. unfold field_disposition_for_policy. rewrite contains_sorted_elem, Hu by done.
  repeat case_match; done.
Qed.

(** One field: passed on, dropped, or the error. *)
Lemma classify_field_spec i policy ignored entry :
  policy_ok policy →
  match classify_field i policy ignored entry with
  | Ok ignored' => field_passes policy entry
      ∧ ignored' = if bool_decide (entry.1 ∈ policy.(bp_allow)) then ignored else ignored ++ [entry.1]
  | Err e => ¬ field_passes policy entry
      ∧ (e = invalid_body i ∨ ∃ failure, failure ≠ InvalidBody ∧ e = field_error i LocBody failure entry.1)
  end.
Proof.
  intros Hp. unfold classify_field, field_passes.
  assert (∀ rule, assoc_get (bp_ignore policy) entry.1 = Some rule → entry.1 ∉ bp_allow policy) as Hd.
  { intros rule Hr. apply (actions_disjoint _ Hp). by eapply assoc_get_elem. }
  destruct (assoc_get (bp_ignore policy) entry.1) as [rule|] eqn:Er.
  - specialize (Hd rule eq_refl). destruct rule as [accepted|].
    + destruct (from_slice entry.2) as [v|] eqn:Ev; simpl; [|split; [naive_solver|by left]].
      rewrite disposition_spec, bool_decide_eq_false_2, Er by done. simpl.
      destruct (existsb _ accepted) eqn:Ex; simpl; [|split; [naive_solver congruence|right; by eexists UnsupportedValue]].
      split; [naive_solver|done].
    + simpl. rewrite disposition_spec, bool_decide_eq_false_2, Er by done. simpl. split; [naive_solver|done].
  - simpl. rewrite disposition_spec, Er by done. case_bool_decide; simpl; [naive_solver|].
    split; [naive_solver|right; by eexists UnsupportedField].
Qed.

Definition dropped_fields (policy : BodyPolicy) (fields : list (string * str)) : list string :=
  List.filter (λ k, negb (bool_decide (k ∈ policy.(bp_allow)))) (map fst fields).

Lemma classify_fields_spec i policy fields ignored :
  policy_ok policy →
  match try_fold (classify_field i policy) ignored fields with
  | Ok ignored' => Forall (field_passes policy) fields ∧ ignored' = ignored ++ dropped_fields policy fields
  | Err e => ∃ entry, entry ∈ fields ∧ ¬ field_passes policy entry
      ∧ (e = invalid_body i ∨ ∃ failure, failure ≠ InvalidBody ∧ e = field_error i LocBody failure entry.1)
  end.
Proof.
  intros Hp. revert ignored. induction fields as [|entry fields IH]; intros ignored; simpl; [by rewrite app_nil_r|].
  pose proof (classify_field_spec i policy ignored entry Hp) as Hc.
  destruct (classify_field i policy ignored entry) as [ignored1|e]; simpl.
  - destruct Hc as [Hf ->]. specialize (IH (if bool_decide (entry.1 ∈ bp_allow policy) then ignored else ignored ++ [entry.1])).
    destruct (try_fold _ _ fields); [|destruct IH as (e' & ? & ?); exists e'; split; [by right|done]].
    destruct IH as [H1 ->]. split; [by constructor|]. unfold dropped_fields. simpl. case_bool_decide; simpl; [done|by rewrite <-app_assoc].
  - exists entry. split; [by left|done].
Qed.

Lemma map_delete_list object ks k :
  map_get (foldl map_delete object ks) k = if bool_decide (k ∈ ks) then None else map_get object k.
Proof.
  revert object. induction ks as [|k' ks IH]; intros object; simpl; [done|]. rewrite IH.
  destruct (decide (k = k')) as [->|Hne].
  - rewrite (bool_decide_eq_true_2 (k' ∈ k' :: ks)) by left. case_bool_decide; [done|]. apply map_get_delete.
  - rewrite map_get_delete_ne by done. by rewrite (bool_decide_ext (k ∈ k' :: ks) (k ∈ ks)) by (rewrite elem_of_cons; naive_solver).
Qed.
End body_policy.

(** The two readings of an object agree on its members. *)
Class RawJsonLaws `{JsonText, RawJson} : Prop := {
  raw_members : ∀ b fields v, raw_fields b = Some fields → from_slice b = Some v →
    ∃ object, v = JObject object ∧ ∀ k, is_Some (map_get object k) ↔ k ∈ map fst fields;
}.

Section policy_claims.
Context `{HT : HeaderText, JT : JsonText, RJ : RawJson} {RLaws : RawJsonLaws}.

(** C26: With a validated contract every interface has a policy, and a request
    body is accepted exactly when each of its fields is listed or has an
    accepted value to drop; what is forwarded is the client's bytes when nothing
    is dropped, and otherwise a document with exactly the listed members; a
    refused body is reported with one of its refused fields. *)
Theorem client_body_policy_exact c i body (Hc : validate_contract c = Ok tt) :
  ∃ policy r, body_policy c i = Some policy ∧ "model" ∈ policy.(bp_allow)
  ∧ apply_json_body_policy c i body = Some r ∧
  match raw_fields body, r with
  | None, _ => r = Err (invalid_body i)
  | Some fields, Ok a => Forall (field_passes policy) fields ∧
      if a.(applied_changed) then
        ∃ object object', from_slice body = Some (JObject object) ∧ a.(applied_body) = to_vec (JObject object')
        ∧ ∀ k, map_get object' k = if bool_decide (k ∈ policy.(bp_allow)) then map_get object k else None
      else a.(applied_body) = body ∧ ∀ k, k ∈ map fst fields → k ∈ policy.(bp_allow)
  | Some fields, Err e =>
      (∃ entry, entry ∈ fields ∧ ¬ field_passes policy entry
         ∧ (e = invalid_body i ∨ ∃ failure, failure ≠ InvalidBody ∧ e = field_error i LocBody failure entry.1))
      ∨ (e = invalid_body i ∧ from_slice body = None)
  end.
Proof.
  destruct (validate_contract_interfaces c i Hc) as (policy & Hp & Hok). exists policy. unfold apply_json_body_policy.
  rewrite Hp. simpl. eexists. split_and!; [done|apply Hok|done|]. unfold apply_body_policy.
  destruct (raw_fields body) as [fields|] eqn:Ef; simpl; [|done].
  pose proof (classify_fields_spec i policy fields [] Hok) as Hcl.
  destruct (try_fold _ _ fields) as [ignored|e]; simpl; [|by left]. destruct Hcl as [Hall ->]. simpl.
  assert (Hdrop : ∀ k, k ∈ dropped_fields policy fields ↔ k ∈ map fst fields ∧ k ∉ bp_allow policy).
  { intros k. unfold dropped_fields. rewrite list_elem_of_In, List.filter_In, <-list_elem_of_In, negb_true_iff, bool_decide_eq_false. done. }
  destruct (dropped_fields policy fields) as [|d ds] eqn:Ed.
  - split; [done|]. simpl. split; [done|]. intros k Hk. destruct (decide (k ∈ bp_allow policy)) as [|Hn]; [done|].
    pose proof (proj2 (Hdrop k) (conj Hk Hn)) as Hx. by apply elem_of_nil in Hx.
  - destruct (from_slice body) as [v|] eqn:Ev; simpl; [|by right].
    destruct (raw_members body fields v Ef Ev) as (object & -> & Hm). simpl. split; [done|].
    exists object, (foldl map_delete object (d :: ds)). split_and!; [done|done|]. intros k. rewrite map_delete_list.
    case_bool_decide as Hk; [apply Hdrop in Hk as [_ Hn]; by rewrite bool_decide_eq_false_2|].
    case_bool_decide as Ha; [done|]. destruct (map_get object k) eqn:Eg; [|done].
    exfalso. apply Hk, Hdrop. split; [|done]. apply Hm. by rewrite Eg.
Qed.
End policy_claims.

(** ** The header policies *)

Section header_claims.
Context `{HT : HeaderText, HL : HeaderLib} {HLaws : HeaderLaws}.
Implicit Types (h : HeaderMap) (c : RequestPolicyContract).

(** Whether the filter passes a client header on. *)
Definition header_kept c h (n : string) : bool :=
  client_header_allowed c n || (existsb (String.eqb n) (policy_connection_names h) || String.eqb n "connection").

Lemma header_action_validated c n :
  validate_contract c = Ok tt → header_action c.(client_headers) n ≠ ActReject.
Proof. intros (_ & _ & Hu)%validate_contract_headers. unfold header_action. rewrite Hu. repeat case_match; done. Qed.

Lemma filter_entries_spec c i names entries acc :
  validate_contract c = Ok tt →
  let kept n := client_header_allowed c n || (existsb (String.eqb n) names || String.eqb n "connection") in
  ∃ h', try_fold (filter_header i c.(client_headers) names) acc entries = Ok h'
  ∧ ∀ n, get_all h' n = get_all acc n ++ (if kept n then map snd (List.filter (λ e, String.eqb e.1 n) entries) else []).
Proof.
  intros Hc kept. revert acc. induction entries as [|[name value] entries IH]; intros acc; cbn [try_fold List.filter fst].
  { exists acc. split; [done|]. intros n. destruct (kept n); by rewrite app_nil_r. }
  assert (∃ acc', filter_header i (client_headers c) names acc (name, value) = Ok acc'
     ∧ ∀ n, get_all acc' n = get_all acc n ++ (if kept name && String.eqb name n then [value] else [])) as (acc' & -> & Ha).
  { unfold filter_header. pose proof (header_action_validated c name Hc) as Hr. unfold kept, client_header_allowed.
    destruct (header_action (client_headers c) name) eqn:Ea; [| |done].
    - eexists. split; [done|]. intros n. rewrite get_all_append. simpl. destruct (String.eqb name n); by rewrite ?app_nil_r.
    - simpl. destruct (_ || _); eexists; (split; [done|]); intros n; simpl; [rewrite get_all_append; destruct (String.eqb name n)|]; by rewrite ?app_nil_r. }
  cbn [result_bind]. destruct (IH acc') as (h' & -> & Hh). exists h'. split; [done|]. intros n. rewrite Hh, Ha, <-app_assoc.
  destruct (String.eqb_spec name n) as [->|]; [|by rewrite andb_false_r]. rewrite andb_true_r. by destruct (kept n).
Qed.

Lemma filter_client_headers_spec c i h :
  validate_contract c = Ok tt →
  ∃ h', filter_client_headers c i h = Ok h' ∧ ∀ n, get_all h' n = if header_kept c h n then get_all h n else [].
Proof.
  intros Hc. destruct (filter_entries_spec c i (policy_connection_names h) (headers_iter h) headers_new Hc) as (h' & Hf & Hh).
  exists h'. split; [done|]. intros n. by rewrite Hh, get_all_new, iter_values.
Qed.

(** Whether the last step before the upstream removes a header. *)
Definition header_sanitized c h (n : string) : bool :=
  (negb (String.eqb n "cookie") && connector_header_is_forbidden c n)
  || (negb (String.eqb n "authorization") && existsb (String.eqb n) (policy_connection_names h)).

Lemma sanitize_spec c h n :
  get_all (sanitize_outbound_request_headers c h) n = if header_sanitized c h n then [] else get_all h n.
Proof.
  unfold sanitize_outbound_request_headers. rewrite get_all_remove_list.
  destruct (existsb (String.eqb n) _) eqn:E.
  - apply existsb_eqb_elem, list_elem_of_In, List.filter_In in E as [_ E]. fold (header_sanitized c h n) in E. by rewrite E.
  - destruct (header_sanitized c h n) eqn:Es; [|done]. destruct (get_all h n) eqn:Eg; [done|].
    exfalso. apply not_true_iff_false in E. apply E, existsb_eqb_elem, list_elem_of_In, List.filter_In.
    split; [|exact Es]. apply list_elem_of_In, keys_values. by rewrite Eg.
Qed.
End header_claims.
