(* ===== verification/Outbound.v ===== *)
(** * The request the upstream receives

    Models the preparation of one HTTP attempt in [src/application/proxy.rs]
    with the connectors of [src/application/connector.rs] and the credentials of
    [src/domain/upstream_credential.rs]: a client's headers and JSON body pass
    the request policy, the transforms of the channel, the connector and the
    host's clean-up.  The theorems say which headers and which model reach the
    upstream.  A loaded connector plugin is code outside the repository: what it
    returns is an argument. *)

From S2P Require Import Prelude Text Domain Json Usage Headers JsonPatch Plans Transform Envelope RequestPolicy.
Open Scope gateway_scope.

(** ** Credentials *)

Inductive UpstreamAuth := AuthNone | AuthBearer (token : string) | AuthHeader (name value : string).

Inductive UpstreamCredentialError :=
| InvalidAuth | MissingHeader | InvalidHeader | UnsafeHeader | MissingSecret | BlankSecret | InvalidSecret.

Definition unsafe_auth_names : list string :=
  ["authorization"; "host"; "content-length"; "content-encoding"; "connection"; "transfer-encoding"; "accept-encoding";
   "proxy-authorization"; "proxy-authenticate"; "keep-alive"; "te"; "trailer"; "upgrade"; "proxy-connection"].

Definition is_none {A} (o : option A) : bool := match o with None => true | Some _ => false end.

Section credentials.
Context `{HeaderText}.

Definition compile_secret (value : option string) : result string UpstreamCredentialError :=
  value <-! ok_or value MissingSecret;
  match trim (bytes_of value) with
  | [] => Err BlankSecret
  | _ => _ <-! ok_or (header_value value) InvalidSecret; Ok value
  end.

Definition compile_auth (contract : RequestPolicyContract) (kind : string) (auth_name secret : option string)
    : result UpstreamAuth UpstreamCredentialError :=
  if String.eqb kind "none" && is_none auth_name && is_none secret then Ok AuthNone
  else if String.eqb kind "bearer" && is_none auth_name then token <-! compile_secret secret; Ok (AuthBearer token)
  else if String.eqb kind "header" then
    name <-! ok_or auth_name MissingHeader;
    name <-! ok_or (header_name (bytes_of name)) InvalidHeader;
    if existsb (String.eqb name) unsafe_auth_names || starts_with (bytes_of "sec-websocket-") (bytes_of name)
       || client_header_explicitly_ignored contract name
    then Err UnsafeHeader
    else value <-! compile_secret secret; Ok (AuthHeader name value)
  else Err InvalidAuth.
End credentials.

(** ** Connectors *)

Inductive ConnectorAttemptError := InvalidCredentials | InvalidTarget.

(** The built-in connector, or a plugin with what its calls return: the header
    plan and the adapted body, or an error. *)
Inductive PreparedConnectorAttempt :=
| OpenAiCompatibleAttempt
| ExternalAttempt (header_call : option Json) (body_call : str → option str).

Section headers.
Context `{HeaderText, HeaderLib}.
Implicit Types headers : HeaderMap.

Definition inject_standard_auth (auth : UpstreamAuth) headers : result HeaderMap ConnectorAttemptError :=
  match auth with
  | AuthNone => Ok headers
  | AuthBearer token =>
      value <-! ok_or (header_value ("Bearer " +:+ token)) InvalidCredentials;
      Ok (headers_insert headers "authorization" value)
  | AuthHeader name value =>
      value <-! ok_or (header_value value) InvalidCredentials; Ok (headers_insert headers name value)
  end.

Definition plugin_remove headers (name : Json) : result HeaderMap ConnectorAttemptError :=
  name <-! ok_or (as_str name) InvalidCredentials;
  name <-! ok_or (header_name (bytes_of name)) InvalidCredentials;
  Ok (headers_remove headers name).

(** The names set so far and the headers. *)
Definition plugin_set (contract : RequestPolicyContract) (st : list string * HeaderMap) (entry : string * Json)
    : result (list string * HeaderMap) ConnectorAttemptError :=
  let '(names, headers) := st in
  name <-! ok_or (header_name (bytes_of entry.1)) InvalidCredentials;
  names <-! ok_or (insert_new name names) InvalidCredentials;
  if connector_header_is_forbidden contract name then Err InvalidCredentials
  else
    text <-! ok_or (as_str entry.2) InvalidCredentials;
    value <-! ok_or (header_value text) InvalidCredentials;
    Ok (names, headers_insert headers name value).

(** A failed call leaves the headers unchanged; [plan["remove"]] of a value
    that is not an object is null. *)
Definition apply_plugin_headers (contract : RequestPolicyContract) headers (plan : Json)
    : result HeaderMap ConnectorAttemptError :=
  remove <-! ok_or (value_get plan "remove" ≫= as_array) InvalidCredentials;
  set <-! ok_or (value_get plan "set" ≫= as_object) InvalidCredentials;
  updated <-! try_fold plugin_remove headers remove;
  st <-! try_fold (plugin_set contract) ([], updated) set;
  Ok st.2.

Definition inject_headers (contract : RequestPolicyContract) (attempt : PreparedConnectorAttempt) (auth : UpstreamAuth)
    headers : result HeaderMap ConnectorAttemptError :=
  match attempt with
  | OpenAiCompatibleAttempt => inject_standard_auth auth headers
  | ExternalAttempt header_call _ =>
      plan <-! ok_or header_call InvalidCredentials;
      headers <-! apply_plugin_headers contract headers plan;
      inject_standard_auth auth (headers_remove headers "authorization")
  end.

(** ** Forwarding *)

Definition forward_skips (contract : RequestPolicyContract) (request : bool) (connection_names : list string)
    (name : string) : bool :=
  existsb (String.eqb name) connection_names || header_is_hop_by_hop name
  || (request && (existsb (String.eqb name)
                    ["host"; "content-length"; "authorization"; "proxy-authorization"; "accept-encoding"]
                  || client_header_explicitly_ignored contract name)).

Definition forward_headers (contract : RequestPolicyContract) headers (request : bool) : HeaderMap :=
  let connection_names := connection_header_names headers in
  foldl (λ forwarded entry,
    if forward_skips contract request connection_names entry.1 then forwarded
    else headers_append forwarded entry.1 entry.2) headers_new (headers_iter headers).

Definition rewritten_entity_names : list string :=
  ["content-encoding"; "content-md5"; "digest"; "content-digest"; "repr-digest"; "etag"; "last-modified"].
Definition remove_rewritten_request_entity_headers headers : HeaderMap :=
  foldl headers_remove headers rewritten_entity_names.

Definition UPSTREAM_ACCEPT_ENCODING : string := "gzip, deflate, br, zstd".

Inductive OutboundError :=
| PolicyRefused (e : RequestPolicyError) | TransformFailed (e : TransformApplyError)
| ConnectorFailed (e : ConnectorAttemptError) | RewriteFailed.

Definition lift_error {A E F} (f : E → F) (r : result A E) : result A F :=
  match r with Ok a => Ok a | Err e => Err (f e) end.

(** The headers of an attempt; [body_changed] and [encoded] say what happened
    to the body. *)
Definition outbound_headers (contract : RequestPolicyContract) (i : RequestInterface) (plan : TransformPlan)
    (attempt : PreparedConnectorAttempt) (auth : UpstreamAuth) (body_changed encoded : bool) headers
    : result HeaderMap OutboundError :=
  client_headers <-! lift_error PolicyRefused (filter_client_headers contract i headers);
  let headers := if body_changed then remove_rewritten_request_entity_headers client_headers else client_headers in
  headers <-! match apply_header_plan headers plan.(request_headers) with
              | (headers, Ok _) => Ok headers
              | (_, Err e) => Err (TransformFailed e)
              end;
  headers <-! lift_error ConnectorFailed (inject_headers contract attempt auth (forward_headers contract headers true));
  let headers := sanitize_outbound_request_headers contract headers in
  let headers := if encoded
    then headers_insert (headers_insert headers "content-encoding" (bytes_of "zstd")) "content-type" (bytes_of "application/json")
    else headers_remove headers "content-encoding" in
  Ok (headers_insert headers "accept-encoding"
        (bytes_of (match get_all headers "range" with [] => UPSTREAM_ACCEPT_ENCODING | _ => "identity" end))).
End headers.

(** ** Bodies *)

Section bodies.
Context `{JsonText, RawJson, PatchLib}.

(** [PreparedRequestBody::rewrite_model] of a JSON body. *)
Definition rewrite_model (body : str) (client_model upstream_model : string) : result str OutboundError :=
  if String.eqb client_model upstream_model then Ok body
  else
    value <-! ok_or (from_slice body) RewriteFailed;
    object <-! ok_or (as_object value) RewriteFailed;
    Ok (to_vec (JObject (map_insert object "model" (JString upstream_model)))).

Definition option_json_eqb (a b : option Json) : bool :=
  match a, b with Some x, Some y => json_eqb x y | None, None => true | _, _ => false end.

Definition validate_plugin_body (before after : str) : result unit ConnectorAttemptError :=
  before <-! ok_or (from_slice before) InvalidTarget;
  after <-! ok_or (from_slice after) InvalidTarget;
  if negb (is_object after) || negb (option_json_eqb (value_get before "model") (value_get after "model"))
     || negb (option_json_eqb (value_get before "service_tier") (value_get after "service_tier"))
  then Err InvalidTarget else Ok tt.

Definition adapt_json_body (attempt : PreparedConnectorAttempt) (body : str) : result str ConnectorAttemptError :=
  match attempt with
  | OpenAiCompatibleAttempt => Ok body
  | ExternalAttempt _ body_call =>
      output <-! ok_or (body_call body) InvalidTarget;
      _ <-! validate_plugin_body body output;
      Ok output
  end.

(** A client's JSON body up to the compression of the attempt; [None] is the
    panic of an interface the contract does not have. *)
Definition outbound_body (contract : RequestPolicyContract) (i : RequestInterface) (filter_fast_mode : bool)
    (plan : TransformPlan) (attempt : PreparedConnectorAttempt) (client_model upstream_model : string) (body : str)
    : option (result str OutboundError) :=
  policed ← apply_json_body_policy contract i body;
  Some (policed <-! lift_error PolicyRefused policed;
        filtered <-! lift_error PolicyRefused (apply_client_fast_mode_filter i policed.(applied_body) filter_fast_mode);
        body <-! rewrite_model filtered.(applied_body) client_model upstream_model;
        body <-! lift_error TransformFailed (apply_json_patch_plan body plan.(request_json));
        lift_error ConnectorFailed (adapt_json_body attempt body)).
End bodies.

(** ** Names in a Connection header *)

Lemma visible_range c : visible c = true → byte c = 9 ∨ 32 ≤ byte c < 127.
Proof. unfold visible. intros [?|?]%orb_true_iff; breflect; lia. Qed.

Lemma find_whitespace (m : list Z → bool) (c : Ascii.ascii) :
  visible c = true → (∀ z, m [z] = (byte c =? z)) → (∀ z z' e, m (z :: z' :: e) = true → byte c = z ∨ byte c = List.last (z' :: e) 0) →
  match List.find m whitespace_encodings with Some e => length e | None => 0%nat end
  = if is_ascii_whitespace c then 1%nat else 0%nat.
Proof.
  intros Hc%visible_range H1 H2. unfold whitespace_encodings, is_ascii_whitespace. cbn [List.find].
  rewrite !H1.
  assert (∀ z z' e, 128 ≤ z → 128 ≤ List.last (z' :: e) 0 → m (z :: z' :: e) = false) as H3.
  { intros z z' e Hz Hl. destruct (m _) eqn:E; [|done]. apply H2 in E. lia. }
  rewrite !H3 by (simpl; lia).
  destruct (decide (byte c = 9)) as [->|]; [done|]. destruct (decide (byte c = 32)) as [->|]; [done|].
  repeat match goal with |- context [byte c =? ?z] => rewrite (proj2 (Z.eqb_neq (byte c) z)) by lia end. done.
Qed.

Lemma leading_visible c s :
  visible c = true → leading_whitespace (c :: s) = if is_ascii_whitespace c then 1%nat else 0%nat.
Proof.
  intros Hc. unfold leading_whitespace. apply find_whitespace; [done| |].
  - intros z. simpl. by rewrite andb_true_r.
  - intros z z' e. simpl. intros [H _]%andb_true_iff. breflect. by left.
Qed.

Lemma trailing_visible c s :
  visible c = true → trailing_whitespace (s ++ [c]) = if is_ascii_whitespace c then 1%nat else 0%nat.
Proof.
  intros Hc. unfold trailing_whitespace. apply (find_whitespace (λ e, bytes_match (rev e) (rev (s ++ [c])))); [done| |].
  - intros z. rewrite rev_app_distr. simpl. by rewrite andb_true_r.
  - intros z z' e. rewrite rev_app_distr. destruct (exists_last (l := z' :: e)) as (l & x & E); [done|].
    rewrite E. change (z :: l ++ [x]) with ((z :: l) ++ [x]). rewrite rev_app_distr. simpl.
    intros [H _]%andb_true_iff. breflect. right. by rewrite List.last_last.
Qed.

Lemma trim_start_visible fuel s :
  (length s ≤ fuel)%nat → forallb visible s = true → trim_start_fuel fuel s = skip_whitespace s.
Proof.
  revert s. induction fuel as [|fuel IH]; intros [|c s] Hl Hv; try done; [simpl in Hl; lia|].
  apply andb_true_iff in Hv as [Hc Hv]. cbn [trim_start_fuel skip_whitespace]. rewrite leading_visible by done.
  destruct (is_ascii_whitespace c); [|done]. apply IH; [simpl in Hl; lia|done].
Qed.

Lemma trim_end_visible fuel s :
  (length s ≤ fuel)%nat → forallb visible s = true → trim_end_fuel fuel s = rev (skip_whitespace (rev s)).
Proof.
  revert s. induction fuel as [|fuel IH]; intros s Hl Hv; [by destruct s; [|simpl in Hl; lia]|].
  destruct s as [|c s _] using rev_ind; [done|]. rewrite forallb_app in Hv. apply andb_true_iff in Hv as [Hv Hc].
  simpl in Hc. rewrite andb_true_r in Hc. cbn [trim_end_fuel]. rewrite trailing_visible, rev_app_distr by done.
  cbn [rev app skip_whitespace]. destruct (is_ascii_whitespace c).
  - rewrite length_app. simpl length. replace (length s + 1 - 1)%nat with (length s) by lia. rewrite take_app_length.
    rewrite length_app in Hl. simpl in Hl. apply IH; [lia|done].
  - simpl. by rewrite rev_involutive.
Qed.

Lemma skip_whitespace_visible s : forallb visible s = true → forallb visible (skip_whitespace s) = true.
Proof.
  induction s as [|c s IH]; simpl; [done|]. intros [Hc Hs]%andb_true_iff.
  destruct (is_ascii_whitespace c); [auto|simpl; by rewrite Hc].
Qed.

(** On visible text the two ways of trimming agree, unless nothing is left. *)
Lemma trim_visible s : forallb visible s = true → trim s = [] ∨ trim s = trim_ascii_bytes s.
Proof.
  intros Hv. unfold trim, trim_start, trim_end. rewrite trim_start_visible by done.
  rewrite trim_end_visible by (done || by apply skip_whitespace_visible).
  unfold trim_ascii_bytes. destruct (skip_whitespace s); [by left|by right].
Qed.

Lemma split_on_forallb (p : Ascii.ascii → bool) sep s piece :
  forallb p s = true → piece ∈ split_on sep s → forallb p piece = true.
Proof.
  revert piece. induction s as [|c s IH]; simpl; intros piece.
  - intros _ ->%list_elem_of_singleton. done.
  - intros [Hc Hs]%andb_true_iff. destruct (Ascii.eqb c sep).
    + intros [->|Hp]%elem_of_cons; [done|auto].
    + destruct (split_on sep s) as [|w ws]; [intros ->%list_elem_of_singleton; simpl; by rewrite Hc|].
      intros [->|Hp]%elem_of_cons; [simpl; rewrite Hc; apply IH; [done|by left]|apply IH; [done|by right]].
Qed.

Section connection.
Context `{HT : HeaderText, HL : HeaderLib} {TLaws : HeaderTextLaws}.

(** Every name the request policy reads in a Connection header is read by the
    transforms and the forwarding too. *)
Lemma policy_names_forwarded h n : n ∈ policy_connection_names h → n ∈ connection_header_names h.
Proof.
  unfold policy_connection_names, connection_header_names. rewrite !list_elem_of_In, !in_flat_map.
  intros (value & Hv & Hn). exists value. split; [done|]. rewrite <-list_elem_of_In in *.
  destruct (header_to_str value) as [text|] eqn:Et; [|by apply elem_of_nil in Hn].
  apply header_to_str_visible in Et as [Ht Hvis]. rewrite Ht in Hn.
  apply list_elem_of_omap in Hn as (piece & Hp & Hname). apply list_elem_of_omap. exists piece. split; [done|].
  destruct (trim_visible piece) as [E|<-]; [by eapply split_on_forallb| |done].
  rewrite E, header_name_empty in Hname. done.
Qed.
End connection.

(** ** The steps of the header pipeline *)

Section steps.
Context `{HT : HeaderText, HL : HeaderLib} {HLaws : HeaderLaws}.
Implicit Types (h : HeaderMap) (c : RequestPolicyContract).

Lemma forward_fold_spec (skips : string → bool) entries acc n :
  get_all (foldl (λ f e, if skips e.1 then f else headers_append f e.1 e.2) acc entries) n
  = get_all acc n ++ (if skips n then [] else map snd (List.filter (λ e, String.eqb e.1 n) entries)).
Proof.
  revert acc. induction entries as [|[k v] entries IH]; intros acc; simpl; [by destruct (skips n); rewrite app_nil_r|].
  rewrite IH. destruct (String.eqb_spec k n) as [->|Hne].
  - destruct (skips n); simpl; [done|]. by rewrite get_all_append, String.eqb_refl, <-app_assoc.
  - destruct (skips k); simpl; [done|]. by rewrite get_all_append, (proj2 (String.eqb_neq _ _) Hne).
Qed.

Lemma forward_headers_spec c h request n :
  get_all (forward_headers c h request) n
  = if forward_skips c request (connection_header_names h) n then [] else get_all h n.
Proof.
  unfold forward_headers. rewrite (forward_fold_spec (forward_skips c request (connection_header_names h))).
  by rewrite get_all_new, iter_values.
Qed.

(** The header a credential sets. *)
Definition auth_value (auth : UpstreamAuth) (n : string) : option str :=
  match auth with
  | AuthNone => None
  | AuthBearer token => if String.eqb "authorization" n then header_value ("Bearer " +:+ token) else None
  | AuthHeader name value => if String.eqb name n then header_value value else None
  end.

Lemma inject_standard_auth_spec auth h h' n :
  inject_standard_auth auth h = Ok h' → get_all h' n = match auth_value auth n with Some v => [v] | None => get_all h n end.
Proof.
  unfold inject_standard_auth, auth_value. destruct auth as [|token|name value]; intros; inv_ok; subst; [done| |];
    rewrite get_all_insert; (destruct (String.eqb _ n); [|done]);
    by match goal with H : header_value _ = Some _ |- _ => rewrite H end.
Qed.

(** A plugin can only empty or keep a header it may not set. *)
Lemma plugin_headers_spec c h plan h' n :
  apply_plugin_headers c h plan = Ok h' → connector_header_is_forbidden c n = true →
  get_all h' n = get_all h n ∨ get_all h' n = [].
Proof.
  unfold apply_plugin_headers. intros H Hn. inv_ok. subst h'.
  match goal with H : try_fold plugin_remove h _ = Ok ?x |- _ => rename H into Hr; rename x into u end.
  match goal with H : try_fold (plugin_set c) _ _ = Ok _ |- _ => rename H into Hs end.
  assert (get_all u n = get_all h n ∨ get_all u n = []) as Hu.
  { eapply (try_fold_inv (λ m, get_all m n = get_all h n ∨ get_all m n = [])); [|by left|exact Hr].
    intros m a m' Hm. unfold plugin_remove. intros. inv_ok. subst m'. rewrite get_all_remove. destruct (String.eqb _ n); auto. }
  refine (try_fold_inv (λ st, get_all st.2 n = get_all h n ∨ get_all st.2 n = []) (plugin_set c) ([], u) _ _ _ Hu Hs).
  intros [names m] a st' Hm. unfold plugin_set. intros. inv_ok. subst st'. simpl in *. rewrite get_all_insert.
  match goal with |- context [String.eqb ?k n] => destruct (String.eqb_spec k n) as [->|]; [congruence|done] end.
Qed.

(** What the connector leaves of a header nobody may set: nothing it was not
    given, unless it is the credential. *)
Lemma inject_headers_spec c attempt auth h h' n :
  inject_headers c attempt auth h = Ok h' →
  (connector_header_is_forbidden c n = true ∨ n = "authorization") → get_all h n = [] →
  get_all h' n = match auth_value auth n with Some v => [v] | None => [] end.
Proof.
  destruct attempt as [|header_call body_call]; simpl; intros H Hn Hh.
  - by rewrite (inject_standard_auth_spec _ _ _ _ H), Hh.
  - inv_ok. rewrite (inject_standard_auth_spec _ _ _ _ H), get_all_remove.
    destruct (auth_value auth n); [done|]. destruct (String.eqb_spec "authorization" n) as [|Hne]; [done|].
    destruct Hn as [Hn| ->]; [|done].
    match goal with H : apply_plugin_headers _ _ _ = Ok _ |- _ => destruct (plugin_headers_spec _ _ _ _ n H Hn) as [->| ->] end; done.
Qed.

Lemma hop_by_hop_forbidden c n : header_is_hop_by_hop n = true → connector_header_is_forbidden c n = true.
Proof.
  intros Hn. unfold connector_header_is_forbidden, request_header_is_protected. rewrite Hn.
  destruct (String.eqb_spec n "authorization") as [->|]; [done|done].
Qed.

(** Credentials accepted for a channel name no reserved header. *)
Definition auth_ok c auth : Prop := ∃ kind name secret, compile_auth c kind name secret = Ok auth.

Lemma auth_ok_header c name value : auth_ok c (AuthHeader name value) →
  (name ∉ unsafe_auth_names) ∧ starts_with (bytes_of "sec-websocket-") (bytes_of name) = false
  ∧ client_header_explicitly_ignored c name = false.
Proof.
  intros (kind & on & os & H). unfold compile_auth in H.
  destruct (_ && is_none os); [done|]. destruct (_ && is_none on); [inv_ok; done|].
  destruct (String.eqb kind "header"); [|done]. inv_ok. simplify_eq.
  match goal with H : (_ || _) = false |- _ => apply orb_false_iff in H as [[Hu Hw]%orb_false_iff Hi] end.
  split_and!; [|done|done]. rewrite <-existsb_eqb_elem. congruence.
Qed.

Lemma auth_value_reserved c auth n :
  auth_ok c auth → n ∈ unsafe_auth_names ∨ client_header_explicitly_ignored c n = true
    ∨ starts_with (bytes_of "sec-websocket-") (bytes_of n) = true → n ≠ "authorization" → auth_value auth n = None.
Proof.
  intros Ha Hn Hne. unfold auth_value. destruct auth as [|token|name value]; [done| |].
  - by rewrite (proj2 (String.eqb_neq _ _) (not_eq_sym Hne)).
  - destruct (String.eqb_spec name n) as [->|]; [|done]. apply auth_ok_header in Ha as (H1 & H2 & H3).
    destruct Hn as [?|[?|?]]; [done|congruence|congruence].
Qed.

Lemma auth_value_authorization c auth : auth_ok c auth →
  auth_value auth "authorization" = match auth with AuthBearer token => header_value ("Bearer " +:+ token) | _ => None end.
Proof.
  intros Ha. unfold auth_value. destruct auth as [|token|name value]; [done|done|].
  destruct (String.eqb_spec name "authorization") as [->|]; [|done]. apply auth_ok_header in Ha as [H1 _]. by destruct H1; left.
Qed.
End steps.

(** ** The headers the upstream receives *)

Section outbound.
Context `{HT : HeaderText, HL : HeaderLib} {HLaws : HeaderLaws} {TLaws : HeaderTextLaws}.
Implicit Types (h : HeaderMap) (c : RequestPolicyContract).

Lemma remove_rewritten_spec h n :
  get_all (remove_rewritten_request_entity_headers h) n
  = if existsb (String.eqb n) rewritten_entity_names then [] else get_all h n.
Proof. apply get_all_remove_list. Qed.

(** The run as its intermediate headers: what the plan gets, what the connector
    gets and what it leaves. *)
Lemma outbound_steps c i plan attempt auth changed encoded h h' :
  validate_contract c = Ok tt → outbound_headers c i plan attempt auth changed encoded h = Ok h' →
  ∃ h1 h2 h3,
    get_all h1 "connection" = get_all h "connection"
    ∧ (∀ n, get_all h1 n ≠ [] → header_kept c h n = true)
    ∧ (∀ n, is_protected_header n RequestScope = true ∨ n ∈ connection_header_names h → get_all h2 n = get_all h1 n)
    ∧ inject_headers c attempt auth (forward_headers c h2 true) = Ok h3
    ∧ ∀ n, get_all h' n
        = if String.eqb "accept-encoding" n
          then [bytes_of (match get_all h' "range" with [] => UPSTREAM_ACCEPT_ENCODING | _ => "identity" end)]
          else if String.eqb "content-encoding" n then if encoded then [bytes_of "zstd"] else []
          else if encoded && String.eqb "content-type" n then [bytes_of "application/json"]
          else if header_sanitized c h3 n then [] else get_all h3 n.
Proof.
  intros Hc. unfold outbound_headers. destruct (filter_client_headers_spec c i h Hc) as (hf & -> & Hf). cbn [lift_error result_bind].
  set (h1 := if changed then remove_rewritten_request_entity_headers hf else hf).
  assert (Hh1 : ∀ n, get_all h1 n = if changed && existsb (String.eqb n) rewritten_entity_names then [] else get_all hf n).
  { intros n. subst h1. destruct changed; [apply remove_rewritten_spec|done]. }
  assert (Hconn : get_all h1 "connection" = get_all h "connection").
  { rewrite Hh1, Hf. unfold header_kept. rewrite String.eqb_refl, !orb_true_r. by destruct changed. }
  destruct (apply_header_plan h1 (request_headers plan)) as [h2 [u|e]] eqn:Ep; [|done]. cbn [result_bind].
  destruct (inject_headers c attempt auth (forward_headers c h2 true)) as [h3|e] eqn:Ei; [|done]. cbn [lift_error result_bind].
  intros [= <-]. exists h1, h2, h3. split_and!; [done| | |done|].
  - intros n. rewrite Hh1, Hf. by repeat case_match.
  - intros n Hn. pose proof (header_plan_keeps h1 (request_headers plan) RequestScope n) as Hk.
    unfold apply_header_plan in Ep. rewrite Ep in Hk. apply Hk. unfold connection_header_names in *. by rewrite Hconn.
  - intros n. rewrite !get_all_insert. destruct (String.eqb_spec "accept-encoding" n) as [<-|Hna]; [by destruct encoded|].
    destruct encoded; rewrite ?get_all_insert, ?get_all_remove, sanitize_spec.
    + destruct (String.eqb_spec "content-type" n) as [<-|]; [done|]. by destruct (String.eqb "content-encoding" n).
    + by destruct (String.eqb "content-encoding" n).
Qed.

Definition values_of (o : option str) : list str := match o with Some v => [v] | None => [] end.

(** Headers no upstream request carries. *)
Definition never_forwarded c (n : string) : bool :=
  header_is_hop_by_hop n || existsb (String.eqb n) ["host"; "content-length"]
  || starts_with (bytes_of "sec-websocket-") (bytes_of n)
  || (client_header_explicitly_ignored c n
      && negb (existsb (String.eqb n) ["cookie"; "accept-encoding"; "content-encoding"; "content-type"])).

Lemma never_forwarded_sanitized c n :
  client_header_explicitly_ignored c "authorization" = false → never_forwarded c n = true →
  connector_header_is_forbidden c n = true ∧ n ∉ ["cookie"; "accept-encoding"; "content-encoding"; "content-type"].
Proof.
  intros Ha Hn. split.
  - unfold connector_header_is_forbidden, request_header_is_protected. unfold never_forwarded in Hn.
    apply orb_true_iff in Hn as [[[Hn|Hn]%orb_true_iff|Hn]%orb_true_iff|[Hn _]%andb_true_iff].
    + apply existsb_eqb_elem in Hn. by in_list Hn.
    + apply existsb_eqb_elem in Hn. by in_list Hn.
    + by rewrite Hn, orb_true_r.
    + by rewrite Hn, orb_true_r.
  - intros Hin. unfold never_forwarded in Hn. rewrite (proj2 (existsb_eqb_elem n _) Hin), andb_false_r, orb_false_r in Hn.
    by in_list Hin.
Qed.

Lemma forward_hop_by_hop c h n : header_is_hop_by_hop n = true → get_all (forward_headers c h true) n = [].
Proof. intros Hn. rewrite forward_headers_spec. unfold forward_skips. by rewrite Hn, orb_true_r. Qed.

Lemma forward_authorization c h : get_all (forward_headers c h true) "authorization" = [].
Proof. rewrite forward_headers_spec. unfold forward_skips. by rewrite !orb_true_r. Qed.

(** No Connection header is left for the last clean-up. *)
Lemma injected_no_connection c attempt auth h2 h3 :
  auth_ok c auth → inject_headers c attempt auth (forward_headers c h2 true) = Ok h3 → policy_connection_names h3 = [].
Proof.
  intros Ha Hi. unfold policy_connection_names.
  rewrite (inject_headers_spec c attempt auth _ _ "connection" Hi).
  - rewrite (auth_value_reserved c auth "connection" Ha); [done|left|done]. apply existsb_eqb_elem. reflexivity.
  - left. by apply hop_by_hop_forbidden.
  - by apply forward_hop_by_hop.
Qed.

Lemma header_sanitized_plain c h n : policy_connection_names h = [] →
  header_sanitized c h n = negb (String.eqb n "cookie") && connector_header_is_forbidden c n.
Proof. intros E. unfold header_sanitized. rewrite E. by rewrite andb_false_r, orb_false_r. Qed.

End outbound.

(** ** The model the upstream receives *)

(** A printed object that is read back has its string members. *)
Class JsonReadBack `{JsonText} : Prop := {
  read_back_string : ∀ object w k s,
    from_slice (to_vec (JObject object)) = Some w → map_get object k = Some (JString s) → value_get w k = Some (JString s);
}.

Section model.
Context `{HT : HeaderText, JT : JsonText, RJ : RawJson, PL : PatchLib} {PLaws : PatchLaws} {RB : JsonReadBack}.

(** Whoever reads the body finds this model. *)
Definition reads_model (body : str) (model : string) : Prop :=
  ∀ w, from_slice body = Some w → value_get w "model" = Some (JString model).

Lemma printed_model object model : map_get object "model" = Some (JString model) → reads_model (to_vec (JObject object)) model.
Proof. intros Hm w Hw. by eapply read_back_string. Qed.

Lemma policy_keeps_model i policy body a model :
  policy_ok policy → apply_body_policy i policy body = Ok a → reads_model body model → reads_model a.(applied_body) model.
Proof.
  intros Hp Ha Hm. unfold apply_body_policy in Ha. inv_ok.
  match goal with H : raw_fields body = Some ?f, H' : try_fold _ _ ?f = Ok ?ig |- _ =>
    pose proof (classify_fields_spec i policy f [] Hp) as Hc; rewrite H' in Hc; destruct Hc as [_ ->] end.
  simpl in Ha. destruct (dropped_fields policy x) as [|d ds] eqn:Ed; inv_ok; subst a; [done|].
  match goal with H : from_slice body = Some ?v |- _ => pose proof (Hm v H) as Hv; destruct v; simplify_eq/= end.
  apply printed_model. match goal with |- context [map_delete ?o d] =>
    change (foldl map_delete (map_delete o d) ds) with (foldl map_delete o (d :: ds)) end.
  rewrite map_delete_list, bool_decide_eq_false_2; [done|]. rewrite <-Ed. unfold dropped_fields. rewrite list_elem_of_In, List.filter_In, negb_true_iff, bool_decide_eq_false.
  intros [_ Hn]. apply Hn, Hp.
Qed.

Lemma fast_mode_keeps_model i body enabled a model :
  apply_client_fast_mode_filter i body enabled = Ok a → reads_model body model → reads_model a.(applied_body) model.
Proof.
  unfold apply_client_fast_mode_filter. destruct enabled; simpl; intros Ha Hm; inv_ok; [|by subst a].
  match goal with H : from_slice body = Some ?v |- _ => pose proof (Hm v H) as Hv; destruct v; simplify_eq/= end.
  destruct (map_get _ "service_tier"); inv_ok; subst a; [|done]. apply printed_model. by rewrite map_get_delete_ne.
Qed.

Lemma rewrite_sets_model body client upstream body' :
  rewrite_model body client upstream = Ok body' → reads_model body client → reads_model body' upstream.
Proof.
  unfold rewrite_model. destruct (String.eqb_spec client upstream) as [->|]; intros; inv_ok; subst; [done|].
  apply printed_model, map_get_insert.
Qed.

Lemma patch_keeps_model plan body body' model :
  json_plan_ok ScopeRequest plan → apply_json_patch_plan body plan = Ok body' → reads_model body model → reads_model body' model.
Proof.
  intros Hok Ha Hm. unfold apply_json_patch_plan in Ha. destruct (is_empty_plan plan); inv_ok; subst; [done|].
  match goal with H : from_slice body = Some ?d, H' : apply_json_patch_value ?d _ = Ok ?d' |- _ =>
    pose proof (Hm d H) as Hv; assert (value_get d' "model" = value_get d "model") as Hd end.
  { rewrite <- !lookup_path_single by done. eapply plan_spares; [done| |done]. intros. apply request_op_spares; set_solver. }
  rewrite Hv in Hd. match goal with |- reads_model (to_vec ?d') _ => destruct d'; simplify_eq/= end. by apply printed_model.
Qed.

Lemma adapt_keeps_model attempt body body' model :
  adapt_json_body attempt body = Ok body' → reads_model body model → reads_model body' model.
Proof.
  destruct attempt as [|hc bc]; simpl; intros Ha Hm; inv_ok; subst; [done|].
  match goal with H : validate_plugin_body _ _ = Ok _ |- _ => unfold validate_plugin_body in H; rename H into Hv end. inv_ok.
  intros w Hw. simplify_eq. match goal with H : from_slice body = Some ?b |- _ => pose proof (Hm b H) as Hb end.
  breflect. match goal with H : option_json_eqb (value_get _ "model") _ = true |- _ => rewrite Hb in H; rename H into He end.
  match goal with |- value_get ?x _ = _ => destruct (value_get x "model") as [[]|] end; simpl in He; try done. by apply String.eqb_eq in He as ->.
Qed.

(** C6: A JSON request that reaches an upstream asks it for the model the router
    selected: the allowlist, the fast-mode filter, the transforms of the channel
    and a connector plugin can fail the request but not change the model. *)
Theorem upstream_model_exact c i fast template document format plan attempt client upstream body v body' w
    (Hc : validate_contract c = Ok tt)
    (Ht : template_compiled template) (Hplan : effective_transforms template document format = Some (Ok plan))
    (Hbody : from_slice body = Some v) (Hmodel : value_get v "model" = Some (JString client))
    (Hrun : outbound_body c i fast plan attempt client upstream body = Some (Ok body'))
    (Hread : from_slice body' = Some w) :
  value_get w "model" = Some (JString upstream).
Proof.
  destruct (validate_contract_interfaces c i Hc) as (policy & Hp & Hok). unfold outbound_body, apply_json_body_policy in Hrun.
  rewrite Hp in Hrun. cbn [mbind option_bind] in Hrun. injection Hrun as Hrun.
  apply effective_transforms_ok in Hplan as [(_ & _ & Hj & _) _]; [|done].
  destruct (apply_body_policy i policy body) as [a|] eqn:Ea; [|done]. cbn [lift_error result_bind] in Hrun.
  destruct (apply_client_fast_mode_filter i _ fast) as [b|] eqn:Eb; [|done]. cbn [lift_error result_bind] in Hrun.
  destruct (rewrite_model _ client upstream) as [b2|] eqn:Er; [|done]. cbn [lift_error result_bind] in Hrun.
  destruct (apply_json_patch_plan b2 _) as [b3|] eqn:Epatch; [|done]. cbn [lift_error result_bind] in Hrun.
  destruct (adapt_json_body attempt b3) as [b4|] eqn:Ed; [|done]. injection Hrun as ->.
  apply (adapt_keeps_model _ _ _ _ Ed); [|done]. apply (patch_keeps_model _ _ _ _ Hj Epatch).
  apply (rewrite_sets_model _ _ _ _ Er). apply (fast_mode_keeps_model _ _ _ _ _ Eb).
  apply (policy_keeps_model _ _ _ _ _ Hok Ea). intros w' Hw'. by simplify_eq.
Qed.
End model.
