(* ===== verification/OutboundExamples.v ===== *)
(** * The gateway's own contract

    The contract of [docs/reference/request-allowlists.json], which the gateway
    embeds, as a value: it passes [validate_contract], so the theorems about
    validated contracts hold of it, and a request is followed to the upstream. *)

From S2P Require Import Prelude Text Domain Json Usage Headers JsonPatch Plans Transform Envelope SseTransform TransformExamples RequestPolicy Outbound.
Open Scope gateway_scope.

Definition gateway_headers : HeaderPolicy := {|
  hp_unknown := ActIgnore;
  hp_allow :=
    ["accept"; "accept-encoding"; "authorization"; "baggage"; "connection"; "content-digest";
     "content-encoding"; "content-length"; "content-md5"; "content-type"; "digest"; "etag"; "idempotency-key";
     "last-modified"; "openai-beta"; "openai-organization"; "openai-project"; "originator"; "range";
     "repr-digest"; "session-id"; "session_id"; "thread-id"; "thread_id"; "traceparent"; "tracestate";
     "user-agent"; "x-client-request-id"; "x-codex-beta-features"; "x-codex-image-turn-id";
     "x-codex-routing-hint"; "x-codex-turn-metadata"; "x-codex-turn-state"; "x-codex-window-id";
     "x-openai-client-user-agent"; "x-openai-internal-codex-responses-lite"; "x-request-id";
     "x-responsesapi-include-timing-metrics"; "x-session-id"];
  hp_allow_prefixes := ["x-stainless-"];
  hp_ignore :=
    ["cf-connecting-ip"; "cf-connecting-ipv6"; "cf-ipcountry"; "cf-pseudo-ipv4"; "cf-ray"; "cf-visitor";
     "forwarded"; "true-client-ip"; "via"; "x-client-ip"; "x-forwarded-for"; "x-forwarded-host";
     "x-forwarded-port"; "x-forwarded-proto"; "x-original-forwarded-for"; "x-real-ip"];
  hp_generated := [];
|}.

Definition chat_completions_policy : BodyPolicy := {|
  bp_unknown := ActReject;
  bp_allow :=
    ["audio"; "enable_thinking"; "frequency_penalty"; "function_call"; "functions"; "logit_bias"; "logprobs";
     "max_completion_tokens"; "max_tokens"; "messages"; "metadata"; "modalities"; "model"; "moderation"; "n";
     "parallel_tool_calls"; "prediction"; "presence_penalty"; "prompt_cache_key"; "prompt_cache_options";
     "prompt_cache_retention"; "reasoning_effort"; "response_format"; "safety_identifier"; "seed";
     "service_tier"; "stop"; "store"; "stream"; "stream_options"; "temperature"; "thinking"; "tool_choice";
     "tools"; "top_logprobs"; "top_p"; "user"; "verbosity"; "web_search_options"];
  bp_ignore := [];
  bp_reject := [];
|}.

Definition responses_http_policy : BodyPolicy := {|
  bp_unknown := ActReject;
  bp_allow :=
    ["background"; "client_metadata"; "context_management"; "conversation"; "include"; "input"; "instructions";
     "max_output_tokens"; "metadata"; "model"; "moderation"; "parallel_tool_calls"; "previous_response_id";
     "prompt"; "prompt_cache_key"; "prompt_cache_options"; "prompt_cache_retention"; "reasoning";
     "safety_identifier"; "service_tier"; "store"; "stream"; "stream_options"; "temperature"; "text";
     "tool_choice"; "tools"; "top_logprobs"; "top_p"; "truncation"; "user"];
  bp_ignore := [];
  bp_reject := [];
|}.

Definition responses_websocket_policy : BodyPolicy := {|
  bp_unknown := ActReject;
  bp_allow :=
    ["background"; "client_metadata"; "context_management"; "conversation"; "generate"; "include"; "input";
     "instructions"; "max_output_tokens"; "max_tool_calls"; "metadata"; "model"; "moderation";
     "parallel_tool_calls"; "previous_response_id"; "prompt"; "prompt_cache_key"; "prompt_cache_options";
     "prompt_cache_retention"; "reasoning"; "safety_identifier"; "service_tier"; "store"; "stream";
     "stream_options"; "temperature"; "text"; "tool_choice"; "tools"; "top_logprobs"; "top_p"; "truncation";
     "type"; "user"];
  bp_ignore := [];
  bp_reject := [];
|}.

Definition standalone_web_search_policy : BodyPolicy := {|
  bp_unknown := ActReject;
  bp_allow :=
    ["commands"; "id"; "input"; "max_output_tokens"; "model"; "reasoning"; "settings"];
  bp_ignore := [];
  bp_reject := [];
|}.

Definition images_generation_policy : BodyPolicy := {|
  bp_unknown := ActReject;
  bp_allow :=
    ["background"; "model"; "moderation"; "n"; "output_compression"; "output_format"; "partial_images";
     "prompt"; "quality"; "response_format"; "size"; "stream"; "style"; "user"];
  bp_ignore := [];
  bp_reject := [];
|}.

Definition images_edit_policy : BodyPolicy := {|
  bp_unknown := ActReject;
  bp_allow :=
    ["background"; "image"; "image[]"; "input_fidelity"; "mask"; "model"; "n"; "output_compression";
     "output_format"; "partial_images"; "prompt"; "quality"; "response_format"; "size"; "stream"; "user"];
  bp_ignore := [("moderation", Some [JString "auto"])];
  bp_reject := [];
|}.

(** The interfaces are a [BTreeMap]: sorted by name. *)
Definition gateway_contract : RequestPolicyContract := {|
  contract_version := 4;
  verified_at := "2026-09-08";
  sources := {| openai_node_commit := "854892a0580980449ce1ed04aa5e3831d3330383";
                codex_commit := "fde2156057c38c0227ce94c8514d04c7498df60d";
                codex_standalone_commit := "d6489472f3c15e87d2d7763a5fde033545c530f8" |};
  client_headers := gateway_headers;
  interfaces :=
    [("chat_completions", chat_completions_policy);
     ("images_edit", images_edit_policy);
     ("images_generation", images_generation_policy);
     ("responses_http", responses_http_policy);
     ("responses_websocket", responses_websocket_policy);
     ("standalone_web_search", standalone_web_search_policy)];
|}.

Definition passes (r : result unit ContractError) : bool := match r with Ok _ => true | Err _ => false end.
Lemma contract_passes : passes (validate_contract gateway_contract) = true.
Proof. vm_cast_no_check (eq_refl true). Qed.
Lemma gateway_contract_valid : validate_contract gateway_contract = Ok tt.
Proof. pose proof contract_passes as H. by destruct (validate_contract gateway_contract) as [[]|]. Qed.

Lemma contains_sorted_exact_witness :
  validate_sorted_unique "values" ["a"; "b"; "c"] = Ok tt ∧ contains_sorted ["a"; "b"; "c"] "b" = true.
Proof.
  split; [reflexivity|]. rewrite (contains_sorted_exact ["a"; "b"; "c"] "b" eq_refl). reflexivity.
Defined.

(** ** Bodies *)

#[export] Instance example_raw : RawJson := {
  raw_fields b := if bool_decide (b = body_text) then Some [("model", []); ("stream", []); ("user", [])] else None;
}.

Lemma request_members k : is_Some (map_get [("model", JString "m"); ("stream", JBool true); ("user", JString "ada")] k)
  ↔ k ∈ ["model"; "stream"; "user"].
Proof.
  rewrite <-existsb_eqb_elem. unfold map_get. rewrite !(String.eqb_sym _ k). unfold existsb.
  destruct (String.eqb k "model"), (String.eqb k "stream"), (String.eqb k "user"); simpl;
    split; try done; try (by eexists); by intros [? ?].
Qed.

#[export] Instance example_raw_laws : RawJsonLaws.
Proof.
  split. intros b fields v Hf Hv. unfold raw_fields, example_raw in Hf. case_bool_decide as E; [|done].
  injection Hf as <-. unfold from_slice, transform_json in Hv. rewrite bool_decide_eq_true_2 in Hv by done.
  injection Hv as <-. eexists. split; [done|]. apply request_members.
Qed.

Lemma client_body_policy_exact_witness :
  validate_contract gateway_contract = Ok tt ∧
  ∃ policy r, body_policy gateway_contract IfChatCompletions = Some policy
              ∧ apply_json_body_policy gateway_contract IfChatCompletions body_text = Some r.
Proof.
  split; [exact gateway_contract_valid|].
  destruct (client_body_policy_exact gateway_contract IfChatCompletions body_text gateway_contract_valid)
    as (policy & r & Hp & _ & Hr & _).
  exact (ex_intro _ policy (ex_intro _ r (conj Hp Hr))).
Defined.

(** Equal objects have the same string members. *)
Lemma eqb_string_member f g k s :
  json_eqb (JObject f) (JObject g) = true → map_get f k = Some (JString s) → map_get g k = Some (JString s).
Proof.
  revert g. induction f as [|[k1 v1] f IH]; intros [|[k2 v2] g]; try done. simpl.
  intros [[->%String.eqb_eq Hv]%andb_true_iff Hr]%andb_true_iff. destruct (String.eqb k2 k); [|by apply IH].
  intros [= ->]. destruct v2; try done. simpl in Hv. by apply String.eqb_eq in Hv as ->.
Qed.

#[export] Instance transform_json_reads_back : JsonReadBack.
Proof.
  split. intros object w k s. unfold to_vec, transform_json.
  destruct (json_eqb (JObject object) (patched_body "u")) eqn:E1; [|destruct (json_eqb (JObject object) (body_value "u")) eqn:E2].
  - intros Hw. injection Hw as <-. by apply eqb_string_member.
  - intros Hw. injection Hw as <-. by apply eqb_string_member.
  - done.
Qed.

Definition sent (r : option (result str OutboundError)) (text : str) : bool :=
  match r with Some (Ok b) => bool_decide (b = text) | _ => false end.
Lemma sent_ok r text : sent r text = true → r = Some (Ok text).
Proof. destruct r as [[b|]|]; simpl; try done. intros H%bool_decide_eq_true. by rewrite H. Qed.

Definition example_outbound : option (result str OutboundError) :=
  outbound_body gateway_contract IfChatCompletions true example_plan OpenAiCompatibleAttempt "m" "u" body_text.
Lemma outbound_sent : sent example_outbound (bytes_of "{patched}") = true.
Proof. vm_cast_no_check (eq_refl true). Qed.

Lemma upstream_model_exact_witness :
  example_outbound = Some (Ok (bytes_of "{patched}"))
  ∧ from_slice (bytes_of "{patched}") = Some (patched_body "u")
  ∧ value_get (patched_body "u") "model" = Some (JString "u").
Proof.
  exact (conj (sent_ok _ _ outbound_sent) (conj eq_refl
    (upstream_model_exact gateway_contract IfChatCompletions true example_template channel_document chat_format example_plan
       OpenAiCompatibleAttempt "m" "u" body_text (body_value "m") (bytes_of "{patched}") (patched_body "u")
       gateway_contract_valid example_template_compiled example_plan_accepted eq_refl eq_refl
       (sent_ok _ _ outbound_sent) eq_refl))).
Defined.

(** ** Headers *)

Definition request_sent : HeaderMap :=
  [("authorization", bytes_of "Bearer client-key"); ("connection", bytes_of "close, X-Request-Id");
   ("x-request-id", bytes_of "7"); ("cookie", bytes_of "session=1"); ("x-forwarded-for", bytes_of "10.0.0.1");
   ("accept", bytes_of "*/*")].

Definition channel_auth : UpstreamAuth := AuthBearer "upstream-key".
Lemma channel_auth_ok : auth_ok gateway_contract channel_auth.
Proof. exists "bearer", None, (Some "upstream-key"). reflexivity. Qed.

Definition example_headers : result HeaderMap OutboundError :=
  outbound_headers gateway_contract IfChatCompletions example_plan OpenAiCompatibleAttempt channel_auth true false request_sent.
Definition headers_of (r : result HeaderMap OutboundError) : HeaderMap := match r with Ok h => h | Err _ => headers_new end.
Definition headers_ran (r : result HeaderMap OutboundError) : bool := match r with Ok _ => true | Err _ => false end.
Lemma example_headers_ran : headers_ran example_headers = true.
Proof. vm_cast_no_check (eq_refl true). Qed.
Lemma headers_ran_ok r : headers_ran r = true → r = Ok (headers_of r).
Proof. by destruct r. Qed.

Definition cookie_and_authorization : bool :=
  negb (client_header_explicitly_ignored gateway_contract "authorization")
  && negb (client_header_allowed gateway_contract "cookie").
Lemma cookie_and_authorization_holds : cookie_and_authorization = true.
Proof. vm_cast_no_check (eq_refl true). Qed.
Lemma authorization_not_ignored : client_header_explicitly_ignored gateway_contract "authorization" = false.
Proof. pose proof cookie_and_authorization_holds as H. unfold cookie_and_authorization in H. by breflect. Qed.
Lemma cookie_not_allowed : client_header_allowed gateway_contract "cookie" = false.
Proof. pose proof cookie_and_authorization_holds as H. unfold cookie_and_authorization in H. by breflect. Qed.

