(* ===== verification/Pattern.v ===== *)
(** * Incremental search for a byte pattern

    Models [BytePatternMatcher] of [src/application/request_body.rs]: the
    Knuth-Morris-Pratt automaton with which the multipart guard finds delimiters
    in a body that arrives in chunks.  An index out of range is [None].  The
    automaton is compared with the plain definition of the first occurrence of a
    pattern. *)

From S2P Require Import Prelude Text.

(** ** The matcher *)

Record BytePatternMatcher := { pattern : str; prefix_table : list nat; matched : nat }.

(** [while matched > 0 && byte != pattern[matched] { matched = prefix[matched - 1] }] *)
Fixpoint fall_back (fuel : nat) (pattern : str) (prefix : list nat) (byte : Ascii.ascii) (matched : nat) : option nat :=
  match fuel with
  | O => None
  | S fuel =>
      if (matched =? 0)%nat then Some matched
      else
        expected ← pattern !! matched;
        if Ascii.eqb byte expected then Some matched
        else matched ← prefix !! (matched - 1)%nat; fall_back fuel pattern prefix byte matched
  end.

Definition advance (pattern : str) (prefix : list nat) (byte : Ascii.ascii) (matched : nat) : option nat :=
  matched ← fall_back (S matched) pattern prefix byte matched;
  expected ← pattern !! matched;
  Some (if Ascii.eqb byte expected then S matched else matched).

(** The loop over [1..pattern.len()] that fills the table. *)
Fixpoint fill_table (indices : list nat) (pattern : str) (prefix : list nat) (matched : nat) : option (list nat) :=
  match indices with
  | [] => Some prefix
  | index :: indices =>
      byte ← pattern !! index;
      matched ← advance pattern prefix byte matched;
      fill_table indices pattern (<[index := matched]> prefix) matched
  end.

Definition new_matcher (pattern : str) : option BytePatternMatcher :=
  prefix ← fill_table (seq 1 (length pattern - 1)) pattern (replicate (length pattern) O) O;
  Some {| pattern := pattern; prefix_table := prefix; matched := O |}.

Definition with_matched (m : BytePatternMatcher) (n : nat) : BytePatternMatcher :=
  {| pattern := m.(pattern); prefix_table := m.(prefix_table); matched := n |}.

Definition matcher_push (m : BytePatternMatcher) (byte : Ascii.ascii) : option (BytePatternMatcher * bool) :=
  n ← advance m.(pattern) m.(prefix_table) byte m.(matched);
  Some (if (n =? length m.(pattern))%nat then (with_matched m O, true) else (with_matched m n, false)).

Definition matcher_reset (m : BytePatternMatcher) : BytePatternMatcher := with_matched m O.

(** Pushes the bytes of a text until the pattern is complete: the number of
    bytes taken and the matcher. *)
Fixpoint search (m : BytePatternMatcher) (taken : nat) (s : str) : option (BytePatternMatcher * option nat) :=
  match s with
  | [] => Some (m, None)
  | c :: s =>
      step ← matcher_push m c;
      if (step.2 : bool) then Some (step.1, Some (S taken)) else search step.1 (S taken) s
  end.

(** ** Reference definitions *)

(** [k] is the longest prefix of the pattern that ends the text. *)
Definition longest (pat t : str) (k : nat) : Prop :=
  (k ≤ length pat)%nat ∧ take k pat `suffix_of` t ∧ ∀ j, (j ≤ length pat)%nat → take j pat `suffix_of` t → (j ≤ k)%nat.

(** The text ends with the pattern and no shorter prefix of it does. *)
Definition ends_first (pat t : str) : Prop :=
  pat `suffix_of` t ∧ ∀ u v, t = u ++ v → pat `suffix_of` u → v = [].

(** No prefix of the text ends with the pattern. *)
Definition free_of (pat t : str) : Prop := ∀ u v, t = u ++ v → ¬ pat `suffix_of` u.

(** The matcher after a text in which the pattern has not occurred. *)
Definition table_ok (pat : str) (prefix : list nat) (n : nat) : Prop :=
  ∀ i, (i < n)%nat → ∃ p, prefix !! i = Some p ∧ longest pat (drop 1 (take (S i) pat)) p.
Definition matcher_ok (pat t : str) (m : BytePatternMatcher) : Prop :=
  m.(pattern) = pat ∧ table_ok pat m.(prefix_table) (length pat) ∧ longest pat t m.(matched) ∧ free_of pat t.

(** ** Occurrences *)

Lemma ends_first_unique pat t u1 v1 u2 v2 :
  t = u1 ++ v1 → t = u2 ++ v2 → ends_first pat u1 → ends_first pat u2 → u1 = u2.
Proof.
  intros -> Ht [H1 M1] [H2 M2]. destruct (decide (length u1 ≤ length u2)%nat) as [Hl|Hl].
  - apply (f_equal (take (length u2))) in Ht. rewrite take_app_length, take_app_ge in Ht by lia.
    assert (take (length u2 - length u1) v1 = []) as E by (by eapply M2).
    by rewrite E, app_nil_r in Ht.
  - apply (f_equal (take (length u1))) in Ht. rewrite take_app_length, take_app_ge in Ht by lia.
    assert (take (length u1 - length u2) v2 = []) as E by (by eapply M1). by rewrite E, app_nil_r in Ht.
Qed.

(** ** Suffixes *)

Lemma suffix_comparable (a b t : str) :
  a `suffix_of` t → b `suffix_of` t → (length a ≤ length b)%nat → a `suffix_of` b.
Proof.
  intros [x ->] [y Hy] Hl. assert (length y ≤ length x)%nat as Hlen.
  { apply (f_equal length) in Hy. rewrite !length_app in Hy. lia. }
  exists (drop (length y) x). apply (f_equal (drop (length y))) in Hy.
  rewrite drop_app_length, drop_app_le in Hy by lia. done.
Qed.

Lemma suffix_snoc_iff (a t : str) c d : a ++ [c] `suffix_of` t ++ [d] ↔ a `suffix_of` t ∧ c = d.
Proof.
  split.
  - intros [x Hx]. rewrite app_assoc in Hx. apply app_inj_tail in Hx as [-> ->]. split; [by exists x|done].
  - intros [[x ->] ->]. exists x. by rewrite app_assoc.
Qed.

Lemma suffix_drop_one (a b : str) : a `suffix_of` b → (length a < length b)%nat → a `suffix_of` drop 1 b.
Proof.
  intros [x ->] Hl. rewrite length_app in Hl. destruct x as [|c x]; simpl in *; [lia|]. rewrite drop_0. by exists x.
Qed.

Lemma longest_unique pat t j k : longest pat t j → longest pat t k → j = k.
Proof. intros (Hj & Hsj & Hmj) (Hk & Hsk & Hmk). specialize (Hmj k Hk Hsk). specialize (Hmk j Hj Hsj). lia. Qed.

Lemma longest_nil pat : longest pat [] 0.
Proof.
  split_and!; [lia|apply suffix_nil|]. intros j Hj Hs. apply suffix_length in Hs.
  rewrite length_take in Hs. simpl in Hs. lia.
Qed.

Lemma longest_length pat t k : longest pat t k → (k ≤ length t)%nat.
Proof. intros (Hk & Hs & _). apply suffix_length in Hs. rewrite length_take in Hs. lia. Qed.

(** ** The automaton *)

Lemma table_ok_le pat prefix n n' : table_ok pat prefix n → (n' ≤ n)%nat → table_ok pat prefix n'.
Proof. intros H Hn i Hi. apply H. lia. Qed.

Lemma fall_back_spec fuel pat prefix c t q :
  (q < fuel)%nat → (q < length pat)%nat → take q pat `suffix_of` t → table_ok pat prefix q →
  (∀ j, (j < length pat)%nat → take j pat `suffix_of` t → pat !! j = Some c → (j ≤ q)%nat) →
  ∃ r, fall_back fuel pat prefix c q = Some r ∧ (r < length pat)%nat ∧ take r pat `suffix_of` t
    ∧ (∀ j, (j < length pat)%nat → take j pat `suffix_of` t → pat !! j = Some c → (j ≤ r)%nat)
    ∧ (r = 0%nat ∨ pat !! r = Some c).
Proof.
  revert q. induction fuel as [|fuel IH]; intros q Hf Hq Hs Ht Hmax; [lia|]. cbn [fall_back].
  destruct (Nat.eqb_spec q 0) as [->|Hq0]; [exists 0%nat; split_and!; auto|].
  destruct (lookup_lt_is_Some_2 pat q Hq) as [e He]. rewrite He. simpl.
  destruct (Ascii.eqb_spec c e) as [->|Hne]; [exists q; split_and!; auto|].
  destruct (Ht (q - 1)%nat) as (p & Hp & Hpk & Hps & Hpm); [lia|]. rewrite Hp. simpl.
  replace (S (q - 1)) with q in * by lia.
  assert (p < q)%nat as Hpq.
  { apply suffix_length in Hps. rewrite length_take, length_drop, length_take in Hps. lia. }
  apply IH; [lia|lia| |apply (table_ok_le _ _ _ _ Ht); lia|].
  - trans (drop 1 (take q pat)); [done|]. trans (take q pat); [apply suffix_drop|done].
  - intros j Hj Hsj Hcj. assert (j ≠ q) by (intros ->; congruence). pose proof (Hmax j Hj Hsj Hcj) as Hle.
    apply Hpm; [lia|]. apply suffix_drop_one; [|rewrite !length_take; lia].
    eapply suffix_comparable; [done|done|rewrite !length_take; lia].
Qed.

Lemma advance_spec pat prefix c t m :
  (m < length pat)%nat → longest pat t m → table_ok pat prefix m →
  ∃ m', advance pat prefix c m = Some m' ∧ longest pat (t ++ [c]) m'.
Proof.
  intros Hm (_ & Hs & Hmax) Ht. unfold advance.
  destruct (fall_back_spec (S m) pat prefix c t m) as (r & -> & Hr & Hrs & Hrm & Hor); [lia|done|done|done| |].
  { intros j Hj Hsj _. apply Hmax; [lia|done]. }
  simpl. destruct (lookup_lt_is_Some_2 pat r Hr) as [e He]. rewrite He. simpl. eexists. split; [done|].
  assert (∀ j, (j ≤ length pat)%nat → take j pat `suffix_of` t ++ [c] →
    j = 0%nat ∨ ∃ i, j = S i ∧ (i ≤ r)%nat ∧ pat !! i = Some c) as Hcand.
  { intros [|j] Hj Hsj; [by left|right]. exists j. destruct (lookup_lt_is_Some_2 pat j) as [x Hx]; [lia|].
    rewrite (take_S_r _ _ _ Hx) in Hsj. apply suffix_snoc_iff in Hsj as [Hsj ->]. split_and!; [done| |done]. by apply Hrm. }
  destruct (Ascii.eqb_spec c e) as [<-|Hne]; split_and!.
  - lia.
  - rewrite (take_S_r _ _ _ He). by apply suffix_snoc_iff.
  - intros j Hj Hsj. destruct (Hcand j Hj Hsj) as [->|(i & -> & Hi & _)]; lia.
  - lia.
  - destruct Hor as [->|?]; [apply suffix_nil|congruence].
  - intros j Hj Hsj. destruct (Hcand j Hj Hsj) as [->|(i & -> & Hi & Hci)]; [lia|]. destruct Hor as [->|?]; [|congruence].
    assert (i = 0%nat) as -> by lia. congruence.
Qed.

Lemma drop_take_snoc (pat : str) i c : (1 ≤ i)%nat → pat !! i = Some c →
  drop 1 (take (S i) pat) = drop 1 (take i pat) ++ [c].
Proof.
  intros Hi Hc. rewrite (take_S_r _ _ _ Hc). apply drop_app_le. rewrite length_take.
  apply lookup_lt_Some in Hc. lia.
Qed.

Lemma table_ok_insert pat prefix i m : (i < length prefix)%nat → table_ok pat prefix i →
  longest pat (drop 1 (take (S i) pat)) m → table_ok pat (<[i := m]> prefix) (S i).
Proof.
  intros Hi Ht Hm j Hj. destruct (decide (j = i)) as [->|Hne].
  - exists m. split; [by apply list_lookup_insert_eq|done].
  - rewrite list_lookup_insert_ne by done. apply Ht. lia.
Qed.

Lemma fill_table_spec n pat prefix i m :
  (1 ≤ i)%nat → (i + n)%nat = length pat → length prefix = length pat →
  table_ok pat prefix i → longest pat (drop 1 (take i pat)) m →
  ∃ prefix', fill_table (seq i n) pat prefix m = Some prefix' ∧ table_ok pat prefix' (length pat).
Proof.
  revert prefix i m. induction n as [|n IH]; intros prefix i m Hi Hn Hp Ht Hm; simpl.
  { exists prefix. split; [done|]. by replace (length pat) with i by lia. }
  destruct (lookup_lt_is_Some_2 pat i) as [c Hc]; [lia|]. rewrite Hc. simpl.
  pose proof (longest_length _ _ _ Hm) as Hlen. rewrite length_drop, length_take in Hlen.
  destruct (advance_spec pat prefix c (drop 1 (take i pat)) m) as (m' & -> & Hm'); [lia|done|apply (table_ok_le _ _ _ _ Ht); lia|]. simpl.
  rewrite <- drop_take_snoc in Hm' by done.
  apply IH; [lia|lia|by rewrite length_insert| |done]. apply table_ok_insert; [lia|done|done].
Qed.

Lemma free_of_nil pat : pat ≠ [] → free_of pat [].
Proof. intros Hp u v Huv Hs. symmetry in Huv. apply app_eq_nil in Huv as [-> _]. by apply suffix_nil_inv in Hs. Qed.

(** The table of a non-empty pattern is built without a panic, and a fresh
    matcher has read the empty text. *)
Lemma new_matcher_ok pat : pat ≠ [] → ∃ m, new_matcher pat = Some m ∧ matcher_ok pat [] m.
Proof.
  intros Hp. unfold new_matcher. assert (length pat ≠ 0%nat) as Hl by by rewrite length_zero_iff_nil.
  destruct (fill_table_spec (length pat - 1) pat (replicate (length pat) 0%nat) 1 0) as (prefix & -> & Ht);
    [lia|lia|apply length_replicate| | |].
  - intros i Hi. assert (i = 0%nat) as -> by lia. exists 0%nat. split; [by apply lookup_replicate_2; lia|].
    destruct pat; [done|apply longest_nil].
  - destruct pat; [done|apply longest_nil].
  - simpl. eexists. split; [done|]. split_and!; [done|done|apply longest_nil|by apply free_of_nil].
Qed.

Lemma matcher_reset_ok pat t m : pat ≠ [] → matcher_ok pat t m → matcher_ok pat [] (matcher_reset m).
Proof. intros Hp (? & ? & _). split_and!; [done|done|apply longest_nil|by apply free_of_nil]. Qed.

Lemma longest_full pat t : longest pat t (length pat) ↔ pat `suffix_of` t.
Proof. unfold longest. rewrite take_ge by lia. split; [by intros (_ & ? & _)|intros H; split_and!; [lia|done|lia]]. Qed.

Lemma free_of_snoc pat t c : free_of pat t → ¬ pat `suffix_of` t ++ [c] → free_of pat (t ++ [c]).
Proof.
  intros Hf Hn u v Huv. destruct v as [|d v _] using rev_ind.
  - rewrite app_nil_r in Huv. by subst.
  - rewrite app_assoc in Huv. apply app_inj_tail in Huv as [-> _]. by eapply Hf.
Qed.

Lemma ends_first_snoc pat t c : free_of pat t → pat `suffix_of` t ++ [c] → ends_first pat (t ++ [c]).
Proof.
  intros Hf Hs. split; [done|]. intros u v Huv Hu. destruct v as [|d v _] using rev_ind; [done|].
  rewrite app_assoc in Huv. apply app_inj_tail in Huv as [-> _]. by destruct (Hf _ _ eq_refl Hu).
Qed.

(** One byte: the matcher reports a match exactly when the text read since its
    reset ends with the pattern for the first time. *)
Lemma matcher_push_ok pat t m c : pat ≠ [] → matcher_ok pat t m →
  ∃ m' found, matcher_push m c = Some (m', found)
    ∧ (if found : bool then ends_first pat (t ++ [c]) ∧ matcher_ok pat [] m' else matcher_ok pat (t ++ [c]) m').
Proof.
  intros Hp (Hpat & Ht & Hm & Hf). unfold matcher_push. rewrite Hpat.
  assert (m.(matched) < length pat)%nat as Hlt.
  { destruct Hm as (Hle & Hs & _). destruct (decide (m.(matched) = length pat)) as [E|]; [|lia].
    rewrite E, take_ge in Hs by lia. destruct (Hf t []); [by rewrite app_nil_r|done]. }
  destruct (advance_spec pat m.(prefix_table) c t m.(matched)) as (n & -> & Hn);
    [done|done|apply (table_ok_le _ _ _ _ Ht); lia|]. simpl.
  destruct (Nat.eqb_spec n (length pat)) as [->|Hne]; eexists _, _; (split; [done|]); simpl.
  - apply longest_full in Hn. split; [by apply ends_first_snoc|].
    split_and!; [done|done|apply longest_nil|by apply free_of_nil].
  - split_and!; [done|done|done|]. apply free_of_snoc; [done|]. intros Hs%longest_full. apply Hne.
    by eapply longest_unique.
Qed.

Lemma search_ok pat m t s : pat ≠ [] → matcher_ok pat t m →
  ∃ m' r, search m (length t) s = Some (m', r)
    ∧ match r with
      | Some n => ∃ u v, s = u ++ v ∧ n = length (t ++ u) ∧ ends_first pat (t ++ u) ∧ matcher_ok pat [] m'
      | None => matcher_ok pat (t ++ s) m'
      end.
Proof.
  intros Hp. revert t m. induction s as [|c s IH]; intros t m Hm; simpl.
  { eexists _, _. split; [done|]. by rewrite app_nil_r. }
  destruct (matcher_push_ok pat t m c Hp Hm) as (m1 & found & -> & Hf). simpl. destruct found.
  - destruct Hf as [He Hm1]. eexists _, _. split; [done|]. exists [c], s. rewrite length_app. simpl. split_and!; [done|lia|done|done].
  - destruct (IH _ _ Hf) as (m' & r & Hs & Hr). rewrite length_app in Hs. simpl in Hs. rewrite Nat.add_1_r in Hs.
    rewrite Hs. eexists _, _. split; [done|]. destruct r as [n|].
    + destruct Hr as (u & v & -> & -> & He & Hm'). exists (c :: u), v. by rewrite <- app_assoc in He |- *.
    + by rewrite <- app_assoc in Hr.
Qed.

(** The incremental matcher agrees with the definition of searching: for
    every pattern its table is built without a panic, and the bytes of a text
    pushed one by one report a match after [n] bytes exactly when the text ends
    there with the pattern for the first time, and none exactly when the pattern
    does not occur. *)
Theorem pattern_search_exact (c : Ascii.ascii) (rest text : str) :
  let pat := c :: rest in
  ∃ m m' found, new_matcher pat = Some m ∧ search m 0 text = Some (m', found)
    ∧ (∀ n, found = Some n ↔ (n ≤ length text)%nat ∧ ends_first pat (take n text))
    ∧ (found = None ↔ free_of pat text).
Proof.
  intros pat. assert (pat ≠ []) as Hp by done. destruct (new_matcher_ok pat Hp) as (m & Hm & Hok).
  destruct (search_ok pat m [] text Hp Hok) as (m' & r & Hs & Hr). exists m, m', r. split_and!; [done|done| |].
  - intros n. split.
    + intros ->. destruct Hr as (u & v & -> & -> & He & _). simpl. rewrite length_app, take_app_length. split; [lia|done].
    + intros [Hn He]. destruct r as [n'|].
      * destruct Hr as (u & v & -> & -> & He' & _). simpl in *. f_equal.
        apply (ends_first_unique pat (u ++ v) (take n (u ++ v)) (drop n (u ++ v)) u v) in He; [|by rewrite take_drop|done|done].
        rewrite <- (length_take_le (u ++ v) n Hn). by f_equal.
      * destruct Hr as (_ & _ & _ & Hf). destruct (Hf (take n text) (drop n text)); [by rewrite app_nil_l, take_drop|apply He].
  - split.
    + intros ->. apply Hr.
    + intros Hf. destruct r as [n|]; [|done]. destruct Hr as (u & v & -> & _ & [He _] & _). by destruct (Hf u v).
Qed.
