(* ===== verification/Multipart.v ===== *)
(** * The multipart guard

    Models [MultipartStructureValidator] of [src/application/request_body.rs]: a
    byte automaton in front of the multipart parser that bounds the regions the
    parser would buffer (the preamble, the padding of a boundary line and the
    headers of a part).  Its property is the grammar of the bodies it accepts. *)

From S2P Require Import Prelude Text Pattern.
Local Open Scope gateway_scope.

Definition MAX_MULTIPART_BOUNDARY_BYTES : Z := 70.
Definition MAX_MULTIPART_PREAMBLE_BYTES : Z := 8192.
Definition MAX_MULTIPART_PART_HEADER_BYTES : Z := 16384.
Definition MAX_MULTIPART_BOUNDARY_PADDING_BYTES : Z := 1024.

(** ** The automaton *)

Inductive BoundarySuffix :=
| SuffixStart
| SuffixDash
| SuffixPadding (bytes : Z)
| SuffixCarriageReturn.

Inductive MultipartStructureState :=
| FindingFirstBoundary (scanned : Z)
| ReadingBoundarySuffix (suffix : BoundarySuffix)
| ReadingHeaders (bytes : Z)
| ReadingData
| StructureDone.

Record MultipartStructureValidator := {
  vstate : MultipartStructureState;
  first_boundary : BytePatternMatcher;
  field_boundary : BytePatternMatcher;
  header_terminator : BytePatternMatcher
}.

Inductive StructureError := InvalidMultipartStructure.

Definition DASHES : str := bytes_of "--".
Definition CR : Ascii.ascii := Ascii.ascii_of_N 13.
Definition LF : Ascii.ascii := Ascii.ascii_of_N 10.
Definition CRLF : str := [CR; LF].

Definition new_validator (boundary : str) : option MultipartStructureValidator :=
  first ← new_matcher (DASHES ++ boundary);
  field ← new_matcher (CRLF ++ DASHES ++ boundary);
  terminator ← new_matcher (CRLF ++ CRLF);
  Some {| vstate := FindingFirstBoundary 0; first_boundary := first; field_boundary := field;
          header_terminator := terminator |}.

Definition with_vstate (v : MultipartStructureValidator) (s : MultipartStructureState) : MultipartStructureValidator :=
  {| vstate := s; first_boundary := v.(first_boundary); field_boundary := v.(field_boundary);
     header_terminator := v.(header_terminator) |}.
Definition with_first (v : MultipartStructureValidator) (m : BytePatternMatcher) : MultipartStructureValidator :=
  {| vstate := v.(vstate); first_boundary := m; field_boundary := v.(field_boundary);
     header_terminator := v.(header_terminator) |}.
Definition with_field (v : MultipartStructureValidator) (m : BytePatternMatcher) : MultipartStructureValidator :=
  {| vstate := v.(vstate); first_boundary := v.(first_boundary); field_boundary := m;
     header_terminator := v.(header_terminator) |}.
Definition with_terminator (v : MultipartStructureValidator) (m : BytePatternMatcher) : MultipartStructureValidator :=
  {| vstate := v.(vstate); first_boundary := v.(first_boundary); field_boundary := v.(field_boundary);
     header_terminator := m |}.

Definition is_padding (c : Ascii.ascii) : bool := (byte c =? 32) || (byte c =? 9).

Definition validated : Type := option (result MultipartStructureValidator StructureError).

Definition suffix_byte (v : MultipartStructureValidator) (suffix : BoundarySuffix) (c : Ascii.ascii)
    : result MultipartStructureValidator StructureError :=
  let next s := Ok (with_vstate v (ReadingBoundarySuffix s)) in
  match suffix with
  | SuffixStart =>
      if byte c =? 45 then next SuffixDash
      else if is_padding c then next (SuffixPadding 1)
      else if byte c =? 13 then next SuffixCarriageReturn
      else Err InvalidMultipartStructure
  | SuffixDash => if byte c =? 45 then Ok (with_vstate v StructureDone) else Err InvalidMultipartStructure
  | SuffixPadding bytes =>
      if is_padding c then
        let bytes := sat_add u64_max bytes 1 in
        if MAX_MULTIPART_BOUNDARY_PADDING_BYTES <? bytes then Err InvalidMultipartStructure
        else next (SuffixPadding bytes)
      else if byte c =? 13 then next SuffixCarriageReturn
      else Err InvalidMultipartStructure
  | SuffixCarriageReturn =>
      if byte c =? 10
      then Ok (with_vstate (with_terminator v (matcher_reset v.(header_terminator))) (ReadingHeaders 0))
      else Err InvalidMultipartStructure
  end.

Definition push_byte (v : MultipartStructureValidator) (c : Ascii.ascii) : validated :=
  match v.(vstate) with
  | FindingFirstBoundary scanned =>
      let scanned := sat_add u64_max scanned 1 in
      step ← matcher_push v.(first_boundary) c;
      let v := with_first v step.1 in
      Some (if (step.2 : bool) then Ok (with_vstate v (ReadingBoundarySuffix SuffixStart))
            else if MAX_MULTIPART_PREAMBLE_BYTES <? sat_sub scanned (Z.of_nat v.(first_boundary).(matched))
                 then Err InvalidMultipartStructure
                 else Ok (with_vstate v (FindingFirstBoundary scanned)))
  | ReadingBoundarySuffix suffix => Some (suffix_byte v suffix c)
  | ReadingHeaders bytes =>
      let bytes := sat_add u64_max bytes 1 in
      if MAX_MULTIPART_PART_HEADER_BYTES <? bytes then Some (Err InvalidMultipartStructure)
      else
        step ← matcher_push v.(header_terminator) c;
        let v := with_terminator v step.1 in
        Some (Ok (if (step.2 : bool)
                  then with_vstate (with_field v (matcher_reset v.(field_boundary))) ReadingData
                  else with_vstate v (ReadingHeaders bytes)))
  | ReadingData =>
      step ← matcher_push v.(field_boundary) c;
      let v := with_field v step.1 in
      Some (Ok (if (step.2 : bool) then with_vstate v (ReadingBoundarySuffix SuffixStart) else v))
  | StructureDone => Some (Ok v)
  end.

Fixpoint validator_push (v : MultipartStructureValidator) (bytes : str) : validated :=
  match bytes with
  | [] => Some (Ok v)
  | c :: bytes =>
      r ← push_byte v c;
      match r with Ok v => validator_push v bytes | Err e => Some (Err e) end
  end.

Definition validator_finish (v : MultipartStructureValidator) : result unit StructureError :=
  match v.(vstate) with StructureDone => Ok tt | _ => Err InvalidMultipartStructure end.

(** [guard_multipart_stream]: the chunks pass while the validator accepts them,
    and the end of the stream is an error unless the validator is done. *)
Fixpoint guard_chunks (v : MultipartStructureValidator) (chunks : list str)
    : option (list str * result unit StructureError) :=
  match chunks with
  | [] => Some ([], validator_finish v)
  | chunk :: chunks =>
      r ← validator_push v chunk;
      match r with
      | Ok v => rest ← guard_chunks v chunks; Some (chunk :: rest.1, rest.2)
      | Err e => Some ([], Err e)
      end
  end.
Definition guard_multipart_stream (boundary : str) (chunks : list str) : option (list str * result unit StructureError) :=
  v ← new_validator boundary; guard_chunks v chunks.

(** ** The grammar of accepted bodies *)

Section grammar.
Variable boundary : str.

Definition delimiter : str := CRLF ++ DASHES ++ boundary.

(** What follows a boundary: the close, or a part and the next boundary. *)
Inductive after_boundary : str → Prop :=
| after_close epilogue : after_boundary (DASHES ++ epilogue)
| after_part padding headers data rest :
    Forall (λ c, is_padding c = true) padding →
    Z.of_nat (length padding) ≤ MAX_MULTIPART_BOUNDARY_PADDING_BYTES →
    ends_first (CRLF ++ CRLF) headers →
    Z.of_nat (length headers) ≤ MAX_MULTIPART_PART_HEADER_BYTES →
    ends_first delimiter data →
    after_boundary rest →
    after_boundary (padding ++ CRLF ++ headers ++ data ++ rest).

Definition well_structured (body : str) : Prop :=
  ∃ preamble rest, body = preamble ++ (DASHES ++ boundary) ++ rest
    ∧ ends_first (DASHES ++ boundary) (preamble ++ DASHES ++ boundary)
    ∧ Z.of_nat (length preamble) ≤ MAX_MULTIPART_PREAMBLE_BYTES
    ∧ after_boundary rest.
End grammar.

(** ** Scanning up to a pattern *)

Section scanning.
Context (pat : str).
Implicit Types (t rest : str) (P : nat → str → Prop).

(** The text [t] and a prefix of [rest] end with the pattern for the first
    time, and what follows satisfies [P]. *)
Definition until t rest P : Prop := ∃ u r, rest = u ++ r ∧ ends_first pat (t ++ u) ∧ P (length (t ++ u)) r.

Lemma until_nil t P : free_of pat t → ¬ until t [] P.
Proof.
  intros Hf (u & r & Hu & [He _] & _). symmetry in Hu. apply app_eq_nil in Hu as [-> ->].
  rewrite app_nil_r in He. by destruct (Hf t []); rewrite ?app_nil_r.
Qed.

Lemma until_step t c rest P : free_of pat t → until t (c :: rest) P ↔ until (t ++ [c]) rest P.
Proof.
  intros Hf. split.
  - intros (u & r & Hu & He & HP). destruct u as [|d u]; simpl in Hu.
    { rewrite app_nil_r in He. destruct He as [He _]. by destruct (Hf t []); rewrite ?app_nil_r. }
    injection Hu as <- ->. exists u, r. rewrite <- app_assoc. done.
  - intros (u & r & -> & He & HP). exists (c :: u), r. by rewrite <- app_assoc in He, HP.
Qed.

Lemma until_found t c rest P : ends_first pat (t ++ [c]) → until (t ++ [c]) rest P ↔ P (length (t ++ [c])) rest.
Proof.
  intros He. split.
  - intros (u & r & -> & [_ Hm] & HP). rewrite (Hm (t ++ [c]) u) in * by (done || apply He). by rewrite app_nil_r in HP.
  - intros HP. exists [], rest. by rewrite app_nil_r.
Qed.
End scanning.

(** ** The language of a state *)

Section language.
Context (boundary : str) (Hboundary : Z.of_nat (length boundary) ≤ MAX_MULTIPART_BOUNDARY_BYTES).
Implicit Types (v : MultipartStructureValidator) (t rest : str).

Definition opening : str := DASHES ++ boundary.
Definition blank_line : str := CRLF ++ CRLF.

Definition data_rest t rest : Prop := until (delimiter boundary) t rest (λ _ r, after_boundary boundary r).
Definition header_rest t rest : Prop :=
  until blank_line t rest (λ n r, Z.of_nat n ≤ MAX_MULTIPART_PART_HEADER_BYTES ∧ data_rest [] r).
Definition padding_rest (n : Z) rest : Prop :=
  ∃ padding r, rest = padding ++ CRLF ++ r ∧ Forall (λ c, is_padding c = true) padding
    ∧ n + Z.of_nat (length padding) ≤ MAX_MULTIPART_BOUNDARY_PADDING_BYTES ∧ header_rest [] r.
Definition opening_rest t rest : Prop :=
  until opening t rest (λ n r, Z.of_nat n - Z.of_nat (length opening) ≤ MAX_MULTIPART_PREAMBLE_BYTES ∧ after_boundary boundary r).

(** The rests that complete a body, given what the active matcher has read. *)
Definition completes v t rest : Prop :=
  match v.(vstate) with
  | FindingFirstBoundary _ => opening_rest t rest
  | ReadingBoundarySuffix SuffixStart => after_boundary boundary rest
  | ReadingBoundarySuffix SuffixDash => ∃ r, rest = bytes_of "-" ++ r
  | ReadingBoundarySuffix (SuffixPadding n) => padding_rest n rest
  | ReadingBoundarySuffix SuffixCarriageReturn => ∃ r, rest = LF :: r ∧ header_rest [] r
  | ReadingHeaders _ => header_rest t rest
  | ReadingData => data_rest t rest
  | StructureDone => True
  end.

(** The invariant of the automaton. *)
Definition validator_ok v t : Prop :=
  (∃ t1, matcher_ok opening t1 v.(first_boundary)) ∧ (∃ t2, matcher_ok (delimiter boundary) t2 v.(field_boundary))
  ∧ (∃ t3, matcher_ok blank_line t3 v.(header_terminator))
  ∧ match v.(vstate) with
    | FindingFirstBoundary scanned =>
        scanned = Z.of_nat (length t) ∧ matcher_ok opening t v.(first_boundary)
        ∧ scanned - Z.of_nat v.(first_boundary).(matched) ≤ MAX_MULTIPART_PREAMBLE_BYTES
    | ReadingBoundarySuffix (SuffixPadding n) => 0 ≤ n ≤ MAX_MULTIPART_BOUNDARY_PADDING_BYTES
    | ReadingBoundarySuffix _ => True
    | ReadingHeaders bytes =>
        bytes = Z.of_nat (length t) ∧ bytes ≤ MAX_MULTIPART_PART_HEADER_BYTES ∧ matcher_ok blank_line t v.(header_terminator)
    | ReadingData => matcher_ok (delimiter boundary) t v.(field_boundary)
    | StructureDone => True
    end.

Lemma after_boundary_iff rest :
  after_boundary boundary rest ↔ (∃ r, rest = DASHES ++ r) ∨ padding_rest 0 rest.
Proof.
  split.
  - intros [e|padding headers data r Hp Hn Hh Hl Hd Hr]; [by left; exists e|right].
    exists padding, (headers ++ data ++ r). split_and!; [done|done|lia|].
    exists headers, (data ++ r). split_and!; [done|done|done|]. by exists data, r.
  - intros [[r ->]|(padding & r & -> & Hp & Hn & (headers & r' & -> & Hh & Hl & (data & r'' & -> & Hd & Hr)))];
      [constructor|]. rewrite <- ?app_assoc. apply after_part; try done; lia.
Qed.

Lemma opening_matched t m : matcher_ok opening t m → (m.(matched) < length opening)%nat.
Proof.
  intros (_ & _ & (Hle & Hs & _) & Hf). destruct (decide (m.(matched) = length opening)) as [E|]; [|lia].
  rewrite E, take_ge in Hs by lia. destruct (Hf t []); [by rewrite app_nil_r|done].
Qed.

(** A match that starts within the first bytes of a text overlaps its end. *)
Lemma suffix_overlap (pat a b : str) : pat `suffix_of` a ++ b → (length (a ++ b) ≤ length a + length pat)%nat →
  take (length a + length pat - length (a ++ b)) pat `suffix_of` a.
Proof.
  intros [x Hx] Hl. assert (length (a ++ b) = length x + length pat)%nat as Hlen by (rewrite Hx; apply length_app).
  exists x. apply (f_equal (take (length a))) in Hx. rewrite take_app_length, take_app_ge in Hx by lia.
  rewrite Hx at 1. f_equal. f_equal. lia.
Qed.

Lemma opening_too_far t n rest : longest opening t n → MAX_MULTIPART_PREAMBLE_BYTES < Z.of_nat (length t) - Z.of_nat n →
  ¬ opening_rest t rest.
Proof.
  intros (Hn & _ & Hmax) Hfar (u & r & -> & [Hs _] & Hl & _).
  assert (length (t ++ u) ≤ length t + length opening)%nat by (unfold MAX_MULTIPART_PREAMBLE_BYTES in *; lia).
  pose proof (suffix_overlap _ _ _ Hs ltac:(done)) as Hov. apply Hmax in Hov; [lia|].
  rewrite length_app. lia.
Qed.

Lemma padding_rest_cons n c rest : n ≤ MAX_MULTIPART_BOUNDARY_PADDING_BYTES →
  padding_rest n (c :: rest) ↔
  if is_padding c then padding_rest (n + 1) rest
  else c = CR ∧ ∃ r, rest = LF :: r ∧ header_rest [] r.
Proof.
  intros Hmax. split.
  - intros (padding & r & Hr & Hp & Hn & Hh). destruct padding as [|d padding]; simpl in Hr.
    + injection Hr as -> ->. simpl. eauto.
    + injection Hr as <- ->. apply Forall_cons in Hp as [-> Hp]. exists padding, r. simpl in Hn. split_and!; [done|done|lia|done].
  - destruct (is_padding c) eqn:Ep.
    + intros (padding & r & -> & Hp & Hn & Hh). exists (c :: padding), r. simpl. split_and!; [done|by constructor|lia|done].
    + intros (-> & r & -> & Hh). exists [], r. simpl. split_and!; [done|done|lia|done].
Qed.

Lemma padding_rest_far n rest : MAX_MULTIPART_BOUNDARY_PADDING_BYTES < n → ¬ padding_rest n rest.
Proof. intros Hn (padding & r & _ & _ & Hl & _). lia. Qed.

Lemma dash_not_padding c : byte c = 45 → is_padding c = false.
Proof. unfold is_padding. by intros ->. Qed.

(** One byte after a boundary. *)
Lemma suffix_byte_ok v t suffix c : v.(vstate) = ReadingBoundarySuffix suffix → validator_ok v t →
  match suffix_byte v suffix c with
  | Ok v' => ∃ t', validator_ok v' t' ∧ ∀ rest, completes v t (c :: rest) ↔ completes v' t' rest
  | Err _ => ∀ rest, ¬ completes v t (c :: rest)
  end.
Proof.
  intros Hv (H1 & H2 & [t3 H3] & Hs). unfold completes. rewrite Hv in Hs |- *.
  assert (∀ s, match s with SuffixPadding n => 0 ≤ n ≤ MAX_MULTIPART_BOUNDARY_PADDING_BYTES | _ => True end →
    validator_ok (with_vstate v (ReadingBoundarySuffix s)) []) as Hnext by (intros s Hn; split_and!; eauto; by destruct s).
  destruct suffix as [| |n|]; unfold suffix_byte.
  - destruct (Z.eqb_spec (byte c) 45) as [Hc|Hc].
    { exists []. split; [by apply Hnext|]. intros rest. simpl. rewrite after_boundary_iff, padding_rest_cons, dash_not_padding by done.
      apply (byte_is c 45) in Hc as ->; [|done]. split; [intros [[r [= ->]]|[[=] _]]|intros [r ->]; left]; by exists r. }
    destruct (is_padding c) eqn:Ep.
    { exists []. split; [by apply Hnext|]. intros rest. simpl. rewrite after_boundary_iff, padding_rest_cons, Ep by done.
      split; [intros [[r [= -> _]]|?]; done|by right]. }
    destruct (Z.eqb_spec (byte c) 13) as [Hr|Hr].
    { exists []. split; [by apply Hnext|]. intros rest. simpl. rewrite after_boundary_iff, padding_rest_cons, Ep by done.
      apply (byte_is c 13) in Hr as ->; [|done]. split; [intros [[r [=]]|[_ ?]]; done|by right]. }
    intros rest. simpl. rewrite after_boundary_iff, padding_rest_cons, Ep by done. intros [[r [= -> _]]|[-> _]]; done.
  - destruct (Z.eqb_spec (byte c) 45) as [Hc|Hc].
    + exists []. split; [split_and!; eauto; done|]. intros rest. simpl. apply (byte_is c 45) in Hc as ->; [|done]. split; [done|by exists rest].
    + intros rest [r [= -> _]]. done.
  - destruct (is_padding c) eqn:Ep.
    + assert (sat_add u64_max n 1 = n + 1) as -> by (unfold_ints; unfold MAX_MULTIPART_BOUNDARY_PADDING_BYTES in *; lia).
      destruct (Z.ltb_spec MAX_MULTIPART_BOUNDARY_PADDING_BYTES (n + 1)).
      * intros rest. rewrite padding_rest_cons, Ep by lia. by apply padding_rest_far.
      * exists []. split; [apply Hnext; lia|]. intros rest. simpl. by rewrite padding_rest_cons, Ep by lia.
    + destruct (Z.eqb_spec (byte c) 13) as [Hc|Hc].
      * exists []. split; [by apply Hnext|]. intros rest. simpl. rewrite padding_rest_cons, Ep by lia.
        apply (byte_is c 13) in Hc as ->; [|done]. split; [by intros [_ ?]|done].
      * intros rest. rewrite padding_rest_cons, Ep by lia. by intros [-> _].
  - destruct (Z.eqb_spec (byte c) 10) as [Hc|Hc].
    + exists []. apply (matcher_reset_ok blank_line) in H3; [|done]. split.
      * split_and!; [done|done|by exists []|]. simpl. split_and!; [done| |done]. done.
      * intros rest. simpl. apply (byte_is c 10) in Hc as ->; [|done]. split; [by intros (r & [= ->] & ?)|by exists rest].
    + intros rest (r & [= -> _] & _). done.
Qed.
Lemma opening_nonempty : opening ≠ [].
Proof. done. Qed.

Lemma opening_length : Z.of_nat (length opening) = 2 + Z.of_nat (length boundary).
Proof. unfold opening. rewrite length_app. simpl. lia. Qed.

Lemma opening_byte_ok v t scanned c : v.(vstate) = FindingFirstBoundary scanned → validator_ok v t →
  ∃ r, push_byte v c = Some r ∧
  match r with
  | Ok v' => ∃ t', validator_ok v' t' ∧ ∀ rest, completes v t (c :: rest) ↔ completes v' t' rest
  | Err _ => ∀ rest, ¬ completes v t (c :: rest)
  end.
Proof.
  intros Hv (_ & H2 & H3 & Hs). unfold completes, push_byte. rewrite Hv in Hs |- *. destruct Hs as (-> & Hm & Hfar).
  pose proof (opening_matched _ _ Hm) as Hlt. pose proof opening_length as Hlen.
  assert (sat_add u64_max (Z.of_nat (length t)) 1 = Z.of_nat (length (t ++ [c]))) as ->.
  { rewrite length_app. simpl. unfold_ints. unfold MAX_MULTIPART_PREAMBLE_BYTES, MAX_MULTIPART_BOUNDARY_BYTES in *. lia. }
  destruct (matcher_push_ok opening t _ c opening_nonempty Hm) as (m & found & -> & Hf). simpl.
  pose proof (proj2 (proj2 (proj2 Hm))) as Hfree.
  destruct found; eexists; (split; [done|]).
  - destruct Hf as [He Hm']. exists []. split; [split_and!; eauto; done|]. intros rest. simpl. unfold opening_rest.
    rewrite until_step, until_found by done. split; [by intros [_ ?]|]. intros Ha. split; [|done].
    rewrite length_app. simpl. lia.
  - unfold sat_sub. rewrite Z.max_r by (pose proof (longest_length _ _ _ (proj1 (proj2 (proj2 Hf)))); lia).
    destruct (Z.ltb_spec MAX_MULTIPART_PREAMBLE_BYTES (Z.of_nat (length (t ++ [c])) - Z.of_nat (matched m))) as [Hgt|Hle].
    + intros rest. unfold opening_rest. rewrite until_step by done. apply (opening_too_far _ (matched m)); [apply Hf|done].
    + exists (t ++ [c]). split; [split_and!; eauto; split_and!; done|]. intros rest. simpl. unfold opening_rest. by rewrite until_step.
Qed.

Lemma push_byte_ok v t c : validator_ok v t →
  ∃ r, push_byte v c = Some r ∧
  match r with
  | Ok v' => ∃ t', validator_ok v' t' ∧ ∀ rest, completes v t (c :: rest) ↔ completes v' t' rest
  | Err _ => ∀ rest, ¬ completes v t (c :: rest)
  end.
Proof.
  intros Hok. destruct v.(vstate) as [scanned|suffix|bytes| |] eqn:Hv; [by eapply opening_byte_ok| | | |].
  - unfold push_byte. rewrite Hv. eexists. split; [done|]. by apply suffix_byte_ok.
  - destruct Hok as (H1 & [t2 H2] & _ & Hs). unfold completes, push_byte. rewrite Hv in Hs |- *. destruct Hs as (-> & Hmax & Hm).
    pose proof (proj2 (proj2 (proj2 Hm))) as Hfree.
    assert (sat_add u64_max (Z.of_nat (length t)) 1 = Z.of_nat (length (t ++ [c]))) as ->.
    { rewrite length_app. simpl. unfold_ints. unfold MAX_MULTIPART_PART_HEADER_BYTES in *. lia. }
    destruct (Z.ltb_spec MAX_MULTIPART_PART_HEADER_BYTES (Z.of_nat (length (t ++ [c])))) as [Hgt|Hle].
    { eexists. split; [done|]. intros rest. unfold header_rest. rewrite until_step by done. intros (u & r & _ & _ & Hl & _).
      rewrite length_app in Hl. lia. }
    destruct (matcher_push_ok blank_line t _ c ltac:(done) Hm) as (m & found & -> & Hf). simpl.
    eexists. split; [done|]. destruct found; simpl.
    + destruct Hf as [He Hm']. exists []. apply (matcher_reset_ok (delimiter boundary)) in H2; [|done].
      split; [split_and!; simpl; eauto|]. intros rest. unfold header_rest. rewrite until_step, until_found by done.
      split; [by intros [_ ?]|done].
    + exists (t ++ [c]). split; [split_and!; eauto; split_and!; done|]. intros rest. unfold header_rest. by rewrite until_step.
  - destruct Hok as (H1 & _ & H3 & Hs). unfold completes, push_byte. rewrite Hv in Hs |- *.
    pose proof (proj2 (proj2 (proj2 Hs))) as Hfree.
    destruct (matcher_push_ok (delimiter boundary) t _ c ltac:(done) Hs) as (m & found & -> & Hf). simpl.
    eexists. split; [done|]. destruct found; simpl; rewrite ?Hv.
    + destruct Hf as [He Hm']. exists []. split; [split_and!; simpl; eauto|]. intros rest. unfold data_rest.
      by rewrite until_step, until_found by done.
    + exists (t ++ [c]). split; [split_and!; simpl; rewrite ?Hv; eauto|]. intros rest. unfold data_rest. by rewrite until_step.
  - unfold push_byte, completes. rewrite Hv. eexists. split; [done|]. exists t. rewrite Hv. done.
Qed.

(** At the end of the body only the state after the close completes it. *)
Lemma completes_end v t : validator_ok v t → completes v t [] ↔ validator_finish v = Ok tt.
Proof.
  intros (_ & _ & _ & Hs). unfold completes, validator_finish.
  destruct v.(vstate) as [scanned|[| |n|]|bytes| |]; simpl; split; try done.
  - intros []%until_nil. apply Hs.
  - rewrite after_boundary_iff. intros [[r [=]]|(padding & r & Hr & _)]. by destruct padding.
  - intros [r [=]].
  - intros (padding & r & Hr & _). by destruct padding.
  - intros (r & [=] & _).
  - intros []%until_nil. apply Hs.
  - intros []%until_nil. apply Hs.
Qed.

Lemma validator_push_ok v t body : validator_ok v t →
  ∃ r, validator_push v body = Some r ∧ ((∃ v', r = Ok v' ∧ validator_finish v' = Ok tt) ↔ completes v t body).
Proof.
  revert v t. induction body as [|c body IH]; intros v t Hok; simpl.
  { eexists. split; [done|]. rewrite (completes_end v t Hok). split; [by intros (v' & [= <-] & ?)|by exists v]. }
  destruct (push_byte_ok v t c Hok) as (r & -> & Hr). simpl. destruct r as [v'|e].
  - destruct Hr as (t' & Hok' & Hiff). destruct (IH _ _ Hok') as (r & Hr' & Hi). exists r. split; [done|]. by rewrite Hi, Hiff.
  - eexists. split; [done|]. split; [by intros (v' & [=] & _)|by intros ?%Hr].
Qed.

Lemma validator_push_app v a b :
  validator_push v (a ++ b) = (r ← validator_push v a; match r with Ok v => validator_push v b | Err e => Some (Err e) end).
Proof. revert v. induction a as [|c a IH]; intros v; simpl; [done|]. destruct (push_byte v c) as [[v'|e]|]; simpl; auto. Qed.

Lemma validator_push_Ok v t body v' : validator_ok v t → validator_push v body = Some (Ok v') →
  ∃ t', validator_ok v' t' ∧ ∀ rest, completes v t (body ++ rest) ↔ completes v' t' rest.
Proof.
  revert v t. induction body as [|c body IH]; intros v t Hok; simpl.
  { intros [= <-]. by exists t. }
  destruct (push_byte_ok v t c Hok) as (r & -> & Hr). simpl. destruct r as [v1|e]; [|done].
  destruct Hr as (t1 & Hok1 & Hiff). intros Hb. destruct (IH v1 t1 Hok1 Hb) as (t' & Hok' & Hiff').
  exists t'. split; [done|]. intros rest. by rewrite Hiff, Hiff'.
Qed.

Lemma guard_chunks_ok chunks v t : validator_ok v t →
  ∃ passed outcome, guard_chunks v chunks = Some (passed, outcome)
    ∧ (outcome = Ok tt ↔ completes v t (concat chunks)) ∧ (outcome = Ok tt → passed = chunks).
Proof.
  revert v t. induction chunks as [|chunk chunks IH]; intros v t Hok; simpl.
  { eexists _, _. split; [done|]. split; [by rewrite completes_end|done]. }
  destruct (validator_push_ok v t chunk Hok) as (r & Hr & _). rewrite Hr. simpl. destruct r as [v'|e].
  - destruct (validator_push_Ok v t chunk v' Hok Hr) as (t' & Hok' & Hiff).
    destruct (IH v' t' Hok') as (passed & o & -> & Ho & Hp). simpl. eexists _, _. split; [done|].
    rewrite Hiff. split; [done|]. intros E. by rewrite (Hp E).
  - eexists _, _. split; [done|]. split; [|done]. split; [done|]. intros Hc.
    destruct (validator_push_ok v t (chunk ++ concat chunks) Hok) as (r & Hr' & Hiff).
    rewrite validator_push_app, Hr in Hr'. simpl in Hr'. injection Hr' as <-. by apply Hiff in Hc as (? & [=] & _).
Qed.

Lemma new_validator_ok : ∃ v, new_validator boundary = Some v ∧ v.(vstate) = FindingFirstBoundary 0 ∧ validator_ok v [].
Proof.
  unfold new_validator. destruct (new_matcher_ok opening) as (m1 & Hm1 & H1); [done|].
  destruct (new_matcher_ok (delimiter boundary)) as (m2 & Hm2 & H2); [done|].
  destruct (new_matcher_ok blank_line) as (m3 & Hm3 & H3); [done|].
  eexists. split.
  { apply bind_Some. exists m1. split; [exact Hm1|]. apply bind_Some. exists m2. split; [exact Hm2|].
    apply bind_Some. exists m3. split; [exact Hm3|reflexivity]. }
  split; [done|]. split_and!; simpl; eauto. split_and!; [done|done|].
  unfold MAX_MULTIPART_PREAMBLE_BYTES. simpl. lia.
Qed.

Lemma opening_rest_iff body : opening_rest [] body ↔ well_structured boundary body.
Proof.
  unfold opening_rest, until, well_structured. simpl. split.
  - intros (u & r & -> & [[x ->] Hm] & Hl & Ha). exists x, r. fold opening. rewrite <- app_assoc. split_and!; [done|by split; [exists x|]| |done].
    pose proof (length_app x opening). unfold opening in *. simpl in *. lia.
  - intros (x & r & -> & He & Hl & Ha). exists (x ++ opening), r. rewrite <- app_assoc. split_and!; [done|done| |done].
    pose proof (length_app x opening). unfold opening in *. simpl in *. lia.
Qed.
End language.

(** C27: The multipart guard never panics, and it lets a body through exactly when
    the body has the structure of a multipart body within the limits: a preamble
    of at most 8 KiB before the first boundary, padding of at most 1 KiB after a
    boundary, headers of at most 16 KiB per part, data that end at the first
    delimiter, and a closing boundary.  How the body is cut into chunks does not
    matter, and an accepted body passes unchanged. *)
Theorem multipart_guard_exact (boundary : str) (chunks : list str)
    (Hboundary : Z.of_nat (length boundary) ≤ MAX_MULTIPART_BOUNDARY_BYTES) :
  ∃ passed outcome, guard_multipart_stream boundary chunks = Some (passed, outcome)
    ∧ (outcome = Ok tt ↔ well_structured boundary (concat chunks)) ∧ (outcome = Ok tt → passed = chunks).
Proof.
  destruct (new_validator_ok boundary) as (v & Hv & Hs & Hok).
  unfold guard_multipart_stream. rewrite Hv. simpl.
  destruct (guard_chunks_ok boundary Hboundary chunks v [] Hok) as (passed & o & Hg & Ho & Hp).
  exists passed, o. split_and!; [done| |done]. rewrite Ho. unfold completes. rewrite Hs. apply opening_rest_iff.
Qed.
