(* ===== verification/ImageBody.v ===== *)
(** * Replayable request bodies

    Models the body store of [src/application/request_body.rs]: a writer that
    keeps a body in memory up to a threshold and spills it to a temporary file
    beyond, the body it yields, which can be read any number of times, and the
    counters of the store.

    Every file-system call consumes one [Fault]: it completes or fails, a write
    after some of its bytes.  A temporary file is its content.  The counters are
    [AtomicU64]s shared by all requests; [fetch_add] wraps around.  The free
    space that [finish] looks up is only logged. *)

From S2P Require Import Prelude Text.

Definition BODY_READ_CHUNK_BYTES : Z := 65536.
Definition chunk_size : nat := Z.to_nat BODY_READ_CHUNK_BYTES.
#[global] Arguments chunk_size : simpl never.

(** The errors of the store. *)
Inductive StoreError := BodyTooLarge | StorageUnavailable.

(** ** Counters and faults *)

Record ImageBodySpoolMetrics := {
  active_files : Z;
  active_bytes : Z;
  spooled_total : Z;
  spooled_bytes_total : Z;
  storage_failures_total : Z
}.

Inductive Fault := Completes | FailsAfter (written : nat).

Record Store := { metrics : ImageBodySpoolMetrics; faults : list Fault }.

Definition with_metrics (w : Store) (m : ImageBodySpoolMetrics) : Store := {| metrics := m; faults := w.(faults) |}.

(** The outcome of the next call. *)
Definition next_fault (w : Store) : Store * Fault :=
  match w.(faults) with
  | [] => (w, Completes)
  | f :: fs => ({| metrics := w.(metrics); faults := fs |}, f)
  end.

Definition count_active (files bytes : Z) (w : Store) : Store :=
  let m := w.(metrics) in
  with_metrics w {| active_files := wrap64 (m.(active_files) + files); active_bytes := wrap64 (m.(active_bytes) + bytes);
                    spooled_total := m.(spooled_total); spooled_bytes_total := m.(spooled_bytes_total);
                    storage_failures_total := m.(storage_failures_total) |}.

Definition count_spooled (length : Z) (w : Store) : Store :=
  let m := w.(metrics) in
  with_metrics w {| active_files := m.(active_files); active_bytes := m.(active_bytes);
                    spooled_total := wrap64 (m.(spooled_total) + 1);
                    spooled_bytes_total := wrap64 (m.(spooled_bytes_total) + length);
                    storage_failures_total := m.(storage_failures_total) |}.

Definition storage_failed (w : Store) : Store :=
  let m := w.(metrics) in
  with_metrics w {| active_files := m.(active_files); active_bytes := m.(active_bytes); spooled_total := m.(spooled_total);
                    spooled_bytes_total := m.(spooled_bytes_total);
                    storage_failures_total := wrap64 (m.(storage_failures_total) + 1) |}.

(** ** Temporary files

    [TempFileAccounting] is the number of bytes it has added; dropping it takes
    the file and these bytes off the counters. *)

Record TempFile := { content : str; accounted : Z }.

Definition drop_file (f : TempFile) (w : Store) : Store := count_active (-1) (- f.(accounted)) w.

Fixpoint all_complete (calls : nat) (w : Store) : Store * bool :=
  match calls with
  | O => (w, true)
  | S calls =>
      let '(w, f) := next_fault w in
      match f with Completes => all_complete calls w | FailsAfter _ => (w, false) end
  end.

(** [create_file]: the directory, its permissions, the file and its
    permissions. *)
Definition create_file (w : Store) : Store * result TempFile StoreError :=
  let '(w, ok) := all_complete 4 w in
  if ok then (count_active 1 0 w, Ok {| content := []; accounted := 0 |})
  else (storage_failed w, Err StorageUnavailable).

(** [bytes.chunks(BODY_READ_CHUNK_BYTES)] *)
Fixpoint chunks_fuel (fuel : nat) (s : str) : list str :=
  match fuel, s with
  | O, _ | _, [] => []
  | S fuel, _ =>
      take (chunk_size) s :: chunks_fuel fuel (drop (chunk_size) s)
  end.
Definition chunks (s : str) : list str := chunks_fuel (length s) s.

(** The loop of [write_all] calls over the chunks of a buffer. *)
Fixpoint write_chunks (f : TempFile) (chunks : list str) (w : Store) : Store * TempFile * result unit StoreError :=
  match chunks with
  | [] => (w, f, Ok tt)
  | chunk :: chunks =>
      let '(w, fault) := next_fault w in
      match fault with
      | Completes =>
          let n := Z.of_nat (length chunk) in
          write_chunks {| content := f.(content) ++ chunk; accounted := wrap64 (f.(accounted) + n) |} chunks
            (count_active 0 n w)
      | FailsAfter k =>
          (storage_failed w, {| content := f.(content) ++ take k chunk; accounted := f.(accounted) |}, Err StorageUnavailable)
      end
  end.

(** ** The writer *)

Inductive WriterStorage := StorageMemory (body : str) | StorageTempFile (file : TempFile).

Record ReplayableBodyWriter := { storage : WriterStorage; wlength : Z; memory_bytes : Z; max_bytes : Z }.

Definition new_writer (memory max : Z) : ReplayableBodyWriter :=
  {| storage := StorageMemory []; wlength := 0; memory_bytes := memory; max_bytes := max |}.

Definition with_storage (wr : ReplayableBodyWriter) (s : WriterStorage) (length : Z) : ReplayableBodyWriter :=
  {| storage := s; wlength := length; memory_bytes := wr.(memory_bytes); max_bytes := wr.(max_bytes) |}.

Definition drop_storage (s : WriterStorage) (w : Store) : Store :=
  match s with StorageMemory _ => w | StorageTempFile f => drop_file f w end.

Definition spill (wr : ReplayableBodyWriter) (w : Store) : Store * ReplayableBodyWriter * result unit StoreError :=
  match wr.(storage) with
  | StorageTempFile _ => (w, wr, Ok tt)
  | StorageMemory memory =>
      let emptied := with_storage wr (StorageMemory []) wr.(wlength) in
      let '(w, created) := create_file w in
      match created with
      | Err e => (w, emptied, Err e)
      | Ok file =>
          let '(w, file, r) := write_chunks file (chunks memory) w in
          match r with
          | Ok _ => (w, with_storage wr (StorageTempFile file) wr.(wlength), Ok tt)
          | Err e => (drop_file file w, emptied, Err e)
          end
      end
  end.

(** The [TempFile] branch of [write]. *)
Definition write_file (wr : ReplayableBodyWriter) (file : TempFile) (bytes : str) (w : Store)
    : Store * ReplayableBodyWriter * result unit StoreError :=
  let '(w, file, r) := write_chunks file (chunks bytes) w in
  match r with
  | Ok _ => (w, with_storage wr (StorageTempFile file) (wr.(wlength) + Z.of_nat (length bytes)), Ok tt)
  | Err e => (w, with_storage wr (StorageTempFile file) wr.(wlength), Err e)
  end.

Definition write (wr : ReplayableBodyWriter) (bytes : str) (w : Store) : Store * ReplayableBodyWriter * result unit StoreError :=
  let next := wr.(wlength) + Z.of_nat (length bytes) in
  if (u64_max <? next) || (wr.(max_bytes) <? next) then (w, wr, Err BodyTooLarge)
  else
    let '(w, wr, spilled) :=
      match wr.(storage) with
      | StorageMemory _ => if wr.(memory_bytes) <? next then spill wr w else (w, wr, Ok tt)
      | StorageTempFile _ => (w, wr, Ok tt)
      end in
    match spilled with
    | Err e => (w, wr, Err e)
    | Ok _ =>
        match wr.(storage) with
        | StorageMemory body => (w, with_storage wr (StorageMemory (body ++ bytes)) next, Ok tt)
        | StorageTempFile file => write_file wr file bytes w
        end
    end.

Inductive ReplayableRequestBody := BodyMemory (body : str) | BodyTempFile (file : TempFile) (length : Z).

Definition body_len (b : ReplayableRequestBody) : Z :=
  match b with BodyMemory body => Z.of_nat (length body) | BodyTempFile _ length => length end.

Definition drop_body (b : ReplayableRequestBody) (w : Store) : Store :=
  match b with BodyMemory _ => w | BodyTempFile f _ => drop_file f w end.

(** [finish]: [flush] and [seek] of a temporary file can fail. *)
Definition finish (wr : ReplayableBodyWriter) (w : Store) : Store * result ReplayableRequestBody StoreError :=
  match wr.(storage) with
  | StorageMemory body => (w, Ok (BodyMemory body))
  | StorageTempFile file =>
      let '(w, ok) := all_complete 2 w in
      if ok then (count_spooled wr.(wlength) w, Ok (BodyTempFile file wr.(wlength)))
      else (drop_file file (storage_failed w), Err StorageUnavailable)
  end.

(** The loop of [capture] over the chunks of a request: an error drops the
    writer. *)
Fixpoint write_all (wr : ReplayableBodyWriter) (input : list str) (w : Store) : Store * result ReplayableBodyWriter StoreError :=
  match input with
  | [] => (w, Ok wr)
  | chunk :: input =>
      let '(w, wr, r) := write wr chunk w in
      match r with Ok _ => write_all wr input w | Err e => (drop_storage wr.(storage) w, Err e) end
  end.

Definition capture_body (memory max : Z) (input : list str) (w : Store) : Store * result ReplayableRequestBody StoreError :=
  let '(w, r) := write_all (new_writer memory max) input w in
  match r with Ok wr => finish wr w | Err e => (w, Err e) end.

(** [stream]: a body in memory is cut into chunks; a file is read, after a [seek],
    in pieces of whatever size the reads return, at most a buffer.  The flag says
    that the stream ends with an error. *)
Definition read_size (n : nat) : nat := Nat.max 1 (Nat.min n chunk_size).
Fixpoint read_file (fuel : nat) (sizes : list nat) (s : str) (w : Store) : Store * (list str * bool) :=
  let '(w, f) := next_fault w in
  match f with
  | FailsAfter _ => (storage_failed w, ([], true))
  | Completes =>
      match fuel, s with
      | O, _ | _, [] => (w, ([], false))
      | S fuel, _ =>
          let n := read_size (default chunk_size (head sizes)) in
          let '(w, (cs, broken)) := read_file fuel (tail sizes) (drop n s) w in
          (w, (take n s :: cs, broken))
      end
  end.
Definition stream (sizes : list nat) (b : ReplayableRequestBody) (w : Store) : Store * result (list str * bool) StoreError :=
  match b with
  | BodyMemory body => (w, Ok (chunks body, false))
  | BodyTempFile f _ =>
      let '(w, fault) := next_fault w in
      match fault with
      | FailsAfter _ => (storage_failed w, Err StorageUnavailable)
      | Completes => let '(w, r) := read_file (length f.(content)) sizes f.(content) w in (w, Ok r)
      end
  end.

(** ** Counters *)

Lemma wrap64_add_l a b : wrap64 (wrap64 a + b) = wrap64 (a + b).
Proof. apply Zplus_mod_idemp_l. Qed.
Lemma wrap64_add_r a b : wrap64 (a + wrap64 b) = wrap64 (a + b).
Proof. apply Zplus_mod_idemp_r. Qed.
Lemma wrap64_sub_r a b : wrap64 (a - wrap64 b) = wrap64 (a - b).
Proof. apply Zminus_mod_idemp_r. Qed.

(** The counters of live files are these numbers of files and bytes. *)
Definition counted (w : Store) (files bytes : Z) : Prop :=
  w.(metrics).(active_files) = wrap64 files ∧ w.(metrics).(active_bytes) = wrap64 bytes.

Lemma counted_active df db w files bytes : counted w files bytes → counted (count_active df db w) (files + df) (bytes + db).
Proof. intros [H1 H2]. split; simpl; rewrite ?H1, ?H2; apply wrap64_add_l. Qed.

Lemma counted_wrap w files bytes b : counted w files (bytes + wrap64 b) ↔ counted w files (bytes + b).
Proof. unfold counted. by rewrite wrap64_add_r. Qed.

Lemma counted_failed w files bytes : counted w files bytes → counted (storage_failed w) files bytes.
Proof. done. Qed.

Lemma counted_drop_file f w files bytes :
  counted w (files + 1) (bytes + f.(accounted)) → counted (drop_file f w) files bytes.
Proof.
  intros H. apply (counted_active (-1) (- f.(accounted))) in H.
  replace (files + 1 + -1) with files in H by lia. by replace (bytes + f.(accounted) + - f.(accounted)) with bytes in H by lia.
Qed.

(** What an owner of a body adds to the counters. *)
Definition files_of (s : WriterStorage) : Z := match s with StorageMemory _ => 0 | StorageTempFile _ => 1 end.
Definition bytes_in (s : WriterStorage) : Z := match s with StorageMemory _ => 0 | StorageTempFile f => f.(accounted) end.

Lemma counted_drop_storage s w files bytes :
  counted w (files + files_of s) (bytes + bytes_in s) → counted (drop_storage s w) files bytes.
Proof. destruct s as [b|f]; simpl; [by rewrite !Z.add_0_r|apply counted_drop_file]. Qed.

(** ** Faults *)

Definition fails (w : Store) : Prop := ∃ k, FailsAfter k ∈ w.(faults).

(** A later store: the counters may have changed, faults are only consumed. *)
Definition later (w w' : Store) : Prop := w'.(faults) `suffix_of` w.(faults).

Lemma later_fails w w' : later w w' → fails w' → fails w.
Proof. intros [fs Hf] [k Hk]. exists k. rewrite Hf. set_solver. Qed.

Lemma later_refl w : later w w.
Proof. unfold later. reflexivity. Qed.

Lemma later_trans w1 w2 w3 : later w1 w2 → later w2 w3 → later w1 w3.
Proof. unfold later. intros H1 H2. by trans (faults w2). Qed.

Lemma next_fault_ok w w' f : next_fault w = (w', f) →
  later w w' ∧ w'.(metrics) = w.(metrics) ∧ (∀ k, f = FailsAfter k → fails w).
Proof.
  unfold next_fault. destruct w as [m fs]. simpl. destruct fs as [|f' fs]; intros [= <- <-].
  - split_and!; [by apply later_refl|done|done].
  - split_and!; [by exists [f']|done|]. intros k ->. exists k. simpl. set_solver.
Qed.

Lemma all_complete_ok n w w' ok : all_complete n w = (w', ok) →
  later w w' ∧ w'.(metrics) = w.(metrics) ∧ (ok = false → fails w).
Proof.
  revert w. induction n as [|n IH]; intros w; simpl.
  { intros [= <- <-]. split_and!; [apply later_refl|done|done]. }
  destruct (next_fault w) as [w1 f] eqn:E. apply next_fault_ok in E as (Hl & Hm & Hf). destruct f as [|k].
  - intros (Hl' & Hm' & Hf')%IH. split_and!; [by eapply later_trans|congruence|]. intros ?. eapply later_fails; eauto.
  - intros [= <- <-]. split_and!; [done|done|]. intros _. by eapply Hf.
Qed.

(** ** Chunks *)

Lemma chunk_size_spec : Z.of_nat chunk_size = BODY_READ_CHUNK_BYTES.
Proof. unfold chunk_size. by rewrite Z2Nat.id. Qed.

Lemma chunk_size_pos : (1 ≤ chunk_size)%nat.
Proof. pose proof chunk_size_spec. unfold BODY_READ_CHUNK_BYTES in *. lia. Qed.

Lemma concat_chunks_fuel n s : (length s ≤ n)%nat → concat (chunks_fuel n s) = s.
Proof.
  revert s. induction n as [|n IH]; intros s Hn; [by destruct s; simpl in *; [|lia]|].
  destruct s as [|c s]; [done|]. cbn [chunks_fuel concat]. rewrite IH; [apply take_drop|].
  pose proof chunk_size_pos. rewrite length_drop. cbn [length] in *. lia.
Qed.

Lemma concat_chunks s : concat (chunks s) = s.
Proof. by apply concat_chunks_fuel. Qed.

Lemma chunks_fuel_bound n s : Forall (λ c, Z.of_nat (length c) ≤ BODY_READ_CHUNK_BYTES) (chunks_fuel n s).
Proof.
  revert s. induction n as [|n IH]; intros [|c s]; cbn [chunks_fuel]; [done..|]. constructor; [|done].
  pose proof chunk_size_spec. rewrite length_take. lia.
Qed.

Lemma read_file_ok n sizes s w w' cs broken : read_file n sizes s w = (w', (cs, broken)) → (length s ≤ n)%nat →
  later w w' ∧ (∀ files bytes, counted w files bytes → counted w' files bytes)
  ∧ Forall (λ c, Z.of_nat (length c) ≤ BODY_READ_CHUNK_BYTES) cs
  ∧ (if broken then fails w ∧ ∃ rest, s = concat cs ++ rest else s = concat cs).
Proof.
  revert sizes s w w' cs broken. induction n as [|n IH]; intros sizes s w w' cs broken; cbn [read_file];
    destruct (next_fault w) as [w1 [|k]] eqn:E; apply next_fault_ok in E as (Hl & Hm & Hf).
  2,4: intros [= <- <- <-] _; split_and!; [done|by intros ?? [Hx Hy]; split; simpl; rewrite Hm|done|by eapply Hf|by exists s].
  { intros [= <- <- <-] Hn. assert (s = []) as -> by (destruct s; [done|simpl in Hn; lia]).
    split_and!; [done|by intros ?? [Hx Hy]; split; rewrite Hm|done|done]. }
  destruct s as [|c s]; intros Hr Hn.
  { injection Hr as <- <- <-. split_and!; [done|by intros ?? [Hx Hy]; split; rewrite Hm|done|done]. }
  revert Hr. set (k := read_size _). destruct (read_file n _ _ w1) as [w2 [cs2 broken2]] eqn:Er. intros [= <- <- <-].
  assert (1 ≤ k)%nat by (unfold k, read_size; lia).
  assert (Z.of_nat k ≤ BODY_READ_CHUNK_BYTES) by (pose proof chunk_size_spec; pose proof chunk_size_pos; unfold k, read_size; lia).
  apply IH in Er as (Hl2 & Hc2 & Hf2 & Hs2); [|rewrite length_drop; cbn [length] in *; lia].
  split_and!; [by eapply later_trans|intros ?? [Hx Hy]; apply Hc2; by split; rewrite Hm|constructor; [rewrite length_take; lia|done]|].
  destruct broken2.
  - destruct Hs2 as [Hfail [rest Hrest]]. split; [by eapply later_fails|]. exists rest. cbn [concat].
    by rewrite <- app_assoc, <- Hrest, take_drop.
  - cbn [concat]. by rewrite <- Hs2, take_drop.
Qed.

(** ** Operations *)

Lemma create_file_ok w w' r files bytes : create_file w = (w', r) → counted w files bytes →
  later w w' ∧ match r with
  | Ok f => f = {| content := []; accounted := 0 |} ∧ counted w' (files + 1) bytes
  | Err e => e = StorageUnavailable ∧ fails w ∧ counted w' files bytes
  end.
Proof.
  unfold create_file. destruct (all_complete 4 w) as [w1 ok] eqn:E. apply all_complete_ok in E as (Hl & Hm & Hf).
  intros Hc [Hb Hy]. destruct ok; injection Hc as <- <-.
  - split; [done|]. split; [done|]. rewrite <- (Z.add_0_r bytes). apply counted_active. by split; rewrite Hm.
  - split; [done|]. split_and!; [done|auto|]. apply counted_failed. by split; rewrite Hm.
Qed.

Lemma write_chunks_ok f cs w w' f' r files bytes x :
  write_chunks f cs w = (w', f', r) → f.(accounted) = wrap64 x → counted w files (bytes + f.(accounted)) →
  later w w' ∧ counted w' files (bytes + f'.(accounted))
  ∧ match r with
    | Ok _ => f' = {| content := f.(content) ++ concat cs; accounted := wrap64 (x + Z.of_nat (length (concat cs))) |}
    | Err e => e = StorageUnavailable ∧ fails w
    end.
Proof.
  revert f w x. induction cs as [|c cs IH]; intros f w x; cbn [write_chunks concat].
  { intros [= <- <- <-] Hx Hc. split_and!; [apply later_refl|done|]. destruct f. simpl in *. by rewrite app_nil_r, Z.add_0_r, Hx. }
  destruct (next_fault w) as [w1 fault] eqn:E. apply next_fault_ok in E as (Hl & Hm & Hf). intros Hw Hx [Hcf Hcb].
  destruct fault as [|k].
  - apply (IH _ _ (x + Z.of_nat (length c))) in Hw as (Hl' & Hc' & Hr).
    + split_and!; [by eapply later_trans|done|]. destruct r as [u|e].
      * rewrite Hr. simpl. rewrite <- app_assoc, length_app. f_equal. f_equal. lia.
      * destruct Hr as [-> Hr]. split; [done|]. apply (later_fails w w1); done.
    + simpl. rewrite Hx. apply wrap64_add_l.
    + simpl. rewrite counted_wrap. rewrite <- (Z.add_0_r files), Z.add_assoc. apply counted_active. by split; rewrite Hm.
  - injection Hw as <- <- <-. split_and!; [done| |done|by eapply Hf]. apply counted_failed. by split; rewrite Hm.
Qed.

(** The writer has taken the text [s]. *)
Definition writer_ok (wr : ReplayableBodyWriter) (s : str) : Prop :=
  wr.(wlength) = Z.of_nat (length s) ∧ wr.(wlength) ≤ wr.(max_bytes)
  ∧ match wr.(storage) with
    | StorageMemory body => body = s ∧ Z.of_nat (length s) ≤ wr.(memory_bytes)
    | StorageTempFile f => f = {| content := s; accounted := wrap64 (Z.of_nat (length s)) |}
    end.

Definition same_limits (wr wr' : ReplayableBodyWriter) : Prop :=
  wr'.(memory_bytes) = wr.(memory_bytes) ∧ wr'.(max_bytes) = wr.(max_bytes).

Lemma spill_ok wr s w w' wr' r files bytes :
  spill wr w = (w', wr', r) → wr.(storage) = StorageMemory s → counted w files bytes →
  later w w' ∧ counted w' (files + files_of wr'.(storage)) (bytes + bytes_in wr'.(storage)) ∧ same_limits wr wr'
  ∧ match r with
    | Ok _ => wr' = with_storage wr (StorageTempFile {| content := s; accounted := wrap64 (Z.of_nat (length s)) |}) wr.(wlength)
    | Err e => e = StorageUnavailable ∧ fails w
    end.
Proof.
  unfold spill. intros Hsp Hs Hc. rewrite Hs in Hsp. destruct (create_file w) as [w1 created] eqn:E.
  apply (create_file_ok _ _ _ files bytes) in E as [Hl Hcr]; [|done]. destruct created as [f|e].
  - destruct Hcr as [-> Hc1]. destruct (write_chunks _ _ _) as [[w2 f2] r2] eqn:E2.
    apply (write_chunks_ok _ _ _ _ _ _ (files + 1) bytes 0) in E2 as (Hl2 & Hc2 & Hr2); [|done|by rewrite Z.add_0_r].
    rewrite concat_chunks in Hr2. destruct r2 as [u|e]; injection Hsp as <- <- <-.
    + subst f2. split_and!; [by eapply later_trans|done|done|done].
    + destruct Hr2 as [-> Hf2]. simpl. rewrite !Z.add_0_r. split_and!; [by eapply later_trans|by apply counted_drop_file|done|done|].
      by eapply later_fails.
  - destruct Hcr as (-> & Hf & Hc1). injection Hsp as <- <- <-. simpl. by rewrite !Z.add_0_r.
Qed.

(** The result of writing [bs] after [s]. *)
Definition written (wr : ReplayableBodyWriter) (s bs : str) (w w' : Store) (wr' : ReplayableBodyWriter)
    (r : result unit StoreError) (files bytes : Z) : Prop :=
  later w w' ∧ counted w' (files + files_of wr'.(storage)) (bytes + bytes_in wr'.(storage)) ∧ same_limits wr wr'
  ∧ match r with
    | Ok _ => writer_ok wr' (s ++ bs)
    | Err BodyTooLarge => wr.(max_bytes) < Z.of_nat (length (s ++ bs))
    | Err StorageUnavailable => fails w
    end.

Lemma write_file_ok wr s bs w w' wr' r files bytes :
  let f := {| content := s; accounted := wrap64 (Z.of_nat (length s)) |} in
  write_file wr f bs w = (w', wr', r) → wr.(wlength) = Z.of_nat (length s) →
  wr.(wlength) + Z.of_nat (length bs) ≤ wr.(max_bytes) →
  counted w (files + 1) (bytes + wrap64 (Z.of_nat (length s))) → written wr s bs w w' wr' r files bytes.
Proof.
  intros f Hw Hlen Hle Hc. unfold write_file in Hw. destruct (write_chunks f (chunks bs) w) as [[w1 f1] r1] eqn:E1.
  apply (write_chunks_ok _ _ _ _ _ _ (files + 1) bytes (Z.of_nat (length s))) in E1 as (Hl1 & Hc1 & Hr1); [|done|done].
  rewrite concat_chunks in Hr1. destruct r1 as [u|e]; injection Hw as <- <- <-.
  - split_and!; [done|done|done|]. rewrite Hr1. unfold writer_ok. simpl. rewrite length_app.
    split_and!; [lia|lia|]. f_equal. f_equal. lia.
  - destruct Hr1 as [-> Hf]. by split_and!.
Qed.

Lemma write_ok wr s bs w w' wr' r files bytes :
  write wr bs w = (w', wr', r) → wr.(max_bytes) ≤ u64_max → writer_ok wr s →
  counted w (files + files_of wr.(storage)) (bytes + bytes_in wr.(storage)) → written wr s bs w w' wr' r files bytes.
Proof.
  intros Hw Hmax (Hlen & Hle & Hst) Hc. unfold write in Hw. destruct (_ || _) eqn:Hbig.
  { injection Hw as <- <- <-. split_and!; [apply later_refl|done|done|]. rewrite length_app.
    apply orb_true_iff in Hbig as [?|?]; breflect; lia. }
  apply orb_false_iff in Hbig as [_ Hbig]. breflect. destruct wr.(storage) as [body|f] eqn:Es.
  - destruct Hst as [-> Hmem]. simpl in Hc. rewrite !Z.add_0_r in Hc.
    destruct (Z.ltb_spec wr.(memory_bytes) (wr.(wlength) + Z.of_nat (length bs))) as [Hsp|Hno].
    + destruct (spill wr w) as [[w1 wr1] r1] eqn:E. apply (spill_ok _ s _ _ _ _ files bytes) in E as (Hl & Hc1 & Hs1 & Hr1); [|done|done].
      destruct r1 as [u|e].
      * subst wr1. simpl in Hw, Hc1. apply (write_file_ok _ _ _ _ _ _ _ files bytes) in Hw as (Hl2 & Hc2 & Hs2 & Hr2); [|done|done|done].
        split_and!; [by eapply later_trans|done|done|]. destruct r as [|[]]; [done|done|by eapply later_fails].
      * injection Hw as <- <- <-. destruct Hr1 as [-> Hf]. by split_and!.
    + rewrite Es in Hw. injection Hw as <- <- <-. unfold written. simpl. rewrite !Z.add_0_r.
      split_and!; [apply later_refl|done|done|]. unfold writer_ok. simpl. rewrite length_app. split_and!; [lia|lia|done|lia].
  - rewrite Es in Hw. subst f. by eapply write_file_ok.
Qed.

Lemma write_all_ok wr s input w w' r files bytes :
  write_all wr input w = (w', r) → wr.(max_bytes) ≤ u64_max → writer_ok wr s →
  counted w (files + files_of wr.(storage)) (bytes + bytes_in wr.(storage)) →
  later w w' ∧ match r with
  | Ok wr' => writer_ok wr' (s ++ concat input) ∧ same_limits wr wr'
              ∧ counted w' (files + files_of wr'.(storage)) (bytes + bytes_in wr'.(storage))
  | Err BodyTooLarge => wr.(max_bytes) < Z.of_nat (length (s ++ concat input)) ∧ counted w' files bytes
  | Err StorageUnavailable => fails w ∧ counted w' files bytes
  end.
Proof.
  revert wr s w. induction input as [|bs input IH]; intros wr s w Hw Hmax Hok Hc; simpl in Hw |- *.
  { injection Hw as <- <-. rewrite app_nil_r. split_and!; [apply later_refl|done|done|done]. }
  destruct (write wr bs w) as [[w1 wr1] r1] eqn:E.
  apply (write_ok _ s _ _ _ _ _ files bytes) in E as (Hl & Hc1 & [Hs1 Hs2] & Hr); [|done..]. destruct r1 as [u|e].
  - apply (IH _ (s ++ bs)) in Hw as [Hl' Hr']; [|by rewrite Hs2|done|done]. split; [by eapply later_trans|].
    rewrite Hs2, <- app_assoc in Hr'. destruct r as [wr'|[]].
    + destruct Hr' as (H1 & [H2 H3] & H4). split_and!; [done|by split; congruence|done].
    + done.
    + split; [eapply later_fails; [done|apply Hr']|apply Hr'].
  - injection Hw as <- <-. apply counted_drop_storage in Hc1. split; [by destruct wr1.(storage)|]. destruct e; [|done].
    split; [|done]. rewrite app_assoc, length_app. lia.
Qed.

Lemma counted_self w : word64 w.(metrics).(active_files) → word64 w.(metrics).(active_bytes) →
  counted w w.(metrics).(active_files) w.(metrics).(active_bytes).
Proof. unfold word64, counted, wrap64. intros H1 H2. by rewrite !Z.mod_small. Qed.

(** The body holds the text [s]. *)
Definition body_ok (memory : Z) (b : ReplayableRequestBody) (s : str) : Prop :=
  match b with
  | BodyMemory body => body = s ∧ Z.of_nat (length s) ≤ memory
  | BodyTempFile f n => f = {| content := s; accounted := wrap64 (Z.of_nat (length s)) |} ∧ n = Z.of_nat (length s)
  end.

Definition storage_of (b : ReplayableRequestBody) : WriterStorage :=
  match b with BodyMemory body => StorageMemory body | BodyTempFile f _ => StorageTempFile f end.

Lemma finish_ok wr s w w' r files bytes : finish wr w = (w', r) → writer_ok wr s →
  counted w (files + files_of wr.(storage)) (bytes + bytes_in wr.(storage)) →
  later w w' ∧ match r with
  | Ok b => body_ok wr.(memory_bytes) b s ∧ counted w' (files + files_of (storage_of b)) (bytes + bytes_in (storage_of b))
  | Err e => e = StorageUnavailable ∧ fails w ∧ counted w' files bytes
  end.
Proof.
  unfold finish. intros Hf (Hlen & Hle & Hst) Hc. destruct wr.(storage) as [body|f].
  { injection Hf as <- <-. split; [apply later_refl|done]. }
  destruct (all_complete 2 w) as [w1 ok] eqn:E. apply all_complete_ok in E as (Hl & Hm & Hno). destruct Hc as [Hc1 Hc2].
  destruct ok; injection Hf as <- <-; (split; [done|]).
  - split; [done|]. by split; simpl; rewrite Hm.
  - split_and!; [done|auto|]. apply counted_drop_file, counted_failed. by split; rewrite Hm.
Qed.

Lemma new_writer_ok memory max : 0 ≤ memory → 0 ≤ max → writer_ok (new_writer memory max) [].
Proof. intros. by split_and!. Qed.

(** Reading a body that holds [s]. *)
Definition replays (s : str) (w : Store) (r : result (list str * bool) StoreError) : Prop :=
  match r with
  | Ok (cs, broken) =>
      Forall (λ c, Z.of_nat (length c) ≤ BODY_READ_CHUNK_BYTES) cs
      ∧ (if broken then fails w ∧ ∃ rest, s = concat cs ++ rest else s = concat cs)
  | Err e => e = StorageUnavailable ∧ fails w
  end.

Lemma stream_ok memory b s sizes w w' r : stream sizes b w = (w', r) → body_ok memory b s →
  later w w' ∧ (∀ files bytes, counted w files bytes → counted w' files bytes) ∧ replays s w r.
Proof.
  destruct b as [body|f n]; simpl; intros Hs [-> ?].
  - injection Hs as <- <-. cbn [replays]. split_and!; [apply later_refl|done|apply chunks_fuel_bound|by rewrite concat_chunks].
  - destruct (next_fault w) as [w1 [|k]] eqn:E; apply next_fault_ok in E as (Hl & Hm & Hf).
    + destruct (read_file _ _ _ w1) as [w2 [cs broken]] eqn:Er. injection Hs as <- <-.
      apply read_file_ok in Er as (Hl2 & Hc2 & Hf2 & Hs2); [|done].
      cbn [replays]. split_and!; [by eapply later_trans|intros ?? [Hx Hy]; apply Hc2; by split; rewrite Hm|done|].
      destruct broken; [|done]. destruct Hs2. split; [by eapply later_fails|done].
    + injection Hs as <- <-. cbn [replays]. split_and!; [done|by intros ?? [Hx Hy]; split; simpl; rewrite Hm|done|by eapply Hf].
Qed.

(** Capturing a request body, whatever calls of the file system fail: a body
    that is captured replays, as often as it is read and however its file is
    read, exactly the bytes the client sent, in pieces of at most 64 KiB, and a
    read that fails is reported and has yielded a prefix of them; its length is
    within the limit, and only bodies within the memory threshold stay in
    memory.  A body is refused as too large only when it is, and as unavailable
    only when a call failed. *)
Theorem captured_body_replays (memory max : Z) (input : list str) (w : Store)
    (Hmemory : 0 ≤ memory) (Hmax : 0 ≤ max ≤ u64_max)
    (Hfiles : word64 w.(metrics).(active_files)) (Hbytes : word64 w.(metrics).(active_bytes)) :
  match (capture_body memory max input w).2 with
  | Ok b =>
      (∀ sizes w', replays (concat input) w' (stream sizes b w').2)
      ∧ body_len b = Z.of_nat (length (concat input)) ∧ body_len b ≤ max
      ∧ match b with BodyMemory _ => body_len b ≤ memory | BodyTempFile _ _ => True end
  | Err BodyTooLarge => max < Z.of_nat (length (concat input))
  | Err StorageUnavailable => fails w
  end.
Proof.
  unfold capture_body. destruct (write_all _ _ _) as [w1 r1] eqn:E.
  pose proof (counted_self w Hfiles Hbytes) as Hc.
  apply (write_all_ok _ [] _ _ _ _ (active_files (metrics w)) (active_bytes (metrics w))) in E as [Hl Hr];
    [|simpl; lia|apply new_writer_ok; lia|by rewrite !Z.add_0_r].
  destruct r1 as [wr|[]]; simpl in *; [|apply Hr|apply Hr].
  destruct Hr as (Hok & [Hm1 Hm2] & Hc1). destruct (finish wr w1) as [w2 r2] eqn:Ef. simpl.
  apply (finish_ok _ _ _ _ _ _ _ Ef Hok) in Hc1 as [Hl2 Hr2]. destruct r2 as [b|e].
  - destruct Hr2 as [Hb _]. destruct Hok as (Hlen & Hle & _). split.
    { intros sizes w'. destruct (stream sizes b w') as [w3 r3] eqn:Es. simpl. by apply (stream_ok _ _ _ _ _ _ _ Es) in Hb as (_ & _ & ?). }
    rewrite Hm1, Hm2 in *. split_and!; destruct b; simpl in *; destruct Hb; subst; lia || done.
  - destruct Hr2 as (-> & Hfail & _). by eapply later_fails.
Qed.

(** ** All requests together

    Any number of requests write, hold and drop bodies; a connection that closes
    drops its writer.  Each operation is one step: the counters only add. *)

Inductive Owner := OwnsWriter (wr : ReplayableBodyWriter) | OwnsBody (b : ReplayableRequestBody).

Inductive body_step : Store * list Owner → Store * list Owner → Prop :=
| step_open memory max w os : 0 ≤ memory → 0 ≤ max ≤ u64_max →
    body_step (w, os) (w, OwnsWriter (new_writer memory max) :: os)
| step_write wr bs w w' wr' os1 os2 : write wr bs w = (w', wr', Ok tt) →
    body_step (w, os1 ++ OwnsWriter wr :: os2) (w', os1 ++ OwnsWriter wr' :: os2)
| step_write_fails wr bs w w' wr' e os1 os2 : write wr bs w = (w', wr', Err e) →
    body_step (w, os1 ++ OwnsWriter wr :: os2) (drop_storage wr'.(storage) w', os1 ++ os2)
| step_finish wr w w' b os1 os2 : finish wr w = (w', Ok b) →
    body_step (w, os1 ++ OwnsWriter wr :: os2) (w', os1 ++ OwnsBody b :: os2)
| step_finish_fails wr w w' e os1 os2 : finish wr w = (w', Err e) →
    body_step (w, os1 ++ OwnsWriter wr :: os2) (w', os1 ++ os2)
| step_abandon wr w os1 os2 :
    body_step (w, os1 ++ OwnsWriter wr :: os2) (drop_storage wr.(storage) w, os1 ++ os2)
| step_drop b w os1 os2 : body_step (w, os1 ++ OwnsBody b :: os2) (drop_body b w, os1 ++ os2).

Definition owner_storage (o : Owner) : WriterStorage :=
  match o with OwnsWriter wr => wr.(storage) | OwnsBody b => storage_of b end.
Definition file_bytes (s : WriterStorage) : Z :=
  match s with StorageMemory _ => 0 | StorageTempFile f => Z.of_nat (length f.(content)) end.
Definition live_files (os : list Owner) : Z := sum_over (λ o, files_of (owner_storage o)) os.
Definition live_bytes (os : list Owner) : Z := sum_over (λ o, file_bytes (owner_storage o)) os.

Definition owner_ok (o : Owner) : Prop :=
  match o with
  | OwnsWriter wr => wr.(max_bytes) ≤ u64_max ∧ ∃ s, writer_ok wr s
  | OwnsBody b => ∃ memory s, body_ok memory b s
  end.

Definition store_ok (st : Store * list Owner) : Prop :=
  counted st.1 (live_files st.2) (live_bytes st.2) ∧ Forall owner_ok st.2.

Lemma owner_bytes o : owner_ok o → bytes_in (owner_storage o) = wrap64 (file_bytes (owner_storage o)).
Proof.
  destruct o as [wr|b]; simpl.
  - intros (_ & s & _ & _ & Hs). destruct wr.(storage) as [body|f]; [done|]. by rewrite Hs.
  - intros (memory & s & Hb). destruct b as [body|f n]; [done|]. destruct Hb as [-> _]. done.
Qed.

Section focus.
Context (os1 os2 : list Owner).
Let F := live_files (os1 ++ os2).
Let B := live_bytes (os1 ++ os2).

Lemma live_split o : live_files (os1 ++ o :: os2) = F + files_of (owner_storage o)
  ∧ live_bytes (os1 ++ o :: os2) = B + file_bytes (owner_storage o).
Proof. unfold F, B, live_files, live_bytes. rewrite !sum_over_app. simpl. lia. Qed.

Lemma store_focus w o : store_ok (w, os1 ++ o :: os2) →
  owner_ok o ∧ Forall owner_ok (os1 ++ os2) ∧ counted w (F + files_of (owner_storage o)) (B + bytes_in (owner_storage o)).
Proof.
  intros [Hc Ho]. simpl in *. destruct (live_split o) as [E1 E2]. rewrite E1, E2 in Hc.
  apply Forall_app in Ho as [H1 [Ho H2]%Forall_cons]. rewrite (owner_bytes o Ho), counted_wrap.
  split_and!; [done|by apply Forall_app|done].
Qed.

Lemma store_unfocus w o : owner_ok o → Forall owner_ok (os1 ++ os2) →
  counted w (F + files_of (owner_storage o)) (B + bytes_in (owner_storage o)) → store_ok (w, os1 ++ o :: os2).
Proof.
  intros Ho Hs Hc. destruct (live_split o) as [E1 E2]. rewrite (owner_bytes o Ho), counted_wrap in Hc.
  apply Forall_app in Hs as [H1 H2]. split; simpl; [by rewrite E1, E2|]. apply Forall_app. split; [done|by constructor].
Qed.
End focus.

Lemma body_step_ok st st' : body_step st st' → store_ok st → store_ok st'.
Proof.
  intros Hstep. destruct Hstep as [memory max w os Hm Hx|wr bs w w' wr' os1 os2 Hw|wr bs w w' wr' e os1 os2 Hw
    |wr w w' b os1 os2 Hf|wr w w' e os1 os2 Hf|wr w os1 os2|b w os1 os2].
  - intros [Hc Ho]. split; simpl; [done|]. constructor; [|done]. split; [simpl; lia|]. exists []. apply new_writer_ok; lia.
  - intros ((Hmax & s & Hok) & Ho & Hc)%store_focus.
    apply (write_ok _ s _ _ _ _ _ _ _ Hw Hmax Hok) in Hc as (_ & Hc & [_ Hs] & Hr).
    apply store_unfocus; [|done|done]. split; [by rewrite Hs|by exists (s ++ bs)].
  - intros ((Hmax & s & Hok) & Ho & Hc)%store_focus.
    apply (write_ok _ s _ _ _ _ _ _ _ Hw Hmax Hok) in Hc as (_ & Hc & _). by apply counted_drop_storage in Hc.
  - intros ((Hmax & s & Hok) & Ho & Hc)%store_focus. apply (finish_ok _ s _ _ _ _ _ Hf Hok) in Hc as (_ & Hb & Hc).
    apply store_unfocus; [|done|done]. by exists wr.(memory_bytes), s.
  - intros ((Hmax & s & Hok) & Ho & Hc)%store_focus. by apply (finish_ok _ s _ _ _ _ _ Hf Hok) in Hc as (_ & _ & _ & Hc).
  - intros (_ & Ho & Hc)%store_focus. by apply counted_drop_storage in Hc.
  - intros (_ & Ho & Hc)%store_focus. split; [|done]. destruct b as [body|f n]; simpl in *; [by rewrite !Z.add_0_r in Hc|].
    by apply counted_drop_file.
Qed.

(** The store of a process that has just started. *)
Definition new_store (plan : list Fault) : Store :=
  {| metrics := {| active_files := 0; active_bytes := 0; spooled_total := 0; spooled_bytes_total := 0;
                   storage_failures_total := 0 |}; faults := plan |}.

(** The counters of the store are exact at all times, whatever calls fail and
    whenever requests are abandoned: the active files are the temporary files
    that a writer or a body still owns and the active bytes are the bytes in
    them (modulo 2^64, the width of the counters).  When every owner is gone both
    are zero: no error path leaks a file. *)
Theorem spool_counters_exact (plan : list Fault) (w : Store) (os : list Owner)
    (Hrun : rtc body_step (new_store plan, []) (w, os)) :
  w.(metrics).(active_files) = wrap64 (live_files os) ∧ w.(metrics).(active_bytes) = wrap64 (live_bytes os)
  ∧ (os = [] → w.(metrics).(active_files) = 0 ∧ w.(metrics).(active_bytes) = 0).
Proof.
  assert (store_ok (new_store plan, [])) as Hinit by done.
  assert (store_ok (w, os)) as [[H1 H2] _].
  { eapply (rtc_ind_r store_ok); [done| |done]. intros st st' _ Hs. by apply body_step_ok. }
  simpl in *. split_and!; [done|done|]. intros ->. by rewrite H1, H2.
Qed.
