(* ===== verification/ImageEdit.v ===== *)
(** * Images edit requests

    Models the multipart part of [src/application/request_body.rs]: a client's
    body is captured and inspected, its fields pass the request policy, the
    model of the selected channel replaces the client's, and the parts are
    written again when anything changed.

    The multipart parser ([multer]) is third-party code.  It is seen through the
    parts it yields from a stream: a part has a name, a file name, headers and the
    chunks of its data, after which reading may fail.  The policy is the client
    body policy of the interface, which a validated contract has. *)

From S2P Require Import Prelude Text Json Usage ErrorText Headers RequestPolicy Pattern Multipart ImageBody.
Open Scope gateway_scope.

Definition MAX_MULTIPART_FIELDS : Z := 64.
Definition MAX_MULTIPART_TEXT_FIELD_BYTES : Z := 65536.
Definition MAX_MULTIPART_TEXT_BYTES : Z := 1048576.
Definition MAX_MULTIPART_FIELD_NAME_BYTES : Z := 128.
Definition MAX_MULTIPART_FILE_NAME_BYTES : Z := 255.
Definition MAX_IMAGE_EDIT_IMAGES : Z := 16.
Definition MAX_IMAGE_EDIT_MASKS : Z := 1.
Definition REBUILT_BODY_OVERHEAD_BYTES : Z := 65536.

(** [BodyTooLarge] and [StorageUnavailable] are the errors of the store. *)
Inductive ImageEditBodyError :=
| StoreFailed (e : StoreError)
| PolicyRejected (e : RequestPolicyError)
| FileTooLarge
| Unreadable
| UnsupportedContentType
| UnsupportedContentEncoding
| MalformedMultipart
| TooManyFields
| FieldNameTooLong
| FileNameTooLong
| UnexpectedFileField
| TooManyImages
| TooManyMasks
| TextFieldTooLarge
| MissingImage
| MissingModel
| DuplicateModel
| InvalidModel
| EmptyModel
| ModelTooLong
| StreamingUnsupported
| InvalidJson
| JsonTransformUnsupported
| CodexTooManyImages
| CodexMissingField
| CodexDuplicateField
| CodexInvalidField
| CodexImageContentType.

Definition edited (A : Type) : Type := result A ImageEditBodyError.

(** ** Standard library *)

(** [str::from_utf8] *)
Fixpoint utf8_valid (fuel : nat) (s : str) : bool :=
  match fuel, s with
  | _, [] => true
  | O, _ => false
  | S fuel, _ => let '(valid, n) := head_char s in valid && utf8_valid fuel (drop n s)
  end.
Definition from_utf8 (s : str) : option string := if utf8_valid (length s) s then Some (string_of s) else None.

(** [eq_ignore_ascii_case] with a lower-case text *)
Definition is_text (lower : string) (s : str) : bool := bool_decide (to_ascii_lowercase <$> s = bytes_of lower).

(** [str::parse::<u64>] *)
Definition parse_u64 (s : str) : option Z :=
  let digits := match s with c :: s' => if byte c =? 43 then s' else s | [] => [] end in
  if negb (match digits with [] => true | _ => false end) && forallb is_ascii_digit digits then
    let n := foldl (λ n c, 10 * n + (byte c - 48)) 0 digits in
    if n <=? u64_max then Some n else None
  else None.

(** [BTreeSet::insert] *)
Fixpoint ordered_insert (x : string) (l : list string) : list string :=
  match l with
  | [] => [x]
  | y :: l' =>
      match String.compare x y with
      | Eq => l
      | Lt => x :: l
      | Gt => y :: ordered_insert x l'
      end
  end.

(** ** Parts *)

Record MultipartField := {
  field_name : option string;
  field_file_name : option string;
  field_content_type : option string;
  field_headers : list (string * str);
  field_chunks : list str;
  field_broken : bool;       (** [chunk] fails after these chunks *)
}.
Record MultipartStream := { parts : list MultipartField; stream_broken : bool }.

(** [multer]: the boundary of a content type, and the parts of a stream of
    chunks that may end with an error. *)
Class Multer : Type := {
  parse_boundary : string → option string;
  parse_multipart : str → list str → bool → MultipartStream;
}.

Definition field_data (f : MultipartField) : str := concat f.(field_chunks).

(** Reading the data of a part: each chunk, then the end or the error. *)
Definition read_field {A} (f : A → str → edited A) (a : A) (field : MultipartField) : edited A :=
  a <-! try_fold f a field.(field_chunks);
  if field.(field_broken) then Err MalformedMultipart else Ok a.

Record MultipartTextField := { tf_name : string; tf_value : str }.

Definition is_image_field (name : string) : bool := existsb (String.eqb name) ["image"; "image[]"].

(** ** Inspection *)

Record Inspecting := {
  field_count : Z;
  image_count : Z;
  image_bytes : Z;
  mask_count : Z;
  found_model : option string;
  text_fields : list MultipartTextField;
  text_bytes : Z;
}.

(** One chunk of a file, and of a text field. *)
Definition count_file (max_file_bytes : Z) (n : Z) (chunk : str) : edited Z :=
  let n := sat_add u64_max n (Z.of_nat (length chunk)) in
  if max_file_bytes <? n then Err FileTooLarge else Ok n.
Definition extend_text (value chunk : str) : edited str :=
  if MAX_MULTIPART_TEXT_FIELD_BYTES <? sat_add u64_max (Z.of_nat (length value)) (Z.of_nat (length chunk))
  then Err TextFieldTooLarge else Ok (value ++ chunk).

Definition inspect_file (policy : BodyPolicy) (max_file_bytes : Z) (st : Inspecting) (name : string) (field : MultipartField)
    : edited Inspecting :=
  let policy_name := if String.eqb name "image[]" then "image" else name in
  _ <-! match field_disposition_for_policy IfImagesEdit policy policy_name None with
        | Ok _ => Ok tt
        | Err e => Err (PolicyRejected e)
        end;
  if negb (is_image_field name) && negb (String.eqb name "mask") then Err UnexpectedFileField
  else
    length <-! read_field (count_file max_file_bytes) 0 field;
    if is_image_field name then
      let images := sat_add u64_max st.(image_count) 1 in
      if MAX_IMAGE_EDIT_IMAGES <? images then Err TooManyImages
      else Ok {| field_count := st.(field_count); image_count := images;
                 image_bytes := sat_add u64_max st.(image_bytes) length; mask_count := st.(mask_count);
                 found_model := st.(found_model); text_fields := st.(text_fields); text_bytes := st.(text_bytes) |}
    else
      let masks := sat_add u64_max st.(mask_count) 1 in
      if MAX_IMAGE_EDIT_MASKS <? masks then Err TooManyMasks
      else Ok {| field_count := st.(field_count); image_count := st.(image_count); image_bytes := st.(image_bytes);
                 mask_count := masks; found_model := st.(found_model); text_fields := st.(text_fields);
                 text_bytes := st.(text_bytes) |}.

Definition inspect_model (model : option string) (value : str) : edited (option string) :=
  match model with
  | Some _ => Err DuplicateModel
  | None =>
      parsed <-! ok_or (from_utf8 value) InvalidModel;
      if match trim (bytes_of parsed) with [] => true | _ => false end then Err EmptyModel
      else if 300 <? chars_count (bytes_of parsed) then Err ModelTooLong
      else Ok (Some parsed)
  end.

Definition inspect_text (st : Inspecting) (name : string) (field : MultipartField) : edited Inspecting :=
  value <-! read_field extend_text [] field;
  let bytes := sat_add u64_max st.(text_bytes) (Z.of_nat (length value)) in
  if MAX_MULTIPART_TEXT_BYTES <? bytes then Err TextFieldTooLarge
  else
    model <-! (if String.eqb name "model" then inspect_model st.(found_model) value else Ok st.(found_model));
    Ok {| field_count := st.(field_count); image_count := st.(image_count); image_bytes := st.(image_bytes);
          mask_count := st.(mask_count); found_model := model;
          text_fields := st.(text_fields) ++ [{| tf_name := name; tf_value := value |}]; text_bytes := bytes |}.

Definition is_file_part (name : string) (field : MultipartField) : bool :=
  is_image_field name || String.eqb name "mask" || bool_decide (is_Some field.(field_file_name)).

Definition inspect_field (policy : BodyPolicy) (max_file_bytes : Z) (st : Inspecting) (field : MultipartField)
    : edited Inspecting :=
  let count := sat_add u64_max st.(field_count) 1 in
  let st := {| field_count := count; image_count := st.(image_count); image_bytes := st.(image_bytes);
               mask_count := st.(mask_count); found_model := st.(found_model); text_fields := st.(text_fields);
               text_bytes := st.(text_bytes) |} in
  if MAX_MULTIPART_FIELDS <? count then Err TooManyFields
  else
    name <-! ok_or field.(field_name) MalformedMultipart;
    if MAX_MULTIPART_FIELD_NAME_BYTES <? Z.of_nat (String.length name) then Err FieldNameTooLong
    else if is_some_and field.(field_file_name) (λ n, MAX_MULTIPART_FILE_NAME_BYTES <? Z.of_nat (String.length n))
    then Err FileNameTooLong
    else if is_file_part name field then inspect_file policy max_file_bytes st name field
    else inspect_text st name field.

Definition inspecting_start : Inspecting :=
  {| field_count := 0; image_count := 0; image_bytes := 0; mask_count := 0; found_model := None; text_fields := [];
     text_bytes := 0 |}.

Record MultipartInspection := {
  mi_text_fields : list MultipartTextField;
  mi_model : string;
  mi_image_count : Z;
  mi_image_bytes : Z;
  mi_mask_count : Z;
}.

Definition inspect_multipart (policy : BodyPolicy) (max_file_bytes : Z) (m : MultipartStream) : edited MultipartInspection :=
  st <-! try_fold (inspect_field policy max_file_bytes) inspecting_start m.(parts);
  if m.(stream_broken) then Err MalformedMultipart
  else if st.(image_count) =? 0 then Err MissingImage
  else
    model <-! ok_or st.(found_model) MissingModel;
    Ok {| mi_text_fields := st.(text_fields); mi_model := model; mi_image_count := st.(image_count);
          mi_image_bytes := st.(image_bytes); mi_mask_count := st.(mask_count) |}.

(** ** What inspection accepts *)

Section inspection.
Context (policy : BodyPolicy) (max_file_bytes : Z) (Hmax : 0 ≤ max_file_bytes < u64_max).
Implicit Types (f : MultipartField) (fs : list MultipartField).

Definition name_of f : string := default EmptyString f.(field_name).
Definition data_length f : Z := Z.of_nat (length (field_data f)).
Definition is_file f : bool := is_file_part (name_of f) f.
Definition is_image f : bool := is_image_field (name_of f).
Definition is_mask f : bool := String.eqb (name_of f) "mask".
Definition is_model f : bool := negb (is_file f) && String.eqb (name_of f) "model".

Definition images fs : list MultipartField := List.filter is_image fs.
Definition masks fs : list MultipartField := List.filter is_mask fs.
Definition models fs : list MultipartField := List.filter is_model fs.
Definition texts fs : list MultipartField := List.filter (λ f, negb (is_file f)) fs.

Definition model_text (value : str) (model : string) : Prop :=
  from_utf8 value = Some model ∧ trim (bytes_of model) ≠ [] ∧ chars_count (bytes_of model) ≤ 300.

Record part_ok f : Prop := {
  part_named : is_Some f.(field_name);
  part_name_length : Z.of_nat (String.length (name_of f)) ≤ MAX_MULTIPART_FIELD_NAME_BYTES;
  part_file_name : ∀ n, f.(field_file_name) = Some n → Z.of_nat (String.length n) ≤ MAX_MULTIPART_FILE_NAME_BYTES;
  part_whole : f.(field_broken) = false;
  part_file : is_file f = true →
    is_image f || is_mask f = true ∧ data_length f ≤ max_file_bytes
    ∧ ∃ d, field_disposition_for_policy IfImagesEdit policy
             (if String.eqb (name_of f) "image[]" then "image" else name_of f) None = Ok d;
  part_text : is_file f = false → data_length f ≤ MAX_MULTIPART_TEXT_FIELD_BYTES;
  part_model : is_model f = true → ∃ model, model_text (field_data f) model;
}.

Record parts_ok fs : Prop := {
  all_parts : Forall part_ok fs;
  few_parts : Z.of_nat (length fs) ≤ MAX_MULTIPART_FIELDS;
  few_images : Z.of_nat (length (images fs)) ≤ MAX_IMAGE_EDIT_IMAGES;
  few_masks : Z.of_nat (length (masks fs)) ≤ MAX_IMAGE_EDIT_MASKS;
  few_text_bytes : sum_over data_length (texts fs) ≤ MAX_MULTIPART_TEXT_BYTES;
  one_model : (length (models fs) ≤ 1)%nat;
}.

Definition text_field f : MultipartTextField := {| tf_name := name_of f; tf_value := field_data f |}.

(** The inspection of accepted parts. *)
Definition summary fs : Inspecting := {|
  field_count := Z.of_nat (length fs);
  image_count := Z.of_nat (length (images fs));
  image_bytes := Z.min u64_max (sum_over data_length (images fs));
  mask_count := Z.of_nat (length (masks fs));
  found_model := f ← head (models fs); from_utf8 (field_data f);
  text_fields := text_field <$> texts fs;
  text_bytes := sum_over data_length (texts fs) |}.

(** *** Reading a part *)

Lemma data_length_nonneg f : 0 ≤ data_length f.
Proof. unfold data_length. lia. Qed.

Lemma read_length_Ok f n :
  read_field (count_file max_file_bytes) 0 f = Ok n
  ↔ f.(field_broken) = false ∧ data_length f ≤ max_file_bytes ∧ n = data_length f.
Proof.
  unfold read_field, data_length, field_data.
  assert (∀ cs a, 0 ≤ a ≤ max_file_bytes → ∀ n, try_fold (count_file max_file_bytes) a cs = Ok n
    ↔ a + Z.of_nat (length (concat cs)) ≤ max_file_bytes ∧ n = a + Z.of_nat (length (concat cs))) as Hfold.
  { induction cs as [|c cs IH]; intros a Ha n'; simpl.
    - rewrite Z.add_0_r. split; [intros [= <-]; lia|intros [_ ->]; done].
    - unfold count_file at 1. rewrite length_app. destruct (Z.ltb_spec max_file_bytes (sat_add u64_max a (Z.of_nat (length c)))) as [Hlt|Hle]; simpl.
      + split; [done|]. intros [Hs _]. unfold sat_add in Hlt. lia.
      + assert (sat_add u64_max a (Z.of_nat (length c)) = a + Z.of_nat (length c)) as E by (unfold sat_add in *; lia).
        rewrite E in Hle |- *. rewrite IH by lia. split; intros [? ->]; split; lia. }
  split.
  - intros (m & Hm & Hb)%result_bind_Ok. apply Hfold in Hm as [Hle ->]; [|lia]. destruct (field_broken f); [done|].
    injection Hb as <-. split_and!; [done|lia|lia].
  - intros (Hb & Hle & ->). apply result_bind_Ok. exists (0 + Z.of_nat (length (concat (field_chunks f)))). split; [apply Hfold; lia|].
    by rewrite Hb.
Qed.

Lemma read_text_Ok f v :
  read_field extend_text [] f = Ok v
  ↔ f.(field_broken) = false ∧ data_length f ≤ MAX_MULTIPART_TEXT_FIELD_BYTES ∧ v = field_data f.
Proof.
  unfold read_field, data_length, field_data.
  assert (∀ cs a, Z.of_nat (length a) ≤ MAX_MULTIPART_TEXT_FIELD_BYTES → ∀ v, try_fold extend_text a cs = Ok v
    ↔ Z.of_nat (length (a ++ concat cs)) ≤ MAX_MULTIPART_TEXT_FIELD_BYTES ∧ v = a ++ concat cs) as Hfold.
  { induction cs as [|c cs IH]; intros a Ha v'; simpl.
    - rewrite app_nil_r. split; [by intros [= <-]|by intros [_ ->]].
    - unfold extend_text at 1. rewrite !length_app. destruct (Z.ltb_spec MAX_MULTIPART_TEXT_FIELD_BYTES (sat_add u64_max (Z.of_nat (length a)) (Z.of_nat (length c)))) as [Hlt|Hle]; simpl.
      + split; [done|]. intros [Hs _]. unfold sat_add, u64_max, MAX_MULTIPART_TEXT_FIELD_BYTES in *. lia.
      + rewrite IH; [rewrite <- app_assoc, !length_app; done|]. rewrite length_app.
        unfold sat_add, u64_max, MAX_MULTIPART_TEXT_FIELD_BYTES in *. lia. }
  split.
  - intros (m & Hm & Hb)%result_bind_Ok. apply Hfold in Hm as [Hle ->]; [|done]. destruct (field_broken f); [done|]. by injection Hb as <-.
  - intros (Hb & Hle & ->). apply result_bind_Ok. exists (concat (field_chunks f)). split; [by apply Hfold|]. by rewrite Hb.
Qed.
(** *** One part *)

(** The summary with the next part counted. *)
Definition next_summary fs : Inspecting := {|
  field_count := Z.of_nat (length fs) + 1; image_count := (summary fs).(image_count); image_bytes := (summary fs).(image_bytes);
  mask_count := (summary fs).(mask_count); found_model := (summary fs).(found_model);
  text_fields := (summary fs).(text_fields); text_bytes := (summary fs).(text_bytes) |}.

Lemma filter_snoc {A} (p : A → bool) l x : List.filter p (l ++ [x]) = List.filter p l ++ (if p x then [x] else []).
Proof. induction l as [|y l IH]; simpl; [by destruct (p x)|]. destruct (p y); simpl; by rewrite IH. Qed.

Lemma image_not_mask f : is_image f = true → is_mask f = false.
Proof.
  unfold is_image, is_mask, is_image_field. simpl. rewrite !orb_true_iff, !String.eqb_eq. by intros [->|[->|[=]]].
Qed.

Lemma image_is_file f : is_image f = true → is_file f = true.
Proof. unfold is_file, is_file_part, is_image. by intros ->. Qed.
Lemma mask_is_file f : is_mask f = true → is_file f = true.
Proof. unfold is_file, is_file_part, is_mask. intros ->. by rewrite orb_true_r. Qed.

Lemma sat_count n : 0 ≤ n ≤ 64 → sat_add u64_max n 1 = n + 1.
Proof. unfold sat_add, u64_max. lia. Qed.

Lemma min_sat_add a b : 0 ≤ b → sat_add u64_max (Z.min u64_max a) b = Z.min u64_max (a + b).
Proof. unfold sat_add. lia. Qed.

(** A file part is accepted after accepted parts. *)
Lemma inspect_file_Ok fs f st : is_file f = true → parts_ok fs →
  inspect_file policy max_file_bytes (next_summary fs) (name_of f) f = Ok st ↔
  (f.(field_broken) = false ∧ is_image f || is_mask f = true ∧ data_length f ≤ max_file_bytes
   ∧ (∃ d, field_disposition_for_policy IfImagesEdit policy
             (if String.eqb (name_of f) "image[]" then "image" else name_of f) None = Ok d)
   ∧ Z.of_nat (length (images (fs ++ [f]))) ≤ MAX_IMAGE_EDIT_IMAGES
   ∧ Z.of_nat (length (masks (fs ++ [f]))) ≤ MAX_IMAGE_EDIT_MASKS)
  ∧ st = summary (fs ++ [f]).
Proof.
  intros Hf [_ _ Hi Hm _ _]. unfold inspect_file. fold (is_image f) (is_mask f).
  destruct (field_disposition_for_policy _ _ _ _) as [d|e]; simpl; [|split; [done|by intros [(_ & _ & _ & [d [=]] & _) _]]].
  assert (summary (fs ++ [f]) = {| field_count := Z.of_nat (length fs) + 1;
    image_count := Z.of_nat (length (images (fs ++ [f]))); image_bytes := Z.min u64_max (sum_over data_length (images (fs ++ [f])));
    mask_count := Z.of_nat (length (masks (fs ++ [f]))); found_model := (summary fs).(found_model);
    text_fields := (summary fs).(text_fields); text_bytes := (summary fs).(text_bytes) |}) as ->.
  { unfold summary, texts, models. simpl. rewrite !filter_snoc. unfold is_model. rewrite Hf, length_app, !app_nil_r. simpl. f_equal. lia. }
  unfold images, masks in *. rewrite !filter_snoc, !length_app.
  destruct (is_image f) eqn:Ei; simpl.
  - rewrite (image_not_mask f Ei). simpl. rewrite Nat.add_0_r. split.
    + intros (n & (Hb & Hl & ->)%read_length_Ok & Hr)%result_bind_Ok.
      unfold MAX_IMAGE_EDIT_IMAGES in *. rewrite sat_count in Hr by lia.
      destruct (Z.ltb_spec 16 (Z.of_nat (length (List.filter is_image fs)) + 1)); [done|]. injection Hr as <-.
      rewrite sum_over_app. simpl. unfold images. rewrite min_sat_add by apply data_length_nonneg.
      split; [split_and!; eauto; lia|]. f_equal; lia.
    + intros [(Hb & _ & Hl & _ & Hn & _) ->]. apply result_bind_Ok. exists (data_length f). split; [by apply read_length_Ok|].
      unfold MAX_IMAGE_EDIT_IMAGES in *. rewrite sat_count by lia.
      destruct (Z.ltb_spec 16 (Z.of_nat (length (List.filter is_image fs)) + 1)); [lia|].
      rewrite sum_over_app. simpl. unfold images. rewrite min_sat_add by apply data_length_nonneg. do 2 f_equal; lia.
  - destruct (is_mask f) eqn:Em; simpl; [|split; [done|by intros [(_ & [=] & _) _]]]. rewrite Nat.add_0_r, app_nil_r. split.
    + intros (n & (Hb & Hl & ->)%read_length_Ok & Hr)%result_bind_Ok. unfold MAX_IMAGE_EDIT_MASKS in *.
      rewrite sat_count in Hr by (unfold masks; lia). unfold masks in Hr.
      destruct (Z.ltb_spec 1 (Z.of_nat (length (List.filter is_mask fs)) + 1)); [done|]. injection Hr as <-.
      split; [split_and!; eauto; lia|]. f_equal; lia.
    + intros [(Hb & _ & Hl & _ & _ & Hn) ->]. apply result_bind_Ok. exists (data_length f). split; [by apply read_length_Ok|].
      unfold MAX_IMAGE_EDIT_MASKS in *. rewrite sat_count by (unfold masks; lia). unfold masks.
      destruct (Z.ltb_spec 1 (Z.of_nat (length (List.filter is_mask fs)) + 1)); [lia|]. do 2 f_equal; lia.
Qed.

Lemma inspect_model_Ok value r : inspect_model None value = Ok r ↔ ∃ model, r = Some model ∧ model_text value model.
Proof.
  unfold inspect_model, model_text. split.
  - intros (p & Hp%ok_or_Ok & Hr)%result_bind_Ok. destruct (trim (bytes_of p)) eqn:Et; [done|].
    destruct (Z.ltb_spec 300 (chars_count (bytes_of p))); [done|]. injection Hr as <-. exists p. rewrite Et. done.
  - intros (p & -> & Hp & Ht & Hc). rewrite Hp. simpl. destruct (trim (bytes_of p)); [done|].
    by destruct (Z.ltb_spec 300 (chars_count (bytes_of p))); [lia|].
Qed.

Lemma found_model_None fs : parts_ok fs → (summary fs).(found_model) = None ↔ models fs = [].
Proof.
  intros [Hall _ _ _ _ _]. simpl. destruct (models fs) as [|g gs] eqn:E; simpl; [done|]. split; [|done].
  assert (g ∈ models fs) as Hg by (rewrite E; set_solver). unfold models in Hg.
  apply list_elem_of_In, filter_In in Hg as [Hg Hm]. apply list_elem_of_In in Hg. rewrite Forall_forall in Hall.
  destruct (part_model _ (Hall g Hg) Hm) as (model & -> & _). done.
Qed.

Lemma text_not_image f : is_file f = false → is_image f = false ∧ is_mask f = false.
Proof.
  intros Hf. split; [destruct (is_image f) eqn:E; [apply image_is_file in E; congruence|done]|].
  destruct (is_mask f) eqn:E; [apply mask_is_file in E; congruence|done].
Qed.

Lemma summary_text fs f model : is_file f = false → (model = f ← head (models (fs ++ [f])); from_utf8 (field_data f)) →
  summary (fs ++ [f]) = {| field_count := Z.of_nat (length fs) + 1;
    image_count := (summary fs).(image_count); image_bytes := (summary fs).(image_bytes);
    mask_count := (summary fs).(mask_count); found_model := model;
    text_fields := (summary fs).(text_fields) ++ [text_field f]; text_bytes := (summary fs).(text_bytes) + data_length f |}.
Proof.
  intros Hf ->. destruct (text_not_image f Hf) as [Hi Hm]. unfold summary, images, masks, texts. simpl.
  rewrite !filter_snoc, Hi, Hm, Hf, length_app, !app_nil_r, fmap_app, sum_over_app. simpl. f_equal; lia.
Qed.

Lemma sat_text fs f : parts_ok fs → data_length f ≤ MAX_MULTIPART_TEXT_FIELD_BYTES → is_file f = false →
  sat_add u64_max (sum_over data_length (texts fs)) (data_length f) = sum_over data_length (texts (fs ++ [f])).
Proof.
  intros [_ _ _ _ Hb _] Hl Hf. unfold texts in *. rewrite filter_snoc, Hf, sum_over_app. simpl. pose proof (data_length_nonneg f).
  unfold sat_add, u64_max, MAX_MULTIPART_TEXT_BYTES, MAX_MULTIPART_TEXT_FIELD_BYTES in *. lia.
Qed.

Lemma sum_texts fs f : is_file f = false →
  sum_over data_length (texts (fs ++ [f])) = sum_over data_length (texts fs) + data_length f.
Proof. intros Hf. unfold texts. rewrite filter_snoc, Hf, sum_over_app. simpl. lia. Qed.

(** A text part is accepted after accepted parts. *)
Lemma inspect_text_Ok fs f st : is_file f = false → parts_ok fs →
  inspect_text (next_summary fs) (name_of f) f = Ok st ↔
  (f.(field_broken) = false ∧ data_length f ≤ MAX_MULTIPART_TEXT_FIELD_BYTES
   ∧ (is_model f = true → ∃ model, model_text (field_data f) model)
   ∧ sum_over data_length (texts (fs ++ [f])) ≤ MAX_MULTIPART_TEXT_BYTES ∧ (length (models (fs ++ [f])) ≤ 1)%nat)
  ∧ st = summary (fs ++ [f]).
Proof.
  intros Hf Hok. pose proof (found_model_None fs Hok) as Hnone. pose proof (one_model _ Hok) as Hone'.
  assert (is_model f = String.eqb (name_of f) "model") as Hmod by (unfold is_model; by rewrite Hf).
  assert (models (fs ++ [f]) = models fs ++ (if is_model f then [f] else [])) as Hms by apply filter_snoc.
  unfold inspect_text. split.
  - intros (v & (Hbr & Hl & ->)%read_text_Ok & Hr)%result_bind_Ok. simpl in Hr. fold (data_length f) in Hr.
    rewrite sat_text in Hr by done. destruct (Z.ltb_spec MAX_MULTIPART_TEXT_BYTES (sum_over data_length (texts (fs ++ [f])))); [done|].
    apply result_bind_Ok in Hr as (model & Hmodel & [= <-]). rewrite <- Hmod in Hmodel. destruct (is_model f) eqn:Em.
    + destruct (found_model (summary fs)) eqn:Ef; simpl in Ef; rewrite Ef in Hmodel; [done|].
      apply inspect_model_Ok in Hmodel as (m & -> & Hm'). assert (models fs = []) as Hnil by by apply Hnone.
      split; [rewrite Hms, Hnil; split_and!; eauto; simpl; lia|]. rewrite (summary_text fs f (Some m)); [by rewrite sum_texts|done|].
      rewrite Hms, Hnil. symmetry. apply Hm'.
    + injection Hmodel as <-. split; [rewrite Hms, app_nil_r; split_and!; eauto; lia|].
      rewrite (summary_text fs f (found_model (summary fs))); [by rewrite sum_texts|done|]. by rewrite Hms, app_nil_r.
  - intros [(Hbr & Hl & Hmt & Hle & Hone) ->]. apply result_bind_Ok. exists (field_data f). split; [by apply read_text_Ok|].
    simpl. fold (data_length f). rewrite sat_text by done.
    destruct (Z.ltb_spec MAX_MULTIPART_TEXT_BYTES (sum_over data_length (texts (fs ++ [f])))); [lia|].
    apply result_bind_Ok. rewrite <- Hmod. destruct (is_model f) eqn:Em.
    + rewrite Hms, length_app in Hone. simpl in Hone. assert (models fs = []) as Hnil by (destruct (models fs); [done|simpl in Hone; lia]).
      destruct (Hmt eq_refl) as [m Hm']. exists (Some m). split; [rewrite Hnil; simpl; apply inspect_model_Ok; eauto|].
      rewrite (summary_text fs f (Some m)); [by rewrite sum_texts|done|]. rewrite Hms, Hnil. symmetry. apply Hm'.
    + eexists. split; [done|]. rewrite (summary_text fs f (found_model (summary fs))); [by rewrite sum_texts|done|].
      by rewrite Hms, app_nil_r.
Qed.

Lemma parts_ok_before fs f : parts_ok (fs ++ [f]) → parts_ok fs ∧ part_ok f.
Proof.
  intros [Hall Hn Hi Hm Ht Ho]. apply Forall_app in Hall as [Hall [Hf _]%Forall_cons].
  unfold images, masks, models, texts in *. rewrite !filter_snoc, ?length_app in *. rewrite sum_over_app in Ht.
  assert (0 ≤ sum_over data_length (if negb (is_file f) then [f] else [])).
  { destruct (negb (is_file f)); simpl; pose proof (data_length_nonneg f); lia. }
  split; [|done]. split; [done|lia|unfold images; lia|unfold masks; lia|unfold texts; lia|unfold models; lia].
Qed.

Lemma inspect_field_Ok fs f st : parts_ok fs →
  inspect_field policy max_file_bytes (summary fs) f = Ok st ↔ parts_ok (fs ++ [f]) ∧ st = summary (fs ++ [f]).
Proof.
  intros Hok. pose proof Hok as [Hall Hn Hi Hm Ht Ho]. unfold inspect_field. simpl (field_count _).
  rewrite sat_count by (unfold MAX_MULTIPART_FIELDS in *; lia). fold (next_summary fs).
  destruct (Z.ltb_spec MAX_MULTIPART_FIELDS (Z.of_nat (length fs) + 1)) as [Hgt|Hle].
  { split; [done|]. intros [[_ Hn' _ _ _ _] _]. rewrite length_app in Hn'. simpl in Hn'. lia. }
  destruct f.(field_name) as [name|] eqn:En; simpl; [|split; [done|]; intros [[_ [[? [=]]]]%parts_ok_before _]; congruence].
  assert (name = name_of f) as -> by (unfold name_of; by rewrite En). fold (is_file f).
  destruct (Z.ltb_spec MAX_MULTIPART_FIELD_NAME_BYTES (Z.of_nat (String.length (name_of f)))) as [Hlong|Hname].
  { split; [done|]. intros [[_ [_ Hl _ _ _ _ _]]%parts_ok_before _]. lia. }
  destruct (is_some_and _ _) eqn:Efile.
  { split; [done|]. intros [[_ [_ _ Hl _ _ _ _]]%parts_ok_before _]. destruct f.(field_file_name) as [n|]; [|done].
    simpl in Efile. specialize (Hl n eq_refl). breflect. lia. }
  assert (∀ n, f.(field_file_name) = Some n → Z.of_nat (String.length n) ≤ MAX_MULTIPART_FILE_NAME_BYTES) as Hfn.
  { intros n E. rewrite E in Efile. simpl in Efile. breflect. lia. }
  destruct (is_file f) eqn:Ef.
  - rewrite inspect_file_Ok by done. split; intros [H ->]; (split; [|done]).
    + destruct H as (Hb & Hk & Hl & Hd & Hi' & Hm'). split; [|rewrite length_app; simpl; lia|done|done| |].
      * apply Forall_app. split; [done|]. apply Forall_singleton.
        split; [eauto|done|done|done|done|by rewrite Ef|unfold is_model; by rewrite Ef].
      * unfold texts in *. by rewrite filter_snoc, Ef, app_nil_r.
      * unfold models, is_model in *. by rewrite filter_snoc, Ef, app_nil_r.
    + pose proof (parts_ok_before _ _ H) as [_ [_ _ _ Hb Hff _ _]]. destruct (Hff Ef) as (Hk & Hl & Hd). destruct H. done.
  - rewrite inspect_text_Ok by done. destruct (text_not_image f Ef) as [Ei Em]. split; intros [H ->]; (split; [|done]).
    + destruct H as (Hb & Hl & Hmt & Hs & H1). split; [|rewrite length_app; simpl; lia| | |done|done].
      * apply Forall_app. split; [done|]. apply Forall_singleton. split; [eauto|done|done|done|by rewrite Ef|done|done].
      * unfold images in *. by rewrite filter_snoc, Ei, app_nil_r.
      * unfold masks in *. by rewrite filter_snoc, Em, app_nil_r.
    + pose proof (parts_ok_before _ _ H) as [_ [_ _ _ Hb _ Hl Hmt]]. destruct H. split_and!; auto.
Qed.

Lemma inspect_parts_Ok fs st :
  try_fold (inspect_field policy max_file_bytes) inspecting_start fs = Ok st ↔ parts_ok fs ∧ st = summary fs.
Proof.
  revert st. induction fs as [|f fs IH] using rev_ind; intros st.
  { simpl. split; [intros [= <-]|intros [_ ->]]; [|done]. split; [|done]. split; [done|by vm_compute..|simpl; lia]. }
  rewrite try_fold_app. split.
  - intros (st' & [Hok ->]%IH & Hst)%result_bind_Ok. simpl in Hst. apply result_bind_Ok in Hst as (st' & Hf & [= <-]). by apply inspect_field_Ok.
  - intros [Hok ->]. pose proof (parts_ok_before _ _ Hok) as [Hfs _]. apply result_bind_Ok. exists (summary fs). split; [by apply IH|].
    simpl. apply result_bind_Ok. exists (summary (fs ++ [f])). split; [|done]. by apply inspect_field_Ok.
Qed.
End inspection.

Lemma inspect_multipart_Ok (policy : BodyPolicy) (max_file_bytes : Z) (m : MultipartStream) (i : MultipartInspection)
    (Hmax : 0 ≤ max_file_bytes < u64_max) :
  inspect_multipart policy max_file_bytes m = Ok i ↔
  m.(stream_broken) = false ∧ parts_ok policy max_file_bytes m.(parts) ∧ images m.(parts) ≠ []
  ∧ ∃ f, models m.(parts) = [f] ∧ model_text (field_data f) i.(mi_model)
  ∧ i.(mi_text_fields) = text_field <$> texts m.(parts)
  ∧ i.(mi_image_count) = Z.of_nat (length (images m.(parts))) ∧ i.(mi_mask_count) = Z.of_nat (length (masks m.(parts)))
  ∧ i.(mi_image_bytes) = Z.min u64_max (sum_over data_length (images m.(parts))).
Proof.
  unfold inspect_multipart. split.
  - intros (st & [Hok ->]%inspect_parts_Ok & Hr)%result_bind_Ok; [|done]. destruct (stream_broken m); [done|]. simpl in Hr.
    destruct (images (parts m)) as [|g gs] eqn:Eg; [done|]. simpl in Hr. split; [done|]. split; [done|]. split; [done|].
    apply result_bind_Ok in Hr as (model & Hm%ok_or_Ok & [= <-]). pose proof (one_model _ _ _ Hok) as H1.
    destruct (models (parts m)) as [|f [|f' fs]] eqn:Em; [done| |simpl in H1; lia]. exists f. split; [done|]. simpl in Hm |- *. split_and!; try done.
    destruct Hok as [Hall _ _ _ _ _]. rewrite Forall_forall in Hall.
    assert (f ∈ parts m ∧ is_model f = true) as [Hf Hfm].
    { assert (f ∈ models (parts m)) as Hf by (rewrite Em; set_solver). unfold models in Hf.
      apply list_elem_of_In, filter_In in Hf as [Hf ?]. split; [by apply list_elem_of_In|done]. }
    destruct (part_model _ _ _ (Hall f Hf) Hfm) as (model' & E & Ht). rewrite E in Hm. injection Hm as <-. done.
  - intros (Hb & Hok & Hi & f & Hf & (Hm & _) & Ht & Hc & Hk & Hy). apply result_bind_Ok. exists (summary (parts m)).
    split; [by apply inspect_parts_Ok|]. rewrite Hb. simpl. rewrite Hf. simpl. rewrite Hm. simpl.
    destruct (images (parts m)) as [|g gs] eqn:Eg; [done|]. simpl in *. destruct i. simpl in *. by subst.
Qed.

(** The inspection of a multipart body accepts exactly the well-formed image
    edits, and reports exactly what they hold.  Accepted are streams that end
    without an error, with at most 64 whole parts that all have a short name,
    one to sixteen images and at most one mask, each of an allowed name and
    within the file limit, no other files, text fields of at most 64 KiB each
    and 1 MiB together, and one model: valid text, not blank, of at most 300
    characters. *)
Theorem inspection_exact (policy : BodyPolicy) (max_file_bytes : Z) (m : MultipartStream) (i : MultipartInspection)
    (Hmax : 0 ≤ max_file_bytes < u64_max) :
  inspect_multipart policy max_file_bytes m = Ok i ↔
  m.(stream_broken) = false ∧ parts_ok policy max_file_bytes m.(parts) ∧ images m.(parts) ≠ []
  ∧ ∃ f, models m.(parts) = [f] ∧ model_text (field_data f) i.(mi_model)
  ∧ i.(mi_text_fields) = text_field <$> texts m.(parts)
  ∧ i.(mi_image_count) = Z.of_nat (length (images m.(parts))) ∧ i.(mi_mask_count) = Z.of_nat (length (masks m.(parts)))
  ∧ i.(mi_image_bytes) = Z.min u64_max (sum_over data_length (images m.(parts))).
Proof. by apply inspect_multipart_Ok. Qed.
