(* ===== verification/ImageRequest.v ===== *)
(** * From a captured image edit to the upstream body

    Models the rest of [src/application/request_body.rs]: [capture], the request
    policy on the parts, the rewriting of the model and the rebuilt multipart
    body.  The theorems follow the parts of a client's body to the upstream.

    The reads of the source file and the writes of the rebuilt body go to
    different files; their faults are taken one after the other. *)

From S2P Require Import Prelude Text Json Usage ErrorText Headers JsonPatch RequestPolicy Pattern Multipart ImageBody ImageEdit.
Open Scope gateway_scope.

Record ImageEditLimits := { max_body_bytes : Z; max_file_bytes : Z; edit_memory_bytes : Z }.

Record ImageEditRequestBody := {
  edit_body : ReplayableRequestBody;
  edit_boundary : str;
  edit_content_type : str;
  edit_fields : list MultipartTextField;
  ignored_part_fields : list string;
  wire_model : string;
  edit_model : string;
  edit_image_count : Z;
  edit_image_bytes : Z;
  edit_mask_count : Z;
  edit_limits : ImageEditLimits;
}.

(** ** Capture *)

Section capture.
Context `{HT : HeaderText, HL : HeaderLib, MU : Multer}.

Definition reject_encoded_body (headers : HeaderMap) : edited unit :=
  if forallb (λ value, match header_to_str value with
                       | Some text => forallb (λ encoding, is_text "identity" (trim encoding)) (split_on (Ascii.ascii_of_N 44) (bytes_of text))
                       | None => false
                       end) (get_all headers "content-encoding")
  then Ok tt else Err UnsupportedContentEncoding.

Definition multipart_boundary (headers : HeaderMap) : edited (str * str) :=
  content_type <-! ok_or (match get_all headers "content-type" with [value] => Some value | _ => None end) UnsupportedContentType;
  text <-! ok_or (header_to_str content_type) UnsupportedContentType;
  boundary <-! ok_or (parse_boundary text) UnsupportedContentType;
  let boundary := bytes_of boundary in
  if match boundary with [] => true | _ => false end || (MAX_MULTIPART_BOUNDARY_BYTES <? Z.of_nat (length boundary))
  then Err UnsupportedContentType else Ok (boundary, content_type).

Definition declared_too_large (limits : ImageEditLimits) (headers : HeaderMap) : bool :=
  is_some_and (value ← head (get_all headers "content-length"); text ← header_to_str value; parse_u64 (bytes_of text))
    (λ length, limits.(max_body_bytes) <? length).

(** Reads the body again through the guard and inspects its parts. *)
Definition inspect_body (policy : BodyPolicy) (limits : ImageEditLimits) (boundary : str) (sizes : list nat)
    (b : ReplayableRequestBody) (w : Store) : option (Store * edited MultipartInspection) :=
  let '(w, opened) := stream sizes b w in
  match opened with
  | Err e => Some (w, Err (StoreFailed e))
  | Ok (cs, broken) =>
      guarded ← guard_multipart_stream boundary cs;
      let '(passed, outcome) := guarded in
      let broken := broken || match outcome with Ok _ => false | Err _ => true end in
      Some (w, inspect_multipart policy limits.(max_file_bytes) (parse_multipart boundary passed broken))
  end.

(** [capture]: the chunks of the request, which may end with an error. *)
Definition capture (policy : BodyPolicy) (limits : ImageEditLimits) (headers : HeaderMap) (input : list str)
    (client_broken : bool) (sizes : list nat) (w : Store) : option (Store * edited ImageEditRequestBody) :=
  match _ <-! reject_encoded_body headers;
        declared <-! multipart_boundary headers;
        if declared_too_large limits headers then Err (StoreFailed BodyTooLarge) else Ok declared with
  | Err e => Some (w, Err e)
  | Ok (boundary, content_type) =>
      let '(w, written) := write_all (new_writer limits.(edit_memory_bytes) limits.(max_body_bytes)) input w in
      match written with
      | Err e => Some (w, Err (StoreFailed e))
      | Ok wr =>
          if client_broken then Some (drop_storage wr.(storage) w, Err Unreadable)
          else
            let '(w, finished) := finish wr w in
            match finished with
            | Err e => Some (w, Err (StoreFailed e))
            | Ok body =>
                inspected ← inspect_body policy limits boundary sizes body w;
                let '(w, inspection) := inspected in
                Some (match inspection with
                      | Err e => (drop_body body w, Err e)
                      | Ok i =>
                          (w, Ok {| edit_body := body; edit_boundary := boundary; edit_content_type := content_type;
                                    edit_fields := i.(mi_text_fields); ignored_part_fields := []; wire_model := i.(mi_model);
                                    edit_model := i.(mi_model); edit_image_count := i.(mi_image_count);
                                    edit_image_bytes := i.(mi_image_bytes); edit_mask_count := i.(mi_mask_count);
                                    edit_limits := limits |})
                      end)
            end
      end
  end.
End capture.

(** ** Policy and model *)

Definition stream_requested (e : ImageEditRequestBody) : bool :=
  existsb (λ f, String.eqb f.(tf_name) "stream"
                && is_some_and (from_utf8 f.(tf_value)) (λ v, let v := trim (bytes_of v) in is_text "true" v || bool_decide (v = bytes_of "1")))
    e.(edit_fields).

(** The JSON view of the text fields that billing matches on. *)
Definition field_value (f : MultipartTextField) (value : string) : Json :=
  let trimmed := trim (bytes_of value) in
  if String.eqb f.(tf_name) "n" then
    match parse_u64 trimmed with Some n => JNumber (Int n) | None => JString value end
  else if String.eqb f.(tf_name) "stream" && is_text "true" trimmed then JBool true
  else if String.eqb f.(tf_name) "stream" && is_text "false" trimmed then JBool false
  else JString value.
Definition request_value (e : ImageEditRequestBody) : Json :=
  JObject (foldl (λ object f, match from_utf8 f.(tf_value) with
                              | Some value => map_insert object f.(tf_name) (field_value f value)
                              | None => object
                              end) [] e.(edit_fields)).

Record PolicyState := {
  ps_ignored : list string;
  ps_changed : bool;
  ps_edit : ImageEditRequestBody;
}.

(** The files of a body: an ignored name takes its parts off the counts. *)
Definition police_file (policy : BodyPolicy) (st : PolicyState) (field : string * bool) : result PolicyState RequestPolicyError :=
  let '(name, present) := field in
  if negb present then Ok st
  else
    d <-! field_disposition_for_policy IfImagesEdit policy name None;
    match d with
    | FieldAllow => Ok st
    | FieldIgnore =>
        let e := st.(ps_edit) in
        let image := String.eqb name "image" in
        Ok {| ps_ignored := (if image then ordered_insert "image[]" else id) (ordered_insert name st.(ps_ignored));
              ps_changed := true;
              ps_edit := {| edit_body := e.(edit_body); edit_boundary := e.(edit_boundary);
                            edit_content_type := e.(edit_content_type); edit_fields := e.(edit_fields);
                            ignored_part_fields := e.(ignored_part_fields); wire_model := e.(wire_model);
                            edit_model := e.(edit_model);
                            edit_image_count := if image then 0 else e.(edit_image_count);
                            edit_image_bytes := if image then 0 else e.(edit_image_bytes);
                            edit_mask_count := if image then e.(edit_mask_count) else 0;
                            edit_limits := e.(edit_limits) |} |}
    end.

Definition police_text (policy : BodyPolicy) (st : list MultipartTextField * list string * bool) (f : MultipartTextField)
    : result (list MultipartTextField * list string * bool) RequestPolicyError :=
  let '(retained, ignored, changed) := st in
  d <-! field_disposition_for_policy IfImagesEdit policy f.(tf_name) (JString <$> from_utf8 f.(tf_value));
  Ok (match d with
      | FieldAllow => (retained ++ [f], ignored, changed)
      | FieldIgnore => (retained, ordered_insert f.(tf_name) ignored, true)
      end).

Definition apply_field_policy (policy : BodyPolicy) (e : ImageEditRequestBody)
    : result (ImageEditRequestBody * bool) RequestPolicyError :=
  st <-! try_fold (police_file policy) {| ps_ignored := e.(ignored_part_fields); ps_changed := false; ps_edit := e |}
           [("image", 0 <? e.(edit_image_count)); ("mask", 0 <? e.(edit_mask_count))];
  texts <-! try_fold (police_text policy) ([], st.(ps_ignored), st.(ps_changed)) e.(edit_fields);
  let '(retained, ignored, changed) := texts in
  let e := st.(ps_edit) in
  Ok (if changed : bool
      then {| edit_body := e.(edit_body); edit_boundary := e.(edit_boundary); edit_content_type := e.(edit_content_type);
              edit_fields := retained; ignored_part_fields := ignored; wire_model := e.(wire_model);
              edit_model := e.(edit_model); edit_image_count := e.(edit_image_count);
              edit_image_bytes := e.(edit_image_bytes); edit_mask_count := e.(edit_mask_count);
              edit_limits := e.(edit_limits) |}
      else e, changed).

Definition rewrite_edit_model (e : ImageEditRequestBody) (upstream_model : string) : edited ImageEditRequestBody :=
  if existsb (λ c, (byte c =? 13) || (byte c =? 10)) (bytes_of upstream_model) then Err InvalidModel
  else Ok {| edit_body := e.(edit_body); edit_boundary := e.(edit_boundary); edit_content_type := e.(edit_content_type);
             edit_fields := (λ f, if String.eqb f.(tf_name) "model"
                                  then {| tf_name := f.(tf_name); tf_value := bytes_of upstream_model |} else f) <$> e.(edit_fields);
             ignored_part_fields := e.(ignored_part_fields); wire_model := e.(wire_model); edit_model := upstream_model;
             edit_image_count := e.(edit_image_count); edit_image_bytes := e.(edit_image_bytes);
             edit_mask_count := e.(edit_mask_count); edit_limits := e.(edit_limits) |}.

(** The [ImageEdit] branch of [PreparedRequestBody::rewrite_model]. *)
Definition rewrite_edit (e : ImageEditRequestBody) (client_model upstream_model : string) : edited ImageEditRequestBody :=
  if String.eqb client_model upstream_model then Ok e else rewrite_edit_model e upstream_model.

(** ** The rebuilt body *)

Definition is_stale_rebuilt_part_header (name : string) : bool :=
  existsb (String.eqb name)
    ["content-length"; "content-md5"; "digest"; "content-digest"; "repr-digest"; "etag"; "last-modified"].

Section rebuild.
Context (ignored : list string) (boundary : str) (upstream_model : string).
Implicit Types (f : MultipartField) (fs : list MultipartField).

Definition is_ignored f : bool := is_some_and f.(field_name) (contains_sorted ignored).
Definition replaces f : bool := bool_decide (f.(field_name) = Some "model").

Definition kept_headers f : list (string * str) :=
  List.filter (λ h, negb (replaces f && is_stale_rebuilt_part_header h.1)) f.(field_headers).

(** The writes for one part, and whether its data was the model or failed. *)
Definition part_pieces f : list str * edited bool :=
  if is_ignored f then ([], if f.(field_broken) then Err MalformedMultipart else Ok false)
  else
    let start := [DASHES; boundary; CRLF]
                 ++ concat (map (λ h, [bytes_of h.1; bytes_of ": "; h.2; CRLF]) (kept_headers f)) ++ [CRLF] in
    let data := if replaces f then [] else f.(field_chunks) in
    if f.(field_broken) then (start ++ data, Err MalformedMultipart)
    else (start ++ (if replaces f then [bytes_of upstream_model] else data) ++ [CRLF], Ok (replaces f)).

(** The loop over the parts: the writes up to an error, and whether the model
    was replaced. *)
Fixpoint rebuild_pieces fs (replaced : bool) : list str * edited bool :=
  match fs with
  | [] => ([], Ok replaced)
  | f :: fs =>
      let '(pieces, r) := part_pieces f in
      match r with
      | Err e => (pieces, Err e)
      | Ok now => let '(rest, r) := rebuild_pieces fs (replaced || now) in (pieces ++ rest, r)
      end
  end.
End rebuild.

Definition rebuild_limit (e : ImageEditRequestBody) : Z :=
  sat_add u64_max (sat_add u64_max (body_len e.(edit_body)) (Z.of_nat (String.length e.(edit_model)))) REBUILT_BODY_OVERHEAD_BYTES.

Section upstream_body.
Context `{MU : Multer}.

Definition rebuild_parts (sizes : list nat) (e : ImageEditRequestBody) (w : Store)
    : Store * edited ReplayableRequestBody :=
  let writer := new_writer e.(edit_limits).(edit_memory_bytes) (rebuild_limit e) in
  let '(w, opened) := stream sizes e.(edit_body) w in
  match opened with
  | Err err => (w, Err (StoreFailed err))
  | Ok (cs, broken) =>
      let m := parse_multipart e.(edit_boundary) cs broken in
      let '(pieces, r) := rebuild_pieces e.(ignored_part_fields) e.(edit_boundary) e.(edit_model) m.(parts) false in
      let r := if m.(stream_broken) then (_ <-! r; Err MalformedMultipart) else r in
      let '(w, written) := write_all writer pieces w in
      match written, r with
      | Err err, _ => (w, Err (StoreFailed err))
      | Ok wr, Err err => (drop_storage wr.(storage) w, Err err)
      | Ok wr, Ok replaced =>
          let '(w, written) := write_all wr [DASHES; e.(edit_boundary); DASHES ++ CRLF] w in
          match written with
          | Err err => (w, Err (StoreFailed err))
          | Ok wr =>
              if negb replaced then (drop_storage wr.(storage) w, Err MalformedMultipart)
              else
                let '(w, finished) := finish wr w in
                (w, match finished with Ok b => Ok b | Err err => Err (StoreFailed err) end)
          end
      end
  end.

Definition into_openai_replayable (sizes : list nat) (e : ImageEditRequestBody) (w : Store)
    : Store * edited ReplayableRequestBody :=
  if String.eqb e.(edit_model) e.(wire_model) && match e.(ignored_part_fields) with [] => true | _ => false end
  then (w, Ok e.(edit_body))
  else rebuild_parts sizes e w.
End upstream_body.

(** ** The parser *)

(** Two streams with the same parts, however their data is cut. *)
Definition same_part (f g : MultipartField) : Prop :=
  f.(field_name) = g.(field_name) ∧ f.(field_file_name) = g.(field_file_name)
  ∧ f.(field_content_type) = g.(field_content_type) ∧ f.(field_headers) = g.(field_headers)
  ∧ field_data f = field_data g ∧ f.(field_broken) = g.(field_broken).
Definition same_parts (m m' : MultipartStream) : Prop :=
  Forall2 same_part m.(parts) m'.(parts) ∧ m.(stream_broken) = m'.(stream_broken).

(** The documented behaviour of the parser: the parts do not depend on the chunks
    of the stream nor on what follows their end; the headers of a part are
    lines, a name is a parameter of its content disposition, and its data holds
    no delimiter. *)
Class MulterLaws `{Multer} : Prop := {
  multer_boundary : ∀ text b c, parse_boundary text = Some b → c ∈ bytes_of b → c ∈ bytes_of text;
  multer_chunks : ∀ boundary cs cs', concat cs = concat cs' →
    same_parts (parse_multipart boundary cs false) (parse_multipart boundary cs' false);
  multer_end : ∀ boundary cs cs' rest, (parse_multipart boundary cs true).(stream_broken) = false →
    Forall (λ f, f.(field_broken) = false) (parse_multipart boundary cs true).(parts) → concat cs' = concat cs ++ rest →
    same_parts (parse_multipart boundary cs true) (parse_multipart boundary cs' false);
  multer_headers : ∀ boundary cs f, f ∈ (parse_multipart boundary cs false).(parts) →
    Forall (λ h, bytes_of h.1 ≠ [] ∧ (CR ∉ bytes_of h.1) ∧ (CR ∉ h.2)) f.(field_headers);
  multer_named : ∀ boundary cs f, f ∈ (parse_multipart boundary cs false).(parts) → is_Some f.(field_name) →
    ∃ value, ("content-disposition", value) ∈ f.(field_headers);
  multer_data : ∀ boundary cs f, f ∈ (parse_multipart boundary cs false).(parts) →
    free_of (CRLF ++ DASHES ++ boundary) (field_data f);
}.

(** ** Ignored names *)

Lemma compare_gt x y : String.compare x y = Gt → str_lt y x = true.
Proof. intros H. unfold str_lt. by rewrite String.compare_antisym, H. Qed.

Lemma ordered_insert_elem x l y : y ∈ ordered_insert x l ↔ y = x ∨ y ∈ l.
Proof.
  induction l as [|z l IH]; simpl; [set_solver|]. destruct (String.compare x z) eqn:E.
  - apply String.compare_eq_iff in E. set_solver.
  - set_solver.
  - set_solver.
Qed.

Lemma sorted_unique_cons x l : sorted_unique (x :: l) = true ↔ (∀ y, y ∈ l → str_lt x y = true) ∧ sorted_unique l = true.
Proof.
  revert x. induction l as [|z l IH]; intros x; [simpl; set_solver|].
  change (str_lt x z && sorted_unique (z :: l) = true ↔ (∀ y, y ∈ z :: l → str_lt x y = true) ∧ sorted_unique (z :: l) = true).
  rewrite andb_true_iff. split; intros [H1 H2]; (split; [|done]).
  - intros y [->|Hy]%elem_of_cons; [done|]. apply IH in H2 as [H2 _]. eapply str_lt_trans; [done|by apply H2].
  - apply H1. set_solver.
Qed.

Lemma ordered_insert_sorted x l : sorted_unique l = true → sorted_unique (ordered_insert x l) = true.
Proof.
  induction l as [|z l IH]; [done|]. intros Hs. pose proof Hs as [Hz Hl]%sorted_unique_cons. cbn [ordered_insert].
  destruct (String.compare x z) eqn:E; [done| |].
  - apply sorted_unique_cons. split; [|done]. assert (str_lt x z = true) by (unfold str_lt; by rewrite E).
    intros y [->|Hy]%elem_of_cons; [done|]. eapply str_lt_trans; [done|by apply Hz].
  - apply sorted_unique_cons. split; [|by apply IH]. intros y [->|Hy]%ordered_insert_elem; [by apply compare_gt|by apply Hz].
Qed.

(** ** The policy of the parts *)

Section policing.
Context (policy : BodyPolicy) (Hpolicy : policy_ok policy).
Implicit Types (e : ImageEditRequestBody) (f : MultipartTextField) (ig : list string).

Definition disposition (name : string) (value : option Json) : result FieldDisposition RequestPolicyError :=
  field_disposition_for_policy IfImagesEdit policy name value.
Definition text_disposition f : result FieldDisposition RequestPolicyError :=
  disposition f.(tf_name) (JString <$> from_utf8 f.(tf_value)).

Lemma model_disposition value : disposition "model" value = Ok FieldAllow.
Proof. unfold disposition. rewrite disposition_spec by done. by rewrite bool_decide_true by apply Hpolicy. Qed.

Lemma police_texts fields retained ig changed retained' ig' changed' :
  try_fold (police_text policy) (retained, ig, changed) fields = Ok (retained', ig', changed') → sorted_unique ig = true →
  sorted_unique ig' = true ∧ (∀ n, n ∈ ig → n ∈ ig')
  ∧ (∀ f, f ∈ fields → text_disposition f = Ok FieldAllow ∨ f.(tf_name) ∈ ig')
  ∧ ("model" ∉ ig → "model" ∉ ig') ∧ (changed' = false → changed = false ∧ ig' = ig ∧ retained' = retained ++ fields).
Proof.
  revert retained ig changed. induction fields as [|f fields IH]; intros retained ig changed; cbn [try_fold].
  { intros [= <- <- <-] Hs. split_and!; [done|done|set_solver|done|by rewrite app_nil_r]. }
  intros (st & Hf & Hr)%result_bind_Ok Hs. unfold police_text in Hf at 1. fold (text_disposition f) in Hf.
  apply result_bind_Ok in Hf as (d & Hd & Hst). injection Hst as <-. destruct d.
  - apply IH in Hr as (H1 & H2 & H3 & H4 & H5); [|done]. split_and!; [done|done| |done|].
    + intros g [->|Hg]%elem_of_cons; [by left|by apply H3].
    + intros E. destruct (H5 E) as (-> & -> & ->). by rewrite <- app_assoc.
  - apply IH in Hr as (H1 & H2 & H3 & H4 & H5); [|by apply ordered_insert_sorted]. split_and!; [done| | | |].
    + intros n Hn. apply H2, ordered_insert_elem. by right.
    + intros g [->|Hg]%elem_of_cons; [right|by apply H3]. apply H2, ordered_insert_elem. by left.
    + intros Hn. apply H4. rewrite ordered_insert_elem. intros [E|?]; [|done].
      unfold text_disposition in Hd. by rewrite <- E, model_disposition in Hd.
    + intros E. by apply H5 in E as [[=] _].
Qed.

(** What the policy leaves of a body. *)
Definition same_source e e' : Prop :=
  e'.(edit_body) = e.(edit_body) ∧ e'.(edit_boundary) = e.(edit_boundary) ∧ e'.(wire_model) = e.(wire_model)
  ∧ e'.(edit_model) = e.(edit_model) ∧ e'.(edit_limits) = e.(edit_limits).

Lemma police_file_Ok st name present st' :
  police_file policy st (name, present) = Ok st' → sorted_unique st.(ps_ignored) = true →
  sorted_unique st'.(ps_ignored) = true ∧ (∀ n, n ∈ st.(ps_ignored) → n ∈ st'.(ps_ignored)) ∧ same_source st.(ps_edit) st'.(ps_edit)
  ∧ (present = true → disposition name None = Ok FieldAllow ∨ name ∈ st'.(ps_ignored) ∧ (name = "image" → "image[]" ∈ st'.(ps_ignored)))
  ∧ ("model" ∉ st.(ps_ignored) → "model" ∉ st'.(ps_ignored))
  ∧ (st'.(ps_changed) = false → st' = st).
Proof.
  unfold police_file. fold (disposition name None). intros Hst Hs. destruct present; simpl in Hst.
  2:{ injection Hst as <-. by split_and!. }
  apply result_bind_Ok in Hst as (d & Hd & Hst). destruct d; injection Hst as <-.
  { split_and!; try done. by left. }
  assert (name ≠ "model") by (intros ->; by rewrite model_disposition in Hd).
  simpl. destruct (String.eqb_spec name "image") as [->|Hne]; simpl.
  - split_and!; [by do 2 apply ordered_insert_sorted| |done| | |done]; setoid_rewrite ordered_insert_elem; setoid_rewrite ordered_insert_elem.
    + auto.
    + intros _. right. auto.
    + intros Hn [E|[E|?]]; [by vm_compute in E|congruence|done].
  - split_and!; [by apply ordered_insert_sorted| |done| | |done]; setoid_rewrite ordered_insert_elem.
    + auto.
    + intros _. right. split; [by left|done].
    + intros Hn [E|?]; [congruence|done].
Qed.

Lemma apply_field_policy_Ok e e' changed :
  apply_field_policy policy e = Ok (e', changed) → e.(ignored_part_fields) = [] →
  same_source e e' ∧ sorted_unique e'.(ignored_part_fields) = true ∧ ("model" ∉ e'.(ignored_part_fields))
  ∧ (∀ f, f ∈ e.(edit_fields) → text_disposition f = Ok FieldAllow ∨ f.(tf_name) ∈ e'.(ignored_part_fields))
  ∧ (0 < e.(edit_image_count) → disposition "image" None = Ok FieldAllow
       ∨ "image" ∈ e'.(ignored_part_fields) ∧ "image[]" ∈ e'.(ignored_part_fields))
  ∧ (0 < e.(edit_mask_count) → disposition "mask" None = Ok FieldAllow ∨ "mask" ∈ e'.(ignored_part_fields)).
Proof.
  unfold apply_field_policy. intros (st & Hst & Ht)%result_bind_Ok Hig. rewrite Hig in Hst. cbn [try_fold] in Hst.
  apply result_bind_Ok in Hst as (st1 & H1 & Hst). apply result_bind_Ok in Hst as (st2 & H2 & [= <-]).
  apply police_file_Ok in H1 as (S1 & M1 & Y1 & D1 & N1 & C1); [|done].
  apply police_file_Ok in H2 as (S2 & M2 & Y2 & D2 & N2 & C2); [|done].
  apply result_bind_Ok in Ht as ([[retained ig] ch] & Ht & [= <- <-]).
  apply police_texts in Ht as (S3 & M3 & D3 & N3 & C3); [|done].
  assert (same_source e st2.(ps_edit)) as Hsrc.
  { destruct Y1 as (?&?&?&?&?), Y2 as (?&?&?&?&?). simpl in *. split_and!; congruence. }
  assert ("model" ∉ ig) as Hmodel by (apply N3, N2, N1; simpl; set_solver).
  assert (∀ e', same_source e e' → e'.(ignored_part_fields) = ig →
    same_source e e' ∧ sorted_unique e'.(ignored_part_fields) = true ∧ ("model" ∉ e'.(ignored_part_fields))
    ∧ (∀ f, f ∈ e.(edit_fields) → text_disposition f = Ok FieldAllow ∨ f.(tf_name) ∈ e'.(ignored_part_fields))
    ∧ (0 < e.(edit_image_count) → disposition "image" None = Ok FieldAllow
         ∨ "image" ∈ e'.(ignored_part_fields) ∧ "image[]" ∈ e'.(ignored_part_fields))
    ∧ (0 < e.(edit_mask_count) → disposition "mask" None = Ok FieldAllow ∨ "mask" ∈ e'.(ignored_part_fields))) as Hdone.
  { intros e' He' ->. split_and!; [done|done|done|done| |].
    - intros Hc. destruct (D1 (proj2 (Z.ltb_lt _ _) Hc)) as [?|[? Himg]]; [by left|right]. split; [by apply M3, M2|by apply M3, M2, Himg].
    - intros Hc. destruct (D2 (proj2 (Z.ltb_lt _ _) Hc)) as [?|[? _]]; [by left|right]. by apply M3. }
  destruct ch; apply Hdone; try done. destruct (C3 eq_refl) as (E2 & -> & _). pose proof (C2 E2). subst st2.
  pose proof (C1 E2). subst st1. done.
Qed.
End policing.

(** ** Captured bodies *)

Lemma guard_chunks_prefix v cs passed o : guard_chunks v cs = Some (passed, o) →
  (∃ rest, cs = passed ++ rest) ∧ (o = Ok tt → passed = cs).
Proof.
  revert v passed. induction cs as [|c cs IH]; intros v passed; cbn [guard_chunks].
  { intros [= <- <-]. split; [by exists []|done]. }
  intros (r & Hr & Hk)%bind_Some. destruct r as [v'|e].
  - apply bind_Some in Hk as ([p o'] & Hg & [= <- <-]). apply IH in Hg as [[rest ->] Hp]. split; [by exists rest|].
    intros E. simpl. by rewrite <- (Hp E) at 1.
  - injection Hk as <- <-. split; [by exists (c :: cs)|done].
Qed.

Section captured.
Context `{HT : HeaderText, HL : HeaderLib, MU : Multer} {TLaws : HeaderTextLaws} {MLaws : MulterLaws}.
Context (policy : BodyPolicy) (limits : ImageEditLimits).
Implicit Types (e : ImageEditRequestBody) (m : MultipartStream) (w : Store).

(** The body [e] holds the text, whose parts are [m]. *)
Record captured (text : str) m e : Prop := {
  captured_body : body_ok limits.(edit_memory_bytes) e.(edit_body) text;
  captured_boundary : Z.of_nat (length e.(edit_boundary)) ≤ MAX_MULTIPART_BOUNDARY_BYTES ∧ (CR ∉ e.(edit_boundary));
  captured_parts : parts_ok policy limits.(max_file_bytes) m.(parts);
  captured_end : m.(stream_broken) = false;
  captured_same : ∀ cs, concat cs = text → same_parts m (parse_multipart e.(edit_boundary) cs false);
  captured_model : ∃ f, models m.(parts) = [f] ∧ model_text (field_data f) e.(edit_model);
  captured_wire : e.(wire_model) = e.(edit_model);
  captured_fields : e.(edit_fields) = text_field <$> texts m.(parts);
  captured_images : e.(edit_image_count) = Z.of_nat (length (images m.(parts)));
  captured_masks : e.(edit_mask_count) = Z.of_nat (length (masks m.(parts)));
  captured_ignored : e.(ignored_part_fields) = [];
  captured_limits : e.(edit_limits) = limits;
}.

Lemma multipart_boundary_Ok headers b ct : multipart_boundary headers = Ok (b, ct) →
  Z.of_nat (length b) ≤ MAX_MULTIPART_BOUNDARY_BYTES ∧ (CR ∉ b).
Proof.
  unfold multipart_boundary. intros (v & _ & H)%result_bind_Ok. apply result_bind_Ok in H as (t & Ht%ok_or_Ok & H).
  apply result_bind_Ok in H as (b' & Hb%ok_or_Ok & H). simpl in H. destruct (_ || _) eqn:E; [done|]. injection H as <- <-.
  apply orb_false_iff in E as [_ E]. breflect. split; [done|]. intros Hc. apply (multer_boundary _ _ _ Hb) in Hc.
  apply header_to_str_visible in Ht as [<- Hv]. rewrite forallb_forall in Hv. apply list_elem_of_In, Hv in Hc. by vm_compute in Hc.
Qed.

Lemma inspect_body_Ok b sizes body text w w' i :
  inspect_body policy limits b sizes body w = Some (w', Ok i) → body_ok limits.(edit_memory_bytes) body text →
  0 ≤ limits.(max_file_bytes) < u64_max →
  ∃ m, inspect_multipart policy limits.(max_file_bytes) m = Ok i ∧ ∀ cs, concat cs = text → same_parts m (parse_multipart b cs false).
Proof.
  unfold inspect_body. intros Hi Hb Hmax. destruct (stream sizes body w) as [w1 opened] eqn:Es.
  apply (stream_ok _ _ _ _ _ _ _ Es) in Hb as (_ & _ & Hr). destruct opened as [[cs broken]|]; [|done]. destruct Hr as [_ Hr].
  apply bind_Some in Hi as ([passed o] & Hg & [= <- Hm]). apply bind_Some in Hg as (v & _ & Hg).
  apply guard_chunks_prefix in Hg as [[rest ->] Hp].
  exists (parse_multipart b passed (broken || match o with Ok _ => false | Err _ => true end)). split; [done|].
  intros cs' Hcs. apply inspect_multipart_Ok in Hm as (Hend & Hok & _); [|done].
  assert (∃ r, concat cs' = concat passed ++ r) as [r Hpre].
  { rewrite concat_app in Hr. destruct broken; [destruct Hr as (_ & r & ->)|subst text]; rewrite Hcs, <- ?app_assoc; eauto. }
  destruct broken; simpl in *.
  - eapply multer_end; [done| |done]. destruct Hok as [Hall _ _ _ _ _]. eapply Forall_impl; [done|]. by intros f [].
  - destruct o as [[]|err].
    + apply multer_chunks. rewrite (Hp eq_refl) at 1. congruence.
    + eapply multer_end; [done| |done]. destruct Hok as [Hall _ _ _ _ _]. eapply Forall_impl; [done|]. by intros f [].
Qed.

Lemma capture_Ok headers input client_broken sizes w w' e :
  capture policy limits headers input client_broken sizes w = Some (w', Ok e) →
  0 ≤ limits.(edit_memory_bytes) → 0 ≤ limits.(max_body_bytes) ≤ u64_max → 0 ≤ limits.(max_file_bytes) < u64_max →
  word64 w.(metrics).(active_files) → word64 w.(metrics).(active_bytes) →
  ∃ m, captured (concat input) m e.
Proof.
  unfold capture. intros Hc Hmem Hbody Hfile Hf Hy. destruct (_ <-! reject_encoded_body headers; _) as [[b ct]|] eqn:Eh; [|done].
  apply result_bind_Ok in Eh as (_ & _ & Eh). apply result_bind_Ok in Eh as ([b' ct'] & Hb & Eh).
  destruct (declared_too_large limits headers); [done|]. injection Eh as -> ->. apply multipart_boundary_Ok in Hb as [Hbl Hbc].
  destruct (write_all _ _ _) as [w1 written] eqn:Ew.
  destruct (write_all_ok _ [] _ _ _ _ (active_files (metrics w)) (active_bytes (metrics w)) Ew) as [_ Hw];
    [simpl; lia|apply new_writer_ok; lia|rewrite !Z.add_0_r; by apply counted_self|].
  destruct written as [wr|]; [|done]. destruct client_broken; [done|]. destruct Hw as (Hok & [Hm1 Hm2] & Hc1).
  destruct (finish wr w1) as [w2 finished] eqn:Ef. apply (finish_ok _ _ _ _ _ _ _ Ef Hok) in Hc1 as [_ Hfin].
  destruct finished as [body|]; [|done]. destruct Hfin as [Hbo _]. rewrite Hm1 in Hbo. simpl in Hbo.
  apply bind_Some in Hc as ([w3 inspection] & Hi & Hr). destruct inspection as [i|]; [|done]. injection Hr as _ <-.
  apply (inspect_body_Ok _ _ _ _ _ _ _ Hi) in Hbo as Hm; [|done]. destruct Hm as (m & Hm & Hsame). exists m.
  apply inspect_multipart_Ok in Hm as (Hend & Hparts & _ & f & Hmodels & Hmt & Ht & Hic & Hmc & _); [|done].
  split; simpl; eauto.
Qed.
End captured.

(** ** The text of the rebuilt body *)

Definition header_lines (hs : list (string * str)) : str :=
  concat (map (λ h, bytes_of h.1 ++ bytes_of ": " ++ h.2 ++ CRLF) hs).

Definition printed_part (boundary : str) (model : string) (f : MultipartField) : str :=
  DASHES ++ boundary ++ CRLF ++ header_lines (kept_headers f) ++ CRLF
  ++ (if replaces f then bytes_of model else field_data f) ++ CRLF.

Definition printed (boundary : str) (model : string) (fs : list MultipartField) : str :=
  concat (map (printed_part boundary model) fs) ++ DASHES ++ boundary ++ DASHES ++ CRLF.

(** The parts that are not ignored. *)
Definition kept (ignored : list string) (fs : list MultipartField) : list MultipartField :=
  List.filter (λ f, negb (is_ignored ignored f)) fs.

Section printing.
Context (ignored : list string) (boundary : str) (model : string).
Implicit Types (f g : MultipartField) (fs gs : list MultipartField).

Lemma concat_headers hs : concat (concat (map (λ h : string * str, [bytes_of h.1; bytes_of ": "; h.2; CRLF]) hs)) = header_lines hs.
Proof. induction hs as [|h hs IH]; [done|]. cbn [map concat]. rewrite concat_app, IH. unfold header_lines. simpl. by rewrite <- !app_assoc. Qed.

Lemma part_pieces_Ok f : f.(field_broken) = false →
  ∃ p, part_pieces ignored boundary model f = (p, Ok (negb (is_ignored ignored f) && replaces f))
    ∧ concat p = if is_ignored ignored f then [] else printed_part boundary model f.
Proof.
  intros Hb. unfold part_pieces. rewrite Hb. destruct (is_ignored ignored f); [by eexists|]. eexists. split; [done|].
  unfold printed_part. rewrite !concat_app, concat_headers. cbn [concat]. rewrite !app_nil_r, <- ?app_assoc.
  do 5 f_equal. by destruct (replaces f); simpl; rewrite ?app_nil_r.
Qed.

Lemma rebuild_pieces_Ok fs replaced : Forall (λ f, f.(field_broken) = false) fs →
  ∃ p, rebuild_pieces ignored boundary model fs replaced
       = (p, Ok (replaced || existsb (λ f, negb (is_ignored ignored f) && replaces f) fs))
    ∧ concat p = concat (map (printed_part boundary model) (kept ignored fs)).
Proof.
  revert replaced. induction fs as [|f fs IH]; intros replaced Hb.
  { exists []. by rewrite orb_false_r. }
  apply Forall_cons in Hb as [Hf Hb]. destruct (part_pieces_Ok f Hf) as (p & Hp & Hc).
  destruct (IH (replaced || (negb (is_ignored ignored f) && replaces f)) Hb) as (q & Hq & Hd).
  exists (p ++ q). cbn [rebuild_pieces]. rewrite Hp, Hq. cbn [existsb]. split; [by rewrite orb_assoc|].
  rewrite concat_app, Hc, Hd. unfold kept. simpl. by destruct (is_ignored ignored f).
Qed.

Lemma same_part_printed f g : same_part f g →
  is_ignored ignored f = is_ignored ignored g ∧ replaces f = replaces g ∧ printed_part boundary model f = printed_part boundary model g.
Proof.
  intros (Hn & _ & _ & Hh & Hd & _). unfold printed_part, kept_headers, is_ignored, replaces. rewrite Hn, Hh, Hd. done.
Qed.

Lemma same_parts_printed fs gs : Forall2 same_part fs gs →
  map (printed_part boundary model) (kept ignored fs) = map (printed_part boundary model) (kept ignored gs).
Proof.
  unfold kept. induction 1 as [|f g fs gs Hs _ IH]; [done|]. simpl. destruct (same_part_printed f g Hs) as (-> & _ & Hp).
  destruct (negb _); simpl; [by rewrite Hp, IH|done].
Qed.
End printing.

Lemma not_ignored ignored f n : sorted_unique ignored = true → f.(field_name) = Some n →
  is_ignored ignored f = bool_decide (n ∈ ignored).
Proof. intros Hs Hn. unfold is_ignored. rewrite Hn. simpl. by apply contains_sorted_elem. Qed.

(** Writing in two stages, when no call fails. *)
Lemma write_stages memory limit p q w files bytes :
  0 ≤ memory → 0 ≤ limit ≤ u64_max → ¬ fails w → counted w files bytes →
  match write_all (new_writer memory limit) p w with
  | (w1, Ok wr) =>
      match write_all wr q w1 with
      | (w2, Ok wr) => ∃ b w3, finish wr w2 = (w3, Ok b) ∧ body_ok memory b (concat p ++ concat q)
      | (_, Err err) => err = BodyTooLarge ∧ limit < Z.of_nat (length (concat p ++ concat q))
      end
  | (_, Err err) => err = BodyTooLarge ∧ limit < Z.of_nat (length (concat p ++ concat q))
  end.
Proof.
  intros Hm Hl Hno Hc. destruct (write_all _ p w) as [w1 r1] eqn:E1.
  destruct (write_all_ok _ [] _ _ _ _ files bytes E1) as [L1 R1]; [simpl; lia|apply new_writer_ok; lia|by rewrite !Z.add_0_r|].
  assert (¬ fails w1) as Hno1 by (intros ?; by apply Hno, (later_fails w w1)).
  destruct r1 as [wr|[]]; simpl in R1; [|split; [done|]; rewrite length_app; lia|by destruct R1].
  destruct R1 as (Hok & [Hm1 Hm2] & Hc1). destruct (write_all wr q w1) as [w2 r2] eqn:E2.
  destruct (write_all_ok _ (concat p) _ _ _ _ files bytes E2) as [L2 R2]; [by rewrite Hm2; simpl; lia|done|done|].
  assert (¬ fails w2) as Hno2 by (intros ?; by apply Hno1, (later_fails w1 w2)).
  destruct r2 as [wr2|[]]; [|by rewrite Hm2 in R2; destruct R2|by destruct R2].
  destruct R2 as (Hok2 & [Hn1 _] & Hc2). destruct (finish wr2 w2) as [w3 r3] eqn:E3.
  apply (finish_ok _ _ _ _ _ _ _ E3 Hok2) in Hc2 as [_ R3]. destruct r3 as [b|err]; [|by destruct R3 as (_ & ? & _)].
  exists b, w3. split; [done|]. rewrite Hn1, Hm1 in R3. apply R3.
Qed.

Section rebuilt.
Context `{HT : HeaderText, HL : HeaderLib, MU : Multer} {TLaws : HeaderTextLaws} {MLaws : MulterLaws}.
Context (policy : BodyPolicy) (limits : ImageEditLimits) (Hmemory : 0 ≤ limits.(edit_memory_bytes)).
Implicit Types (e : ImageEditRequestBody) (m : MultipartStream) (w : Store).

Lemma model_part text m e f : captured policy limits text m e → models m.(parts) = [f] →
  f ∈ m.(parts) ∧ f.(field_name) = Some "model".
Proof.
  intros Hc Hm. assert (f ∈ models m.(parts)) as Hf by (rewrite Hm; set_solver). unfold models in Hf.
  apply list_elem_of_In, filter_In in Hf as [Hf Hmod]. apply list_elem_of_In in Hf. split; [done|].
  destruct (captured_parts _ _ _ _ _ Hc) as [Hall _ _ _ _ _]. rewrite Forall_forall in Hall. destruct (part_named _ _ _ (Hall f Hf)) as [n Hn].
  unfold is_model, name_of in Hmod. rewrite Hn in Hmod |- *. apply andb_true_iff in Hmod as [_ E]. by apply String.eqb_eq in E as <-.
Qed.

Lemma rebuild_parts_Ok text m e e' sizes w :
  captured policy limits text m e → e'.(edit_body) = e.(edit_body) → e'.(edit_boundary) = e.(edit_boundary) →
  e'.(edit_limits) = limits → sorted_unique e'.(ignored_part_fields) = true → ("model" ∉ e'.(ignored_part_fields)) →
  ¬ fails w → word64 w.(metrics).(active_files) → word64 w.(metrics).(active_bytes) →
  let out := printed e.(edit_boundary) e'.(edit_model) (kept e'.(ignored_part_fields) m.(parts)) in
  match (rebuild_parts sizes e' w).2 with
  | Ok b => body_ok limits.(edit_memory_bytes) b out
  | Err err => err = StoreFailed BodyTooLarge ∧ rebuild_limit e' < Z.of_nat (length out)
  end.
Proof.
  intros Hc Hb Hbd Hlim Hsort Hmod Hno Hf Hy out. unfold rebuild_parts. rewrite Hb, Hbd, Hlim.
  destruct (stream sizes e.(edit_body) w) as [w1 opened] eqn:Es.
  destruct (stream_ok _ _ _ _ _ _ _ Es (captured_body _ _ _ _ _ Hc)) as (Hl1 & Hc1 & Hr).
  destruct opened as [[cs broken]|err]; [|by destruct Hr]. destruct Hr as [_ Hr]. destruct broken; [by destruct Hr|].
  pose proof (captured_same _ _ _ _ _ Hc cs (eq_sym Hr)) as [Hsame Hend]. rewrite (captured_end _ _ _ _ _ Hc) in Hend.
  set (m2 := parse_multipart (edit_boundary e) cs false) in *.
  assert (Forall (λ f, f.(field_broken) = false) m2.(parts)) as Hwhole.
  { destruct (captured_parts _ _ _ _ _ Hc) as [Hall _ _ _ _ _]. clear -Hsame Hall. revert Hall.
    induction Hsame as [|f g fs gs Hs _ IH]; [done|]. intros [[_ _ _ Hw _ _ _] Hall]%Forall_cons. constructor; [|by apply IH].
    destruct Hs as (_ & _ & _ & _ & _ & <-). done. }
  destruct (rebuild_pieces_Ok e'.(ignored_part_fields) e.(edit_boundary) e'.(edit_model) m2.(parts) false Hwhole) as (p & Hp & Hcp).
  assert (existsb (λ f, negb (is_ignored e'.(ignored_part_fields) f) && replaces f) m2.(parts) = true) as Hex.
  { destruct (captured_model _ _ _ _ _ Hc) as (f & Hfm & _). apply (model_part _ _ _ f Hc) in Hfm as [Hin Hn].
    apply existsb_exists. apply list_elem_of_lookup in Hin as [k Hk].
    destruct (Forall2_lookup_l _ _ _ _ _ Hsame Hk) as (g & Hg%list_elem_of_lookup_2 & Hs). exists g. split; [by apply list_elem_of_In|]. destruct (same_part_printed e'.(ignored_part_fields) [] "" _ _ Hs) as (<- & <- & _).
    rewrite (not_ignored _ _ "model" Hsort Hn), bool_decide_false by done. unfold replaces. by rewrite Hn. }
  rewrite Hp, <- Hend, Hex. cbn [orb]. rewrite <- (same_parts_printed _ _ _ _ _ Hsame) in Hcp.
  assert (¬ fails w1) as Hno1 by (intros ?; by apply Hno, (later_fails w w1)).
  assert (0 ≤ rebuild_limit e' ≤ u64_max) as Hrl.
  { assert (0 ≤ body_len (edit_body e')) by (pose proof (captured_body _ _ _ _ _ Hc); rewrite Hb; destruct (edit_body e); simpl in *; lia).
    unfold rebuild_limit, sat_add, REBUILT_BODY_OVERHEAD_BYTES, u64_max. lia. }
  pose proof (write_stages limits.(edit_memory_bytes) (rebuild_limit e') p [DASHES; edit_boundary e; DASHES ++ CRLF] w1 _ _ Hmemory Hrl
    Hno1 (Hc1 _ _ (counted_self w Hf Hy))) as Hw.
  assert (concat p ++ concat [DASHES; edit_boundary e; DASHES ++ CRLF] = out) as Hout.
  { unfold out, printed. rewrite Hcp. cbn [concat]. by rewrite app_nil_r. }
  rewrite Hout in Hw. destruct (write_all _ p w1) as [w2 [wr|err]]; [|simpl; destruct Hw as [-> ?]; done].
  destruct (write_all wr _ w2) as [w3 [wr'|err]]; [|simpl; destruct Hw as [-> ?]; done].
  destruct Hw as (b & w4 & Hfin & Hbo). simpl. by rewrite Hfin.
Qed.
End rebuilt.

(** ** The structure of the rebuilt body *)

Lemma split_at_CR (a b x c : str) : a ++ CR :: b = x ++ CR :: c → (CR ∉ a) →
  (x = a ∧ b = c) ∨ ∃ x', x = a ++ CR :: x' ∧ b = x' ++ CR :: c.
Proof.
  revert x. induction a as [|d a IH]; intros x H Hn; simpl in H.
  - destruct x as [|d x]; simpl in H; [by injection H as ->; left|]. injection H as <- ->. right. by exists x.
  - destruct x as [|d' x]; simpl in H; [injection H as -> _; set_solver|]. injection H as <- H.
    apply IH in H as [[-> ->]|(x' & -> & ->)]; [by left|right; by exists x'|set_solver].
Qed.

Lemma header_lines_end hs : hs ≠ [] → Forall (λ h, bytes_of h.1 ≠ [] ∧ (CR ∉ bytes_of h.1) ∧ (CR ∉ h.2)) hs →
  ends_first (CRLF ++ CRLF) (header_lines hs ++ CRLF).
Proof.
  intros Hne Hok. split.
  { destruct hs as [|h hs _] using rev_ind; [done|]. unfold header_lines. rewrite map_app, concat_app. cbn [map concat]. rewrite app_nil_r.
    exists (concat (map (λ h, bytes_of h.1 ++ bytes_of ": " ++ h.2 ++ CRLF) hs) ++ bytes_of h.1 ++ bytes_of ": " ++ h.2).
    by rewrite <- !app_assoc. }
  intros u v Huv [x ->]. rewrite <- app_assoc in Huv. clear Hne. revert x Huv.
  induction hs as [|h hs IH]; intros x Huv.
  { apply (f_equal length) in Huv. rewrite !length_app in Huv. simpl in Huv. lia. }
  apply Forall_cons in Hok as [(Hn & Hc1 & Hc2) Hok].
  assert (header_lines (h :: hs) ++ CRLF = (bytes_of h.1 ++ bytes_of ": " ++ h.2) ++ CR :: LF :: header_lines hs ++ CRLF) as E.
  { unfold header_lines. cbn [map concat]. by rewrite <- !app_assoc. }
  rewrite E in Huv. apply split_at_CR in Huv as [[_ Hb]|(x' & _ & Hb)]; [| |set_solver].
  - injection Hb as Hb. destruct hs as [|h' hs]; [by injection Hb as <-|]. apply Forall_cons in Hok as [(Hn' & Hc' & _) _].
    unfold header_lines in Hb. cbn [map concat] in Hb. destruct (bytes_of h'.1) as [|d rest]; [done|]. injection Hb as -> _. set_solver.
  - destruct x' as [|d x']; simpl in Hb; [done|]. injection Hb as _ Hb. by apply (IH Hok x').
Qed.

Lemma free_ends pat d : free_of (CR :: pat) d → (CR ∉ pat) → ends_first (CR :: pat) (d ++ CR :: pat).
Proof.
  intros Hf Hn. split; [by exists d|]. intros u v Huv [x ->]. pose proof Huv as H0. rewrite <- app_assoc in Huv. cbn [app] in Huv.
  destruct v as [|c v]; [done|]. exfalso.
  destruct (decide (length (x ++ CR :: pat) ≤ length d)%nat) as [Hle|Hgt].
  { apply (Hf (x ++ CR :: pat) (take (length d - length (x ++ CR :: pat)) (c :: v))); [|by exists x].
    apply (f_equal (take (length d))) in H0. by rewrite take_app_length, take_app_ge in H0. }
  apply Hn. apply (f_equal (lookup (length d))) in Huv. rewrite list_lookup_middle in Huv by done.
  apply (f_equal length) in H0. rewrite length_app in Hgt. rewrite !length_app in H0. cbn [length] in H0, Hgt.
  rewrite lookup_app_r in Huv by lia. destruct (length d - length x)%nat as [|k] eqn:Ek; [lia|]. simpl in Huv.
  rewrite lookup_app_l in Huv by lia. by eapply list_elem_of_lookup_2.
Qed.

(** A part the rebuilt body can hold. *)
Definition printable (boundary : str) (model : string) (f : MultipartField) : Prop :=
  kept_headers f ≠ [] ∧ Forall (λ h, bytes_of h.1 ≠ [] ∧ (CR ∉ bytes_of h.1) ∧ (CR ∉ h.2)) (kept_headers f)
  ∧ free_of (delimiter boundary) (if replaces f then bytes_of model else field_data f).

Definition headers_fit (f : MultipartField) : Prop :=
  Z.of_nat (length (header_lines (kept_headers f) ++ CRLF)) ≤ MAX_MULTIPART_PART_HEADER_BYTES.

Lemma printed_structured boundary model fs : (CR ∉ boundary) → Forall (printable boundary model) fs → Forall headers_fit fs →
  ∃ rest, printed boundary model fs = (DASHES ++ boundary) ++ rest ∧ after_boundary boundary rest.
Proof.
  intros Hb Hp Hh. induction fs as [|f fs IH].
  { exists (DASHES ++ CRLF). split; [unfold printed; cbn [map concat]; by rewrite <- (app_assoc DASHES)|constructor]. }
  apply Forall_cons in Hp as [(Hne & Hl & Hd) Hp]. apply Forall_cons in Hh as [Hf Hh].
  destruct (IH Hp Hh) as (rest & Hr & Ha).
  exists ([] ++ CRLF ++ (header_lines (kept_headers f) ++ CRLF)
          ++ ((if replaces f then bytes_of model else field_data f) ++ delimiter boundary) ++ rest). split.
  - unfold printed in *. cbn [map concat]. rewrite <- app_assoc, Hr. unfold printed_part, delimiter. rewrite <- !app_assoc. done.
  - apply after_part; [done|by vm_compute|by apply header_lines_end|done| |done].
    apply free_ends; [done|]. intros [E|[E|[E|?]%elem_of_cons]%elem_of_cons]%elem_of_cons; by vm_compute in E || done.
Qed.

(** What the policy says of the part of a client's body. *)
Definition part_allowed (policy : BodyPolicy) (f : MultipartField) : Prop :=
  if is_file f
  then disposition policy (if String.eqb (name_of f) "image[]" then "image" else name_of f) None = Ok FieldAllow
  else text_disposition policy (text_field f) = Ok FieldAllow.

Lemma elem_filter {A} (p : A → bool) l x : x ∈ List.filter p l ↔ x ∈ l ∧ p x = true.
Proof. rewrite !list_elem_of_In. apply filter_In. Qed.

Lemma filter_filter_implied {A} (p q : A → bool) l : (∀ x, x ∈ l → p x = true → q x = true) →
  List.filter p (List.filter q l) = List.filter p l.
Proof.
  induction l as [|x l IH]; intros H; [done|]. simpl. rewrite <- IH by set_solver. destruct (q x) eqn:E; [done|].
  destruct (p x) eqn:Ep; [|done]. rewrite H in E; [done|set_solver|done].
Qed.

Lemma kept_none fs : kept [] fs = fs.
Proof. induction fs as [|f fs IH]; [done|]. unfold kept in *. simpl. unfold is_ignored at 1. by destruct (field_name f); simpl; rewrite IH. Qed.

Lemma ends_first_self pat : ends_first pat pat.
Proof.
  split; [done|]. intros u v Huv Hs. apply suffix_length in Hs. apply (f_equal length) in Huv. rewrite length_app in Huv.
  destruct v; [done|simpl in Huv; lia].
Qed.

Lemma from_utf8_bytes s t : from_utf8 s = Some t → bytes_of t = s.
Proof. unfold from_utf8. case_match; [|done]. intros [= <-]. apply bytes_of_string_of. Qed.

Lemma free_of_no_CR pat s : (CR ∉ s) → free_of (CR :: pat) s.
Proof. intros Hn u v -> [x ->]. set_solver. Qed.

Section upstream.
Context `{HT : HeaderText, HL : HeaderLib, MU : Multer} {TLaws : HeaderTextLaws} {MLaws : MulterLaws}.
Context (policy : BodyPolicy) (limits : ImageEditLimits).
Implicit Types (e : ImageEditRequestBody) (m : MultipartStream) (w : Store).

Lemma kept_allowed text m e e' changed f : policy_ok policy → captured policy limits text m e →
  apply_field_policy policy e = Ok (e', changed) → f ∈ kept e'.(ignored_part_fields) m.(parts) → part_allowed policy f.
Proof.
  intros Hpol Hc He [Hf Hk]%elem_filter. apply apply_field_policy_Ok in He as (_ & Hs & _ & Ht & Hi & Hm); [|done|apply Hc].
  destruct (captured_parts _ _ _ _ _ Hc) as [Hall _ _ _ _ _]. rewrite Forall_forall in Hall. pose proof (Hall f Hf) as [[n Hn] _ _ _ Hfile _ _].
  assert (name_of f = n) as Hname by (unfold name_of; by rewrite Hn).
  rewrite (not_ignored _ _ n Hs Hn) in Hk. apply negb_true_iff, bool_decide_eq_false in Hk. unfold part_allowed.
  destruct (is_file f) eqn:Ef.
  - destruct (Hfile eq_refl) as (Hor & _ & _). rewrite Hname. apply orb_true_iff in Hor as [Himg|Hmask].
    + assert (0 < edit_image_count e) as Hpos.
      { rewrite (captured_images _ _ _ _ _ Hc). assert (f ∈ images (parts m)) as Hin by by apply elem_filter.
        destruct (images (parts m)); [by apply elem_of_nil in Hin|simpl; lia]. }
      unfold is_image, is_image_field in Himg. rewrite Hname in Himg. simpl in Himg. rewrite !orb_true_iff, !String.eqb_eq in Himg.
      destruct (Hi Hpos) as [Hd|[H1 H2]]; destruct Himg as [->|[->|[=]]]; done.
    + assert (0 < edit_mask_count e) as Hpos.
      { rewrite (captured_masks _ _ _ _ _ Hc). assert (f ∈ masks (parts m)) as Hin by by apply elem_filter.
        destruct (masks (parts m)); [by apply elem_of_nil in Hin|simpl; lia]. }
      unfold is_mask in Hmask. rewrite Hname in Hmask. apply String.eqb_eq in Hmask as ->. by destruct (Hm Hpos).
  - destruct (Ht (text_field f)) as [?|Hin]; [|done|].
    + rewrite (captured_fields _ _ _ _ _ Hc). apply list_elem_of_fmap. exists f. split; [done|]. apply elem_filter. by rewrite Ef.
    + simpl in Hin. by rewrite Hname in Hin.
Qed.

(** The part with the name of the model is the model. *)
Lemma replaced_part text m e f f0 : captured policy limits text m e → models m.(parts) = [f0] → f ∈ m.(parts) →
  replaces f = true → f = f0.
Proof.
  intros Hc Hm Hf Hr. unfold replaces in Hr. apply bool_decide_eq_true in Hr.
  destruct (captured_parts _ _ _ _ _ Hc) as [Hall _ _ _ _ _]. rewrite Forall_forall in Hall. pose proof (part_file _ _ _ (Hall f Hf)) as Hfile.
  assert (name_of f = "model") as Hn by (unfold name_of; by rewrite Hr).
  assert (f ∈ models m.(parts)) as Hin; [|rewrite Hm in Hin; set_solver].
  apply elem_filter. split; [done|]. unfold is_model. rewrite Hn. destruct (is_file f) eqn:Ef; [|done].
  destruct (Hfile eq_refl) as [Hor _]. unfold is_image, is_mask in Hor. by rewrite Hn in Hor.
Qed.

Lemma kept_printable text m e ignored model : captured policy limits text m e →
  (CR ∉ bytes_of model) ∨ model = e.(edit_model) →
  Forall (printable e.(edit_boundary) model) (kept ignored m.(parts)).
Proof.
  intros Hc Hmodel. apply Forall_forall. intros f [Hf _]%elem_filter.
  pose proof (captured_same _ _ _ _ _ Hc [text] (app_nil_r text)) as [Hsame _].
  pose proof Hf as [k Hk]%list_elem_of_lookup. destruct (Forall2_lookup_l _ _ _ _ _ Hsame Hk) as (g & Hg%list_elem_of_lookup_2 & Hs).
  destruct Hs as (Hn & _ & _ & Hh & Hd & _). pose proof (multer_headers _ _ _ Hg) as Hlines. rewrite <- Hh in Hlines.
  destruct (captured_parts _ _ _ _ _ Hc) as [Hall _ _ _ _ _]. rewrite Forall_forall in Hall.
  destruct (multer_named _ _ _ Hg) as [value Hv]; [rewrite <- Hn; by apply Hall|]. rewrite <- Hh in Hv.
  pose proof (multer_data _ _ _ Hg) as Hdata. rewrite <- Hd in Hdata. split_and!.
  - assert (("content-disposition", value) ∈ kept_headers f) as Hin; [|intros E; rewrite E in Hin; by apply elem_of_nil in Hin].
    apply elem_filter. split; [done|]. simpl. by rewrite andb_false_r.
  - apply Forall_forall. intros h [Hh' _]%elem_filter. rewrite Forall_forall in Hlines. by apply Hlines.
  - destruct (replaces f) eqn:Er; [|done]. destruct Hmodel as [Hcr|Heq]; [by apply free_of_no_CR|rewrite Heq].
    destruct (captured_model _ _ _ _ _ Hc) as (f0 & Hf0 & Ht & _). apply from_utf8_bytes in Ht.
    rewrite Ht, <- (replaced_part _ _ _ _ _ Hc Hf0 Hf Er). done.
Qed.

Lemma kept_models text m e ignored f0 : captured policy limits text m e → models m.(parts) = [f0] →
  sorted_unique ignored = true → ("model" ∉ ignored) → models (kept ignored m.(parts)) = [f0].
Proof.
  intros Hc Hm Hs Hi. rewrite <- Hm. destruct (captured_parts _ _ _ _ _ Hc) as [Hall _ _ _ _ _]. rewrite Forall_forall in Hall.
  unfold models, kept. apply filter_filter_implied. intros f Hf Hmod. destruct (part_named _ _ _ (Hall f Hf)) as [n Hn].
  unfold is_model, name_of in Hmod. rewrite Hn in Hmod. apply andb_true_iff in Hmod as [_ E].
  apply String.eqb_eq in E. simpl in E. subst n.
  by rewrite (not_ignored _ _ _ Hs Hn), bool_decide_false.
Qed.

End upstream.
