(* ===== verification/PluginBody.v ===== *)
(** * Image edits of connector plugins

    Models [to_plugin_body] of [src/application/request_body.rs]: a connector
    plugin plans a JSON body around the images of an edit, and the host streams
    the images into it in base64.  A plugin is code outside the repository: its
    two calls are arguments.  The base64 encoder is third-party code. *)

From S2P Require Import Prelude Text Json Usage RequestPolicy Pattern Multipart ImageBody ImageEdit ImageRequest.
Open Scope gateway_scope.

(** [BASE64_STANDARD.encode] encodes groups of three bytes independently. *)
Class Base64 : Type := { base64_encode : str → str }.
Class Base64Laws `{Base64} : Prop := {
  base64_nil : base64_encode [] = [];
  base64_app : ∀ a b, (length a `mod` 3 = 0)%nat → base64_encode (a ++ b) = base64_encode a ++ base64_encode b;
}.

(** ** Calls of the plugin *)

(** A plugin returns metadata and a body, or an error with an optional code. *)
Record ImagePlugin := {
  image_edit_plan : Json → str → result (Json * str) (option string);   (** [attempt.image_edit_plan] *)
  image_part_plan : Json → result Json (option string);                 (** [attempt.image_part_plan] *)
}.

Definition image_plugin_error (code : option string) : ImageEditBodyError :=
  let rejected := PolicyRejected (connector_body_rejection IfImagesEdit "codex_request_body_field_unsupported") in
  match code with
  | Some code =>
      if String.eqb code "too_many_images" then CodexTooManyImages
      else if String.eqb code "missing_field" then CodexMissingField
      else if String.eqb code "duplicate_field" then CodexDuplicateField
      else if String.eqb code "invalid_field" then CodexInvalidField
      else if String.eqb code "image_content_type" then CodexImageContentType
      else if String.eqb code "image_streaming_unsupported" then StreamingUnsupported
      else if existsb (String.eqb code) ["mask_unsupported"; "codex_request_body_field_unsupported"] then rejected
      else if String.eqb code "codex_request_body_field_value_unsupported"
      then PolicyRejected (connector_body_rejection IfImagesEdit "codex_request_body_field_value_unsupported")
      else InvalidJson
  | None => InvalidJson
  end.

Definition plugin_call {A} (r : result A (option string)) : edited A :=
  match r with Ok a => Ok a | Err code => Err (image_plugin_error code) end.

(** [plan[name].as_str()] *)
Definition literal (plan : Json) (name : string) : option string := v ← value_get plan name; as_str v.

Definition plan_literal (plan : Json) (name : string) : edited str :=
  value <-! ok_or (literal plan name) InvalidJson;
  if REBUILT_BODY_OVERHEAD_BYTES <? Z.of_nat (String.length value) then Err (StoreFailed BodyTooLarge)
  else Ok (bytes_of value).

Definition validate_projected_image_body `{JsonText} (skeleton : str) (model : string) : edited unit :=
  projected <-! ok_or (from_slice skeleton) InvalidJson;
  if negb (bool_decide (literal projected "model" = Some model)) || bool_decide (is_Some (value_get projected "service_tier"))
  then Err InvalidJson else Ok tt.

(** ** The base64 of a part *)

Section base64.
Context `{B64 : Base64}.

(** The loop over the chunks: the writes, and the bytes left over. *)
Fixpoint base64_chunks (max_file_bytes : Z) (remainder : str) (n : Z) (chunks : list str) : list str * edited str :=
  match chunks with
  | [] => ([], Ok remainder)
  | chunk :: chunks =>
      let n := sat_add u64_max n (Z.of_nat (length chunk)) in
      if max_file_bytes <? n then ([], Err FileTooLarge)
      else
        let input := remainder ++ chunk in
        let encode_bytes := (length input / 3 * 3)%nat in
        let '(rest, r) := base64_chunks max_file_bytes (drop encode_bytes input) n chunks in
        ((if (0 <? encode_bytes)%nat then [base64_encode (take encode_bytes input)] else []) ++ rest, r)
  end.

Definition write_base64_field (max_file_bytes : Z) (f : MultipartField) : list str * edited unit :=
  let '(writes, r) := base64_chunks max_file_bytes [] 0 f.(field_chunks) in
  match r with
  | Err e => (writes, Err e)
  | Ok remainder =>
      if f.(field_broken) then (writes, Err MalformedMultipart)
      else (writes ++ match remainder with [] => [] | _ => [base64_encode remainder] end, Ok tt)
  end.

Definition base64_encoded_len (n : Z) : Z := Z.min u64_max (sat_add u64_max n 2 / 3 * 4).
End base64.

(** ** The body *)

Section plugin_body.
Context `{JT : JsonText, B64 : Base64, MU : Multer}.

Definition optional_text (v : option string) : Json := match v with Some s => JString s | None => JNull end.

(** One part: its writes and its share of the skeleton, and the next index. *)
Definition plugin_part (plugin : ImagePlugin) (e : ImageEditRequestBody) (index : Z) (f : MultipartField)
    : list str * list str * edited Z :=
  let skip := if f.(field_broken) then Err MalformedMultipart else Ok index in
  if is_ignored e.(ignored_part_fields) f then ([], [], skip)
  else if is_some_and f.(field_name) is_image_field then
    match plan <-! plugin_call (plugin.(image_part_plan)
                     (JObject [("content_type", optional_text f.(field_content_type));
                               ("file_name", optional_text f.(field_file_name)); ("index", JNumber (Int index))]));
          prefix <-! plan_literal plan "prefix"; Ok (plan, prefix) with
    | Err err => ([], [], Err err)
    | Ok (plan, prefix) =>
        let '(writes, r) := write_base64_field e.(edit_limits).(max_file_bytes) f in
        match _ <-! r; plan_literal plan "suffix" with
        | Err err => (prefix :: writes, [prefix], Err err)
        | Ok suffix => (prefix :: writes ++ [suffix], [prefix; suffix], Ok (sat_add u64_max index 1))
        end
    end
  else if bool_decide (is_Some f.(field_file_name)) then ([], [], Err InvalidJson)
  else ([], [], skip).

Fixpoint plugin_parts (plugin : ImagePlugin) (e : ImageEditRequestBody) (index : Z) (fs : list MultipartField)
    : list str * list str * edited Z :=
  match fs with
  | [] => ([], [], Ok index)
  | f :: fs =>
      let '(writes, skeleton, r) := plugin_part plugin e index f in
      match r with
      | Err err => (writes, skeleton, Err err)
      | Ok index =>
          let '(writes', skeleton', r) := plugin_parts plugin e index fs in
          (writes ++ writes', skeleton ++ skeleton', r)
      end
  end.

(** The text fields as the plugin receives them. *)
Definition plugin_fields (e : ImageEditRequestBody) : edited str :=
  values <-! try_map (λ f, v <-! ok_or (from_utf8 f.(tf_value)) CodexInvalidField;
                           Ok (JObject [("name", JString f.(tf_name)); ("value", JString v)])) e.(edit_fields);
  Ok (to_vec (JArray values)).

(** The plan: whether the multipart body is replayed, or the texts before and
    after the images. *)
Definition plugin_plan (plugin : ImagePlugin) (e : ImageEditRequestBody) : edited (option (str * str)) :=
  fields <-! plugin_fields e;
  plan <-! plugin_call (plugin.(image_edit_plan)
             (JObject [("image_count", JNumber (Int e.(edit_image_count))); ("mask_count", JNumber (Int e.(edit_mask_count)))]) fields);
  let '(metadata, body) := plan in
  let mode := literal metadata "body_mode" in
  if bool_decide (mode = Some "replay_multipart") then
    match body with [] => Ok None | _ => Err InvalidJson end
  else if bool_decide (mode = Some "json_base64") && (e.(edit_mask_count) =? 0) then
    prefix_bytes <-! ok_or (v ← value_get metadata "prefix_bytes"; as_u64 v) InvalidJson;
    let len := Z.of_nat (length body) in
    if (len <? prefix_bytes) || (MAX_MULTIPART_TEXT_BYTES * 6 + REBUILT_BODY_OVERHEAD_BYTES <? len) then Err InvalidJson
    else Ok (Some (take (Z.to_nat prefix_bytes) body, drop (Z.to_nat prefix_bytes) body))
  else Err InvalidJson.

Definition plugin_limit (e : ImageEditRequestBody) : Z :=
  let text_bytes := foldl (λ total f, sat_add u64_max total (Z.of_nat (length f.(tf_value)))) 0 e.(edit_fields) in
  sat_add u64_max (sat_add u64_max (base64_encoded_len e.(edit_image_bytes)) (Z.min u64_max (text_bytes * 6)))
    REBUILT_BODY_OVERHEAD_BYTES.

Definition JSON_TYPE : str := bytes_of "application/json".

(** The rest of the writes of a JSON body, after its prefix. *)
Definition project_images (plugin : ImagePlugin) (e : ImageEditRequestBody) (prefix suffix : str) (sizes : list nat)
    (wr : ReplayableBodyWriter) (w : Store) : Store * edited (ReplayableRequestBody * str) :=
  let abandon err wr w := (drop_storage wr.(storage) w, Err err) in
  let '(w, opened) := stream sizes e.(edit_body) w in
  match opened with
  | Err err => abandon (StoreFailed err) wr w
  | Ok (cs, broken) =>
      let m := parse_multipart e.(edit_boundary) cs broken in
      let '(writes, skeleton, r) := plugin_parts plugin e 0 m.(parts) in
      let r := images <-! r;
               if m.(stream_broken) || negb (images =? e.(edit_image_count)) then Err MalformedMultipart else Ok tt in
      let '(w, written) := write_all wr writes w in
      match written, r with
      | Err err, _ => (w, Err (StoreFailed err))
      | Ok wr, Err err => abandon err wr w
      | Ok wr, Ok _ =>
          let '(w, written) := write_all wr [suffix] w in
          match written with
          | Err err => (w, Err (StoreFailed err))
          | Ok wr =>
              match validate_projected_image_body (prefix ++ concat skeleton ++ suffix) e.(edit_model) with
              | Err err => abandon err wr w
              | Ok _ =>
                  let '(w, finished) := finish wr w in
                  (w, match finished with Ok b => Ok (b, JSON_TYPE) | Err err => Err (StoreFailed err) end)
              end
          end
      end
  end.

Definition to_plugin_body (plugin : ImagePlugin) (sizes : list nat) (e : ImageEditRequestBody) (w : Store)
    : Store * edited (ReplayableRequestBody * str) :=
  match plugin_plan plugin e with
  | Err err => (w, Err err)
  | Ok None =>
      let '(w, r) := into_openai_replayable sizes e w in
      (w, b <-! r; Ok (b, e.(edit_content_type)))
  | Ok (Some (prefix, suffix)) =>
      let '(w, written) := write_all (new_writer e.(edit_limits).(edit_memory_bytes) (plugin_limit e)) [prefix] w in
      match written with
      | Err err => (w, Err (StoreFailed err))
      | Ok wr => project_images plugin e prefix suffix sizes wr w
      end
  end.
End plugin_body.

(** ** Streaming base64 *)

Section streaming.
Context `{B64 : Base64} {BLaws : Base64Laws}.

Lemma base64_chunks_Ok max_file_bytes cs : ∀ remainder n writes r,
  base64_chunks max_file_bytes remainder n cs = (writes, Ok r) →
  ∃ whole, remainder ++ concat cs = whole ++ r ∧ (length whole `mod` 3 = 0)%nat ∧ concat writes = base64_encode whole.
Proof.
  induction cs as [|c cs IH]; intros remainder n writes r; cbn [base64_chunks concat].
  { intros [= <- <-]. exists []. rewrite app_nil_r, base64_nil. done. }
  destruct (_ <? _); [done|]. set (input := remainder ++ c). set (k := (length input / 3 * 3)%nat).
  destruct (base64_chunks _ (drop k input) _ cs) as [rest r'] eqn:E. intros [= <- ->].
  apply IH in E as (whole & Hw & Hm & Hc). exists (take k input ++ whole).
  assert (k ≤ length input)%nat as Hk by (unfold k; pose proof (Nat.div_mod_eq (length input) 3); lia).
  assert (length (take k input) = k) as Hl by (rewrite length_take; lia).
  assert ((length (take k input) `mod` 3 = 0)%nat) as Hm3 by (rewrite Hl; apply Nat.Div0.mod_mul).
  split_and!.
  - rewrite <- app_assoc, <- Hw, app_assoc. fold input. by rewrite app_assoc, take_drop.
  - rewrite length_app, Nat.Div0.add_mod, Hm3, Hm. done.
  - rewrite concat_app, Hc, base64_app by done. f_equal. destruct (Nat.ltb_spec 0 k); simpl; [by rewrite app_nil_r|].
    assert (k = 0%nat) as -> by lia. by rewrite take_0, base64_nil.
Qed.

(** Writing the base64 of a part chunk by chunk writes the base64 of its data. *)
Lemma write_base64_exact max_file_bytes f writes u :
  write_base64_field max_file_bytes f = (writes, Ok u) → concat writes = base64_encode (field_data f).
Proof.
  unfold write_base64_field. destruct (base64_chunks _ _ _ _) as [ws [r|]] eqn:E; [|done].
  apply base64_chunks_Ok in E as (whole & Hw & Hm & Hc). destruct (field_broken f); [done|]. intros [= <-].
  unfold field_data. change (concat (field_chunks f)) with ([] ++ concat (field_chunks f)). rewrite Hw, base64_app, concat_app, Hc by done.
  f_equal. destruct r; simpl; [by rewrite base64_nil|by rewrite app_nil_r].
Qed.
End streaming.

(** ** The projected body *)

Section projected.
Context `{JT : JsonText, B64 : Base64, MU : Multer} {BLaws : Base64Laws}.
Context (plugin : ImagePlugin) (e : ImageEditRequestBody).

(** The images that reach the plugin's body. *)
Definition projected_images (fs : list MultipartField) : list MultipartField :=
  List.filter (λ f, negb (is_ignored e.(ignored_part_fields) f) && is_some_and f.(field_name) is_image_field) fs.

Definition with_images (ls : list (str * str)) (fs : list MultipartField) : str :=
  concat (zip_with (λ l f, l.1 ++ base64_encode (field_data f) ++ l.2) ls fs).
Definition without_images (ls : list (str * str)) : str := concat (map (λ l, l.1 ++ l.2) ls).

Lemma plugin_part_Ok index f writes skeleton n : plugin_part plugin e index f = (writes, skeleton, Ok n) →
  ∃ ls, length ls = length (projected_images [f]) ∧ concat writes = with_images ls (projected_images [f])
    ∧ concat skeleton = without_images ls.
Proof.
  unfold plugin_part, projected_images. simpl. destruct (is_ignored _ f); simpl.
  { intros [= <- <- _]. by exists []. }
  destruct (is_some_and _ is_image_field); simpl.
  2:{ destruct (bool_decide _); intros [= <- <- _]; by exists []. }
  destruct (_ <-! plugin_call _; _) as [[plan prefix]|]; [|done].
  destruct (write_base64_field _ f) as [ws r] eqn:Ew. destruct (_ <-! r; _) as [suffix|] eqn:Es; [|done]. intros [= <- <- _].
  apply result_bind_Ok in Es as (u & -> & _). apply write_base64_exact in Ew. exists [(prefix, suffix)].
  unfold with_images, without_images. simpl. rewrite concat_app, Ew. simpl. by rewrite !app_nil_r, <- ?app_assoc.
Qed.

Lemma plugin_parts_Ok fs : ∀ index writes skeleton n, plugin_parts plugin e index fs = (writes, skeleton, Ok n) →
  ∃ ls, length ls = length (projected_images fs) ∧ concat writes = with_images ls (projected_images fs)
    ∧ concat skeleton = without_images ls.
Proof.
  induction fs as [|f fs IH]; intros index writes skeleton n; cbn [plugin_parts].
  { intros [= <- <- _]. by exists []. }
  destruct (plugin_part plugin e index f) as [[ws sk] [n1|]] eqn:E1; [|done].
  destruct (plugin_parts plugin e n1 fs) as [[ws' sk'] r] eqn:E2. intros [= <- <- ->].
  apply plugin_part_Ok in E1 as (l1 & Hl1 & Hw1 & Hs1). apply IH in E2 as (l2 & Hl2 & Hw2 & Hs2).
  assert (projected_images (f :: fs) = projected_images [f] ++ projected_images fs) as ->.
  { unfold projected_images. simpl. by destruct (_ && _). }
  exists (l1 ++ l2). rewrite !length_app, !concat_app, Hw1, Hw2, Hs1, Hs2. unfold with_images, without_images.
  rewrite zip_with_app, concat_app, map_app, concat_app by done. split_and!; [lia|done|done].
Qed.
Lemma validate_projected_Ok skeleton model u : validate_projected_image_body skeleton model = Ok u →
  ∃ v, from_slice skeleton = Some v ∧ literal v "model" = Some model ∧ value_get v "service_tier" = None.
Proof.
  unfold validate_projected_image_body. intros (v & Hv%ok_or_Ok & H)%result_bind_Ok. exists v. split; [done|].
  destruct (_ || _) eqn:E; [done|]. apply orb_false_iff in E as [E1 E2]. apply negb_false_iff, bool_decide_eq_true in E1.
  apply bool_decide_eq_false in E2. split; [done|]. by apply eq_None_not_Some.
Qed.

Lemma plugin_limit_range : 0 ≤ e.(edit_image_bytes) → 0 ≤ plugin_limit e ≤ u64_max.
Proof.
  intros Hb. assert (∀ (l : list MultipartTextField) a, 0 ≤ a → 0 ≤ foldl (λ total f, sat_add u64_max total (Z.of_nat (length f.(tf_value)))) a l) as Hf.
  { induction l as [|f l IH]; intros a Ha; [done|]. simpl. apply IH. unfold sat_add, u64_max. lia. }
  pose proof (Hf e.(edit_fields) 0 ltac:(done)) as Ht. unfold plugin_limit. cbv zeta. revert Ht. generalize (foldl (λ total f, sat_add u64_max total (Z.of_nat (length f.(tf_value)))) 0 e.(edit_fields)). intros t Ht.
  unfold base64_encoded_len, sat_add, u64_max, REBUILT_BODY_OVERHEAD_BYTES.
  assert (0 ≤ Z.min 18446744073709551615 (edit_image_bytes e + 2) / 3) by (apply Z.div_pos; lia). lia.
Qed.

(** A JSON body that a connector plugin projects from an image edit holds the
    kept images and nothing else of the client's parts: it is the plan of the
    plugin with the base64 of each kept image, in order, streamed in however the
    parts are cut.  Without the images it is a JSON document with the selected
    model and without a service tier, whatever the plugin returned. *)
Theorem plugin_image_body_exact text sizes w w' b content_type prefix suffix
    (Hmemory : 0 ≤ e.(edit_limits).(edit_memory_bytes)) (Hbytes : 0 ≤ e.(edit_image_bytes))
    (Hbody : body_ok e.(edit_limits).(edit_memory_bytes) e.(edit_body) text)
    (Hw : word64 w.(metrics).(active_files) ∧ word64 w.(metrics).(active_bytes))
    (Hfaults : ¬ fails w)
    (Hplan : plugin_plan plugin e = Ok (Some (prefix, suffix)))
    (Hrun : to_plugin_body plugin sizes e w = (w', Ok (b, content_type))) :
  ∃ cs ls v, concat cs = text
  ∧ let images := projected_images (parse_multipart e.(edit_boundary) cs false).(parts) in
    length ls = length images
    ∧ body_ok e.(edit_limits).(edit_memory_bytes) b (prefix ++ with_images ls images ++ suffix)
    ∧ from_slice (prefix ++ without_images ls ++ suffix) = Some v
    ∧ literal v "model" = Some e.(edit_model) ∧ value_get v "service_tier" = None.
Proof.
  pose proof (plugin_limit_range Hbytes) as Hlim. unfold to_plugin_body in Hrun. rewrite Hplan in Hrun. destruct (write_all _ [prefix] w) as [w1 [wr1|]] eqn:E1; [|done].
  destruct (write_all_ok _ [] _ _ _ _ (active_files (metrics w)) (active_bytes (metrics w)) E1) as [L1 (Hok1 & [M1 X1] & C1)];
    [simpl; lia|apply new_writer_ok; lia|rewrite !Z.add_0_r; apply counted_self; apply Hw|].
  unfold project_images in Hrun. destruct (stream sizes _ w1) as [w2 opened] eqn:Es.
  apply (stream_ok _ _ _ _ _ _ _ Es) in Hbody as (L2 & C2 & Hr). destruct opened as [[cs broken]|]; [|done]. destruct Hr as [_ Hr].
  destruct broken; [by destruct Hr as [?%(later_fails w w1 L1) _]|]. apply C2 in C1.
  destruct (plugin_parts plugin e 0 _) as [[writes skeleton] r] eqn:Ep.
  destruct (write_all wr1 writes w2) as [w3 [wr3|]] eqn:E3; [|done].
  destruct (_ <-! r; _) as [u|] eqn:Er; [|done]. apply result_bind_Ok in Er as (n & -> & _).
  apply plugin_parts_Ok in Ep as (ls & Hl & Hwr & Hsk).
  destruct (write_all_ok _ _ _ _ _ _ _ _ E3 ltac:(rewrite X1; simpl; lia) Hok1 C1) as [_ (Hok3 & [M3 X3] & C3)].
  destruct (write_all wr3 [suffix] w3) as [w4 [wr4|]] eqn:E4; [|done].
  destruct (write_all_ok _ _ _ _ _ _ _ _ E4 ltac:(rewrite X3, X1; simpl; lia) Hok3 C3) as [_ (Hok4 & [M4 _] & C4)].
  destruct (validate_projected_image_body _ _) eqn:Ev; [|done]. apply validate_projected_Ok in Ev as (v & Hv & Hm & Ht).
  destruct (finish wr4 w4) as [w5 [b'|]] eqn:Ef; [|done]. injection Hrun as <- <- <-.
  apply (finish_ok _ _ _ _ _ _ _ Ef Hok4) in C4 as [_ [Hb _]]. rewrite M4, M3, M1 in Hb. simpl in Hb.
  exists cs, ls, v. split; [done|]. split; [done|]. rewrite Hsk in Hv. split; [|done].
  cbn [concat app] in Hb. by rewrite !app_nil_r, Hwr, <- app_assoc in Hb.
Qed.
End projected.
