(* ===== verification/ImageExamples.v ===== *)
(** * An image edit from client to upstream

    A multipart parser that knows one body, the base64 encoding of RFC 4648, and
    a plugin; with them the hypotheses of the image edit theorems hold of a
    request. *)

From S2P Require Import Prelude Text Json Usage ErrorText Headers JsonPatch Transform TransformExamples RequestPolicy Outbound OutboundExamples Pattern Multipart ImageBody ImageEdit ImageRequest PluginBody.
Open Scope gateway_scope.

(** ** A body *)

Definition edit_delimiter : str := bytes_of "b".
Definition disposition_header (text : string) : list (string * str) := [("content-disposition", bytes_of text)].

Definition model_field : MultipartField :=
  {| field_name := Some "model"; field_file_name := None; field_content_type := None;
     field_headers := disposition_header "form-data; name=model"; field_chunks := [bytes_of "m"]; field_broken := false |}.
Definition image_field : MultipartField :=
  {| field_name := Some "image"; field_file_name := Some "a.png"; field_content_type := Some "image/png";
     field_headers := disposition_header "form-data; name=image; filename=a.png"; field_chunks := [bytes_of "PN"; bytes_of "G!"];
     field_broken := false |}.

Definition edit_text : str := printed edit_delimiter "m" [model_field; image_field].

#[export] Instance example_multer : Multer := {
  parse_boundary text := if String.eqb text "multipart/form-data; boundary=b" then Some "b" else None;
  parse_multipart boundary cs _ :=
    if bool_decide (boundary = edit_delimiter) && starts_with edit_text (concat cs)
    then {| parts := [model_field; image_field]; stream_broken := false |}
    else {| parts := []; stream_broken := true |};
}.

Lemma example_parts boundary cs broken f : f ∈ (parse_multipart boundary cs broken).(parts) →
  boundary = edit_delimiter ∧ (f = model_field ∨ f = image_field).
Proof.
  simpl. destruct (bool_decide _) eqn:E; simpl; [|set_solver]. apply bool_decide_eq_true in E.
  destruct (starts_with _ _); simpl; set_solver.
Qed.

Lemma same_parts_refl m : same_parts m m.
Proof. split; [|done]. apply Forall2_same_length_lookup_2; [done|]. intros i f g Hf Hg. by assert (f = g) as -> by congruence. Qed.

#[export] Instance example_multer_laws : MulterLaws.
Proof.
  split.
  - intros text b c. simpl. destruct (String.eqb_spec text "multipart/form-data; boundary=b") as [->|]; [|done]. intros [= <-].
    simpl. set_solver.
  - intros boundary cs cs' E. simpl. rewrite E. apply same_parts_refl.
  - intros boundary cs cs' rest Hb _ E. simpl in *. rewrite E. destruct (bool_decide _); simpl in *; [|done].
    destruct (starts_with edit_text (concat cs)) eqn:Es; [|done]. apply starts_with_true in Es as [r ->].
    assert (starts_with edit_text ((edit_text ++ r) ++ rest) = true) as ->; [|apply same_parts_refl].
    apply starts_with_true. exists (r ++ rest). by rewrite <- app_assoc.
  - intros boundary cs f [_ [->| ->]]%example_parts; apply Forall_singleton; (split_and!; [done|..]); apply (bool_decide_unpack _); by vm_compute.
  - intros boundary cs f [_ [->| ->]]%example_parts _; eexists; apply list_elem_of_singleton; done.
  - intros boundary cs f [-> [->| ->]]%example_parts; apply free_of_no_CR, (bool_decide_unpack _); by vm_compute.
Qed.

(** ** Base64 *)

Definition base64_char (n : Z) : Ascii.ascii :=
  nth (Z.to_nat n) (bytes_of "ABCDEFGHIJKLMNOPQRSTUVWXYZabcdefghijklmnopqrstuvwxyz0123456789+/") (Ascii.ascii_of_N 61).
Definition PAD : Ascii.ascii := Ascii.ascii_of_N 61.

Fixpoint rfc4648 (s : str) : str :=
  match s with
  | [] => []
  | [a] => [base64_char (byte a / 4); base64_char (byte a mod 4 * 16); PAD; PAD]
  | [a; b] => [base64_char (byte a / 4); base64_char (byte a mod 4 * 16 + byte b / 16); base64_char (byte b mod 16 * 4); PAD]
  | a :: b :: c :: s =>
      [base64_char (byte a / 4); base64_char (byte a mod 4 * 16 + byte b / 16);
       base64_char (byte b mod 16 * 4 + byte c / 64); base64_char (byte c mod 64)] ++ rfc4648 s
  end.

#[export] Instance rfc_base64 : Base64 := { base64_encode := rfc4648 }.
#[export] Instance rfc_base64_laws : Base64Laws.
Proof.
  split; [done|]. assert (∀ k a b, length a = (k * 3)%nat → rfc4648 (a ++ b) = rfc4648 a ++ rfc4648 b) as H.
  { induction k as [|k IH]; intros a b Hl; [by destruct a|].
    destruct a as [|x [|y [|z a]]]; simpl in Hl; try lia. cbn [rfc4648 app]. by rewrite IH by lia. }
  intros a b Hm. apply (H (length a / 3)%nat). pose proof (Nat.div_mod_eq (length a) 3). lia.
Qed.

(** ** The request *)

Lemma multipart_guard_exact_witness :
  Z.of_nat (length edit_delimiter) ≤ MAX_MULTIPART_BOUNDARY_BYTES
  ∧ ∃ passed outcome, guard_multipart_stream edit_delimiter [edit_text] = Some (passed, outcome).
Proof.
  assert (Z.of_nat (length edit_delimiter) ≤ MAX_MULTIPART_BOUNDARY_BYTES) as H by by vm_compute.
  split; [exact H|]. destruct (multipart_guard_exact edit_delimiter [edit_text] H) as (p & o & Hg & _). by exists p, o.
Defined.

(** A store whose first file-system call fails. *)
Definition failing_store : Store := new_store [FailsAfter 0].

Lemma captured_body_replays_witness :
  0 ≤ 2 ∧ match (capture_body 2 8 [bytes_of "four"] failing_store).2 with
          | Err StorageUnavailable => fails failing_store
          | _ => False
          end.
Proof.
  split; [done|]. pose proof (captured_body_replays 2 8 [bytes_of "four"] failing_store) as H.
  assert ((capture_body 2 8 [bytes_of "four"] failing_store).2 = Err StorageUnavailable) as E by reflexivity.
  rewrite E in H |- *. by apply H.
Defined.

Lemma spool_counters_exact_witness :
  let os := [OwnsWriter (write (new_writer 2 8) (bytes_of "four") (new_store [])).1.2] in
  let w := (write (new_writer 2 8) (bytes_of "four") (new_store [])).1.1 in
  live_files os = 1 ∧ live_bytes os = 4 ∧ w.(metrics).(active_files) = wrap64 (live_files os).
Proof.
  intros os w. split; [reflexivity|]. split; [reflexivity|].
  apply (spool_counters_exact [] w os). eapply rtc_l; [|eapply rtc_once].
  - by apply (step_open 2 8 (new_store []) []).
  - apply (step_write (new_writer 2 8) (bytes_of "four") (new_store []) w _ [] []). reflexivity.
Defined.

Definition edit_parts : MultipartStream := {| parts := [model_field; image_field]; stream_broken := false |}.
Definition edit_inspection : MultipartInspection :=
  {| mi_text_fields := [text_field model_field]; mi_model := "m"; mi_image_count := 1; mi_image_bytes := 4; mi_mask_count := 0 |}.

Lemma edit_inspected : inspect_multipart images_edit_policy 8 edit_parts = Ok edit_inspection.
Proof. reflexivity. Qed.

Lemma inspection_exact_witness : 0 ≤ 8 < u64_max ∧ parts_ok images_edit_policy 8 edit_parts.(parts).
Proof. split; [done|]. apply (inspection_exact images_edit_policy 8 edit_parts edit_inspection); [done|exact edit_inspected]. Defined.

Definition edit_sizes : ImageEditLimits := {| max_body_bytes := 4096; max_file_bytes := 8; edit_memory_bytes := 4096 |}.
Definition edit_headers : HeaderMap := [("content-type", bytes_of "multipart/form-data; boundary=b")].
Definition edit_chunks : list str := [take 40 edit_text; drop 40 edit_text].

Definition captured_edit : ImageEditRequestBody :=
  {| edit_body := BodyMemory edit_text; edit_boundary := edit_delimiter;
     edit_content_type := bytes_of "multipart/form-data; boundary=b"; edit_fields := [text_field model_field];
     ignored_part_fields := []; wire_model := "m"; edit_model := "m"; edit_image_count := 1; edit_image_bytes := 4;
     edit_mask_count := 0; edit_limits := edit_sizes |}.
Lemma edit_captured :
  capture images_edit_policy edit_sizes edit_headers edit_chunks false [] (new_store []) = Some (new_store [], Ok captured_edit).
Proof. vm_compute. reflexivity. Qed.

Lemma edit_policed : apply_field_policy images_edit_policy captured_edit = Ok (captured_edit, false).
Proof. vm_compute. reflexivity. Qed.

Lemma images_edit_policy_ok : policy_ok images_edit_policy.
Proof. by destruct (validate_contract_interfaces _ IfImagesEdit gateway_contract_valid) as (policy & [= <-] & H). Qed.

Definition rewritten_edit : ImageEditRequestBody :=
  match rewrite_edit captured_edit "m" "m2" with Ok e => e | Err _ => captured_edit end.
Definition upstream_parts : list MultipartField := kept rewritten_edit.(ignored_part_fields) [model_field; image_field].

Definition sent_body (r : edited ReplayableRequestBody) : option str := match r with Ok (BodyMemory s) => Some s | _ => None end.
Lemma edit_sent : sent_body (into_openai_replayable [] rewritten_edit (new_store [])).2 = Some (printed edit_delimiter "m2" upstream_parts).
Proof. vm_compute. reflexivity. Qed.

Lemma not_failing : ¬ fails (new_store []).
Proof. intros [k Hk]. by apply elem_of_nil in Hk. Qed.


(** A plugin that puts the images of an edit into a JSON array. *)
Definition array_plugin : ImagePlugin := {|
  image_edit_plan _ _ := Ok (JObject [("body_mode", JString "json_base64"); ("prefix_bytes", JNumber (Int 3))], bytes_of "{m,}");
  image_part_plan _ := Ok (JObject [("prefix", JString "<"); ("suffix", JString ">")]);
|}.

#[export] Instance skeleton_json : JsonText := {
  from_slice s := if bool_decide (s = bytes_of "{m,<>}") then Some (JObject [("model", JString "m2")]) else None;
  to_vec _ := []; pretty _ := []; number_text _ := [];
}.

Definition plugin_sent : Store * edited (ReplayableRequestBody * str) := to_plugin_body array_plugin [] rewritten_edit (new_store []).
Lemma plugin_sent_ok : plugin_sent = (new_store [], Ok (BodyMemory (bytes_of "{m,<UE5HIQ==>}"), JSON_TYPE)).
Proof. vm_compute. reflexivity. Qed.

Lemma plugin_image_body_exact_witness :
  plugin_sent = (new_store [], Ok (BodyMemory (bytes_of "{m,<UE5HIQ==>}"), JSON_TYPE))
  ∧ ∃ cs, concat cs = edit_text.
Proof.
  split; [exact plugin_sent_ok|].
  destruct (plugin_image_body_exact array_plugin rewritten_edit edit_text [] (new_store []) (new_store [])
    (BodyMemory (bytes_of "{m,<UE5HIQ==>}")) JSON_TYPE (bytes_of "{m,") (bytes_of "}")) as (cs & ls & v & Hcs & _).
  all: try (exact plugin_sent_ok || exact not_failing || reflexivity || done).
  by exists cs.
Defined.
