(* ===== verification/Compiled.v ===== *)
(** * Compiled routing snapshot

    Models the immutable data of [src/domain/compiled_routing.rs]: API keys
    with their authorization bit sets, channels with transport masks and
    connectivity fingerprints, candidates, tiers, model rules, and the
    two-level route index.

    [D], [V] and [T] are the decimal, JSON and instant types; [Policy] and
    [Auth] stand for the upstream policy and credential payloads that routing
    only carries along.  SHA-256 and the text form of a UUID come from crates
    and are section variables. *)

From stdpp Require Import pretty.
From S2P Require Import Prelude Text Decimal Domain Billing Cost.

(** A 32-byte digest. *)
Abbreviation digest := N (only parsing).

(** ** Bit sets *)

Definition BITS : nat := 64.

Definition bit_is_set (words : list Z) (slot : nat) : bool :=
  match words !! (slot / BITS)%nat with
  | None => false
  | Some bits => negb (Z.land bits (Z.shiftl 1 (Z.of_nat (slot mod BITS))) =? 0)
  end.

(** [words[slot / 64] |= 1 << (slot % 64)] *)
Definition set_bit (words : list Z) (slot : nat) : list Z :=
  alter (λ w, Z.lor w (Z.shiftl 1 (Z.of_nat (slot mod BITS)))) (slot / BITS)%nat words.

(** [vec![0; n.div_ceil(64)]] *)
Definition zero_words (n : nat) : list Z := replicate ((n + (BITS - 1)) / BITS)%nat 0.

(** ** API keys *)

Inductive ApiKeyPermission := Proxy | ModelsRead.
#[export] Instance ApiKeyPermission_eq_dec : EqDecision ApiKeyPermission.
Proof. solve_decision. Defined.

Record AuthorizationProfile := {
  allowed_channel_slots : list Z;
  accessible_route_slots : list Z;
  profile_fingerprint : digest;
}.

Section api_key.
Context {D T : Type} `{DecimalOps D} `{UtcOps T}.

Record CompiledApiKey := {
  key_id : uuid;
  key_user_id : uuid;
  websocket_enabled : bool;
  filter_fast_mode : bool;
  allowed_api_formats : list ApiFormat.t;
  permissions : list ApiKeyPermission;
  authorization : AuthorizationProfile;
  expires_at : option T;
  requests_per_minute : option Z;
  max_concurrent_requests : option Z;
  quota_limit_amount : option D;
  quota_used_amount : D;
}.

(** [now] is [Utc::now()]. *)
Definition is_expired (now : T) (k : CompiledApiKey) : bool :=
  is_some_and k.(expires_at) (λ e, utc_leb e now).

Definition permits (now : T) (k : CompiledApiKey) (format : ApiFormat.t)
    (permission : ApiKeyPermission) : bool :=
  bool_decide (format ∈ k.(allowed_api_formats))
  && bool_decide (permission ∈ k.(permissions)) && negb (is_expired now k).

Definition permits_route_candidate (k : CompiledApiKey) (slot : nat) : bool :=
  bit_is_set k.(authorization).(allowed_channel_slots) slot.
Definition permits_route (k : CompiledApiKey) (slot : nat) : bool :=
  bit_is_set k.(authorization).(accessible_route_slots) slot.
Definition routing_scope_fingerprint (k : CompiledApiKey) : digest :=
  k.(authorization).(profile_fingerprint).

Definition quota_exhausted_at (k : CompiledApiKey) (used : D) : bool :=
  is_some_and k.(quota_limit_amount) (λ limit, dec_leb limit used).
Definition quota_exhausted (k : CompiledApiKey) : bool :=
  quota_exhausted_at k k.(quota_used_amount).
End api_key.
Arguments CompiledApiKey D T : clear implicits.

(** ** Channels *)

Definition transport_bit (t : CapabilityTransport.t) : Z :=
  match t with
  | CapabilityTransport.HttpJson => 1
  | CapabilityTransport.HttpSse => 2
  | CapabilityTransport.Websocket => 4
  | CapabilityTransport.Multipart => 8
  end.

(** [transports.iter().fold(0, |mask, t| mask | transport_bit(t))] *)
Definition transports_mask (ts : list CapabilityTransport.t) : Z :=
  foldl (λ mask t, Z.lor mask (transport_bit t)) 0 ts.

(** The identity of one compiled capability channel
    ([compiled_routing::ChannelIdentity]). *)
Record CapabilityIdentity := {
  ci_logical_channel_id : uuid;
  ci_access_id : uuid;
  ci_api_operation : ApiOperation.t;
  ci_credential_id : option uuid;
  ci_credential_revision : option uuid;
  ci_binding_revision : uuid;
  ci_access_revision : uuid;
  ci_capability_revision : uuid;
}.

Section channel.
Context {D Policy Auth : Type} (uuid_display : uuid → string).

Record CompiledChannel := {
  channel_id : uuid;
  group_id : uuid;
  channel_api_format : ApiFormat.t;
  logical_channel_id : uuid;
  access_id : uuid;
  channel_api_operation : ApiOperation.t;
  credential_id : option uuid;
  connector_kind : ConnectorKind.t;
  request_compression : RequestCompression.t;
  base_url : string;
  connectivity_fingerprint : string;
  access_revision : uuid;
  capability_revision : uuid;
  supports_websocket : bool;
  supports_standalone_web_search : bool;
  transport_mask : Z;
  strict_transport_contract : bool;
  channel_billing_multiplier : D;
  upstream_auth : Auth;
  available_models : gset string;
  auto_disable_allowed : bool;
  auto_disabled : bool;
  test_model : option string;
  upstream_policy : Policy;
}.

Definition permits_transport (c : CompiledChannel) (t : CapabilityTransport.t) : bool :=
  negb (Z.land c.(transport_mask) (transport_bit t) =? 0).

(** Replace the transport mask, the WebSocket flag, the contract flag and the
    fingerprint. *)
Definition set_transports (c : CompiledChannel) (mask : Z) (websocket strict : bool)
    (fingerprint : string) : CompiledChannel :=
  {| channel_id := c.(channel_id); group_id := c.(group_id);
     channel_api_format := c.(channel_api_format);
     logical_channel_id := c.(logical_channel_id); access_id := c.(access_id);
     channel_api_operation := c.(channel_api_operation);
     credential_id := c.(credential_id); connector_kind := c.(connector_kind);
     request_compression := c.(request_compression); base_url := c.(base_url);
     connectivity_fingerprint := fingerprint;
     access_revision := c.(access_revision); capability_revision := c.(capability_revision);
     supports_websocket := websocket;
     supports_standalone_web_search := c.(supports_standalone_web_search);
     transport_mask := mask; strict_transport_contract := strict;
     channel_billing_multiplier := c.(channel_billing_multiplier);
     upstream_auth := c.(upstream_auth); available_models := c.(available_models);
     auto_disable_allowed := c.(auto_disable_allowed); auto_disabled := c.(auto_disabled);
     test_model := c.(test_model); upstream_policy := c.(upstream_policy) |}.

Definition mask_permits (mask : Z) (t : CapabilityTransport.t) : bool :=
  negb (Z.land mask (transport_bit t) =? 0).

Definition with_transports (c : CompiledChannel) (ts : list CapabilityTransport.t)
  : CompiledChannel :=
  let mask := match ts with [] => c.(transport_mask) | _ => transports_mask ts end in
  let websocket := match ts with
                   | [] => c.(supports_websocket)
                   | _ => mask_permits mask CapabilityTransport.Websocket
                   end in
  set_transports c mask websocket c.(strict_transport_contract)
    (c.(connectivity_fingerprint) +:+ "#transport=" +:+ pretty (Z.to_N mask)).

Definition restrict_transports (c : CompiledChannel) (ts : list CapabilityTransport.t)
  : CompiledChannel :=
  let mask := Z.land c.(transport_mask) (transports_mask ts) in
  set_transports c mask (mask_permits mask CapabilityTransport.Websocket) true
    (c.(connectivity_fingerprint) +:+ "#restricted-transport=" +:+ pretty (Z.to_N mask)).

Definition NIL : uuid := 0%N.

(** The text of the connectivity fingerprint of a bound channel. *)
Definition identity_fingerprint (url : string) (i : CapabilityIdentity) : string :=
  url +:+ "#" +:+ uuid_display i.(ci_logical_channel_id)
  +:+ "/" +:+ ApiOperation.as_str i.(ci_api_operation)
  +:+ "#" +:+ uuid_display i.(ci_binding_revision)
  +:+ "/" +:+ uuid_display i.(ci_access_revision)
  +:+ "#" +:+ uuid_display i.(ci_access_id)
  +:+ "/" +:+ uuid_display i.(ci_capability_revision)
  +:+ "#" +:+ uuid_display (default NIL i.(ci_credential_id))
  +:+ "/" +:+ uuid_display (default NIL i.(ci_credential_revision)).

Definition identity_is_bound (i : CapabilityIdentity) : bool :=
  bool_decide (is_Some i.(ci_credential_id))
  || negb (bool_decide (i.(ci_binding_revision) = NIL))
  || negb (bool_decide (i.(ci_access_revision) = NIL))
  || negb (bool_decide (i.(ci_capability_revision) = NIL)).

Definition with_channel_identity (c : CompiledChannel) (i : CapabilityIdentity)
  : CompiledChannel :=
  {| channel_id := c.(channel_id); group_id := c.(group_id);
     channel_api_format := c.(channel_api_format);
     logical_channel_id := i.(ci_logical_channel_id); access_id := i.(ci_access_id);
     channel_api_operation := i.(ci_api_operation);
     credential_id := i.(ci_credential_id); connector_kind := c.(connector_kind);
     request_compression := c.(request_compression); base_url := c.(base_url);
     connectivity_fingerprint :=
       if identity_is_bound i then identity_fingerprint c.(base_url) i
       else c.(connectivity_fingerprint);
     access_revision := i.(ci_access_revision);
     capability_revision := i.(ci_capability_revision);
     supports_websocket := c.(supports_websocket);
     supports_standalone_web_search := c.(supports_standalone_web_search);
     transport_mask := c.(transport_mask);
     strict_transport_contract := c.(strict_transport_contract);
     channel_billing_multiplier := c.(channel_billing_multiplier);
     upstream_auth := c.(upstream_auth); available_models := c.(available_models);
     auto_disable_allowed := c.(auto_disable_allowed); auto_disabled := c.(auto_disabled);
     test_model := c.(test_model); upstream_policy := c.(upstream_policy) |}.

Definition initial_transport_mask (format : ApiFormat.t) (kind : ConnectorKind.t)
    (websocket : bool) : Z :=
  let mask :=
    match format with
    | ApiFormat.OpenAiChatCompletions =>
        Z.lor (transport_bit CapabilityTransport.HttpJson) (transport_bit CapabilityTransport.HttpSse)
    | ApiFormat.OpenAiResponses =>
        Z.lor (transport_bit CapabilityTransport.HttpSse)
          (if bool_decide (kind = ConnectorKind.CodexOauth) then 0
           else transport_bit CapabilityTransport.HttpJson)
    | ApiFormat.OpenAiImages =>
        Z.lor (transport_bit CapabilityTransport.HttpJson) (transport_bit CapabilityTransport.Multipart)
    end in
  if websocket then Z.lor mask (transport_bit CapabilityTransport.Websocket) else mask.

(** [new_with_connector_policy_automation_and_billing] *)
Definition new_channel (id group : uuid) (format : ApiFormat.t) (kind : ConnectorKind.t)
    (compression : RequestCompression.t) (url : string) (multiplier : D) (auth : Auth)
    (models : gset string) (websocket search allowed disabled : bool)
    (test : option string) (policy : Policy) : CompiledChannel :=
  {| channel_id := id; group_id := group; channel_api_format := format;
     logical_channel_id := id; access_id := NIL;
     channel_api_operation := ApiOperation.legacy_default format;
     credential_id := None; connector_kind := kind; request_compression := compression;
     base_url := url; connectivity_fingerprint := url;
     access_revision := NIL; capability_revision := NIL;
     supports_websocket := websocket; supports_standalone_web_search := search;
     transport_mask := initial_transport_mask format kind websocket;
     strict_transport_contract := false;
     channel_billing_multiplier := multiplier; upstream_auth := auth;
     available_models := models; auto_disable_allowed := allowed;
     auto_disabled := disabled; test_model := test; upstream_policy := policy |}.
End channel.
Arguments CompiledChannel D Policy Auth : clear implicits.

(** ** Tiers and rules *)

Inductive SelectionStrategy := WeightedRandom | WeightedRoundRobin.
#[export] Instance SelectionStrategy_eq_dec : EqDecision SelectionStrategy.
Proof. solve_decision. Defined.

Definition parse_strategy (value : string) : option SelectionStrategy :=
  if String.eqb value "weighted_random" then Some WeightedRandom
  else if String.eqb value "weighted_round_robin" then Some WeightedRoundRobin
  else None.

Section rules.
Context {D V T Policy Auth : Type}.

Record CompiledCandidate := {
  candidate_slot : nat;
  channel_slot : nat;
  channel : CompiledChannel D Policy Auth;
  upstream_model : string;
  weight : Z;
}.

Record CompiledRouteTier := {
  priority : Z;
  strategy : SelectionStrategy;
  tier_fingerprint : digest;
  channel_ids : list uuid;
  candidates : list CompiledCandidate;
}.

(** [i32::to_le_bytes] / [u32::to_le_bytes], two's complement. *)
Definition to_le_bytes (n : nat) (z : Z) : list Z :=
  (λ i, Z.land (Z.shiftr z (8 * Z.of_nat i)) 255) <$> seq 0 n.

(** The 16 bytes of a UUID, most significant first. *)
Definition uuid_bytes (u : uuid) : list Z := rev (to_le_bytes 16 (Z.of_N u)).

Definition string_bytes (s : string) : list Z := byte <$> bytes_of s.

(** The bytes [CompiledRouteTier::new] hashes. *)
Definition tier_preimage (priority : Z) (strategy : SelectionStrategy)
    (cs : list CompiledCandidate) : list Z :=
  string_bytes "ai-gateway:route-tier:v1" ++ [0] ++ to_le_bytes 4 priority
  ++ [match strategy with WeightedRandom => 0 | WeightedRoundRobin => 1 end]
  ++ flat_map (λ c, uuid_bytes c.(channel).(channel_id) ++ string_bytes c.(upstream_model)
                    ++ [0] ++ to_le_bytes 4 c.(weight)) cs.

Definition new_tier (sha256 : list Z → digest) (priority : Z) (strategy : SelectionStrategy)
    (cs : list CompiledCandidate) : CompiledRouteTier :=
  {| priority := priority; strategy := strategy;
     tier_fingerprint := sha256 (tier_preimage priority strategy cs);
     channel_ids := (λ c, c.(channel).(channel_id)) <$> cs;
     candidates := cs |}.

Record CompiledUnavailableRouteCandidate := {
  unavailable_channel_id : uuid;
  unavailable_group_id : uuid;
}.

Record CompiledModelRule := {
  route_slot : nat;
  rule_id : uuid;
  model_id : uuid;
  client_model : string;
  api_operation : ApiOperation.t;
  rule_price_snapshot : ModelPriceSnapshot D T;
  rule_advanced_billing : CompiledAdvancedBilling D V;
  tiers : list CompiledRouteTier;
  unavailable_candidates : list CompiledUnavailableRouteCandidate;
  target_candidates : list Z;
  model_capable_candidates : list Z;
  target_candidate_count : Z;
  model_capable_candidate_count : Z;
}.

(** [a.iter().zip(b).any(|(a, b)| a & b != 0)] *)
Definition words_intersect (a b : list Z) : bool :=
  existsb (λ p, negb (Z.land p.1 p.2 =? 0)) (zip a b).

Definition authorization_candidates_intersect (r : CompiledModelRule) (allowed : list Z) : bool :=
  let candidates :=
    if existsb (λ w, negb (w =? 0)) r.(model_capable_candidates)
    then r.(model_capable_candidates) else r.(target_candidates) in
  words_intersect candidates allowed.

Definition model_capable_candidates_intersect (r : CompiledModelRule) (allowed : list Z) : bool :=
  words_intersect r.(model_capable_candidates) allowed.

(** ** The route index *)

(** A [ModelRouteKey] is the pair of an operation and a client model name;
    [routes_insert] is the body of the loop of [CompiledModelRoutes::from_flat]. *)
Definition routes_insert (key : ApiOperation.t * string) (rule : CompiledModelRule)
    (m : gmap ApiOperation.t (gmap string CompiledModelRule))
  : gmap ApiOperation.t (gmap string CompiledModelRule) :=
  <[key.1 := <[key.2 := rule]> (default ∅ (m !! key.1))]> m.

Definition routes_from_flat (routes : gmap (ApiOperation.t * string) CompiledModelRule)
  : gmap ApiOperation.t (gmap string CompiledModelRule) :=
  map_fold routes_insert ∅ routes.

Definition routes_get (m : gmap ApiOperation.t (gmap string CompiledModelRule))
    (operation : ApiOperation.t) (model : string) : option CompiledModelRule :=
  m !! operation ≫= λ rules, rules !! model.
End rules.
Arguments CompiledCandidate D Policy Auth : clear implicits.
Arguments CompiledRouteTier D Policy Auth : clear implicits.
Arguments CompiledModelRule D V T Policy Auth : clear implicits.

(** ** Bit sets represent sets of slots *)

Lemma bit_is_set_testbit words slot :
  bit_is_set words slot = is_some_and (words !! (slot / BITS)%nat)
                            (λ w, Z.testbit w (Z.of_nat (slot mod BITS))).
Proof.
  unfold bit_is_set. destruct (words !! (slot / BITS)%nat) as [w|]; [|done]. unfold is_some_and.
  set (i := Z.of_nat (slot mod BITS)). assert (0 ≤ i) by lia.
  assert (Z.land w (Z.shiftl 1 i) = if Z.testbit w i then Z.shiftl 1 i else 0) as ->.
  { apply Z.bits_inj'. intros n Hn. rewrite Z.land_spec, Z.shiftl_1_l, Z.pow2_bits_eqb by lia.
    destruct (Z.testbit w i) eqn:E;
      [rewrite Z.pow2_bits_eqb by lia|rewrite Z.bits_0];
      destruct (Z.eqb_spec i n) as [<-|]; rewrite ?E, ?andb_false_r; done. }
  destruct (Z.testbit w i); simpl; [|done]. rewrite Z.shiftl_1_l.
  pose proof (Z.pow_pos_nonneg 2 i ltac:(lia) ltac:(lia)).
  by rewrite (proj2 (Z.eqb_neq _ _)) by lia.
Qed.

Lemma bit_is_set_set_bit words slot slot' :
  (slot / BITS < length words)%nat →
  bit_is_set (set_bit words slot) slot' = bool_decide (slot = slot') || bit_is_set words slot'.
Proof.
  intros Hlen. rewrite !bit_is_set_testbit. unfold set_bit.
  apply lookup_lt_is_Some_2 in Hlen as [w Hw].
  assert (BITS ≠ 0)%nat as Hb by done.
  pose proof (Nat.div_mod slot BITS Hb). pose proof (Nat.div_mod slot' BITS Hb).
  destruct (decide (slot / BITS = slot' / BITS)%nat) as [Heq|Hne].
  - rewrite <- Heq, list_lookup_alter_eq, Hw. cbn [fmap option_fmap option_map is_some_and]. rewrite Z.lor_spec, Z.shiftl_1_l.
    rewrite Z.pow2_bits_eqb, orb_comm by lia. f_equal. apply eq_true_iff_eq.
    rewrite Z.eqb_eq, bool_decide_eq_true, Nat2Z.inj_iff. split; [congruence|by intros ->].
  - rewrite list_lookup_alter_ne by done.
    rewrite bool_decide_false; [done|]. by intros ->.
Qed.

Lemma length_set_bit words slot : length (set_bit words slot) = length words.
Proof. apply length_alter. Qed.

Lemma zero_words_clear n slot : bit_is_set (zero_words n) slot = false.
Proof.
  rewrite bit_is_set_testbit. destruct (zero_words n !! _) as [w|] eqn:E; simpl; [|done].
  apply lookup_replicate in E as [-> _]. by rewrite Z.bits_0.
Qed.

Lemma length_zero_words n slot : (slot < n)%nat → (slot / BITS < length (zero_words n))%nat.
Proof.
  intros Hlt. unfold zero_words. rewrite length_replicate. unfold BITS.
  pose proof (Nat.div_mod slot 64 ltac:(done)). pose proof (Nat.div_mod (n + (64 - 1)) 64 ltac:(done)).
  pose proof (Nat.mod_upper_bound (n + (64 - 1)) 64 ltac:(done)). lia.
Qed.

Lemma foldl_set_bit words slots slot :
  Forall (λ s, s / BITS < length words)%nat slots →
  bit_is_set (foldl set_bit words slots) slot
  = bool_decide (slot ∈ slots) || bit_is_set words slot.
Proof.
  revert words. induction slots as [|s slots IH]; intros words Hs; simpl; [done|].
  apply Forall_cons in Hs as [Hs Hss]. rewrite IH, bit_is_set_set_bit; [|done|].
  - apply eq_true_iff_eq. rewrite !orb_true_iff, !bool_decide_eq_true, elem_of_cons. naive_solver.
  - eapply Forall_impl; [done|]. simpl. by rewrite length_set_bit.
Qed.

(** The bit vectors of an authorization profile represent exactly the set
    of slots they were built from: [bit_is_set] answers membership for every
    slot, in range or not. *)
Theorem bit_set_membership n slots slot (Hin : Forall (λ s, s < n)%nat slots) :
  bit_is_set (foldl set_bit (zero_words n) slots) slot = bool_decide (slot ∈ slots).
Proof.
  rewrite foldl_set_bit, zero_words_clear; [by rewrite orb_false_r|].
  eapply Forall_impl; [done|]. apply length_zero_words.
Qed.
Lemma bit_set_membership_witness :
  bit_is_set (foldl set_bit (zero_words 130) [0; 63; 64; 129]%nat) 64%nat
  = bool_decide (64%nat ∈ [0; 63; 64; 129]%nat).
Proof. apply bit_set_membership. repeat constructor. Defined.

(** Two bit vectors intersect exactly when they share a slot. *)
Lemma words_intersect_spec a b :
  Forall word64 a → Forall word64 b →
  words_intersect a b = true ↔ ∃ slot, bit_is_set a slot = true ∧ bit_is_set b slot = true.
Proof.
  intros Ha Hb. unfold words_intersect. rewrite existsb_exists. split.
  - intros ((x & y) & Hin & Hxy). simpl in Hxy. breflect.
    apply list_elem_of_In, list_elem_of_lookup in Hin as [i Hi].
    apply lookup_zip_Some in Hi as [Hi1 Hi2].
    rewrite Forall_lookup in Ha. specialize (Ha _ _ Hi1).
    unfold word64 in Ha. set (k := Z.log2 (Z.land x y)).
    assert (0 ≤ Z.land x y) by (apply Z.land_nonneg; lia).
    assert (Z.testbit (Z.land x y) k = true) as Hk by (apply Z.bit_log2; lia).
    rewrite Z.land_spec in Hk. apply andb_true_iff in Hk as [Hkx Hky].
    pose proof (Z.log2_nonneg (Z.land x y)) as Hk0. fold k in Hk0.
    assert (k < 64) as Hk64.
    { apply Znot_ge_lt. intros Hge. rewrite Z.bits_above_log2 in Hkx; [done|lia|].
      apply Z.lt_le_trans with 64; [|lia]. destruct (decide (x = 0)) as [->|]; [done|].
      apply Z.log2_lt_pow2; lia. }
    exists (i * BITS + Z.to_nat k)%nat. rewrite !bit_is_set_testbit.
    replace ((i * BITS + Z.to_nat k) / BITS)%nat with i
      by (rewrite Nat.div_add_l, Nat.div_small by (unfold BITS; lia); lia).
    replace ((i * BITS + Z.to_nat k) mod BITS)%nat with (Z.to_nat k)
      by (rewrite Nat.add_comm, Nat.Div0.mod_add, Nat.mod_small by (unfold BITS; lia); lia).
    rewrite Hi1, Hi2, Z2Nat.id by lia. done.
  - intros (slot & H1 & H2). rewrite bit_is_set_testbit in H1, H2.
    destruct (a !! _) as [x|] eqn:Ea; [|done]. destruct (b !! _) as [y|] eqn:Eb; [|done].
    exists (x, y). split.
    + apply list_elem_of_In, list_elem_of_lookup. exists (slot / BITS)%nat.
      apply lookup_zip_Some; auto.
    + cbn [is_some_and fst snd] in *. apply negb_true_iff, Z.eqb_neq. intros Hz.
      assert (Z.testbit (Z.land x y) (Z.of_nat (slot mod BITS)) = false) as Hf
        by (rewrite Hz; apply Z.bits_0).
      rewrite Z.land_spec, H1, H2 in Hf. done.
Qed.

(** ** Transports *)

Lemma mask_permits_testbit m t :
  mask_permits m t = Z.testbit m (match t with
    | CapabilityTransport.HttpJson => 0 | CapabilityTransport.HttpSse => 1
    | CapabilityTransport.Websocket => 2 | CapabilityTransport.Multipart => 3 end).
Proof.
  unfold mask_permits. set (i := match t with CapabilityTransport.HttpJson => 0 | _ => _ end).
  assert (0 ≤ i ∧ transport_bit t = 2 ^ i) as [Hi ->] by (by destruct t).
  destruct (Z.testbit m i) eqn:E; simpl; [apply negb_true_iff, Z.eqb_neq|apply negb_false_iff, Z.eqb_eq].
  - intros Hz. assert (Z.testbit (Z.land m (2 ^ i)) i = false) as Hf by (rewrite Hz; apply Z.bits_0).
    rewrite Z.land_spec, E, Z.pow2_bits_true in Hf; done.
  - apply Z.bits_inj'. intros n Hn. rewrite Z.land_spec, Z.pow2_bits_eqb, Z.bits_0 by lia.
    destruct (Z.eqb_spec i n) as [<-|]; by rewrite ?E, ?andb_false_r.
Qed.

Lemma mask_permits_lor a b t : mask_permits (Z.lor a b) t = mask_permits a t || mask_permits b t.
Proof. rewrite !mask_permits_testbit. apply Z.lor_spec. Qed.

Lemma mask_permits_bit t t' : mask_permits (transport_bit t) t' = bool_decide (t = t').
Proof. by destruct t, t'. Qed.

Lemma transports_mask_permits ts t : mask_permits (transports_mask ts) t = bool_decide (t ∈ ts).
Proof.
  unfold transports_mask. rewrite <- (orb_false_l (bool_decide _)).
  change false with (mask_permits 0 t). generalize 0. induction ts as [|t' ts IH]; intros m; simpl.
  - by rewrite orb_false_r.
  - rewrite IH, mask_permits_lor, mask_permits_bit. apply eq_true_iff_eq.
    rewrite !orb_true_iff, !bool_decide_eq_true, elem_of_cons. naive_solver.
Qed.

Section channel_facts.
Context {D Policy Auth : Type} (uuid_display : uuid → string).
Implicit Types c : CompiledChannel D Policy Auth.

(** A restricted channel permits exactly the transports it permitted
    before that are also listed, an empty list leaves none, and the WebSocket
    flag follows the restricted mask; a non-empty [with_transports] replaces
    the permitted set, an empty one keeps it. *)
Theorem transports_restricted c ts t :
  permits_transport (restrict_transports c ts) t
    = permits_transport c t && bool_decide (t ∈ ts) ∧
  (restrict_transports c ts).(supports_websocket)
    = permits_transport (restrict_transports c ts) CapabilityTransport.Websocket ∧
  permits_transport (with_transports c ts) t
    = (if bool_decide (ts = []) then permits_transport c t else bool_decide (t ∈ ts)).
Proof.
  split_and!; [|done|].
  - rewrite <- transports_mask_permits. unfold permits_transport; simpl.
    change (mask_permits (Z.land (transport_mask c) (transports_mask ts)) t
            = mask_permits (transport_mask c) t && mask_permits (transports_mask ts) t).
    rewrite !mask_permits_testbit. apply Z.land_spec.
  - destruct ts as [|t' ts]; [done|]. rewrite <- transports_mask_permits. done.
Qed.

(** *** Connectivity fingerprints *)

(** UUIDs are 128-bit values. *)
Definition uuid_ok (u : uuid) : Prop := (u < 2 ^ 128)%N.
Definition identity_ok (i : CapabilityIdentity) : Prop :=
  uuid_ok i.(ci_logical_channel_id) ∧ uuid_ok i.(ci_access_id) ∧
  uuid_ok i.(ci_binding_revision) ∧ uuid_ok i.(ci_access_revision) ∧
  uuid_ok i.(ci_capability_revision) ∧ uuid_ok (default NIL i.(ci_credential_id)) ∧
  uuid_ok (default NIL i.(ci_credential_revision)).

(** Two strings with tails of the same length. *)
Lemma append_inj a b x y :
  String.length x = String.length y → a +:+ x = b +:+ y → a = b ∧ x = y.
Proof.
  rewrite <- !length_bytes_of. intros Hlen Heq%(f_equal bytes_of). rewrite !bytes_of_app in Heq.
  apply app_inj_2 in Heq as [H1 H2]; [|done]. auto using bytes_of_inj.
Qed.

Lemma append_inj_head x y a b : String.length x = String.length y → x +:+ a = y +:+ b → x = y ∧ a = b.
Proof.
  rewrite <- !length_bytes_of. intros Hlen Heq%(f_equal bytes_of). rewrite !bytes_of_app in Heq.
  apply app_inj_1 in Heq as [H1 H2]; [|done]. auto using bytes_of_inj.
Qed.

Lemma append_assoc (a b c : string) : (a +:+ b) +:+ c = a +:+ (b +:+ c).
Proof. apply bytes_of_inj. rewrite !bytes_of_app. symmetry. apply app_assoc. Qed.
Lemma length_append (a b : string) : String.length (a +:+ b) = (String.length a + String.length b)%nat.
Proof. rewrite <- !length_bytes_of, bytes_of_app. apply length_app. Qed.

(** No operation name is a proper ending of ["/" +:+] another one. *)
Lemma operation_names_unambiguous o o' (a b : string) :
  a +:+ "/" +:+ ApiOperation.as_str o = b +:+ "/" +:+ ApiOperation.as_str o' → o = o' ∧ a = b.
Proof.
  intros Heq%(f_equal (λ s, rev (bytes_of s))). rewrite !bytes_of_app, !rev_app_distr in Heq.
  destruct o, o'; cbv [ApiOperation.as_str] in Heq; simpl in Heq; simplify_list_eq;
    apply (f_equal (@rev _)) in Heq; rewrite !rev_involutive in Heq; auto using bytes_of_inj.
Qed.

(** What the text form of a UUID provides: 36 characters, distinct for
    distinct 128-bit values. *)
Definition uuid_display_ok : Prop :=
  (∀ u, String.length (uuid_display u) = 36%nat) ∧
  (∀ u v, uuid_ok u → uuid_ok v → uuid_display u = uuid_display v → u = v).

Definition fingerprint_tail (i : CapabilityIdentity) : string :=
  "#" +:+ uuid_display i.(ci_binding_revision)
  +:+ "/" +:+ uuid_display i.(ci_access_revision)
  +:+ "#" +:+ uuid_display i.(ci_access_id)
  +:+ "/" +:+ uuid_display i.(ci_capability_revision)
  +:+ "#" +:+ uuid_display (default NIL i.(ci_credential_id))
  +:+ "/" +:+ uuid_display (default NIL i.(ci_credential_revision)).

Lemma identity_fingerprint_split url i :
  identity_fingerprint uuid_display url i
  = ((url +:+ "#" +:+ uuid_display i.(ci_logical_channel_id))
     +:+ "/" +:+ ApiOperation.as_str i.(ci_api_operation)) +:+ fingerprint_tail i.
Proof. unfold identity_fingerprint, fingerprint_tail. by rewrite !append_assoc. Qed.

Lemma fingerprint_tail_inj i i' :
  uuid_display_ok → identity_ok i → identity_ok i' → fingerprint_tail i = fingerprint_tail i' →
  i.(ci_binding_revision) = i'.(ci_binding_revision) ∧
  i.(ci_access_revision) = i'.(ci_access_revision) ∧ i.(ci_access_id) = i'.(ci_access_id) ∧
  i.(ci_capability_revision) = i'.(ci_capability_revision) ∧
  default NIL i.(ci_credential_id) = default NIL i'.(ci_credential_id) ∧
  default NIL i.(ci_credential_revision) = default NIL i'.(ci_credential_revision).
Proof.
  intros [Hlen Hinj] (?&?&?&?&?&?&?) (?&?&?&?&?&?&?) Heq. unfold fingerprint_tail in Heq.
  repeat match goal with
  | Heq : (String _ "") +:+ _ = (String _ "") +:+ _ |- _ =>
      apply append_inj_head in Heq as [_ Heq]; [|done]
  | Heq : uuid_display _ +:+ _ = uuid_display _ +:+ _ |- _ =>
      let Hu := fresh "Hu" in
      apply append_inj_head in Heq as [Hu Heq]; [|by rewrite !Hlen];
      apply Hinj in Hu; [|done..]
  end.
  apply Hinj in Heq; [|done..]. by split_and!.
Qed.

(** The connectivity fingerprint of a bound channel determines its base
    URL and its whole identity: channel, operation, access, every revision and
    the bound credential.  Two channels that differ in any of them never share
    pooled upstream connections. *)
Theorem fingerprint_injective c c' i i'
    (Hdisplay : uuid_display_ok) (Hi : identity_ok i) (Hi' : identity_ok i')
    (Hb : identity_is_bound i = true) (Hb' : identity_is_bound i' = true)
    (Heq : (with_channel_identity uuid_display c i).(connectivity_fingerprint)
           = (with_channel_identity uuid_display c' i').(connectivity_fingerprint)) :
  c.(base_url) = c'.(base_url) ∧
  i.(ci_logical_channel_id) = i'.(ci_logical_channel_id) ∧
  i.(ci_api_operation) = i'.(ci_api_operation) ∧
  i.(ci_binding_revision) = i'.(ci_binding_revision) ∧
  i.(ci_access_revision) = i'.(ci_access_revision) ∧ i.(ci_access_id) = i'.(ci_access_id) ∧
  i.(ci_capability_revision) = i'.(ci_capability_revision) ∧
  default NIL i.(ci_credential_id) = default NIL i'.(ci_credential_id) ∧
  default NIL i.(ci_credential_revision) = default NIL i'.(ci_credential_revision).
Proof.
  simpl in Heq. rewrite Hb, Hb', !identity_fingerprint_split in Heq.
  pose proof Hdisplay as [Hlen Hinj].
  apply append_inj in Heq as [Heq Ht];
    [|unfold fingerprint_tail; rewrite !length_append, !Hlen; done].
  apply operation_names_unambiguous in Heq as [Hop Heq].
  apply append_inj in Heq as [Hurl Hl]; [|rewrite !length_append, !Hlen; done].
  apply append_inj_head in Hl as [_ Hl]; [|done]. apply Hinj in Hl; [|apply Hi|apply Hi'].
  apply (fingerprint_tail_inj i i') in Ht as (?&?&?&?&?&?); [|done..]. by split_and!.
Qed.
End channel_facts.

(** ** The route index *)

Section index_facts.
Context {D V T Policy Auth : Type}.
Implicit Types (r : CompiledModelRule D V T Policy Auth).

Lemma routes_get_insert key r m operation model :
  routes_get (routes_insert key r m) operation model
  = if decide (key = (operation, model)) then Some r else routes_get m operation model.
Proof.
  destruct key as [o s]. unfold routes_get, routes_insert; simpl.
  destruct (decide (o = operation)) as [->|Hne].
  - rewrite lookup_insert_eq; simpl. destruct (decide (s = model)) as [->|Hne].
    + by rewrite lookup_insert_eq, decide_True.
    + rewrite lookup_insert_ne, decide_False by congruence.
      by destruct (m !! operation); simpl; rewrite ?lookup_empty.
  - by rewrite lookup_insert_ne, decide_False by congruence.
Qed.

(** The two-level route index answers every lookup as the flat map it was
    built from. *)
Lemma routes_get_from_flat (routes : gmap (ApiOperation.t * string) (CompiledModelRule D V T Policy Auth))
    operation model :
  routes_get (routes_from_flat routes) operation model = routes !! (operation, model).
Proof.
  unfold routes_from_flat.
  apply (map_fold_weak_ind (λ res rs, routes_get res operation model = rs !! (operation, model))).
  - unfold routes_get. by rewrite !lookup_empty.
  - intros key r rs res Hnone IH. rewrite routes_get_insert. case_decide as Hk.
    + subst. by rewrite lookup_insert_eq.
    + by rewrite lookup_insert_ne.
Qed.
End index_facts.

Module CompiledExample.
(** Hyphenated lower-case hexadecimal, as RFC 4122 prints a UUID. *)
Definition hex_digit (n : N) : Ascii.ascii :=
  Ascii.ascii_of_N (if N.ltb n 10 then 48 + n else 87 + n)%N.
Fixpoint hex (digits : nat) (u : N) : string :=
  match digits with
  | O => ""
  | S d => hex d (u / 16)%N +:+ String (hex_digit (u mod 16)) ""
  end.
Definition display (u : N) : string :=
  hex 8 (u / 2 ^ 96)%N +:+ "-" +:+ hex 4 (u / 2 ^ 80)%N +:+ "-" +:+ hex 4 (u / 2 ^ 64)%N
  +:+ "-" +:+ hex 4 (u / 2 ^ 48)%N +:+ "-" +:+ hex 12 u.

Lemma length_hex d u : String.length (hex d u) = d.
Proof. revert u; induction d; intros; simpl; [done|]. rewrite length_append, IHd; simpl; lia. Qed.

Lemma hex_digit_inj a b : (a < 16)%N → (b < 16)%N → hex_digit a = hex_digit b → a = b.
Proof.
  intros Ha Hb Heq%(f_equal Ascii.N_of_ascii). unfold hex_digit in Heq.
  rewrite !Ascii.N_ascii_embedding in Heq by (repeat case_match; lia).
  destruct (N.ltb_spec a 10), (N.ltb_spec b 10); lia.
Qed.

Lemma hex_inj d u v : hex d u = hex d v → (u mod 16 ^ N.of_nat d = v mod 16 ^ N.of_nat d)%N.
Proof.
  revert u v. induction d as [|d IH]; intros u v; [by rewrite !N.mod_1_r|].
  intros Heq. apply append_inj in Heq as [Hd Hh]; [|done]. apply IH in Hd. simplify_eq.
  match goal with Hx : hex_digit _ = hex_digit _ |- _ =>
    apply hex_digit_inj in Hx; [|by apply N.mod_lt..]; rename Hx into Hm end.
  rewrite Nat2N.inj_succ, N.pow_succ_r', !N.Div0.mod_mul_r. congruence.
Qed.

Lemma mod_join (u v a b : N) :
  (u mod a = v mod a → (u / a) mod b = (v / a) mod b → u mod (a * b) = v mod (a * b))%N.
Proof. intros Ha Hb. by rewrite !N.Div0.mod_mul_r, Ha, Hb. Qed.

Lemma display_ok : uuid_display_ok display.
Proof.
  split.
  - intros u. unfold display. rewrite !length_append, !length_hex. done.
  - intros u v Hu Hv Heq. unfold display in Heq.
    repeat match goal with
    | Heq : hex _ _ +:+ _ = hex _ _ +:+ _ |- _ =>
        let Hx := fresh "Hx" in
        apply append_inj_head in Heq as [Hx Heq]; [|by rewrite !length_hex]; apply hex_inj in Hx
    | Heq : (String _ "") +:+ _ = (String _ "") +:+ _ |- _ =>
        apply append_inj_head in Heq as [_ Heq]; [|done]
    end.
    apply hex_inj in Heq.
    do 4 (eapply mod_join in Heq; [|eassumption]).
    by rewrite !N.mod_small in Heq by done.
Qed.
End CompiledExample.

Module ChannelExample.
Definition c : CompiledChannel Z unit unit :=
  new_channel 11%N 12%N ApiFormat.OpenAiResponses ConnectorKind.OpenAiCompatible
    RequestCompression.Default "https://api.example/v1" 1 tt {[ "gpt" ]} true false true false
    None tt.
Definition identity (credential : option N) : CapabilityIdentity :=
  {| ci_logical_channel_id := 21%N; ci_access_id := 22%N;
     ci_api_operation := ApiOperation.Responses; ci_credential_id := credential;
     ci_credential_revision := None; ci_binding_revision := 23%N; ci_access_revision := 24%N;
     ci_capability_revision := 25%N |}.
End ChannelExample.

(** The fingerprint does not separate an absent credential from the nil one,
    which no stored credential uses. *)
Lemma fingerprint_injective_witness :
  let i := ChannelExample.identity None in
  let i' := ChannelExample.identity (Some NIL) in
  ChannelExample.c.(base_url) = ChannelExample.c.(base_url) ∧
  i.(ci_logical_channel_id) = i'.(ci_logical_channel_id) ∧
  i.(ci_api_operation) = i'.(ci_api_operation) ∧
  i.(ci_binding_revision) = i'.(ci_binding_revision) ∧
  i.(ci_access_revision) = i'.(ci_access_revision) ∧ i.(ci_access_id) = i'.(ci_access_id) ∧
  i.(ci_capability_revision) = i'.(ci_capability_revision) ∧
  default NIL i.(ci_credential_id) = default NIL i'.(ci_credential_id) ∧
  default NIL i.(ci_credential_revision) = default NIL i'.(ci_credential_revision).
Proof.
  apply (fingerprint_injective CompiledExample.display ChannelExample.c ChannelExample.c);
    [apply CompiledExample.display_ok|by split_and!..|reflexivity|reflexivity|vm_compute; reflexivity].
Defined.
