(* ===== verification/Admission.v ===== *)
(** * Request admission

    Models [src/admission/mod.rs]: the process-local admission state (fixed
    one-minute request windows and in-flight counts per API key, settled quota
    totals), [admit], the release of a lease on drop,
    [record_settled_quota_usage] and [pressure_snapshot].

    Every operation runs under one mutex, so an execution of the component is a
    sequence of atomic steps: the relation [step] over worlds that hold the
    clock, the state and the outstanding leases.  An [expect] that fails and a
    [Duration] overflow are the outcome [Panicked] (or [None] for a drop). *)

From S2P Require Import Prelude Decimal Domain Billing Compiled.

Definition WINDOW : Z := from_secs 60.

Record KeyState := {
  window_started_at : option Z;
  requests_in_window : Z;
  in_flight : Z;
}.
Definition KeyState_default : KeyState :=
  {| window_started_at := None; requests_in_window := 0; in_flight := 0 |}.

Inductive AdmissionError :=
| RateLimited (retry_after : Z)
| ConcurrentLimited
| InsufficientQuota.

Record AdmissionLease := { lease_key_id : uuid; released : bool }.

Inductive AdmitOutcome :=
| Granted (lease : AdmissionLease)
| Denied (e : AdmissionError)
| Panicked.

Definition retry_after (now reset_at : Z) : Z :=
  let remaining := sat_sub reset_at now in
  as_secs remaining + (if negb (subsec_nanos remaining =? 0) then 1 else 0).

Record AdmissionPressureSnapshot := {
  tracked_api_keys : Z;
  requests_in_current_windows : Z;
  in_flight_requests : Z;
}.

Section admission.
Context {D T : Type} `{DecimalOps D} `{UtcOps T}.

Record AdmissionState := {
  keys : gmap N KeyState;
  settled_quota_used : gmap N D;
}.
Definition AdmissionState_default : AdmissionState :=
  {| keys := ∅; settled_quota_used := ∅ |}.

(** The predicate of [all.keys.retain]. *)
Definition retained (now : Z) (s : KeyState) : bool :=
  (0 <? s.(in_flight))
  || is_some_and s.(window_started_at) (λ started, sat_sub now started <=? WINDOW).

Definition retain (now : Z) (m : gmap N KeyState) : gmap N KeyState :=
  filter (λ p, retained now p.2 = true) m.

(** [window_started_at = Some(now); requests_in_window = 0] when the window of
    the entry is missing or over. *)
Definition refresh_window (now : Z) (s : KeyState) : KeyState :=
  if is_none_or s.(window_started_at) (λ started, WINDOW <=? sat_sub now started)
  then {| window_started_at := Some now; requests_in_window := 0; in_flight := s.(in_flight) |}
  else s.

Definition effective_quota_used (st : AdmissionState) (k : CompiledApiKey D T) : D :=
  match st.(settled_quota_used) !! k.(key_id) with
  | None => k.(quota_used_amount)
  | Some used => dec_max used k.(quota_used_amount)
  end.

(** The decision on one refreshed entry: the new entry and the outcome. *)
Definition decide_entry (now : Z) (k : CompiledApiKey D T) (s : KeyState) : KeyState * AdmitOutcome :=
  let rate_limited :=
    is_some_and k.(requests_per_minute) (λ limit, limit <=? s.(requests_in_window)) in
  if rate_limited then
    match s.(window_started_at) with
    | None => (s, Panicked)
    | Some started =>
        match duration_add started WINDOW with
        | None => (s, Panicked)
        | Some reset_at => (s, Denied (RateLimited (retry_after now reset_at)))
        end
    end
  else
    let counted := {| window_started_at := s.(window_started_at);
                      requests_in_window := sat_add u32_max s.(requests_in_window) 1;
                      in_flight := s.(in_flight) |} in
    if is_some_and k.(max_concurrent_requests) (λ limit, limit <=? counted.(in_flight)) then
      (counted, Denied ConcurrentLimited)
    else
      ({| window_started_at := counted.(window_started_at);
          requests_in_window := counted.(requests_in_window);
          in_flight := sat_add u32_max counted.(in_flight) 1 |},
       Granted {| lease_key_id := k.(key_id); released := false |}).

Definition runtime_admit (now : Z) (k : CompiledApiKey D T) (st : AdmissionState)
  : AdmissionState * AdmitOutcome :=
  let kept := retain now st.(keys) in
  if quota_exhausted_at k (effective_quota_used st k) then
    ({| keys := kept; settled_quota_used := st.(settled_quota_used) |}, Denied InsufficientQuota)
  else
    let entry := refresh_window now (default KeyState_default (kept !! k.(key_id))) in
    let '(entry', outcome) := decide_entry now k entry in
    ({| keys := <[k.(key_id) := entry']> kept; settled_quota_used := st.(settled_quota_used) |},
     outcome).

Definition record_settled_quota_usage (id : uuid) (amount : D) (st : AdmissionState)
  : AdmissionState :=
  {| keys := st.(keys);
     settled_quota_used :=
       <[id := match st.(settled_quota_used) !! id with
               | Some current => dec_max current amount
               | None => amount
               end]> st.(settled_quota_used) |}.

(** [Drop for AdmissionLease]; [None] is the panic of
    [expect("lease state exists")]. *)
Definition drop_lease (now : Z) (lease : AdmissionLease) (st : AdmissionState)
  : option AdmissionState :=
  if lease.(released) then Some st
  else
    match st.(keys) !! lease.(lease_key_id) with
    | None => None
    | Some s =>
        let s' := {| window_started_at := s.(window_started_at);
                     requests_in_window := s.(requests_in_window);
                     in_flight := sat_sub s.(in_flight) 1 |} in
        let remove := (s'.(in_flight) =? 0)
          && is_some_and s'.(window_started_at) (λ started, WINDOW <? sat_sub now started) in
        Some {| keys := if remove then delete lease.(lease_key_id) st.(keys)
                        else <[lease.(lease_key_id) := s']> st.(keys);
                settled_quota_used := st.(settled_quota_used) |}
    end.

Definition pressure_snapshot (st : AdmissionState) : AdmissionPressureSnapshot :=
  {| tracked_api_keys := Z.min u64_max (Z.of_nat (size st.(keys)));
     requests_in_current_windows :=
       map_fold (λ _ s total, sat_add u64_max total s.(requests_in_window)) 0 st.(keys);
     in_flight_requests :=
       map_fold (λ _ s total, sat_add u64_max total s.(in_flight)) 0 st.(keys) |}.

(** ** Executions *)

Record World := {
  clock : Z;
  state : AdmissionState;
  leases : list uuid;      (** keys of the outstanding leases *)
}.
Definition initial_world (now : Z) : World :=
  {| clock := now; state := AdmissionState_default; leases := [] |}.

(** What one atomic step did. *)
Inductive Event :=
| Tick (dt : Z)
| Attempt (at_time : Z) (k : CompiledApiKey D T) (o : AdmitOutcome)
| Dropped (id : uuid)
| Settled (id : uuid) (amount : D).

Definition outcome_leases (o : AdmitOutcome) (ls : list uuid) : list uuid :=
  match o with Granted l => l.(lease_key_id) :: ls | _ => ls end.

Inductive step : World → Event → World → Prop :=
| step_tick w dt :
    0 ≤ dt →
    step w (Tick dt) {| clock := w.(clock) + dt; state := w.(state); leases := w.(leases) |}
| step_attempt w k st' o :
    runtime_admit w.(clock) k w.(state) = (st', o) → o ≠ Panicked →
    step w (Attempt w.(clock) k o)
      {| clock := w.(clock); state := st'; leases := outcome_leases o w.(leases) |}
| step_dropped w l1 id l2 st' :
    w.(leases) = l1 ++ id :: l2 →
    drop_lease w.(clock) {| lease_key_id := id; released := false |} w.(state) = Some st' →
    step w (Dropped id) {| clock := w.(clock); state := st'; leases := l1 ++ l2 |}
| step_settled w id amount :
    step w (Settled id amount)
      {| clock := w.(clock);
         state := record_settled_quota_usage id amount w.(state);
         leases := w.(leases) |}.

(** Executions from the empty state, newest event first, with fewer than [2^32]
    simultaneous leases: the range in which the [u32] counter does not
    saturate. *)
Inductive exec : list Event → World → Prop :=
| exec_init now : 0 ≤ now → exec [] (initial_world now)
| exec_step evs w ev w' :
    exec evs w → step w ev w' → Z.of_nat (length w'.(leases)) ≤ u32_max → exec (ev :: evs) w'.
End admission.
Arguments AdmissionState D : clear implicits.
Arguments World D : clear implicits.
Arguments Event D T : clear implicits.

(** ** Lookups after each operation *)

Section facts.
Context {D T : Type} `{DecimalOps D} `{UtcOps T}.
Implicit Types (m : gmap N KeyState) (st : AdmissionState D) (k : CompiledApiKey D T).

Lemma retain_lookup now m id s :
  retain now m !! id = Some s ↔ m !! id = Some s ∧ retained now s = true.
Proof. unfold retain. rewrite map_lookup_filter_Some. done. Qed.

Lemma retain_lookup_None now m id :
  retain now m !! id = None ↔ ∀ s, m !! id = Some s → retained now s = false.
Proof.
  unfold retain. rewrite map_lookup_filter_None. split.
  - intros [Hn|Hf] s Hs; [congruence|]. apply not_true_is_false. by apply (Hf s).
  - intros Hf. destruct (m !! id) as [s|] eqn:E; [|by left]. right. intros s' Hs'; simpl.
    rewrite (Hf s') by congruence. done.
Qed.

(** The entry [admit] works on. *)
Definition admit_entry now k st : KeyState :=
  refresh_window now (default KeyState_default (retain now st.(keys) !! k.(key_id))).

Lemma admit_quota now k st :
  quota_exhausted_at k (effective_quota_used st k) = true →
  runtime_admit now k st =
    ({| keys := retain now st.(keys); settled_quota_used := st.(settled_quota_used) |},
     Denied InsufficientQuota).
Proof. unfold runtime_admit. by intros ->. Qed.

Lemma admit_entry_eq now k st :
  quota_exhausted_at k (effective_quota_used st k) = false →
  runtime_admit now k st =
    ({| keys := <[k.(key_id) := (decide_entry now k (admit_entry now k st)).1]>
                  (retain now st.(keys));
        settled_quota_used := st.(settled_quota_used) |},
     (decide_entry now k (admit_entry now k st)).2).
Proof. unfold runtime_admit, admit_entry. intros ->. by destruct (decide_entry _ _ _). Qed.

(** *** The invariant *)

(** [s] counts [n] leases and its window lies in the past of [now]. *)
Definition entry_ok (now n : Z) (s : KeyState) : Prop :=
  0 ≤ s.(requests_in_window) ≤ u32_max ∧ s.(in_flight) = n ∧
  ∃ started, s.(window_started_at) = Some started ∧ 0 ≤ started ≤ now.

Definition leases_ok (now : Z) m (ls : list N) : Prop :=
  ∀ id, match m !! id with
        | Some s => entry_ok now (occurrences id ls) s
        | None => occurrences id ls = 0
        end.

Definition inv (w : World D) : Prop :=
  0 ≤ w.(clock) ∧ leases_ok w.(clock) w.(state).(keys) w.(leases).

Lemma leases_ok_tick now dt m ls :
  0 ≤ dt → leases_ok now m ls → leases_ok (now + dt) m ls.
Proof.
  intros Hdt Hok id. specialize (Hok id). destruct (m !! id) as [s|]; [|done].
  destruct Hok as (?&?&w&?&?). split_and!; [lia..|]. exists w. split; [done|lia].
Qed.

Lemma leases_ok_retain now m ls : leases_ok now m ls → leases_ok now (retain now m) ls.
Proof.
  intros Hok id. specialize (Hok id). destruct (retain now m !! id) as [s|] eqn:E.
  - apply retain_lookup in E as [E _]. by rewrite E in Hok.
  - rewrite retain_lookup_None in E. destruct (m !! id) as [s|]; [|done].
    specialize (E s eq_refl). destruct Hok as (_ & Hf & _). unfold retained in E. breflect.
    pose proof (occurrences_nonneg id ls). lia.
Qed.

Lemma leases_ok_insert now m ls id s n :
  leases_ok now m ls → entry_ok now (n + occurrences id ls) s → (n = 0 ∨ n = 1) →
  leases_ok now (<[id := s]> m) (if n =? 1 then id :: ls else ls).
Proof.
  intros Hok Hs Hn id'. specialize (Hok id').
  assert (∀ i, occurrences i (if n =? 1 then id :: ls else ls)
               = (if decide (id = i) then n else 0) + occurrences i ls) as Hocc.
  { intros i. unfold occurrences. destruct (Z.eqb_spec n 1) as [->|]; simpl; [done|].
    destruct Hn; [subst|lia]. case_decide; lia. }
  destruct (decide (id = id')) as [->|Hne].
  - rewrite lookup_insert_eq, Hocc, decide_True by done. done.
  - rewrite lookup_insert_ne, Hocc, decide_False by done. by rewrite Z.add_0_l.
Qed.

Lemma refresh_window_ok now s n :
  0 ≤ now → s.(in_flight) = n → 0 ≤ s.(requests_in_window) ≤ u32_max →
  (∀ started, s.(window_started_at) = Some started → 0 ≤ started ≤ now) →
  entry_ok now n (refresh_window now s).
Proof.
  intros Hnow Hn Hr Hw. unfold refresh_window. case_match eqn:E.
  - split_and!; simpl; [unfold_ints; lia..|done|]. exists now. split; [done|lia].
  - split_and!; [lia..|]. destruct (window_started_at s) as [started|]; [|done].
    exists started. auto.
Qed.

Lemma admit_entry_ok now k st ls :
  0 ≤ now → leases_ok now st.(keys) ls →
  entry_ok now (occurrences k.(key_id) ls) (admit_entry now k st).
Proof.
  intros Hnow Hok. apply leases_ok_retain in Hok. specialize (Hok k.(key_id)).
  unfold admit_entry. destruct (retain now (keys st) !! key_id k) as [s|]; simpl.
  - destruct Hok as (?&?&w&?&?). apply refresh_window_ok; [done..|]. intros; simplify_eq. lia.
  - apply refresh_window_ok; [done|simpl; lia|simpl; unfold_ints; lia|done].
Qed.

Lemma decide_entry_ok now k s n s' o :
  entry_ok now n s → 0 ≤ n → (∀ l, o = Granted l → n < u32_max) →
  decide_entry now k s = (s', o) →
  entry_ok now (match o with Granted _ => 1 + n | _ => n end) s' ∧
  (∀ l, o = Granted l → l = {| lease_key_id := k.(key_id); released := false |}).
Proof.
  intros Hs Hn Hlt Hd. pose proof Hs as (Hr & Hf & w & Hw & Hwn). unfold decide_entry in Hd.
  rewrite Hw in Hd. repeat case_match; simplify_eq/=; (split; [|naive_solver]); try done.
  - split_and!; simpl; [unfold_ints; lia..|exists w; auto].
  - specialize (Hlt _ eq_refl). split_and!; simpl; [unfold_ints; lia..|exists w; auto].
Qed.

Lemma admit_leases_ok now k st ls st' o :
  0 ≤ now → leases_ok now st.(keys) ls →
  (∀ l, o = Granted l → occurrences k.(key_id) ls < u32_max) →
  runtime_admit now k st = (st', o) →
  leases_ok now st'.(keys) (match o with Granted l => l.(lease_key_id) :: ls | _ => ls end).
Proof.
  intros Hc Hok Hlt Hadm.
  destruct (quota_exhausted_at k (effective_quota_used st k)) eqn:Hq.
  { rewrite admit_quota in Hadm by done. simplify_eq/=. by apply leases_ok_retain. }
  rewrite admit_entry_eq in Hadm by done. pose proof (admit_entry_ok _ k _ _ Hc Hok) as He.
  destruct (decide_entry _ _ _) as [s' o'] eqn:Hd. simplify_eq/=.
  pose proof (occurrences_nonneg k.(key_id) ls).
  eapply decide_entry_ok in Hd as [He' Hl]; [|done..].
  apply leases_ok_retain in Hok. destruct o as [l|e|]; [rewrite (Hl l eq_refl)| |].
  - by apply (leases_ok_insert _ _ _ _ _ 1); [..|right].
  - by apply (leases_ok_insert _ _ _ _ _ 0); [..|left].
  - by apply (leases_ok_insert _ _ _ _ _ 0); [..|left].
Qed.

Lemma occurrences_remove (i id : N) l1 l2 :
  occurrences i (l1 ++ id :: l2)
  = (if decide (id = i) then 1 else 0) + occurrences i (l1 ++ l2).
Proof. unfold occurrences. rewrite !sum_over_app. simpl. lia. Qed.

Lemma drop_leases_ok now st l1 id l2 st' :
  leases_ok now st.(keys) (l1 ++ id :: l2) →
  drop_lease now {| lease_key_id := id; released := false |} st = Some st' →
  leases_ok now st'.(keys) (l1 ++ l2).
Proof.
  intros Hok Hdrop. unfold drop_lease in Hdrop; simpl in Hdrop.
  destruct (keys st !! id) as [s|] eqn:Es; [|done]. simplify_eq.
  intros id'. specialize (Hok id') as Hid'. rewrite occurrences_remove in Hid'. simpl.
  destruct (decide (id = id')) as [<-|Hne].
  - rewrite Es in Hid'. destruct Hid' as (Hr & Hf & w0 & Hw & Hwn).
    pose proof (occurrences_nonneg id (l1 ++ l2)).
    match goal with |- context [if ?b then delete _ _ else _] => destruct b eqn:Hrm end.
    + rewrite lookup_delete_eq. breflect. unfold_ints. lia.
    + rewrite lookup_insert_eq. split_and!; simpl; [unfold_ints; lia..|exists w0; auto].
  - rewrite Z.add_0_l in Hid'.
    match goal with |- context [if ?b then delete _ _ else _] => destruct b end;
      [rewrite lookup_delete_ne by done|rewrite lookup_insert_ne by done]; done.
Qed.

Lemma step_inv w ev w' :
  inv w → step (T := T) w ev w' → Z.of_nat (length w'.(leases)) ≤ u32_max → inv w'.
Proof.
  intros [Hc Hok] Hstep Hlen. destruct Hstep as
    [w dt Hdt|w k st' o Hadm|w l1 id l2 st' Hl Hdrop|w id amount]; simpl in *;
    split; simpl; try done.
  - lia.
  - by apply leases_ok_tick.
  - eapply admit_leases_ok in Hadm; [done..|]. intros l ->. simpl in Hlen.
    pose proof (occurrences_le_length (key_id k) (leases w)). lia.
  - rewrite Hl in Hok. by eapply drop_leases_ok.
Qed.

Lemma exec_inv evs w : exec (T := T) evs w → inv w.
Proof.
  induction 1 as [now Hnow|evs w ev w' _ IH Hstep Hlen]; [|by eapply step_inv].
  split; simpl; [done|]. intros id. by rewrite lookup_empty.
Qed.
End facts.

(** ** Leases and limits *)

Section theorems.
Context {D T : Type} `{DecimalOps D} `{UtcOps T}.
Implicit Types (m : gmap N KeyState) (st : AdmissionState D) (k : CompiledApiKey D T).

(** In every execution the in-flight counter of each API key equals the
    number of its outstanding leases, and releasing any outstanding lease
    finds its entry (the [expect] of the drop handler cannot fail). *)
Theorem lease_accounting (evs : list (Event D T)) w (Hexec : exec evs w) :
  (∀ id, occurrences id w.(leases) = default 0 (in_flight <$> w.(state).(keys) !! id)) ∧
  (∀ id, id ∈ w.(leases) → ∃ st',
     drop_lease w.(clock) {| lease_key_id := id; released := false |} w.(state) = Some st').
Proof.
  apply exec_inv in Hexec as [_ Hok]. split.
  - intros id. specialize (Hok id). destruct (keys _ !! id); simpl; [|done].
    symmetry. apply Hok.
  - intros id Hid%occurrences_pos. specialize (Hok id). unfold drop_lease; simpl.
    destruct (keys _ !! id); [eauto|lia].
Qed.

Lemma decide_entry_admitted now k s s' l :
  decide_entry now k s = (s', Granted l) →
  is_some_and k.(max_concurrent_requests) (λ limit, limit <=? s.(in_flight)) = false ∧
  is_some_and k.(requests_per_minute) (λ limit, limit <=? s.(requests_in_window)) = false.
Proof. unfold decide_entry. intros Hd. repeat case_match; simplify_eq/=; auto. Qed.

(** A request is admitted only while its key holds fewer leases than its
    concurrency limit (whatever policy earlier requests were admitted under),
    so the number of leases never exceeds the limit; and a request denied as
    [ConcurrentLimited] found the limit already reached. *)
Theorem concurrency_limit (evs : list (Event D T)) w k limit st' o
    (Hexec : exec evs w) (Hlimit : k.(max_concurrent_requests) = Some limit)
    (Hadmit : runtime_admit w.(clock) k w.(state) = (st', o)) :
  (∀ l, o = Granted l → occurrences k.(key_id) (outcome_leases o w.(leases)) ≤ limit) ∧
  (o = Denied ConcurrentLimited → limit ≤ occurrences k.(key_id) w.(leases)).
Proof.
  apply exec_inv in Hexec as [Hc Hok].
  destruct (quota_exhausted_at k (effective_quota_used (state w) k)) eqn:Hq.
  { rewrite admit_quota in Hadmit by done. simplify_eq. naive_solver. }
  rewrite admit_entry_eq in Hadmit by done.
  pose proof (admit_entry_ok _ k _ _ Hc Hok) as (_ & Hf & _).
  destruct (decide_entry _ _ _) as [s' o'] eqn:Hd. simplify_eq/=. split.
  - intros l ->. pose proof Hd as Hd'. apply decide_entry_admitted in Hd as [Hmax _].
    assert (l = {| lease_key_id := k.(key_id); released := false |}) as ->.
    { unfold decide_entry in Hd'. repeat case_match; by simplify_eq/=. }
    rewrite Hlimit in Hmax; simpl in Hmax. breflect. unfold occurrences at 1; simpl.
    rewrite decide_True by done. unfold occurrences in Hf. lia.
  - intros ->. unfold decide_entry in Hd. rewrite Hlimit in Hd.
    repeat case_match; simplify_eq/=. breflect. lia.
Qed.

(** [admit] never panics as long as the clock stays one window below the
    largest [Duration]: the window of the entry is always initialised when the
    rate limit reads it. *)
Theorem admit_never_panics (evs : list (Event D T)) w k
    (Hexec : exec evs w) (Hclock : w.(clock) + WINDOW ≤ duration_max) :
  (runtime_admit w.(clock) k w.(state)).2 ≠ Panicked.
Proof.
  apply exec_inv in Hexec as [Hc Hok].
  destruct (quota_exhausted_at k (effective_quota_used (state w) k)) eqn:Hq;
    [by rewrite admit_quota|]. rewrite admit_entry_eq by done; simpl.
  pose proof (admit_entry_ok _ k _ _ Hc Hok) as (_ & _ & started & Hs & Hle).
  unfold decide_entry. rewrite Hs. unfold duration_add.
  rewrite (proj2 (Z.leb_le _ _)) by lia. repeat case_match; done.
Qed.

(** *** Retry hints *)

Lemma retry_after_ceiling now reset_at :
  now < reset_at →
  1 ≤ retry_after now reset_at ∧
  reset_at ≤ now + from_secs (retry_after now reset_at) ∧
  now + from_secs (retry_after now reset_at - 1) < reset_at.
Proof.
  intros Hlt. unfold retry_after, as_secs, subsec_nanos, from_secs, sat_sub, nanos_per_sec.
  rewrite Z.max_r by lia. destruct (Z.eqb_spec ((reset_at - now) mod 1000000000) 0); simpl;
    Z.to_euclidean_division_equations; lia.
Qed.

Lemma refresh_window_fresh now s :
  is_none_or s.(window_started_at) (λ started, WINDOW <=? sat_sub now started) = true →
  (refresh_window now s).(requests_in_window) = 0.
Proof. unfold refresh_window. by intros ->. Qed.

Lemma decide_entry_not_limited now k s limit r :
  k.(requests_per_minute) = Some limit → s.(requests_in_window) < limit →
  (decide_entry now k s).2 ≠ Denied (RateLimited r).
Proof.
  intros Hl Hlt. unfold decide_entry. rewrite Hl; simpl.
  rewrite (proj2 (Z.leb_gt _ _)) by lia. by case_match.
Qed.

(** Inversion of a rate-limited attempt. *)
Lemma admit_rate_limited now k st ls st' r limit :
  0 ≤ now → leases_ok now st.(keys) ls → k.(requests_per_minute) = Some limit → 0 < limit →
  runtime_admit now k st = (st', Denied (RateLimited r)) →
  quota_exhausted_at k (effective_quota_used st' k) = false ∧
  ∃ s started, st'.(keys) !! k.(key_id) = Some s ∧
    s.(window_started_at) = Some started ∧ (started ≤ now < started + WINDOW) ∧
    limit ≤ s.(requests_in_window) ∧ started + WINDOW ≤ duration_max ∧
    r = retry_after now (started + WINDOW).
Proof.
  intros Hnow Hok Hl Hpos Hadm.
  destruct (quota_exhausted_at k (effective_quota_used st k)) eqn:Hq;
    [by rewrite admit_quota in Hadm|]. rewrite admit_entry_eq in Hadm by done.
  pose proof (admit_entry_ok _ k _ _ Hnow Hok) as (_ & _ & started & Hs & Hle).
  destruct (decide_entry _ _ _) as [s' o] eqn:Hd. simplify_eq/=. split; [done|].
  unfold decide_entry, duration_add in Hd. rewrite Hs, Hl in Hd; simpl in Hd.
  repeat case_match; simplify_eq/=; breflect.
  exists (admit_entry now k st), started. rewrite lookup_insert_eq.
  split; [done|]. split; [done|]. split; [|done].
  unfold admit_entry, refresh_window in *. case_match eqn:Hfresh; simplify_eq/=; [lia|].
  rewrite Hs in Hfresh; simpl in Hfresh. unfold sat_sub, WINDOW, from_secs, nanos_per_sec in *.
  breflect. lia.
Qed.

(** What [admit] reads of a rate-limited entry later on. *)
Lemma admit_entry_later now k st s started :
  st.(keys) !! k.(key_id) = Some s → s.(window_started_at) = Some started →
  started ≤ now →
  admit_entry now k st =
    if started + WINDOW <=? now
    then {| window_started_at := Some now; requests_in_window := 0;
            in_flight := if retained now s then s.(in_flight) else 0 |}
    else s.
Proof.
  intros Hs Hw Hnow. unfold admit_entry.
  assert (retain now (keys st) !! key_id k = if retained now s then Some s else None) as ->.
  { destruct (retained now s) eqn:Hr; [by apply retain_lookup|].
    apply retain_lookup_None. intros. congruence. }
  unfold retained, refresh_window. rewrite Hw. unfold sat_sub.
  destruct (Z.leb_spec (started + WINDOW) now); simpl.
  - destruct (_ || _); simpl; rewrite ?Hw; simpl; [|done].
    by rewrite (proj2 (Z.leb_le _ _)) by lia.
  - rewrite (proj2 (Z.leb_le _ WINDOW)) by lia. rewrite orb_true_r; simpl.
    rewrite Hw; simpl. rewrite (proj2 (Z.leb_gt _ _)) by lia. done.
Qed.

(** The [retry_after] hint is exact.  It lies between 1 and 60 seconds; a
    repeated request is not rate limited once that many seconds have passed,
    and is still rate limited up to one second earlier. *)
Theorem retry_after_exact (evs : list (Event D T)) w k limit st' r
    (Hexec : exec evs w) (Hrpm : k.(requests_per_minute) = Some limit) (Hpos : 0 < limit)
    (Hadmit : runtime_admit w.(clock) k w.(state) = (st', Denied (RateLimited r))) :
  1 ≤ r ≤ 60 ∧
  (∀ later r', w.(clock) + from_secs r ≤ later →
     (runtime_admit later k st').2 ≠ Denied (RateLimited r')) ∧
  (∀ later, w.(clock) ≤ later ≤ w.(clock) + from_secs (r - 1) →
     ∃ r', (runtime_admit later k st').2 = Denied (RateLimited r')).
Proof.
  apply exec_inv in Hexec as [Hc Hok].
  apply (admit_rate_limited _ _ _ _ _ _ _ Hc Hok Hrpm Hpos) in Hadmit
    as (Hq & s & started & Hs & Hw & Hst & Hfull & Hmax & ->).
  pose proof (retry_after_ceiling (clock w) (started + WINDOW)) as (Hr1 & Hr2 & Hr3); [lia|].
  assert (from_secs 1 = nanos_per_sec ∧ WINDOW = 60 * nanos_per_sec ∧ 0 < nanos_per_sec) as Hn
    by done.
  split_and!; [lia|unfold from_secs in *; nia|intros later r' Hl|intros later Hl].
  - assert (0 ≤ from_secs (retry_after (clock w) (started + WINDOW))) by (unfold from_secs; nia).
    rewrite admit_entry_eq by done; simpl.
    rewrite (admit_entry_later _ _ _ s started), (proj2 (Z.leb_le _ _)) by (done || lia).
    eapply decide_entry_not_limited; [done|simpl; lia].
  - rewrite admit_entry_eq by done; simpl.
    rewrite (admit_entry_later _ _ _ s started), (proj2 (Z.leb_gt _ _)) by (done || lia).
    unfold decide_entry, duration_add. rewrite Hrpm, Hw; simpl.
    rewrite !(proj2 (Z.leb_le _ _)) by lia. eauto.
Qed.
End theorems.

(** ** The request-rate bound

    The windows are fixed, not sliding: each starts with the first request
    after the previous one is over.  The history of consumed slots therefore
    splits into windows of at most [L] slots, and any interval of one minute
    meets at most two of them. *)

Section rate.
Context {D T : Type} `{DecimalOps D} `{UtcOps T}.
Implicit Types (m : gmap N KeyState) (st : AdmissionState D) (k : CompiledApiKey D T).

(** The outcomes that consume a slot of the window. *)
Definition consumes (o : AdmitOutcome) : bool :=
  match o with Granted _ | Denied ConcurrentLimited => true | _ => false end.

(** Times at which requests of key [id] consumed a slot, newest first. *)
Fixpoint slots (id : uuid) (evs : list (Event D T)) : list Z :=
  match evs with
  | [] => []
  | Attempt t k o :: evs' =>
      if bool_decide (k.(key_id) = id) && consumes o then t :: slots id evs' else slots id evs'
  | _ :: evs' => slots id evs'
  end.

(** Every request of key [id] carried the rate limit [limit]. *)
Definition constant_rpm (id : uuid) (limit : Z) (evs : list (Event D T)) : Prop :=
  ∀ t k o, Attempt t k o ∈ evs → k.(key_id) = id → k.(requests_per_minute) = Some limit.

(** Number of slots in the minute that starts at [t]. *)
Definition slots_in_minute (t : Z) (log : list Z) : Z :=
  sum_over (λ x, if (t <=? x) && (x <? t + WINDOW) then 1 else 0) log.

(** [log] splits into windows of at most [limit] slots that are over by [e]. *)
Inductive windows (limit : Z) : Z → list Z → Prop :=
| windows_nil e : windows limit e []
| windows_cons e start times older :
    start + WINDOW ≤ e → Z.of_nat (length times) ≤ limit →
    Forall (λ x, start ≤ x < start + WINDOW) times → windows limit start older →
    windows limit e (times ++ older).

Lemma windows_mono limit e e' log : windows limit e log → e ≤ e' → windows limit e' log.
Proof. destruct 1; intros; econstructor; eauto; lia. Qed.

Lemma slots_in_minute_app t l1 l2 :
  slots_in_minute t (l1 ++ l2) = slots_in_minute t l1 + slots_in_minute t l2.
Proof. apply sum_over_app. Qed.

Lemma slots_in_minute_length t l : slots_in_minute t l ≤ Z.of_nat (length l).
Proof. unfold slots_in_minute. induction l; simpl; [lia|]. case_match; lia. Qed.

Lemma slots_in_minute_zero t l :
  Forall (λ x, x < t ∨ t + WINDOW ≤ x) l → slots_in_minute t l = 0.
Proof.
  unfold slots_in_minute. induction 1; simpl; [done|].
  destruct (Z.leb_spec t x), (Z.ltb_spec x (t + WINDOW)); simpl; lia.
Qed.

Lemma windows_before limit e t log : windows limit e log → e ≤ t → slots_in_minute t log = 0.
Proof.
  intros Hw. revert t. induction Hw as [|e start times older Hs _ Hf _ IH]; intros t He; [done|].
  assert (0 < WINDOW) by done. rewrite slots_in_minute_app, IH, slots_in_minute_zero; [done| |lia].
  eapply Forall_impl; [done|]. simpl. lia.
Qed.

Lemma windows_one limit e t log :
  0 ≤ limit → windows limit e log → e ≤ t + WINDOW → slots_in_minute t log ≤ limit.
Proof.
  intros Hl Hw He. destruct Hw as [|e start times older Hs Hlen _ Hw]; [done|].
  rewrite slots_in_minute_app, (windows_before limit start t older) by (done || lia).
  pose proof (slots_in_minute_length t times). lia.
Qed.

(** A current window (not over yet) on top of earlier ones. *)
Lemma windows_two limit start t times older :
  0 ≤ limit → Z.of_nat (length times) ≤ limit →
  Forall (λ x, start ≤ x < start + WINDOW) times → windows limit start older →
  slots_in_minute t (times ++ older) ≤ 2 * limit.
Proof.
  intros Hl Hlen Hf Hw. revert times Hlen Hf.
  induction Hw as [start|start start' times' older Hs' Hlen' Hf' Hw IH]; intros times Hlen Hf;
    rewrite slots_in_minute_app; pose proof (slots_in_minute_length t times).
  { unfold slots_in_minute at 2. simpl. lia. }
  destruct (decide (t + WINDOW ≤ start)) as [Ht|Ht].
  - rewrite slots_in_minute_zero by (eapply Forall_impl; [exact Hf|]; simpl; lia).
    by apply IH.
  - enough (slots_in_minute t (times' ++ older) ≤ limit) by lia.
    eapply (windows_one limit start); [done| |lia]. by eapply windows_cons.
Qed.

(** *** The invariant of one key *)

(** [o] is the entry of the key at time [now], [log] its consumed slots. *)
Definition rate_inv (limit now : Z) (o : option KeyState) (log : list Z) : Prop :=
  match o with
  | None => windows limit now log
  | Some s => ∃ started times older, s.(window_started_at) = Some started ∧ started ≤ now ∧
      log = times ++ older ∧ Z.of_nat (length times) = s.(requests_in_window) ∧
      Z.of_nat (length times) ≤ limit ∧
      Forall (λ x, started ≤ x < started + WINDOW) times ∧ windows limit started older
  end.

Lemma rate_inv_windows limit now s started log :
  rate_inv limit now (Some s) log → s.(window_started_at) = Some started →
  started + WINDOW ≤ now → windows limit now log.
Proof. intros (?&times&older&?&?&->&?&?&?&?) ??. simplify_eq. by eapply windows_cons. Qed.

Lemma rate_inv_tick limit now dt o log :
  0 ≤ dt → rate_inv limit now o log → rate_inv limit (now + dt) o log.
Proof.
  intros Hdt. destruct o as [s|]; simpl.
  - intros (started&times&older&?&?&?). exists started, times, older. split_and!; [done|lia|naive_solver..].
  - intros. eapply windows_mono; [done|lia].
Qed.

Lemma rate_inv_retain limit now m id log :
  rate_inv limit now (m !! id) log → rate_inv limit now (retain now m !! id) log.
Proof.
  intros Hinv. destruct (retain now m !! id) as [s|] eqn:E.
  - apply retain_lookup in E as [E _]. by rewrite E in Hinv.
  - rewrite retain_lookup_None in E. destruct (m !! id) as [s|]; [|done].
    specialize (E s eq_refl). pose proof Hinv as (started&_&_&Hs&Hle&_).
    eapply rate_inv_windows; [done..|]. unfold retained in E. rewrite Hs in E; simpl in E.
    unfold sat_sub in E. breflect. lia.
Qed.

Lemma rate_inv_refresh limit now o log :
  0 ≤ limit → rate_inv limit now o log →
  let s := refresh_window now (default KeyState_default o) in
  rate_inv limit now (Some s) log ∧
  ∃ started, s.(window_started_at) = Some started ∧ (started ≤ now < started + WINDOW).
Proof.
  intros Hl Hinv. assert (0 < WINDOW) by done.
  assert (windows limit now log → ∀ n, rate_inv limit now
    (Some {| window_started_at := Some now; requests_in_window := 0; in_flight := n |}) log)
    as Hfresh.
  { intros Hw n. exists now, [], log. by split_and!. }
  destruct o as [s|]; simpl.
  - pose proof Hinv as (started&_&_&Hs&Hle&_). unfold refresh_window. rewrite Hs; simpl.
    unfold sat_sub. destruct (Z.leb_spec WINDOW (0 `max` (now - started))) as [Hw|Hw].
    + split; [|exists now; split; [done|lia]].
      by eapply (Hfresh (rate_inv_windows _ _ s started _ Hinv Hs ltac:(lia))).
    + split; [done|]. exists started. split; [done|lia].
  - split; [by eapply (Hfresh Hinv 0)|]. exists now. split; [done|lia].
Qed.

Lemma rate_inv_decide limit now k s s' o log :
  limit ≤ u32_max → k.(requests_per_minute) = Some limit →
  rate_inv limit now (Some s) log →
  (∃ started, s.(window_started_at) = Some started ∧ (started ≤ now < started + WINDOW)) →
  decide_entry now k s = (s', o) →
  rate_inv limit now (Some s') (if consumes o then now :: log else log).
Proof.
  intros Hmax Hl Hinv (started & Hs & Hnow) Hd.
  assert (s.(requests_in_window) < limit → ∀ n, rate_inv limit now
    (Some {| window_started_at := s.(window_started_at);
             requests_in_window := sat_add u32_max s.(requests_in_window) 1;
             in_flight := n |}) (now :: log)) as Hcount.
  { intros Hlt n. destruct Hinv as (st0&times&older&Hst0&?&->&Hlen&?&?&?).
    assert (st0 = started) as -> by congruence. exists started, (now :: times), older. unfold sat_add; simpl. split_and!; try done; try lia.
    by constructor. }
  unfold decide_entry in Hd. rewrite Hl, Hs in Hd; simpl in Hd.
  repeat case_match; simplify_eq/=; try done; breflect; rewrite <- Hs; by apply Hcount.
Qed.

Lemma rate_inv_drop limit now id id' st st' log :
  rate_inv limit now (st.(keys) !! id) log →
  drop_lease now {| lease_key_id := id'; released := false |} st = Some st' →
  rate_inv limit now (st'.(keys) !! id) log.
Proof.
  intros Hinv Hd. unfold drop_lease in Hd; simpl in Hd.
  destruct (keys st !! id') as [s|] eqn:Es; [|done]. simplify_eq/=.
  match goal with |- context [if ?b then delete _ _ else _] => destruct b eqn:Hrm end;
    destruct (decide (id' = id)) as [->|Hne].
  - rewrite lookup_delete_eq. rewrite Es in Hinv. pose proof Hinv as (started&_&_&Hs&Hle&_).
    rewrite Hs in Hrm; simpl in Hrm. breflect. unfold sat_sub in *.
    eapply rate_inv_windows; [done..|lia].
  - by rewrite lookup_delete_ne.
  - rewrite lookup_insert_eq. rewrite Es in Hinv. exact Hinv.
  - by rewrite lookup_insert_ne.
Qed.

Lemma rate_inv_admit limit id now k st st' o log :
  0 ≤ limit ≤ u32_max → (k.(key_id) = id → k.(requests_per_minute) = Some limit) →
  rate_inv limit now (st.(keys) !! id) log → runtime_admit now k st = (st', o) →
  rate_inv limit now (st'.(keys) !! id)
    (if bool_decide (k.(key_id) = id) && consumes o then now :: log else log).
Proof.
  intros Hl Hk Hinv%rate_inv_retain Hadm.
  destruct (quota_exhausted_at k (effective_quota_used st k)) eqn:Hq.
  { rewrite admit_quota in Hadm by done. simplify_eq/=. by rewrite andb_false_r. }
  rewrite admit_entry_eq in Hadm by done. destruct (decide_entry _ _ _) as [s' o'] eqn:Hd.
  simplify_eq/=. case_bool_decide as Hid; simpl.
  - subst id. rewrite lookup_insert_eq.
    eapply rate_inv_refresh in Hinv as [Hinv Hst]; [|lia].
    eapply rate_inv_decide; eauto. lia.
  - by rewrite lookup_insert_ne.
Qed.

Lemma exec_rate_inv limit id evs w :
  0 ≤ limit ≤ u32_max → exec evs w → constant_rpm id limit evs →
  rate_inv limit w.(clock) (w.(state).(keys) !! id) (slots id evs).
Proof.
  intros Hl Hexec. induction Hexec as [now Hnow|evs w ev w' _ IH Hstep Hlen]; intros Hc.
  { simpl. rewrite lookup_empty. constructor. }
  assert (constant_rpm id limit evs) as Hc' by (intros ????; eapply Hc, list_elem_of_further; eauto).
  specialize (IH Hc'). destruct Hstep as
    [w dt Hdt|w k st' o Hadm|w l1 id' l2 st' Hls Hdrop|w id' amount]; simpl in *.
  - by apply rate_inv_tick.
  - eapply rate_inv_admit; [done|intros Hk; eapply Hc; [constructor|done]|done..].
  - by eapply rate_inv_drop.
  - done.
Qed.

(** As long as a key's rate limit is [limit] requests per minute, no
    60-second interval contains more than [2 * limit] of its requests that
    passed the rate limit, whatever the interleaving of requests, releases,
    settlements and pruning.  (The windows are fixed, so the factor 2 is the
    price of a burst across a window boundary.) *)
Theorem rate_bound (evs : list (Event D T)) w id limit t
    (Hexec : exec evs w) (Hlimit : 0 ≤ limit ≤ u32_max) (Hrpm : constant_rpm id limit evs) :
  slots_in_minute t (slots id evs) ≤ 2 * limit.
Proof.
  pose proof (exec_rate_inv limit id evs w Hlimit Hexec Hrpm) as Hinv.
  destruct (keys (state w) !! id) as [s|].
  - destruct Hinv as (started&times&older&_&_&->&_&?&?&?). apply (windows_two _ started); try done; lia.
  - by apply (windows_two limit (clock w) t []); [lia|simpl; lia|constructor|].
Qed.
End rate.

(** ** Refinement: pruning is unobservable

    The abstract specification keeps one window and one lease count for every
    key forever; the implementation drops entries that are idle and whose
    window is over.  Replaying the same events on both gives the same
    outcomes. *)

Section refinement.
Context {D T : Type} `{DecimalOps D} `{UtcOps T}.
Implicit Types (m : gmap N KeyState) (st : AdmissionState D) (k : CompiledApiKey D T).

Record Spec := {
  spec_window : uuid → option (Z * Z);   (** start and consumed slots *)
  spec_leases : uuid → Z;
  spec_settled : uuid → option D;
}.
Definition spec_initial : Spec :=
  {| spec_window := λ _, None; spec_leases := λ _, 0; spec_settled := λ _, None |}.

Definition spec_stale (now : Z) (win : option (Z * Z)) : bool :=
  is_none_or win (λ p, p.1 + WINDOW <=? now).

(** The window a request at [now] falls into. *)
Definition spec_current (now : Z) (win : option (Z * Z)) : Z * Z :=
  match win with
  | Some p => if spec_stale now win then (now, 0) else p
  | None => (now, 0)
  end.

Definition spec_outcome (now : Z) k (σ : Spec) : AdmitOutcome :=
  let '(started, used) := spec_current now (σ.(spec_window) k.(key_id)) in
  let settled := match σ.(spec_settled) k.(key_id) with
                 | Some amount => dec_max amount k.(quota_used_amount)
                 | None => k.(quota_used_amount)
                 end in
  if is_some_and k.(quota_limit_amount) (λ limit, dec_leb limit settled) then
    Denied InsufficientQuota
  else if is_some_and k.(requests_per_minute) (λ limit, limit <=? used) then
    Denied (RateLimited (retry_after now (started + WINDOW)))
  else if is_some_and k.(max_concurrent_requests)
            (λ limit, limit <=? σ.(spec_leases) k.(key_id)) then
    Denied ConcurrentLimited
  else Granted {| lease_key_id := k.(key_id); released := false |}.

Definition fn_update {A} (id : uuid) (a : A) (f : uuid → A) : uuid → A :=
  λ id', if decide (id = id') then a else f id'.

Definition spec_step (σ : Spec) (ev : Event D T) : Spec :=
  match ev with
  | Tick _ => σ
  | Attempt _ _ (Denied InsufficientQuota) => σ
  | Attempt now k o =>
      let '(started, used) := spec_current now (σ.(spec_window) k.(key_id)) in
      {| spec_window := fn_update k.(key_id)
           (Some (started, if consumes o then sat_add u32_max used 1 else used))
           σ.(spec_window);
         spec_leases := match o with
           | Granted _ => fn_update k.(key_id) (σ.(spec_leases) k.(key_id) + 1) σ.(spec_leases)
           | _ => σ.(spec_leases)
           end;
         spec_settled := σ.(spec_settled) |}
  | Dropped id =>
      {| spec_window := σ.(spec_window);
         spec_leases := fn_update id (σ.(spec_leases) id - 1) σ.(spec_leases);
         spec_settled := σ.(spec_settled) |}
  | Settled id amount =>
      {| spec_window := σ.(spec_window); spec_leases := σ.(spec_leases);
         spec_settled := fn_update id
           (Some match σ.(spec_settled) id with
                 | Some current => dec_max current amount
                 | None => amount
                 end) σ.(spec_settled) |}
  end.

(** The specification state after a history (newest event first). *)
Definition spec_replay (evs : list (Event D T)) : Spec :=
  foldr (λ ev σ, spec_step σ ev) spec_initial evs.

(** An entry implements a window and a lease count; a missing entry, a window
    that is over and no lease. *)
Definition entry_refines (now : Z) (o : option KeyState) (win : option (Z * Z)) (n : Z) : Prop :=
  match o with
  | Some s => ∃ started, s.(window_started_at) = Some started ∧ started ≤ now ∧
                win = Some (started, s.(requests_in_window)) ∧ n = s.(in_flight)
  | None => spec_stale now win = true ∧ n = 0
  end.

Definition refines (w : World D) (σ : Spec) : Prop :=
  (∀ id, entry_refines w.(clock) (w.(state).(keys) !! id) (σ.(spec_window) id) (σ.(spec_leases) id))
  ∧ (∀ id, w.(state).(settled_quota_used) !! id = σ.(spec_settled) id).

Lemma spec_stale_mono now dt win :
  0 ≤ dt → spec_stale now win = true → spec_stale (now + dt) win = true.
Proof. destruct win as [p|]; simpl; [|done]. intros. breflect. apply Z.leb_le. lia. Qed.

Lemma entry_refines_tick now dt o win n :
  0 ≤ dt → entry_refines now o win n → entry_refines (now + dt) o win n.
Proof.
  intros Hdt. destruct o as [s|]; simpl.
  - intros (started&?&?&?). exists started. split_and!; [done|lia|naive_solver..].
  - intros [? ->]. by split; [apply spec_stale_mono|].
Qed.

Lemma entry_refines_retain now m id win n :
  0 ≤ n → entry_refines now (m !! id) win n → entry_refines now (retain now m !! id) win n.
Proof.
  intros Hn Hr. destruct (retain now m !! id) as [s|] eqn:E.
  - apply retain_lookup in E as [E _]. by rewrite E in Hr.
  - rewrite retain_lookup_None in E. destruct (m !! id) as [s|]; [|done].
    specialize (E s eq_refl). destruct Hr as (started & Hs & Hle & -> & ->).
    unfold retained in E. rewrite Hs in E; simpl in E. unfold sat_sub in E. breflect.
    split; simpl; [apply Z.leb_le; lia|lia].
Qed.

(** The refreshed entry is the current window of the specification. *)
Lemma entry_refines_refresh now o win n :
  entry_refines now o win n →
  let s := refresh_window now (default KeyState_default o) in
  s = {| window_started_at := Some (spec_current now win).1;
         requests_in_window := (spec_current now win).2; in_flight := n |} ∧
  (spec_current now win).1 ≤ now.
Proof.
  destruct o as [s|]; simpl.
  - intros (started & Hs & Hle & -> & ->). unfold refresh_window, spec_current, spec_stale. simpl.
    rewrite Hs; simpl. unfold sat_sub.
    destruct (Z.leb_spec (started + WINDOW) now).
    + rewrite (proj2 (Z.leb_le _ _)) by lia. simpl. split; [done|lia].
    + rewrite (proj2 (Z.leb_gt _ _)) by lia. simpl. rewrite <- Hs. by destruct s.
  - intros [Hst ->]. unfold spec_current. rewrite Hst. destruct win; simpl; (split; [done|lia]).
Qed.

Lemma decide_entry_result now k started used n s' o :
  decide_entry now k {| window_started_at := Some started; requests_in_window := used;
                        in_flight := n |} = (s', o) → o ≠ Panicked →
  s' = {| window_started_at := Some started;
          requests_in_window := if consumes o then sat_add u32_max used 1 else used;
          in_flight := match o with Granted _ => sat_add u32_max n 1 | _ => n end |} ∧
  o ≠ Denied InsufficientQuota.
Proof. unfold decide_entry; simpl. intros. by repeat case_match; simplify_eq/=. Qed.

Lemma refines_leases w σ id :
  inv w → refines w σ → σ.(spec_leases) id = occurrences id w.(leases).
Proof.
  intros [_ Hok] [Hr _]. specialize (Hok id). specialize (Hr id).
  destruct (keys _ !! id) as [s|]; [|destruct Hr; congruence].
  destruct Hok as (_ & Hf & _). destruct Hr as (? & _ & _ & _ & Hl). congruence.
Qed.

Lemma refines_admit_entry w σ k :
  inv w → refines w σ →
  admit_entry w.(clock) k w.(state) =
    {| window_started_at := Some (spec_current w.(clock) (σ.(spec_window) k.(key_id))).1;
       requests_in_window := (spec_current w.(clock) (σ.(spec_window) k.(key_id))).2;
       in_flight := σ.(spec_leases) k.(key_id) |} ∧
  (spec_current w.(clock) (σ.(spec_window) k.(key_id))).1 ≤ w.(clock).
Proof.
  intros Hinv Hr. unfold admit_entry. apply entry_refines_refresh, entry_refines_retain.
  - rewrite (refines_leases w) by done. apply occurrences_nonneg.
  - apply Hr.
Qed.

Lemma refines_attempt w σ k st' o :
  inv w → refines w σ → runtime_admit w.(clock) k w.(state) = (st', o) → o ≠ Panicked →
  Z.of_nat (length (outcome_leases o w.(leases))) ≤ u32_max →
  refines {| clock := w.(clock); state := st'; leases := outcome_leases o w.(leases) |}
    (spec_step σ (Attempt w.(clock) k o)).
Proof.
  intros Hinv Hr Hadm Ho Hlen.
  assert (∀ id, entry_refines w.(clock) (retain w.(clock) w.(state).(keys) !! id)
    (σ.(spec_window) id) (σ.(spec_leases) id)) as Hkept.
  { intros id. apply entry_refines_retain, Hr. rewrite (refines_leases w) by done.
    apply occurrences_nonneg. }
  destruct (quota_exhausted_at k (effective_quota_used (state w) k)) eqn:Hq.
  { rewrite admit_quota in Hadm by done. simplify_eq/=. split; [exact Hkept|apply Hr]. }
  rewrite admit_entry_eq in Hadm by done.
  destruct (refines_admit_entry w σ k Hinv Hr) as [He Hle]. rewrite He in Hadm.
  pose proof (refines_leases w σ (key_id k) Hinv Hr) as Hn.
  destruct (decide_entry _ _ _) as [s' o'] eqn:Hd. simplify_eq/=.
  apply decide_entry_result in Hd as [-> Hoq]; [|done].
  destruct (spec_current _ _) as [started used] eqn:Hcur. simpl in *.
  split; [|by destruct o as [|[]|]; try done; apply Hr].
  intros id. simpl. specialize (Hkept id).
  pose proof (occurrences_le_length (key_id k) (leases w)).
  destruct (decide (key_id k = id)) as [<-|Hne].
  - rewrite lookup_insert_eq. exists started. unfold sat_add.
    destruct o as [l|[]|]; simpl in *; try done; unfold fn_update; rewrite ?Hcur; simpl;
      rewrite ?decide_True by done; unfold sat_add; split_and!; done || lia.
  - rewrite lookup_insert_ne by done.
    destruct o as [l|[]|]; simpl; try done; unfold fn_update; rewrite ?Hcur; simpl;
      rewrite ?decide_False by done; done.
Qed.

Lemma refines_dropped w σ l1 id l2 st' :
  inv w → refines w σ → w.(leases) = l1 ++ id :: l2 →
  drop_lease w.(clock) {| lease_key_id := id; released := false |} w.(state) = Some st' →
  refines {| clock := w.(clock); state := st'; leases := l1 ++ l2 |} (spec_step σ (Dropped id)).
Proof.
  intros Hinv Hr Hls Hdrop. pose proof (refines_leases w σ id Hinv Hr) as Hn.
  rewrite Hls, occurrences_remove, decide_True in Hn by done.
  pose proof (occurrences_nonneg id (l1 ++ l2)).
  unfold drop_lease in Hdrop; simpl in Hdrop. destruct Hr as [Hr Hset].
  destruct (keys (state w) !! id) as [s|] eqn:Es; [|done]. simplify_eq. split; [|exact Hset].
  intros id'. specialize (Hr id'). simpl. unfold fn_update.
  match goal with |- context [if ?b then delete _ _ else _] => destruct b eqn:Hrm end;
    destruct (decide (id = id')) as [<-|Hne].
  - rewrite lookup_delete_eq. rewrite Es in Hr. destruct Hr as (started & Hs & Hle & -> & Hf).
    rewrite Hs in Hrm; simpl in Hrm. unfold sat_sub in Hrm. breflect.
    split; simpl; [apply Z.leb_le|]; lia.
  - by rewrite lookup_delete_ne.
  - rewrite lookup_insert_eq. rewrite Es in Hr. destruct Hr as (started & Hs & Hle & Hw & Hf).
    exists started. unfold sat_sub. simpl. split_and!; done || lia.
  - by rewrite lookup_insert_ne.
Qed.

Lemma exec_refines evs w : exec evs w → refines w (spec_replay evs).
Proof.
  induction 1 as [now Hnow|evs w ev w' Hexec IH Hstep Hlen].
  { split; intros id; simpl; rewrite lookup_empty; done. }
  pose proof (exec_inv _ _ Hexec) as Hinv. destruct Hstep as
    [w dt Hdt|w k st' o Hadm|w l1 id' l2 st' Hls Hdrop|w id' amount]; simpl spec_replay.
  - split; [|apply IH]. intros id. apply entry_refines_tick; [done|apply IH].
  - by apply refines_attempt.
  - by apply refines_dropped.
  - destruct IH as [Hr Hset]. split; [exact Hr|]. intros id. simpl. unfold fn_update.
    case_decide as Hid; [subst; by rewrite lookup_insert_eq, Hset|by rewrite lookup_insert_ne].
Qed.

(** C18: the implementation refines the specification that never forgets a key:
    after any history, the outcome of a request (admission, each denial and
    its retry hint) is the one the specification computes from the history
    alone.  Pruning idle entries, in [admit] and when a lease is dropped, is
    not observable. *)
Theorem admit_refines_spec (evs : list (Event D T)) w k
    (Hexec : exec evs w) (Hclock : w.(clock) + WINDOW ≤ duration_max) :
  (runtime_admit w.(clock) k w.(state)).2 = spec_outcome w.(clock) k (spec_replay evs).
Proof.
  pose proof (exec_inv _ _ Hexec) as Hinv. apply exec_refines in Hexec as Hr.
  destruct (refines_admit_entry w _ k Hinv Hr) as [He Hle].
  assert (effective_quota_used w.(state) k =
    match (spec_replay evs).(spec_settled) k.(key_id) with
    | Some amount => dec_max amount k.(quota_used_amount)
    | None => k.(quota_used_amount) end) as Hused.
  { unfold effective_quota_used. rewrite (proj2 Hr). by case_match. }
  unfold spec_outcome. destruct (spec_current _ _) as [started used]. simpl in *.
  rewrite <- Hused. fold (quota_exhausted_at k (effective_quota_used (state w) k)).
  destruct (quota_exhausted_at k (effective_quota_used (state w) k)) eqn:Hq;
    [by rewrite admit_quota|]. rewrite admit_entry_eq by done. simpl. rewrite He.
  unfold decide_entry, duration_add; simpl. rewrite (proj2 (Z.leb_le (started + WINDOW) _)) by lia.
  by repeat case_match.
Qed.
End refinement.

(** ** Quota and pressure *)

Section quota.
Context {D T : Type} `{DecimalLaws D} `{UtcOps T}.
Implicit Types (st : AdmissionState D) (k : CompiledApiKey D T).

Lemma exec_settled (evs : list (Event D T)) w id limit :
  exec evs w →
  is_some_and (w.(state).(settled_quota_used) !! id) (dec_leb limit) = true ↔
  ∃ amount, Settled id amount ∈ evs ∧ dec_leb limit amount = true.
Proof.
  induction 1 as [now Hnow|evs w ev w' Hexec IH Hstep Hlen].
  { simpl. rewrite lookup_empty. simpl. split; [done|]. intros (? & Hin & _). by apply elem_of_nil in Hin. }
  assert (∀ ev', ev' = ev → (∀ a, ev' ≠ Settled id a) →
    (∃ amount, Settled id amount ∈ ev :: evs ∧ dec_leb limit amount = true) ↔
    (∃ amount, Settled id amount ∈ evs ∧ dec_leb limit amount = true)) as Hother.
  { intros ? -> Hne. setoid_rewrite elem_of_cons. naive_solver. }
  destruct Hstep as [w dt Hdt|w k st' o Hadm|w l1 id' l2 st' Hls Hdrop|w id' amount]; simpl.
  - rewrite (Hother (Tick dt)); done.
  - rewrite (Hother (Attempt w.(clock) k o)) by done. rewrite <- IH. unfold runtime_admit in Hadm.
    by repeat case_match; simplify_eq/=.
  - rewrite (Hother (Dropped id')) by done. rewrite <- IH. unfold drop_lease in Hdrop.
    by repeat case_match; simplify_eq/=.
  - destruct (decide (id' = id)) as [->|Hne].
    + rewrite lookup_insert_eq; simpl. setoid_rewrite elem_of_cons.
      destruct (settled_quota_used _ !! id) as [current|] eqn:Ec; simpl in *.
      * rewrite dec_le_max. naive_solver.
      * naive_solver.
    + rewrite lookup_insert_ne by done. rewrite (Hother (Settled id' amount)); [done|done|naive_solver].
Qed.

(** A request is denied for quota exactly when its limit is at most the
    amount of its own snapshot or at most some settled amount ever published
    for its key: settled totals only move upward and no snapshot forgets one.
    Such a denial consumes no window slot and leaves no lease. *)
Theorem quota_denied_iff (evs : list (Event D T)) w k (Hexec : exec evs w) :
  let o := (runtime_admit w.(clock) k w.(state)).2 in
  (o = Denied InsufficientQuota ↔
   ∃ limit, k.(quota_limit_amount) = Some limit ∧
     (dec_leb limit k.(quota_used_amount) = true ∨
      ∃ amount, Settled k.(key_id) amount ∈ evs ∧ dec_leb limit amount = true)) ∧
  (o = Denied InsufficientQuota →
   consumes o = false ∧ outcome_leases o w.(leases) = w.(leases)).
Proof.
  split; [|by intros ->].
  transitivity (quota_exhausted_at k (effective_quota_used w.(state) k) = true).
  { destruct (quota_exhausted_at k (effective_quota_used w.(state) k)) eqn:Hq.
    - by rewrite admit_quota.
    - rewrite admit_entry_eq by done. simpl. unfold decide_entry. by repeat case_match. }
  unfold quota_exhausted_at. destruct (quota_limit_amount k) as [limit|]; simpl; [|naive_solver].
  pose proof (exec_settled evs w k.(key_id) limit Hexec) as Hs. unfold effective_quota_used.
  destruct (settled_quota_used _ !! _) as [used|]; simpl in Hs; rewrite ?dec_le_max; naive_solver.
Qed.
End quota.

Section pressure.
Context {D T : Type} `{DecimalOps D} `{UtcOps T}.

Lemma foldr_saturating {A} (f : A → Z) (l : list A) :
  (∀ a, a ∈ l → 0 ≤ f a) →
  foldr (λ a total, sat_add u64_max total (f a)) 0 l = Z.min u64_max (sum_over f l).
Proof.
  unfold sat_add, u64_max. induction l as [|a l IH]; intros Hf; simpl; [done|].
  rewrite IH by set_solver. pose proof (Hf a ltac:(set_solver)). lia.
Qed.

(** The pressure snapshot reports exactly the leases that are
    outstanding. *)
Theorem pressure_counts_leases (evs : list (Event D T)) w (Hexec : exec evs w) :
  (pressure_snapshot w.(state)).(in_flight_requests) = Z.of_nat (length w.(leases)).
Proof.
  assert (Z.of_nat (length (leases w)) ≤ u32_max) as Hlen.
  { destruct Hexec as [|]; [by vm_compute|done]. }
  apply exec_inv in Hexec as [_ Hok]. simpl. rewrite map_fold_foldr.
  assert (∀ p, p ∈ map_to_list w.(state).(keys) → p.2.(in_flight) = occurrences p.1 w.(leases)) as Hf.
  { intros [id s] Hin%elem_of_map_to_list. specialize (Hok id). rewrite Hin in Hok. apply Hok. }
  trans (Z.min u64_max (sum_over (λ p, p.2.(in_flight)) (map_to_list w.(state).(keys)))).
  { rewrite <- foldr_saturating; [|intros p Hp; rewrite Hf by done; apply occurrences_nonneg].
    apply foldr_ext; [by intros []|done..]. }
  rewrite (sum_over_ext _ _ _ Hf).
  rewrite <- (sum_over_fmap fst (λ id, occurrences id (leases w))), sum_occurrences.
  - unfold u64_max, u32_max in *. lia.
  - apply NoDup_fst_map_to_list.
  - intros id Hid%occurrences_pos. specialize (Hok id).
    destruct (keys (state w) !! id) as [s|] eqn:Es; [|lia].
    apply list_elem_of_fmap. exists (id, s). split; [done|]. by apply elem_of_map_to_list.
Qed.
End pressure.

(** ** Concrete executions *)

Module AdmissionExample.
Definition key (rpm concurrent quota : option Z) : CompiledApiKey Z Z :=
  {| key_id := 7%N; key_user_id := 1%N; websocket_enabled := false; filter_fast_mode := false;
     allowed_api_formats := []; permissions := [];
     authorization := {| profile_fingerprint := 0%N; allowed_channel_slots := [];
                         accessible_route_slots := [] |};
     expires_at := None; requests_per_minute := rpm; max_concurrent_requests := concurrent;
     quota_limit_amount := quota; quota_used_amount := 0 |}.
Definition lease : AdmissionLease := {| lease_key_id := 7%N; released := false |}.
Definition limited : CompiledApiKey Z Z := key (Some 2) (Some 1) (Some 10).

(** One admitted request of a key with two requests per minute and one lease,
    then a settlement of the whole quota. *)
Definition w1 : World Z :=
  {| clock := 5; state := (runtime_admit 5 limited AdmissionState_default).1; leases := [7%N] |}.
Definition w2 : World Z :=
  {| clock := 5; state := record_settled_quota_usage 7%N 10 w1.(state); leases := [7%N] |}.
(** A second request, denied for concurrency, uses the last slot. *)
Definition w3 : World Z :=
  {| clock := 5; state := (runtime_admit 5 limited w1.(state)).1; leases := [7%N] |}.

Definition evs1 : list (Event Z Z) := [Attempt 5 limited (Granted lease)].
Definition evs2 : list (Event Z Z) := Settled 7%N 10 :: evs1.
Definition evs3 : list (Event Z Z) := Attempt 5 limited (Denied ConcurrentLimited) :: evs1.

Lemma exec1 : exec evs1 w1.
Proof.
  eapply (exec_step _ (initial_world 5)); [by constructor| |done].
  apply (step_attempt (initial_world 5)); done.
Qed.
Lemma exec2 : exec evs2 w2.
Proof. eapply exec_step; [exact exec1|apply (step_settled w1)|done]. Qed.
Lemma exec3 : exec evs3 w3.
Proof. eapply exec_step; [exact exec1|by apply (step_attempt w1)|done]. Qed.
End AdmissionExample.

Import AdmissionExample.

Lemma lease_accounting_witness :
  (∀ id, occurrences id w1.(leases) = default 0 (in_flight <$> w1.(state).(keys) !! id)) ∧
  (∀ id, id ∈ w1.(leases) → ∃ st',
     drop_lease w1.(clock) {| lease_key_id := id; released := false |} w1.(state) = Some st').
Proof. apply (lease_accounting evs1 w1). apply exec1. Defined.

Lemma concurrency_limit_witness :
  (∀ l, Denied ConcurrentLimited = Granted l →
     occurrences limited.(key_id) (outcome_leases (Denied ConcurrentLimited) w1.(leases)) ≤ 1) ∧
  (Denied ConcurrentLimited = Denied ConcurrentLimited →
     1 ≤ occurrences limited.(key_id) w1.(leases)).
Proof.
  apply (concurrency_limit evs1 w1 limited 1 w3.(state) (Denied ConcurrentLimited));
    [apply exec1|reflexivity|reflexivity].
Defined.

Lemma admit_never_panics_witness : (runtime_admit w1.(clock) limited w1.(state)).2 ≠ Panicked.
Proof. apply (admit_never_panics evs1 w1 limited); [apply exec1|vm_compute; discriminate]. Defined.

Lemma retry_after_exact_witness :
  1 ≤ 60 ≤ 60 ∧
  (∀ later r', w3.(clock) + from_secs 60 ≤ later →
     (runtime_admit later limited w3.(state)).2 ≠ Denied (RateLimited r')) ∧
  (∀ later, w3.(clock) ≤ later ≤ w3.(clock) + from_secs (60 - 1) →
     ∃ r', (runtime_admit later limited w3.(state)).2 = Denied (RateLimited r')).
Proof.
  apply (retry_after_exact evs3 w3 limited 2 w3.(state) 60);
    [apply exec3|reflexivity|reflexivity|vm_compute; reflexivity].
Defined.

Lemma rate_bound_witness : slots_in_minute 0 (slots 7%N evs3) ≤ 2 * 2.
Proof.
  apply (rate_bound evs3 w3 7%N 2 0); [apply exec3|split; discriminate|].
  intros t k o Hin _. repeat (apply elem_of_cons in Hin as [Hin|Hin]; [by simplify_eq|]).
  by apply elem_of_nil in Hin.
Defined.

Lemma admit_refines_spec_witness :
  (runtime_admit w3.(clock) limited w3.(state)).2 = spec_outcome w3.(clock) limited (spec_replay evs3).
Proof. apply (admit_refines_spec evs3 w3 limited); [apply exec3|vm_compute; discriminate]. Defined.

Lemma quota_denied_iff_witness :
  let o := (runtime_admit w2.(clock) limited w2.(state)).2 in
  (o = Denied InsufficientQuota ↔
   ∃ limit, limited.(quota_limit_amount) = Some limit ∧
     (dec_leb limit limited.(quota_used_amount) = true ∨
      ∃ amount, Settled limited.(key_id) amount ∈ evs2 ∧ dec_leb limit amount = true)) ∧
  (o = Denied InsufficientQuota →
   consumes o = false ∧ outcome_leases o w2.(leases) = w2.(leases)).
Proof. apply (quota_denied_iff evs2 w2 limited). apply exec2. Defined.

Lemma pressure_counts_leases_witness :
  (pressure_snapshot w3.(state)).(in_flight_requests) = Z.of_nat (length w3.(leases)).
Proof. apply (pressure_counts_leases evs3 w3). apply exec3. Defined.
