(* ===== verification/Health.v ===== *)
(** * Passive channel health

    Models [ChannelState] of [src/routing/mod.rs] and the health transitions of
    [ChannelLease].  The state is four atomics that many requests touch without
    a lock, so every operation is given at the granularity of its atomic
    accesses: a request is a [Thread] whose [Phase] names the atomic operation
    it executes next, [thread_step] executes it, and [hstep] interleaves any
    number of requests.  The operations as single functions ([try_acquire],
    [connection_failed], ...) are what [thread_step] computes when nobody
    interferes ([try_acquire_steps] and the lemmas after it). *)

From S2P Require Import Prelude.

Record PassiveHealthPolicy := {
  connection_failure_threshold : Z;
  cooldown : Z;
}.
Definition PassiveHealthPolicy_default : PassiveHealthPolicy :=
  {| connection_failure_threshold := 3; cooldown := from_secs 30 |}.

(** ** The encoding of cooldown deadlines *)

Definition HALF_OPEN_CLAIM : Z := Z.shiftl 1 63.
Definition COOLDOWN_MILLIS_MASK : Z := HALF_OPEN_CLAIM - 1.

Definition duration_millis (value : Z) : Z :=
  Z.min (if as_millis value <=? u64_max then as_millis value else COOLDOWN_MILLIS_MASK - 1)
        (COOLDOWN_MILLIS_MASK - 1).
Definition encode_millis (value : Z) : Z := sat_add u64_max (duration_millis value) 1.
Definition decode_millis (value : Z) : Z := sat_sub (Z.land value COOLDOWN_MILLIS_MASK) 1.
Definition half_open_claimed (value : Z) : bool := negb (Z.land value HALF_OPEN_CLAIM =? 0).

(** ** The state and its operations *)

Record ChannelState := {
  in_flight : Z;
  consecutive_connection_failures : Z;
  cooldown_state : Z;
  active : bool;
}.
Definition new_state (active : bool) : ChannelState :=
  {| in_flight := 0; consecutive_connection_failures := 0; cooldown_state := 0;
     active := active |}.

Definition set_in_flight (st : ChannelState) (n : Z) : ChannelState :=
  {| in_flight := n; consecutive_connection_failures := st.(consecutive_connection_failures);
     cooldown_state := st.(cooldown_state); active := st.(active) |}.
Definition set_failures (st : ChannelState) (n : Z) : ChannelState :=
  {| in_flight := st.(in_flight); consecutive_connection_failures := n;
     cooldown_state := st.(cooldown_state); active := st.(active) |}.
Definition set_cooldown (st : ChannelState) (v : Z) : ChannelState :=
  {| in_flight := st.(in_flight);
     consecutive_connection_failures := st.(consecutive_connection_failures);
     cooldown_state := v; active := st.(active) |}.
Definition set_active (st : ChannelState) (b : bool) : ChannelState :=
  {| in_flight := st.(in_flight);
     consecutive_connection_failures := st.(consecutive_connection_failures);
     cooldown_state := st.(cooldown_state); active := b |}.

(** [in_flight.fetch_add(1)] and [fetch_sub(1)]. *)
Definition count_up (st : ChannelState) : ChannelState :=
  set_in_flight st (wrap64 (st.(in_flight) + 1)).
Definition count_down (st : ChannelState) : ChannelState :=
  set_in_flight st (wrap64 (st.(in_flight) - 1)).
(** [cooldown_state.compare_exchange(expected, new)] *)
Definition swap_cooldown (st : ChannelState) (expected new : Z) : ChannelState * bool :=
  if st.(cooldown_state) =? expected then (set_cooldown st new, true) else (st, false).

(** A deadline that has not passed, or a probe under way. *)
Definition refuses (seen now : Z) : bool :=
  half_open_claimed seen || (duration_millis now <? decode_millis seen).

Definition is_usable (now : Z) (st : ChannelState) : bool :=
  (st.(cooldown_state) =? 0)
  || (negb (half_open_claimed st.(cooldown_state))
      && (decode_millis st.(cooldown_state) <=? duration_millis now)).

Definition try_acquire (now : Z) (st : ChannelState) : ChannelState * option Z :=
  let seen := st.(cooldown_state) in
  if seen =? 0 then (count_up st, Some 0)
  else if refuses seen now then (st, None)
  else
    let claimed := Z.lor seen HALF_OPEN_CLAIM in
    (count_up (set_cooldown st claimed), Some claimed).

(** The new state and the number of leases that remain. *)
Definition release (st : ChannelState) : ChannelState * Z :=
  (count_down st, sat_sub st.(in_flight) 1).

Definition connection_failed (threshold cooldown_until : Z) (st : ChannelState) : ChannelState :=
  let failures := sat_add u32_max st.(consecutive_connection_failures) 1 in
  let st1 := set_failures st failures in
  if threshold <=? failures then set_cooldown st1 (encode_millis cooldown_until) else st1.

Definition response_headers_received (st : ChannelState) : ChannelState :=
  set_cooldown (set_failures st 0) 0.

Definition probe_failed (half_open_claim cooldown_until : Z) (st : ChannelState) : ChannelState :=
  if half_open_claim =? 0 then st
  else (swap_cooldown st half_open_claim (encode_millis cooldown_until)).1.

(** The health part of [Drop for ChannelLease]. *)
Definition drop_health (half_open_claim : Z) (st : ChannelState) : ChannelState * Z :=
  let '(st1, remaining) := release st in
  (if half_open_claim =? 0 then st1
   else (swap_cooldown st1 half_open_claim (Z.land half_open_claim COOLDOWN_MILLIS_MASK)).1,
   remaining).

Record ChannelHealthSnapshot := {
  snap_in_flight : Z;
  snap_failures : Z;
  snap_cooling_down : bool;
  snap_half_open_probe : bool;
}.
Definition snapshot (now : Z) (st : ChannelState) : ChannelHealthSnapshot :=
  {| snap_in_flight := st.(in_flight);
     snap_failures := st.(consecutive_connection_failures);
     snap_cooling_down := negb (st.(cooldown_state) =? 0)
       && (duration_millis now <? decode_millis st.(cooldown_state));
     snap_half_open_probe := half_open_claimed st.(cooldown_state) |}.

(** ** Interleaved requests *)

(** The atomic access a request executes next. *)
Inductive Phase :=
| AcquireLoad (now : Z)                       (** [try_acquire]: load *)
| AcquireSwap (now seen : Z)                  (** [try_acquire]: compare_exchange *)
| AcquireCount                                (** [try_acquire]: fetch_add *)
| Refused                                     (** [try_acquire] returned [None] *)
| Held                                        (** the lease is held, no call under way *)
| FailCount (threshold until : Z)             (** [connection_failed]: fetch_update *)
| FailStore (until : Z)                       (** [connection_failed]: store *)
| HeadersFailures                             (** [response_headers_received]: first store *)
| HeadersCooldown                             (** [response_headers_received]: second store *)
| ProbeSwap (until : Z)                       (** [probe_failed]: compare_exchange *)
| DropRelease                                 (** drop: fetch_sub *)
| DropSwap                                    (** drop: compare_exchange *)
| Dropped.                                    (** the lease is gone *)

Record Thread := { claim : Z; phase : Phase }.

Definition at_phase (th : Thread) (p : Phase) : Thread := {| claim := th.(claim); phase := p |}.

(** One atomic access; [None] when the request is not inside an operation. *)
Definition thread_step (st : ChannelState) (th : Thread) : option (ChannelState * Thread) :=
  match th.(phase) with
  | AcquireLoad now =>
      let seen := st.(cooldown_state) in
      Some (st, if seen =? 0 then {| claim := 0; phase := AcquireCount |}
                else if refuses seen now then at_phase th Refused
                else at_phase th (AcquireSwap now seen))
  | AcquireSwap now seen =>
      let claimed := Z.lor seen HALF_OPEN_CLAIM in
      let '(st', won) := swap_cooldown st seen claimed in
      Some (st', if won : bool then {| claim := claimed; phase := AcquireCount |}
                 else at_phase th (AcquireLoad now))
  | AcquireCount => Some (count_up st, at_phase th Held)
  | FailCount threshold until =>
      let failures := sat_add u32_max st.(consecutive_connection_failures) 1 in
      Some (set_failures st failures,
            at_phase th (if threshold <=? failures then FailStore until else Held))
  | FailStore until => Some (set_cooldown st (encode_millis until), at_phase th Held)
  | HeadersFailures => Some (set_failures st 0, at_phase th HeadersCooldown)
  | HeadersCooldown => Some (set_cooldown st 0, at_phase th Held)
  | ProbeSwap until =>
      Some (if th.(claim) =? 0 then st
            else (swap_cooldown st th.(claim) (encode_millis until)).1, at_phase th Held)
  | DropRelease =>
      Some (count_down st, at_phase th (if th.(claim) =? 0 then Dropped else DropSwap))
  | DropSwap =>
      Some ((swap_cooldown st th.(claim) (Z.land th.(claim) COOLDOWN_MILLIS_MASK)).1,
            at_phase th Dropped)
  | Refused | Held | Dropped => None
  end.

(** The calls a lease holder can start. *)
Inductive lease_call : Phase → Prop :=
| call_connection_failed threshold until : 0 ≤ until → lease_call (FailCount threshold until)
| call_headers_received : lease_call HeadersFailures
| call_probe_failed until : 0 ≤ until → lease_call (ProbeSwap until)
| call_drop : lease_call DropRelease.

Inductive hstep : ChannelState * list Thread → ChannelState * list Thread → Prop :=
| hstep_arrive st ths now :
    0 ≤ now → hstep (st, ths) (st, {| claim := 0; phase := AcquireLoad now |} :: ths)
| hstep_call st l1 th l2 p :
    th.(phase) = Held → lease_call p → hstep (st, l1 ++ th :: l2) (st, l1 ++ at_phase th p :: l2)
| hstep_access st l1 th l2 st' th' :
    thread_step st th = Some (st', th') → hstep (st, l1 ++ th :: l2) (st', l1 ++ th' :: l2)
| hstep_active st ths b : hstep (st, ths) (set_active st b, ths).

(** Reachable configurations with fewer than [2^64] requests, the range of the
    [u64] counter. *)
Inductive reachable : ChannelState * list Thread → Prop :=
| reachable_init b : reachable (new_state b, [])
| reachable_step c c' :
    reachable c → hstep c c' → Z.of_nat (length c'.2) < 2 ^ 64 → reachable c'.

(** ** Facts about the encoding *)

Lemma HALF_OPEN_CLAIM_eq : HALF_OPEN_CLAIM = 2 ^ 63.
Proof. done. Qed.
Lemma COOLDOWN_MILLIS_MASK_eq : COOLDOWN_MILLIS_MASK = Z.ones 63.
Proof. done. Qed.

Lemma half_open_claimed_testbit v : half_open_claimed v = Z.testbit v 63.
Proof.
  unfold half_open_claimed. rewrite HALF_OPEN_CLAIM_eq.
  assert (Z.land v (2 ^ 63) = if Z.testbit v 63 then 2 ^ 63 else 0) as ->;
    [|by destruct (Z.testbit v 63)].
  apply Z.bits_inj'. intros n Hn. rewrite Z.land_spec, Z.pow2_bits_eqb by done.
  destruct (Z.eqb_spec 63 n) as [<-|Hne].
  - by destruct (Z.testbit v 63).
  - rewrite andb_false_r. destruct (Z.testbit v 63); [|by rewrite Z.bits_0].
    by rewrite Z.pow2_bits_false.
Qed.

Lemma half_open_claimed_small v : 0 ≤ v < 2 ^ 63 → half_open_claimed v = false.
Proof.
  intros Hv. rewrite half_open_claimed_testbit. destruct (decide (v = 0)) as [->|Hne]; [done|].
  apply Z.bits_above_log2; [lia|]. apply Z.log2_lt_pow2; lia.
Qed.

Lemma half_open_claimed_lor v : half_open_claimed (Z.lor v HALF_OPEN_CLAIM) = true.
Proof.
  rewrite half_open_claimed_testbit, Z.lor_spec, HALF_OPEN_CLAIM_eq, Z.pow2_bits_true by done.
  apply orb_true_r.
Qed.

Lemma mask_range v : 0 ≤ Z.land v COOLDOWN_MILLIS_MASK < 2 ^ 63.
Proof. rewrite COOLDOWN_MILLIS_MASK_eq, Z.land_ones by done. apply Z.mod_pos_bound. lia. Qed.

Lemma mask_small v : 0 ≤ v < 2 ^ 63 → Z.land v COOLDOWN_MILLIS_MASK = v.
Proof. intros. rewrite COOLDOWN_MILLIS_MASK_eq, Z.land_ones by done. by apply Z.mod_small. Qed.

Lemma mask_lor v : Z.land (Z.lor v HALF_OPEN_CLAIM) COOLDOWN_MILLIS_MASK
                   = Z.land v COOLDOWN_MILLIS_MASK.
Proof. rewrite Z.land_lor_distr_l. change (Z.land HALF_OPEN_CLAIM _) with 0. apply Z.lor_0_r. Qed.

Lemma duration_millis_range d : 0 ≤ d → 0 ≤ duration_millis d ≤ 2 ^ 63 - 2.
Proof.
  intros Hd. unfold duration_millis, as_millis, nanos_per_milli.
  pose proof (Z.div_pos d 1000000 Hd ltac:(lia)).
  change COOLDOWN_MILLIS_MASK with (2 ^ 63 - 1). case_match; lia.
Qed.

Lemma encode_millis_range d : 0 ≤ d → 1 ≤ encode_millis d < 2 ^ 63.
Proof.
  intros Hd%duration_millis_range. unfold encode_millis, sat_add, u64_max. lia.
Qed.

(** The packed cooldown word loses nothing: an encoded deadline is never
    the "no cooldown" word, carries no probe claim and decodes to its
    milliseconds, and setting or clearing the claim bit keeps the deadline. *)
Theorem cooldown_word_round_trip d (Hd : 0 ≤ d) :
  encode_millis d ≠ 0 ∧ half_open_claimed (encode_millis d) = false ∧
  decode_millis (encode_millis d) = duration_millis d ∧
  (let claimed := Z.lor (encode_millis d) HALF_OPEN_CLAIM in
   half_open_claimed claimed = true ∧ decode_millis claimed = duration_millis d ∧
   Z.land claimed COOLDOWN_MILLIS_MASK = encode_millis d).
Proof.
  pose proof (encode_millis_range d Hd) as He. pose proof (duration_millis_range d Hd).
  assert (Z.land (encode_millis d) COOLDOWN_MILLIS_MASK = encode_millis d) as Hm
    by (apply mask_small; lia).
  unfold decode_millis. cbv zeta. rewrite mask_lor, Hm, half_open_claimed_lor.
  rewrite half_open_claimed_small by lia.
  assert (encode_millis d = duration_millis d + 1) as E
    by (unfold encode_millis, sat_add, u64_max; lia).
  unfold sat_sub. split_and!; done || lia.
Qed.
Lemma cooldown_word_round_trip_witness :
  encode_millis 30000000000 ≠ 0 ∧ half_open_claimed (encode_millis 30000000000) = false ∧
  decode_millis (encode_millis 30000000000) = duration_millis 30000000000 ∧
  (let claimed := Z.lor (encode_millis 30000000000) HALF_OPEN_CLAIM in
   half_open_claimed claimed = true ∧ decode_millis claimed = duration_millis 30000000000 ∧
   Z.land claimed COOLDOWN_MILLIS_MASK = encode_millis 30000000000).
Proof. apply cooldown_word_round_trip. lia. Defined.

(** ** Operations without interference *)

(** Run a request alone for [n] accesses. *)
Fixpoint run_alone (n : nat) (st : ChannelState) (th : Thread) : ChannelState * Thread :=
  match n with
  | O => (st, th)
  | S n' => match thread_step st th with
            | Some (st', th') => run_alone n' st' th'
            | None => (st, th)
            end
  end.

Definition arriving (now : Z) : Thread := {| claim := 0; phase := AcquireLoad now |}.

(** [try_acquire] alone takes at most three accesses. *)
Lemma try_acquire_steps now st :
  run_alone 3 st (arriving now) =
    let '(st', r) := try_acquire now st in
    (st', match r with
          | Some c => {| claim := c; phase := Held |}
          | None => {| claim := 0; phase := Refused |}
          end).
Proof.
  unfold try_acquire. cbn [run_alone arriving thread_step phase claim].
  destruct (cooldown_state st =? 0) eqn:E0; [done|].
  destruct (refuses (cooldown_state st) now) eqn:Er; [done|].
  cbn [run_alone thread_step phase claim at_phase]. unfold swap_cooldown.
  rewrite Z.eqb_refl. done.
Qed.

Lemma connection_failed_steps threshold until st c :
  run_alone 2 st {| claim := c; phase := FailCount threshold until |}
  = (connection_failed threshold until st, {| claim := c; phase := Held |}).
Proof. unfold connection_failed. cbn -[sat_add]. by destruct (threshold <=? _). Qed.

Lemma response_headers_received_steps st c :
  run_alone 2 st {| claim := c; phase := HeadersFailures |}
  = (response_headers_received st, {| claim := c; phase := Held |}).
Proof. done. Qed.

Lemma probe_failed_steps until st c :
  run_alone 1 st {| claim := c; phase := ProbeSwap until |}
  = (probe_failed c until st, {| claim := c; phase := Held |}).
Proof. done. Qed.

Lemma drop_health_steps st c :
  run_alone 2 st {| claim := c; phase := DropRelease |}
  = ((drop_health c st).1, {| claim := c; phase := Dropped |}).
Proof. unfold drop_health. cbn. by destruct (c =? 0). Qed.

(** [is_usable] predicts the result of [try_acquire]. *)
Lemma is_usable_acquire now st : is_usable now st = true ↔ is_Some (try_acquire now st).2.
Proof.
  unfold is_usable, try_acquire, refuses. destruct (cooldown_state st =? 0); simpl; [naive_solver|].
  destruct (half_open_claimed _); simpl; [by split; [|intros []]|].
  rewrite Z.ltb_antisym. destruct (decode_millis _ <=? _); simpl; [naive_solver|].
  by split; [|intros []].
Qed.

(** ** The invariant of interleaved requests *)

(** Requests counted in [in_flight]. *)
Definition counted (p : Phase) : Z :=
  match p with
  | Held | FailCount _ _ | FailStore _ | HeadersFailures | HeadersCooldown | ProbeSwap _
  | DropRelease => 1
  | _ => 0
  end.
Definition holders (ths : list Thread) : Z := sum_over (λ th, counted th.(phase)) ths.

(** Requests that will still give back the claim they took. *)
Definition owns (p : Phase) : bool :=
  match p with
  | AcquireLoad _ | AcquireSwap _ _ | Refused | Dropped => false
  | _ => true
  end.
Definition owned (v : Z) (ths : list Thread) : Prop :=
  ∃ th, th ∈ ths ∧ owns th.(phase) = true ∧ th.(claim) = v.

Definition until_ok (p : Phase) : Prop :=
  match p with FailCount _ until | FailStore until | ProbeSwap until => 0 ≤ until | _ => True end.

Definition hinv (c : ChannelState * list Thread) : Prop :=
  c.1.(in_flight) = holders c.2 ∧
  (half_open_claimed c.1.(cooldown_state) = true → owned c.1.(cooldown_state) c.2) ∧
  Forall (λ th, until_ok th.(phase)) c.2.

Lemma holders_app l1 th l2 :
  holders (l1 ++ th :: l2) = counted th.(phase) + holders (l1 ++ l2).
Proof. unfold holders. rewrite !sum_over_app. simpl. lia. Qed.

Lemma holders_range ths : 0 ≤ holders ths ≤ Z.of_nat (length ths).
Proof.
  unfold holders. induction ths as [|th ths IH]; simpl; [lia|].
  destruct (phase th); simpl; lia.
Qed.

Lemma owned_replace v l1 th th' l2 :
  owned v (l1 ++ th :: l2) →
  (owns th.(phase) = true → th.(claim) = v → owns th'.(phase) = true ∧ th'.(claim) = v) →
  owned v (l1 ++ th' :: l2).
Proof.
  intros (o & Hin & Ho & Hc) Hth. apply elem_of_app in Hin as [Hin|Hin%elem_of_cons].
  - exists o. split; [apply elem_of_app; by left|done].
  - destruct Hin as [->|Hin].
    + exists th'. split; [apply elem_of_app; right; constructor|naive_solver].
    + exists o. split; [apply elem_of_app; right; by constructor|done].
Qed.

Lemma owned_here v l1 th l2 :
  owns th.(phase) = true → th.(claim) = v → owned v (l1 ++ th :: l2).
Proof. intros. exists th. split; [apply elem_of_app; right; constructor|done]. Qed.

(** The claim word after one access. *)
Lemma thread_step_owned st th st' th' l1 l2 :
  thread_step st th = Some (st', th') → until_ok th.(phase) →
  (half_open_claimed st.(cooldown_state) = true →
     owned st.(cooldown_state) (l1 ++ th :: l2)) →
  half_open_claimed st'.(cooldown_state) = true →
  owned st'.(cooldown_state) (l1 ++ th' :: l2).
Proof.
  intros Hstep Hu Hown Hcl.
  assert (∀ d, 0 ≤ d → half_open_claimed (encode_millis d) = true → False) as Henc.
  { intros d Hd. pose proof (encode_millis_range d Hd).
    by rewrite half_open_claimed_small by lia. }
  unfold thread_step, swap_cooldown in Hstep.
  destruct (phase th) as [now|now seen| | | |threshold until|until| | |until| | |] eqn:Hp;
    simplify_eq/=.
  - eapply owned_replace; [by apply Hown|]. by rewrite Hp.
  - destruct (_ =? seen); simplify_eq/=; [by apply owned_here|].
    eapply owned_replace; [by apply Hown|]. by rewrite Hp.
  - eapply owned_replace; [by apply Hown|]. done.
  - eapply owned_replace; [by apply Hown|]. by case_match.
  - by apply Henc in Hcl.
  - eapply owned_replace; [by apply Hown|]. done.
  - destruct (claim th =? 0); [|destruct (_ =? claim th); simpl in *; [by apply Henc in Hcl|]];
      (eapply owned_replace; [by apply Hown|done]).
  - eapply owned_replace; [by apply Hown|]. intros _ Hc. split; [|done].
    destruct (Z.eqb_spec (claim th) 0) as [Hz|]; [|done]. 
    by rewrite <- Hc, Hz, half_open_claimed_small in Hcl by lia.
  - destruct (Z.eqb_spec (cooldown_state st) (claim th)) as [He|Hne]; simpl in *.
    + rewrite half_open_claimed_small in Hcl by apply mask_range. done.
    + eapply owned_replace; [by apply Hown|]. congruence.
Qed.

Lemma wrap64_small z : 0 ≤ z < 2 ^ 64 → wrap64 z = z.
Proof. intros. unfold wrap64. by apply Z.mod_small. Qed.

Lemma thread_step_counted st th st' th' n :
  thread_step st th = Some (st', th') → st.(in_flight) = counted th.(phase) + n →
  0 ≤ n → n + 1 < 2 ^ 64 → st'.(in_flight) = counted th'.(phase) + n.
Proof.
  intros Hstep Hc Hn Hmax. unfold thread_step, swap_cooldown in Hstep.
  destruct (phase th); repeat case_match; simplify_eq/=;
    rewrite ?wrap64_small by lia; lia.
Qed.

Lemma thread_step_until st th st' th' :
  thread_step st th = Some (st', th') → until_ok th.(phase) → until_ok th'.(phase).
Proof.
  intros Hstep. unfold thread_step, swap_cooldown in Hstep.
  destruct (phase th); repeat case_match; simplify_eq/=; repeat case_match; done.
Qed.

Lemma hstep_hinv c c' : hstep c c' → hinv c → Z.of_nat (length c'.2) < 2 ^ 64 → hinv c'.
Proof.
  intros Hstep (Hc & Hown & Hu) Hlen.
  destruct Hstep as [st ths now Hnow|st l1 th l2 p Hp Hcall|st l1 th l2 st' th' Hstep|st ths b];
    simpl in *.
  - split_and!; [done| |by constructor]. intros (th & ? & ?)%Hown. exists th. split; [set_solver|done].
  - rewrite holders_app, Hp in Hc. apply Forall_app in Hu as [Hu1 Hu2%Forall_cons].
    split_and!; simpl.
    + rewrite holders_app, Hc. by destruct Hcall.
    + intros Hcl. eapply owned_replace; [by apply Hown|]. intros _ <-. by destruct Hcall.
    + apply Forall_app. split; [done|]. constructor; [by destruct Hcall|apply Hu2].
  - apply Forall_app in Hu as [Hu1 [Hth Hu2]%Forall_cons]. split_and!; simpl.
    + rewrite holders_app in *. pose proof (holders_range (l1 ++ l2)) as Hr.
      rewrite length_app in *. simpl in Hlen.
      eapply thread_step_counted; [done|done|lia|lia].
    + by eapply thread_step_owned.
    + apply Forall_app. split; [done|]. constructor; [by eapply thread_step_until|done].
  - done.
Qed.

Lemma reachable_hinv c : reachable c → hinv c.
Proof.
  induction 1 as [b|c c' _ IH Hstep Hlen]; [|by eapply hstep_hinv].
  split_and!; [done|done|constructor].
Qed.

(** C32: under any interleaving of the atomic accesses of any number of
    requests, the in-flight counter equals the number of leases held, and a
    half-open claim is never orphaned: while the claim bit is set, some request
    that took exactly this claim is still going to give it back. *)
Theorem health_invariant st ths (Hreach : reachable (st, ths)) :
  st.(in_flight) = holders ths ∧
  (half_open_claimed st.(cooldown_state) = true → owned st.(cooldown_state) ths).
Proof. apply reachable_hinv in Hreach as (Hc & Hown & _). done. Qed.

(** C33: a channel always recovers: once every request is over, no lease is
    counted and no claim is left, so the channel is usable (and a request
    acquires it) at every instant from its cooldown deadline on. *)
Theorem channel_recovers st ths now
    (Hreach : reachable (st, ths))
    (Hover : Forall (λ th, th.(phase) = Refused ∨ th.(phase) = Dropped) ths)
    (Hdeadline : decode_millis st.(cooldown_state) ≤ duration_millis now) :
  st.(in_flight) = 0 ∧ is_usable now st = true ∧ is_Some (try_acquire now st).2.
Proof.
  apply reachable_hinv in Hreach as (Hc & Hown & _). simpl in *.
  assert (holders ths = 0) as Hz.
  { unfold holders. clear -Hover. induction Hover as [|th ths [Hp|Hp]]; simpl; rewrite ?Hp; simpl; lia. }
  assert (half_open_claimed st.(cooldown_state) = false) as Hcl.
  { apply not_true_is_false. intros (th & Hin & Ho & _)%Hown. rewrite Forall_forall in Hover.
    by destruct (Hover th Hin) as [Hp|Hp]; rewrite Hp in Ho. }
  assert (is_usable now st = true) as Hus.
  { unfold is_usable. rewrite Hcl. simpl. rewrite (proj2 (Z.leb_le _ _)) by done.
    apply orb_true_r. }
  split_and!; [congruence|done|by apply is_usable_acquire].
Qed.

(** ** The health state machine of one channel *)

Lemma is_usable_open now st d :
  0 ≤ d → st.(cooldown_state) = encode_millis d →
  is_usable now st = (duration_millis d <=? duration_millis now).
Proof.
  intros Hd Hc. pose proof (encode_millis_range d Hd) as He.
  unfold is_usable, decode_millis. rewrite Hc, half_open_claimed_small, mask_small by lia.
  assert (encode_millis d = duration_millis d + 1) as E.
  { pose proof (duration_millis_range d Hd). unfold encode_millis, sat_add, u64_max. lia. }
  pose proof (duration_millis_range d Hd).
  rewrite (proj2 (Z.eqb_neq _ _)) by lia. simpl. unfold sat_sub. rewrite E.
  by replace (0 `max` (duration_millis d + 1 - 1)) with (duration_millis d) by lia.
Qed.

Lemma connection_failures_count threshold untils st :
  0 < threshold ≤ u32_max → st.(consecutive_connection_failures) = 0 →
  (foldl (λ s until, connection_failed threshold until s) st untils).(consecutive_connection_failures)
    = Z.min u32_max (Z.of_nat (length untils)) ∧
  (Z.of_nat (length untils) < threshold →
   (foldl (λ s until, connection_failed threshold until s) st untils).(cooldown_state)
     = st.(cooldown_state)).
Proof.
  intros Ht Hst. induction untils as [|u untils IH] using rev_ind.
  { simpl. rewrite Hst. unfold u32_max. split; [lia|done]. }
  rewrite foldl_app, length_app; simpl. destruct IH as [IHf IHc].
  set (s := foldl _ st untils) in *. unfold connection_failed. rewrite IHf.
  unfold sat_add, u32_max in *. split.
  - case_match; simpl; lia.
  - intros Hlt. rewrite (proj2 (Z.leb_gt _ _)) by lia. simpl. apply IHc. lia.
Qed.

(** After the last response headers, a channel stays usable until the
    configured number of connection failures in a row; from then on it is
    unusable exactly until the deadline of the latest failure. *)
Theorem failures_open_cooldown st threshold untils until now
    (Hthreshold : 0 < threshold ≤ u32_max) (Huntil : 0 ≤ until) :
  is_usable now (foldl (λ s u, connection_failed threshold u s)
                   (response_headers_received st) (untils ++ [until]))
  = (Z.of_nat (length untils) + 1 <? threshold)
    || (duration_millis until <=? duration_millis now).
Proof.
  pose proof (connection_failures_count threshold untils (response_headers_received st) Hthreshold
                eq_refl) as [Hf Hc].
  rewrite foldl_app; simpl. set (s := foldl _ _ untils) in *. unfold connection_failed. rewrite Hf.
  unfold sat_add, u32_max in *. destruct (Z.ltb_spec (Z.of_nat (length untils) + 1) threshold).
  - rewrite (proj2 (Z.leb_gt _ _)) by lia. simpl. unfold is_usable; simpl.
    by rewrite Hc by lia.
  - rewrite (proj2 (Z.leb_le _ _)) by lia. simpl. by apply is_usable_open.
Qed.
Lemma failures_open_cooldown_witness :
  is_usable 5000000 (foldl (λ s u, connection_failed 2 u s)
                       (response_headers_received (new_state true)) ([3000000] ++ [9000000]))
  = (Z.of_nat (length [3000000]) + 1 <? 2)
    || (duration_millis 9000000 <=? duration_millis 5000000).
Proof. apply failures_open_cooldown; [split; [reflexivity|discriminate]|lia]. Defined.

(** A half-open probe is exclusive and every way to end it is accounted
    for.  Once an acquisition has taken the claim, no other acquisition
    succeeds at any time; response headers reopen the channel for everybody; a
    failed probe closes it until the new deadline; dropping the lease without
    a verdict restores the state before the probe. *)
Theorem half_open_probe_exclusive st now st' c
    (Hword : word64 st.(cooldown_state)) (Hflight : 0 ≤ st.(in_flight) < 2 ^ 64 - 1)
    (Hacquire : try_acquire now st = (st', Some c)) (Hprobe : c ≠ 0) :
  (∀ later, (try_acquire later st').2 = None) ∧
  (∀ later, is_usable later (response_headers_received st') = true) ∧
  (∀ until later, 0 ≤ until →
     is_usable later (probe_failed c until st') = (duration_millis until <=? duration_millis later)) ∧
  (drop_health c st').1 = st.
Proof.
  unfold try_acquire in Hacquire. destruct (Z.eqb_spec (cooldown_state st) 0) as [|Hnz];
    [by simplify_eq|]. destruct (refuses (cooldown_state st) now) eqn:Hr; simplify_eq/=.
  unfold refuses in Hr. apply orb_false_iff in Hr as [Hcl _].
  assert (0 ≤ cooldown_state st < 2 ^ 63) as Hsmall.
  { rewrite half_open_claimed_testbit in Hcl. unfold word64 in Hword. split; [lia|].
    apply Z.nle_gt. intros Hge. apply not_true_iff_false in Hcl. apply Hcl, Z.testbit_true; [done|].
    assert (cooldown_state st / 2 ^ 63 = 1) as E by (Z.to_euclidean_division_equations; lia).
    by rewrite E. }
  pose proof (half_open_claimed_lor (cooldown_state st)) as Hc1.
  split_and!.
  - intros later. unfold try_acquire, refuses; simpl. rewrite Hc1. simpl.
    by destruct (_ =? 0) eqn:E; [breflect; rewrite E in Hc1|].
  - intros later. done.
  - intros u later Hu. unfold probe_failed, swap_cooldown; simpl.
    destruct (Z.eqb_spec (Z.lor (cooldown_state st) HALF_OPEN_CLAIM) 0); [done|].
    rewrite Z.eqb_refl. by apply is_usable_open.
  - unfold drop_health, swap_cooldown; simpl.
    destruct (Z.eqb_spec (Z.lor (cooldown_state st) HALF_OPEN_CLAIM) 0); [done|].
    rewrite Z.eqb_refl. simpl. rewrite mask_lor, mask_small by done.
    unfold count_down, count_up, set_in_flight, set_cooldown; simpl.
    rewrite (wrap64_small (in_flight st + 1)), wrap64_small by lia. destruct st; simpl.
    f_equal. lia.
Qed.

(** A cooled-down channel whose deadline has passed. *)
Definition expired_state : ChannelState :=
  {| in_flight := 0; consecutive_connection_failures := 3; cooldown_state := encode_millis 4000000;
     active := true |}.

Lemma half_open_probe_exclusive_witness :
  let c := Z.lor (encode_millis 4000000) HALF_OPEN_CLAIM in
  let st' := (try_acquire 5000000 expired_state).1 in
  (∀ later, (try_acquire later st').2 = None) ∧
  (∀ later, is_usable later (response_headers_received st') = true) ∧
  (∀ until later, 0 ≤ until →
     is_usable later (probe_failed c until st') = (duration_millis until <=? duration_millis later)) ∧
  (drop_health c st').1 = expired_state.
Proof.
  apply (half_open_probe_exclusive expired_state 5000000);
    [by split|split; [done|reflexivity]|reflexivity|discriminate].
Defined.

(** One request that was refused nothing and dropped its lease. *)
Lemma one_request_reachable :
  reachable (count_down (count_up (new_state true)), [{| claim := 0; phase := Dropped |}]).
Proof.
  eapply reachable_step; [|by apply (hstep_access (count_up (new_state true)) [] {| claim := 0; phase := DropRelease |} [])|done].
  eapply reachable_step; [|apply (hstep_call (count_up (new_state true)) [] {| claim := 0; phase := Held |} []); [done|constructor]|done].
  eapply reachable_step; [|by apply (hstep_access (new_state true) [] {| claim := 0; phase := AcquireCount |} [])|done].
  eapply reachable_step; [|by apply (hstep_access (new_state true) [] (arriving 1) [])|done].
  eapply reachable_step; [apply reachable_init|by apply (hstep_arrive (new_state true) [] 1)|done].
Qed.

Lemma health_invariant_witness :
  (count_down (count_up (new_state true))).(in_flight)
    = holders [{| claim := 0; phase := Dropped |}] ∧
  (half_open_claimed (count_down (count_up (new_state true))).(cooldown_state) = true →
   owned (count_down (count_up (new_state true))).(cooldown_state) [{| claim := 0; phase := Dropped |}]).
Proof. apply health_invariant. apply one_request_reachable. Defined.

Lemma channel_recovers_witness :
  (count_down (count_up (new_state true))).(in_flight) = 0 ∧
  is_usable 1 (count_down (count_up (new_state true))) = true ∧
  is_Some (try_acquire 1 (count_down (count_up (new_state true)))).2.
Proof.
  apply (channel_recovers _ [{| claim := 0; phase := Dropped |}]);
    [apply one_request_reachable|repeat constructor; by right|vm_compute; discriminate].
Defined.
