(* ===== verification/Selection.v ===== *)
(** * Weighted selection within a tier

    Models the entropy source [ProcessEntropy], [weighted_ticket] and
    [smooth_round_robin] of [src/routing/mod.rs], over an abstract candidate
    type with its weight and identity.  Whether a candidate is eligible may
    change between two inspections by the same call, because other requests
    move the health of the channels: [weighted_ticket] takes the eligibility
    each of its scans observes as an argument, so its theorems cover every
    interleaving. *)

From S2P Require Import Prelude.

(** ** Entropy *)

Definition GAMMA : Z := 0x9e3779b97f4a7c15.

Definition xor_shift (k z : Z) : Z := Z.lxor z (Z.shiftr z k).
Definition mix (next : Z) : Z :=
  let z := wrap64 (xor_shift 30 next * 0xbf58476d1ce4e5b9) in
  let z := wrap64 (xor_shift 27 z * 0x94d049bb133111eb) in
  xor_shift 31 z.

(** The atomic update of [ProcessEntropy::next_u64]: the new state and the
    value returned.  The [compare_exchange_weak] loop retries until its update
    is the one applied, so calls are totally ordered. *)
Definition next_u64 (value : Z) : Z * Z :=
  let next := wrap64 (value + GAMMA) in (next, mix next).

Section selection.
Context {C : Type} (weight : C → Z).

(** ** Weighted tickets *)

Definition total_weight (cs : list C) : Z := sum_over weight cs.

Definition ticket_zone (total : Z) : Z := u64_max - u64_max mod total.

(** The rejection loop: draw until the value lies below the zone. *)
Fixpoint draw_ticket (fuel : nat) (entropy total : Z) : option (Z * Z) :=
  match fuel with
  | O => None
  | S fuel' =>
      let '(entropy', value) := next_u64 entropy in
      if value <? ticket_zone total then Some (entropy', value mod total)
      else draw_ticket fuel' entropy' total
  end.

(** The selection pass: the weight observed and the candidate selected. *)
Fixpoint ticket_pass (eligible : C → bool) (cs : list C)
    (remaining observed : Z) (selected : option C) : Z * option C :=
  match cs with
  | [] => (observed, selected)
  | c :: cs' =>
      if negb (eligible c) then ticket_pass eligible cs' remaining observed selected
      else
        let observed' := observed + weight c in
        match selected with
        | None =>
            if remaining <? weight c
            then ticket_pass eligible cs' remaining observed' (Some c)
            else ticket_pass eligible cs' (remaining - weight c) observed' None
        | Some _ => ticket_pass eligible cs' remaining observed' selected
        end
  end.

(** [eligible n] is what the [n]-th scan of the call observes: rounds take two
    scans each.  [rounds] bounds the outer loop, [draws] each rejection loop;
    [None] means one of them ran out. *)
Fixpoint weighted_ticket (rounds draws : nat) (eligible : nat → C → bool) (scan : nat)
    (cs : list C) (entropy : Z) : option (Z * option C) :=
  match rounds with
  | O => None
  | S rounds' =>
      let total := total_weight (filter (λ c, eligible scan c = true) cs) in
      if total =? 0 then Some (entropy, None)
      else
        match draw_ticket draws entropy total with
        | None => None
        | Some (entropy', ticket) =>
            let '(observed, selected) := ticket_pass (eligible (S scan)) cs ticket 0 None in
            if observed =? total then Some (entropy', selected)
            else weighted_ticket rounds' draws eligible (S (S scan)) cs entropy'
        end
  end.

(** ** Smooth weighted round robin *)

Context {K : Type} `{Countable K} (identity : C → K).

Fixpoint round_robin_scan (eligible : C → bool) (cs : list C)
    (current : gmap K Z) (total : Z) (winner : option (C * Z)) : gmap K Z * Z * option (C * Z) :=
  match cs with
  | [] => (current, total, winner)
  | c :: cs' =>
      if negb (eligible c) then round_robin_scan eligible cs' current total winner
      else
        let value := default 0 (current !! identity c) + weight c in
        let winner' :=
          if is_none_or winner (λ w, w.2 <? value) then Some (c, value) else winner in
        round_robin_scan eligible cs' (<[identity c := value]> current)
          (total + weight c) winner'
  end.

(** The updated cursor and the winner. *)
Definition smooth_round_robin (eligible : C → bool) (cs : list C) (current : gmap K Z)
  : gmap K Z * option C :=
  let '(current', total, winner) := round_robin_scan eligible cs current 0 None in
  match winner with
  | None => (current', None)
  | Some (c, _) => (alter (λ v, v - total) (identity c) current', Some c)
  end.
End selection.

(** ** The entropy source *)

Lemma xor_shift_inj k a b :
  0 < k → 0 ≤ a → 0 ≤ b → xor_shift k a = xor_shift k b → a = b.
Proof.
  intros Hk Ha Hb Heq. unfold xor_shift in Heq. apply Z.lxor_eq.
  set (d := Z.lxor a b). assert (0 ≤ d) by (apply Z.lxor_nonneg; lia).
  assert (Z.lxor d (Z.shiftr d k) = 0) as Hd.
  { unfold d. rewrite Z.shiftr_lxor.
    transitivity (Z.lxor (Z.lxor a (Z.shiftr a k)) (Z.lxor b (Z.shiftr b k))).
    - apply Z.bits_inj'. intros n Hn. rewrite !Z.lxor_spec.
      destruct (Z.testbit a n), (Z.testbit b n), (Z.testbit (a ≫ k) n), (Z.testbit (b ≫ k) n); done.
    - rewrite Heq. apply Z.lxor_nilpotent. }
  apply Z.lxor_eq in Hd. rewrite Z.shiftr_div_pow2 in Hd by lia.
  pose proof (Z.pow_gt_1 2 k ltac:(lia)) as [Hp _].
  destruct (decide (d = 0)) as [|Hne]; [done|].
  pose proof (Z.div_lt d (2 ^ k) ltac:(lia) ltac:(lia)). lia.
Qed.

Lemma xor_shift_range k z : 0 < k → word64 z → word64 (xor_shift k z).
Proof.
  intros Hk Hz. unfold word64, xor_shift in *.
  assert (0 ≤ Z.shiftr z k) by (apply Z.shiftr_nonneg; lia).
  assert (0 ≤ Z.lxor z (Z.shiftr z k)) by (apply Z.lxor_nonneg; lia). split; [done|].
  destruct (decide (Z.lxor z (Z.shiftr z k) = 0)) as [->|]; [done|].
  apply Z.log2_lt_pow2; [lia|]. eapply Z.le_lt_trans; [apply Z.log2_lxor; lia|].
  assert (Z.log2 z < 64).
  { destruct (decide (z = 0)) as [->|]; [done|]. apply Z.log2_lt_pow2; lia. }
  apply Z.max_lub_lt; [done|]. apply Z.le_lt_trans with (Z.log2 z); [|done].
  apply Z.log2_le_mono. rewrite Z.shiftr_div_pow2 by lia.
  pose proof (Z.pow_gt_1 2 k ltac:(lia)) as [Hp _]. apply Z.div_le_upper_bound; nia.
Qed.

Lemma wrap64_range z : word64 (wrap64 z).
Proof. unfold word64, wrap64. apply Z.mod_pos_bound. lia. Qed.

(** Multiplication by a unit of [Z / 2^64] is injective. *)
Lemma wrap64_mul_inj c inv a b :
  wrap64 (c * inv) = 1 → word64 a → word64 b → wrap64 (a * c) = wrap64 (b * c) → a = b.
Proof.
  intros Hu Ha Hb Heq. unfold wrap64, word64 in *.
  assert (∀ x, 0 ≤ x < 2 ^ 64 → (((x * c) mod 2 ^ 64) * inv) mod 2 ^ 64 = x) as Hx.
  { intros x Hx. rewrite Zmult_mod_idemp_l, <- Z.mul_assoc, <- Zmult_mod_idemp_r, Hu, Z.mul_1_r.
    by apply Z.mod_small. }
  by rewrite <- (Hx a), <- (Hx b), Heq.
Qed.

Lemma mix_inj a b : word64 a → word64 b → mix a = mix b → a = b.
Proof.
  intros Ha Hb Heq. unfold mix in Heq.
  apply xor_shift_inj in Heq; [|done|apply wrap64_range..].
  apply (wrap64_mul_inj _ 3573116690164977347) in Heq;
    [|vm_compute; reflexivity|apply xor_shift_range; [done|apply wrap64_range]..].
  apply xor_shift_inj in Heq; [|done|apply wrap64_range..].
  apply (wrap64_mul_inj _ 10871156337175269513) in Heq;
    [|vm_compute; reflexivity|by apply xor_shift_range..].
  apply xor_shift_inj in Heq; [done|done|unfold word64 in *; lia..].
Qed.

Lemma mix_range a : word64 a → word64 (mix a).
Proof. intros. unfold mix. apply xor_shift_range; [done|]. apply wrap64_range. Qed.

(** The state after [n] draws. *)
Definition entropy_after (n s : Z) : Z := wrap64 (s + n * GAMMA).

Lemma entropy_after_next n s : wrap64 (entropy_after n s + GAMMA) = entropy_after (n + 1) s.
Proof. unfold entropy_after, wrap64. rewrite Zplus_mod_idemp_l. f_equal. lia. Qed.

Lemma entropy_after_shift n s : entropy_after (n + 1) s = entropy_after n (s + GAMMA).
Proof. unfold entropy_after. f_equal. lia. Qed.

Lemma entropy_after_0 s : word64 s → entropy_after 0 s = s.
Proof. intros. unfold entropy_after, wrap64. rewrite Z.add_0_r. by apply Z.mod_small. Qed.

Lemma entropy_after_inj s i j :
  word64 i → word64 j → entropy_after i s = entropy_after j s → i = j.
Proof.
  intros Hi Hj Heq. unfold entropy_after in Heq.
  apply (wrap64_mul_inj GAMMA 17428512612931826493); [vm_compute; reflexivity|done|done|].
  unfold wrap64 in *. apply (f_equal (λ x, (x - s) mod 2 ^ 64)) in Heq.
  rewrite !Zminus_mod_idemp_l in Heq. by rewrite !Z.add_simpl_l in Heq.
Qed.

(** The values of the entropy source do not repeat within [2^64] draws:
    each state yields a different value, so every 64-bit value is drawn once
    per period, whatever the seed. *)
Theorem entropy_full_period s i j
    (Hi : word64 i) (Hj : word64 j)
    (Heq : (next_u64 (entropy_after i s)).2 = (next_u64 (entropy_after j s)).2) : i = j.
Proof.
  unfold next_u64 in Heq; simpl in Heq. apply mix_inj in Heq; [|apply wrap64_range..].
  apply (f_equal (λ x, wrap64 (x - GAMMA))) in Heq. unfold wrap64 in Heq.
  rewrite !Zminus_mod_idemp_l, !Z.add_simpl_r in Heq. unfold entropy_after, wrap64 in Heq.
  rewrite !Z.mod_mod in Heq by lia. by apply (entropy_after_inj s).
Qed.
Lemma entropy_full_period_witness : 5 = 5.
Proof. apply (entropy_full_period 42 5 5); [done|done|reflexivity]. Defined.

(** ** The rejection loop *)

Lemma ticket_zone_spec total :
  0 < total ≤ u64_max →
  0 < ticket_zone total ≤ u64_max ∧ (total | ticket_zone total) ∧
  2 ^ 64 - ticket_zone total ≤ total.
Proof.
  intros Ht. unfold ticket_zone. pose proof (Z.mod_pos_bound u64_max total ltac:(lia)) as Hm.
  pose proof (Z.div_mod u64_max total ltac:(lia)) as Hdm.
  assert (1 ≤ u64_max / total) by (apply Z.div_le_lower_bound; lia).
  split_and!; [nia|lia|exists (u64_max / total); lia|unfold u64_max in *; lia].
Qed.

Lemma draw_ticket_None fuel s total n :
  draw_ticket fuel (entropy_after n s) total = None →
  ∀ i, (i < fuel)%nat → ticket_zone total ≤ mix (entropy_after (n + 1 + Z.of_nat i) s).
Proof.
  revert n. induction fuel as [|fuel IH]; intros n Hd i Hi; [lia|]. simpl in Hd.
  rewrite entropy_after_next in Hd. destruct (Z.ltb_spec (mix (entropy_after (n + 1) s)) (ticket_zone total));
    [done|]. destruct i as [|i]; [by rewrite Z.add_0_r|].
  replace (n + 1 + Z.of_nat (S i)) with (n + 1 + 1 + Z.of_nat i) by lia. apply IH; [done|lia].
Qed.

Lemma draw_ticket_mono fuel fuel' s total r :
  draw_ticket fuel s total = Some r → (fuel ≤ fuel')%nat → draw_ticket fuel' s total = Some r.
Proof.
  revert fuel' s. induction fuel as [|fuel IH]; intros fuel' s Hd Hle; [done|].
  destruct fuel' as [|fuel']; [lia|]. simpl in *. case_match; [done|]. apply IH; [done|lia].
Qed.

Lemma draw_ticket_total fuel s total :
  0 < total ≤ u64_max → word64 s → total < Z.of_nat fuel → is_Some (draw_ticket fuel s total).
Proof.
  intros Ht Hs Hfuel. pose proof (ticket_zone_spec total Ht) as (Hz & _ & Hgap).
  set (n := S (Z.to_nat total)). destruct (draw_ticket n s total) as [r|] eqn:Hd;
    [exists r; eapply draw_ticket_mono; [done|lia]|exfalso].
  rewrite <- (entropy_after_0 s Hs) in Hd. pose proof (draw_ticket_None _ _ _ _ Hd) as Hrej.
  set (values := (λ i, mix (entropy_after (Z.of_nat i + 1) s)) <$> seq 0 n).
  assert (Z.of_nat (length values) ≤ 2 ^ 64 - ticket_zone total) as Hlen.
  { apply NoDup_interval_length.
    - apply NoDup_fmap_2_strong; [|apply NoDup_seq]. intros i j Hi%elem_of_seq Hj%elem_of_seq Heq.
      apply mix_inj in Heq; [|apply wrap64_range..].
      rewrite !entropy_after_shift in Heq. unfold u64_max in Ht.
      apply entropy_after_inj in Heq; [lia|unfold word64; lia..].
    - unfold u64_max in Hz; lia.
    - intros x (i & -> & Hi%elem_of_seq)%list_elem_of_fmap.
      split; [|apply mix_range, wrap64_range].
      replace (Z.of_nat i + 1) with (0 + 1 + Z.of_nat i) by lia. apply Hrej. lia. }
  unfold values in Hlen. rewrite length_fmap, length_seq in Hlen. lia.
Qed.

Lemma draw_ticket_word64 fuel s total s' ticket :
  draw_ticket fuel s total = Some (s', ticket) → word64 s'.
Proof.
  revert s. induction fuel as [|fuel IH]; intros s Hd; [done|]. simpl in Hd.
  case_match; [|by eapply IH]. simplify_eq. apply wrap64_range.
Qed.

Lemma draw_ticket_range fuel s total s' ticket :
  0 < total → draw_ticket fuel s total = Some (s', ticket) → 0 ≤ ticket < total ∧ word64 s'.
Proof.
  intros Ht. revert s. induction fuel as [|fuel IH]; intros s Hd; [done|]. simpl in Hd.
  case_match; [|by eapply IH]. simplify_eq. split; [by apply Z.mod_pos_bound|apply wrap64_range].
Qed.

(** ** Tickets *)

Section tickets.
Context {C : Type} (weight : C → Z).
Implicit Types (cs es : list C) (eligible : C → bool).

(** The reference definition: the candidate in whose share the ticket lies
    when the shares are laid out one after the other. *)
Fixpoint ticket_owner es (ticket : Z) : option C :=
  match es with
  | [] => None
  | c :: es' => if ticket <? weight c then Some c else ticket_owner es' (ticket - weight c)
  end.

Definition eligible_of eligible cs : list C := filter (λ c, eligible c = true) cs.

Lemma eligible_of_cons eligible c cs :
  eligible_of eligible (c :: cs)
  = if eligible c then c :: eligible_of eligible cs else eligible_of eligible cs.
Proof. unfold eligible_of. rewrite filter_cons. destruct (eligible c); case_decide; done. Qed.

Lemma eligible_of_elem eligible cs c : c ∈ eligible_of eligible cs ↔ eligible c = true ∧ c ∈ cs.
Proof. unfold eligible_of. by rewrite list_elem_of_filter. Qed.

Lemma ticket_pass_selected eligible cs remaining observed c :
  ticket_pass weight eligible cs remaining observed (Some c)
  = (observed + total_weight weight (eligible_of eligible cs), Some c).
Proof.
  revert observed. induction cs as [|d cs IH]; intros observed; [simpl; f_equal; unfold total_weight; simpl; lia|].
  rewrite eligible_of_cons. simpl. destruct (eligible d); simpl; rewrite IH; [|done].
  unfold total_weight; simpl. f_equal. lia.
Qed.

Lemma ticket_pass_spec eligible cs remaining observed :
  ticket_pass weight eligible cs remaining observed None
  = (observed + total_weight weight (eligible_of eligible cs),
     ticket_owner (eligible_of eligible cs) remaining).
Proof.
  revert remaining observed. induction cs as [|d cs IH]; intros remaining observed.
  { simpl. unfold total_weight; simpl. f_equal. lia. }
  rewrite eligible_of_cons. simpl. destruct (eligible d); simpl; [|apply IH].
  unfold total_weight in *. simpl.
  destruct (remaining <? weight d); rewrite ?ticket_pass_selected, ?IH; f_equal;
    unfold total_weight; lia.
Qed.

Lemma ticket_owner_Some es ticket :
  Forall (λ c, 0 ≤ weight c) es → 0 ≤ ticket < total_weight weight es →
  ∃ c, ticket_owner es ticket = Some c ∧ c ∈ es ∧ 0 < weight c.
Proof.
  revert ticket. induction es as [|d es IH]; intros ticket Hw Ht; unfold total_weight in *;
    simpl in *; [lia|]. apply Forall_cons in Hw as [Hd Hw].
  destruct (Z.ltb_spec ticket (weight d)) as [Hlt|Hge].
  - exists d. split_and!; [done|constructor|lia].
  - destruct (IH (ticket - weight d) Hw ltac:(lia)) as (c & -> & Hin & Hc).
    exists c. split_and!; [done|by constructor|done].
Qed.

Context `{EqDecision C}.

(** Tickets below the total that select [c]. *)
Lemma ticket_owner_share es c :
  NoDup es → Forall (λ c, 0 ≤ weight c) es → c ∈ es →
  sum_over (λ t, if decide (ticket_owner es t = Some c) then 1 else 0)
    (seqZ 0 (total_weight weight es)) = weight c.
Proof.
  induction es as [|d es IH]; intros Hnd Hw Hc; [by apply elem_of_nil in Hc|].
  apply NoDup_cons in Hnd as [Hnot Hnd]. apply Forall_cons in Hw as [Hd Hw].
  unfold total_weight in *. simpl.
  assert (0 ≤ sum_over weight es) by (apply sum_over_nonneg; by apply Forall_forall).
  rewrite seqZ_app, sum_over_app by lia.
  rewrite (sum_over_ext _ (λ _, if decide (d = c) then 1 else 0) (seqZ 0 (weight d))).
  2:{ intros t Ht%elem_of_seqZ. rewrite (proj2 (Z.ltb_lt _ _)) by lia.
      repeat case_decide; naive_solver. }
  rewrite sum_over_const, length_seqZ, sum_over_seqZ_shift.
  rewrite (sum_over_ext _ (λ t, if decide (ticket_owner es t = Some c) then 1 else 0)
             (seqZ 0 (sum_over weight es))).
  2:{ intros t Ht%elem_of_seqZ. rewrite (proj2 (Z.ltb_ge _ _)) by lia.
      by replace (0 + weight d + t - weight d) with t by lia. }
  apply elem_of_cons in Hc as [->|Hc].
  - rewrite decide_True by done. rewrite (sum_over_ext _ (λ _, 0)), sum_over_const; [lia|].
    intros t Ht%elem_of_seqZ. rewrite decide_False; [done|]. intros Hown.
    destruct (ticket_owner_Some es t Hw) as (c & Hc & Hin & _); [unfold total_weight; lia|].
    congruence.
  - rewrite IH by done. rewrite decide_False; [lia|]. by intros ->.
Qed.

(** [1] if the ticket selects [c], [0] otherwise. *)
Definition selects eligible cs c (ticket : Z) : Z :=
  if decide ((ticket_pass weight eligible cs ticket 0 None).2 = Some c) then 1 else 0.

(** The weighted draw is exactly proportional: among the 64-bit values
    below the zone (the values the rejection loop keeps), every eligible
    candidate is selected by [zone / total] times its weight of them. *)
Theorem weighted_draw_proportional eligible cs c
    (Hnodup : NoDup cs) (Hweights : Forall (λ c, 0 ≤ weight c) cs)
    (Hc : c ∈ cs) (Heligible : eligible c = true)
    (Htotal : 0 < total_weight weight (filter (λ c, eligible c = true) cs) ≤ u64_max) :
  let total := total_weight weight (filter (λ c, eligible c = true) cs) in
  sum_over (λ v, selects eligible cs c (v mod total)) (seqZ 0 (ticket_zone total))
  = (ticket_zone total / total) * weight c.
Proof.
  intros total. fold (eligible_of eligible cs) in *. fold total in Htotal.
  destruct (ticket_zone_spec total Htotal) as (Hz & [q Hq] & _).
  assert (0 ≤ q) by nia. rewrite Hq, Z.div_mul by lia. rewrite <- (Z2Nat.id q) by lia.
  rewrite (sum_over_residues (selects eligible cs c)) by lia. f_equal. rewrite (sum_over_ext _
    (λ t, if decide (ticket_owner (eligible_of eligible cs) t = Some c) then 1 else 0)).
  - apply ticket_owner_share.
    + by apply NoDup_filter.
    + apply Forall_forall. intros d [_ Hd]%eligible_of_elem.
      rewrite Forall_forall in Hweights. auto.
    + by apply eligible_of_elem.
  - intros t _. unfold selects. by rewrite ticket_pass_spec.
Qed.

Lemma total_weight_zero es :
  Forall (λ c, 0 ≤ weight c) es → total_weight weight es = 0 → Forall (λ c, weight c = 0) es.
Proof.
  unfold total_weight. induction 1 as [|c es Hc Hes IH]; simpl; intros Hz; [done|].
  assert (0 ≤ sum_over weight es) by (apply sum_over_nonneg; by apply Forall_forall).
  constructor; [lia|]. apply IH. lia.
Qed.

Lemma eligible_weights eligible cs :
  Forall (λ c, 0 ≤ weight c) cs → Forall (λ c, 0 ≤ weight c) (eligible_of eligible cs).
Proof.
  rewrite !Forall_forall. intros Hw c [_ Hc]%eligible_of_elem. auto.
Qed.

Lemma total_weight_eligible eligible cs :
  Forall (λ c, 0 ≤ weight c) cs →
  0 ≤ total_weight weight (eligible_of eligible cs) ≤ total_weight weight cs.
Proof.
  unfold total_weight. induction 1 as [|c cs Hc _ IH]; [done|].
  rewrite eligible_of_cons. destruct (eligible c); simpl; lia.
Qed.

(** Whatever other requests do to the health of the channels during the
    call, [weighted_ticket] returns only a candidate of the tier that its
    selection pass saw eligible and whose weight is positive; and it returns
    nothing only if one of its scans saw no eligible candidate of positive
    weight. *)
Theorem weighted_ticket_sound rounds draws (eligible : nat → C → bool) scan cs entropy entropy' r
    (Hweights : Forall (λ c, 0 ≤ weight c) cs)
    (Hrun : weighted_ticket weight rounds draws eligible scan cs entropy = Some (entropy', r)) :
  match r with
  | Some c => c ∈ cs ∧ 0 < weight c ∧ ∃ n, (scan < n)%nat ∧ eligible n c = true
  | None => ∃ n, (scan ≤ n)%nat ∧ ∀ c, c ∈ cs → eligible n c = true → weight c = 0
  end.
Proof.
  revert scan entropy Hrun. induction rounds as [|rounds IH]; intros scan entropy Hrun; [done|].
  simpl in Hrun. fold (eligible_of (eligible scan) cs) in Hrun.
  set (total := total_weight weight (eligible_of (eligible scan) cs)) in *.
  pose proof (eligible_weights (eligible scan) cs Hweights) as Hw.
  destruct (Z.eqb_spec total 0) as [Hz|Hnz].
  { simplify_eq. exists scan. split; [lia|]. intros c Hc He.
    pose proof (total_weight_zero _ Hw Hz) as Hall. rewrite Forall_forall in Hall.
    by apply Hall, eligible_of_elem. }
  assert (0 < total).
  { assert (0 ≤ total) by (apply sum_over_nonneg; by apply Forall_forall). lia. }
  destruct (draw_ticket draws entropy total) as [[e ticket]|] eqn:Hd; [|done].
  apply draw_ticket_range in Hd as [Ht _]; [|done]. rewrite ticket_pass_spec, Z.add_0_l in Hrun.
  destruct (Z.eqb_spec (total_weight weight (eligible_of (eligible (S scan)) cs)) total) as [Heq|Hne].
  - destruct (ticket_owner_Some (eligible_of (eligible (S scan)) cs) ticket) as (c & Hc & Hin & Hpos);
      [by apply eligible_weights|lia|]. simplify_eq. rewrite Hc.
    apply eligible_of_elem in Hin as [He Hin]. split_and!; [done|done|]. exists (S scan). auto.
  - apply IH in Hrun. destruct r as [c|].
    + destruct Hrun as (? & ? & n & ? & ?). split_and!; [done|done|]. exists n. auto with lia.
    + destruct Hrun as (n & ? & ?). exists n. split; [lia|done].
Qed.

(** [weighted_ticket] terminates once the health of the channels stops
    changing: with more rounds than scans before that point, and more draws
    than the total weight (at most that many values can be rejected), it
    returns. *)
Theorem weighted_ticket_terminates rounds draws (eligible : nat → C → bool) stable scan cs entropy
    (Hweights : Forall (λ c, 0 ≤ weight c) cs) (Htotal : total_weight weight cs ≤ u64_max)
    (Hentropy : word64 entropy)
    (Hstable : ∀ n c, (stable ≤ n)%nat → eligible n c = eligible stable c)
    (Hrounds : (0 < rounds ∧ stable < scan + rounds)%nat)
    (Hdraws : total_weight weight cs < Z.of_nat draws) :
  is_Some (weighted_ticket weight rounds draws eligible scan cs entropy).
Proof.
  revert scan entropy Hentropy Hrounds.
  induction rounds as [|rounds IH]; intros scan entropy Hentropy Hrounds; [lia|].
  simpl. fold (eligible_of (eligible scan) cs).
  set (total := total_weight weight (eligible_of (eligible scan) cs)) in *.
  assert (0 ≤ total ≤ total_weight weight cs) as Hle.
  { by apply total_weight_eligible. }
  destruct (Z.eqb_spec total 0) as [Hz|Hnz]; [eauto|].
  destruct (draw_ticket_total draws entropy total) as [[e ticket] Hd]; [lia|done|lia|].
  rewrite Hd. apply draw_ticket_range in Hd as [_ He]; [|lia].
  rewrite ticket_pass_spec, Z.add_0_l.
  destruct (decide (stable ≤ scan)%nat) as [Hs|Hs].
  - assert (eligible_of (eligible (S scan)) cs = eligible_of (eligible scan) cs) as ->.
    { unfold eligible_of. apply list_filter_iff. intros c.
      by rewrite (Hstable (S scan) c), (Hstable scan c) by lia. }
    fold total. rewrite Z.eqb_refl. eauto.
  - destruct (_ =? total); [eauto|]. apply IH; [done|lia].
Qed.
End tickets.

Module SelectionExample.
(** Three candidates, named by their position. *)
Definition candidates : list nat := [0; 1; 2]%nat.
Definition weight (c : nat) : Z := match c with 0%nat => 5 | 1%nat => 1 | _ => 1 end.
Definition eligible (c : nat) : bool := true.

Lemma weights_nonneg : Forall (λ c, 0 ≤ weight c) candidates.
Proof. apply Forall_forall. by intros [|[|c]] _. Qed.
End SelectionExample.

Lemma weighted_draw_proportional_witness :
  let total := total_weight SelectionExample.weight
                 (filter (λ c, SelectionExample.eligible c = true) SelectionExample.candidates) in
  sum_over (λ v, selects SelectionExample.weight SelectionExample.eligible
                   SelectionExample.candidates 0%nat (v mod total)) (seqZ 0 (ticket_zone total))
  = (ticket_zone total / total) * SelectionExample.weight 0%nat.
Proof.
  apply weighted_draw_proportional;
    [apply (bool_decide_unpack _); vm_compute; exact I|apply SelectionExample.weights_nonneg
    |constructor|reflexivity|by split].
Defined.

Lemma weighted_ticket_sound_witness :
  1%nat ∈ SelectionExample.candidates ∧ 0 < SelectionExample.weight 1%nat ∧
  ∃ n, (0 < n)%nat ∧ SelectionExample.eligible 1%nat = true.
Proof.
  apply (weighted_ticket_sound SelectionExample.weight 1 8 (λ _, SelectionExample.eligible) 0
           SelectionExample.candidates 42 (next_u64 42).1 (Some 1%nat));
    [apply SelectionExample.weights_nonneg|vm_compute; reflexivity].
Defined.

Lemma weighted_ticket_terminates_witness :
  is_Some (weighted_ticket SelectionExample.weight 1 8 (λ _, SelectionExample.eligible) 0
             SelectionExample.candidates 42).
Proof.
  apply (weighted_ticket_terminates _ 1 8 _ 0);
    [apply SelectionExample.weights_nonneg|discriminate|by split|done|lia|reflexivity].
Defined.

(** ** Smooth round robin *)

Section round_robin.
Context {C K : Type} `{Countable K} (weight : C → Z) (identity : C → K).
Context (eligible : C → bool) (cs : list C).
Implicit Types (current : gmap K Z) (es : list C).

Definition cursor current (c : C) : Z := default 0 (current !! identity c).

Lemma round_robin_scan_eligible es current total winner :
  round_robin_scan weight identity eligible es current total winner
  = round_robin_scan weight identity (λ _, true) (eligible_of eligible es) current total winner.
Proof.
  revert current total winner. induction es as [|c es IH]; intros; [done|].
  rewrite eligible_of_cons. simpl. destruct (eligible c); simpl; apply IH.
Qed.

Lemma round_robin_scan_spec es current total winner current' total' winner' :
  NoDup (identity <$> es) →
  round_robin_scan weight identity (λ _, true) es current total winner = (current', total', winner') →
  total' = total + total_weight weight es ∧
  (∀ d, d ∈ es → current' !! identity d = Some (cursor current d + weight d)) ∧
  (∀ k, k ∉ identity <$> es → current' !! k = current !! k) ∧
  (∀ d, d ∈ es → ∃ p, winner' = Some p ∧ cursor current d + weight d ≤ p.2) ∧
  (∀ p, winner = Some p → ∃ p', winner' = Some p' ∧ p.2 ≤ p'.2) ∧
  (∀ p, winner' = Some p → winner = Some p ∨ (p.1 ∈ es ∧ p.2 = cursor current p.1 + weight p.1)).
Proof.
  revert current total winner. induction es as [|c es IH]; intros current total winner Hnd Hrun.
  { simpl in Hrun. simplify_eq. unfold total_weight; simpl.
    split_and!; [lia|set_solver|done|set_solver|naive_solver lia|by left]. }
  rewrite fmap_cons in Hnd. apply NoDup_cons in Hnd as [Hc Hnd]. simpl in Hrun.
  fold (cursor current c) in Hrun.
  set (v := cursor current c + weight c) in *. set (w := if is_none_or _ _ then _ else _) in Hrun.
  apply IH in Hrun as (-> & Hval & Hout & Hmax & Hwin & Hfrom); [|done].
  assert (∀ d, d ∈ es → cursor (<[identity c:=v]> current) d = cursor current d) as Hcur.
  { intros d Hd. unfold cursor. rewrite lookup_insert_ne; [done|]. intros Heq. apply Hc.
    rewrite Heq. by apply list_elem_of_fmap_2. }
  assert (∃ p, w = Some p ∧ v ≤ p.2 ∧ (p = (c, v) ∨ winner = Some p) ∧
               ∀ q, winner = Some q → q.2 ≤ p.2) as (p & Hp & Hvp & Hpc & Hpw).
  { unfold w. destruct winner as [q|]; simpl.
    - destruct (Z.ltb_spec q.2 v); eexists; (split; [done|]); simpl;
        split_and!; [lia|by left|naive_solver lia|lia|by right|naive_solver lia].
    - exists (c, v). split_and!; [done|simpl; lia|by left|done]. }
  unfold total_weight in *. split_and!; simpl.
  - lia.
  - intros d [->|Hd]%elem_of_cons; [|by rewrite <- Hcur; auto].
    rewrite Hout by done. apply lookup_insert_eq.
  - intros k Hk. apply not_elem_of_cons in Hk as [Hne Hk]. rewrite Hout by done.
    by apply lookup_insert_ne.
  - intros d [->|Hd]%elem_of_cons.
    + destruct (Hwin p Hp) as (p' & -> & ?). exists p'. split; [done|]. fold v. lia.
    + rewrite <- Hcur by done. by apply Hmax.
  - intros q Hq. destruct (Hwin p Hp) as (p' & -> & ?). exists p'. split; [done|].
    specialize (Hpw q Hq). lia.
  - intros q Hq. destruct (Hfrom q Hq) as [Hw|[Hin Hv]].
    + assert (q = p) as -> by congruence.
      destruct Hpc as [->|Hpc]; [right|by left]. split; [constructor|done].
    + right. split; [by constructor|]. by rewrite Hv, Hcur.
Qed.

(** *** Repeated selection with a fixed eligible set *)

Context `{EqDecision C}.

Let es := eligible_of eligible cs.
Let W := total_weight weight es.
Hypothesis Hids : NoDup (identity <$> es).
Hypothesis Hweights : Forall (λ c, 0 ≤ weight c) es.
Hypothesis Hpos : 0 < W.

Lemma identity_inj c d : c ∈ es → d ∈ es → identity c = identity d → c = d.
Proof.
  intros [i Hi]%list_elem_of_lookup [j Hj]%list_elem_of_lookup Heq.
  assert (i = j) as ->; [|congruence].
  eapply NoDup_lookup; [exact Hids|by rewrite list_lookup_fmap, Hi|].
  by rewrite list_lookup_fmap, Hj, Heq.
Qed.

Lemma es_NoDup : NoDup es.
Proof. by eapply NoDup_fmap_1. Qed.

Lemma es_inhabited : ∃ c, c ∈ es.
Proof.
  unfold W, total_weight in Hpos. destruct es as [|c es'].
  - done.
  - exists c. constructor.
Qed.

(** One selection moves every cursor by its weight and charges the winner,
    whose value was the greatest, the total weight. *)
Lemma smooth_round_robin_spec current :
  ∃ c, (smooth_round_robin weight identity eligible cs current).2 = Some c ∧ c ∈ es ∧
    (∀ d, d ∈ es → cursor current d + weight d ≤ cursor current c + weight c) ∧
    (∀ d, d ∈ es → cursor (smooth_round_robin weight identity eligible cs current).1 d
                   = cursor current d + weight d - (if decide (c = d) then W else 0)).
Proof.
  unfold smooth_round_robin. rewrite round_robin_scan_eligible. fold es.
  destruct (round_robin_scan _ _ _ es current 0 None) as [[current' total] winner] eqn:Hrun.
  apply round_robin_scan_spec in Hrun as (-> & Hval & Hout & Hmax & _ & Hfrom); [|done].
  destruct es_inhabited as [e0 He0]. destruct (Hmax e0 He0) as ([c v] & -> & _).
  destruct (Hfrom (c, v) eq_refl) as [|[Hin Hv]]; [done|]. simpl in *.
  exists c. split_and!; [done|done| |].
  - intros d Hd. destruct (Hmax d Hd) as (p & Hp & Hle). simplify_eq. done.
  - intros d Hd. unfold cursor at 1. destruct (decide (c = d)) as [->|Hne].
    + rewrite lookup_alter_eq, Hval by done. simpl. unfold W. lia.
    + rewrite lookup_alter_ne, Hval by (done || by intros ?%identity_inj). simpl. lia.
Qed.

(** [n] selections in a row: the cursor and the winners, newest first. *)
Fixpoint round_robin_run (n : nat) : gmap K Z * list C :=
  match n with
  | O => (∅, [])
  | S n' =>
      let '(current, picks) := round_robin_run n' in
      let '(current', winner) := smooth_round_robin weight identity eligible cs current in
      (current', match winner with Some c => c :: picks | None => picks end)
  end.

Lemma round_robin_run_inv n :
  let '(current, picks) := round_robin_run n in
  length picks = n ∧ (∀ c, c ∈ picks → c ∈ es) ∧
  (∀ d, d ∈ es → cursor current d = Z.of_nat n * weight d - W * occurrences d picks ∧
                 - W < cursor current d).
Proof.
  induction n as [|n IH]; simpl.
  { split_and!; [done|set_solver|]. intros d _. unfold cursor. rewrite lookup_empty.
    simpl. unfold occurrences. simpl. lia. }
  destruct (round_robin_run n) as [current picks]. destruct IH as (Hlen & Hin & Hcur).
  destruct (smooth_round_robin_spec current) as (c & Hw & Hc & Hmax & Hnew).
  destruct (smooth_round_robin _ _ _ _ current) as [current' winner]. simpl in *. subst winner.
  assert (0 < cursor current c + weight c) as Hbig.
  { apply Z.nle_gt. intros Hle.
    assert (sum_over (λ d, cursor current d + weight d) es ≤ sum_over (λ _, 0) es) as Hsum.
    { apply sum_over_le. intros d Hd. specialize (Hmax d Hd). lia. }
    rewrite sum_over_const in Hsum.
    rewrite (sum_over_ext _ (λ d, (Z.of_nat n + 1) * weight d + (- W) * occurrences d picks)) in Hsum
      by (intros d Hd; destruct (Hcur d Hd); lia).
    rewrite sum_over_plus, !sum_over_scale, sum_occurrences, Hlen in Hsum;
      [|apply es_NoDup|done]. change (sum_over weight es) with W in Hsum. nia. }
  split_and!; [simpl; lia|set_solver|]. intros d Hd. rewrite Hnew, occurrences_cons by done.
  destruct (Hcur d Hd) as [-> Hlow]. rewrite Forall_forall in Hweights.
  pose proof (Hweights d Hd). destruct (decide (c = d)) as [->|Hne]; [|split; nia].
  destruct (Hcur d Hc) as [Hcd _]. split; nia.
Qed.
End round_robin.

(** While the eligible set does not change, smooth round robin is exactly
    proportional: from a fresh cursor, a cycle of as many selections as the
    total weight picks every eligible candidate exactly its weight many times
    and brings every cursor back to zero. *)
Theorem round_robin_cycle {C K} `{EqDecision C} `{Countable K} (weight : C → Z) (identity : C → K)
    (eligible : C → bool) (cs : list C) (n : nat)
    (Hids : NoDup (identity <$> filter (λ c, eligible c = true) cs))
    (Hweights : Forall (λ c, 0 ≤ weight c) (filter (λ c, eligible c = true) cs))
    (Hcycle : Z.of_nat n = total_weight weight (filter (λ c, eligible c = true) cs))
    (Hpos : (0 < n)%nat) :
  let '(current, picks) := round_robin_run weight identity eligible cs n in
  ∀ c, c ∈ filter (λ c, eligible c = true) cs →
    occurrences c picks = weight c ∧ cursor identity current c = 0.
Proof.
  fold (eligible_of eligible cs) in *.
  pose proof (round_robin_run_inv weight identity eligible cs Hids Hweights ltac:(lia) n) as Hinv.
  destruct (round_robin_run _ _ _ _ n) as [current picks]. destruct Hinv as (Hlen & Hin & Hcur).
  rewrite <- Hcycle in Hcur.
  assert (∀ c, c ∈ eligible_of eligible cs → occurrences c picks = weight c) as Hocc.
  { apply sum_over_squeeze.
    - intros c Hc. destruct (Hcur c Hc). nia.
    - rewrite sum_occurrences; [|by eapply NoDup_fmap_1|done]. rewrite Hlen. exact Hcycle. }
  intros c Hc. destruct (Hcur c Hc) as [Hv _]. rewrite Hocc in * by done. split; [done|lia].
Qed.

(** At every moment of such a run no candidate is ahead of its share by a
    whole turn, and the cursors stay within [(-W, n W)] for [n] eligible
    candidates of total weight [W]: the 64-bit cursors cannot overflow for
    fewer than [2^15] candidates with 32-bit weights. *)
Theorem round_robin_bounds {C K} `{EqDecision C} `{Countable K} (weight : C → Z) (identity : C → K)
    (eligible : C → bool) (cs : list C) (n : nat) (W : Z) (c : C)
    (Hids : NoDup (identity <$> filter (λ c, eligible c = true) cs))
    (Hweights : Forall (λ c, 0 ≤ weight c) (filter (λ c, eligible c = true) cs))
    (HW : W = total_weight weight (filter (λ c, eligible c = true) cs)) (Hpos : 0 < W)
    (Hc : c ∈ filter (λ c, eligible c = true) cs) :
  let '(current, picks) := round_robin_run weight identity eligible cs n in
  W * occurrences c picks < Z.of_nat n * weight c + W ∧
  - W < cursor identity current c
  < Z.of_nat (length (filter (λ c, eligible c = true) cs)) * W.
Proof.
  fold (eligible_of eligible cs) in *. subst W.
  pose proof (round_robin_run_inv weight identity eligible cs Hids Hweights Hpos n) as Hinv.
  destruct (round_robin_run _ _ _ _ n) as [current picks]. destruct Hinv as (Hlen & Hin & Hcur).
  set (W := total_weight weight (eligible_of eligible cs)) in *.
  assert (sum_over (cursor identity current) (eligible_of eligible cs) = 0) as Hsum.
  { rewrite (sum_over_ext _ (λ d, Z.of_nat n * weight d + - W * occurrences d picks)).
    - rewrite sum_over_plus, !sum_over_scale, sum_occurrences, Hlen; [|by eapply NoDup_fmap_1|done].
      change (sum_over weight _) with W. lia.
    - intros d Hd. destruct (Hcur d Hd). lia. }
  assert (cursor identity current c + W
          ≤ sum_over (λ d, cursor identity current d + W) (eligible_of eligible cs)) as Hup.
  { apply (sum_over_elem (λ d, cursor identity current d + W)); [|done].
    intros d Hd. destruct (Hcur d Hd). lia. }
  rewrite sum_over_plus, sum_over_const, Hsum in Hup. destruct (Hcur c Hc). split_and!; nia.
Qed.

Lemma round_robin_cycle_witness :
  let '(current, picks) := round_robin_run SelectionExample.weight id SelectionExample.eligible
                             SelectionExample.candidates 7 in
  ∀ c, c ∈ filter (λ c, SelectionExample.eligible c = true) SelectionExample.candidates →
    occurrences c picks = SelectionExample.weight c ∧ cursor id current c = 0.
Proof.
  apply (round_robin_cycle SelectionExample.weight id SelectionExample.eligible
           SelectionExample.candidates 7);
    [apply (bool_decide_unpack _); vm_compute; exact I|apply SelectionExample.weights_nonneg
    |reflexivity|lia].
Defined.

Lemma round_robin_bounds_witness :
  let '(current, picks) := round_robin_run SelectionExample.weight id SelectionExample.eligible
                             SelectionExample.candidates 3 in
  7 * occurrences 0%nat picks < Z.of_nat 3 * SelectionExample.weight 0%nat + 7 ∧
  - 7 < cursor id current 0%nat
  < Z.of_nat (length (filter (λ c, SelectionExample.eligible c = true)
                        SelectionExample.candidates)) * 7.
Proof.
  apply (round_robin_bounds SelectionExample.weight id SelectionExample.eligible
           SelectionExample.candidates 3 7 0%nat);
    [apply (bool_decide_unpack _); vm_compute; exact I|apply SelectionExample.weights_nonneg
    |reflexivity|lia|constructor].
Defined.

(** ** Outcomes of a single selection *)

Lemma weighted_ticket_word64 {C} (weight : C → Z) rounds draws ok scan cs e e' r :
  word64 e → weighted_ticket weight rounds draws ok scan cs e = Some (e', r) → word64 e'.
Proof.
  revert scan e. induction rounds as [|rounds IH]; intros scan e He Hrun; [done|]. simpl in Hrun.
  case_match; [by simplify_eq|]. destruct (draw_ticket _ _ _) as [[e1 ticket]|] eqn:Hd; [|done].
  apply draw_ticket_word64 in Hd. repeat case_match; simplify_eq; [done|by eapply IH].
Qed.

(** Without interference one round is enough. *)
Lemma weighted_ticket_constant {C} (weight : C → Z) (ok : C → bool) cs draws entropy :
  Forall (λ c, 0 ≤ weight c) cs → total_weight weight cs ≤ u64_max → word64 entropy →
  total_weight weight cs < Z.of_nat draws →
  ∃ entropy' r, weighted_ticket weight 1 draws (λ _, ok) 0 cs entropy = Some (entropy', r) ∧
    word64 entropy' ∧
    match r with
    | Some c => c ∈ cs ∧ ok c = true
    | None => ∀ c, c ∈ cs → ok c = true → weight c = 0
    end.
Proof.
  intros Hw Hmax He Hdraws. simpl. fold (eligible_of ok cs).
  pose proof (total_weight_eligible weight ok cs Hw) as Hle.
  pose proof (eligible_weights weight ok cs Hw) as Hew.
  destruct (Z.eqb_spec (total_weight weight (eligible_of ok cs)) 0) as [Hz|Hnz].
  { eexists _, _. split; [done|]. split; [done|]. intros c Hc Hok.
    pose proof (total_weight_zero weight _ Hew Hz) as Hall. rewrite Forall_forall in Hall.
    by apply Hall, eligible_of_elem. }
  destruct (draw_ticket_total draws entropy (total_weight weight (eligible_of ok cs)))
    as [[e ticket] Hd]; [lia|done|lia|].
  rewrite Hd. apply draw_ticket_range in Hd as [Ht He']; [|lia].
  rewrite ticket_pass_spec, Z.add_0_l, Z.eqb_refl.
  destruct (ticket_owner_Some weight (eligible_of ok cs) ticket Hew Ht) as (c & -> & Hin & _).
  eexists _, _. split; [done|]. split; [done|]. apply eligible_of_elem in Hin as [? ?]. done.
Qed.

Lemma smooth_round_robin_outcome {C K} `{Countable K} (weight : C → Z) (identity : C → K)
    (ok : C → bool) cs current :
  NoDup (identity <$> cs) →
  match (smooth_round_robin weight identity ok cs current).2 with
  | Some c => c ∈ cs ∧ ok c = true
  | None => ∀ c, c ∈ cs → ok c = false
  end.
Proof.
  intros Hnd. assert (NoDup (identity <$> eligible_of ok cs)) as Hnd'.
  { unfold eligible_of. clear -Hnd. induction cs as [|c cs IH]; [done|].
    rewrite fmap_cons in Hnd. apply NoDup_cons in Hnd as [Hc Hnd]. rewrite filter_cons.
    case_decide; [|by apply IH]. rewrite fmap_cons. apply NoDup_cons. split; [|by apply IH].
    intros (d & Hd & [_ Hin]%list_elem_of_filter)%list_elem_of_fmap. apply Hc. rewrite Hd.
    by apply list_elem_of_fmap_2. }
  unfold smooth_round_robin. rewrite round_robin_scan_eligible.
  destruct (round_robin_scan _ _ _ _ current 0 None) as [[current' total] winner] eqn:Hrun.
  apply (round_robin_scan_spec weight identity ok) in Hrun as (_ & _ & _ & Hmax & _ & Hfrom); [|done].
  destruct winner as [[c v]|]; simpl.
  - destruct (Hfrom _ eq_refl) as [|[Hin _]]; [done|]. by apply eligible_of_elem in Hin as [? ?].
  - intros c Hc. apply not_true_is_false. intros Hok.
    destruct (Hmax c) as (p & Hp & _); [by apply eligible_of_elem|done].
Qed.
