(* ===== verification/Affinity.v ===== *)
(** * Session affinity cache

    Models the session-affinity part of [src/routing/mod.rs]: the cache that
    remembers which channel and upstream model served a session, with expiry,
    a capacity, a recency queue of generations, and the reconciliation with a
    new snapshot.  All operations run under the affinity mutex, so executions
    are sequences of operations ([aexec]).

    The iteration order of a [HashMap] is unspecified: where the code takes an
    arbitrary key, the choice is the argument [any_key]. *)

From S2P Require Import Prelude Text.

Record AffinityCacheKey := {
  rule_fingerprint : N;
  api_key_id : uuid;
  model_rule_id : uuid;
  session_hash : N;
}.
#[export] Instance AffinityCacheKey_eq_dec : EqDecision AffinityCacheKey.
Proof. solve_decision. Defined.
#[export] Instance AffinityCacheKey_countable : Countable AffinityCacheKey.
Proof.
  apply (inj_countable'
    (λ k, (k.(rule_fingerprint), k.(api_key_id), k.(model_rule_id), k.(session_hash)))
    (λ p, {| rule_fingerprint := p.1.1.1; api_key_id := p.1.1.2; model_rule_id := p.1.2;
             session_hash := p.2 |})).
  by intros [].
Defined.

Record RouteCandidateIdentity := { rc_channel_id : uuid; rc_upstream_model : string }.
#[export] Instance RouteCandidateIdentity_eq_dec : EqDecision RouteCandidateIdentity.
Proof. solve_decision. Defined.
#[export] Instance RouteCandidateIdentity_countable : Countable RouteCandidateIdentity.
Proof.
  apply (inj_countable' (λ r, (r.(rc_channel_id), r.(rc_upstream_model)))
    (λ p, {| rc_channel_id := p.1; rc_upstream_model := p.2 |})).
  by intros [].
Defined.

Record AffinityEntry := {
  candidate : RouteCandidateIdentity;
  expires_at : Z;
  generation : Z;
}.

Record AffinityState := {
  enabled : bool;
  max_entries : nat;
  active_rules : gmap N string;
  entries : gmap AffinityCacheKey AffinityEntry;
  recency : list (AffinityCacheKey * Z);
  next_generation : Z;
}.
Definition AffinityState_default : AffinityState :=
  {| enabled := false; max_entries := 0; active_rules := ∅; entries := ∅; recency := [];
     next_generation := 0 |}.

Definition set_entries (st : AffinityState) (m : gmap AffinityCacheKey AffinityEntry)
    (r : list (AffinityCacheKey * Z)) : AffinityState :=
  {| enabled := st.(enabled); max_entries := st.(max_entries);
     active_rules := st.(active_rules); entries := m; recency := r;
     next_generation := st.(next_generation) |}.

(** ** Trimming and the recency queue *)

Definition current_generation (m : gmap AffinityCacheKey AffinityEntry)
    (k : AffinityCacheKey) (g : Z) : bool :=
  is_some_and (m !! k) (λ e, e.(generation) =? g).

Section trim.
Context (any_key : gmap AffinityCacheKey AffinityEntry → option AffinityCacheKey).

(** The part of the loop with an empty queue; [fuel] is the number of entries,
    since every iteration removes one. *)
Fixpoint trim_any (fuel : nat) (max : nat) (m : gmap AffinityCacheKey AffinityEntry)
  : gmap AffinityCacheKey AffinityEntry :=
  match fuel with
  | O => m
  | S fuel' =>
      if (size m <=? max)%nat then m
      else match any_key m with
           | Some k => trim_any fuel' max (delete k m)
           | None => m
           end
  end.

(** [while entries.len() > max_entries { ... }] *)
Fixpoint trim_loop (max : nat) (r : list (AffinityCacheKey * Z))
    (m : gmap AffinityCacheKey AffinityEntry)
  : list (AffinityCacheKey * Z) * gmap AffinityCacheKey AffinityEntry :=
  if (size m <=? max)%nat then (r, m)
  else match r with
       | [] => ([], trim_any (size m) max m)
       | (k, g) :: r' =>
           trim_loop max r' (if current_generation m k g then delete k m else m)
       end.

Definition trim_affinity_state (st : AffinityState) : AffinityState :=
  let '(r, m) := trim_loop st.(max_entries) st.(recency) st.(entries) in set_entries st m r.

(** [sort_unstable_by_key(|(_, generation)| *generation)] *)
Definition by_generation (a b : AffinityCacheKey * Z) : Prop := a.2 ≤ b.2.
#[export] Instance by_generation_dec : RelDecision by_generation.
Proof. intros a b. unfold by_generation. apply _. Defined.

Definition rebuild_affinity_recency (st : AffinityState) : AffinityState :=
  set_entries st st.(entries)
    (merge_sort by_generation ((λ p, (p.1, p.2.(generation))) <$> map_to_list st.(entries))).

Definition compact_affinity_recency (st : AffinityState) : AffinityState :=
  if (length st.(recency) <=? size st.(entries) * 4 + 1024)%nat then st
  else rebuild_affinity_recency st.

(** ** Operations *)

Definition live (st : AffinityState) (now : Z) (p : AffinityCacheKey * AffinityEntry) : Prop :=
  is_Some (st.(active_rules) !! p.1.(rule_fingerprint)) ∧ now < p.2.(expires_at).
#[export] Instance live_dec st now p : Decision (live st now p).
Proof. unfold live. apply _. Defined.

Definition prune_expired_affinity (now : Z) (st : AffinityState) : AffinityState :=
  let kept := filter (live st now) st.(entries) in
  if bool_decide (size kept = size st.(entries)) then st
  else rebuild_affinity_recency (set_entries st kept st.(recency)).

Record AffinitySettings := {
  set_enabled : bool;
  set_max_entries : nat;
  set_rules : list (N * string);     (** fingerprint and name of each rule *)
}.

Definition reconcile_affinity (now : Z) (settings : AffinitySettings) (st : AffinityState)
  : AffinityState :=
  let rules := list_to_map (rev settings.(set_rules)) in
  let st1 := {| enabled := settings.(set_enabled); max_entries := settings.(set_max_entries);
                active_rules := st.(active_rules); entries := st.(entries);
                recency := st.(recency); next_generation := st.(next_generation) |} in
  let with_rules m r :=
    {| enabled := st1.(enabled); max_entries := st1.(max_entries); active_rules := rules;
       entries := m; recency := r; next_generation := st1.(next_generation) |} in
  if negb st1.(enabled) then with_rules ∅ []
  else
    let st2 :=
      if bool_decide (st1.(active_rules) = rules) then st1
      else
        let st' := with_rules st1.(entries) st1.(recency) in
        rebuild_affinity_recency (set_entries st' (filter (live st' now) st'.(entries)) st'.(recency)) in
    trim_affinity_state st2.

Definition affinity_lookup (now : Z) (k : AffinityCacheKey) (st : AffinityState)
  : AffinityState * option RouteCandidateIdentity :=
  if negb st.(enabled) || negb (bool_decide (is_Some (st.(active_rules) !! k.(rule_fingerprint))))
  then (st, None)
  else match st.(entries) !! k with
       | None => (st, None)
       | Some e =>
           if e.(expires_at) <=? now
           then (set_entries st (delete k st.(entries)) st.(recency), None)
           else (st, Some e.(candidate))
       end.

Record AffinityBinding := {
  bind_key : AffinityCacheKey;
  bind_ttl : Z;
  bind_candidate : RouteCandidateIdentity;
  bind_cache_hit : bool;
}.

(** [None]: [now + ttl] overflows a [Duration] and panics. *)
Definition affinity_store (now : Z) (b : AffinityBinding) (st : AffinityState)
  : option AffinityState :=
  if negb st.(enabled) || (st.(max_entries) =? 0)%nat
     || negb (bool_decide (is_Some (st.(active_rules) !! b.(bind_key).(rule_fingerprint))))
  then Some st
  else
    match duration_add now b.(bind_ttl) with
    | None => None
    | Some expires =>
        let g := Z.max (wrap64 (st.(next_generation) + 1)) 1 in
        Some (compact_affinity_recency (trim_affinity_state
          {| enabled := st.(enabled); max_entries := st.(max_entries);
             active_rules := st.(active_rules);
             entries := <[b.(bind_key) := {| candidate := b.(bind_candidate);
                                             expires_at := expires; generation := g |}]> st.(entries);
             recency := st.(recency) ++ [(b.(bind_key), g)];
             next_generation := g |}))
    end.

Definition affinity_remove_if_candidate (k : AffinityCacheKey) (expected : RouteCandidateIdentity)
    (st : AffinityState) : AffinityState :=
  if is_some_and (st.(entries) !! k) (λ e, bool_decide (e.(candidate) = expected))
  then set_entries st (delete k st.(entries)) st.(recency) else st.

Record RuleCacheSnapshot := { snap_name : string; snap_entries : Z }.
Record CacheSnapshot := {
  snap_enabled : bool;
  snap_max_entries : Z;
  snap_total_entries : Z;
  snap_rules : list RuleCacheSnapshot;
}.

Definition by_name (a b : RuleCacheSnapshot) : Prop := String.leb a.(snap_name) b.(snap_name) = true.
#[export] Instance by_name_dec : RelDecision by_name.
Proof. intros a b. unfold by_name. apply _. Defined.

Definition rule_count (st : AffinityState) (fingerprint : N) : Z :=
  map_fold (λ k _ n, if decide (k.(rule_fingerprint) = fingerprint) then sat_add u64_max n 1 else n)
    0 st.(entries).

Definition affinity_cache_snapshot (st : AffinityState) : CacheSnapshot :=
  {| snap_enabled := st.(enabled);
     snap_max_entries := Z.min u64_max (Z.of_nat st.(max_entries));
     snap_total_entries := Z.min u64_max (Z.of_nat (size st.(entries)));
     snap_rules := merge_sort by_name
       ((λ p, {| snap_name := p.2; snap_entries := rule_count st p.1 |})
          <$> map_to_list st.(active_rules)) |}.

(** [eq_ignore_ascii_case] *)
Definition same_name (a b : string) : bool :=
  bool_decide (to_ascii_lowercase <$> bytes_of a = to_ascii_lowercase <$> bytes_of b).

(** [None]: no active rule has the name.  The first component is the state
    after pruning in either case. *)
Definition clear_session_affinity_cache (now : Z) (rule_name : option string) (st : AffinityState)
  : AffinityState * option (Z * CacheSnapshot) :=
  let st1 := prune_expired_affinity now st in
  let before := size st1.(entries) in
  let finish m :=
    let st2 := rebuild_affinity_recency (set_entries st1 m st1.(recency)) in
    (st2, Some (sat_sub (Z.of_nat before) (Z.of_nat (size st2.(entries))),
                affinity_cache_snapshot st2)) in
  match rule_name with
  | Some name =>
      match List.find (λ p, same_name p.2 name) (map_to_list st1.(active_rules)) with
      | None => (st1, None)
      | Some (fingerprint, _) =>
          finish (filter (λ p, p.1.(rule_fingerprint) ≠ fingerprint) st1.(entries))
      end
  | None => finish ∅
  end.
End trim.

(** ** Executions *)

Section exec.
Context (any_key : gmap AffinityCacheKey AffinityEntry → option AffinityCacheKey).

Inductive AEvent :=
| AReconcile (now : Z) (settings : AffinitySettings)
| ALookup (now : Z) (k : AffinityCacheKey)
| AStore (now : Z) (b : AffinityBinding)
| ARemove (k : AffinityCacheKey) (expected : RouteCandidateIdentity)
| APrune (now : Z)
| AClear (now : Z) (rule_name : option string).

Definition apply_event (ev : AEvent) (st : AffinityState) : option AffinityState :=
  match ev with
  | AReconcile now settings => Some (reconcile_affinity any_key now settings st)
  | ALookup now k => Some (affinity_lookup now k st).1
  | AStore now b => affinity_store any_key now b st
  | ARemove k expected => Some (affinity_remove_if_candidate k expected st)
  | APrune now => Some (prune_expired_affinity now st)
  | AClear now rule_name => Some (clear_session_affinity_cache now rule_name st).1
  end.

(** Executions from the empty cache, newest event first, of fewer than [2^64]
    events: the generations do not wrap around. *)
Inductive aexec : list AEvent → AffinityState → Prop :=
| aexec_init : aexec [] AffinityState_default
| aexec_step evs st ev st' :
    aexec evs st → apply_event ev st = Some st' → Z.of_nat (length (ev :: evs)) < 2 ^ 64 →
    aexec (ev :: evs) st'.
End exec.

(** ** Trimming evicts the oldest entries *)

Abbreviation older := (λ a b : AffinityCacheKey * Z, a.2 < b.2).

(** Every entry is queued under its generation. *)
Definition queued (r : list (AffinityCacheKey * Z)) (m : gmap AffinityCacheKey AffinityEntry) : Prop :=
  ∀ k e, m !! k = Some e → (k, e.(generation)) ∈ r.

Lemma queued_subseteq r m m' : queued r m → m' ⊆ m → queued r m'.
Proof. intros Hq Hsub k e He. apply Hq. by eapply lookup_weaken. Qed.

Lemma queued_tail k g r m :
  queued ((k, g) :: r) m → current_generation m k g = false → queued r m.
Proof.
  intros Hq Hcur k' e He. specialize (Hq k' e He) as [Heq|Hin]%elem_of_cons; [|done].
  simplify_eq. unfold current_generation in Hcur. rewrite He in Hcur. simpl in Hcur.
  by rewrite Z.eqb_refl in Hcur.
Qed.

Lemma queued_delete k g r m : queued ((k, g) :: r) m → queued r (delete k m).
Proof.
  intros Hq k' e [Hne He]%lookup_delete_Some. specialize (Hq k' e He).
  apply elem_of_cons in Hq as [|]; [by simplify_eq|done].
Qed.

Lemma trim_loop_spec any_key max r m r' m' :
  StronglySorted older r → queued r m → trim_loop any_key max r m = (r', m') →
  StronglySorted older r' ∧ queued r' m' ∧ m' ⊆ m ∧ (∀ p, p ∈ r' → p ∈ r) ∧
  size m' = Nat.min (size m) max ∧
  (∀ k e k' e', m !! k = Some e → m' !! k = None → m' !! k' = Some e' →
     e.(generation) < e'.(generation)).
Proof.
  revert m. induction r as [|[k g] r IH]; intros m Hsorted Hq Htrim; simpl in Htrim;
    destruct (Nat.leb_spec (size m) max) as [Hsize|Hsize].
  1,3: simplify_eq; split_and!; [done|done|done|done|lia|congruence].
  { assert (m = ∅) as ->; [|rewrite map_size_empty in Hsize; lia].
    apply map_empty. intros k. apply eq_None_not_Some. intros [e He]. by apply Hq, elem_of_nil in He. }
  apply StronglySorted_inv in Hsorted as [Hsorted Hg]. rewrite Forall_forall in Hg.
  destruct (current_generation m k g) eqn:Hcur.
  - unfold current_generation in Hcur. destruct (m !! k) as [e0|] eqn:He0; simpl in Hcur; [|done].
    breflect. apply IH in Htrim as (Hs' & Hq' & Hsub & Hr' & Hsz & Hold);
      [|done|by eapply queued_delete].
    split_and!; [done|done|etrans; [done|apply delete_subseteq]|set_solver| |].
    + rewrite Hsz, map_size_delete_Some by eauto. lia.
    + intros k1 e1 k2 e2 Hk1 Hn1 Hk2. destruct (decide (k1 = k)) as [->|Hne].
      * simplify_eq. apply Hq', Hr', Hg in Hk2. done.
      * eapply Hold; [|done|done]. by rewrite lookup_delete_ne.
  - apply IH in Htrim as (Hs' & Hq' & Hsub & Hr' & Hsz & Hold); [|done|by eapply queued_tail].
    split_and!; [done|done|done|set_solver|done|done].
Qed.

(** The arbitrary choice of the code is never needed. *)
Lemma trim_loop_any any_key any_key' max r m :
  queued r m → trim_loop any_key max r m = trim_loop any_key' max r m.
Proof.
  revert m. induction r as [|[k g] r IH]; intros m Hq; simpl;
    destruct (Nat.leb_spec (size m) max) as [Hsize|Hsize]; try done.
  - assert (m = ∅) as ->; [|rewrite map_size_empty in Hsize; lia].
    apply map_empty. intros k. apply eq_None_not_Some. intros [e He]. by apply Hq, elem_of_nil in He.
  - apply IH. destruct (current_generation m k g) eqn:Hcur;
      [by eapply queued_delete|by eapply queued_tail].
Qed.

(** ** Rebuilding the queue *)

Lemma strict_of_sorted (l : list (AffinityCacheKey * Z)) :
  StronglySorted by_generation l → NoDup l.*2 → StronglySorted older l.
Proof.
  induction 1 as [|a l Hs IH Ha]; intros Hnd; [constructor|].
  rewrite fmap_cons in Hnd. apply NoDup_cons in Hnd as [Hn Hnd].
  constructor; [by apply IH|]. rewrite Forall_forall in *. intros b Hb. specialize (Ha b Hb).
  unfold by_generation in Ha. enough (a.2 ≠ b.2) by lia. intros Heq. apply Hn. rewrite Heq.
  by apply list_elem_of_fmap_2.
Qed.

Lemma sorted_generation_inj r k k' g :
  StronglySorted older r → (k, g) ∈ r → (k', g) ∈ r → k = k'.
Proof.
  induction 1 as [|a r Hs IH Ha]; intros H1 H2; [by apply elem_of_nil in H1|].
  rewrite Forall_forall in Ha. apply elem_of_cons in H1, H2.
  destruct H1 as [<-|H1], H2 as [Heq|H2].
  - by simplify_eq.
  - apply Ha in H2. simpl in H2. lia.
  - subst a. apply Ha in H1. simpl in H1. lia.
  - auto.
Qed.

Lemma rebuild_spec st :
  StronglySorted older st.(recency) → queued st.(recency) st.(entries) →
  let r := (rebuild_affinity_recency st).(recency) in
  StronglySorted older r ∧ queued r st.(entries) ∧
  (∀ p, p ∈ r → p ∈ st.(recency)) ∧ length r = size st.(entries).
Proof.
  intros Hs Hq. simpl.
  set (l := (λ p, (p.1, p.2.(generation))) <$> map_to_list st.(entries)).
  pose proof (merge_sort_Permutation by_generation l) as Hperm.
  assert (∀ p, p ∈ l → p ∈ st.(recency)) as Hin.
  { intros p ([k e] & -> & He%elem_of_map_to_list)%list_elem_of_fmap. by apply Hq. }
  assert (NoDup l.*2) as Hnd.
  { unfold l. rewrite <- list_fmap_compose.
    apply NoDup_fmap_2_strong; [|apply NoDup_map_to_list].
    intros [k e] [k' e'] He%elem_of_map_to_list He'%elem_of_map_to_list Hg. simpl in Hg.
    assert (k = k') as ->; [|congruence].
    eapply sorted_generation_inj; [exact Hs|by apply Hq|rewrite Hg; by apply Hq]. }
  split_and!.
  - apply strict_of_sorted; [|by rewrite Hperm]. apply StronglySorted_merge_sort.
    + intros a b c. unfold by_generation. lia.
    + intros a b. unfold by_generation. lia.
  - intros k e He. rewrite Hperm. apply list_elem_of_fmap. exists (k, e).
    split; [done|]. by apply elem_of_map_to_list.
  - intros p. rewrite Hperm. apply Hin.
  - rewrite Hperm. unfold l. by rewrite length_fmap, length_map_to_list.
Qed.

(** ** The cache invariant *)

(** [n] bounds the generations handed out so far. *)
Record cache_pre (n : Z) (st : AffinityState) : Prop := {
  pre_sorted : StronglySorted older st.(recency);
  pre_queued : queued st.(recency) st.(entries);
  pre_generations : ∀ p, p ∈ st.(recency) → p.2 ≤ st.(next_generation);
  pre_next : 0 ≤ st.(next_generation) ≤ n;
  pre_rules : ∀ k e, st.(entries) !! k = Some e →
                is_Some (st.(active_rules) !! k.(rule_fingerprint));
}.
Definition cache_ok (n : Z) (st : AffinityState) : Prop :=
  cache_pre n st ∧ (size st.(entries) ≤ st.(max_entries))%nat.

Lemma cache_pre_mono n n' st : cache_pre n st → n ≤ n' → cache_pre n' st.
Proof. intros []. split; auto; lia. Qed.

Lemma cache_pre_shrink n st m :
  cache_pre n st → m ⊆ st.(entries) → cache_pre n (set_entries st m st.(recency)).
Proof.
  intros [Hs Hq Hg Hn Hr] Hsub. split; simpl; try done.
  - by eapply queued_subseteq.
  - intros k e He. eapply Hr. by eapply lookup_weaken.
Qed.

Lemma cache_ok_shrink n st m :
  cache_ok n st → m ⊆ st.(entries) → cache_ok n (set_entries st m st.(recency)).
Proof.
  intros [Hpre Hsz] Hsub. split; [by apply cache_pre_shrink|].
  simpl. apply map_subseteq_size in Hsub. lia.
Qed.

Lemma cache_pre_rebuild n st : cache_pre n st → cache_pre n (rebuild_affinity_recency st).
Proof.
  intros [Hs Hq Hg Hn Hr]. destruct (rebuild_spec st Hs Hq) as (Hs' & Hq' & Hin & _).
  split; try done. intros p Hp. by apply Hg, Hin.
Qed.

Lemma cache_ok_rebuild n st : cache_ok n st → cache_ok n (rebuild_affinity_recency st).
Proof. intros [Hpre Hsz]. split; [by apply cache_pre_rebuild|done]. Qed.

Lemma cache_ok_compact n st : cache_ok n st → cache_ok n (compact_affinity_recency st).
Proof. intros Hok. unfold compact_affinity_recency. case_match; [done|by apply cache_ok_rebuild]. Qed.

Lemma cache_ok_trim any_key n st : cache_pre n st → cache_ok n (trim_affinity_state any_key st).
Proof.
  intros [Hs Hq Hg Hn Hr]. unfold trim_affinity_state.
  destruct (trim_loop _ _ _ _) as [r m] eqn:Htrim.
  apply trim_loop_spec in Htrim as (Hs' & Hq' & Hsub & Hin & Hsz & _); [|done..].
  split; [split; simpl; try done|simpl; lia].
  - intros p Hp. by apply Hg, Hin.
  - intros k e He. eapply Hr. by eapply lookup_weaken.
Qed.

Lemma cache_ok_prune n now st : cache_ok n st → cache_ok n (prune_expired_affinity now st).
Proof.
  intros Hok. unfold prune_expired_affinity. case_match; [done|].
  apply cache_ok_rebuild, cache_ok_shrink; [done|]. apply map_filter_subseteq.
Qed.

Lemma cache_ok_reconcile any_key n now settings st :
  cache_ok n st → cache_ok n (reconcile_affinity any_key now settings st).
Proof.
  intros [[Hs Hq Hg Hn Hr] Hsz]. unfold reconcile_affinity; simpl.
  destruct (set_enabled settings); simpl.
  - apply cache_ok_trim. case_bool_decide; [by split|].
    apply cache_pre_rebuild. split; simpl; try done.
    + eapply queued_subseteq; [done|]. apply map_filter_subseteq.
    + intros k e [_ [He _]]%map_lookup_filter_Some. done.
  - split; [split; simpl|simpl; rewrite map_size_empty; lia]; try done.
    + constructor.
    + intros p Hp. by apply elem_of_nil in Hp.
Qed.

Lemma cache_ok_lookup n now k st : cache_ok n st → cache_ok n (affinity_lookup now k st).1.
Proof.
  intros Hok. unfold affinity_lookup. repeat case_match; simpl; try done.
  apply cache_ok_shrink; [done|]. apply delete_subseteq.
Qed.

Lemma cache_ok_remove n k c st : cache_ok n st → cache_ok n (affinity_remove_if_candidate k c st).
Proof.
  intros Hok. unfold affinity_remove_if_candidate. case_match; [|done].
  apply cache_ok_shrink; [done|]. apply delete_subseteq.
Qed.

Lemma cache_ok_clear n now name st : cache_ok n st → cache_ok n (clear_session_affinity_cache now name st).1.
Proof.
  intros Hok%(cache_ok_prune n now). unfold clear_session_affinity_cache.
  repeat case_match; simpl; try done; apply cache_ok_rebuild, cache_ok_shrink; try done.
  - apply map_filter_subseteq.
  - apply map_empty_subseteq.
Qed.

(** The state between the insertion of a binding and the trimming. *)
Definition stored (now : Z) (b : AffinityBinding) (st : AffinityState) : AffinityState :=
  let g := st.(next_generation) + 1 in
  {| enabled := st.(enabled); max_entries := st.(max_entries);
     active_rules := st.(active_rules);
     entries := <[b.(bind_key) := {| candidate := b.(bind_candidate);
                                     expires_at := now + b.(bind_ttl); generation := g |}]> st.(entries);
     recency := st.(recency) ++ [(b.(bind_key), g)];
     next_generation := g |}.

Definition store_effective (b : AffinityBinding) (st : AffinityState) : bool :=
  st.(enabled) && negb (st.(max_entries) =? 0)%nat
  && bool_decide (is_Some (st.(active_rules) !! b.(bind_key).(rule_fingerprint))).

Lemma affinity_store_eq any_key n now b st st' :
  cache_ok n st → n + 1 < 2 ^ 64 → affinity_store any_key now b st = Some st' →
  st' = if store_effective b st
        then compact_affinity_recency (trim_affinity_state any_key (stored now b st)) else st.
Proof.
  intros [[_ _ _ Hn _] _] Hmax Hst. unfold affinity_store, store_effective, duration_add in *.
  destruct (enabled st) eqn:Hen, (max_entries st =? 0)%nat,
    (bool_decide (is_Some (active_rules st !! _))); simpl in *; simplify_eq; try done.
  repeat case_match; simplify_eq. unfold stored. rewrite Hen. rewrite (Z.max_l (wrap64 _)); unfold wrap64; rewrite Z.mod_small by lia; [done|lia].
Qed.

Lemma cache_pre_stored n now b st :
  cache_ok n st → store_effective b st = true → cache_pre (n + 1) (stored now b st).
Proof.
  intros [[Hs Hq Hg Hn Hr] _] Heff. unfold store_effective in Heff. breflect.
  split; simpl; [..|lia|].
  - apply StronglySorted_app_2; [|done|repeat constructor].
    intros p q Hp%Hg Hq'%list_elem_of_singleton. subst q. simpl. lia.
  - intros k e [[<- <-]|[_ He]]%lookup_insert_Some; apply elem_of_app; [right; constructor|left; auto].
  - intros p [Hp%Hg|Hp%list_elem_of_singleton]%elem_of_app; [lia|subst p; simpl; lia].
  - intros k e [[<- <-]|[_ He]]%lookup_insert_Some; [done|by eapply Hr].
Qed.

Lemma aexec_ok any_key evs st : aexec any_key evs st → cache_ok (Z.of_nat (length evs)) st.
Proof.
  induction 1 as [|evs st ev st' _ IH Hev Hlen].
  { split; [|done]. split; simpl; try done.
    - constructor.
    - intros p Hp. by apply elem_of_nil in Hp. }
  assert (∀ s, cache_ok (Z.of_nat (length evs)) s → cache_ok (Z.of_nat (length (ev :: evs))) s) as Hup.
  { intros s [Hp Hs]. split; [|done]. eapply cache_pre_mono; [done|simpl; lia]. }
  destruct ev as [now settings|now k|now b|k c|now|now name]; simpl in Hev; simplify_eq.
  - by apply Hup, cache_ok_reconcile.
  - by apply Hup, cache_ok_lookup.
  - eapply affinity_store_eq in Hev as ->; [|done|simpl in Hlen; lia].
    destruct (store_effective b st) eqn:Heff; [|by apply Hup].
    apply cache_ok_compact, cache_ok_trim. eapply cache_pre_mono; [by apply cache_pre_stored|simpl; lia].
  - by apply Hup, cache_ok_remove.
  - by apply Hup, cache_ok_prune.
  - by apply Hup, cache_ok_clear.
Qed.

(** ** Theorems *)

Lemma rebuild_queued st :
  StronglySorted older st.(recency) → queued st.(recency) st.(entries) →
  queued (rebuild_affinity_recency st).(recency) (rebuild_affinity_recency st).(entries).
Proof. intros Hs Hq. destruct (rebuild_spec st Hs Hq) as (_ & Hq' & _). exact Hq'. Qed.

(** In every execution the cache holds at most [max_entries] entries, all
    of active rules; every entry is queued, so trimming always evicts through
    the queue and its result does not depend on the iteration order of the
    map. *)
Theorem affinity_bounded any_key any_key' evs st (Hexec : aexec any_key evs st) :
  (size st.(entries) ≤ st.(max_entries))%nat ∧
  (∀ k e, st.(entries) !! k = Some e → is_Some (st.(active_rules) !! k.(rule_fingerprint))) ∧
  (∀ now b, affinity_store any_key now b st = affinity_store any_key' now b st) ∧
  (∀ now settings, reconcile_affinity any_key now settings st
                   = reconcile_affinity any_key' now settings st).
Proof.
  apply aexec_ok in Hexec as Hok. pose proof Hok as [[Hs Hq Hg Hn Hr] Hsz].
  assert (∀ s, queued s.(recency) s.(entries) →
    trim_affinity_state any_key s = trim_affinity_state any_key' s) as Htrim.
  { intros s Hqs. unfold trim_affinity_state. by rewrite (trim_loop_any any_key any_key'). }
  split_and!; [done|done| |].
  - intros now b. unfold affinity_store. destruct (_ || _) eqn:Hskip; [done|].
    destruct (duration_add now (bind_ttl b)); [|done]. f_equal. rewrite Htrim; [done|].
    simpl. intros k e [[<- <-]|[_ He]]%lookup_insert_Some; apply elem_of_app; [right; constructor|left; auto].
  - intros now settings. unfold reconcile_affinity; simpl.
    destruct (set_enabled settings); [|done]. apply Htrim. case_bool_decide; [done|].
    apply rebuild_queued; [done|]. simpl.
    eapply queued_subseteq; [done|]. apply map_filter_subseteq.
Qed.

(** Trimming after a store: what is evicted and what stays. *)
Lemma stored_trim any_key n now b st :
  cache_ok n st → store_effective b st = true →
  let m := (stored now b st).(entries) in
  let m' := (trim_affinity_state any_key (stored now b st)).(entries) in
  m' ⊆ m ∧ m' !! b.(bind_key) = m !! b.(bind_key) ∧
  size m' = Nat.min (size m) st.(max_entries) ∧
  (∀ k e k' e', m !! k = Some e → m' !! k = None → m' !! k' = Some e' →
     e.(generation) < e'.(generation)).
Proof.
  intros Hok Heff m m'. pose proof (cache_pre_stored _ now _ _ Hok Heff) as [Hs Hq Hg _ _].
  unfold m', trim_affinity_state. destruct (trim_loop _ _ _ _) as [r mm] eqn:Htrim.
  apply trim_loop_spec in Htrim as (_ & Hq' & Hsub & Hr' & Hsz & Hold); [|done..]. simpl in Hsz.
  cbn [entries set_entries]. fold m in Hsub, Hold. split_and!; [done| |done|done].
  assert (m !! bind_key b = Some {| candidate := bind_candidate b; expires_at := now + bind_ttl b;
    generation := next_generation st + 1 |}) as Hm by apply lookup_insert_eq.
  destruct (mm !! bind_key b) as [e'|] eqn:Hmm.
  { symmetry. by eapply lookup_weaken. }
  exfalso. unfold store_effective in Heff. breflect.
  assert (mm ≠ ∅) as (k' & e' & Hk')%map_choose.
  { intros ->. rewrite map_size_empty in Hsz.
    assert (size (<[bind_key b:={| candidate := bind_candidate b; expires_at := now + bind_ttl b;
      generation := next_generation st + 1 |}]> (entries st)) ≠ 0)%nat as Hne.
    { rewrite map_size_non_empty_iff. apply insert_non_empty. }
    lia. }
  pose proof (Hold _ _ _ _ Hm Hmm Hk') as Hlt. apply Hq', Hr', Hg in Hk'. simpl in *. lia.
Qed.

Lemma compact_entries st : (compact_affinity_recency st).(entries) = st.(entries).
Proof. unfold compact_affinity_recency. by case_match. Qed.

(** A store into a full cache evicts exactly the entry that was stored
    least recently (the smallest generation), never the new one; a store into
    a cache with room evicts nothing; and the recency queue stays linear in
    the number of entries. *)
Theorem affinity_store_evicts_oldest any_key evs st now b st'
    (Hexec : aexec any_key evs st) (Hlen : Z.of_nat (length evs) + 1 < 2 ^ 64)
    (Heff : store_effective b st = true) (Hstore : affinity_store any_key now b st = Some st') :
  st'.(entries) !! b.(bind_key) =
    Some {| candidate := b.(bind_candidate); expires_at := now + b.(bind_ttl);
            generation := st.(next_generation) + 1 |} ∧
  (∀ k, k ≠ b.(bind_key) → st'.(entries) !! k = st.(entries) !! k ∨ st'.(entries) !! k = None) ∧
  (∀ k e k' e', st.(entries) !! k = Some e → k ≠ b.(bind_key) → st'.(entries) !! k = None →
     st'.(entries) !! k' = Some e' → e.(generation) < e'.(generation)) ∧
  size st'.(entries)
    = Nat.min (size st.(entries) + match st.(entries) !! b.(bind_key) with Some _ => 0 | None => 1 end)
        st.(max_entries) ∧
  (length st'.(recency) ≤ size st'.(entries) * 4 + 1024)%nat.
Proof.
  pose proof (aexec_ok _ _ _ Hexec) as Hok.
  eapply affinity_store_eq in Hstore as ->; [|done|done]. rewrite Heff.
  destruct (stored_trim any_key _ now _ _ Hok Heff) as (Hsub & Hkey & Hsz & Hold).
  pose proof (cache_ok_trim any_key _ _ (cache_pre_stored _ now _ _ Hok Heff)) as [[Hs Hq _ _ _] _].
  set (t := trim_affinity_state any_key (stored now b st)) in *.
  rewrite !compact_entries. split_and!.
  - rewrite Hkey. simpl. apply lookup_insert_eq.
  - intros k Hk. destruct (entries t !! k) as [e|] eqn:He; [left|by right].
    eapply lookup_weaken in He; [|exact Hsub]. simpl in He. by rewrite lookup_insert_ne in He.
  - intros k e k' e' He Hk. apply Hold. simpl. by rewrite lookup_insert_ne.
  - rewrite Hsz. simpl. f_equal. rewrite map_size_insert.
    destruct (entries st !! bind_key b); simpl; lia.
  - unfold compact_affinity_recency.
    destruct (Nat.leb_spec (length (recency t)) (size (entries t) * 4 + 1024)); [done|].
    destruct (rebuild_spec t Hs Hq) as (_ & _ & _ & ->). lia.
Qed.

(** A stored binding is found again: after an effective store, a lookup
    before the deadline hits with the stored candidate, and a lookup at or
    after it misses and removes the entry. *)
Theorem affinity_store_lookup any_key evs st now b st' later
    (Hexec : aexec any_key evs st) (Hlen : Z.of_nat (length evs) + 1 < 2 ^ 64)
    (Heff : store_effective b st = true) (Hstore : affinity_store any_key now b st = Some st') :
  (later < now + b.(bind_ttl) → affinity_lookup later b.(bind_key) st' = (st', Some b.(bind_candidate))) ∧
  (now + b.(bind_ttl) ≤ later →
     (affinity_lookup later b.(bind_key) st').2 = None ∧
     (affinity_lookup later b.(bind_key) st').1.(entries) !! b.(bind_key) = None).
Proof.
  pose proof (aexec_ok _ _ _ Hexec) as Hok.
  eapply affinity_store_eq in Hstore as ->; [|done|done]. rewrite Heff.
  destruct (stored_trim any_key _ now _ _ Hok Heff) as (_ & Hkey & _ & _).
  set (t := trim_affinity_state any_key (stored now b st)) in *.
  assert ((compact_affinity_recency t).(enabled) = st.(enabled) ∧
          (compact_affinity_recency t).(active_rules) = st.(active_rules)) as [He Hr].
  { unfold compact_affinity_recency, t, trim_affinity_state. destruct (trim_loop _ _ _ _).
    by case_match. }
  unfold store_effective in Heff. apply andb_true_iff in Heff as [[Hen _]%andb_true_iff Hact].
  unfold affinity_lookup. rewrite He, Hr, Hen, Hact, compact_entries, Hkey. simpl.
  rewrite lookup_insert_eq. simpl. split.
  - intros Hlt. by rewrite (proj2 (Z.leb_gt _ _)).
  - intros Hge. rewrite (proj2 (Z.leb_le _ _)) by done. split; [done|]. simpl. apply lookup_delete_eq.
Qed.

(** *** Hits *)

(** The binding of a key that the history left in force: its latest store,
    unless a removal of that candidate followed. *)
Fixpoint last_binding (k : AffinityCacheKey) (evs : list AEvent) : option (RouteCandidateIdentity * Z) :=
  match evs with
  | [] => None
  | AStore now b :: evs' =>
      if decide (b.(bind_key) = k) then Some (b.(bind_candidate), now + b.(bind_ttl))
      else last_binding k evs'
  | ARemove k' c :: evs' =>
      if decide (k' = k ∧ fst <$> last_binding k evs' = Some c) then None else last_binding k evs'
  | _ :: evs' => last_binding k evs'
  end.

Lemma trim_subseteq any_key n st :
  cache_pre n st → (trim_affinity_state any_key st).(entries) ⊆ st.(entries).
Proof.
  intros [Hs Hq _ _ _]. unfold trim_affinity_state. destruct (trim_loop _ _ _ _) as [r m] eqn:Htrim.
  by apply trim_loop_spec in Htrim as (_ & _ & Hsub & _); [|done..].
Qed.

Lemma reconcile_subseteq any_key n now settings st :
  cache_ok n st → (reconcile_affinity any_key now settings st).(entries) ⊆ st.(entries).
Proof.
  intros [[Hs Hq Hg Hn Hr] Hsz]. unfold reconcile_affinity; simpl.
  destruct (set_enabled settings); simpl; [|apply map_empty_subseteq].
  case_bool_decide.
  - etrans; [apply (trim_subseteq _ n); by split|done].
  - etrans; [apply (trim_subseteq _ n)|apply map_filter_subseteq].
    apply cache_pre_rebuild. split; simpl; try done.
    + eapply queued_subseteq; [done|]. apply map_filter_subseteq.
    + intros k e [_ [He _]]%map_lookup_filter_Some. done.
Qed.

Lemma prune_subseteq now st : (prune_expired_affinity now st).(entries) ⊆ st.(entries).
Proof. unfold prune_expired_affinity. case_match; [done|]. apply map_filter_subseteq. Qed.

Lemma event_shrinks any_key n ev st st' :
  cache_ok n st → apply_event any_key ev st = Some st' → (∀ now b, ev ≠ AStore now b) →
  st'.(entries) ⊆ st.(entries).
Proof.
  intros Hok Hev Hns. destruct ev as [now settings|now k|now b|k c|now|now name]; simpl in Hev;
    simplify_eq.
  - by eapply reconcile_subseteq.
  - unfold affinity_lookup. repeat case_match; simpl; try done. apply delete_subseteq.
  - by destruct (Hns now b).
  - unfold affinity_remove_if_candidate. case_match; [apply delete_subseteq|done].
  - apply prune_subseteq.
  - unfold clear_session_affinity_cache. pose proof (prune_subseteq now st).
    repeat case_match; simpl; try done;
      [etrans; [apply map_filter_subseteq|done]|apply map_empty_subseteq].
Qed.

Lemma event_enabled any_key ev st st' :
  apply_event any_key ev st = Some st' → st'.(enabled) = false →
  st.(enabled) = false ∨ st'.(entries) = ∅.
Proof.
  intros Hev Hen. assert (∀ s, (trim_affinity_state any_key s).(enabled) = s.(enabled)) as Htrim.
  { intros s. unfold trim_affinity_state. by destruct (trim_loop _ _ _ _). }
  destruct ev as [now settings|now k|now b|k c|now|now name]; simpl in Hev; simplify_eq.
  - right. unfold reconcile_affinity in *. simpl in *. destruct (set_enabled settings) eqn:E; [|done].
    simpl in Hen. rewrite Htrim in Hen. by case_bool_decide.
  - left. unfold affinity_lookup in Hen. by repeat case_match.
  - left. unfold affinity_store in Hev. repeat case_match; simplify_eq; try done.
    unfold compact_affinity_recency in Hen. by case_match; simpl in Hen; rewrite ?Htrim in Hen.
  - left. unfold affinity_remove_if_candidate in Hen. by case_match.
  - left. unfold prune_expired_affinity in Hen. by case_match.
  - left. unfold clear_session_affinity_cache, prune_expired_affinity in Hen.
    by repeat case_match.
Qed.

Lemma aexec_disabled any_key evs st : aexec any_key evs st → st.(enabled) = false → st.(entries) = ∅.
Proof.
  induction 1 as [|evs st ev st' Hexec IH Hev Hlen]; [done|]. intros Hen.
  destruct (event_enabled _ _ _ _ Hev Hen) as [Hst|]; [|done].
  assert ((∀ now b, ev ≠ AStore now b) → entries st' = ∅) as Hother.
  { intros Hns. apply (anti_symm (⊆)); [|apply map_empty_subseteq]. rewrite <- (IH Hst).
    eapply event_shrinks; [by eapply aexec_ok|exact Hev|done]. }
  destruct ev as [| |now b| | |]; try by apply Hother. simpl in Hev. unfold affinity_store in Hev. rewrite Hst in Hev. simplify_eq/=. auto.
Qed.

Lemma aexec_history any_key evs st k e :
  aexec any_key evs st → st.(entries) !! k = Some e →
  last_binding k evs = Some (e.(candidate), e.(expires_at)).
Proof.
  intros Hexec. revert k e. induction Hexec as [|evs st ev st' Hexec IH Hev Hlen]; intros k e He.
  { simpl in He. by rewrite lookup_empty in He. }
  pose proof (aexec_ok _ _ _ Hexec) as Hok.
  assert ((∀ now b, ev ≠ AStore now b) → st.(entries) !! k = Some e) as Hsame.
  { intros Hns. eapply lookup_weaken; [exact He|]. by eapply event_shrinks. }
  destruct ev as [now settings|now k'|now b|k' c|now|now name]; simpl;
    try (apply IH, Hsame; done).
  - simpl in Hev. eapply affinity_store_eq in Hev as ->; [|done|simpl in Hlen; lia].
    destruct (store_effective b st) eqn:Heff.
    + rewrite compact_entries in He. pose proof (stored_trim any_key _ now _ _ Hok Heff) as (Hsub & _).
      eapply lookup_weaken in He; [|exact Hsub]. simpl in He.
      apply lookup_insert_Some in He as [[-> <-]|[Hne He]].
      * by rewrite decide_True.
      * rewrite decide_False by done. auto.
    + case_decide as Hk; [exfalso|auto]. subst k. destruct Hok as [[_ _ _ _ Hr] Hsz].
      destruct (Hr _ _ He) as [x Hx]. unfold store_effective in Heff. rewrite Hx in Heff.
      destruct (enabled st) eqn:Hen; [|by rewrite (aexec_disabled _ _ _ Hexec Hen), lookup_empty in He].
      destruct (max_entries st) eqn:Hm; [|done].
      assert (size (entries st) = 0%nat) as Hz by lia. apply map_size_empty_inv in Hz.
      by rewrite Hz, lookup_empty in He.
  - rewrite (IH k e) by (by apply Hsame). rewrite decide_False; [done|]. simpl. intros [-> [= <-]].
    simpl in Hev. simplify_eq. unfold affinity_remove_if_candidate in He.
    rewrite (Hsame ltac:(done)) in He. simpl in He. rewrite bool_decide_true in He by done.
    simpl in He. by rewrite lookup_delete_eq in He.
Qed.

(** A hit is never stale: whatever the history of stores, removals,
    expiries, evictions and reloads, a lookup that hits returns the candidate
    of the latest store for exactly this key, which no later removal named,
    whose deadline has not passed, and whose rule is active while affinity is
    enabled. *)
Theorem affinity_hit_sound any_key evs st now k c
    (Hexec : aexec any_key evs st) (Hhit : (affinity_lookup now k st).2 = Some c) :
  (∃ expires, last_binding k evs = Some (c, expires) ∧ now < expires) ∧
  st.(enabled) = true ∧ is_Some (st.(active_rules) !! k.(rule_fingerprint)).
Proof.
  unfold affinity_lookup in Hhit. destruct (enabled st) eqn:Hen; [|done]. simpl in Hhit.
  case_bool_decide as Hact; [|done]. simpl in Hhit.
  destruct (entries st !! k) as [e|] eqn:He; [|done].
  destruct (Z.leb_spec (expires_at e) now); simplify_eq/=.
  split_and!; [|done|done]. exists (expires_at e). split; [|done]. by eapply aexec_history.
Qed.

Module AffinityExample.
Definition no_key (m : gmap AffinityCacheKey AffinityEntry) : option AffinityCacheKey := None.
Definition key (session : N) : AffinityCacheKey :=
  {| rule_fingerprint := 1%N; api_key_id := 2%N; model_rule_id := 3%N; session_hash := session |}.
Definition target : RouteCandidateIdentity := {| rc_channel_id := 9%N; rc_upstream_model := "gpt" |}.
Definition settings : AffinitySettings :=
  {| set_enabled := true; set_max_entries := 1; set_rules := [(1%N, "chat")] |}.
Definition binding (session : N) : AffinityBinding :=
  {| bind_key := key session; bind_ttl := 100; bind_candidate := target; bind_cache_hit := false |}.

Definition st1 : AffinityState := reconcile_affinity no_key 0 settings AffinityState_default.
Definition st2 : AffinityState := default st1 (affinity_store no_key 5 (binding 1) st1).
Definition evs1 : list AEvent := [AReconcile 0 settings].
Definition evs2 : list AEvent := AStore 5 (binding 1) :: evs1.

Lemma example_exec1 : aexec no_key evs1 st1.
Proof. eapply aexec_step; [constructor|reflexivity|done]. Qed.
Lemma example_exec2 : aexec no_key evs2 st2.
Proof. eapply aexec_step; [apply example_exec1|vm_compute; reflexivity|done]. Qed.
End AffinityExample.

Lemma affinity_bounded_witness :
  let st := AffinityExample.st2 in
  (size st.(entries) ≤ st.(max_entries))%nat ∧
  (∀ k e, st.(entries) !! k = Some e → is_Some (st.(active_rules) !! k.(rule_fingerprint))) ∧
  (∀ now b, affinity_store AffinityExample.no_key now b st
            = affinity_store (λ m, fst <$> head (map_to_list m)) now b st) ∧
  (∀ now settings, reconcile_affinity AffinityExample.no_key now settings st
                   = reconcile_affinity (λ m, fst <$> head (map_to_list m)) now settings st).
Proof. apply (affinity_bounded AffinityExample.no_key _ AffinityExample.evs2). apply AffinityExample.example_exec2. Defined.

Lemma affinity_store_evicts_oldest_witness :
  let st := AffinityExample.st2 in
  let b := AffinityExample.binding 2 in
  let st' := default st (affinity_store AffinityExample.no_key 6 b st) in
  st'.(entries) !! b.(bind_key) =
    Some {| candidate := b.(bind_candidate); expires_at := 6 + b.(bind_ttl);
            generation := st.(next_generation) + 1 |} ∧
  (∀ k, k ≠ b.(bind_key) → st'.(entries) !! k = st.(entries) !! k ∨ st'.(entries) !! k = None) ∧
  (∀ k e k' e', st.(entries) !! k = Some e → k ≠ b.(bind_key) → st'.(entries) !! k = None →
     st'.(entries) !! k' = Some e' → e.(generation) < e'.(generation)) ∧
  size st'.(entries)
    = Nat.min (size st.(entries) + match st.(entries) !! b.(bind_key) with Some _ => 0 | None => 1 end)
        st.(max_entries) ∧
  (length st'.(recency) ≤ size st'.(entries) * 4 + 1024)%nat.
Proof.
  apply (affinity_store_evicts_oldest AffinityExample.no_key AffinityExample.evs2);
    [apply AffinityExample.example_exec2|reflexivity|vm_compute; reflexivity|vm_compute; reflexivity].
Defined.

Lemma affinity_store_lookup_witness :
  let b := AffinityExample.binding 1 in
  let st' := AffinityExample.st2 in
  (50 < 5 + b.(bind_ttl) → affinity_lookup 50 b.(bind_key) st' = (st', Some b.(bind_candidate))) ∧
  (5 + b.(bind_ttl) ≤ 50 →
     (affinity_lookup 50 b.(bind_key) st').2 = None ∧
     (affinity_lookup 50 b.(bind_key) st').1.(entries) !! b.(bind_key) = None).
Proof.
  apply (affinity_store_lookup AffinityExample.no_key AffinityExample.evs1 AffinityExample.st1);
    [apply AffinityExample.example_exec1|reflexivity|vm_compute; reflexivity|vm_compute; reflexivity].
Defined.

Lemma affinity_hit_sound_witness :
  (∃ expires, last_binding (AffinityExample.key 1) AffinityExample.evs2
              = Some (AffinityExample.target, expires) ∧ 50 < expires) ∧
  AffinityExample.st2.(enabled) = true ∧
  is_Some (AffinityExample.st2.(active_rules) !! (AffinityExample.key 1).(rule_fingerprint)).
Proof.
  apply (affinity_hit_sound AffinityExample.no_key AffinityExample.evs2);
    [apply AffinityExample.example_exec2|vm_compute; reflexivity].
Defined.
