(* ===== verification/Routing.v ===== *)
(** * Route selection

    Models the selection handlers of [src/routing/mod.rs]: channel
    capabilities, the shared runtime state ([RuntimeInner]), eligibility,
    [select_with_affinity_excluding_capability], the preferred-channel variant,
    the WebSocket preflight, leases and their drop, health snapshots and
    [reconcile].

    A [ChannelState] is shared through an [Arc]: the runtime maps identities to
    locations of a heap, and a lease keeps the location it acquired, so a lease
    of a state that was removed or replaced still refers to its own object (the
    [Arc::ptr_eq] of the drop handler compares locations).  The sharding of the
    maps by hash is not observable and left out.  Selections are atomic steps
    here; what other requests can do in between is covered by the interleaved
    model of [Health] and the per-scan eligibility of [Selection]. *)

From S2P Require Import Prelude Text Decimal Domain Billing Cost Compiled Health Selection Affinity.

(** ** Capabilities *)

Inductive ChannelCapability :=
| CapAny
| CapUnsupportedProtocol
| CapResponsesWebSocket
| CapStandaloneWebSearch
| CapTransport (t : CapabilityTransport.t)
| CapResponsesNonStream.
#[export] Instance ChannelCapability_eq_dec : EqDecision ChannelCapability.
Proof. solve_decision. Defined.
#[export] Instance ChannelCapability_countable : Countable ChannelCapability.
Proof.
  apply (inj_countable'
    (λ c, match c with
          | CapAny => 0 | CapUnsupportedProtocol => 1 | CapResponsesWebSocket => 2
          | CapStandaloneWebSearch => 3 | CapResponsesNonStream => 4
          | CapTransport CapabilityTransport.HttpJson => 5
          | CapTransport CapabilityTransport.HttpSse => 6
          | CapTransport CapabilityTransport.Websocket => 7
          | CapTransport CapabilityTransport.Multipart => 8
          end%nat)
    (λ n, match n with
          | 0 => CapAny | 1 => CapUnsupportedProtocol | 2 => CapResponsesWebSocket
          | 3 => CapStandaloneWebSearch | 4 => CapResponsesNonStream
          | 5 => CapTransport CapabilityTransport.HttpJson
          | 6 => CapTransport CapabilityTransport.HttpSse
          | 7 => CapTransport CapabilityTransport.Websocket
          | _ => CapTransport CapabilityTransport.Multipart
          end%nat)).
  by intros [| | | |[]|].
Defined.

Definition capability_permits {D Policy Auth} (cap : ChannelCapability)
    (c : CompiledChannel D Policy Auth) : bool :=
  match cap with
  | CapAny => true
  | CapUnsupportedProtocol => false
  | CapResponsesWebSocket =>
      c.(supports_websocket) && permits_transport c CapabilityTransport.Websocket
  | CapStandaloneWebSearch =>
      c.(supports_standalone_web_search) && permits_transport c CapabilityTransport.HttpJson
  | CapTransport t => permits_transport c t
  | CapResponsesNonStream =>
      permits_transport c CapabilityTransport.HttpJson
      || (bool_decide (c.(connector_kind) = ConnectorKind.CodexOauth)
          && negb c.(strict_transport_contract)
          && permits_transport c CapabilityTransport.HttpSse)
  end.

Definition capability_for_operation (o : ApiOperation.t) (p : RequestProtocol.t) : ChannelCapability :=
  if negb (Bool.eqb (bool_decide (p = RequestProtocol.WebSocket))
                    (bool_decide (o = ApiOperation.ResponsesWebSocket)))
  then CapUnsupportedProtocol
  else
    match o with
    | ApiOperation.ResponsesWebSocket => CapResponsesWebSocket
    | ApiOperation.StandaloneWebSearch => CapStandaloneWebSearch
    | ApiOperation.ImagesGeneration => CapTransport CapabilityTransport.HttpJson
    | ApiOperation.ImagesEdit => CapTransport CapabilityTransport.Multipart
    | ApiOperation.ChatCompletions =>
        if bool_decide (p = RequestProtocol.Sse) then CapTransport CapabilityTransport.HttpSse
        else CapTransport CapabilityTransport.HttpJson
    | ApiOperation.Responses =>
        if bool_decide (p = RequestProtocol.Sse) then CapTransport CapabilityTransport.HttpSse
        else CapResponsesNonStream
    end.

(** ** The runtime *)

Record ChannelIdentity := {
  ident_id : uuid;
  ident_connectivity_fingerprint : string;
  ident_outbound_network_policy_fingerprint : digest;
}.
#[export] Instance ChannelIdentity_eq_dec : EqDecision ChannelIdentity.
Proof. solve_decision. Defined.
#[export] Instance ChannelIdentity_countable : Countable ChannelIdentity.
Proof.
  apply (inj_countable'
    (λ i, (i.(ident_id), i.(ident_connectivity_fingerprint), i.(ident_outbound_network_policy_fingerprint)))
    (λ p, {| ident_id := p.1.1; ident_connectivity_fingerprint := p.1.2;
             ident_outbound_network_policy_fingerprint := p.2 |})).
  by intros [].
Defined.

Record RoundRobinKey := {
  rr_rule_id : uuid;
  rr_priority : Z;
  rr_tier_fingerprint : digest;
  rr_routing_scope_fingerprint : digest;
  rr_capability : ChannelCapability;
}.
#[export] Instance RoundRobinKey_eq_dec : EqDecision RoundRobinKey.
Proof. solve_decision. Defined.
#[export] Instance RoundRobinKey_countable : Countable RoundRobinKey.
Proof.
  apply (inj_countable'
    (λ k, (k.(rr_rule_id), k.(rr_priority), k.(rr_tier_fingerprint),
           k.(rr_routing_scope_fingerprint), k.(rr_capability)))
    (λ p, {| rr_rule_id := p.1.1.1.1; rr_priority := p.1.1.1.2; rr_tier_fingerprint := p.1.1.2;
             rr_routing_scope_fingerprint := p.1.2; rr_capability := p.2 |})).
  by intros [].
Defined.

(** A location stands for the object behind an [Arc<ChannelState>]. *)
Abbreviation loc := N (only parsing).

Record RuntimeInner := {
  health_policy : PassiveHealthPolicy;
  heap : gmap loc ChannelState;
  next_loc : loc;
  channel_states : gmap ChannelIdentity loc;
  active_channels : option (gset ChannelIdentity);
  round_robin : gmap RoundRobinKey (gmap RouteCandidateIdentity Z);
  affinity : AffinityState;
  entropy : Z;
}.

Definition set_states (inner : RuntimeInner) (h : gmap loc ChannelState) (next : loc)
    (m : gmap ChannelIdentity loc) : RuntimeInner :=
  {| health_policy := inner.(health_policy); heap := h; next_loc := next; channel_states := m;
     active_channels := inner.(active_channels); round_robin := inner.(round_robin);
     affinity := inner.(affinity); entropy := inner.(entropy) |}.
Definition set_heap (inner : RuntimeInner) (h : gmap loc ChannelState) : RuntimeInner :=
  set_states inner h inner.(next_loc) inner.(channel_states).
Definition set_round_robin (inner : RuntimeInner)
    (rr : gmap RoundRobinKey (gmap RouteCandidateIdentity Z)) : RuntimeInner :=
  {| health_policy := inner.(health_policy); heap := inner.(heap); next_loc := inner.(next_loc);
     channel_states := inner.(channel_states); active_channels := inner.(active_channels);
     round_robin := rr; affinity := inner.(affinity); entropy := inner.(entropy) |}.
Definition set_affinity (inner : RuntimeInner) (a : AffinityState) : RuntimeInner :=
  {| health_policy := inner.(health_policy); heap := inner.(heap); next_loc := inner.(next_loc);
     channel_states := inner.(channel_states); active_channels := inner.(active_channels);
     round_robin := inner.(round_robin); affinity := a; entropy := inner.(entropy) |}.
Definition set_entropy (inner : RuntimeInner) (e : Z) : RuntimeInner :=
  {| health_policy := inner.(health_policy); heap := inner.(heap); next_loc := inner.(next_loc);
     channel_states := inner.(channel_states); active_channels := inner.(active_channels);
     round_robin := inner.(round_robin); affinity := inner.(affinity); entropy := e |}.

(** The object an identity maps to. *)
Definition channel_state (inner : RuntimeInner) (i : ChannelIdentity) : option ChannelState :=
  inner.(channel_states) !! i ≫= λ l, inner.(heap) !! l.

Definition usable (inner : RuntimeInner) (i : ChannelIdentity) (now : Z) : bool :=
  is_none_or (channel_state inner i) (is_usable now).

Definition identity_is_active (inner : RuntimeInner) (i : ChannelIdentity) : bool :=
  is_none_or inner.(active_channels) (λ cs, bool_decide (i ∈ cs)).

Definition channel_is_active (inner : RuntimeInner) (i : ChannelIdentity) : bool :=
  match channel_state inner i with
  | Some st => st.(active)
  | None => identity_is_active inner i
  end.

Definition channel_state_or_insert (inner : RuntimeInner) (i : ChannelIdentity) : RuntimeInner * loc :=
  match inner.(channel_states) !! i with
  | Some l => (inner, l)
  | None =>
      let l := inner.(next_loc) in
      (set_states inner (<[l := new_state (identity_is_active inner i)]> inner.(heap)) (N.succ l)
         (<[i := l]> inner.(channel_states)), l)
  end.

Definition try_acquire_channel (inner : RuntimeInner) (i : ChannelIdentity) (now : Z)
  : RuntimeInner * option (loc * Z) :=
  let '(inner1, l) := channel_state_or_insert inner i in
  match inner1.(heap) !! l with
  | None => (inner1, None)
  | Some st =>
      let '(st', claim) := try_acquire now st in
      (set_heap inner1 (<[l := st']> inner1.(heap)), (λ c, (l, c)) <$> claim)
  end.

(** ** Leases *)

Record ChannelLease := {
  lease_identity : ChannelIdentity;
  lease_state : loc;
  half_open_claim : Z;
  lease_affinity : option AffinityBinding;
  released : bool;
}.

Record SessionAffinityMatch := {
  match_rule_name : string;
  match_rule_fingerprint : N;
  match_session_hash : N;
  match_ttl : Z;
}.

Record PreparedAffinity := {
  prep_key : AffinityCacheKey;
  prep_rule_name : string;
  prep_ttl : Z;
  preferred_candidate : option RouteCandidateIdentity;
}.

Record SessionAffinitySelection := { sel_rule_name : string; sel_cache_hit : bool }.

Section routing.
Context {D V T Policy Auth : Type} `{DecimalOps D} `{UtcOps T}.
(** [upstream_policy().outbound_network_policy_fingerprint()] *)
Context (outbound_fingerprint : Policy → digest).
Context (any_key : gmap AffinityCacheKey AffinityEntry → option AffinityCacheKey).

Abbreviation Channel := (CompiledChannel D Policy Auth).
Abbreviation Candidate := (CompiledCandidate D Policy Auth).
Abbreviation Tier := (CompiledRouteTier D Policy Auth).
Abbreviation Rule := (CompiledModelRule D V T Policy Auth).
Abbreviation Key := (CompiledApiKey D T).

Definition identity_from_channel (c : Channel) : ChannelIdentity :=
  {| ident_id := c.(channel_id);
     ident_connectivity_fingerprint := c.(connectivity_fingerprint);
     ident_outbound_network_policy_fingerprint := outbound_fingerprint c.(upstream_policy) |}.

Definition identity_from_candidate (c : Candidate) : RouteCandidateIdentity :=
  {| rc_channel_id := c.(channel).(channel_id); rc_upstream_model := c.(upstream_model) |}.

Definition identity_matches (i : RouteCandidateIdentity) (c : Candidate) : bool :=
  bool_decide (i.(rc_channel_id) = c.(channel).(channel_id))
  && bool_decide (i.(rc_upstream_model) = c.(upstream_model)).

(** The part of a snapshot that routing reads. *)
Record RoutingSnapshot := {
  snapshot_rules : gmap ApiOperation.t (gmap string Rule);
  snapshot_channels : list Channel;
  snapshot_affinity : AffinitySettings;
}.

Definition operation_rule (s : RoutingSnapshot) (o : ApiOperation.t) (model : string) : option Rule :=
  routes_get s.(snapshot_rules) o model.

(** ** Eligibility *)

(** The conditions that do not depend on health. *)
Definition allowed (key : Key) (excluded : list nat) (cap : ChannelCapability) (c : Candidate) : bool :=
  capability_permits cap c.(channel)
  && permits_route_candidate key c.(channel_slot)
  && negb (bool_decide (c.(candidate_slot) ∈ excluded)).

Definition eligible (inner : RuntimeInner) (key : Key) (excluded : list nat)
    (cap : ChannelCapability) (now : Z) (c : Candidate) : bool :=
  allowed key excluded cap c && usable inner (identity_from_channel c.(channel)) now.

(** ** Affinity of a request *)

Definition prepare_affinity (now : Z) (key : Key) (rule : Rule) (m : option SessionAffinityMatch)
    (inner : RuntimeInner) : RuntimeInner * option PreparedAffinity :=
  match m with
  | None => (inner, None)
  | Some a =>
      let k := {| rule_fingerprint := a.(match_rule_fingerprint);
                  api_key_id := key.(key_id);
                  model_rule_id := rule.(rule_id);
                  session_hash := a.(match_session_hash) |} in
      let '(st, preferred) := affinity_lookup now k inner.(affinity) in
      (set_affinity inner st,
       Some {| prep_key := k; prep_rule_name := a.(match_rule_name); prep_ttl := a.(match_ttl);
               preferred_candidate := preferred |})
  end.

Definition preferred_of (a : option PreparedAffinity) : option RouteCandidateIdentity :=
  a ≫= preferred_candidate.

(** ** One tier *)

Definition affinity_candidate_of (inner : RuntimeInner) (key : Key) (excluded : list nat)
    (cap : ChannelCapability) (now : Z) (a : option PreparedAffinity) (tier : Tier) : option Candidate :=
  match preferred_of a with
  | None => None
  | Some preferred =>
      List.find (λ c, identity_matches preferred c && eligible inner key excluded cap now c)
        tier.(candidates)
  end.

(** The strategies.  [None] stands for fuel that ran out; one round is enough
    because the eligibility does not change during an atomic selection, and the
    total weight bounds the rejected draws. *)
Definition select_by_strategy (inner : RuntimeInner) (rule : Rule) (tier : Tier) (key : Key)
    (excluded : list nat) (cap : ChannelCapability) (now : Z)
  : option (RuntimeInner * option Candidate) :=
  let ok := eligible inner key excluded cap now in
  match tier.(strategy) with
  | WeightedRandom =>
      match weighted_ticket weight 1 (S (Z.to_nat (total_weight weight tier.(candidates))))
              (λ _, ok) 0 tier.(candidates) inner.(entropy) with
      | None => None
      | Some (entropy', c) => Some (set_entropy inner entropy', c)
      end
  | WeightedRoundRobin =>
      let rr_key := {| rr_rule_id := rule.(rule_id); rr_priority := tier.(priority);
                       rr_tier_fingerprint := tier.(tier_fingerprint);
                       rr_routing_scope_fingerprint := routing_scope_fingerprint key;
                       rr_capability := cap |} in
      let candidates_are_active :=
        forallb (λ c, channel_is_active inner (identity_from_channel c.(channel)))
          (List.filter (allowed key excluded cap) tier.(candidates)) in
      if candidates_are_active then
        let '(cursor, c) := smooth_round_robin weight identity_from_candidate ok tier.(candidates)
                              (default ∅ (inner.(round_robin) !! rr_key)) in
        Some (set_round_robin inner (<[rr_key := cursor]> inner.(round_robin)), c)
      else
        let '(_, c) := smooth_round_robin weight identity_from_candidate ok tier.(candidates) ∅ in
        Some (inner, c)
  end.

(** The inner loop: [None] when the attempts (or a strategy's fuel) ran out,
    [Some (inner, None)] when the tier has no candidate left. *)
Fixpoint select_in_tier (attempts : nat) (inner : RuntimeInner) (allow_affinity : bool)
    (a : option PreparedAffinity) (rule : Rule) (tier : Tier) (key : Key) (excluded : list nat)
    (cap : ChannelCapability) (now : Z)
  : option (RuntimeInner * option (Candidate * bool * loc * Z)) :=
  match attempts with
  | O => None
  | S attempts' =>
      let from_affinity :=
        if allow_affinity then affinity_candidate_of inner key excluded cap now a tier else None in
      let cache_hit := bool_decide (is_Some from_affinity) in
      match (match from_affinity with
             | Some c => Some (inner, Some c)
             | None => select_by_strategy inner rule tier key excluded cap now
             end) with
      | None => None
      | Some (inner1, None) => Some (inner1, None)
      | Some (inner1, Some c) =>
          match try_acquire_channel inner1 (identity_from_channel c.(channel)) now with
          | (inner2, Some (l, claim)) => Some (inner2, Some (c, cache_hit, l, claim))
          | (inner2, None) =>
              select_in_tier attempts' inner2 false a rule tier key excluded cap now
          end
      end
  end.

(** The tiers in order, until one yields a candidate. *)
Fixpoint select_in_tiers (inner : RuntimeInner) (a : option PreparedAffinity) (rule : Rule)
    (ts : list Tier) (key : Key) (excluded : list nat) (cap : ChannelCapability) (now : Z)
  : option (RuntimeInner * option (Candidate * bool * loc * Z)) :=
  match ts with
  | [] => Some (inner, None)
  | tier :: ts' =>
      match select_in_tier 1 inner true a rule tier key excluded cap now with
      | None => None
      | Some (inner1, None) => select_in_tiers inner1 a rule ts' key excluded cap now
      | Some (inner1, Some s) => Some (inner1, Some s)
      end
  end.

(** ** The handlers *)

Record SelectedRoute := {
  sr_rule : Rule;
  sr_channel : Channel;
  sr_candidate_slot : nat;
  sr_channel_slot : nat;
  sr_upstream_model : string;
  sr_session_affinity : option SessionAffinitySelection;
  sr_lease : ChannelLease;
}.

Inductive SelectionResult :=
| UnknownOrInaccessibleModel
| NoHealthyChannel (rule : Rule)
| Selected (route : SelectedRoute).

(** A preferred candidate that is healthy and permitted but not usable with
    this transport keeps its session. *)
Definition preserves_affinity (inner : RuntimeInner) (a : option PreparedAffinity) (rule : Rule)
    (key : Key) (excluded : list nat) (cap : ChannelCapability) (now : Z) : bool :=
  is_some_and (preferred_of a) (λ preferred,
    existsb (λ c : Candidate,
      identity_matches preferred c
      && permits_route_candidate key c.(channel_slot)
      && negb (bool_decide (c.(candidate_slot) ∈ excluded))
      && negb (capability_permits cap c.(channel))
      && usable inner (identity_from_channel c.(channel)) now)
      (flat_map candidates rule.(tiers))).

Definition remove_stale (a : option PreparedAffinity) (stale : option RouteCandidateIdentity)
    (inner : RuntimeInner) : RuntimeInner :=
  match a, stale with
  | Some p, Some c => set_affinity inner (affinity_remove_if_candidate p.(prep_key) c inner.(affinity))
  | _, _ => inner
  end.

Definition make_route (rule : Rule) (a : option PreparedAffinity) (bind : bool)
    (c : Candidate) (cache_hit : bool) (l : loc) (claim : Z) : SelectedRoute :=
  {| sr_rule := rule; sr_channel := c.(channel); sr_candidate_slot := c.(candidate_slot);
     sr_channel_slot := c.(channel_slot); sr_upstream_model := c.(upstream_model);
     sr_session_affinity :=
       (λ p, {| sel_rule_name := p.(prep_rule_name); sel_cache_hit := cache_hit |}) <$> a;
     sr_lease :=
       {| lease_identity := identity_from_channel c.(channel); lease_state := l;
          half_open_claim := claim;
          lease_affinity :=
            if bind then
              (λ p, {| bind_key := p.(prep_key); bind_ttl := p.(prep_ttl);
                       bind_candidate := identity_from_candidate c;
                       bind_cache_hit := cache_hit |}) <$> a
            else None;
          released := false |} |}.

(** [lookup_now] and [now] are the two readings of the clock. *)
Definition select_with_affinity_excluding_capability (lookup_now now : Z) (inner : RuntimeInner)
    (s : RoutingSnapshot) (key : Key) (operation : ApiOperation.t) (model : string)
    (m : option SessionAffinityMatch) (excluded : list nat) (cap : ChannelCapability)
  : option (RuntimeInner * SelectionResult) :=
  match operation_rule s operation model with
  | None => Some (inner, UnknownOrInaccessibleModel)
  | Some rule =>
      if negb (permits_route key rule.(route_slot)) then Some (inner, UnknownOrInaccessibleModel)
      else
        let '(inner1, a) := prepare_affinity lookup_now key rule m inner in
        let preserve := preserves_affinity inner1 a rule key excluded cap now in
        match select_in_tiers inner1 a rule rule.(tiers) key excluded cap now with
        | None => None
        | Some (inner2, Some (c, cache_hit, l, claim)) =>
            let stale := if negb cache_hit && negb preserve then preferred_of a else None in
            Some (remove_stale a stale inner2,
                  Selected (make_route rule a (negb preserve) c cache_hit l claim))
        | Some (inner2, None) =>
            let stale := if negb preserve then preferred_of a else None in
            Some (remove_stale a stale inner2, NoHealthyChannel rule)
        end
  end.

Definition select_operation_with_affinity_excluding (lookup_now now : Z) (inner : RuntimeInner)
    (s : RoutingSnapshot) (key : Key) (operation : ApiOperation.t) (protocol : RequestProtocol.t)
    (model : string) (m : option SessionAffinityMatch) (excluded : list nat)
  : option (RuntimeInner * SelectionResult) :=
  select_with_affinity_excluding_capability lookup_now now inner s key operation model m excluded
    (capability_for_operation operation protocol).

Definition select_with_affinity_excluding (lookup_now now : Z) (inner : RuntimeInner)
    (s : RoutingSnapshot) (key : Key) (format : ApiFormat.t) (model : string)
    (m : option SessionAffinityMatch) (excluded : list nat) : option (RuntimeInner * SelectionResult) :=
  select_with_affinity_excluding_capability lookup_now now inner s key
    (ApiOperation.legacy_default format) model m excluded CapAny.

Definition select_websocket_with_affinity_excluding (lookup_now now : Z) (inner : RuntimeInner)
    (s : RoutingSnapshot) (key : Key) (format : ApiFormat.t) (model : string)
    (m : option SessionAffinityMatch) (excluded : list nat) : option (RuntimeInner * SelectionResult) :=
  if negb (bool_decide (format = ApiFormat.OpenAiResponses)) then Some (inner, UnknownOrInaccessibleModel)
  else select_with_affinity_excluding_capability lookup_now now inner s key
         ApiOperation.ResponsesWebSocket model m excluded CapResponsesWebSocket.

(** *** A preferred channel *)

(** The candidate of the first tier with an eligible candidate. *)
Definition preferred_in_tier (inner : RuntimeInner) (a : option PreparedAffinity)
    (preferred_channel_id : uuid) (preferred_upstream_model : option string) (tier : Tier)
    (key : Key) (excluded : list nat) (cap : ChannelCapability) (now : Z) : option Candidate :=
  match affinity_candidate_of inner key excluded cap now a tier with
  | Some c => Some c
  | None =>
      match preferred_upstream_model with
      | Some model =>
          List.find (λ c, bool_decide (c.(channel).(channel_id) = preferred_channel_id)
                          && bool_decide (c.(upstream_model) = model)
                          && eligible inner key excluded cap now c) tier.(candidates)
      | None =>
          match List.filter (λ c, bool_decide (c.(channel).(channel_id) = preferred_channel_id)
                                  && eligible inner key excluded cap now c) tier.(candidates) with
          | [c] => Some c
          | _ => None
          end
      end
  end.

Definition select_preferred_channel_with_capability (lookup_now now : Z) (inner : RuntimeInner)
    (s : RoutingSnapshot) (key : Key) (operation : ApiOperation.t) (model : string)
    (preferred_channel_id : uuid) (preferred_upstream_model : option string)
    (m : option SessionAffinityMatch) (excluded : list nat) (cap : ChannelCapability)
  : RuntimeInner * option SelectedRoute :=
  match operation_rule s operation model with
  | None => (inner, None)
  | Some rule =>
      if negb (permits_route key rule.(route_slot)) then (inner, None)
      else
        let '(inner1, a) := prepare_affinity lookup_now key rule m inner in
        let first :=
          List.find (λ t : Tier, existsb (eligible inner1 key excluded cap now) t.(candidates))
            rule.(tiers) in
        match first ≫= λ tier, preferred_in_tier inner1 a preferred_channel_id
                                 preferred_upstream_model tier key excluded cap now with
        | None => (inner1, None)
        | Some c =>
            match try_acquire_channel inner1 (identity_from_channel c.(channel)) now with
            | (inner2, None) => (inner2, None)
            | (inner2, Some (l, claim)) =>
                let cache_hit := bool_decide (preferred_of a = Some (identity_from_candidate c)) in
                let stale := if cache_hit then None else preferred_of a in
                (remove_stale a stale inner2, Some (make_route rule a true c cache_hit l claim))
            end
        end
  end.

(** *** The upgrade preflight *)

Definition has_available_websocket_route (now : Z) (inner : RuntimeInner) (s : RoutingSnapshot)
    (key : Key) (connector_available : Channel → bool) : bool :=
  existsb (λ rule : Rule,
    bool_decide (rule.(api_operation) = ApiOperation.ResponsesWebSocket)
    && permits_route key rule.(route_slot)
    && existsb (λ t : Tier,
         existsb (λ c : Candidate,
           c.(channel).(supports_websocket)
           && permits_route_candidate key c.(channel_slot)
           && connector_available c.(channel)
           && usable inner (identity_from_channel c.(channel)) now) t.(candidates)) rule.(tiers))
    (flat_map (λ m : gmap string Rule, snd <$> map_to_list m)
       (snd <$> map_to_list s.(snapshot_rules))).

(** ** Leases *)

Definition update_state (inner : RuntimeInner) (l : loc) (f : ChannelState → ChannelState) : RuntimeInner :=
  set_heap inner (alter f l inner.(heap)).

Definition lease_request_succeeded (now : Z) (lease : ChannelLease) (inner : RuntimeInner)
  : option RuntimeInner :=
  match lease.(lease_affinity) with
  | None => Some inner
  | Some b => set_affinity inner <$> affinity_store any_key now b inner.(affinity)
  end.

Definition lease_request_failed (lease : ChannelLease) (inner : RuntimeInner) : RuntimeInner :=
  match lease.(lease_affinity) with
  | Some b =>
      if b.(bind_cache_hit)
      then set_affinity inner (affinity_remove_if_candidate b.(bind_key) b.(bind_candidate) inner.(affinity))
      else inner
  | None => inner
  end.

Definition lease_response_headers_received (lease : ChannelLease) (inner : RuntimeInner) : RuntimeInner :=
  update_state inner lease.(lease_state) response_headers_received.

(** [None]: [now + cooldown] overflows. *)
Definition lease_connection_failed (now : Z) (lease : ChannelLease) (inner : RuntimeInner)
  : option RuntimeInner :=
  (λ until, update_state inner lease.(lease_state)
     (connection_failed inner.(health_policy).(connection_failure_threshold) until))
  <$> duration_add now inner.(health_policy).(cooldown).

Definition lease_probe_failed (now : Z) (lease : ChannelLease) (inner : RuntimeInner)
  : option RuntimeInner :=
  if lease.(half_open_claim) =? 0 then Some inner
  else (λ until, update_state inner lease.(lease_state) (probe_failed lease.(half_open_claim) until))
       <$> duration_add now inner.(health_policy).(cooldown).

Definition drop_lease (lease : ChannelLease) (inner : RuntimeInner) : RuntimeInner :=
  if lease.(released) then inner
  else
    match inner.(heap) !! lease.(lease_state) with
    | None => inner
    | Some st =>
        let '(st', remaining) := drop_health lease.(half_open_claim) st in
        let inner1 := set_heap inner (<[lease.(lease_state) := st']> inner.(heap)) in
        if (remaining =? 0) && negb st'.(active) then
          let remove :=
            is_some_and (inner1.(channel_states) !! lease.(lease_identity)) (λ l,
              bool_decide (l = lease.(lease_state))
              && is_some_and (inner1.(heap) !! l) (λ current,
                   (current.(in_flight) =? 0) && negb current.(active))) in
          if remove
          then set_states inner1 inner1.(heap) inner1.(next_loc)
                 (delete lease.(lease_identity) inner1.(channel_states))
          else inner1
        else inner1
    end.

(** ** Health and reconciliation *)

Definition health (now : Z) (inner : RuntimeInner) (c : Channel) : ChannelHealthSnapshot :=
  match channel_state inner (identity_from_channel c) with
  | Some st => Health.snapshot now st
  | None => {| snap_in_flight := 0; snap_failures := 0; snap_cooling_down := false;
               snap_half_open_probe := false |}
  end.

Record RoutingPressureSnapshot := {
  tracked_channels : Z;
  in_flight_requests : Z;
  cooling_down_channels : Z;
  half_open_channels : Z;
  session_affinity_entries : Z;
}.

(** The objects behind the values of the map. *)
Definition tracked_states (inner : RuntimeInner) : list ChannelState :=
  omap (λ p, inner.(heap) !! p.2) (map_to_list inner.(channel_states)).

(** Pruning the affinity cache is its only effect. *)
Definition pressure_snapshot (now : Z) (inner : RuntimeInner) : RuntimeInner * RoutingPressureSnapshot :=
  let snaps := Health.snapshot now <$> tracked_states inner in
  let count (f : ChannelHealthSnapshot → bool) :=
    foldl (λ n x, if f x then sat_add u64_max n 1 else n) 0 snaps in
  let pruned := prune_expired_affinity now inner.(affinity) in
  (set_affinity inner pruned,
   {| tracked_channels :=
        Z.min u64_max (from_option (λ actives : gset ChannelIdentity, Z.of_nat (size actives))
          (Z.of_nat (size inner.(channel_states))) inner.(active_channels));
      in_flight_requests := foldl (λ n x, sat_add u64_max n x.(snap_in_flight)) 0 snaps;
      cooling_down_channels := count snap_cooling_down;
      half_open_channels := count snap_half_open_probe;
      session_affinity_entries := Z.min u64_max (Z.of_nat (size pruned.(entries))) |}).

(** The console's views of the affinity cache. *)
Definition session_affinity_cache_snapshot (now : Z) (inner : RuntimeInner) : RuntimeInner * CacheSnapshot :=
  let pruned := prune_expired_affinity now inner.(affinity) in
  (set_affinity inner pruned, affinity_cache_snapshot pruned).

Definition runtime_clear_affinity (now : Z) (rule_name : option string) (inner : RuntimeInner)
  : RuntimeInner * option (Z * CacheSnapshot) :=
  let '(st, r) := clear_session_affinity_cache now rule_name inner.(affinity) in
  (set_affinity inner st, r).

(** [assert!]s on the policy: [None] is their panic. *)
Definition update_policy (policy : PassiveHealthPolicy) (inner : RuntimeInner) : option RuntimeInner :=
  if (policy.(connection_failure_threshold) <=? 0) || (policy.(cooldown) =? 0) then None
  else Some {| health_policy := policy; heap := inner.(heap); next_loc := inner.(next_loc);
               channel_states := inner.(channel_states); active_channels := inner.(active_channels);
               round_robin := inner.(round_robin); affinity := inner.(affinity);
               entropy := inner.(entropy) |}.

(** [channel.active.store(is_active)] for every entry of the map. *)
Definition mark_active (actives : gset ChannelIdentity) (m : gmap ChannelIdentity loc)
    (h : gmap loc ChannelState) : gmap loc ChannelState :=
  map_fold (λ i l h', alter (λ st, set_active st (bool_decide (i ∈ actives))) l h') h m.

(** The predicate of [retain], evaluated after the mark. *)
Definition keeps (actives : gset ChannelIdentity) (h : gmap loc ChannelState)
    (p : ChannelIdentity * loc) : Prop :=
  p.1 ∈ actives ∨ is_some_and (h !! p.2) (λ st, 0 <? st.(in_flight)) = true.
#[export] Instance keeps_dec actives h p : Decision (keeps actives h p).
Proof. unfold keeps. apply _. Defined.

(** [entry(identity).or_insert_with(...).active.store(true)] *)
Definition ensure_active (inner : RuntimeInner) (i : ChannelIdentity) : RuntimeInner :=
  match inner.(channel_states) !! i with
  | Some l => set_heap inner (alter (λ st, set_active st true) l inner.(heap))
  | None =>
      let l := inner.(next_loc) in
      set_states inner (<[l := new_state true]> inner.(heap)) (N.succ l)
        (<[i := l]> inner.(channel_states))
  end.

Definition reconcile (now : Z) (s : RoutingSnapshot) (inner : RuntimeInner) : RuntimeInner :=
  let actives : gset ChannelIdentity :=
    list_to_set (identity_from_channel <$> s.(snapshot_channels)) in
  let h1 := mark_active actives inner.(channel_states) inner.(heap) in
  let inner1 := set_states inner h1 inner.(next_loc)
                  (filter (keeps actives h1) inner.(channel_states)) in
  let inner2 := foldl ensure_active inner1 (elements actives) in
  {| health_policy := inner2.(health_policy); heap := inner2.(heap); next_loc := inner2.(next_loc);
     channel_states := inner2.(channel_states); active_channels := Some actives;
     round_robin := ∅;
     affinity := reconcile_affinity any_key now s.(snapshot_affinity) inner2.(affinity);
     entropy := inner2.(entropy) |}.

Definition new_runtime (policy : PassiveHealthPolicy) (seed : Z) : option RuntimeInner :=
  update_policy policy
    {| health_policy := policy; heap := ∅; next_loc := 0%N; channel_states := ∅;
       active_channels := None; round_robin := ∅; affinity := AffinityState_default;
       entropy := seed |}.
End routing.

(** ** Bookkeeping of channel states *)

(** Leases of the object at [l]. *)
Definition holders_of (l : loc) (leases : list ChannelLease) : Z :=
  sum_over (λ x, if decide (x.(lease_state) = l) then 1 else 0) leases.

Lemma holders_of_nonneg l leases : 0 ≤ holders_of l leases.
Proof. apply sum_over_nonneg. intros. case_decide; lia. Qed.

Lemma holders_of_le l leases : holders_of l leases ≤ Z.of_nat (length leases).
Proof. unfold holders_of. induction leases; simpl; [lia|]. case_decide; lia. Qed.

Lemma holders_of_pos leases x : x ∈ leases → 0 < holders_of x.(lease_state) leases.
Proof.
  intros Hx. unfold holders_of.
  pose proof (sum_over_elem (λ y, if decide (lease_state y = lease_state x) then 1 else 0) leases x) as He.
  cbv beta in He. rewrite decide_True in He by done.
  enough (1 ≤ sum_over (λ y, if decide (lease_state y = lease_state x) then 1 else 0) leases) by lia.
  apply He; [|done]. intros. case_decide; lia.
Qed.

Lemma holders_of_remove l l1 x l2 :
  holders_of l (l1 ++ x :: l2)
  = (if decide (x.(lease_state) = l) then 1 else 0) + holders_of l (l1 ++ l2).
Proof. unfold holders_of. rewrite !sum_over_app. simpl. lia. Qed.

(** The invariant of the map of channel states, given which identities are
    active: identities have their own object, every object counts its leases,
    an object is flagged active exactly for an active identity, a retired
    identity is kept only while it has a lease, and every lease refers to the
    current object of its identity. *)
Record states_ok (act : ChannelIdentity → bool) (h : gmap loc ChannelState) (next : loc)
    (m : gmap ChannelIdentity loc) (leases : list ChannelLease) : Prop := {
  so_object : ∀ i l, m !! i = Some l → ∃ st, h !! l = Some st ∧ st.(active) = act i ∧
                (st.(active) = false → 0 < st.(in_flight));
  so_inj : ∀ i j l, m !! i = Some l → m !! j = Some l → i = j;
  so_next : ∀ l, is_Some (h !! l) → (l < next)%N;
  so_count : ∀ l st, h !! l = Some st → st.(in_flight) = holders_of l leases;
  so_leases : ∀ x, x ∈ leases → m !! x.(lease_identity) = Some x.(lease_state) ∧ x.(released) = false;
}.

Definition inner_ok (inner : RuntimeInner) (leases : list ChannelLease) : Prop :=
  states_ok (identity_is_active inner) inner.(heap) inner.(next_loc) inner.(channel_states) leases.

Section states.
Context (act : ChannelIdentity → bool).
Implicit Types (h : gmap loc ChannelState) (m : gmap ChannelIdentity loc) (leases : list ChannelLease).

(** Objects in use lie below the next location. *)
Lemma states_ok_old h next m leases j l :
  states_ok act h next m leases → m !! j = Some l → l ≠ next.
Proof.
  intros [Hobj _ Hnext _ _] Hl ->. destruct (Hobj _ _ Hl) as (st & Hst & _).
  specialize (Hnext next (mk_is_Some _ _ Hst)). lia.
Qed.

Lemma states_ok_fresh_holders h next m leases :
  states_ok act h next m leases → holders_of next leases = 0.
Proof.
  intros Hok. unfold holders_of. rewrite (sum_over_ext _ (λ _, 0)), sum_over_const; [lia|].
  intros x Hx. rewrite decide_False; [done|]. intros Heq.
  destruct (so_leases _ _ _ _ _ Hok x Hx) as [Hm _]. by apply (states_ok_old _ _ _ _ _ _ Hok) in Hm.
Qed.

(** A fresh object for an identity without one, with its first lease if it has
    any. *)
Lemma states_ok_fresh h next m leases leases' i st :
  states_ok act h next m leases → m !! i = None → st.(active) = act i →
  (st.(active) = false → 0 < st.(in_flight)) →
  (leases' = leases ∧ st.(in_flight) = 0 ∨
   ∃ x, leases' = x :: leases ∧ st.(in_flight) = 1 ∧ x.(lease_identity) = i ∧
        x.(lease_state) = next ∧ x.(released) = false) →
  states_ok act (<[next := st]> h) (N.succ next) (<[i := next]> m) leases'.
Proof.
  intros Hok Hi Hact Hused Hleases. pose proof (states_ok_old h next m leases) as Hold.
  pose proof (states_ok_fresh_holders _ _ _ _ Hok) as Hfresh.
  pose proof Hok as [Hobj Hinj Hnext Hcount Hls]. split.
  - intros j l [[<- <-]|[Hne Hl]]%lookup_insert_Some.
    + exists st. by rewrite lookup_insert_eq.
    + destruct (Hobj _ _ Hl) as (st' & Hst & ?). exists st'.
      by rewrite lookup_insert_ne by (symmetry; eapply Hold; done).
  - intros j k l [[<- <-]|[Hj Hl]]%lookup_insert_Some [[<- E]|[Hk Hl']]%lookup_insert_Some; try done.
    + by apply (Hold _ _ Hok) in Hl'.
    + subst l. by apply (Hold _ _ Hok) in Hl.
    + eauto.
  - intros l [st' [[<- _]|[_ Hst]]%lookup_insert_Some]; [lia|].
    specialize (Hnext l (mk_is_Some _ _ Hst)). lia.
  - intros l st' [[<- <-]|[Hne Hst]]%lookup_insert_Some; destruct Hleases as
      [[-> Hf]|(x & -> & Hf & Hx & Hxs & Hr)]; try by rewrite Hf, ?Hfresh.
    + unfold holders_of in *. simpl. rewrite decide_True by done. lia.
    + by apply Hcount.
    + unfold holders_of. simpl. rewrite decide_False by congruence. by apply Hcount.
  - assert (∀ x, x ∈ leases → <[i := next]> m !! x.(lease_identity) = Some x.(lease_state) ∧
      x.(released) = false) as Hkeep.
    { intros x Hx. destruct (Hls x Hx) as [Hm Hr]. split; [|done].
      rewrite lookup_insert_ne; [done|]. intros Heq. rewrite Heq in Hi. congruence. }
    destruct Hleases as [[-> _]|(x & -> & _ & <- & <- & Hr)]; [done|].
    intros y [->|Hy]%elem_of_cons; [|by apply Hkeep]. by rewrite lookup_insert_eq.
Qed.

(** A change of an object that keeps its flag and counts the new leases. *)
Lemma states_ok_update h next m leases leases' l st st' :
  states_ok act h next m leases → h !! l = Some st → st'.(active) = st.(active) →
  (∀ l', holders_of l' leases' = holders_of l' leases + (if decide (l = l') then st'.(in_flight) - st.(in_flight) else 0)) →
  (∀ x, x ∈ leases' → m !! x.(lease_identity) = Some x.(lease_state) ∧ x.(released) = false) →
  (st'.(active) = false → ∀ i, m !! i = Some l → 0 < st'.(in_flight)) →
  states_ok act (<[l := st']> h) next m leases'.
Proof.
  intros [Hobj Hinj Hnext Hcount Hls] Hst Hact Hh Hls' Hused. split; [..|done].
  - intros i l' Hl'. destruct (Hobj _ _ Hl') as (s & Hs & Ha & Hu).
    destruct (decide (l = l')) as [<-|Hne].
    + exists st'. rewrite lookup_insert_eq. simplify_eq. split_and!; [done|congruence|eauto].
    + exists s. by rewrite lookup_insert_ne.
  - done.
  - intros l' [s [[<- _]|[_ Hs]]%lookup_insert_Some]; apply Hnext; eauto.
  - intros l' s [[<- <-]|[Hne Hs]]%lookup_insert_Some; rewrite Hh.
    + rewrite decide_True, <- (Hcount _ _ Hst) by done. lia.
    + rewrite decide_False, <- (Hcount _ _ Hs) by done. lia.
Qed.

Lemma states_ok_same h next m leases l f :
  states_ok act h next m leases →
  (∀ st, (f st).(active) = st.(active) ∧ (f st).(in_flight) = st.(in_flight)) →
  states_ok act (alter f l h) next m leases.
Proof.
  intros Hok Hf. destruct (h !! l) as [st|] eqn:Hst.
  - assert (alter f l h = <[l := f st]> h) as ->.
    { apply map_eq. intros j. destruct (decide (l = j)) as [<-|Hne].
      - by rewrite lookup_alter_eq, lookup_insert_eq, Hst.
      - by rewrite lookup_alter_ne, lookup_insert_ne. }
    destruct (Hf st) as [Ha Hi]. eapply states_ok_update; [done|done|done| |apply Hok|].
    + intros l'. rewrite Hi. case_decide; lia.
    + intros Hfa i Hm. rewrite Hi. destruct (so_object _ _ _ _ _ Hok _ _ Hm) as (s & Hs & _ & Hu).
      simplify_eq. rewrite Ha in Hfa. auto.
  - by rewrite alter_id by (intros ? Hs; congruence).
Qed.
End states.

(** *** Acquisition, release and reconciliation *)

Lemma try_acquire_active now st : (try_acquire now st).1.(active) = st.(active).
Proof. unfold try_acquire. by repeat case_match. Qed.

Lemma try_acquire_counts now st c st' :
  try_acquire now st = (st', Some c) → st'.(in_flight) = wrap64 (st.(in_flight) + 1).
Proof. unfold try_acquire. intros Ha. by repeat case_match; simplify_eq/=. Qed.

Lemma try_acquire_refused now st st' : try_acquire now st = (st', None) → st' = st.
Proof. unfold try_acquire. intros Ha. by repeat case_match; simplify_eq/=. Qed.

(** The components that selection strategies and affinity do not touch; the
    entropy state stays a 64-bit word. *)
Definition same_states (a b : RuntimeInner) : Prop :=
  b.(heap) = a.(heap) ∧ b.(next_loc) = a.(next_loc) ∧ b.(channel_states) = a.(channel_states) ∧
  b.(active_channels) = a.(active_channels) ∧ (word64 a.(entropy) → word64 b.(entropy)).

#[export] Instance same_states_preorder : PreOrder same_states.
Proof.
  split.
  - by intros a.
  - intros a b c (?&?&?&?&?) (?&?&?&?&?). split_and!; [congruence..|auto].
Qed.

Lemma same_states_ok a b leases : same_states a b → inner_ok a leases → inner_ok b leases.
Proof.
  intros (Hh & Hn & Hm & Ha & _) Hok. unfold inner_ok, identity_is_active in *.
  by rewrite Hh, Hn, Hm, Ha.
Qed.

(** A usable channel is acquired; the outcome of the acquisition. *)
Lemma try_acquire_channel_ok inner leases i now inner' l claim :
  inner_ok inner leases → Z.of_nat (length leases) + 1 < 2 ^ 64 →
  try_acquire_channel inner i now = (inner', Some (l, claim)) →
  ∀ x, x.(lease_identity) = i → x.(lease_state) = l → x.(released) = false →
  inner_ok inner' (x :: leases) ∧ inner'.(affinity) = inner.(affinity) ∧
  inner'.(entropy) = inner.(entropy).
Proof.
  intros Hok Hlen Hacq x Hi Hl Hr. unfold try_acquire_channel, channel_state_or_insert in Hacq.
  destruct (channel_states inner !! i) as [l0|] eqn:Hm.
  - destruct (so_object _ _ _ _ _ Hok _ _ Hm) as (st & Hst & Hact & Hused). rewrite Hst in Hacq.
    destruct (try_acquire now st) as [st' [c|]] eqn:Ht; simplify_eq/=. split; [|done].
    pose proof (try_acquire_active now st) as Ha. rewrite Ht in Ha. simpl in Ha.
    apply try_acquire_counts in Ht. pose proof (so_count _ _ _ _ _ Hok _ _ Hst) as Hc.
    pose proof (holders_of_nonneg (lease_state x) leases). pose proof (holders_of_le (lease_state x) leases).
    rewrite wrap64_small in Ht by lia.
    eapply states_ok_update; [done|done|done| | |].
    + intros l'. unfold holders_of. simpl. case_decide; lia.
    + intros y [->|Hy]%elem_of_cons; [by split|]. by apply (so_leases _ _ _ _ _ Hok).
    + intros. lia.
  - simpl in Hacq. rewrite lookup_insert_eq in Hacq. simpl in Hacq. simplify_eq/=. split; [|done].
    unfold inner_ok; simpl. rewrite insert_insert_eq.
    eapply (states_ok_fresh (identity_is_active inner)); [done|done|done|done|].
    right. exists x. split_and!; done.
Qed.

Lemma try_acquire_channel_usable inner leases i now :
  inner_ok inner leases → usable inner i now = true →
  ∃ inner' l claim, try_acquire_channel inner i now = (inner', Some (l, claim)).
Proof.
  intros Hok Hus. unfold try_acquire_channel, channel_state_or_insert, usable, channel_state in *.
  destruct (channel_states inner !! i) as [l0|] eqn:Hm; simpl in Hus.
  - destruct (so_object _ _ _ _ _ Hok _ _ Hm) as (st & Hst & _). rewrite Hst in Hus |- *. simpl in Hus.
    apply is_usable_acquire in Hus as [c Hc]. destruct (try_acquire now st) as [st' r].
    simpl in Hc. subst r. simpl. eauto.
  - simpl. rewrite lookup_insert_eq. simpl. eauto.
Qed.

Lemma drop_lease_ok inner l1 x l2 :
  Z.of_nat (length (l1 ++ x :: l2)) < 2 ^ 64 →
  inner_ok inner (l1 ++ x :: l2) → inner_ok (drop_lease x inner) (l1 ++ l2).
Proof.
  intros Hlen Hok. destruct (so_leases _ _ _ _ _ Hok x) as [Hm Hr]; [set_solver|].
  destruct (so_object _ _ _ _ _ Hok _ _ Hm) as (st & Hst & Hact & Hused).
  unfold drop_lease. rewrite Hr, Hst. simpl.
  pose proof (so_count _ _ _ _ _ Hok _ _ Hst) as Hc.
  pose proof (holders_of_le (lease_state x) (l1 ++ x :: l2)).
  rewrite holders_of_remove, decide_True in * by done.
  pose proof (holders_of_nonneg (lease_state x) (l1 ++ l2)).
  set (st' := if half_open_claim x =? 0 then _ else _).
  assert (st'.(active) = st.(active) ∧ st'.(in_flight) = holders_of (lease_state x) (l1 ++ l2)) as [Ha Hi].
  { unfold st', swap_cooldown. repeat case_match; simpl; rewrite wrap64_small by lia; split; done || lia. }
  assert (sat_sub (in_flight st) 1 = in_flight st') as Hrem by (unfold sat_sub; lia).
  assert (∀ y, y ∈ l1 ++ l2 → y ∈ l1 ++ x :: l2) as Hsub by set_solver.
  rewrite Hrem. destruct ((in_flight st' =? 0) && negb (active st')) eqn:Hz.
  - (* the last lease of a retired identity *)
    rewrite Hm. simpl. rewrite lookup_insert_eq. simpl. rewrite bool_decide_true, Hz by done. simpl. breflect.
    destruct Hok as [Hobj Hinj Hnext Hcount Hls]. split; simpl.
    + intros i l [Hne Hl]%lookup_delete_Some. destruct (Hobj _ _ Hl) as (s & Hs & ?). exists s.
      rewrite lookup_insert_ne; [done|]. intros <-. by apply Hne, (Hinj _ _ _ Hm).
    + intros i j l [_ Hl]%lookup_delete_Some [_ Hl']%lookup_delete_Some. eauto.
    + intros l [s [[<- _]|[_ Hs]]%lookup_insert_Some]; apply Hnext; eauto.
    + intros l s [[<- <-]|[Hne Hs]]%lookup_insert_Some; [lia|].
      rewrite (Hcount _ _ Hs), holders_of_remove, decide_False by done. lia.
    + intros y Hy. destruct (Hls y (Hsub y Hy)) as [Hym Hyr]. split; [|done].
      rewrite lookup_delete_ne; [done|]. intros Heq. rewrite <- Heq, Hm in Hym. injection Hym as Hym.
      pose proof (holders_of_pos (l1 ++ l2) y Hy) as Hpos. rewrite <- Hym in Hpos. lia.
  - unfold inner_ok; simpl. eapply states_ok_update; [exact Hok|done|done| | |].
    + intros l'. rewrite holders_of_remove. case_decide as E; [|lia].
      subst l'. lia.
    + intros y Hy. by apply (so_leases _ _ _ _ _ Hok), Hsub.
    + intros Hf i _. rewrite Hf in Hz. simpl in Hz. rewrite andb_true_r in Hz. breflect. lia.
Qed.

(** *** Reconciliation *)

Lemma mark_active_spec actives m h :
  (∀ i j l, m !! i = Some l → m !! j = Some l → i = j) →
  (∀ i l, m !! i = Some l →
     mark_active actives m h !! l = (λ st, set_active st (bool_decide (i ∈ actives))) <$> h !! l) ∧
  (∀ l, (∀ i, m !! i ≠ Some l) → mark_active actives m h !! l = h !! l).
Proof.
  unfold mark_active. revert m. apply (map_fold_weak_ind (λ h' m,
    (∀ i j l, m !! i = Some l → m !! j = Some l → i = j) →
    (∀ i l, m !! i = Some l →
       h' !! l = (λ st, set_active st (bool_decide (i ∈ actives))) <$> h !! l) ∧
    (∀ l, (∀ i, m !! i ≠ Some l) → h' !! l = h !! l))).
  { intros _. split; [|done]. intros i l Hi. by rewrite lookup_empty in Hi. }
  intros i l m h' Hnone IH Hinj.
  assert (∀ j, m !! j ≠ Some l) as Hfresh.
  { intros j Hj. assert (i = j) as ->; [|congruence]. apply (Hinj i j l).
    - apply lookup_insert_eq.
    - rewrite lookup_insert_ne; [done|]. intros ->; congruence. }
  destruct IH as [IHin IHout].
  { intros j k l' Hj Hk. apply (Hinj j k l'); (rewrite lookup_insert_ne; [done|]); intros ->; congruence. }
  split.
  - intros j l' [[<- <-]|[Hne Hj]]%lookup_insert_Some.
    + by rewrite lookup_alter_eq, IHout.
    + rewrite lookup_alter_ne; [by apply IHin|]. intros <-. by apply Hfresh in Hj.
  - intros l' Hl'. rewrite lookup_alter_ne.
    + apply IHout. intros j Hj. apply (Hl' j). rewrite lookup_insert_ne; [done|]. intros ->; congruence.
    + intros <-. apply (Hl' i), lookup_insert_eq.
Qed.

Lemma map_codomain_case (m : gmap ChannelIdentity loc) l :
  (∃ i, m !! i = Some l) ∨ (∀ i, m !! i ≠ Some l).
Proof.
  destruct (decide (l ∈ (map_to_list m).*2)) as [Hin|Hout].
  - apply list_elem_of_fmap in Hin as ([i l'] & -> & Hi%elem_of_map_to_list). eauto.
  - right. intros i Hi. apply Hout, list_elem_of_fmap. exists (i, l).
    by rewrite elem_of_map_to_list.
Qed.

Lemma mark_and_retain_ok act actives h next m leases :
  states_ok act h next m leases →
  let h1 := mark_active actives m h in
  states_ok (λ i, bool_decide (i ∈ actives)) h1 next (filter (keeps actives h1) m) leases.
Proof.
  intros [Hobj Hinj Hnext Hcount Hls] h1.
  destruct (mark_active_spec actives m h Hinj) as [Hin Hout]. fold h1 in Hin, Hout.
  assert (∀ l st, h1 !! l = Some st → ∃ st0, h !! l = Some st0 ∧ st.(in_flight) = st0.(in_flight)) as Hback.
  { intros l st Hst. destruct (map_codomain_case m l) as [[i Hi]|Hno].
    - rewrite (Hin _ _ Hi) in Hst. destruct (h !! l) as [st0|]; simplify_eq/=. eauto.
    - rewrite Hout in Hst by done. eauto. }
  split.
  - intros i l [Hi Hk]%map_lookup_filter_Some. destruct (Hobj _ _ Hi) as (st & Hst & _).
    exists (set_active st (bool_decide (i ∈ actives))). rewrite (Hin _ _ Hi), Hst.
    split_and!; [done|done|]. simpl. intros Hna. breflect.
    destruct Hk as [?|Hk]; [done|]. simpl in Hk. rewrite (Hin _ _ Hi), Hst in Hk. simpl in Hk. by breflect.
  - intros i j l [Hi _]%map_lookup_filter_Some [Hj _]%map_lookup_filter_Some. eauto.
  - intros l [st Hst]. destruct (Hback _ _ Hst) as (st0 & Hst0 & _). eauto.
  - intros l st Hst. destruct (Hback _ _ Hst) as (st0 & Hst0 & ->). eauto.
  - intros x Hx. destruct (Hls x Hx) as [Hm Hr]. split; [|done].
    apply map_lookup_filter_Some. split; [done|]. right. simpl.
    destruct (Hobj _ _ Hm) as (st & Hst & _). rewrite (Hin _ _ Hm), Hst. simpl.
    rewrite (Hcount _ _ Hst). apply Z.ltb_lt. by apply holders_of_pos.
Qed.

Lemma ensure_active_ok (act : ChannelIdentity → bool) leases inner i :
  act i = true →
  states_ok act inner.(heap) inner.(next_loc) inner.(channel_states) leases →
  let inner' := ensure_active inner i in
  states_ok act inner'.(heap) inner'.(next_loc) inner'.(channel_states) leases.
Proof.
  intros Hact Hok. unfold ensure_active. destruct (channel_states inner !! i) as [l|] eqn:Hi; simpl.
  - destruct (so_object _ _ _ _ _ Hok _ _ Hi) as (st & Hst & Ha & _).
    replace (alter (λ st, set_active st true) l (heap inner)) with (heap inner); [done|].
    symmetry. apply alter_id. intros st' Hst'. simplify_eq. 
    rewrite Hact in Ha. destruct st as [? ? ? b]. unfold set_active. simpl in *. by subst b.
  - eapply states_ok_fresh; [done|done|done|done|by left].
Qed.

Lemma ensure_active_fields inner i :
  let inner' := ensure_active inner i in
  inner'.(health_policy) = inner.(health_policy) ∧ inner'.(affinity) = inner.(affinity) ∧
  inner'.(entropy) = inner.(entropy) ∧ is_Some (inner'.(channel_states) !! i) ∧
  (∀ j, is_Some (inner.(channel_states) !! j) → inner'.(channel_states) !! j = inner.(channel_states) !! j).
Proof.
  unfold ensure_active. destruct (channel_states inner !! i) as [l|] eqn:Hi; simpl.
  - split_and!; [done..|by rewrite Hi|done].
  - split_and!; [done..|by rewrite lookup_insert_eq|]. intros j [l Hj].
    rewrite lookup_insert_ne; [done|]. intros ->. congruence.
Qed.

Lemma ensure_all_ok (act : ChannelIdentity → bool) leases ids inner :
  Forall (λ i, act i = true) ids →
  states_ok act inner.(heap) inner.(next_loc) inner.(channel_states) leases →
  let inner' := foldl ensure_active inner ids in
  states_ok act inner'.(heap) inner'.(next_loc) inner'.(channel_states) leases ∧
  inner'.(health_policy) = inner.(health_policy) ∧ inner'.(affinity) = inner.(affinity) ∧
  inner'.(entropy) = inner.(entropy) ∧
  (∀ j, is_Some (inner.(channel_states) !! j) → inner'.(channel_states) !! j = inner.(channel_states) !! j) ∧
  (∀ j, j ∈ ids → is_Some (inner'.(channel_states) !! j)).
Proof.
  revert inner. induction ids as [|i ids IH]; intros inner Hact Hok; simpl.
  { split_and!; [done..|]. intros j Hj. by apply elem_of_nil in Hj. }
  apply Forall_cons in Hact as [Hi Hact].
  destruct (ensure_active_fields inner i) as (Hp & Ha & He & Hsome & Hkeep).
  destruct (IH (ensure_active inner i)) as (Hok' & Hp' & Ha' & He' & Hkeep' & Hall');
    [done|by apply ensure_active_ok|].
  split_and!; [done|congruence..| |].
  - intros j Hj. rewrite Hkeep' by (by rewrite Hkeep). by apply Hkeep.
  - intros j [->|Hj]%elem_of_cons; [by rewrite Hkeep'|by apply Hall'].
Qed.

(** ** Executions *)

Section executions.
Context {D V T Policy Auth : Type} `{DecimalOps D} `{UtcOps T}.
Context (outbound_fingerprint : Policy → digest).
Context (any_key : gmap AffinityCacheKey AffinityEntry → option AffinityCacheKey).
Implicit Types (inner : RuntimeInner) (leases : list ChannelLease).
Implicit Types (key : CompiledApiKey D T) (rule : CompiledModelRule D V T Policy Auth)
  (tier : CompiledRouteTier D Policy Auth) (c : CompiledCandidate D Policy Auth)
  (s : RoutingSnapshot (D := D) (V := V) (T := T) (Policy := Policy) (Auth := Auth)).

Lemma select_by_strategy_same inner rule tier key excluded cap now inner' r :
  select_by_strategy outbound_fingerprint inner rule tier key excluded cap now = Some (inner', r) →
  same_states inner inner' ∧ inner'.(affinity) = inner.(affinity).
Proof.
  unfold select_by_strategy. intros Hs. repeat case_match; simplify_eq; (split; [|done]);
    split_and!; try done. intros He. by eapply weighted_ticket_word64.
Qed.

Lemma prepare_affinity_same lookup_now key rule m inner inner' a :
  prepare_affinity lookup_now key rule m inner = (inner', a) → same_states inner inner'.
Proof. unfold prepare_affinity. intros Hp. repeat case_match; simplify_eq; by split_and!. Qed.

Lemma remove_stale_same a stale inner : same_states inner (remove_stale a stale inner).
Proof. unfold remove_stale. by repeat case_match. Qed.

(** A selection in a tier either leaves the channel states alone or acquires
    the selected channel. *)
Lemma select_in_tier_same inner a rule tier key excluded cap now inner' r :
  select_in_tier outbound_fingerprint 1 inner true a rule tier key excluded cap now = Some (inner', r) →
  match r with
  | None => same_states inner inner'
  | Some (c, _, l, claim) => ∃ inner1, same_states inner inner1 ∧
      try_acquire_channel inner1 (identity_from_channel outbound_fingerprint c.(channel)) now
      = (inner', Some (l, claim))
  end.
Proof.
  cbn [select_in_tier]. destruct (affinity_candidate_of _ _ _ _ _ _ _ _) as [c|] eqn:Ha.
  - destruct (try_acquire_channel _ _ _) as [inner2 [[l claim]|]] eqn:Hacq; intros; simplify_eq.
    exists inner. done.
  - destruct (select_by_strategy _ _ _ _ _ _ _ _) as [[inner1 [c|]]|] eqn:Hs; intros; simplify_eq.
    + apply select_by_strategy_same in Hs as [Hs _].
      destruct (try_acquire_channel _ _ _) as [inner2 [[l claim]|]] eqn:Hacq; simplify_eq. eauto.
    + by apply select_by_strategy_same in Hs as [Hs _].
Qed.

Lemma select_in_tiers_same inner a rule ts key excluded cap now inner' r :
  select_in_tiers outbound_fingerprint inner a rule ts key excluded cap now = Some (inner', r) →
  match r with
  | None => same_states inner inner'
  | Some (c, _, l, claim) => ∃ inner1, same_states inner inner1 ∧
      try_acquire_channel inner1 (identity_from_channel outbound_fingerprint c.(channel)) now
      = (inner', Some (l, claim))
  end.
Proof.
  revert inner. induction ts as [|t ts IH]; intros inner Hs;
    cbn [select_in_tiers] in Hs; [by simplify_eq|].
  destruct (select_in_tier _ _ _ _ _ _ _ _ _ _ _) as [[inner1 [x|]]|] eqn:Ht; simplify_eq.
  - apply select_in_tier_same in Ht. done.
  - apply select_in_tier_same in Ht. apply IH in Hs. destruct r as [[[[c hit] l] claim]|].
    + destruct Hs as (inner2 & Hsame & ?). exists inner2. split; [by etrans|done].
    + by etrans.
Qed.

Definition leases_after (r : SelectionResult (D := D) (V := V) (T := T) (Policy := Policy) (Auth := Auth))
    leases : list ChannelLease :=
  match r with Selected route => route.(sr_lease) :: leases | _ => leases end.

Lemma select_ok lookup_now now inner s key operation model m excluded cap inner' r leases :
  inner_ok inner leases → Z.of_nat (length leases) + 1 < 2 ^ 64 → word64 inner.(entropy) →
  select_with_affinity_excluding_capability outbound_fingerprint lookup_now now inner s key operation
    model m excluded cap = Some (inner', r) →
  inner_ok inner' (leases_after r leases) ∧ word64 inner'.(entropy).
Proof.
  intros Hok Hlen He Hsel. unfold select_with_affinity_excluding_capability in Hsel.
  destruct (operation_rule s operation model) as [rule|]; [|by simplify_eq].
  destruct (negb _); [by simplify_eq|].
  destruct (prepare_affinity _ _ _ _ _) as [inner1 a] eqn:Hp. apply prepare_affinity_same in Hp.
  destruct (select_in_tiers _ _ _ _ _ _ _ _ _) as [[inner2 [[[[c hit] l] claim]|]]|] eqn:Hs;
    [..|done]; apply select_in_tiers_same in Hs; injection Hsel as <- <-; simpl;
    match goal with |- context [remove_stale ?a ?x ?i] =>
      pose proof (remove_stale_same a x i) as Hrs end.
  - destruct Hs as (inner3 & Hs3 & Hacq).
    assert (same_states inner inner3) as H3 by (by etrans).
    assert (inner_ok inner3 leases) as Hok3 by (by eapply same_states_ok).
    eapply (try_acquire_channel_ok inner3 leases) in Hacq as (Hok' & _ & He');
      [split; [eapply same_states_ok; [exact Hrs|exact Hok']|apply Hrs; rewrite He'; by apply H3]|done..].
  - assert (same_states inner (remove_stale a (if negb (preserves_affinity outbound_fingerprint inner1 a
      rule key excluded cap now) then preferred_of a else None) inner2)) as H3 by (do 2 (etrans; [eassumption|]); done).
    split; [by eapply same_states_ok|by apply H3].
Qed.

Lemma select_preferred_ok lookup_now now inner s key operation model pc pm m excluded cap inner' r leases :
  inner_ok inner leases → Z.of_nat (length leases) + 1 < 2 ^ 64 → word64 inner.(entropy) →
  select_preferred_channel_with_capability outbound_fingerprint lookup_now now inner s key operation
    model pc pm m excluded cap = (inner', r) →
  inner_ok inner' (match r with Some route => route.(sr_lease) :: leases | None => leases end) ∧
  word64 inner'.(entropy).
Proof.
  intros Hok Hlen He Hsel. unfold select_preferred_channel_with_capability in Hsel.
  destruct (operation_rule s operation model) as [rule|]; [|by simplify_eq].
  destruct (negb _); [by simplify_eq|].
  destruct (prepare_affinity _ _ _ _ _) as [inner1 a] eqn:Hp. apply prepare_affinity_same in Hp.
  eapply same_states_ok in Hok as Hok1; [|exact Hp].
  assert (word64 inner1.(entropy)) as He1 by (by apply Hp).
  destruct (_ ≫= _) as [c|]; [|by simplify_eq].
  destruct (try_acquire_channel _ _ _) as [inner2 [[l claim]|]] eqn:Hacq; injection Hsel as <- <-.
  - match goal with |- context [remove_stale ?a ?x ?i] =>
      pose proof (remove_stale_same a x i) as Hrs end.
    eapply try_acquire_channel_ok in Hacq as (Hok' & _ & He');
      [split; [eapply same_states_ok; [exact Hrs|exact Hok']|apply Hrs; by rewrite He']|done..].
  - unfold try_acquire_channel, channel_state_or_insert in Hacq.
    destruct (channel_states inner1 !! _) as [l|] eqn:Hl.
    + destruct (so_object _ _ _ _ _ Hok1 _ _ Hl) as (st & Hst & _). rewrite Hst in Hacq.
      destruct (try_acquire now st) as [st' [x|]] eqn:Ht; simplify_eq/=.
      apply try_acquire_refused in Ht as ->. unfold inner_ok; simpl. by rewrite insert_id.
    + simpl in Hacq. rewrite lookup_insert_eq in Hacq. by simplify_eq/=.
Qed.

Lemma reconcile_ok now s inner leases :
  inner_ok inner leases → word64 inner.(entropy) →
  inner_ok (reconcile outbound_fingerprint any_key now s inner) leases ∧
  word64 (reconcile outbound_fingerprint any_key now s inner).(entropy).
Proof.
  intros Hok Hent. unfold reconcile.
  set (actives := list_to_set _ : gset ChannelIdentity).
  pose proof (mark_and_retain_ok _ actives _ _ _ _ Hok) as Hmark.
  match goal with |- context [foldl ensure_active ?x ?ids] =>
    destruct (ensure_all_ok (λ i, bool_decide (i ∈ actives)) leases ids x) as (Hall & _ & _ & He & _) end.
  - apply Forall_forall. intros i Hi%elem_of_elements. by apply bool_decide_eq_true.
  - exact Hmark.
  - split; [|simpl; by rewrite He]. unfold inner_ok, identity_is_active; simpl. exact Hall.
Qed.

Inductive rstep : RuntimeInner * list ChannelLease → RuntimeInner * list ChannelLease → Prop :=
| rstep_select lookup_now now inner leases s key operation model m excluded cap inner' r :
    select_with_affinity_excluding_capability outbound_fingerprint lookup_now now inner s key operation
      model m excluded cap = Some (inner', r) →
    rstep (inner, leases) (inner', leases_after r leases)
| rstep_preferred lookup_now now inner leases s key operation model pc pm m excluded cap inner' r :
    select_preferred_channel_with_capability outbound_fingerprint lookup_now now inner s key operation
      model pc pm m excluded cap = (inner', r) →
    rstep (inner, leases)
      (inner', match r with Some route => route.(sr_lease) :: leases | None => leases end)
| rstep_drop inner l1 x l2 : rstep (inner, l1 ++ x :: l2) (drop_lease x inner, l1 ++ l2)
| rstep_headers inner leases x :
    x ∈ leases → rstep (inner, leases) (lease_response_headers_received x inner, leases)
| rstep_connection_failed now inner leases x inner' :
    x ∈ leases → lease_connection_failed now x inner = Some inner' → rstep (inner, leases) (inner', leases)
| rstep_probe_failed now inner leases x inner' :
    x ∈ leases → lease_probe_failed now x inner = Some inner' → rstep (inner, leases) (inner', leases)
| rstep_succeeded now inner leases x inner' :
    x ∈ leases → lease_request_succeeded any_key now x inner = Some inner' →
    rstep (inner, leases) (inner', leases)
| rstep_failed inner leases x :
    x ∈ leases → rstep (inner, leases) (lease_request_failed x inner, leases)
| rstep_reconcile now inner leases s :
    rstep (inner, leases) (reconcile outbound_fingerprint any_key now s inner, leases)
| rstep_policy inner leases policy inner' :
    update_policy policy inner = Some inner' → rstep (inner, leases) (inner', leases)
| rstep_pressure now inner leases :
    rstep (inner, leases) ((pressure_snapshot now inner).1, leases)
| rstep_cache_snapshot now inner leases :
    rstep (inner, leases) ((session_affinity_cache_snapshot now inner).1, leases)
| rstep_clear now rule_name inner leases :
    rstep (inner, leases) ((runtime_clear_affinity now rule_name inner).1, leases).

(** Reachable worlds with fewer than [2^64] simultaneous leases. *)
Inductive rreachable : RuntimeInner * list ChannelLease → Prop :=
| rreachable_new policy seed inner :
    word64 seed → new_runtime policy seed = Some inner → rreachable (inner, [])
| rreachable_step w w' :
    rreachable w → rstep w w' → Z.of_nat (length w'.2) + 1 < 2 ^ 64 → rreachable w'.

Lemma update_state_ok inner l f leases :
  inner_ok inner leases →
  (∀ st, (f st).(active) = st.(active) ∧ (f st).(in_flight) = st.(in_flight)) →
  inner_ok (update_state inner l f) leases.
Proof. intros Hok Hf. unfold inner_ok; simpl. by apply states_ok_same. Qed.

Lemma rstep_ok w w' :
  rstep w w' → inner_ok w.1 w.2 → Z.of_nat (length w.2) + 1 < 2 ^ 64 → word64 w.1.(entropy) →
  inner_ok w'.1 w'.2 ∧ word64 w'.1.(entropy).
Proof.
  intros Hstep Hok Hlen He. destruct Hstep as
    [? ? inner leases ? ? ? ? ? ? ? inner' r Hs|? ? inner leases ? ? ? ? ? ? ? ? ? inner' r Hs
    |inner l1 x l2|inner leases x Hx|now inner leases x inner' Hx Hf|now inner leases x inner' Hx Hf
    |now inner leases x inner' Hx Hf|inner leases x Hx|now inner leases s
    |inner leases policy inner' Hp|now inner leases|now inner leases|now name inner leases]; simpl in *.
  - by eapply select_ok.
  - by eapply select_preferred_ok.
  - split; [apply drop_lease_ok; [lia|done]|]. unfold drop_lease. by repeat case_match; simplify_eq/=.
  - split; [by apply update_state_ok|done].
  - unfold lease_connection_failed in Hf. destruct (duration_add _ _); simplify_eq/=.
    split; [|done]. apply update_state_ok; [done|]. intros st. unfold connection_failed. by case_match.
  - unfold lease_probe_failed in Hf. case_match; [by simplify_eq|].
    destruct (duration_add _ _); simplify_eq/=. split; [|done]. apply update_state_ok; [done|].
    intros st. unfold probe_failed, swap_cooldown. by repeat case_match.
  - unfold lease_request_succeeded in Hf. destruct (lease_affinity x); [|by simplify_eq].
    destruct (affinity_store _ _ _ _); simplify_eq/=. done.
  - unfold lease_request_failed. by repeat case_match.
  - by apply reconcile_ok.
  - unfold update_policy in Hp. case_match; simplify_eq. done.
  - done.
  - done.
  - unfold runtime_clear_affinity. by destruct (clear_session_affinity_cache _ _ _).
Qed.

Lemma rreachable_ok w :
  rreachable w →
  inner_ok w.1 w.2 ∧ Z.of_nat (length w.2) + 1 < 2 ^ 64 ∧ word64 w.1.(entropy).
Proof.
  induction 1 as [policy seed inner Hseed Hn|w w' _ (IH & Hl & He) Hstep Hlen].
  - split; [|split; [done|]]; unfold new_runtime, update_policy in Hn; case_match; simplify_eq; [|done].
    split; simpl.
    + intros i l Hl. by rewrite lookup_empty in Hl.
    + intros i j l Hl. by rewrite lookup_empty in Hl.
    + intros l [st Hst]. by rewrite lookup_empty in Hst.
    + intros l st Hst. by rewrite lookup_empty in Hst.
    + intros x Hx. by apply elem_of_nil in Hx.
  - eapply rstep_ok in Hstep as [? ?]; done.
Qed.


Lemma foldl_sat_add {A} (f : A → Z) l n :
  0 ≤ n → (∀ a, a ∈ l → 0 ≤ f a) → n + sum_over f l ≤ u64_max →
  foldl (λ n a, sat_add u64_max n (f a)) n l = n + sum_over f l.
Proof.
  revert n. induction l as [|a l IH]; intros n Hn Hf Hle; simpl in *; [lia|].
  pose proof (Hf a ltac:(set_solver)).
  assert (0 ≤ sum_over f l) by (apply sum_over_nonneg; set_solver).
  rewrite IH; unfold sat_add; [lia|lia|set_solver|lia].
Qed.

(** Every lease is counted by exactly one tracked object. *)
Lemma tracked_in_flight inner leases :
  inner_ok inner leases → sum_over in_flight (tracked_states inner) = Z.of_nat (length leases).
Proof.
  intros Hok. unfold tracked_states.
  transitivity (sum_over (λ l, occurrences l (lease_state <$> leases))
                  ((map_to_list (channel_states inner)).*2)).
  - rewrite sum_over_fmap.
    assert (Hall : ∀ p, p ∈ map_to_list (channel_states inner) →
      ∃ st, heap inner !! p.2 = Some st ∧ in_flight st = occurrences p.2 (lease_state <$> leases)).
    { intros [i l] Hp%elem_of_map_to_list. simpl.
      destruct (so_object _ _ _ _ _ Hok _ _ Hp) as (st & Hst & _). exists st. split; [done|].
      rewrite (so_count _ _ _ _ _ Hok _ _ Hst). unfold occurrences. by rewrite sum_over_fmap. }
    induction (map_to_list (channel_states inner)) as [|p ps IH]; [done|]. simpl.
    destruct (Hall p) as (st & -> & Hc); [set_solver|]. simpl. rewrite Hc. f_equal. apply IH. set_solver.
  - rewrite sum_occurrences; [by rewrite length_fmap| |].
    + apply NoDup_fmap_2_strong; [|apply NoDup_map_to_list].
      intros [i l] [j l'] Hi%elem_of_map_to_list Hj%elem_of_map_to_list Heq. simpl in Heq. subst l'.
      by rewrite (so_inj _ _ _ _ _ Hok _ _ _ Hi Hj).
    + intros l Hl. apply list_elem_of_fmap in Hl as (x & -> & Hx).
      apply list_elem_of_fmap. exists (lease_identity x, lease_state x). split; [done|].
      apply elem_of_map_to_list. by apply (so_leases _ _ _ _ _ Hok).
Qed.

(** The pressure snapshot counts exactly the outstanding leases, whatever
    reloads, retirements and drops happened before. *)
Theorem routing_pressure_exact inner leases now (Hreach : rreachable (inner, leases)) :
  (pressure_snapshot now inner).2.(in_flight_requests) = Z.of_nat (length leases).
Proof.
  apply rreachable_ok in Hreach as (Hok & Hlen & _). simpl in *.
  pose proof (tracked_in_flight _ _ Hok) as Hsum. rewrite foldl_sat_add, sum_over_fmap; simpl; [done|done| |].
  - intros s (st & -> & Hst)%list_elem_of_fmap. simpl.
    apply list_elem_of_omap in Hst as ([i l] & _ & Hst). simpl in Hst.
    rewrite (so_count _ _ _ _ _ Hok _ _ Hst). apply holders_of_nonneg.
  - rewrite sum_over_fmap. unfold u64_max. etrans; [apply Z.eq_le_incl; exact Hsum|lia].
Qed.
End executions.


(** ** Outcomes of a selection *)

Section outcomes.
Context {D V T Policy Auth : Type} `{DecimalOps D} `{UtcOps T}.
Context (outbound_fingerprint : Policy → digest).
Context (any_key : gmap AffinityCacheKey AffinityEntry → option AffinityCacheKey).
Implicit Types (inner : RuntimeInner) (leases : list ChannelLease).
Implicit Types (key : CompiledApiKey D T) (rule : CompiledModelRule D V T Policy Auth)
  (tier : CompiledRouteTier D Policy Auth) (c : CompiledCandidate D Policy Auth)
  (s : RoutingSnapshot (D := D) (V := V) (T := T) (Policy := Policy) (Auth := Auth)).

(** What publication guarantees of a tier: positive weights that fit the ticket
    arithmetic, and distinct candidates. *)
Record tier_ok tier : Prop := {
  tier_weights : Forall (λ c, 0 < weight c) tier.(candidates);
  tier_total : total_weight weight tier.(candidates) ≤ u64_max;
  tier_distinct : NoDup (identity_from_candidate <$> tier.(candidates));
}.

Lemma eligible_same inner inner' key excluded cap now c :
  same_states inner inner' →
  eligible outbound_fingerprint inner' key excluded cap now c
  = eligible outbound_fingerprint inner key excluded cap now c.
Proof.
  intros (Hh & _ & Hm & _). unfold eligible, usable, channel_state. by rewrite Hh, Hm.
Qed.

Lemma affinity_candidate_same inner inner' key excluded cap now a tier :
  same_states inner inner' →
  affinity_candidate_of outbound_fingerprint inner' key excluded cap now a tier
  = affinity_candidate_of outbound_fingerprint inner key excluded cap now a tier.
Proof.
  intros Hs. unfold affinity_candidate_of. destruct (preferred_of a) as [p|]; [|done].
  induction (candidates tier) as [|c cs IH]; [done|]. simpl.
  rewrite (eligible_same inner inner') by done. by rewrite IH.
Qed.

Lemma affinity_candidate_spec inner key excluded cap now a tier c :
  affinity_candidate_of outbound_fingerprint inner key excluded cap now a tier = Some c →
  c ∈ tier.(candidates) ∧ eligible outbound_fingerprint inner key excluded cap now c = true ∧
  preferred_of a = Some (identity_from_candidate c).
Proof.
  unfold affinity_candidate_of. destruct (preferred_of a) as [p|]; [|done].
  intros [Hin Hm]%find_some. breflect. unfold identity_matches in *. breflect.
  split; [by apply list_elem_of_In|]. split; [done|]. destruct p; simpl in *. by subst.
Qed.

Lemma strategy_outcome inner rule tier key excluded cap now :
  tier_ok tier → word64 inner.(entropy) →
  ∃ inner' r,
    select_by_strategy outbound_fingerprint inner rule tier key excluded cap now = Some (inner', r) ∧
    word64 inner'.(entropy) ∧
    match r with
    | Some c => c ∈ tier.(candidates) ∧ eligible outbound_fingerprint inner key excluded cap now c = true
    | None => ∀ c, c ∈ tier.(candidates) →
                eligible outbound_fingerprint inner key excluded cap now c = false
    end.
Proof.
  intros [Hw Ht Hnd] He. unfold select_by_strategy. destruct (strategy tier).
  - destruct (weighted_ticket_constant weight (eligible outbound_fingerprint inner key excluded cap now)
      (candidates tier) (S (Z.to_nat (total_weight weight (candidates tier)))) (entropy inner))
      as (e' & r & -> & He' & Hr); [|done|done|lia|].
    + eapply Forall_impl; [exact Hw|]. simpl. lia.
    + eexists _, _. split; [done|]. split; [done|]. destruct r as [c|]; [done|].
      intros c Hc. apply not_true_is_false. intros Hok. rewrite Forall_forall in Hw.
      specialize (Hw c Hc). specialize (Hr c Hc Hok). lia.
  - pose proof (smooth_round_robin_outcome weight identity_from_candidate
      (eligible outbound_fingerprint inner key excluded cap now) (candidates tier)) as Hout.
    destruct (forallb _ _).
    + match goal with |- context [smooth_round_robin _ _ _ _ ?cur] => specialize (Hout cur Hnd) end.
      destruct (smooth_round_robin _ _ _ _ _) as [cur c]. eauto.
    + specialize (Hout ∅ Hnd). destruct (smooth_round_robin _ _ _ _ _) as [cur c]. eauto.
Qed.

Lemma try_acquire_channel_entropy inner i now :
  (try_acquire_channel inner i now).1.(entropy) = inner.(entropy) ∧
  (try_acquire_channel inner i now).1.(affinity) = inner.(affinity).
Proof. unfold try_acquire_channel, channel_state_or_insert. by repeat case_match; simplify_eq/=. Qed.

Lemma tier_outcome inner leases a rule tier key excluded cap now :
  inner_ok inner leases → tier_ok tier → word64 inner.(entropy) →
  ∃ inner' r,
    select_in_tier outbound_fingerprint 1 inner true a rule tier key excluded cap now = Some (inner', r) ∧
    word64 inner'.(entropy) ∧ inner'.(affinity) = inner.(affinity) ∧
    match r with
    | Some (c, hit, l, claim) => c ∈ tier.(candidates) ∧
        eligible outbound_fingerprint inner key excluded cap now c = true ∧
        affinity_candidate_of outbound_fingerprint inner key excluded cap now a tier
        = (if hit : bool then Some c else None)
    | None => same_states inner inner' ∧
        ∀ c, c ∈ tier.(candidates) → eligible outbound_fingerprint inner key excluded cap now c = false
    end.
Proof.
  intros Hok Htier He. cbn [select_in_tier].
  destruct (affinity_candidate_of _ _ _ _ _ _ _ _) as [c|] eqn:Ha.
  - apply affinity_candidate_spec in Ha as (Hin & Hel & _). pose proof Hel as Hus.
    unfold eligible in Hus. apply andb_true_iff in Hus as [_ Hus].
    destruct (try_acquire_channel_usable _ _ _ _ Hok Hus) as (inner' & l & claim & Hacq).
    destruct (try_acquire_channel_entropy inner
      (identity_from_channel outbound_fingerprint (channel c)) now) as [He' Ha'].
    rewrite Hacq in He', Ha' |- *. simpl in He', Ha'. eexists _, _. split; [done|].
    rewrite He', Ha'. done.
  - destruct (strategy_outcome inner rule tier key excluded cap now Htier He)
      as (inner1 & r & Hs & He1 & Hr). rewrite Hs.
    pose proof (select_by_strategy_same _ _ _ _ _ _ _ _ _ _ Hs) as [Hsame Haff].
    destruct r as [c|]; [|by eexists _, _].
    destruct Hr as [Hin Hel]. pose proof Hel as Hus.
    unfold eligible in Hus. apply andb_true_iff in Hus as [_ Hus].
    destruct (try_acquire_channel_usable inner1 leases
      (identity_from_channel outbound_fingerprint (channel c)) now) as (inner' & l & claim & Hacq).
    { by eapply same_states_ok. }
    { destruct Hsame as (Hh & _ & Hm & _). unfold usable, channel_state in *. by rewrite Hh, Hm. }
    destruct (try_acquire_channel_entropy inner1
      (identity_from_channel outbound_fingerprint (channel c)) now) as [He' Ha'].
    rewrite Hacq in He', Ha' |- *. simpl in He', Ha'. eexists _, _. split; [done|].
    rewrite He', Ha', Haff. done.
Qed.

Lemma tiers_outcome inner leases a rule ts key excluded cap now :
  inner_ok inner leases → Forall tier_ok ts → word64 inner.(entropy) →
  ∃ inner' r,
    select_in_tiers outbound_fingerprint inner a rule ts key excluded cap now = Some (inner', r) ∧
    word64 inner'.(entropy) ∧ inner'.(affinity) = inner.(affinity) ∧
    match r with
    | Some (c, hit, l, claim) => ∃ before tier after, ts = before ++ tier :: after ∧
        (∀ t d, t ∈ before → d ∈ t.(candidates) →
           eligible outbound_fingerprint inner key excluded cap now d = false) ∧
        c ∈ tier.(candidates) ∧
        eligible outbound_fingerprint inner key excluded cap now c = true ∧
        affinity_candidate_of outbound_fingerprint inner key excluded cap now a tier
        = (if hit : bool then Some c else None)
    | None => ∀ t d, t ∈ ts → d ∈ t.(candidates) →
        eligible outbound_fingerprint inner key excluded cap now d = false
    end.
Proof.
  intros Hok Hts. revert inner Hok. induction Hts as [|t ts Ht Hts IH]; intros inner Hok He.
  { exists inner, None. split_and!; [done..|]. intros t d Hd. by apply elem_of_nil in Hd. }
  cbn [select_in_tiers].
  destruct (tier_outcome inner leases a rule t key excluded cap now Hok Ht He)
    as (inner1 & r1 & -> & He1 & Ha1 & Hr1).
  destruct r1 as [[[[c hit] l] claim]|].
  - eexists _, _. split; [done|]. split; [done|]. split; [done|]. exists [], t, ts.
    split_and!; [done|intros ? ? Hn; by apply elem_of_nil in Hn|naive_solver..].
  - destruct Hr1 as [Hsame Hnone].
    destruct (IH inner1) as (inner' & r & -> & He' & Ha' & Hr); [by eapply same_states_ok|done|].
    eexists _, _. split; [done|]. split; [done|]. split; [congruence|].
    destruct r as [[[[c hit] l] claim]|].
    + destruct Hr as (before & tier & after & -> & Hbefore & Hc & Hel & Haff).
      exists (t :: before), tier, after. rewrite (affinity_candidate_same inner inner1) in Haff by done.
      rewrite (eligible_same inner inner1) in Hel by done. split_and!; [done| |done|done|done].
      intros t' d [->|Ht']%elem_of_cons Hd; [by apply Hnone|].
      rewrite <- (eligible_same inner inner1) by done. by eapply Hbefore.
    + intros t' d [->|Ht']%elem_of_cons Hd; [by apply Hnone|].
      rewrite <- (eligible_same inner inner1) by done. by eapply Hr.
Qed.

(** The cases of a selection. *)
Lemma select_cases inner leases lookup_now now s key operation model m excluded cap
    (Hreach : rreachable outbound_fingerprint any_key (D := D) (V := V) (T := T) (Auth := Auth) (inner, leases))
    (Hrules : ∀ rule, operation_rule s operation model = Some rule → Forall tier_ok rule.(tiers)) :
  ∃ inner' r,
    select_with_affinity_excluding_capability outbound_fingerprint lookup_now now inner s key operation
      model m excluded cap = Some (inner', r) ∧
    match r with
    | UnknownOrInaccessibleModel => inner' = inner ∧
        ∀ rule, operation_rule s operation model = Some rule → permits_route key rule.(route_slot) = false
    | NoHealthyChannel rule =>
        operation_rule s operation model = Some rule ∧ permits_route key rule.(route_slot) = true ∧
        ∀ t c, t ∈ rule.(tiers) → c ∈ t.(candidates) →
          eligible outbound_fingerprint inner key excluded cap now c = false
    | Selected route => ∃ rule before tier after c,
        operation_rule s operation model = Some rule ∧ permits_route key rule.(route_slot) = true ∧
        rule.(tiers) = before ++ tier :: after ∧
        (∀ t d, t ∈ before → d ∈ t.(candidates) →
           eligible outbound_fingerprint inner key excluded cap now d = false) ∧
        c ∈ tier.(candidates) ∧ eligible outbound_fingerprint inner key excluded cap now c = true ∧
        route.(sr_rule) = rule ∧ route.(sr_channel) = c.(channel) ∧
        route.(sr_upstream_model) = c.(upstream_model) ∧
        route.(sr_candidate_slot) = c.(candidate_slot) ∧ route.(sr_channel_slot) = c.(channel_slot)
    end.
Proof.
  apply rreachable_ok in Hreach as (Hok & _ & He). simpl in *.
  unfold select_with_affinity_excluding_capability.
  destruct (operation_rule s operation model) as [rule|] eqn:Hrule; [|by eexists _, _].
  destruct (permits_route key (route_slot rule)) eqn:Hp; simpl.
  2:{ eexists _, _. split; [done|]. split; [done|]. by intros ? [= <-]. }
  destruct (prepare_affinity _ _ _ _ _) as [inner1 a] eqn:Hprep. apply prepare_affinity_same in Hprep.
  destruct (tiers_outcome inner1 leases a rule (tiers rule) key excluded cap now)
    as (inner2 & r & -> & _ & _ & Hr); [by eapply same_states_ok|by apply Hrules|by apply Hprep|].
  destruct r as [[[[c hit] l] claim]|].
  - destruct Hr as (before & tier & after & Htiers & Hbefore & Hc & Hel & _).
    rewrite (eligible_same inner inner1) in Hel by done.
    eexists _, _. split; [done|]. exists rule, before, tier, after, c.
    split_and!; try done. intros t d Ht Hd. rewrite <- (eligible_same inner inner1) by done. eauto.
  - eexists _, _. split; [done|]. split_and!; [done|done|]. intros t d Ht Hd.
    rewrite <- (eligible_same inner inner1) by done. eauto.
Qed.


(** A lookup that prefers a candidate leaves the entry naming it in the cache. *)
Lemma prepare_affinity_entry lookup_now key rule m inner inner1 a p preferred :
  prepare_affinity lookup_now key rule m inner = (inner1, a) → a = Some p →
  p.(preferred_candidate) = Some preferred →
  ∃ e, inner1.(affinity).(entries) !! p.(prep_key) = Some e ∧ e.(candidate) = preferred.
Proof.
  unfold prepare_affinity. intros Hp -> Hc. destruct m as [ma|]; [|done].
  destruct (affinity_lookup _ _ _) as [st pref] eqn:Hl. injection Hp as <- <-. simpl in *. subst pref.
  unfold affinity_lookup in Hl. repeat case_match; simplify_eq. eauto.
Qed.

Lemma remove_if_candidate_gone k preferred st e :
  st.(entries) !! k = Some e → e.(candidate) = preferred →
  (affinity_remove_if_candidate k preferred st).(entries) !! k = None.
Proof.
  intros He Hc. unfold affinity_remove_if_candidate. rewrite He. simpl.
  rewrite bool_decide_true by done. simpl. apply lookup_delete_eq.
Qed.

(** C17: session affinity decides within the tier that priority chooses (the
    first with an eligible candidate).  If that tier has an eligible candidate
    the session is bound to, the request goes to a candidate with that binding
    and reports a hit; a reported hit is always the bound candidate; and after
    a miss, unless the binding is kept for another transport, the stale entry
    is gone from the cache. *)
Theorem select_respects_affinity inner leases lookup_now now s key operation model m excluded cap inner' route
    (Hreach : rreachable outbound_fingerprint any_key (D := D) (V := V) (T := T) (Auth := Auth) (inner, leases))
    (Hrules : ∀ rule, operation_rule s operation model = Some rule → Forall tier_ok rule.(tiers))
    (Hsel : select_with_affinity_excluding_capability outbound_fingerprint lookup_now now inner s key
              operation model m excluded cap = Some (inner', Selected route)) :
  ∃ before tier after hit,
    let '(inner1, a) := prepare_affinity lookup_now key route.(sr_rule) m inner in
    route.(sr_rule).(tiers) = before ++ tier :: after ∧
    (∀ t d, t ∈ before → d ∈ t.(candidates) →
       eligible outbound_fingerprint inner key excluded cap now d = false) ∧
    (∃ c, c ∈ tier.(candidates) ∧ route.(sr_candidate_slot) = c.(candidate_slot)) ∧
    route.(sr_session_affinity)
      = (λ p, {| sel_rule_name := p.(prep_rule_name); sel_cache_hit := hit |}) <$> a ∧
    (hit = true → preferred_of a = Some {| rc_channel_id := route.(sr_channel).(channel_id);
                                           rc_upstream_model := route.(sr_upstream_model) |}) ∧
    (∀ p c, preferred_of a = Some p → c ∈ tier.(candidates) → identity_from_candidate c = p →
       eligible outbound_fingerprint inner key excluded cap now c = true → hit = true) ∧
    (∀ p, a = Some p → is_Some p.(preferred_candidate) → hit = false →
       preserves_affinity outbound_fingerprint inner1 a route.(sr_rule) key excluded cap now = false →
       inner'.(affinity).(entries) !! p.(prep_key) = None).
Proof.
  apply rreachable_ok in Hreach as (Hok & _ & He). simpl in *.
  unfold select_with_affinity_excluding_capability in Hsel.
  destruct (operation_rule s operation model) as [rule|] eqn:Hrule; [|by simplify_eq].
  destruct (permits_route key (route_slot rule)) eqn:Hp; simpl in Hsel; [|by simplify_eq].
  destruct (prepare_affinity _ _ _ _ _) as [inner1 a] eqn:Hprep.
  apply prepare_affinity_same in Hprep as Hsame.
  destruct (tiers_outcome inner1 leases a rule (tiers rule) key excluded cap now)
    as (inner2 & r & Hs & _ & Ha2 & Hr); [by eapply same_states_ok|by apply Hrules|by apply Hsame|].
  rewrite Hs in Hsel. destruct r as [[[[c hit] l] claim]|]; [|done]. injection Hsel as <- <-. simpl.
  destruct Hr as (before & tier & after & Htiers & Hbefore & Hc & _ & Haff).
  exists before, tier, after, hit. rewrite Hprep. split_and!; [done| |eauto|done| | |].
  - intros t d Ht Hd. rewrite <- (eligible_same inner inner1) by done. eauto.
  - intros ->. by apply affinity_candidate_spec in Haff as (_ & _ & ->).
  - intros p d Hpref Hd Hid Hel. destruct hit; [done|exfalso].
    unfold affinity_candidate_of in Haff. rewrite Hpref in Haff.
    eapply find_none in Haff; [|by apply list_elem_of_In]. cbv beta in Haff.
    rewrite (eligible_same inner inner1), Hel, andb_true_r in Haff by done.
    unfold identity_matches in Haff. subst p. simpl in Haff. by rewrite !bool_decide_true in Haff.
  - intros p -> [d Hd] -> ->. destruct (prepare_affinity_entry _ _ _ _ _ _ _ _ _ Hprep eq_refl Hd)
      as (e & Hent & Hcand). simpl. rewrite Hd. simpl. rewrite Ha2. by eapply remove_if_candidate_gone.
Qed.

(** A request over another transport never disturbs a healthy session: when
    the bound candidate is permitted and usable but does not offer the
    request's transport, the selection leaves the affinity cache as the lookup
    left it, and the lease of the route it returns carries no binding, so its
    success cannot overwrite the entry nor its failure remove it. *)
Theorem inapplicable_affinity_preserved inner leases lookup_now now s key operation model m excluded cap
    rule inner1 a
    (Hreach : rreachable outbound_fingerprint any_key (D := D) (V := V) (T := T) (Auth := Auth) (inner, leases))
    (Hrule : operation_rule s operation model = Some rule) (Htiers : Forall tier_ok rule.(tiers))
    (Hpermit : permits_route key rule.(route_slot) = true)
    (Hprep : prepare_affinity lookup_now key rule m inner = (inner1, a))
    (Hpreserve : preserves_affinity outbound_fingerprint inner1 a rule key excluded cap now = true) :
  ∃ inner' r,
    select_with_affinity_excluding_capability outbound_fingerprint lookup_now now inner s key
      operation model m excluded cap = Some (inner', r) ∧
    inner'.(affinity) = inner1.(affinity) ∧
    match r with
    | Selected route => route.(sr_lease).(lease_affinity) = None ∧
        ∀ after, lease_request_failed route.(sr_lease) after = after ∧
                 lease_request_succeeded any_key now route.(sr_lease) after = Some after
    | NoHealthyChannel rule' => rule' = rule
    | UnknownOrInaccessibleModel => False
    end.
Proof.
  apply rreachable_ok in Hreach as (Hok & _ & He). simpl in *.
  unfold select_with_affinity_excluding_capability. rewrite Hrule, Hpermit, Hprep. simpl.
  rewrite Hpreserve. simpl. apply prepare_affinity_same in Hprep as Hsame.
  destruct (tiers_outcome inner1 leases a rule (tiers rule) key excluded cap now)
    as (inner2 & x & -> & _ & Ha & _); [by eapply same_states_ok|done|by apply Hsame|].
  destruct x as [[[[c hit] l] claim]|]; eexists _, _; (split; [done|]); rewrite ?andb_false_r;
    unfold remove_stale; destruct a; done.
Qed.
End outcomes.

(** ** Concrete instances and witnesses *)

(** Two channels in one tier, only the second of which offers WebSocket. *)
Module RoutingExample.
Abbreviation Snapshot := (RoutingSnapshot (D := Z) (V := string) (T := Z) (Policy := unit) (Auth := unit)).
Definition policy_digest (p : unit) : digest := 7%N.

Definition chan (id : uuid) (websocket : bool) : CompiledChannel Z unit unit :=
  new_channel id 12%N ApiFormat.OpenAiResponses ConnectorKind.OpenAiCompatible
    RequestCompression.Default "https://api.example/v1" 1 tt {[ "gpt" ]} websocket false true false
    None tt.
Definition cand (slot : nat) (id : uuid) (websocket : bool) : CompiledCandidate Z unit unit :=
  {| candidate_slot := slot; channel_slot := slot; channel := chan id websocket;
     upstream_model := "gpt"; weight := 1 |}.
Definition tier : CompiledRouteTier Z unit unit :=
  {| priority := 0; strategy := WeightedRoundRobin; tier_fingerprint := 5%N;
     channel_ids := [31; 32]%N; candidates := [cand 0 31 false; cand 1 32 true] |}.
Definition rule : CompiledModelRule Z string Z unit unit :=
  {| route_slot := 0; rule_id := 41%N; model_id := 42%N; client_model := "model";
     api_operation := ApiOperation.Responses; rule_price_snapshot := CostExample.snapshot 2;
     rule_advanced_billing := BillingExample.compiled; tiers := [tier];
     unavailable_candidates := []; target_candidates := [3]; model_capable_candidates := [3];
     target_candidate_count := 2; model_capable_candidate_count := 2 |}.
Definition key : CompiledApiKey Z Z :=
  {| key_id := 51%N; key_user_id := 52%N; websocket_enabled := true; filter_fast_mode := false;
     allowed_api_formats := [ApiFormat.OpenAiResponses]; permissions := [];
     authorization := {| allowed_channel_slots := [3]; accessible_route_slots := [1];
                         profile_fingerprint := 6%N |};
     Compiled.expires_at := None; requests_per_minute := None; max_concurrent_requests := None;
     quota_limit_amount := None; quota_used_amount := 0 |}.
Definition snapshot : Snapshot :=
  {| snapshot_rules := {[ ApiOperation.Responses := {[ "model" := rule ]} ]};
     snapshot_channels := [chan 31 false; chan 32 true];
     snapshot_affinity := AffinityExample.settings |}.
Definition session : SessionAffinityMatch :=
  {| match_rule_name := "chat"; match_rule_fingerprint := 1%N; match_ttl := 100;
     match_session_hash := 8%N |}.

Definition select (cap : ChannelCapability) (inner : RuntimeInner) :=
  select_with_affinity_excluding_capability policy_digest 10 10 inner snapshot key
    ApiOperation.Responses "model" (Some session) [] cap.

Definition blank : RuntimeInner :=
  {| health_policy := PassiveHealthPolicy_default; heap := ∅; next_loc := 0%N; channel_states := ∅;
     active_channels := None; round_robin := ∅; affinity := AffinityState_default; entropy := 1 |}.
(** Published, one request leased, and its success recorded. *)
Definition inner0 : RuntimeInner := reconcile policy_digest AffinityExample.no_key 0 snapshot blank.
Definition select1 := default (blank, UnknownOrInaccessibleModel) (select CapAny inner0).
Definition inner1 : RuntimeInner := select1.1.
Definition leases1 : list ChannelLease := leases_after select1.2 [].
Definition lease1 : ChannelLease :=
  match leases1 with
  | x :: _ => x
  | [] => {| lease_identity := identity_from_channel policy_digest (chan 31 false); lease_state := 0%N;
             half_open_claim := 0; lease_affinity := None; released := true |}
  end.
Definition inner2 : RuntimeInner :=
  default blank (lease_request_succeeded AffinityExample.no_key 10 lease1 inner1).

(** The next request of the session. *)
Definition select2 := default (blank, UnknownOrInaccessibleModel) (select CapAny inner2).
Definition route2 : SelectedRoute :=
  match select2.2 with
  | Selected route => route
  | _ => make_route policy_digest rule None false (cand 1 32 true) false 0%N 0
  end.

Abbreviation reached := (rreachable policy_digest AffinityExample.no_key
  (D := Z) (V := string) (T := Z) (Auth := unit)).

Lemma reached0 : reached (inner0, []).
Proof.
  eapply (rreachable_step _ _ (blank, [])); [|by apply rstep_reconcile|done].
  by apply (rreachable_new _ _ PassiveHealthPolicy_default 1).
Qed.
Lemma reached1 : reached (inner1, leases1).
Proof.
  eapply rreachable_step; [apply reached0| |vm_compute; done].
  apply (rstep_select _ _ 10 10 inner0 [] snapshot key ApiOperation.Responses "model" (Some session) []
           CapAny inner1 select1.2).
  vm_cast_no_check (eq_refl (Some (inner1, select1.2))).
Qed.
Lemma reached2 : reached (inner2, leases1).
Proof.
  eapply rreachable_step; [apply reached1| |vm_compute; done].
  apply (rstep_succeeded _ _ 10 _ _ lease1); [|vm_cast_no_check (eq_refl (Some inner2))].
  apply (list_elem_of_lookup_2 _ 0). vm_compute. reflexivity.
Qed.

Lemma selected2 : select CapAny inner2 = Some (select2.1, Selected route2).
Proof. vm_cast_no_check (eq_refl (Some (select2.1, Selected route2))). Qed.

Lemma tier_is_ok : tier_ok tier.
Proof.
  split; [by repeat constructor|by vm_compute|]. apply (bool_decide_unpack _). by vm_compute.
Qed.
Lemma rule_found : operation_rule snapshot ApiOperation.Responses "model" = Some rule.
Proof. vm_compute. reflexivity. Qed.
Lemma rule_permitted : permits_route key rule.(route_slot) = true.
Proof. vm_compute. reflexivity. Qed.
Lemma rules_ok o model r : operation_rule snapshot o model = Some r → Forall tier_ok r.(tiers).
Proof.
  unfold operation_rule, routes_get; simpl. intros Hr.
  assert (r = rule) as ->; [|apply Forall_singleton, tier_is_ok].
  destruct (decide (o = ApiOperation.Responses)) as [->|Ho].
  - rewrite lookup_singleton_eq in Hr. simpl in Hr. by apply lookup_singleton_Some in Hr as [_ <-].
  - by rewrite lookup_singleton_ne in Hr.
Qed.
End RoutingExample.



(** The second request of the session goes to the channel of the first. *)
Lemma select_respects_affinity_witness :
  RoutingExample.route2.(sr_session_affinity) = Some {| sel_rule_name := "chat"; sel_cache_hit := true |} ∧
  RoutingExample.route2.(sr_channel).(channel_id) = 31%N ∧
  ∃ before tier after, [RoutingExample.tier] = before ++ tier :: after ∧
    (∀ t d, t ∈ before → d ∈ t.(candidates) →
       eligible RoutingExample.policy_digest RoutingExample.inner2 RoutingExample.key [] CapAny 10 d = false) ∧
    (∃ c, c ∈ tier.(candidates) ∧ RoutingExample.route2.(sr_candidate_slot) = c.(candidate_slot)).
Proof.
  split; [vm_compute; reflexivity|]. split; [vm_compute; reflexivity|].
  destruct (select_respects_affinity RoutingExample.policy_digest AffinityExample.no_key
    RoutingExample.inner2 RoutingExample.leases1 10 10 RoutingExample.snapshot RoutingExample.key
    ApiOperation.Responses "model" (Some RoutingExample.session) [] CapAny
    RoutingExample.select2.1 RoutingExample.route2
    RoutingExample.reached2 (RoutingExample.rules_ok ApiOperation.Responses "model")
    RoutingExample.selected2) as (before & tier & after & hit & Hx).
  destruct (prepare_affinity 10 _ _ _ _) as [i a]. exists before, tier, after.
  destruct Hx as (Ht & Hb & Hc & _). split; [|split; [exact Hb|exact Hc]].
  rewrite <- Ht. vm_compute. reflexivity.
Defined.

(** The session is bound to the channel without WebSocket; a WebSocket request
    of the session is served elsewhere and leaves the binding in place. *)
Lemma inapplicable_affinity_preserved_witness :
  ∃ inner' r, RoutingExample.select CapResponsesWebSocket RoutingExample.inner2 = Some (inner', r) ∧
    inner'.(affinity) = RoutingExample.inner2.(affinity) ∧ r ≠ UnknownOrInaccessibleModel.
Proof.
  destruct (inapplicable_affinity_preserved RoutingExample.policy_digest AffinityExample.no_key
    RoutingExample.inner2 RoutingExample.leases1 10 10 RoutingExample.snapshot RoutingExample.key
    ApiOperation.Responses "model" (Some RoutingExample.session) [] CapResponsesWebSocket
    RoutingExample.rule
    (prepare_affinity 10 RoutingExample.key RoutingExample.rule (Some RoutingExample.session)
       RoutingExample.inner2).1
    (prepare_affinity 10 RoutingExample.key RoutingExample.rule (Some RoutingExample.session)
       RoutingExample.inner2).2 RoutingExample.reached2
    RoutingExample.rule_found
    (RoutingExample.rules_ok ApiOperation.Responses "model" _ RoutingExample.rule_found)
    RoutingExample.rule_permitted ltac:(apply surjective_pairing) ltac:(vm_compute; reflexivity))
    as (inner' & r & Hs & Ha & Hr).
  exists inner', r. split; [exact Hs|]. split.
  - rewrite Ha. vm_compute. reflexivity.
  - intros ->. exact Hr.
Defined.

Lemma routing_pressure_exact_witness :
  (pressure_snapshot 10 RoutingExample.inner2).2.(in_flight_requests)
  = Z.of_nat (length RoutingExample.leases1).
Proof.
  apply (routing_pressure_exact RoutingExample.policy_digest AffinityExample.no_key
           _ _ _ RoutingExample.reached2).
Defined.
