(* ===== verification/Publish.v ===== *)
(** * Publication of routes and keys

    Models the part of [src/runtime_config/mod.rs] that turns the persisted
    rows into the routing snapshot: validation of groups, rules and keys, the
    slots of the channels, [compile_rules] and [compile_keys] with the
    authorization bit vectors.

    A publication either succeeds, is rejected with a [ConfigError], or panics
    (an index or an [expect] that fails); the three are kept apart in
    [outcome].  A rejection carries no message here.  [compile_rules] receives
    the compiled channels as an argument, as in the source.  Hash sets are
    iterated in the order of [elements]; the results do not depend on it. *)

From S2P Require Import Prelude Text Decimal Domain Records Billing Cost Compiled.

Open Scope gateway_scope.

Inductive Failure := Rejected (e : ConfigError) | Panicked.
Abbreviation outcome A := (result A Failure) (only parsing).

Definition reject {A} : outcome A := Err (Rejected ConfigCompile).
(** [if b { return Err(..) }] *)
Definition reject_if (b : bool) : outcome unit := if b then reject else Ok tt.
(** [.ok_or_else(|| ConfigError::..)?] *)
Definition required {A} (o : option A) : outcome A := ok_or o (Rejected ConfigCompile).
(** Indexing and [expect]. *)
Definition index {A} (o : option A) : outcome A := ok_or o Panicked.
Definition lift {A} (r : result A ConfigError) : outcome A :=
  match r with Ok a => Ok a | Err e => Err (Rejected e) end.

(** A [for] loop whose body may return early. *)
Fixpoint for_each {S A} (body : S → A → outcome S) (l : list A) (s : S) : outcome S :=
  match l with
  | [] => Ok s
  | a :: l' => s' <-! body s a; for_each body l' s'
  end.

(** [iter().map(f).collect::<Result<_, _>>()] *)
Definition collect {A B} (f : A → outcome B) (l : list A) : outcome (list B) :=
  for_each (λ bs a, b <-! f a; Ok (bs ++ [b])) l [].

(** ** Field checks *)

Definition require (value : string) : outcome unit :=
  reject_if (match trim (bytes_of value) with [] => true | _ => false end).

Definition unique {A} `{Countable A} (items : list A) : outcome unit :=
  reject_if (negb (size (list_to_set items : gset A) =? length items)%nat).

Definition insert_unique {A} (m : gmap uuid A) (id : uuid) (value : A) : outcome (gmap uuid A) :=
  if decide (is_Some (m !! id)) then reject else Ok (<[id := value]> m).

Definition parse_format (value : string) : outcome ApiFormat.t := required (ApiFormat.parse value).
Definition parse_connector_kind (value : string) : outcome ConnectorKind.t :=
  required (ConnectorKind.parse value).
Definition parse_request_compression (value : string) : outcome RequestCompression.t :=
  required (RequestCompression.parse value).
Definition parse_tier_strategy (value : string) : outcome SelectionStrategy :=
  required (parse_strategy value).
Definition parse_permission (value : string) : outcome ApiKeyPermission :=
  if String.eqb value "proxy" then Ok Proxy
  else if String.eqb value "models.read" then Ok ModelsRead
  else reject.

(** [u32::try_from] of an [i32], filtered by [> 0]. *)
Definition positive_policy (value : option Z) : outcome (option Z) :=
  match value with
  | None => Ok None
  | Some v => if 0 <? v then Ok (Some v) else reject
  end.

(** ** Channel groups and channel identities *)

Definition is_empty (s : string) : bool := String.eqb s "".

Definition neutral_group (r : ChannelGroupRecord) : bool :=
  is_empty r.(cg_api_format) && is_empty r.(cg_connector_kind) && is_empty r.(cg_request_compression).

Definition validate_group (r : ChannelGroupRecord) : outcome unit :=
  _ <-! require r.(cg_name);
  if neutral_group r then Ok tt
  else
    _ <-! reject_if (is_empty r.(cg_api_format) || is_empty r.(cg_connector_kind)
                     || is_empty r.(cg_request_compression));
    api_format <-! parse_format r.(cg_api_format);
    connector_kind <-! parse_connector_kind r.(cg_connector_kind);
    request_compression <-! parse_request_compression r.(cg_request_compression);
    _ <-! reject_if (bool_decide (connector_kind = ConnectorKind.CodexOauth)
                     && negb (bool_decide (api_format = ApiFormat.OpenAiResponses)
                              || bool_decide (api_format = ApiFormat.OpenAiImages)));
    reject_if (RequestCompression.is_encoded request_compression
               && negb (bool_decide (api_format = ApiFormat.OpenAiResponses))).

(** The loop that fills [all_groups]. *)
Definition index_groups (records : list ChannelGroupRecord) : outcome (gmap uuid ChannelGroupRecord) :=
  for_each (λ m g, _ <-! validate_group g; insert_unique m g.(cg_id) g) records ∅.

Section publish.
Context {D V T Policy Auth : Type} `{DecimalOps D} `{JsonOps V} `{UtcOps T}.
(** [serde_json::from_value::<AdvancedBilling>], SHA-256 of a byte string and of
    a key's secret. *)
Context (from_value : V → option (AdvancedBilling D V)) (sha256 : list Z → digest)
  (hash_secret : string → digest).

Abbreviation Channel := (CompiledChannel D Policy Auth).
Abbreviation Candidate := (CompiledCandidate D Policy Auth).
Abbreviation Tier := (CompiledRouteTier D Policy Auth).
Abbreviation Rule := (CompiledModelRule D V T Policy Auth).
Abbreviation Groups := (gmap uuid ChannelGroupRecord).
Abbreviation Channels := (gmap uuid (ChannelRecord D V)).
Abbreviation Slots := (gmap uuid nat).

Definition channel_connector_kind (r : ChannelRecord D V) (g : ChannelGroupRecord)
  : outcome ConnectorKind.t :=
  if is_empty r.(ch_connector_kind) then parse_connector_kind g.(cg_connector_kind)
  else parse_connector_kind r.(ch_connector_kind).

Definition channel_request_compression (r : ChannelRecord D V) (g : ChannelGroupRecord)
  : outcome RequestCompression.t :=
  if is_empty r.(ch_request_compression) then parse_request_compression g.(cg_request_compression)
  else parse_request_compression r.(ch_request_compression).

Definition channel_api_operation (r : ChannelRecord D V) : outcome ApiOperation.t :=
  match r.(ch_api_operation) with
  | Some operation =>
      f <-! parse_format r.(ch_api_format);
      _ <-! reject_if (negb (bool_decide (f = ApiOperation.api_format operation)));
      Ok operation
  | None => Ok (ApiOperation.for_legacy_format r.(ch_api_format))
  end.

Definition compiled_channel_identity (r : ChannelRecord D V) : outcome CapabilityIdentity :=
  operation <-! channel_api_operation r;
  Ok {| ci_logical_channel_id :=
          if bool_decide (r.(ch_logical_channel_id) = NIL) then r.(ch_id) else r.(ch_logical_channel_id);
        ci_access_id := r.(ch_access_id);
        ci_api_operation := operation;
        ci_credential_id := cred_id <$> r.(ch_credential);
        ci_credential_revision := cred_revision <$> r.(ch_credential);
        ci_binding_revision := r.(ch_credential_binding_revision);
        ci_access_revision := r.(ch_access_revision);
        ci_capability_revision := r.(ch_capability_revision) |}.

(** ** Validation of rules *)

(** The duplicate check and the route metadata of one candidate. *)
Definition check_candidate (seen : gset (uuid * string)) (c : ModelRuleRouteCandidate)
  : outcome (gset (uuid * string)) :=
  let k := (c.(rc_channel_id), c.(rc_upstream_model)) in
  _ <-! reject_if ((c.(rc_weight) <=? 0)
                   || (match trim (bytes_of c.(rc_upstream_model)) with [] => true | _ => false end)
                   || (300 <? chars_count (bytes_of c.(rc_upstream_model)))
                   || bool_decide (k ∈ seen));
  Ok ({[ k ]} ∪ seen).

Definition check_tier (priorities : gset Z) (t : ModelRuleRoutingTier) : outcome (gset Z) :=
  _ <-! reject_if ((t.(rt_priority) <? 0)
                   || bool_decide (t.(rt_priority) ∈ priorities)
                   || bool_decide (parse_strategy t.(rt_selection_strategy) = None)
                   || (match t.(rt_candidates) with [] => true | _ => false end));
  _ <-! for_each check_candidate t.(rt_candidates) ∅;
  Ok ({[ t.(rt_priority) ]} ∪ priorities).

Definition validate_rule (r : ModelRuleRecord D V T) : outcome unit :=
  _ <-! require r.(mr_client_model);
  _ <-! parse_format r.(mr_api_format);
  match r.(mr_routing_tiers) with
  | [] => reject_if r.(mr_enabled)
  | ts => _ <-! for_each check_tier ts ∅; Ok tt
  end.

Definition check_reference (format : ApiFormat.t) (operation : ApiOperation.t) (groups : Groups)
    (channels : Channels) (c : ModelRuleRouteCandidate) : outcome unit :=
  channel <-! required (channels !! c.(rc_channel_id));
  _ <-! reject_if (bool_decide (groups !! channel.(ch_channel_group_id) = None));
  channel_format <-! parse_format channel.(ch_api_format);
  _ <-! reject_if (negb (bool_decide (channel_format = format)));
  reject_if (is_some_and channel.(ch_api_operation) (λ o, negb (bool_decide (o = operation)))).

Definition validate_rule_references (r : ModelRuleRecord D V T) (groups : Groups) (channels : Channels)
  : outcome unit :=
  format <-! parse_format r.(mr_api_format);
  for_each (λ _ t,
    for_each (λ _ c, check_reference format r.(mr_api_operation) groups channels c)
      t.(rt_candidates) tt) r.(mr_routing_tiers) tt.

(** ** Compilation of one rule *)

(** The local variables of the candidate loop. *)
Record RuleAcc := {
  ra_unavailable : gmap uuid uuid;
  ra_target : gset uuid;
  ra_capable : gset uuid;
  ra_target_count : Z;
  ra_capable_count : Z;
  ra_tier_channels : gmap Z (list Candidate);
  ra_strategies : gmap Z SelectionStrategy;
  ra_slots : gmap (uuid * string) nat;
}.
Definition empty_acc : RuleAcc :=
  {| ra_unavailable := ∅; ra_target := ∅; ra_capable := ∅; ra_target_count := 0;
     ra_capable_count := 0; ra_tier_channels := ∅; ra_strategies := ∅; ra_slots := ∅ |}.

(** [CompiledCandidate::new], whose [expect] rejects a negative weight. *)
Definition new_candidate (slot channel_slot : nat) (channel : Channel) (model : string) (weight : Z)
  : outcome Candidate :=
  if weight <? 0 then Err Panicked
  else Ok {| candidate_slot := slot; channel_slot := channel_slot; channel := channel;
             upstream_model := model; weight := weight |}.

Definition add_target (id : uuid) (a : RuleAcc) : RuleAcc :=
  {| ra_unavailable := a.(ra_unavailable); ra_target := {[ id ]} ∪ a.(ra_target);
     ra_capable := a.(ra_capable); ra_target_count := sat_add u64_max a.(ra_target_count) 1;
     ra_capable_count := a.(ra_capable_count); ra_tier_channels := a.(ra_tier_channels);
     ra_strategies := a.(ra_strategies); ra_slots := a.(ra_slots) |}.
Definition add_capable (id : uuid) (a : RuleAcc) : RuleAcc :=
  {| ra_unavailable := a.(ra_unavailable); ra_target := a.(ra_target);
     ra_capable := {[ id ]} ∪ a.(ra_capable); ra_target_count := a.(ra_target_count);
     ra_capable_count := sat_add u64_max a.(ra_capable_count) 1;
     ra_tier_channels := a.(ra_tier_channels); ra_strategies := a.(ra_strategies);
     ra_slots := a.(ra_slots) |}.
Definition add_unavailable (id group : uuid) (a : RuleAcc) : RuleAcc :=
  {| ra_unavailable := <[id := group]> a.(ra_unavailable); ra_target := a.(ra_target);
     ra_capable := a.(ra_capable); ra_target_count := a.(ra_target_count);
     ra_capable_count := a.(ra_capable_count); ra_tier_channels := a.(ra_tier_channels);
     ra_strategies := a.(ra_strategies); ra_slots := a.(ra_slots) |}.
Definition add_strategy (priority : Z) (s : SelectionStrategy) (a : RuleAcc) : RuleAcc :=
  {| ra_unavailable := a.(ra_unavailable); ra_target := a.(ra_target);
     ra_capable := a.(ra_capable); ra_target_count := a.(ra_target_count);
     ra_capable_count := a.(ra_capable_count); ra_tier_channels := a.(ra_tier_channels);
     ra_strategies := <[priority := s]> a.(ra_strategies); ra_slots := a.(ra_slots) |}.
(** [tier_channels.entry(priority).or_default().push(candidate)] with the slot
    that [candidate_slots.entry(key).or_insert(next)] gave. *)
Definition push_candidate (priority : Z) (key : uuid * string) (c : Candidate) (a : RuleAcc) : RuleAcc :=
  {| ra_unavailable := a.(ra_unavailable); ra_target := a.(ra_target);
     ra_capable := a.(ra_capable); ra_target_count := a.(ra_target_count);
     ra_capable_count := a.(ra_capable_count);
     ra_tier_channels :=
       <[priority := default [] (a.(ra_tier_channels) !! priority) ++ [c]]> a.(ra_tier_channels);
     ra_strategies := a.(ra_strategies);
     ra_slots := <[key := c.(candidate_slot)]> a.(ra_slots) |}.

Definition add_candidate (r : ModelRuleRecord D V T) (groups : Groups) (all_channels : Channels)
    (slots : Slots) (channels : gmap uuid Channel) (priority : Z) (a : RuleAcc)
    (c : ModelRuleRouteCandidate) : outcome RuleAcc :=
  let id := c.(rc_channel_id) in
  record <-! required (all_channels !! id);
  group <-! required (groups !! record.(ch_channel_group_id));
  let a1 := add_target id a in
  if negb (bool_decide (c.(rc_upstream_model) ∈ record.(ch_available_models))) then Ok a1
  else
    _ <-! lift (validate_effective_channel_prices from_value r record.(ch_billing_multiplier));
    let a2 := add_capable id a1 in
    if group.(cg_enabled) && record.(ch_enabled) && negb record.(ch_auto_disabled) then
      compiled <-! required (channels !! id);
      let key := (id, c.(rc_upstream_model)) in
      let slot := default (size a2.(ra_slots)) (a2.(ra_slots) !! key) in
      channel_slot <-! index (slots !! id);
      candidate <-! new_candidate slot channel_slot compiled c.(rc_upstream_model) c.(rc_weight);
      Ok (push_candidate priority key candidate a2)
    else Ok (add_unavailable id record.(ch_channel_group_id) a2).

Definition add_tier (r : ModelRuleRecord D V T) (groups : Groups) (all_channels : Channels)
    (slots : Slots) (channels : gmap uuid Channel) (a : RuleAcc) (t : ModelRuleRoutingTier)
  : outcome RuleAcc :=
  strategy <-! parse_tier_strategy t.(rt_selection_strategy);
  for_each (add_candidate r groups all_channels slots channels t.(rt_priority)) t.(rt_candidates)
    (add_strategy t.(rt_priority) strategy a).

(** [sort_unstable] on the priorities, and on the candidates by channel id and
    then upstream model; the keys are distinct, so the result is unique. *)
Definition candidate_order (a b : Candidate) : Prop :=
  (a.(channel).(channel_id) < b.(channel).(channel_id))%N ∨
  (a.(channel).(channel_id) = b.(channel).(channel_id) ∧
   String.leb a.(upstream_model) b.(upstream_model) = true).
#[export] Instance candidate_order_dec : RelDecision candidate_order.
Proof. intros a b. unfold candidate_order. apply _. Defined.

(** [checked_add] of [i64::from(weight)]; the weights are not negative. *)
Definition add_weight (total : Z) (c : Candidate) : outcome Z :=
  if total + c.(weight) <=? i64_max then Ok (total + c.(weight)) else reject.

Definition compile_tier (a : RuleAcc) (priority : Z) : outcome Tier :=
  cs <-! index (a.(ra_tier_channels) !! priority);
  let sorted := merge_sort candidate_order cs in
  strategy <-! index (a.(ra_strategies) !! priority);
  aggregate_weight <-! for_each add_weight sorted 0;
  _ <-! reject_if (aggregate_weight <=? 0);
  Ok (new_tier sha256 priority strategy sorted).

Definition compile_tiers (a : RuleAcc) : outcome (list Tier) :=
  collect (compile_tier a) (merge_sort Z.le ((map_to_list a.(ra_tier_channels)).*1)).

Definition unavailable_order (a b : CompiledUnavailableRouteCandidate) : Prop :=
  (a.(unavailable_channel_id) ≤ b.(unavailable_channel_id))%N.
#[export] Instance unavailable_order_dec : RelDecision unavailable_order.
Proof. intros a b. unfold unavailable_order. apply _. Defined.

Definition compile_unavailable (a : RuleAcc) : list CompiledUnavailableRouteCandidate :=
  merge_sort unavailable_order
    ((λ p, {| unavailable_channel_id := p.1; unavailable_group_id := p.2 |})
       <$> map_to_list a.(ra_unavailable)).

(** [words[slot / 64] |= 1 << (slot % 64)], a panic out of range. *)
Definition set_slot (words : list Z) (slot : nat) : outcome (list Z) :=
  if (slot / BITS <? length words)%nat then Ok (set_bit words slot) else Err Panicked.

Definition channel_words (slots : Slots) (ids : gset uuid) : outcome (list Z) :=
  for_each (λ words id, slot <-! index (slots !! id); set_slot words slot)
    (elements ids) (zero_words (size slots)).

(** [routes_by_channel_slot[slot].push(route_slot)] *)
Definition push_route (slots : Slots) (route_slot : nat) (routes : list (list nat)) (id : uuid)
  : outcome (list (list nat)) :=
  slot <-! index (slots !! id);
  rs <-! index (routes !! slot);
  Ok (<[slot := rs ++ [route_slot]]> routes).

(** The authorization candidates of a rule. *)
Definition authorization_candidates (a : RuleAcc) : gset uuid :=
  if bool_decide (a.(ra_capable) = ∅) then a.(ra_target) else a.(ra_capable).

Record CompiledRules := {
  model_rules : gmap (ApiOperation.t * string) Rule;
  routes_by_channel_slot : list (list nat);
}.

(** The body of the loop for an enabled rule of an enabled model, after its
    candidates were collected. *)
Definition publish_rule (slots : Slots) (r : ModelRuleRecord D V T) (a : RuleAcc) (cr : CompiledRules)
  : outcome CompiledRules :=
  tiers <-! compile_tiers a;
  target_words <-! channel_words slots a.(ra_target);
  capable_words <-! channel_words slots a.(ra_capable);
  let key := (r.(mr_api_operation), r.(mr_client_model)) in
  let slot := size cr.(model_rules) in
  routes <-! for_each (push_route slots slot) (elements (authorization_candidates a))
               cr.(routes_by_channel_slot);
  price <-! lift (compile_model_price_snapshot r);
  billing <-! lift (compile_advanced_billing from_value r);
  let rule := {| route_slot := slot; rule_id := r.(mr_id); model_id := r.(mr_model_id);
                 client_model := r.(mr_client_model); api_operation := r.(mr_api_operation);
                 rule_price_snapshot := price; rule_advanced_billing := billing; tiers := tiers;
                 unavailable_candidates := compile_unavailable a;
                 target_candidates := target_words; model_capable_candidates := capable_words;
                 target_candidate_count := a.(ra_target_count);
                 model_capable_candidate_count := a.(ra_capable_count) |} in
  _ <-! reject_if (bool_decide (is_Some (cr.(model_rules) !! key)));
  Ok {| model_rules := <[key := rule]> cr.(model_rules); routes_by_channel_slot := routes |}.

Definition compile_rule (groups : Groups) (all_channels : Channels) (slots : Slots)
    (channels : gmap uuid Channel) (st : gset uuid * CompiledRules) (r : ModelRuleRecord D V T)
  : outcome (gset uuid * CompiledRules) :=
  let '(ids, cr) := st in
  _ <-! reject_if (bool_decide (r.(mr_id) ∈ ids));
  let ids' := {[ r.(mr_id) ]} ∪ ids in
  _ <-! validate_rule r;
  _ <-! validate_rule_references r groups all_channels;
  if negb r.(mr_enabled) then Ok (ids', cr)
  else if negb r.(mr_model_enabled) then Ok (ids', cr)
  else
    format <-! parse_format r.(mr_api_format);
    _ <-! reject_if (negb (bool_decide (ApiOperation.api_format r.(mr_api_operation) = format)));
    a <-! for_each (add_tier r groups all_channels slots channels) r.(mr_routing_tiers) empty_acc;
    cr' <-! publish_rule slots r a cr;
    Ok (ids', cr').

Definition compile_rules (records : list (ModelRuleRecord D V T)) (groups : Groups)
    (all_channels : Channels) (slots : Slots) (channels : gmap uuid Channel) : outcome CompiledRules :=
  st <-! for_each (compile_rule groups all_channels slots channels) records
           (∅, {| model_rules := ∅; routes_by_channel_slot := replicate (size slots) [] |});
  Ok st.2.

(** ** Keys *)

Definition validate_key (r : ApiKeyRecord D T) (groups : Groups) (channels : Channels) : outcome unit :=
  _ <-! require r.(ak_secret_value);
  _ <-! reject_if (negb (bool_decide (r.(ak_status) ∈ ["active"; "disabled"; "revoked"; "expired"]))
                   || negb (bool_decide (r.(ak_user_status) ∈ ["active"; "suspended"; "disabled"])));
  _ <-! reject_if (bool_decide (r.(ak_allowed_api_formats) = []) || bool_decide (r.(ak_permissions) = []));
  _ <-! unique r.(ak_allowed_api_formats);
  _ <-! unique r.(ak_permissions);
  formats <-! collect parse_format r.(ak_allowed_api_formats);
  _ <-! collect parse_permission r.(ak_permissions);
  _ <-! unique r.(ak_allowed_group_ids);
  _ <-! unique r.(ak_allowed_channel_ids);
  _ <-! for_each (λ _ id, group <-! required (groups !! id);
                          f <-! parse_format group.(cg_api_format);
                          reject_if (negb (bool_decide (f ∈ formats)))) r.(ak_allowed_group_ids) tt;
  _ <-! for_each (λ _ id, channel <-! required (channels !! id);
                          f <-! parse_format channel.(ch_api_format);
                          reject_if (negb (bool_decide (f ∈ formats)))) r.(ak_allowed_channel_ids) tt;
  _ <-! positive_policy r.(ak_requests_per_minute);
  _ <-! positive_policy r.(ak_max_concurrent_requests);
  reject_if (is_some_and r.(ak_quota_limit_amount) dec_is_sign_negative
             || dec_is_sign_negative r.(ak_quota_used_amount)).

(** The closure [allow]. *)
Definition allow (slots : Slots) (st : list Z * gset uuid) (id : uuid) : outcome (list Z * gset uuid) :=
  slot <-! index (slots !! id);
  words <-! set_slot st.1 slot;
  Ok (words, {[ id ]} ∪ st.2).

Definition compile_allowed_channel_slots (r : ApiKeyRecord D T) (by_group : gmap uuid (list uuid))
    (slots : Slots) : outcome (list Z * gset uuid) :=
  st <-! for_each (λ st g, for_each (allow slots) (default [] (by_group !! g)) st)
           r.(ak_allowed_group_ids) (zero_words (size slots), ∅);
  for_each (allow slots) r.(ak_allowed_channel_ids) st.

(** The [debug_assert!] at the end of the function is a theorem below. *)
Definition compile_accessible_route_slots (rules : CompiledRules) (ids : gset uuid) (slots : Slots)
  : outcome (list Z) :=
  for_each (λ words id,
    slot <-! index (slots !! id);
    routes <-! index (rules.(routes_by_channel_slot) !! slot);
    for_each set_slot routes words) (elements ids) (zero_words (size rules.(model_rules))).

(** The bytes [routing_scope_fingerprint(&HashSet::new(), channels)] hashes. *)
Definition scope_preimage (channels : gset uuid) : list Z :=
  string_bytes "ai-gateway:routing-scope:v1" ++ [0] ++ [0]
  ++ flat_map uuid_bytes (merge_sort N.le (elements channels)).

Definition new_profile (ids : gset uuid) (allowed accessible : list Z) : AuthorizationProfile :=
  {| allowed_channel_slots := allowed; accessible_route_slots := accessible;
     profile_fingerprint := sha256 (scope_preimage ids) |}.

Record KeysAcc := {
  ka_keys : gmap digest (CompiledApiKey D T);
  ka_ids : gset uuid;
  ka_profiles : gmap (list Z) AuthorizationProfile;
}.

(** [authorization_profiles.entry(words).or_insert_with(..)]: keys with the same
    channels share a profile. *)
Definition profile_for (rules : CompiledRules) (slots : Slots) (words : list Z) (ids : gset uuid)
    (profiles : gmap (list Z) AuthorizationProfile) : outcome AuthorizationProfile :=
  match profiles !! words with
  | Some p => Ok p
  | None => accessible <-! compile_accessible_route_slots rules ids slots;
            Ok (new_profile ids words accessible)
  end.

Definition compile_key (groups : Groups) (all_channels : Channels) (by_group : gmap uuid (list uuid))
    (slots : Slots) (rules : CompiledRules) (a : KeysAcc) (r : ApiKeyRecord D T) : outcome KeysAcc :=
  _ <-! reject_if (bool_decide (r.(ak_id) ∈ a.(ka_ids)));
  let ids' := {[ r.(ak_id) ]} ∪ a.(ka_ids) in
  _ <-! validate_key r groups all_channels;
  if negb (String.eqb r.(ak_status) "active" && String.eqb r.(ak_user_status) "active")
  then Ok {| ka_keys := a.(ka_keys); ka_ids := ids'; ka_profiles := a.(ka_profiles) |}
  else
    formats <-! collect parse_format r.(ak_allowed_api_formats);
    permissions <-! collect parse_permission r.(ak_permissions);
    allowed <-! compile_allowed_channel_slots r by_group slots;
    profile <-! profile_for rules slots allowed.1 allowed.2 a.(ka_profiles);
    rpm <-! positive_policy r.(ak_requests_per_minute);
    concurrent <-! positive_policy r.(ak_max_concurrent_requests);
    let key := {| key_id := r.(ak_id); key_user_id := r.(ak_user_id);
                  websocket_enabled := r.(ak_user_websocket_enabled);
                  filter_fast_mode := r.(ak_user_filter_fast_mode);
                  allowed_api_formats := formats; permissions := permissions;
                  authorization := profile; expires_at := r.(ak_expires_at);
                  requests_per_minute := rpm; max_concurrent_requests := concurrent;
                  quota_limit_amount := r.(ak_quota_limit_amount);
                  quota_used_amount := r.(ak_quota_used_amount) |} in
    let h := hash_secret r.(ak_secret_value) in
    _ <-! reject_if (bool_decide (is_Some (a.(ka_keys) !! h)));
    Ok {| ka_keys := <[h := key]> a.(ka_keys); ka_ids := ids';
          ka_profiles := <[allowed.1 := profile]> a.(ka_profiles) |}.

Definition compile_keys (records : list (ApiKeyRecord D T)) (groups : Groups) (all_channels : Channels)
    (by_group : gmap uuid (list uuid)) (slots : Slots) (rules : CompiledRules)
  : outcome (gmap digest (CompiledApiKey D T)) :=
  a <-! for_each (compile_key groups all_channels by_group slots rules) records
          {| ka_keys := ∅; ka_ids := ∅; ka_profiles := ∅ |};
  Ok a.(ka_keys).

(** ** The slots of the channels *)

Definition sorted_channel_ids (all : Channels) : list uuid := merge_sort N.le ((map_to_list all).*1).

Definition channel_slots_of (all : Channels) : Slots :=
  list_to_map (imap (λ slot id, (id, slot)) (sorted_channel_ids all)).

Definition push_member (all : Channels) (m : gmap uuid (list uuid)) (id : uuid)
  : outcome (gmap uuid (list uuid)) :=
  channel <-! index (all !! id);
  let g := channel.(ch_channel_group_id) in
  Ok (<[g := default [] (m !! g) ++ [id]]> m).

Definition channels_by_group_of (all : Channels) : outcome (gmap uuid (list uuid)) :=
  for_each (push_member all) (sorted_channel_ids all) ∅.

(** The end of [compile_control_plane_for_plugins]: slots, rules and keys. *)
Definition compile_routing (rules : list (ModelRuleRecord D V T)) (keys : list (ApiKeyRecord D T))
    (groups : Groups) (all_channels : Channels) (channels : gmap uuid Channel)
  : outcome (CompiledRules * gmap digest (CompiledApiKey D T)) :=
  let slots := channel_slots_of all_channels in
  by_group <-! channels_by_group_of all_channels;
  cr <-! compile_rules rules groups all_channels slots channels;
  ks <-! compile_keys keys groups all_channels by_group slots cr;
  Ok (cr, ks).
End publish.

(** ** Reasoning about outcomes *)

Lemma reject_if_Ok b u : reject_if b = Ok u ↔ b = false ∧ u = tt.
Proof. destruct b, u; unfold reject_if, reject; naive_solver. Qed.

Lemma required_Ok {A} (o : option A) a : required o = Ok a ↔ o = Some a.
Proof. destruct o; unfold required; simpl; naive_solver. Qed.

Lemma index_Ok {A} (o : option A) a : index o = Ok a ↔ o = Some a.
Proof. destruct o; unfold index; simpl; naive_solver. Qed.

Lemma lift_Ok {A} (r : result A ConfigError) a : lift r = Ok a ↔ r = Ok a.
Proof. destruct r; simpl; naive_solver. Qed.

(** Decompose a successful run into its steps. *)
Ltac run_ok :=
  repeat match goal with
  | H : result_bind _ _ = Ok _ |- _ => apply result_bind_Ok in H as (? & ? & H)
  | H : reject_if _ = Ok _ |- _ => apply reject_if_Ok in H as [H ?]
  | H : required _ = Ok _ |- _ => apply required_Ok in H
  | H : index _ = Ok _ |- _ => apply index_Ok in H
  | H : lift _ = Ok _ |- _ => apply lift_Ok in H
  | H : Ok _ = Ok _ |- _ => injection H as H
  | H : reject = Ok _ |- _ => discriminate H
  | H : Err _ = Ok _ |- _ => discriminate H
  | H : unit |- _ => destruct H
  end; simplify_eq.

(** Invariant of a loop, indexed by the elements already processed. *)
Lemma for_each_ind {S A} (body : S → A → outcome S) (P : list A → S → Prop) l s s' :
  P [] s →
  (∀ done a rest s1 s2, l = done ++ a :: rest → P done s1 → body s1 a = Ok s2 → P (done ++ [a]) s2) →
  for_each body l s = Ok s' → P l s'.
Proof.
  intros Hinit Hstep.
  enough (∀ done rest s1, l = done ++ rest → P done s1 → for_each body rest s1 = Ok s' → P l s')
    as Hall by (apply (Hall [] l s); done).
  intros done rest. revert done. induction rest as [|a rest IH]; intros done s1 -> HP Hrun; simpl in Hrun.
  - run_ok. by rewrite app_nil_r.
  - run_ok. eapply IH; [|eapply Hstep|]; [by rewrite <- app_assoc|done|done|done|done].
Qed.

Lemma for_each_Forall {A} (body : unit → A → outcome unit) l u (P : A → Prop) :
  (∀ u a u', body u a = Ok u' → P a) → for_each body l u = Ok u → Forall P l.
Proof.
  intros Hbody. revert u. induction l as [|a l IH]; intros u Hrun; simpl in Hrun; [done|].
  run_ok. constructor; [by eapply Hbody|by eapply IH].
Qed.

Lemma for_each_app {S A} (body : S → A → outcome S) l1 l2 s :
  for_each body (l1 ++ l2) s = result_bind (for_each body l1 s) (for_each body l2).
Proof.
  revert s. induction l1 as [|a l1 IH]; intros s; simpl; [done|].
  destruct (body s a); simpl; [apply IH|done].
Qed.

(** A loop that cannot panic. *)
Lemma for_each_safe {S A} (body : S → A → outcome S) (P : S → Prop) l s :
  (∀ s a, a ∈ l → P s → body s a ≠ Err Panicked ∧ ∀ s', body s a = Ok s' → P s') →
  P s → for_each body l s ≠ Err Panicked.
Proof.
  revert s. induction l as [|a l IH]; intros s Hbody HP; simpl; [done|].
  destruct (Hbody s a) as [Hsafe Hnext]; [set_solver|done|].
  destruct (body s a) as [s'|e] eqn:Hrun; simpl; [|congruence].
  apply IH; [|by apply Hnext]. intros. apply Hbody; [set_solver|done].
Qed.

Lemma collect_Forall2 {A B} (f : A → outcome B) l bs :
  collect f l = Ok bs → Forall2 (λ a b, f a = Ok b) l bs.
Proof.
  unfold collect. apply (for_each_ind _ (λ done bs, Forall2 (λ a b, f a = Ok b) done bs)); [done|].
  intros done a rest s1 s2 _ HP Hrun. run_ok. apply Forall2_app; [done|]. by repeat constructor.
Qed.

Lemma unique_Ok {A} `{Countable A} (items : list A) u : unique items = Ok u → NoDup items.
Proof.
  unfold unique. intros Hu. run_ok. breflect. revert Hu. induction items as [|a items IH]; [constructor|].
  simpl. intros Hsize.
  assert (Hle : ∀ l : list A, (size (list_to_set l : gset A) ≤ length l)%nat).
  { intros l. induction l as [|b l IHl]; simpl; [done|]. rewrite size_union_alt, size_singleton.
    etrans; [apply Nat.add_le_mono_l, (subseteq_size _ (list_to_set l)); set_solver|lia]. }
  destruct (decide (a ∈ items)) as [Hin|Hin].
  - exfalso. assert ({[a]} ∪ list_to_set items ≡@{gset A} list_to_set items) as Heq by set_solver.
    rewrite Heq in Hsize. specialize (Hle items). lia.
  - constructor; [done|]. apply IH. rewrite size_union, size_singleton in Hsize by set_solver. lia.
Qed.

(** ** Bit vectors *)

Lemma word64_set_bit words slot : Forall word64 words → Forall word64 (set_bit words slot).
Proof.
  intros Hw. unfold set_bit. apply Forall_alter; [done|]. intros w Hlook Hword.
  assert (0 ≤ Z.of_nat (slot mod BITS) < 64) as Hi.
  { pose proof (Nat.mod_upper_bound slot BITS ltac:(done)). unfold BITS in *. lia. }
  unfold word64 in *. rewrite Z.shiftl_1_l.
  assert (0 ≤ Z.lor w (2 ^ Z.of_nat (slot mod BITS))) as Hpos.
  { apply Z.lor_nonneg. split; [lia|]. apply Z.pow_nonneg. lia. }
  split; [done|]. destruct (decide (Z.lor w (2 ^ Z.of_nat (slot mod BITS)) = 0)) as [->|Hne]; [lia|].
  apply Z.log2_lt_pow2; [lia|]. rewrite Z.log2_lor, Z.log2_pow2 by (lia || apply Z.pow_nonneg; lia).
  apply Z.max_lub_lt; [|lia]. destruct (decide (w = 0)) as [->|]; [done|]. apply Z.log2_lt_pow2; lia.
Qed.

Lemma word64_zero_words n : Forall word64 (zero_words n).
Proof. unfold zero_words. apply Forall_replicate. done. Qed.

Lemma set_slot_Ok words slot words' :
  set_slot words slot = Ok words' →
  (Forall word64 words → Forall word64 words') ∧ length words' = length words ∧
  ∀ s, bit_is_set words' s = bool_decide (slot = s) || bit_is_set words s.
Proof.
  unfold set_slot. destruct (Nat.ltb_spec (slot / BITS) (length words)) as [Hlt|]; intros Hrun; run_ok.
  split_and!; [apply word64_set_bit|apply length_set_bit|]. intros s. by apply bit_is_set_set_bit.
Qed.

(** The slots of a set of channels. *)
Definition slot_in (slots : gmap uuid nat) (ids : gset uuid) (s : nat) : Prop :=
  ∃ id, id ∈ ids ∧ slots !! id = Some s.

Lemma channel_words_Ok slots ids words :
  channel_words slots ids = Ok words →
  Forall word64 words ∧ (∀ s, bit_is_set words s = true ↔ slot_in slots ids s) ∧
  ∀ id, id ∈ ids → is_Some (slots !! id).
Proof.
  unfold channel_words. intros Hrun.
  enough (Forall word64 words ∧
    (∀ s, bit_is_set words s = true ↔ slot_in slots (list_to_set (elements ids)) s) ∧
    ∀ id, id ∈ (list_to_set (elements ids) : gset uuid) → is_Some (slots !! id)) as Hall
    by (by rewrite list_to_set_elements_L in Hall).
  revert Hrun. apply (for_each_ind _ (λ done words, Forall word64 words ∧
    (∀ s, bit_is_set words s = true ↔ slot_in slots (list_to_set done) s) ∧
    ∀ id, id ∈ (list_to_set done : gset uuid) → is_Some (slots !! id))).
  - split_and!; [apply word64_zero_words| |set_solver].
    intros s. rewrite zero_words_clear. unfold slot_in. set_solver.
  - intros done id rest w1 w2 _ (Hw & Hb & Hsome) Hstep. run_ok.
    apply set_slot_Ok in Hstep as (Hw2 & _ & Hb2). split_and!; [by apply Hw2| |].
    + intros s. rewrite Hb2, orb_true_iff, Hb, bool_decide_eq_true.
      unfold slot_in. setoid_rewrite elem_of_list_to_set. setoid_rewrite elem_of_app.
      setoid_rewrite list_elem_of_singleton. naive_solver.
    + intros id' Hin. destruct (decide (id' = id)) as [->|]; [eauto|]. apply Hsome. set_solver.
Qed.

(** ** What a published rule contains *)

Section rule_facts.
Context {D V T Policy Auth : Type} `{DecimalOps D} `{JsonOps V} `{UtcOps T}.
Context (from_value : V → option (AdvancedBilling D V)) (sha256 : list Z → digest).
Context (groups : gmap uuid ChannelGroupRecord) (all_channels : gmap uuid (ChannelRecord D V)).
Context (slots : gmap uuid nat) (channels : gmap uuid (CompiledChannel D Policy Auth)).
(** The compiled channels are filed under their own ids. *)
Context (channels_keyed : ∀ id c, channels !! id = Some c → c.(channel_id) = id).
Implicit Types (r : ModelRuleRecord D V T) (t : ModelRuleRoutingTier) (rc : ModelRuleRouteCandidate)
  (c : CompiledCandidate D Policy Auth) (a : RuleAcc (D := D) (Policy := Policy) (Auth := Auth)).

Definition candidate_key rc : uuid * string := (rc.(rc_channel_id), rc.(rc_upstream_model)).

(** The persisted tiers of a rule that passed validation. *)
Record tiers_valid (ts : list ModelRuleRoutingTier) : Prop := {
  tv_priorities : NoDup (rt_priority <$> ts);
  tv_candidates : ∀ t, t ∈ ts → NoDup (candidate_key <$> t.(rt_candidates));
  tv_weights : ∀ t rc, t ∈ ts → rc ∈ t.(rt_candidates) → 0 < rc.(rc_weight);
  tv_strategies : ∀ t, t ∈ ts → is_Some (parse_strategy t.(rt_selection_strategy));
}.

Lemma check_candidates_Ok cs seen :
  for_each check_candidate cs ∅ = Ok seen →
  NoDup (candidate_key <$> cs) ∧ ∀ rc, rc ∈ cs → 0 < rc.(rc_weight).
Proof.
  intros Hrun. enough (Hall : NoDup (candidate_key <$> cs) ∧
    (∀ k, k ∈ seen ↔ k ∈ candidate_key <$> cs) ∧ ∀ rc, rc ∈ cs → 0 < rc.(rc_weight)) by naive_solver.
  revert Hrun. apply (for_each_ind _ (λ done seen, NoDup (candidate_key <$> done) ∧
    (∀ k, k ∈ seen ↔ k ∈ candidate_key <$> done) ∧ ∀ rc, rc ∈ done → 0 < rc.(rc_weight))).
  - split_and!; [constructor|set_solver|set_solver].
  - intros done rc rest s1 s2 _ (Hnd & Hseen & Hw) Hstep. unfold check_candidate in Hstep. run_ok. breflect.
    rewrite fmap_app. split_and!.
    + apply NoDup_app. split_and!; [done| |apply NoDup_singleton].
      intros k Hk Hk'. apply list_elem_of_singleton in Hk' as ->. by rewrite <- Hseen in Hk.
    + intros k. unfold candidate_key at 2. rewrite elem_of_union, elem_of_singleton, Hseen, elem_of_app.
      rewrite list_fmap_singleton, list_elem_of_singleton. unfold candidate_key. naive_solver.
    + intros rc' [Hin|Hin%list_elem_of_singleton]%elem_of_app; [by apply Hw|by subst].
Qed.

Lemma check_tiers_Ok ts ps : for_each check_tier ts ∅ = Ok ps → tiers_valid ts.
Proof.
  intros Hrun. enough (Hall : tiers_valid ts ∧ ∀ p, p ∈ ps ↔ p ∈ rt_priority <$> ts) by naive_solver.
  revert Hrun. apply (for_each_ind _ (λ done ps, tiers_valid done ∧ ∀ p, p ∈ ps ↔ p ∈ rt_priority <$> done)).
  - split; [split; [constructor|set_solver..]|set_solver].
  - intros done t rest s1 s2 _ ([Hp Hc Hw Hs] & Hps) Hstep. unfold check_tier in Hstep. run_ok. breflect.
    match goal with Hx : for_each _ _ _ = Ok _ |- _ => apply check_candidates_Ok in Hx as [Hnd Hpos] end.
    rewrite fmap_app. split; [split|].
    + rewrite fmap_app. apply NoDup_app. split_and!; [done| |apply NoDup_singleton].
      intros p Hin Hin'. apply list_elem_of_singleton in Hin' as ->. by rewrite <- Hps in Hin.
    + intros t' [Hin|Hin%list_elem_of_singleton]%elem_of_app; [by apply Hc|by subst].
    + intros t' rc [Hin|Hin%list_elem_of_singleton]%elem_of_app; [by apply Hw|subst; apply Hpos].
    + intros t' [Hin|Hin%list_elem_of_singleton]%elem_of_app; [by apply Hs|subst].
      by apply not_eq_None_Some.
    + intros p. rewrite elem_of_union, elem_of_singleton, Hps, elem_of_app, list_fmap_singleton,
        list_elem_of_singleton. naive_solver.
Qed.

Lemma validate_rule_Ok r u : validate_rule r = Ok u → tiers_valid r.(mr_routing_tiers).
Proof.
  unfold validate_rule. intros Hrun. run_ok. destruct (mr_routing_tiers r) as [|t ts] eqn:Hts.
  - split; [constructor|set_solver..].
  - run_ok. by eapply check_tiers_Ok.
Qed.

(** *** The candidate loop *)

(** A persisted candidate whose channel offers the model, and one that can be
    routed to. *)
Definition capable rc : bool :=
  is_some_and (all_channels !! rc.(rc_channel_id))
    (λ ch, bool_decide (rc.(rc_upstream_model) ∈ ch.(ch_available_models))).
Definition routable rc : bool :=
  capable rc &&
  is_some_and (all_channels !! rc.(rc_channel_id)) (λ ch,
    is_some_and (groups !! ch.(ch_channel_group_id)) cg_enabled
    && ch.(ch_enabled) && negb ch.(ch_auto_disabled)).

(** What a compiled candidate says of its persisted one. *)
Definition describe c : uuid * string * Z := (c.(channel).(channel_id), c.(upstream_model), c.(weight)).
Definition describe_record rc : uuid * string * Z :=
  (rc.(rc_channel_id), rc.(rc_upstream_model), rc.(rc_weight)).

(** The candidates of priority [p] among the processed ones. *)
Definition served (p : Z) (done : list (Z * ModelRuleRouteCandidate)) : list ModelRuleRouteCandidate :=
  (filter (λ x, x.1 = p ∧ routable x.2 = true) done).*2.

Definition ids_of (f : ModelRuleRouteCandidate → bool) (done : list (Z * ModelRuleRouteCandidate)) : gset uuid :=
  list_to_set (rc_channel_id <$> filter (λ rc, f rc = true) done.*2).

Record acc_ok (done : list (Z * ModelRuleRouteCandidate)) a : Prop := {
  ao_tiers : ∀ p, describe <$> default [] (a.(ra_tier_channels) !! p) = describe_record <$> served p done;
  ao_nonempty : ∀ p cs, a.(ra_tier_channels) !! p = Some cs → cs ≠ [];
  ao_candidates : ∀ p cs c, a.(ra_tier_channels) !! p = Some cs → c ∈ cs →
    channels !! c.(channel).(channel_id) = Some c.(channel) ∧
    slots !! c.(channel).(channel_id) = Some c.(channel_slot) ∧
    a.(ra_slots) !! (c.(channel).(channel_id), c.(upstream_model)) = Some c.(candidate_slot);
  ao_target : a.(ra_target) = ids_of (λ _, true) done;
  ao_capable : a.(ra_capable) = ids_of capable done;
  ao_slots : ∀ k k' s, a.(ra_slots) !! k = Some s → a.(ra_slots) !! k' = Some s → k = k';
  ao_slots_range : ∀ k s, a.(ra_slots) !! k = Some s → (s < size a.(ra_slots))%nat;
  ao_known : ∀ p rc, (p, rc) ∈ done → is_Some (all_channels !! rc.(rc_channel_id));
}.

Lemma acc_ok_empty : acc_ok [] empty_acc.
Proof. split; try done. intros p rc Hin. by apply elem_of_nil in Hin. Qed.

Lemma served_snoc p done q rc :
  served p (done ++ [(q, rc)])
  = served p done ++ (if decide (q = p ∧ routable rc = true) then [rc] else []).
Proof.
  unfold served. rewrite filter_app, fmap_app. f_equal. rewrite filter_cons. simpl.
  by case_decide.
Qed.

Lemma ids_of_snoc f done q rc :
  ids_of f (done ++ [(q, rc)])
  = (if f rc then {[ rc.(rc_channel_id) ]} ∪ ids_of f done else ids_of f done).
Proof.
  unfold ids_of. rewrite fmap_app, filter_app, fmap_app, list_to_set_app_L. simpl.
  rewrite filter_cons. destruct (f rc); simpl; [|set_solver]. set_solver.
Qed.

Lemma add_unrouted_ok done a p rc a' :
  acc_ok done a → is_Some (all_channels !! rc.(rc_channel_id)) → routable rc = false →
  a'.(ra_tier_channels) = a.(ra_tier_channels) → a'.(ra_slots) = a.(ra_slots) →
  a'.(ra_target) = {[ rc.(rc_channel_id) ]} ∪ a.(ra_target) →
  a'.(ra_capable) = (if capable rc then {[ rc.(rc_channel_id) ]} ∪ a.(ra_capable) else a.(ra_capable)) →
  acc_ok (done ++ [(p, rc)]) a'.
Proof.
  intros [Ht Hn Hc Htg Hcp Hs Hr Hk] Hknown Hroute Et Es Etg Ecp. split; rewrite ?Et, ?Es, ?Etg, ?Ecp.
  - intros q. rewrite served_snoc, Hroute, decide_False by naive_solver. by rewrite app_nil_r.
  - done.
  - done.
  - by rewrite ids_of_snoc, Htg.
  - rewrite ids_of_snoc, Hcp. by destruct (capable rc).
  - done.
  - done.
  - intros q rc' [Hin|Hin%list_elem_of_singleton]%elem_of_app; [by eapply Hk|by simplify_eq].
Qed.

(** The slot of a candidate key, new or known. *)
Lemma slot_insert_ok (m : gmap (uuid * string) nat) key s :
  s = default (size m) (m !! key) →
  (∀ k k' s, m !! k = Some s → m !! k' = Some s → k = k') →
  (∀ k s, m !! k = Some s → (s < size m)%nat) →
  (∀ k k' s', <[key := s]> m !! k = Some s' → <[key := s]> m !! k' = Some s' → k = k') ∧
  (∀ k s', <[key := s]> m !! k = Some s' → (s' < size (<[key := s]> m))%nat) ∧
  (∀ k s', m !! k = Some s' → <[key := s]> m !! k = Some s').
Proof.
  intros -> Hinj Hrange. destruct (m !! key) as [s|] eqn:Hk; simpl.
  - by rewrite insert_id by done.
  - split_and!.
    + intros k k' s' [[<- <-]|[Hne Hs]]%lookup_insert_Some [[<- E]|[Hne' Hs']]%lookup_insert_Some;
        [done| |subst|by eapply Hinj].
      * apply Hrange in Hs'. lia.
      * apply Hrange in Hs. lia.
    + intros k s' [[<- <-]|[Hne Hs]]%lookup_insert_Some; rewrite map_size_insert_None by done; [lia|].
      apply Hrange in Hs. lia.
    + intros k s' Hs. rewrite lookup_insert_ne; [done|]. congruence.
Qed.

Lemma push_candidate_ok done a p rc c :
  acc_ok done a → is_Some (all_channels !! rc.(rc_channel_id)) →
  capable rc = true → routable rc = true → describe c = describe_record rc →
  channels !! rc.(rc_channel_id) = Some c.(channel) → slots !! rc.(rc_channel_id) = Some c.(channel_slot) →
  c.(candidate_slot) = default (size a.(ra_slots)) (a.(ra_slots) !! candidate_key rc) →
  acc_ok (done ++ [(p, rc)])
    (push_candidate p (candidate_key rc) c
       (add_capable rc.(rc_channel_id) (add_target rc.(rc_channel_id) a))).
Proof.
  intros [Ht Hn Hc Htg Hcp Hs Hr Hk] Hknown Hcap Hroute Hdesc Hch Hsl Hslot.
  destruct (slot_insert_ok _ _ _ Hslot Hs Hr) as (Hs' & Hr' & Hold).
  assert (c.(channel).(channel_id) = rc.(rc_channel_id) ∧ c.(upstream_model) = rc.(rc_upstream_model))
    as [Hid Hmodel] by (unfold describe, describe_record in Hdesc; by simplify_eq).
  split; simpl.
  - intros q. rewrite served_snoc, fmap_app, <- Ht. destruct (decide (q = p)) as [->|Hne].
    + rewrite lookup_insert_eq, decide_True by done. simpl. by rewrite fmap_app, <- Hdesc.
    + rewrite lookup_insert_ne, decide_False by naive_solver. by rewrite app_nil_r.
  - intros q cs [[<- <-]|[Hne Hcs]]%lookup_insert_Some; [|by eapply Hn].
    intros E. by apply app_nil in E as [_ E].
  - intros q cs d [[<- <-]|[Hne Hcs]]%lookup_insert_Some Hd.
    + apply elem_of_app in Hd as [Hd|Hd%list_elem_of_singleton].
      * destruct (ra_tier_channels a !! p) as [cs|] eqn:Hcs; [|by apply elem_of_nil in Hd].
        destruct (Hc _ _ _ Hcs Hd) as (? & ? & ?). eauto.
      * subst d. rewrite Hid, Hmodel. split_and!; [done|done|]. apply lookup_insert_eq.
    + destruct (Hc _ _ _ Hcs Hd) as (? & ? & ?). eauto.
  - by rewrite ids_of_snoc, Htg.
  - by rewrite ids_of_snoc, Hcap, Hcp.
  - done.
  - done.
  - intros q rc' [Hin|Hin%list_elem_of_singleton]%elem_of_app; [by eapply Hk|by simplify_eq].
Qed.

Lemma add_candidate_ok r done a p rc a' :
  acc_ok done a → add_candidate from_value r groups all_channels slots channels p a rc = Ok a' →
  acc_ok (done ++ [(p, rc)]) a'.
Proof.
  intros Hok Hrun. unfold add_candidate in Hrun. run_ok.
  rename x into ch, x0 into g, H2 into Hch, H3 into Hg.
  assert (Hcap : capable rc = bool_decide (rc.(rc_upstream_model) ∈ ch.(ch_available_models)))
    by (unfold capable; by rewrite Hch).
  assert (Hroute : routable rc = capable rc
    && (g.(cg_enabled) && ch.(ch_enabled) && negb ch.(ch_auto_disabled)))
    by (unfold routable; by rewrite Hch; simpl; rewrite Hg).
  destruct (bool_decide (rc_upstream_model rc ∈ ch_available_models ch)) eqn:Havail; simpl in Hrun.
  - run_ok. rewrite Hcap in Hroute. simpl in Hroute. rewrite <- Hroute in Hrun.
    destruct (routable rc) eqn:Hr; run_ok.
    + unfold new_candidate in *. match goal with Hx : context [rc_weight rc <? 0] |- _ =>
        destruct (rc_weight rc <? 0); simplify_eq end.
      apply push_candidate_ok; try done. unfold describe, describe_record. simpl. f_equal. f_equal.
      by eapply channels_keyed.
    + eapply add_unrouted_ok; try done. by rewrite Hcap.
  - run_ok. eapply add_unrouted_ok; try done; [|by rewrite Hcap]. by rewrite Hroute, Hcap.
Qed.

(** The candidates of the rule in the order of the loops. *)
Definition tier_work t : list (Z * ModelRuleRouteCandidate) :=
  (λ rc, (t.(rt_priority), rc)) <$> t.(rt_candidates).
Definition work (ts : list ModelRuleRoutingTier) : list (Z * ModelRuleRouteCandidate) :=
  flat_map tier_work ts.

Lemma work_app l1 l2 : work (l1 ++ l2) = work l1 ++ work l2.
Proof. apply flat_map_app. Qed.
Lemma work_cons t ts : work (t :: ts) = tier_work t ++ work ts.
Proof. done. Qed.

Lemma add_candidate_strategies r a p rc a' :
  add_candidate from_value r groups all_channels slots channels p a rc = Ok a' →
  a'.(ra_strategies) = a.(ra_strategies).
Proof.
  intros Hrun. unfold add_candidate in Hrun. run_ok. case_match; run_ok; [done|].
  case_match; run_ok; done.
Qed.

Lemma add_tier_ok r done a t a' :
  acc_ok done a → add_tier from_value r groups all_channels slots channels a t = Ok a' →
  acc_ok (done ++ tier_work t) a' ∧
  ∃ s, parse_strategy t.(rt_selection_strategy) = Some s ∧
       a'.(ra_strategies) = <[t.(rt_priority) := s]> a.(ra_strategies).
Proof.
  intros Hok Hrun. unfold add_tier, parse_tier_strategy in Hrun. run_ok. unfold tier_work.
  revert Hrun. apply (for_each_ind _ (λ prefix a',
    acc_ok (done ++ ((λ rc, (t.(rt_priority), rc)) <$> prefix)) a' ∧ ∃ s,
    parse_strategy (rt_selection_strategy t) = Some s ∧
    a'.(ra_strategies) = <[t.(rt_priority) := s]> a.(ra_strategies))).
  - rewrite app_nil_r. split; [by destruct Hok; split|]. eauto.
  - intros prefix rc rest a1 a2 _ (Hok1 & s & Hs & Hst) Hstep.
    rewrite fmap_app, app_assoc. split; [by eapply add_candidate_ok|].
    exists s. split; [done|]. rewrite <- Hst. by eapply add_candidate_strategies.
Qed.

Lemma rule_acc_ok r ts a :
  NoDup (rt_priority <$> ts) →
  for_each (add_tier from_value r groups all_channels slots channels) ts empty_acc = Ok a →
  acc_ok (work ts) a ∧
  ∀ t, t ∈ ts → a.(ra_strategies) !! t.(rt_priority) = parse_strategy t.(rt_selection_strategy).
Proof.
  intros Hnd. apply (for_each_ind _ (λ done a, acc_ok (work done) a ∧
    ∀ t, t ∈ done → a.(ra_strategies) !! t.(rt_priority) = parse_strategy t.(rt_selection_strategy))).
  - split; [apply acc_ok_empty|]. intros t Ht. by apply elem_of_nil in Ht.
  - intros done t rest a1 a2 Hts (Hok & Hst) Hstep.
    destruct (add_tier_ok _ _ _ _ _ Hok Hstep) as (Hok2 & s & Hs & Hst2). split.
    + by rewrite work_app, work_cons, app_nil_r.
    + intros t' [Hin|Hin%list_elem_of_singleton]%elem_of_app; rewrite Hst2.
      * rewrite lookup_insert_ne; [by apply Hst|]. rewrite Hts, fmap_app, fmap_cons in Hnd.
        apply NoDup_app in Hnd as (_ & Hdisj & _). intros Heq. eapply Hdisj; [by apply list_elem_of_fmap_2|].
        rewrite <- Heq. constructor.
      * subst t'. by rewrite lookup_insert_eq.
Qed.

Lemma served_app p l1 l2 : served p (l1 ++ l2) = served p l1 ++ served p l2.
Proof. unfold served. by rewrite filter_app, fmap_app. Qed.

Lemma served_tier_work p t :
  served p (tier_work t)
  = if decide (t.(rt_priority) = p) then filter (λ rc, routable rc = true) t.(rt_candidates) else [].
Proof.
  unfold served, tier_work. induction (rt_candidates t) as [|rc cs IH]; [by case_decide|].
  rewrite fmap_cons, !filter_cons. simpl. case_decide as Hp.
  - case_decide as Hr; case_decide; try naive_solver. rewrite fmap_cons. simpl. by rewrite IH.
  - rewrite decide_False by naive_solver. exact IH.
Qed.

(** Priorities are unique, so a tier is served by its own candidates only. *)
Lemma served_work ts t :
  NoDup (rt_priority <$> ts) → t ∈ ts →
  served t.(rt_priority) (work ts) = filter (λ rc, routable rc = true) t.(rt_candidates).
Proof.
  intros Hnd Ht. apply list_elem_of_split in Ht as (l1 & l2 & ->).
  rewrite fmap_app, fmap_cons in Hnd. apply NoDup_app in Hnd as (_ & H12 & Hnd).
  apply NoDup_cons in Hnd as [H2 _].
  assert (Hnone : ∀ l, (∀ t', t' ∈ l → t'.(rt_priority) ≠ t.(rt_priority)) →
    served t.(rt_priority) (work l) = []).
  { intros l. induction l as [|t' l IH]; intros Hl; [done|].
    rewrite work_cons, served_app, served_tier_work, decide_False by (apply Hl; set_solver).
    apply IH. intros. apply Hl. set_solver. }
  rewrite work_app, work_cons, !served_app, served_tier_work, decide_True by done.
  rewrite (Hnone l1), (Hnone l2); [by rewrite app_nil_r| |].
  - intros t' Hin Heq. apply H2. rewrite <- Heq. by apply list_elem_of_fmap_2.
  - intros t' Hin Heq. eapply H12; [by apply list_elem_of_fmap_2|]. rewrite Heq. constructor.
Qed.

Lemma served_priority ts p rc : rc ∈ served p (work ts) → ∃ t, t ∈ ts ∧ t.(rt_priority) = p.
Proof.
  unfold served, work. intros ([q x] & -> & Hin)%list_elem_of_fmap.
  apply list_elem_of_filter in Hin as [[Hq _] Hin]. simpl in *. subst q.
  apply list_elem_of_In, in_flat_map in Hin as (t & Ht & Hin).
  apply list_elem_of_In in Ht, Hin. unfold tier_work in Hin.
  apply list_elem_of_fmap in Hin as (? & ? & _). simplify_eq. eauto.
Qed.

(** *** Tiers *)

Lemma add_weights_Ok (cs : list (CompiledCandidate D Policy Auth)) n w :
  n ≤ i64_max → for_each add_weight cs n = Ok w → w = n + sum_over weight cs ∧ w ≤ i64_max.
Proof.
  revert n. induction cs as [|c cs IH]; intros n Hn Hrun; simpl in Hrun; run_ok; [simpl; lia|].
  unfold add_weight in *. case_match; run_ok. breflect. apply IH in Hrun as [-> Hle]; [|done].
  simpl. lia.
Qed.

Lemma compile_tier_Ok a p (t : CompiledRouteTier D Policy Auth) :
  compile_tier sha256 a p = Ok t →
  ∃ cs s, a.(ra_tier_channels) !! p = Some cs ∧ a.(ra_strategies) !! p = Some s ∧
    t = new_tier sha256 p s (merge_sort candidate_order cs) ∧
    0 < sum_over weight t.(candidates) ≤ i64_max.
Proof.
  unfold compile_tier. intros Hrun. run_ok. breflect.
  match goal with Hx : for_each add_weight _ _ = Ok _ |- _ =>
    apply add_weights_Ok in Hx as [-> Hle]; [|done] end. simpl. eauto 10 with lia.
Qed.

(** What publication guarantees of a tier of rule [r]: it is one of the
    persisted tiers, with its strategy, and its candidates are exactly the
    routable persisted ones, in order, pointing at the compiled channel and its
    slot. *)
Record tier_published r (t : CompiledRouteTier D Policy Auth) (rt : ModelRuleRoutingTier) : Prop := {
  tp_tier : rt ∈ r.(mr_routing_tiers);
  tp_priority : t.(priority) = rt.(rt_priority);
  tp_strategy : parse_strategy rt.(rt_selection_strategy) = Some t.(strategy);
  tp_candidates : describe <$> t.(candidates)
    ≡ₚ describe_record <$> filter (λ rc, routable rc = true) rt.(rt_candidates);
  tp_nonempty : t.(candidates) ≠ [];
  tp_weight : sum_over weight t.(candidates) ≤ i64_max;
  tp_channels : ∀ c, c ∈ t.(candidates) →
    channels !! c.(channel).(channel_id) = Some c.(channel) ∧
    slots !! c.(channel).(channel_id) = Some c.(channel_slot);
}.

Lemma sum_over_Permutation {A} (f : A → Z) l l' : l ≡ₚ l' → sum_over f l = sum_over f l'.
Proof. induction 1; simpl; lia. Qed.

Lemma compile_tier_published r a p (t : CompiledRouteTier D Policy Auth) :
  tiers_valid r.(mr_routing_tiers) → acc_ok (work r.(mr_routing_tiers)) a →
  (∀ rt, rt ∈ r.(mr_routing_tiers) →
     a.(ra_strategies) !! rt.(rt_priority) = parse_strategy rt.(rt_selection_strategy)) →
  compile_tier sha256 a p = Ok t → t.(priority) = p ∧ ∃ rt, tier_published r t rt.
Proof.
  intros Hv Hacc Hst Hrun. apply compile_tier_Ok in Hrun as (cs & s & Hcs & Hs & -> & Hsum).
  simpl in *. split; [done|].
  pose proof (ao_tiers _ _ Hacc p) as Hserved. rewrite Hcs in Hserved. simpl in Hserved.
  pose proof (ao_nonempty _ _ Hacc p cs Hcs) as Hne.
  pose proof (merge_sort_Permutation candidate_order cs) as Hperm.
  assert (∃ rt, rt ∈ mr_routing_tiers r ∧ rt.(rt_priority) = p) as (rt & Hrt & <-).
  { destruct cs as [|c cs]; [done|]. destruct (served p (work (mr_routing_tiers r))) as [|rc l] eqn:Hl; [done|].
    apply (served_priority _ _ rc). rewrite Hl. constructor. }
  rewrite served_work in Hserved by (done || apply Hv). rewrite Hst in Hs by done.
  exists rt. split; simpl; try done.
  - by rewrite Hperm, Hserved.
  - intros Hnil. rewrite Hnil in Hperm. apply Permutation_nil_l in Hperm. done.
  - lia.
  - intros c Hc. rewrite Hperm in Hc. destruct (ao_candidates _ _ Hacc _ _ _ Hcs Hc) as (? & ? & _). done.
Qed.

Lemma StronglySorted_lt_NoDup (l : list Z) : StronglySorted Z.le l → NoDup l → StronglySorted Z.lt l.
Proof.
  induction 1 as [|p l _ IH Hle]; [constructor|]. intros [Hp Hnd]%NoDup_cons.
  constructor; [by apply IH|]. rewrite Forall_forall in Hle |- *. intros q Hq.
  specialize (Hle q Hq). assert (p ≠ q) by (by intros ->). lia.
Qed.

Lemma compile_tiers_published r a ts :
  tiers_valid r.(mr_routing_tiers) → acc_ok (work r.(mr_routing_tiers)) a →
  (∀ rt, rt ∈ r.(mr_routing_tiers) →
     a.(ra_strategies) !! rt.(rt_priority) = parse_strategy rt.(rt_selection_strategy)) →
  compile_tiers sha256 a = Ok ts →
  StronglySorted Z.lt (priority <$> ts) ∧
  Forall (λ t : CompiledRouteTier D Policy Auth, ∃ rt, tier_published r t rt) ts ∧
  ∀ rt rc, rt ∈ r.(mr_routing_tiers) → rc ∈ rt.(rt_candidates) → routable rc = true →
    rt.(rt_priority) ∈ priority <$> ts.
Proof.
  intros Hv Hacc Hst Hrun. apply collect_Forall2 in Hrun.
  set (ps := (map_to_list a.(ra_tier_channels)).*1) in *.
  assert (Hps : priority <$> ts = merge_sort Z.le ps).
  { clear -Hrun. induction Hrun as [|p t ps' ts' Ht _ IH]; [done|]. rewrite fmap_cons, IH. f_equal.
    apply compile_tier_Ok in Ht as (? & ? & _ & _ & -> & _). done. }
  split_and!.
  - rewrite Hps. pose proof (StronglySorted_merge_sort Z.le ps) as Hsort.
    apply StronglySorted_lt_NoDup; [done|]. rewrite merge_sort_Permutation. apply NoDup_fst_map_to_list.
  - apply Forall_forall. intros t Ht. apply list_elem_of_lookup in Ht as [i Hi].
    destruct (Forall2_lookup_r _ _ _ _ _ Hrun Hi) as (p & _ & Hp).
    eapply compile_tier_published in Hp as [_ Hrt]; done.
  - intros rt rc Hrt Hrc Hroute. rewrite Hps, merge_sort_Permutation. unfold ps.
    pose proof (ao_tiers _ _ Hacc (rt_priority rt)) as Hserved.
    rewrite served_work in Hserved by (done || apply Hv).
    destruct (ra_tier_channels a !! rt_priority rt) as [cs|] eqn:Hcs.
    + apply list_elem_of_fmap. exists (rt_priority rt, cs). split; [done|]. by apply elem_of_map_to_list.
    + simpl in Hserved. symmetry in Hserved. apply fmap_nil_inv in Hserved.
      assert (rc ∈ filter (λ rc, routable rc = true) (rt_candidates rt)) as Hin
        by (by apply list_elem_of_filter). rewrite Hserved in Hin. by apply elem_of_nil in Hin.
Qed.

(** *** Rules *)

Implicit Types (rule : CompiledModelRule D V T Policy Auth)
  (cr : CompiledRules (D := D) (V := V) (T := T) (Policy := Policy) (Auth := Auth)).

(** What publication guarantees of a compiled rule. *)
Record rule_published r rule : Prop := {
  rp_enabled : r.(mr_enabled) = true ∧ r.(mr_model_enabled) = true;
  rp_valid : tiers_valid r.(mr_routing_tiers);
  rp_id : rule.(rule_id) = r.(mr_id) ∧ rule.(model_id) = r.(mr_model_id);
  rp_key : rule.(api_operation) = r.(mr_api_operation) ∧ rule.(client_model) = r.(mr_client_model);
  rp_sorted : StronglySorted Z.lt (priority <$> rule.(tiers));
  rp_tiers : Forall (λ t : CompiledRouteTier D Policy Auth, ∃ rt, tier_published r t rt) rule.(tiers);
  rp_complete : ∀ rt rc, rt ∈ r.(mr_routing_tiers) → rc ∈ rt.(rt_candidates) → routable rc = true →
    rt.(rt_priority) ∈ priority <$> rule.(tiers);
  rp_words : Forall word64 rule.(target_candidates) ∧ Forall word64 rule.(model_capable_candidates);
  rp_target : ∀ s, bit_is_set rule.(target_candidates) s = true
    ↔ slot_in slots (ids_of (λ _, true) (work r.(mr_routing_tiers))) s;
  rp_capable : ∀ s, bit_is_set rule.(model_capable_candidates) s = true
    ↔ slot_in slots (ids_of capable (work r.(mr_routing_tiers))) s;
  rp_slots : ∀ id, id ∈ ids_of (λ _, true) (work r.(mr_routing_tiers)) → is_Some (slots !! id);
}.

Definition rule_key r : ApiOperation.t * string := (r.(mr_api_operation), r.(mr_client_model)).

(** The bit vector [authorization_candidates_intersect] compares with. *)
Definition authorization_words rule : list Z :=
  if existsb (λ w, negb (w =? 0)) rule.(model_capable_candidates)
  then rule.(model_capable_candidates) else rule.(target_candidates).

Lemma nonzero_bit w : word64 w → w ≠ 0 → ∃ i, (i < BITS)%nat ∧ Z.testbit w (Z.of_nat i) = true.
Proof.
  intros Hw Hne. exists (Z.to_nat (Z.log2 w)). unfold word64 in Hw.
  pose proof (Z.log2_nonneg w). assert (Z.log2 w < 64) by (apply Z.log2_lt_pow2; lia).
  split; [unfold BITS; lia|]. rewrite Z2Nat.id by done. apply Z.bit_log2. lia.
Qed.

Lemma words_nonzero words :
  Forall word64 words →
  existsb (λ w, negb (w =? 0)) words = true ↔ ∃ s, bit_is_set words s = true.
Proof.
  intros Hw. rewrite existsb_exists. split.
  - intros (w & Hin & Hne). breflect. apply list_elem_of_In, list_elem_of_lookup in Hin as [i Hi].
    destruct (nonzero_bit w) as (j & Hj & Hbit); [by eapply Forall_lookup_1|done|].
    exists (i * BITS + j)%nat. rewrite bit_is_set_testbit.
    rewrite Nat.div_add_l, (Nat.div_small j), Nat.add_0_r, Hi by done.
    cbn [is_some_and]. by rewrite (Nat.add_comm (i * BITS)), Nat.Div0.mod_add, Nat.mod_small.
  - intros [s Hs]. rewrite bit_is_set_testbit in Hs.
    destruct (words !! (s / BITS)%nat) as [w|] eqn:Hl; [|done]. simpl in Hs. exists w. split.
    + apply list_elem_of_In. by eapply list_elem_of_lookup_2.
    + destruct (Z.eqb_spec w 0) as [->|]; [|done]. by rewrite Z.bits_0 in Hs.
Qed.

Lemma push_routes_Ok n ids routes routes' :
  for_each (push_route slots n) (elements ids) routes = Ok routes' →
  length routes' = length routes ∧
  (∀ id, id ∈ ids → is_Some (slots !! id)) ∧
  ∀ slot rs', routes' !! slot = Some rs' → ∃ rs, routes !! slot = Some rs ∧
    ∀ m, m ∈ rs' ↔ m ∈ rs ∨ (m = n ∧ slot_in slots ids slot).
Proof.
  intros Hrun.
  apply (for_each_ind _ (λ done routes', length routes' = length routes ∧
    (∀ id, id ∈ done → is_Some (slots !! id)) ∧
    ∀ slot rs', routes' !! slot = Some rs' → ∃ rs, routes !! slot = Some rs ∧
      ∀ m, m ∈ rs' ↔ m ∈ rs ∨ (m = n ∧ slot_in slots (list_to_set done) slot))) in Hrun.
  - destruct Hrun as (Hlen & Hsome & Hall). split_and!; [done|set_solver|].
    intros slot rs' Hrs'. destruct (Hall _ _ Hrs') as (rs & Hrs & Hm). exists rs. split; [done|].
    intros m. rewrite Hm. unfold slot_in. set_solver.
  - split_and!; [done|set_solver|]. intros slot rs Hrs. exists rs. split; [done|].
    intros m. unfold slot_in. set_solver.
  - intros done id rest w1 w2 _ (Hlen & Hsome & Hall) Hstep. unfold push_route in Hstep. run_ok.
    rename x into s, x0 into rs0. rewrite length_insert. split_and!; [done| |].
    { intros id' [Hin|Hin%list_elem_of_singleton]%elem_of_app; [by apply Hsome|subst; eauto]. }
    intros slot rs' Hrs'. apply list_lookup_insert_Some in Hrs' as [(<- & <- & _)|[Hne Hrs']].
    + destruct (Hall _ _ ltac:(eassumption)) as (rs & Hrs & Hm). exists rs. split; [done|]. intros m.
      rewrite elem_of_app, list_elem_of_singleton, Hm. unfold slot_in. set_solver.
    + destruct (Hall _ _ Hrs') as (rs & Hrs & Hm). exists rs. split; [done|]. intros m. rewrite Hm.
      unfold slot_in. setoid_rewrite elem_of_list_to_set. setoid_rewrite elem_of_app.
      setoid_rewrite list_elem_of_singleton. naive_solver.
Qed.

(** The channels that decide who may use the rule: those that offer the model,
    or all targets when none does. *)
Definition authorization_ids r : gset uuid :=
  if bool_decide (ids_of capable (work r.(mr_routing_tiers)) = ∅)
  then ids_of (λ _, true) (work r.(mr_routing_tiers)) else ids_of capable (work r.(mr_routing_tiers)).

Lemma ids_of_subseteq (f : ModelRuleRouteCandidate → bool) l : ids_of f l ⊆ ids_of (λ _, true) l.
Proof.
  unfold ids_of. intros id. rewrite !elem_of_list_to_set.
  intros (rc & -> & [_ Hin]%list_elem_of_filter)%list_elem_of_fmap.
  apply list_elem_of_fmap. exists rc. split; [done|]. by apply list_elem_of_filter.
Qed.

Lemma authorization_ids_acc r a :
  acc_ok (work r.(mr_routing_tiers)) a → authorization_candidates a = authorization_ids r.
Proof.
  intros Hacc. unfold authorization_candidates, authorization_ids.
  by rewrite (ao_target _ _ Hacc), (ao_capable _ _ Hacc).
Qed.

(** The bit vector of a published rule represents them. *)
Lemma authorization_words_spec r rule s :
  rule_published r rule →
  bit_is_set (authorization_words rule) s = true ↔ slot_in slots (authorization_ids r) s.
Proof.
  intros Hp. unfold authorization_words, authorization_ids.
  pose proof (rp_capable _ _ Hp) as Hc. destruct (rp_words _ _ Hp) as [_ Hw].
  pose proof (words_nonzero _ Hw) as Hnz. setoid_rewrite Hc in Hnz.
  case_bool_decide as Hempty.
  - destruct (existsb _ _) eqn:Hex.
    + destruct (proj1 Hnz eq_refl) as (s' & id & Hid & _). rewrite Hempty in Hid. set_solver.
    + apply Hp.
  - destruct (existsb _ _) eqn:Hex; [apply Hc|]. exfalso. apply set_choose_L in Hempty as [id Hid].
    destruct (rp_slots _ _ Hp id) as [s' Hs']; [by eapply ids_of_subseteq|].
    assert (false = true); [|done]. apply Hnz. by exists s', id.
Qed.

Record rules_ok (done : list (ModelRuleRecord D V T)) cr : Prop := {
  ro_sound : ∀ k rule, cr.(model_rules) !! k = Some rule → ∃ r, r ∈ done ∧ k = rule_key r ∧ rule_published r rule;
  ro_complete : ∀ r, r ∈ done → r.(mr_enabled) = true → r.(mr_model_enabled) = true →
    ∃ rule, cr.(model_rules) !! rule_key r = Some rule ∧ rule_published r rule;
  ro_slots : ∀ k rule, cr.(model_rules) !! k = Some rule → (rule.(route_slot) < size cr.(model_rules))%nat;
  ro_inj : ∀ k k' rule rule', cr.(model_rules) !! k = Some rule → cr.(model_rules) !! k' = Some rule' →
    rule.(route_slot) = rule'.(route_slot) → k = k';
  ro_length : length cr.(routes_by_channel_slot) = size slots;
  ro_routes : ∀ slot rs n, cr.(routes_by_channel_slot) !! slot = Some rs →
    n ∈ rs ↔ ∃ k rule, cr.(model_rules) !! k = Some rule ∧ rule.(route_slot) = n ∧
                       bit_is_set (authorization_words rule) slot = true;
}.

Lemma rules_ok_skip done r cr :
  rules_ok done cr → r.(mr_enabled) = false ∨ r.(mr_model_enabled) = false → rules_ok (done ++ [r]) cr.
Proof.
  intros [Hs Hc Hl Hi Hlen Hr] Hskip. split; try done.
  - intros k rule Hk. destruct (Hs _ _ Hk) as (r' & ? & ? & ?). exists r'. set_solver.
  - intros r' [Hin|Hin%list_elem_of_singleton]%elem_of_app He Hm; [by apply Hc|]. subst. naive_solver congruence.
Qed.

Lemma publish_rule_ok done r a cr cr' :
  rules_ok done cr → tiers_valid r.(mr_routing_tiers) → acc_ok (work r.(mr_routing_tiers)) a →
  (∀ rt, rt ∈ r.(mr_routing_tiers) →
     a.(ra_strategies) !! rt.(rt_priority) = parse_strategy rt.(rt_selection_strategy)) →
  r.(mr_enabled) = true → r.(mr_model_enabled) = true →
  publish_rule from_value sha256 slots r a cr = Ok cr' → rules_ok (done ++ [r]) cr'.
Proof.
  intros [Hs Hc Hl Hi Hlen Hr] Hv Hacc Hst He Hm Hrun. unfold publish_rule in Hrun. run_ok. breflect.
  match goal with Hx : compile_tiers _ _ = Ok _ |- _ =>
    eapply compile_tiers_published in Hx as (Hsorted & Hpub & Hcompl); [|done..] end.
  repeat match goal with Hx : channel_words _ _ = Ok _ |- _ => apply channel_words_Ok in Hx as (? & ? & ?) end.
  match goal with Hx : for_each (push_route _ _) _ _ = Ok _ |- _ =>
    apply push_routes_Ok in Hx as (Hlen' & Hsome & Hpush) end.
  match goal with |- rules_ok _ {| model_rules := <[_ := ?x]> _ |} => set (rule := x) in * end.
  fold (rule_key r) in *.
  assert (Hnew : rule_published r rule).
  { split; simpl; try done. all: by rewrite <- ?(ao_target _ _ Hacc), <- ?(ao_capable _ _ Hacc). }
  pose proof (λ s, authorization_words_spec r rule s Hnew) as Hwords.
  rewrite <- (authorization_ids_acc _ _ Hacc) in Hwords.
  assert (Hfresh : cr.(model_rules) !! rule_key r = None) by (by apply eq_None_not_Some).
  assert (Hold : ∀ k rule', cr.(model_rules) !! k = Some rule' → k ≠ rule_key r) by (by intros ? ? ? ->; congruence).
  split; simpl.
  - intros k rule' [[<- <-]|[_ Hk]]%lookup_insert_Some; [exists r; set_solver|].
    destruct (Hs _ _ Hk) as (r' & ? & ? & ?). exists r'. set_solver.
  - intros r' [Hin|Hin%list_elem_of_singleton]%elem_of_app He' Hm'.
    + destruct (Hc _ Hin He' Hm') as (rule' & Hk & ?). exists rule'. split; [|done].
      rewrite lookup_insert_ne; [done|]. intros Heq. by eapply Hold.
    + subst r'. exists rule. by rewrite lookup_insert_eq.
  - rewrite map_size_insert_None by done.
    intros k rule' [[<- <-]|[_ Hk]]%lookup_insert_Some; simpl; [lia|]. apply Hl in Hk. lia.
  - intros k k' r1 r2 [[<- <-]|[_ Hk]]%lookup_insert_Some [[<- <-]|[_ Hk']]%lookup_insert_Some Heq; simpl in Heq.
    + done.
    + apply Hl in Hk'. lia.
    + apply Hl in Hk. lia.
    + by eapply Hi.
  - congruence.
  - intros slot rs n Hrs. destruct (Hpush _ _ Hrs) as (rs0 & Hrs0 & Hn). rewrite Hn, (Hr _ _ _ Hrs0). split.
    + intros [(k & rule' & Hk & Hslot & Hbit)|[-> Hin]].
      * exists k, rule'. split; [|done]. rewrite lookup_insert_ne; [done|]. intros Heq. by eapply Hold.
      * exists (rule_key r), rule. rewrite lookup_insert_eq. split; [done|]. split; [done|]. by apply Hwords.
    + intros (k & rule' & [[<- <-]|[_ Hk]]%lookup_insert_Some & Hslot & Hbit); [right|left; eauto].
      split; [by subst n|]. by apply Hwords.
Qed.

Lemma compile_rule_ok done r st st' :
  rules_ok done st.2 →
  compile_rule from_value sha256 groups all_channels slots channels st r = Ok st' →
  rules_ok (done ++ [r]) st'.2.
Proof.
  destruct st as [ids1 cr1]. intros Hok Hstep. unfold compile_rule in Hstep. run_ok.
  destruct (mr_enabled r) eqn:He; simpl in Hstep; [|run_ok; by apply rules_ok_skip; auto].
  destruct (mr_model_enabled r) eqn:Hm; simpl in Hstep; [|run_ok; by apply rules_ok_skip; auto].
  run_ok. match goal with Hx : validate_rule r = Ok _ |- _ => apply validate_rule_Ok in Hx as Hv end.
  match goal with Hx : for_each (add_tier _ _ _ _ _ _) _ _ = Ok _ |- _ =>
    apply rule_acc_ok in Hx as [Hacc Hst]; [|apply Hv] end.
  by eapply publish_rule_ok.
Qed.

Lemma compile_rules_ok records cr :
  compile_rules from_value sha256 records groups all_channels slots channels = Ok cr → rules_ok records cr.
Proof.
  unfold compile_rules. intros Hrun. run_ok. revert H2.
  apply (for_each_ind _ (λ done st, rules_ok done st.2)).
  - split; simpl.
    + intros k rule Hk. by rewrite lookup_empty in Hk.
    + intros r Hr. by apply elem_of_nil in Hr.
    + intros k rule Hk. by rewrite lookup_empty in Hk.
    + intros k k' r1 r2 Hk. by rewrite lookup_empty in Hk.
    + by rewrite length_replicate.
    + intros slot rs n [-> _]%lookup_replicate. split; [intros Hn; by apply elem_of_nil in Hn|].
      intros (k & rule & Hk & _). by rewrite lookup_empty in Hk.
  - intros done r rest st1 st2 _. apply compile_rule_ok.
Qed.
End rule_facts.
