(* ===== verification/Authorization.v ===== *)
(** * Authorization of published keys

    What the bit vectors of a compiled key mean in terms of the persisted rows:
    the key facts of [compile_keys] ([src/runtime_config/mod.rs]), the
    correctness of its [debug_assert!], the absence of panics during a
    publication, and the link between a publication and the route selection of
    [Routing]. *)

From S2P Require Import Prelude Text Decimal Domain Records Billing Cost Compiled Publish.

Open Scope gateway_scope.

Section keys.
Context {D V T Policy Auth : Type} `{DecimalOps D} `{JsonOps V} `{UtcOps T}.
Context (from_value : V → option (AdvancedBilling D V)) (sha256 : list Z → digest)
  (hash_secret : string → digest).
Context (groups : gmap uuid ChannelGroupRecord) (all_channels : gmap uuid (ChannelRecord D V)).
Context (slots : gmap uuid nat) (channels : gmap uuid (CompiledChannel D Policy Auth)).
Context (by_group : gmap uuid (list uuid)).
Implicit Types (r : ApiKeyRecord D T) (key : CompiledApiKey D T)
  (rule : CompiledModelRule D V T Policy Auth)
  (cr : CompiledRules (D := D) (V := V) (T := T) (Policy := Policy) (Auth := Auth)).

(** The channels a key's row grants, through groups or directly. *)
Definition granted r : gset uuid :=
  list_to_set (flat_map (λ g, default [] (by_group !! g)) r.(ak_allowed_group_ids)
               ++ r.(ak_allowed_channel_ids)).

(** The state of [allow] represents a set of channels. *)
Definition allow_ok (ids : gset uuid) (st : list Z * gset uuid) : Prop :=
  st.2 = ids ∧ Forall word64 st.1 ∧
  (∀ s, bit_is_set st.1 s = true ↔ slot_in slots ids s) ∧ ∀ id, id ∈ ids → is_Some (slots !! id).

Lemma allow_all_ok ids l st st' :
  allow_ok ids st → for_each (allow slots) l st = Ok st' → allow_ok (ids ∪ list_to_set l) st'.
Proof.
  intros Hok. apply (for_each_ind _ (λ done st, allow_ok (ids ∪ list_to_set done) st)).
  - by rewrite list_to_set_nil, union_empty_r_L.
  - intros done id rest st1 st2 _ (Hids & Hw & Hb & Hsome) Hstep. unfold allow in Hstep. run_ok.
    match goal with Hx : set_slot _ _ = Ok _ |- _ => apply set_slot_Ok in Hx as (Hw2 & _ & Hb2) end.
    rewrite list_to_set_app_L. split_and!; simpl.
    + rewrite Hids. set_solver.
    + by apply Hw2.
    + intros s. rewrite Hb2, orb_true_iff, bool_decide_eq_true, Hb.
      unfold slot_in. set_unfold. naive_solver.
    + intros id' Hin. destruct (decide (id' = id)) as [->|]; [eauto|]. apply Hsome. set_solver.
Qed.

Lemma compile_allowed_ok r st :
  compile_allowed_channel_slots r by_group slots = Ok st → allow_ok (granted r) st.
Proof.
  unfold compile_allowed_channel_slots, granted. intros Hrun. run_ok. rewrite list_to_set_app_L.
  eapply allow_all_ok; [|exact Hrun]. clear Hrun. revert H2.
  apply (for_each_ind _ (λ done st,
    allow_ok (list_to_set (flat_map (λ g, default [] (by_group !! g)) done)) st)).
  - split_and!; simpl; [done|apply word64_zero_words| |set_solver].
    intros s. rewrite zero_words_clear. unfold slot_in. set_solver.
  - intros done g rest st1 st2 _ Hok Hstep. rewrite flat_map_app, list_to_set_app_L. simpl.
    rewrite app_nil_r. by eapply allow_all_ok.
Qed.

(** *** Accessible routes *)

Lemma set_slots_ok l words words' :
  for_each set_slot l words = Ok words' →
  ∀ n, bit_is_set words' n = true ↔ n ∈ l ∨ bit_is_set words n = true.
Proof.
  intros Hrun. refine (for_each_ind _ (λ done words',
    ∀ n, bit_is_set words' n = true ↔ n ∈ done ∨ bit_is_set words n = true) _ _ _ _ _ Hrun).
  - set_solver.
  - intros done s rest w1 w2 _ Hw Hstep n. apply set_slot_Ok in Hstep as (_ & _ & ->).
    rewrite orb_true_iff, bool_decide_eq_true, Hw, elem_of_app, list_elem_of_singleton. naive_solver.
Qed.

Lemma accessible_ok cr ids words :
  compile_accessible_route_slots cr ids slots = Ok words →
  ∀ n, bit_is_set words n = true ↔
    ∃ slot rs, slot_in slots ids slot ∧ cr.(routes_by_channel_slot) !! slot = Some rs ∧ n ∈ rs.
Proof.
  unfold compile_accessible_route_slots. intros Hrun.
  enough (∀ n, bit_is_set words n = true ↔ ∃ slot rs, slot_in slots (list_to_set (elements ids)) slot ∧
    cr.(routes_by_channel_slot) !! slot = Some rs ∧ n ∈ rs) as Hall
    by (intros n; rewrite Hall; by rewrite list_to_set_elements_L).
  refine (for_each_ind _ (λ done words, ∀ n, bit_is_set words n = true ↔
    ∃ slot rs, slot_in slots (list_to_set done) slot ∧ cr.(routes_by_channel_slot) !! slot = Some rs ∧ n ∈ rs)
    _ _ _ _ _ Hrun).
  - intros n. rewrite zero_words_clear. unfold slot_in. set_solver.
  - intros done id rest w1 w2 _ Hw Hstep n. run_ok.
    rewrite (set_slots_ok _ _ _ Hstep), Hw. unfold slot_in.
    setoid_rewrite elem_of_list_to_set. setoid_rewrite elem_of_app. setoid_rewrite list_elem_of_singleton.
    split.
    + intros [Hn|(slot & rs & (id' & Hin & Hs) & Hrs & Hn)]; [|by eauto 10].
      eexists _, _. split; [exists id; split; [by right|eassumption]|by split].
    + intros (slot & rs & (id' & [Hin| ->] & Hs) & Hrs & Hn); [right; by eauto 10|left; by simplify_eq].
Qed.

Section routes.
Context (rule_records : list (ModelRuleRecord D V T)) (cr : CompiledRules (D := D) (V := V) (T := T) (Policy := Policy) (Auth := Auth)).
Context (cr_ok : rules_ok groups all_channels slots channels rule_records cr)
  (slots_range : ∀ id s, slots !! id = Some s → (s < size slots)%nat).

(** The reverse index and the bit vectors of the rules agree. *)
Lemma accessible_intersect ids allowed words k rule :
  Forall word64 allowed → (∀ s, bit_is_set allowed s = true ↔ slot_in slots ids s) →
  compile_accessible_route_slots cr ids slots = Ok words → cr.(model_rules) !! k = Some rule →
  bit_is_set words rule.(route_slot) = authorization_candidates_intersect rule allowed.
Proof.
  intros Hw Hallowed Hrun Hk. apply eq_true_iff_eq. rewrite (accessible_ok _ _ _ Hrun).
  change (authorization_candidates_intersect rule allowed) with (words_intersect (authorization_words rule) allowed).
  destruct (ro_sound _ _ _ _ _ _ cr_ok _ _ Hk) as (r & _ & _ & Hp).
  assert (Forall word64 (authorization_words rule)) as Hwords
    by (unfold authorization_words; case_match; apply Hp).
  rewrite words_intersect_spec by done. setoid_rewrite Hallowed. split.
  - intros (slot & rs & Hslot & Hrs & Hn).
    apply (ro_routes _ _ _ _ _ _ cr_ok _ _ _ Hrs) in Hn as (k' & rule' & Hk' & Hn & Hbit).
    assert (k = k') as <- by (by eapply (ro_inj _ _ _ _ _ _ cr_ok)). simplify_eq. eauto.
  - intros (slot & Hbit & Hslot). pose proof Hslot as (id & _ & Hs%slots_range).
    rewrite <- (ro_length _ _ _ _ _ _ cr_ok) in Hs. apply lookup_lt_is_Some_2 in Hs as [rs Hrs].
    exists slot, rs. split_and!; [done..|]. rewrite (ro_routes _ _ _ _ _ _ cr_ok _ _ _ Hrs). eauto.
Qed.

(** What publication guarantees of a compiled key. *)
Record key_published r key : Prop := {
  kp_active : r.(ak_status) = "active" ∧ r.(ak_user_status) = "active";
  kp_ids : key.(key_id) = r.(ak_id) ∧ key.(key_user_id) = r.(ak_user_id);
  kp_formats : Forall2 (λ s f, ApiFormat.parse s = Some f) r.(ak_allowed_api_formats) key.(allowed_api_formats);
  kp_limits : key.(requests_per_minute) = r.(ak_requests_per_minute) ∧
    key.(max_concurrent_requests) = r.(ak_max_concurrent_requests) ∧
    key.(quota_limit_amount) = r.(ak_quota_limit_amount) ∧
    key.(quota_used_amount) = r.(ak_quota_used_amount) ∧ key.(expires_at) = r.(ak_expires_at);
  kp_positive : (∀ n, r.(ak_requests_per_minute) = Some n → 0 < n) ∧
    (∀ n, r.(ak_max_concurrent_requests) = Some n → 0 < n);
  kp_words : Forall word64 key.(authorization).(allowed_channel_slots);
  kp_channels : ∀ s, permits_route_candidate key s = true ↔ slot_in slots (granted r) s;
  kp_routes : ∀ k rule, cr.(model_rules) !! k = Some rule →
    permits_route key rule.(route_slot)
    = authorization_candidates_intersect rule key.(authorization).(allowed_channel_slots);
}.

(** A shared profile is right for every key with the same channel words. *)
Definition profile_ok (words : list Z) (p : AuthorizationProfile) : Prop :=
  p.(allowed_channel_slots) = words ∧
  ∀ k rule, cr.(model_rules) !! k = Some rule →
    bit_is_set p.(accessible_route_slots) rule.(route_slot) = authorization_candidates_intersect rule words.

Lemma profile_for_ok words ids profiles p :
  (∀ words p, profiles !! words = Some p → profile_ok words p) →
  Forall word64 words → (∀ s, bit_is_set words s = true ↔ slot_in slots ids s) →
  profile_for sha256 cr slots words ids profiles = Ok p → profile_ok words p.
Proof.
  intros Hall Hw Hb Hrun. unfold profile_for in Hrun.
  destruct (profiles !! words) as [p'|] eqn:Hp; run_ok; [by apply Hall|].
  split; [done|]. intros k rule Hk. simpl. by eapply accessible_intersect.
Qed.

Lemma positive_policy_Ok v v' : positive_policy v = Ok v' → v' = v ∧ ∀ n, v = Some n → 0 < n.
Proof. unfold positive_policy. intros Hrun. repeat case_match; run_ok; breflect; split; naive_solver. Qed.

Record keys_ok (done : list (ApiKeyRecord D T)) (a : KeysAcc (D := D) (T := T)) : Prop := {
  ko_sound : ∀ h key, a.(ka_keys) !! h = Some key →
    ∃ r, r ∈ done ∧ h = hash_secret r.(ak_secret_value) ∧ key_published r key;
  ko_complete : ∀ r, r ∈ done → r.(ak_status) = "active" → r.(ak_user_status) = "active" →
    ∃ key, a.(ka_keys) !! hash_secret r.(ak_secret_value) = Some key ∧ key_published r key;
  ko_profiles : ∀ words p, a.(ka_profiles) !! words = Some p → profile_ok words p;
}.

Lemma compile_key_ok done r a a' :
  keys_ok done a →
  compile_key sha256 hash_secret groups all_channels by_group slots cr a r = Ok a' →
  keys_ok (done ++ [r]) a'.
Proof.
  intros [Hs Hc Hp] Hrun. unfold compile_key in Hrun. run_ok.
  destruct (String.eqb_spec (ak_status r) "active") as [Hst|Hst]; simpl in Hrun;
    [destruct (String.eqb_spec (ak_user_status r) "active") as [Hus|Hus]; simpl in Hrun|].
  2,3: run_ok; split; simpl; [| |done];
    [intros h key Hk; destruct (Hs _ _ Hk) as (r' & ? & ?); exists r'; set_solver
    |intros r' [Hin|Hin%list_elem_of_singleton]%elem_of_app ? ?; [by apply Hc|by subst]].
  run_ok. breflect.
  match goal with Hx : compile_allowed_channel_slots _ _ _ = Ok _ |- _ =>
    apply compile_allowed_ok in Hx as (Hids & Hw & Hb & _) end.
  match goal with Hx : profile_for _ _ _ _ _ _ = Ok _ |- _ =>
    apply profile_for_ok in Hx as Hprof; [|done|done|by rewrite Hids] end.
  match goal with Hx : positive_policy (ak_requests_per_minute r) = Ok _, Hy : positive_policy _ = Ok _ |- _ =>
    apply positive_policy_Ok in Hx as [-> Hrpm]; apply positive_policy_Ok in Hy as [-> Hconc] end.
  match goal with |- keys_ok _ {| ka_keys := <[_ := ?x]> _ |} => set (key := x) in * end.
  destruct Hprof as [Hallowed Hroutes].
  assert (Hnew : key_published r key).
  { split; simpl; try done; rewrite ?Hallowed; try done.
    - match goal with Hx : collect parse_format _ = Ok _ |- _ => apply collect_Forall2 in Hx as Hf end.
      eapply Forall2_impl; [exact Hf|]. intros s f Hx. by apply required_Ok in Hx.
    - intros s. unfold permits_route_candidate. simpl. by rewrite Hallowed. }
  assert (Hfresh : a.(ka_keys) !! hash_secret r.(ak_secret_value) = None) by (by apply eq_None_not_Some).
  split; simpl.
  - intros h key' [[<- <-]|[_ Hk]]%lookup_insert_Some; [exists r; set_solver|].
    destruct (Hs _ _ Hk) as (r' & ? & ?). exists r'. set_solver.
  - intros r' [Hin|Hin%list_elem_of_singleton]%elem_of_app Ha Hu.
    + destruct (Hc _ Hin Ha Hu) as (key' & Hk & ?). exists key'. split; [|done].
      rewrite lookup_insert_ne; [done|]. congruence.
    + subst r'. exists key. by rewrite lookup_insert_eq.
  - intros words p [[<- <-]|[_ Hk]]%lookup_insert_Some; [by split|by apply Hp].
Qed.

Lemma compile_keys_ok records keys :
  compile_keys sha256 hash_secret records groups all_channels by_group slots cr = Ok keys →
  ∃ a, a.(ka_keys) = keys ∧ keys_ok records a.
Proof.
  unfold compile_keys. intros Hrun. run_ok. eexists. split; [done|]. revert H2.
  apply (for_each_ind _ keys_ok).
  - split; simpl; intros *; rewrite ?lookup_empty; done || (intros Hin; by apply elem_of_nil in Hin).
  - intros done r rest a1 a2 _. apply compile_key_ok.
Qed.
End routes.
End keys.

(** ** Slots and group members *)

Section slots.
Context {D V : Type}.
Implicit Types (all : gmap uuid (ChannelRecord D V)).

Lemma sorted_ids_NoDup all : NoDup (sorted_channel_ids all).
Proof. unfold sorted_channel_ids. rewrite merge_sort_Permutation. apply NoDup_fst_map_to_list. Qed.

Lemma elem_of_sorted_ids all id : id ∈ sorted_channel_ids all ↔ is_Some (all !! id).
Proof.
  unfold sorted_channel_ids. rewrite merge_sort_Permutation, list_elem_of_fmap. split.
  - intros ([i c] & -> & Hin%elem_of_map_to_list). eauto.
  - intros [c Hc]. exists (id, c). split; [done|]. by apply elem_of_map_to_list.
Qed.

Lemma imap_pairs_fst (l : list uuid) n : (imap (λ s id, (id, (n + s)%nat)) l).*1 = l.
Proof.
  revert n. induction l as [|id l IH]; intros n; simpl; [done|]. f_equal.
  rewrite (imap_ext _ (λ s id, (id, (S n + s)%nat))); [apply IH|]. intros s id' _. simpl. f_equal. lia.
Qed.

(** The slot of a channel is its position among the sorted ids. *)
Lemma channel_slots_spec all id s :
  channel_slots_of all !! id = Some s ↔ sorted_channel_ids all !! s = Some id.
Proof.
  unfold channel_slots_of. rewrite <- elem_of_list_to_map.
  - rewrite elem_of_lookup_imap. split; [intros (i & x & ? & ?); by simplify_eq|by eauto].
  - rewrite (imap_pairs_fst _ 0). apply sorted_ids_NoDup.
Qed.

Lemma channel_slots_inj all id id' s :
  channel_slots_of all !! id = Some s → channel_slots_of all !! id' = Some s → id = id'.
Proof. rewrite !channel_slots_spec. congruence. Qed.

Lemma channel_slots_dom all id : is_Some (channel_slots_of all !! id) ↔ is_Some (all !! id).
Proof.
  rewrite <- elem_of_sorted_ids, list_elem_of_lookup. split.
  - intros [s Hs%channel_slots_spec]. eauto.
  - intros [s Hs]. exists s. by apply channel_slots_spec.
Qed.

Lemma channel_slots_size all : size (channel_slots_of all) = size all.
Proof.
  rewrite <- !size_dom. apply set_size_proper. intros id. rewrite !elem_of_dom. apply channel_slots_dom.
Qed.

Lemma channel_slots_range all id s :
  channel_slots_of all !! id = Some s → (s < size (channel_slots_of all))%nat.
Proof.
  rewrite channel_slots_spec, channel_slots_size. intros Hs%lookup_lt_Some.
  unfold sorted_channel_ids in Hs. rewrite merge_sort_Permutation, length_fmap, length_map_to_list in Hs. done.
Qed.

Lemma channels_by_group_spec all m g id :
  channels_by_group_of all = Ok m →
  id ∈ default [] (m !! g) ↔ ∃ ch, all !! id = Some ch ∧ ch.(ch_channel_group_id) = g.
Proof.
  intros Hrun.
  assert (Hall : ∀ id g, id ∈ default [] (m !! g) ↔ id ∈ sorted_channel_ids all ∧
    ∃ ch, all !! id = Some ch ∧ ch.(ch_channel_group_id) = g).
  { refine (for_each_ind _ (λ done m, ∀ id g, id ∈ default [] (m !! g) ↔ id ∈ done ∧
      ∃ ch, all !! id = Some ch ∧ ch.(ch_channel_group_id) = g) _ _ _ _ _ Hrun); clear.
    - intros id g. rewrite lookup_empty. set_solver.
    - intros done i rest m1 m2 _ IH Hstep id g. unfold push_member in Hstep. run_ok.
      rename x into ch. rewrite elem_of_app, list_elem_of_singleton.
      destruct (decide (g = ch_channel_group_id ch)) as [->|Hg].
      + rewrite lookup_insert_eq. simpl. rewrite elem_of_app, list_elem_of_singleton, IH. naive_solver.
      + rewrite lookup_insert_ne, IH by done. naive_solver. }
  rewrite Hall, elem_of_sorted_ids. split; [naive_solver|]. intros (ch & Hch & Hg). by eauto.
Qed.
End slots.

(** ** The meaning of a publication *)

Section publication.
Context {D V T Policy Auth : Type} `{DecimalOps D} `{JsonOps V} `{UtcOps T}.
Context (from_value : V → option (AdvancedBilling D V)) (sha256 : list Z → digest)
  (hash_secret : string → digest).
Context (rules : list (ModelRuleRecord D V T)) (keys : list (ApiKeyRecord D T)).
Context (groups : gmap uuid ChannelGroupRecord) (all_channels : gmap uuid (ChannelRecord D V)).
Context (channels : gmap uuid (CompiledChannel D Policy Auth)).

(** A key's row grants a channel directly or through the channel's group. *)
Definition grants (r : ApiKeyRecord D T) (id : uuid) : Prop :=
  id ∈ r.(ak_allowed_channel_ids) ∨
  ∃ ch, all_channels !! id = Some ch ∧ ch.(ch_channel_group_id) ∈ r.(ak_allowed_group_ids).

Lemma granted_grants by_group r id :
  channels_by_group_of all_channels = Ok by_group → id ∈ granted by_group r ↔ grants r id.
Proof.
  intros Hm. unfold granted, grants. rewrite elem_of_list_to_set, elem_of_app.
  rewrite list_elem_of_In, in_flat_map. setoid_rewrite <- list_elem_of_In.
  setoid_rewrite (λ g, channels_by_group_spec _ _ g id Hm). naive_solver.
Qed.

Lemma compile_routing_parts cr ks :
  (∀ id c, channels !! id = Some c → c.(channel_id) = id) →
  compile_routing from_value sha256 hash_secret rules keys groups all_channels channels = Ok (cr, ks) →
  rules_ok groups all_channels (channel_slots_of all_channels) channels rules cr ∧
  ∃ by_group a, channels_by_group_of all_channels = Ok by_group ∧ a.(ka_keys) = ks ∧
    keys_ok hash_secret (channel_slots_of all_channels) by_group cr keys a.
Proof.
  intros Hkeyed Hrun. unfold compile_routing in Hrun. run_ok.
  match goal with Hx : compile_rules _ _ _ _ _ _ _ = Ok _ |- _ => apply compile_rules_ok in Hx as Hrules; [|done] end.
  split; [done|].
  match goal with Hx : compile_keys _ _ _ _ _ _ _ _ = Ok _ |- _ =>
    eapply compile_keys_ok in Hx as (a & ? & ?); [by eauto 10|done|apply channel_slots_range] end.
Qed.

(** The candidates of the persisted tier behind a published one. *)
Lemma tier_published_elem slots (r : ModelRuleRecord D V T) t rt id m w :
  tier_published groups all_channels slots channels r t rt →
  (∃ c, c ∈ t.(candidates) ∧ describe c = (id, m, w)) ↔
  ∃ rc, rc ∈ rt.(rt_candidates) ∧ describe_record rc = (id, m, w) ∧ routable groups all_channels rc = true.
Proof.
  intros Hp. pose proof (tp_candidates _ _ _ _ _ _ _ Hp) as Hperm. split.
  - intros (c & Hc & Hd). apply (list_elem_of_fmap_2 describe) in Hc. rewrite Hperm, Hd in Hc.
    apply list_elem_of_fmap in Hc as (rc & ? & [? ?]%list_elem_of_filter). eauto.
  - intros (rc & Hrc & Hd & Hr). assert (describe_record rc ∈ describe <$> t.(candidates)) as Hin.
    { rewrite Hperm. apply list_elem_of_fmap_2. by apply list_elem_of_filter. }
    apply list_elem_of_fmap in Hin as (c & ? & ?). exists c. split; [done|]. congruence.
Qed.

Lemma NoDup_fmap_elem_inj {A B} (f : A → B) l x y :
  NoDup (f <$> l) → x ∈ l → y ∈ l → f x = f y → x = y.
Proof.
  intros Hnd [i Hi]%list_elem_of_lookup [j Hj]%list_elem_of_lookup Heq.
  assert (i = j) as ->; [|congruence].
  eapply (NoDup_lookup _ _ _ (f x) Hnd); rewrite list_lookup_fmap; [by rewrite Hi|by rewrite Hj, Heq].
Qed.

Lemma rule_published_elem slots (r : ModelRuleRecord D V T) rule p id m w :
  rule_published groups all_channels slots channels r rule →
  (∃ t c, t ∈ rule.(tiers) ∧ t.(priority) = p ∧ c ∈ t.(candidates) ∧ describe c = (id, m, w)) ↔
  ∃ rt rc, rt ∈ r.(mr_routing_tiers) ∧ rt.(rt_priority) = p ∧ rc ∈ rt.(rt_candidates) ∧
    describe_record rc = (id, m, w) ∧ routable groups all_channels rc = true.
Proof.
  intros Hp. pose proof (rp_tiers _ _ _ _ _ _ Hp) as Htiers. rewrite Forall_forall in Htiers. split.
  - intros (t & c & Ht & <- & Hc & Hd). destruct (Htiers _ Ht) as [rt Hrt].
    destruct (proj1 (tier_published_elem _ _ _ _ id m w Hrt)) as (rc & ? & ? & ?); [eauto|].
    exists rt, rc. split_and!; [apply Hrt|symmetry; apply Hrt|done..].
  - intros (rt & rc & Hrt & <- & Hrc & Hd & Hr).
    pose proof (rp_complete _ _ _ _ _ _ Hp _ _ Hrt Hrc Hr) as Hin.
    apply list_elem_of_fmap in Hin as (t & Hpri & Ht). destruct (Htiers _ Ht) as [rt' Hrt'].
    assert (rt' = rt) as ->.
    { eapply (NoDup_fmap_elem_inj rt_priority); [apply (rp_valid _ _ _ _ _ _ Hp)|apply Hrt'|done|].
      rewrite <- (tp_priority _ _ _ _ _ _ _ Hrt'). done. }
    destruct (proj2 (tier_published_elem _ _ _ _ id m w Hrt')) as (c & ? & ?); [eauto|]. eauto 10.
Qed.

(** C30: publication compiles exactly the enabled rules of enabled models.  The
    tiers of a rule are in strictly increasing priority, and the candidates at
    a priority are exactly the persisted ones (channel, upstream model and
    weight) whose channel offers the model, is enabled and not automatically
    disabled, and belongs to an enabled group. *)
Theorem published_rules_exact cr ks
    (Hkeyed : ∀ id c, channels !! id = Some c → c.(channel_id) = id)
    (Hrun : compile_routing from_value sha256 hash_secret rules keys groups all_channels channels = Ok (cr, ks)) :
  (∀ k rule, cr.(model_rules) !! k = Some rule → ∃ r, r ∈ rules ∧ k = rule_key r ∧
     r.(mr_enabled) = true ∧ r.(mr_model_enabled) = true ∧ rule.(rule_id) = r.(mr_id) ∧
     StronglySorted Z.lt (priority <$> rule.(tiers)) ∧
     ∀ p id m w,
       (∃ t c, t ∈ rule.(tiers) ∧ t.(priority) = p ∧ c ∈ t.(candidates) ∧ describe c = (id, m, w)) ↔
       ∃ rt rc, rt ∈ r.(mr_routing_tiers) ∧ rt.(rt_priority) = p ∧ rc ∈ rt.(rt_candidates) ∧
         describe_record rc = (id, m, w) ∧ routable groups all_channels rc = true) ∧
  (∀ r, r ∈ rules → r.(mr_enabled) = true → r.(mr_model_enabled) = true →
     ∃ rule, cr.(model_rules) !! rule_key r = Some rule ∧ rule.(rule_id) = r.(mr_id)).
Proof.
  apply compile_routing_parts in Hrun as [Hrules _]; [|done]. split.
  - intros k rule Hk. destruct (ro_sound _ _ _ _ _ _ Hrules _ _ Hk) as (r & Hr & -> & Hp).
    exists r. destruct (rp_enabled _ _ _ _ _ _ Hp). destruct (rp_id _ _ _ _ _ _ Hp).
    split_and!; [done..|apply Hp|]. intros. by eapply rule_published_elem.
  - intros r Hr He Hm. destruct (ro_complete _ _ _ _ _ _ Hrules _ Hr He Hm) as (rule & Hk & Hp).
    exists rule. split; [done|]. apply Hp.
Qed.

Lemma elem_of_ids_of f (ts : list ModelRuleRoutingTier) id :
  id ∈ ids_of f (work ts) ↔
  ∃ rt rc, rt ∈ ts ∧ rc ∈ rt.(rt_candidates) ∧ f rc = true ∧ rc.(rc_channel_id) = id.
Proof.
  unfold ids_of, work. rewrite elem_of_list_to_set, list_elem_of_fmap. split.
  - intros (rc & -> & [Hf Hin]%list_elem_of_filter).
    apply list_elem_of_fmap in Hin as ([p x] & -> & Hin).
    apply list_elem_of_In, in_flat_map in Hin as (t & Ht & Hin). apply list_elem_of_In in Ht, Hin.
    apply list_elem_of_fmap in Hin as (? & ? & ?). simplify_eq. eauto 10.
  - intros (rt & rc & Hrt & Hrc & Hf & <-). exists rc. split; [done|]. apply list_elem_of_filter.
    split; [done|]. apply list_elem_of_fmap. exists (rt.(rt_priority), rc). split; [done|].
    apply list_elem_of_In, in_flat_map. exists rt. rewrite <- !list_elem_of_In. split; [done|].
    by apply list_elem_of_fmap_2.
Qed.

Lemma elem_of_authorization_ids (r : ModelRuleRecord D V T) id :
  id ∈ authorization_ids all_channels r ↔
  ∃ rt rc, rt ∈ r.(mr_routing_tiers) ∧ rc ∈ rt.(rt_candidates) ∧ rc.(rc_channel_id) = id ∧
    (capable all_channels rc = true ∨
     ∀ rt' rc', rt' ∈ r.(mr_routing_tiers) → rc' ∈ rt'.(rt_candidates) → capable all_channels rc' = false).
Proof.
  unfold authorization_ids. case_bool_decide as Hempty; rewrite elem_of_ids_of; split.
  - intros (rt & rc & ? & ? & _ & ?). exists rt, rc. split_and!; [done..|right].
    intros rt' rc' Hrt' Hrc'. apply not_true_is_false. intros Hc.
    assert (rc'.(rc_channel_id) ∈ ids_of (capable all_channels) (work (mr_routing_tiers r))) as Hin
      by (apply elem_of_ids_of; eauto 10). rewrite Hempty in Hin. set_solver.
  - intros (rt & rc & ? & ? & ? & _). eauto 10.
  - intros (rt & rc & ? & ? & ? & ?). exists rt, rc. split_and!; [done..|by left].
  - intros (rt & rc & ? & ? & ? & [Hc|Hnone]); [by eauto 10|]. exfalso. apply Hempty, set_eq. intros x.
    rewrite elem_of_ids_of. split; [|set_solver]. intros (rt' & rc' & ? & ? & Hc & _).
    by rewrite (Hnone rt' rc') in Hc.
Qed.

(** C8: the bit vectors of a published key mean what its row says.  The key may
    use a channel's slot exactly when the row grants the channel, directly or
    through its group; and it may use a rule exactly when it is granted one of
    the rule's candidate channels that offer the model, or, if none offers it,
    one of all its candidate channels.  Profiles shared between keys do not
    change this. *)
Theorem key_authorization_exact cr ks h key
    (Hkeyed : ∀ id c, channels !! id = Some c → c.(channel_id) = id)
    (Hrun : compile_routing from_value sha256 hash_secret rules keys groups all_channels channels = Ok (cr, ks))
    (Hkey : ks !! h = Some key) :
  ∃ r, r ∈ keys ∧ h = hash_secret r.(ak_secret_value) ∧ key.(key_id) = r.(ak_id) ∧
    r.(ak_status) = "active" ∧ r.(ak_user_status) = "active" ∧
    (∀ id s, channel_slots_of all_channels !! id = Some s →
       permits_route_candidate key s = true ↔ grants r id) ∧
    (∀ k rule, cr.(model_rules) !! k = Some rule → ∃ rr, rr ∈ rules ∧ k = rule_key rr ∧
       (permits_route key rule.(route_slot) = true ↔
        ∃ rt rc, rt ∈ rr.(mr_routing_tiers) ∧ rc ∈ rt.(rt_candidates) ∧ grants r rc.(rc_channel_id) ∧
          (capable all_channels rc = true ∨
           ∀ rt' rc', rt' ∈ rr.(mr_routing_tiers) → rc' ∈ rt'.(rt_candidates) →
             capable all_channels rc' = false))).
Proof.
  apply compile_routing_parts in Hrun as (Hrules & by_group & a & Hgroup & Ha & Hkeys); [|done].
  rewrite <- Ha in Hkey. destruct (ko_sound _ _ _ _ _ _ Hkeys _ _ Hkey) as (r & Hr & Hh & Hp).
  destruct (kp_active _ _ _ _ _ Hp). destruct (kp_ids _ _ _ _ _ Hp).
  exists r. split_and!; [done..| |].
  - intros id s Hs. rewrite (kp_channels _ _ _ _ _ Hp). unfold slot_in. setoid_rewrite (granted_grants _ _ _ Hgroup).
    split; [|by eauto]. intros (id' & Hg & Hs'). by rewrite (channel_slots_inj _ _ _ _ Hs Hs').
  - intros k rule Hk. destruct (ro_sound _ _ _ _ _ _ Hrules _ _ Hk) as (rr & Hrr & -> & Hpub).
    exists rr. split_and!; [done..|]. rewrite (kp_routes _ _ _ _ _ Hp _ _ Hk).
    change (authorization_candidates_intersect rule) with (words_intersect (authorization_words rule)).
    assert (Forall word64 (authorization_words rule)) as Hwords
      by (unfold authorization_words; case_match; apply Hpub).
    rewrite words_intersect_spec by (done || apply Hp).
    pose proof (λ s, authorization_words_spec _ _ _ _ Hkeyed _ _ s Hpub) as Hauth.
    assert (∀ s, bit_is_set key.(authorization).(allowed_channel_slots) s = true ↔ slot_in _ (granted by_group r) s)
      as Hallowed by apply Hp.
    setoid_rewrite Hauth. setoid_rewrite Hallowed. unfold slot_in.
    setoid_rewrite (granted_grants _ _ _ Hgroup). setoid_rewrite elem_of_authorization_ids. split.
    + intros (s & (id & (rt & rc & ? & ? & <- & ?) & Hs) & (id' & Hg & Hs')).
      rewrite <- (channel_slots_inj _ _ _ _ Hs Hs') in Hg. eauto 10.
    + intros (rt & rc & Hrt & Hrc & Hg & Hcap).
      destruct (rp_slots _ _ _ _ _ _ Hpub rc.(rc_channel_id)) as [s Hs]; [apply elem_of_ids_of; eauto 10|].
      exists s. split; eexists; (split; [|exact Hs]); [by eauto 10|done].
Qed.
End publication.

(** ** Publication does not panic *)

Abbreviation safe r := (r ≠ Err Panicked) (only parsing).

Lemma safe_bind {A B} (r : outcome A) (k : A → outcome B) :
  safe r → (∀ a, r = Ok a → safe (k a)) → safe (result_bind r k).
Proof. destruct r as [a|[e|]]; simpl; naive_solver. Qed.
Lemma safe_reject_if b : safe (reject_if b).
Proof. by destruct b. Qed.
Lemma safe_required {A} (o : option A) : safe (required o).
Proof. by destruct o. Qed.
Lemma safe_lift {A} (r : result A ConfigError) : safe (lift r).
Proof. by destruct r. Qed.
Lemma safe_index {A} (o : option A) : is_Some o → safe (index o).
Proof. by intros [a ->]. Qed.
Lemma safe_parse_permission s : safe (parse_permission s).
Proof. unfold parse_permission. by repeat case_match. Qed.
Lemma safe_positive_policy v : safe (positive_policy v).
Proof. unfold positive_policy. by repeat case_match. Qed.
#[local] Hint Resolve safe_reject_if safe_required safe_lift safe_parse_permission safe_positive_policy : gateway.

Lemma safe_for_each {S A} (body : S → A → outcome S) l s :
  (∀ s a, a ∈ l → safe (body s a)) → safe (for_each body l s).
Proof. intros Hbody. apply (for_each_safe _ (λ _, True)); [|done]. intros. by split; [apply Hbody|]. Qed.
Lemma safe_collect {A B} (f : A → outcome B) l : (∀ a, a ∈ l → safe (f a)) → safe (collect f l).
Proof.
  intros Hf. apply safe_for_each. intros bs a Ha. apply safe_bind; [by apply Hf|]. done.
Qed.

(** Run through a sequence of steps that only reject. *)
Ltac safe_steps :=
  repeat match goal with
  | |- result_bind _ _ ≠ Err Panicked => apply safe_bind; [|intros ? ?]
  | |- for_each _ _ _ ≠ Err Panicked => apply safe_for_each; intros ? ? ?
  | |- collect _ _ ≠ Err Panicked => apply safe_collect; intros ? ?
  | |- Ok _ ≠ Err Panicked => done
  | |- _ => solve [eauto with gateway]
  end.

Lemma safe_set_slot words slot : (slot / BITS < length words)%nat → safe (set_slot words slot).
Proof. intros Hlt. unfold set_slot. by rewrite (proj2 (Nat.ltb_lt _ _) Hlt). Qed.

(** Loops that set bits keep the number of words. *)
Lemma safe_set_loop {A} (body : list Z → A → outcome (list Z)) l n :
  (∀ words a, a ∈ l → length words = length (zero_words n) →
     safe (body words a) ∧ ∀ words', body words a = Ok words' → length words' = length words) →
  safe (for_each body l (zero_words n)).
Proof.
  intros Hbody. apply (for_each_safe _ (λ words, length words = length (zero_words n))); [|done].
  intros words a Ha Hlen. destruct (Hbody words a Ha Hlen) as [Hs Hl]. split; [done|].
  intros words' Hrun. by rewrite (Hl _ Hrun).
Qed.

Section no_panic.
Context {D V T Policy Auth : Type} `{DecimalOps D} `{JsonOps V} `{UtcOps T}.
Context (from_value : V → option (AdvancedBilling D V)) (sha256 : list Z → digest)
  (hash_secret : string → digest).
Context (groups : gmap uuid ChannelGroupRecord) (all_channels : gmap uuid (ChannelRecord D V)).
Context (channels : gmap uuid (CompiledChannel D Policy Auth)).
Context (channels_keyed : ∀ id c, channels !! id = Some c → c.(channel_id) = id).
Abbreviation slots := (channel_slots_of all_channels).
Implicit Types (cr : CompiledRules (D := D) (V := V) (T := T) (Policy := Policy) (Auth := Auth)).

Lemma known_slot id : is_Some (all_channels !! id) → ∃ s, slots !! id = Some s ∧ (s < size slots)%nat.
Proof.
  intros [s Hs]%channel_slots_dom. exists s. split; [done|]. by eapply channel_slots_range.
Qed.

Lemma safe_channel_words (ids : gset uuid) :
  (∀ id, id ∈ ids → is_Some (all_channels !! id)) → safe (channel_words slots ids).
Proof.
  intros Hids. unfold channel_words. apply safe_set_loop. intros words id Hid Hlen.
  apply elem_of_elements in Hid. destruct (known_slot id (Hids id Hid)) as (s & Hs & Hlt).
  rewrite Hs. simpl. split.
  - apply safe_set_slot. rewrite Hlen. by apply length_zero_words.
  - intros words' Hrun. by apply set_slot_Ok in Hrun as (_ & ? & _).
Qed.

Lemma safe_add_candidate (r : ModelRuleRecord D V T) p a rc :
  0 < rc.(rc_weight) → safe (add_candidate from_value r groups all_channels slots channels p a rc).
Proof.
  intros Hw. unfold add_candidate. apply safe_bind; [auto with gateway|]. intros ch Hch.
  apply required_Ok in Hch. apply safe_bind; [auto with gateway|]. intros g _. case_match; [done|].
  apply safe_bind; [auto with gateway|]. intros _ _. case_match; [|done].
  destruct (known_slot rc.(rc_channel_id)) as (s & Hs & _); [by eauto|].
  safe_steps; [rewrite Hs; by apply safe_index|]. unfold new_candidate.
  by destruct (Z.ltb_spec (rc_weight rc) 0); [lia|].
Qed.

Lemma safe_compile_tier (ts : list ModelRuleRoutingTier) a p :
  tiers_valid ts → acc_ok groups all_channels slots channels (work ts) a →
  (∀ rt, rt ∈ ts → a.(ra_strategies) !! rt.(rt_priority) = parse_strategy rt.(rt_selection_strategy)) →
  is_Some (a.(ra_tier_channels) !! p) → safe (compile_tier sha256 a p).
Proof.
  intros Hv Hacc Hst [cs Hcs]. unfold compile_tier. rewrite Hcs. simpl.
  pose proof (ao_tiers _ _ _ _ _ _ Hacc p) as Hserved. rewrite Hcs in Hserved. simpl in Hserved.
  pose proof (ao_nonempty _ _ _ _ _ _ Hacc _ _ Hcs) as Hne.
  apply safe_bind.
  - apply safe_index. destruct cs as [|c cs]; [done|].
    destruct (served groups all_channels p (work ts)) as [|rc l] eqn:Hl; [done|].
    destruct (served_priority groups all_channels ts p rc) as (t & Ht & <-); [rewrite Hl; constructor|].
    rewrite Hst by done. by apply Hv.
  - intros s _. safe_steps. unfold add_weight. by case_match.
Qed.

Lemma safe_publish_rule (r : ModelRuleRecord D V T) a done cr :
  tiers_valid r.(mr_routing_tiers) → acc_ok groups all_channels slots channels (work r.(mr_routing_tiers)) a →
  (∀ rt, rt ∈ r.(mr_routing_tiers) →
     a.(ra_strategies) !! rt.(rt_priority) = parse_strategy rt.(rt_selection_strategy)) →
  rules_ok groups all_channels slots channels done cr →
  safe (publish_rule from_value sha256 slots r a cr).
Proof.
  intros Hv Hacc Hst Hok. unfold publish_rule.
  assert (Hknown : ∀ f id, id ∈ ids_of f (work r.(mr_routing_tiers)) → is_Some (all_channels !! id)).
  { intros f id Hid%ids_of_subseteq. unfold ids_of in Hid.
    apply elem_of_list_to_set, list_elem_of_fmap in Hid as (rc & -> & [_ Hin]%list_elem_of_filter).
    apply list_elem_of_fmap in Hin as ([p x] & -> & Hin). by eapply (ao_known _ _ _ _ _ _ Hacc). }
  apply safe_bind; [unfold compile_tiers; apply safe_collect|intros tiers _].
  { intros p Hp. rewrite merge_sort_Permutation in Hp.
    apply list_elem_of_fmap in Hp as ([q cs] & -> & Hp%elem_of_map_to_list). by eapply safe_compile_tier. }
  apply safe_bind; [|intros tw _].
  { rewrite (ao_target _ _ _ _ _ _ Hacc). apply safe_channel_words. by apply Hknown. }
  apply safe_bind; [|intros cw _].
  { rewrite (ao_capable _ _ _ _ _ _ Hacc). apply safe_channel_words. by apply Hknown. }
  apply safe_bind; [|intros routes _; safe_steps].
  apply (for_each_safe _ (λ routes, length routes = size slots)).
  - intros routes id Hid%elem_of_elements Hlen. rewrite (authorization_ids_acc _ _ _ _ _ _ Hacc) in Hid.
    destruct (known_slot id) as (s & Hs & Hlt).
    { unfold authorization_ids in Hid. case_match; by eapply Hknown. }
    unfold push_route. rewrite Hs. simpl.
    destruct (lookup_lt_is_Some_2 routes s) as [rs Hrs]; [congruence|]. rewrite Hrs. simpl.
    split; [done|]. intros routes' [= <-]. by rewrite length_insert.
  - apply (ro_length _ _ _ _ _ _ Hok).
Qed.

Lemma safe_compile_rules (records : list (ModelRuleRecord D V T)) :
  safe (compile_rules from_value sha256 records groups all_channels slots channels).
Proof.
  unfold compile_rules. apply safe_bind; [|done].
  apply (for_each_safe _ (λ st, ∃ done, rules_ok groups all_channels slots channels done st.2)).
  2:{ exists []. by apply (compile_rules_ok from_value sha256 _ _ _ _ channels_keyed). }
  intros [ids cr] r Hr [done Hok]. simpl in Hok. split.
  - unfold compile_rule. apply safe_bind; [auto with gateway|]. intros _ _.
    apply safe_bind; [unfold validate_rule; safe_steps; case_match; unfold check_tier, check_candidate; safe_steps|].
    intros u Hv. apply (validate_rule_Ok channels channels_keyed) in Hv.
    apply safe_bind; [unfold validate_rule_references, check_reference; safe_steps|]. intros _ _.
    case_match; [done|]. case_match; [done|].
    apply safe_bind; [unfold parse_format; auto with gateway|]. intros f _.
    apply safe_bind; [auto with gateway|]. intros _ _. apply safe_bind.
    + apply safe_for_each. intros a t Ht. unfold add_tier, parse_tier_strategy.
      apply safe_bind; [auto with gateway|]. intros s _. apply safe_for_each. intros a' rc Hrc.
      apply safe_add_candidate. by eapply Hv.
    + intros a Ha. apply rule_acc_ok in Ha as [Hacc Hst]; [|done|apply Hv].
      apply safe_bind; [by eapply safe_publish_rule|done].
  - intros st' Hrun. exists (done ++ [r]).
    by eapply (compile_rule_ok from_value sha256 groups all_channels slots channels channels_keyed done r (ids, cr)).
Qed.

Lemma safe_allow_all l n (ids : gset uuid) words :
  (∀ id, id ∈ l → is_Some (all_channels !! id)) → length words = length (zero_words (size slots)) →
  n = size slots →
  safe (for_each (allow slots) l (words, ids)) ∧
  ∀ st, for_each (allow slots) l (words, ids) = Ok st → length st.1 = length (zero_words n).
Proof.
  intros Hl Hlen ->. revert words ids Hlen. induction l as [|id l IH]; intros words ids Hlen; simpl.
  { split; [done|]. by intros st [= <-]. }
  destruct (known_slot id) as (s & Hs & Hlt); [apply Hl; set_solver|]. unfold allow at 1 3. rewrite Hs. simpl.
  pose proof (safe_set_slot words s) as Hsafe. rewrite Hlen in Hsafe. specialize (Hsafe (length_zero_words _ _ Hlt)).
  destruct (set_slot words s) as [w|e] eqn:Hset; simpl; [|by split; [congruence|]].
  apply set_slot_Ok in Hset as (_ & Hw & _). apply IH; [set_solver|congruence].
Qed.

Lemma safe_allowed (r : ApiKeyRecord D T) by_group :
  channels_by_group_of all_channels = Ok by_group →
  (∀ id, id ∈ r.(ak_allowed_channel_ids) → is_Some (all_channels !! id)) →
  safe (compile_allowed_channel_slots r by_group slots).
Proof.
  intros Hm Hids. unfold compile_allowed_channel_slots.
  assert (Hgroups : ∀ g id, id ∈ default [] (by_group !! g) → is_Some (all_channels !! id)).
  { intros g id Hin. eapply channels_by_group_spec in Hin as (ch & Hch & _); [by eauto|done]. }
  assert (Hloop : safe (for_each (λ st g, for_each (allow slots) (default [] (by_group !! g)) st)
                    (ak_allowed_group_ids r) (zero_words (size slots), ∅)) ∧
    ∀ st, for_each (λ st g, for_each (allow slots) (default [] (by_group !! g)) st)
            (ak_allowed_group_ids r) (zero_words (size slots), ∅) = Ok st →
      length st.1 = length (zero_words (size slots))).
  { split.
    - apply (for_each_safe _ (λ st, length st.1 = length (zero_words (size slots)))); [|done].
      intros [w ids] g _ Hlen. by apply safe_allow_all; [apply Hgroups| |].
    - intros st. apply (for_each_ind _ (λ _ st, length st.1 = length (zero_words (size slots)))); [done|].
      intros prefix g rest [w ids] st2 _ Hlen. by eapply safe_allow_all; [apply Hgroups| |]. }
  apply safe_bind; [apply Hloop|]. intros [w ids] Hst. apply Hloop in Hst.
  by apply (safe_allow_all _ (size slots)).
Qed.

Lemma safe_accessible records cr (ids : gset uuid) :
  rules_ok groups all_channels slots channels records cr →
  (∀ id, id ∈ ids → is_Some (all_channels !! id)) → safe (compile_accessible_route_slots cr ids slots).
Proof.
  intros Hok Hids. unfold compile_accessible_route_slots. apply safe_set_loop.
  intros words id Hid%elem_of_elements Hlen. destruct (known_slot id (Hids id Hid)) as (s & Hs & Hlt).
  rewrite Hs. simpl. rewrite <- (ro_length _ _ _ _ _ _ Hok) in Hlt.
  apply lookup_lt_is_Some_2 in Hlt as [rs Hrs]. rewrite Hrs. simpl. split.
  - apply (for_each_safe _ (λ w, length w = length (zero_words (size (model_rules cr))))); [|done].
    intros w n Hn Hw. split.
    + apply safe_set_slot. rewrite Hw. apply length_zero_words.
      apply (ro_routes _ _ _ _ _ _ Hok _ _ _ Hrs) in Hn as (k & rule & Hk & <- & _).
      by eapply (ro_slots _ _ _ _ _ _ Hok).
    + intros w' Hrun. apply set_slot_Ok in Hrun as (_ & ? & _). congruence.
  - intros words'. apply (for_each_ind _ (λ _ w, length w = length words)); [done|].
    intros prefix n rest w w' _ Hw Hrun. apply set_slot_Ok in Hrun as (_ & ? & _). congruence.
Qed.

Lemma validate_key_ids (r : ApiKeyRecord D T) u :
  validate_key r groups all_channels = Ok u → ∀ id, id ∈ r.(ak_allowed_channel_ids) → is_Some (all_channels !! id).
Proof.
  unfold validate_key. intros Hrun. run_ok. apply Forall_forall.
  match goal with Hx : for_each _ (ak_allowed_channel_ids r) tt = Ok _ |- _ => revert Hx end.
  apply for_each_Forall. intros u id u' Hstep. run_ok. eauto.
Qed.

Lemma safe_compile_keys (records : list (ApiKeyRecord D T)) rule_records by_group cr :
  channels_by_group_of all_channels = Ok by_group →
  rules_ok groups all_channels slots channels rule_records cr →
  safe (compile_keys sha256 hash_secret records groups all_channels by_group slots cr).
Proof.
  intros Hm Hok. unfold compile_keys. apply safe_bind; [|done]. apply safe_for_each. intros a r _.
  unfold compile_key. apply safe_bind; [auto with gateway|]. intros _ _. apply safe_bind.
  { unfold validate_key, require, unique, parse_format; safe_steps. }
  intros u Hv. pose proof (validate_key_ids _ _ Hv) as Hids. case_match; [done|].
  apply safe_bind; [unfold parse_format; safe_steps|]. intros formats _.
  apply safe_bind; [safe_steps|]. intros permissions _.
  apply safe_bind; [by apply safe_allowed|]. intros st Hst. apply (compile_allowed_ok sha256) in Hst as (Hids' & _ & _ & Hsome).
  apply safe_bind; [|intros p _; safe_steps]. unfold profile_for. case_match; [done|].
  apply safe_bind; [|done]. eapply safe_accessible; [done|]. rewrite Hids'. intros id Hid.
  by apply channel_slots_dom, Hsome.
Qed.

(** C31: no publication panics: every index and every [expect] of the slot
    assignment, of [compile_rules] and of [compile_keys] (and with them the
    authorization bit vectors and the reverse index) is in range, whatever the
    persisted rows are; bad rows are rejected with an error. *)
Theorem publication_never_panics (rules : list (ModelRuleRecord D V T)) (keys : list (ApiKeyRecord D T)) :
  compile_routing from_value sha256 hash_secret rules keys groups all_channels channels ≠ Err Panicked.
Proof.
  unfold compile_routing. apply safe_bind.
  { unfold channels_by_group_of. apply safe_for_each. intros m id Hid%elem_of_sorted_ids.
    apply safe_bind; [by apply safe_index|done]. }
  intros by_group Hm. apply safe_bind; [apply safe_compile_rules|]. intros cr Hcr.
  apply compile_rules_ok in Hcr; [|done]. apply safe_bind; [by eapply safe_compile_keys|done].
Qed.
End no_panic.

(** ** Concrete instances and witnesses *)

(** Two groups, an enabled channel of each and a disabled one; one rule over
    all of them; a key of the first group, a key of the second channel, and a
    suspended key. *)
Module PublishExample.
Import BillingExample CostExample.
Definition digest_of (l : list Z) : digest := Z.to_N (sum_over id l).
Definition secret_hash (s : string) : digest := N.of_nat (String.length s).

Definition group (id : uuid) (on : bool) : ChannelGroupRecord :=
  {| cg_id := id; cg_name := "group"; cg_api_format := "open_ai_responses";
     cg_connector_kind := "open_ai_compatible"; cg_request_compression := "default"; cg_enabled := on |}.
Definition groups : gmap uuid ChannelGroupRecord := {[ 1%N := group 1 true; 2%N := group 2 true ]}.

Definition row (id g : uuid) (on : bool) : ChannelRecord Z string :=
  {| ch_id := id; ch_channel_group_id := g; ch_api_format := "open_ai_responses";
     ch_logical_channel_id := NIL; ch_access_id := NIL; ch_api_operation := None;
     ch_connector_kind := ""; ch_request_compression := ""; ch_access_revision := NIL;
     ch_capability_revision := NIL; ch_transports := []; ch_name := "channel";
     ch_base_url := "https://api.example/v1"; ch_enabled := on; ch_supports_websocket := false;
     ch_supports_standalone_web_search := false; ch_auto_disabled := false;
     ch_auto_disable_allowed := true; ch_billing_multiplier := 1; ch_proxy_id := None;
     ch_config_template_id := None; ch_override_document := "{}"; ch_connect_timeout_ms := None;
     ch_response_header_timeout_ms := None; ch_stream_idle_timeout_ms := None;
     ch_upstream_auth_kind := "none"; ch_upstream_auth_header_name := None;
     ch_upstream_api_key := None; ch_available_models := ["gpt"]; ch_test_model := None;
     ch_test_pricing_model_id := None; ch_credential := None; ch_credential_binding_revision := NIL |}.
Definition all_channels : gmap uuid (ChannelRecord Z string) :=
  {[ 31%N := row 31 1 true; 32%N := row 32 2 true; 33%N := row 33 2 false ]}.

Definition chan (id : uuid) : CompiledChannel Z unit unit :=
  new_channel id 1%N ApiFormat.OpenAiResponses ConnectorKind.OpenAiCompatible
    RequestCompression.Default "https://api.example/v1" 1 tt {[ "gpt" ]} false false true false None tt.
Definition channels : gmap uuid (CompiledChannel Z unit unit) := {[ 31%N := chan 31; 32%N := chan 32 ]}.

Definition cand (id : uuid) : ModelRuleRouteCandidate :=
  {| rc_channel_id := id; rc_upstream_model := "gpt"; rc_weight := 2 |}.
Definition rule : ModelRuleRecord Z string Z :=
  {| mr_id := 1%N; mr_client_model := "model"; mr_api_format := "open_ai_responses";
     mr_api_operation := ApiOperation.Responses; mr_model_id := 2%N; mr_model_enabled := true;
     mr_model_currency := "USD"; mr_price_unit_tokens := 1; mr_price_effective_at := 0;
     mr_input_unit_price := 2; mr_cached_input_unit_price := 1; mr_cache_write_unit_price := 1;
     mr_output_unit_price := 4; mr_advanced_billing := "none";
     mr_routing_tiers :=
       [{| rt_priority := 1; rt_selection_strategy := "weighted_random"; rt_candidates := [cand 32; cand 33] |};
        {| rt_priority := 0; rt_selection_strategy := "weighted_round_robin"; rt_candidates := [cand 31] |}];
     mr_enabled := true |}.

Definition key (id : uuid) (secret status : string) (gs cs : list uuid) : ApiKeyRecord Z Z :=
  {| ak_id := id; ak_user_id := 7%N; ak_user_status := "active"; ak_user_websocket_enabled := false;
     ak_user_filter_fast_mode := false; ak_secret_value := secret; ak_status := status;
     ak_expires_at := None; ak_allowed_api_formats := ["open_ai_responses"];
     ak_permissions := ["proxy"]; ak_allowed_group_ids := gs; ak_allowed_channel_ids := cs;
     ak_requests_per_minute := Some 60; ak_max_concurrent_requests := None;
     ak_quota_limit_amount := None; ak_quota_used_amount := 0 |}.
Definition keys : list (ApiKeyRecord Z Z) :=
  [key 51 "a" "active" [1%N] []; key 52 "bb" "active" [] [33%N]; key 53 "ccc" "revoked" [1%N] []].

Definition run := compile_routing parse_policy digest_of secret_hash [rule] keys groups all_channels channels.
Definition published := match run with Ok p => p
  | Err _ => ({| model_rules := ∅; routes_by_channel_slot := [] |}, ∅) end.
Definition key_a : CompiledApiKey Z Z :=
  default {| key_id := NIL; key_user_id := NIL; websocket_enabled := false; filter_fast_mode := false;
             allowed_api_formats := []; permissions := [];
             authorization := {| allowed_channel_slots := []; accessible_route_slots := []; profile_fingerprint := 0%N |};
             expires_at := None; requests_per_minute := None; max_concurrent_requests := None;
             quota_limit_amount := None; quota_used_amount := 0 |} (published.2 !! 1%N).

Definition accepted : bool := match run with Ok _ => true | Err _ => false end.
Definition found : bool := match published.2 !! 1%N with Some _ => true | None => false end.
Lemma accepted_ok : accepted = true.
Proof. vm_cast_no_check (eq_refl true). Qed.
Lemma found_ok : found = true.
Proof. vm_cast_no_check (eq_refl true). Qed.
Lemma run_ok : run = Ok (published.1, published.2).
Proof.
  pose proof accepted_ok as Ha. unfold accepted in Ha. unfold published.
  destruct run as [[cr ks]|e]; [reflexivity|discriminate Ha].
Qed.
Lemma key_a_ok : published.2 !! 1%N = Some key_a.
Proof.
  pose proof found_ok as Hf. unfold found in Hf. unfold key_a.
  destruct (published.2 !! 1%N) as [k|]; [reflexivity|discriminate Hf].
Qed.
Lemma keyed id c : channels !! id = Some c → c.(channel_id) = id.
Proof.
  unfold channels. intros Hc. apply lookup_insert_Some in Hc as [[<- <-]|[_ Hc]]; [done|].
  by apply lookup_singleton_Some in Hc as [<- <-].
Qed.
End PublishExample.

(** The rule is published, its first tier is the one of priority 0. *)
Lemma published_rules_exact_witness :
  ∃ r, PublishExample.published.1.(model_rules) !! rule_key PublishExample.rule = Some r ∧
    r.(rule_id) = 1%N ∧ (priority <$> r.(tiers)) = [0; 1].
Proof.
  destruct (published_rules_exact CostExample.parse_policy PublishExample.digest_of PublishExample.secret_hash
    [PublishExample.rule] PublishExample.keys PublishExample.groups PublishExample.all_channels
    PublishExample.channels PublishExample.published.1 PublishExample.published.2
    PublishExample.keyed PublishExample.run_ok) as [_ Hc].
  destruct (Hc PublishExample.rule) as (r & Hr & Hid); [constructor|reflexivity|reflexivity|].
  exists r. split; [exact Hr|]. split; [exact Hid|].
  assert (Hp : (λ r, priority <$> r.(tiers)) <$>
    PublishExample.published.1.(model_rules) !! rule_key PublishExample.rule = Some [0; 1])
    by (vm_compute; reflexivity).
  rewrite Hr in Hp. simpl in Hp. injection Hp as Hp. exact Hp.
Defined.

(** The first key reaches the channel of its group and no other. *)
Lemma key_authorization_exact_witness :
  permits_route_candidate PublishExample.key_a 0 = true ∧
  permits_route_candidate PublishExample.key_a 1 = false ∧
  ∃ r, r ∈ PublishExample.keys ∧ grants PublishExample.all_channels r 31%N ∧
       ¬ grants PublishExample.all_channels r 32%N.
Proof.
  split; [vm_compute; reflexivity|]. split; [vm_compute; reflexivity|].
  destruct (key_authorization_exact CostExample.parse_policy PublishExample.digest_of PublishExample.secret_hash
    [PublishExample.rule] PublishExample.keys PublishExample.groups PublishExample.all_channels
    PublishExample.channels PublishExample.published.1 PublishExample.published.2 1%N PublishExample.key_a
    PublishExample.keyed PublishExample.run_ok PublishExample.key_a_ok) as (r & Hr & _ & _ & _ & _ & Hc & _).
  exists r. split; [exact Hr|]. split.
  - apply (Hc 31%N 0%nat); vm_compute; reflexivity.
  - intros Hg. apply (Hc 32%N 1%nat) in Hg; [vm_compute in Hg; discriminate Hg|vm_compute; reflexivity].
Defined.

Lemma publication_never_panics_witness : PublishExample.run ≠ Err Panicked.
Proof.
  apply (publication_never_panics CostExample.parse_policy PublishExample.digest_of PublishExample.secret_hash
    PublishExample.groups PublishExample.all_channels PublishExample.channels PublishExample.keyed).
Defined.
