(* ===== verification/Gateway.v ===== *)
(** * From persisted rows to a selected route

    Composes publication ([Publish], [Authorization]) with selection
    ([Routing]): a snapshot that [compile_routing] produced satisfies what the
    selection theorems ask of published rules, and a request of a published key
    is only ever routed to a channel that its persisted row grants. *)

From S2P Require Import Prelude Text Decimal Domain Records Billing Cost Compiled Health Selection Affinity Routing Publish Authorization.

Section gateway.
Context {D V T Policy Auth : Type} `{DecimalOps D} `{JsonOps V} `{UtcOps T}.
Context (from_value : V → option (AdvancedBilling D V)) (sha256 : list Z → digest)
  (hash_secret : string → digest) (outbound_fingerprint : Policy → digest).
Context (any_key : gmap AffinityCacheKey AffinityEntry → option AffinityCacheKey).
Context (rules : list (ModelRuleRecord D V T)) (keys : list (ApiKeyRecord D T)).
Context (groups : gmap uuid ChannelGroupRecord) (all_channels : gmap uuid (ChannelRecord D V)).
Context (channels : gmap uuid (CompiledChannel D Policy Auth)).
Implicit Types (cr : CompiledRules (D := D) (V := V) (T := T) (Policy := Policy) (Auth := Auth)).

(** The routing part of the snapshot ([CompiledModelRoutes::from_flat] and the
    live channels). *)
Definition snapshot_of cr (settings : AffinitySettings)
  : RoutingSnapshot (D := D) (V := V) (T := T) (Policy := Policy) (Auth := Auth) :=
  {| snapshot_rules := routes_from_flat cr.(model_rules);
     snapshot_channels := (map_to_list channels).*2;
     snapshot_affinity := settings |}.

(** Published tiers meet the requirements of the selection strategies. *)
Lemma tier_published_ok slots (r : ModelRuleRecord D V T) t rt :
  tiers_valid r.(mr_routing_tiers) → tier_published groups all_channels slots channels r t rt → tier_ok t.
Proof.
  intros Hv Hp. pose proof (tp_candidates _ _ _ _ _ _ _ Hp) as Hperm.
  pose proof (tp_tier _ _ _ _ _ _ _ Hp) as Hrt. split.
  - apply Forall_forall. intros c Hc. apply (list_elem_of_fmap_2 describe) in Hc. rewrite Hperm in Hc.
    apply list_elem_of_fmap in Hc as (rc & Hd & [_ Hrc]%list_elem_of_filter).
    unfold describe, describe_record in Hd. injection Hd as _ _ ->. by eapply (tv_weights _ Hv).
  - pose proof (tp_weight _ _ _ _ _ _ _ Hp). unfold total_weight. unfold i64_max, u64_max in *. lia.
  - assert (NoDup (fst <$> (describe <$> t.(candidates)))) as Hnd.
    { rewrite Hperm, <- list_fmap_compose. pose proof (tv_candidates _ Hv _ Hrt) as Hc.
      eapply sublist_NoDup; [exact Hc|]. apply fmap_sublist, sublist_filter. }
    rewrite <- list_fmap_compose in Hnd.
    rewrite (list_fmap_ext _ ((λ p, {| Affinity.rc_channel_id := p.1; Affinity.rc_upstream_model := p.2 |})
                               ∘ (fst ∘ describe))) by done.
    rewrite list_fmap_compose. apply NoDup_fmap_2; [|done]. intros [] [] Heq. by simplify_eq/=.
Qed.

(** Rules found in the snapshot are the published ones. *)
Lemma snapshot_rule cr settings operation model rule :
  operation_rule (snapshot_of cr settings) operation model = Some rule →
  cr.(model_rules) !! (operation, model) = Some rule.
Proof. unfold operation_rule. simpl. by rewrite routes_get_from_flat. Qed.

(** C1: end-to-end authorization.  In a runtime reached by any history and a
    snapshot published from any rows, a request of a published key always gets
    an answer; and if it is routed, the key's row is active and grants the
    channel (directly or through its group), the channel, model and weight are
    a persisted candidate of an enabled rule for the requested operation and
    model, the channel is enabled in an enabled group and offers the model, and
    the candidate was not excluded by an earlier attempt. *)
Theorem selected_route_granted cr ks h key settings inner leases lookup_now now operation model m excluded cap
    (Hkeyed : ∀ id c, channels !! id = Some c → c.(channel_id) = id)
    (Hrun : compile_routing from_value sha256 hash_secret rules keys groups all_channels channels = Ok (cr, ks))
    (Hkey : ks !! h = Some key)
    (Hreach : rreachable outbound_fingerprint any_key (D := D) (V := V) (T := T) (Auth := Auth) (inner, leases)) :
  ∃ inner' r,
    select_with_affinity_excluding_capability outbound_fingerprint lookup_now now inner
      (snapshot_of cr settings) key operation model m excluded cap = Some (inner', r) ∧
    ∀ route, r = Selected route →
      (∃ kr, kr ∈ keys ∧ h = hash_secret kr.(ak_secret_value) ∧ kr.(ak_status) = "active" ∧
         kr.(ak_user_status) = "active" ∧ grants all_channels kr route.(sr_channel).(channel_id)) ∧
      (∃ rr rt rc, rr ∈ rules ∧ rule_key rr = (operation, model) ∧ rr.(mr_enabled) = true ∧
         rt ∈ rr.(mr_routing_tiers) ∧ rc ∈ rt.(rt_candidates) ∧
         Records.rc_channel_id rc = route.(sr_channel).(channel_id) ∧
         Records.rc_upstream_model rc = route.(sr_upstream_model) ∧
         routable groups all_channels rc = true) ∧
      route.(sr_candidate_slot) ∉ excluded.
Proof.
  apply compile_routing_parts in Hrun as (Hrules & by_group & a & Hgroup & Ha & Hkeys); [|done].
  rewrite <- Ha in Hkey. destruct (ko_sound _ _ _ _ _ _ Hkeys _ _ Hkey) as (kr & Hkr & Hh & Hp).
  destruct (select_cases outbound_fingerprint any_key inner leases lookup_now now (snapshot_of cr settings)
    key operation model m excluded cap Hreach) as (inner' & r & Hs & Hr).
  { intros rule Hrule%snapshot_rule. destruct (ro_sound _ _ _ _ _ _ Hrules _ _ Hrule) as (rr & _ & _ & Hpub).
    eapply Forall_impl; [apply (rp_tiers _ _ _ _ _ _ Hpub)|]. intros t [rt Hrt].
    eapply tier_published_ok; [apply (rp_valid _ _ _ _ _ _ Hpub)|exact Hrt]. }
  exists inner', r. split; [done|]. intros route ->.
  destruct Hr as (rule & before & tier & after & c & Hrule%snapshot_rule & _ & Htiers & _ & Hc & Hel & _ & Ech & Emod & Eslot & _).
  destruct (ro_sound _ _ _ _ _ _ Hrules _ _ Hrule) as (rr & Hrr & Hk & Hpub).
  unfold eligible in Hel. breflect.
  assert (Htier : tier ∈ rule.(tiers)) by (rewrite Htiers; set_solver).
  pose proof (rp_tiers _ _ _ _ _ _ Hpub) as Hall. rewrite Forall_forall in Hall.
  destruct (Hall _ Htier) as [rt Hrt]. split_and!.
  - exists kr. destruct (kp_active _ _ _ _ _ Hp). split_and!; [done..|].
    match goal with Hx : allowed _ _ _ _ = true |- _ => unfold allowed in Hx end. breflect.
    destruct (tp_channels _ _ _ _ _ _ _ Hrt _ Hc) as [_ Hslot].
    match goal with Hx : permits_route_candidate key _ = true |- _ =>
      apply (kp_channels _ _ _ _ _ Hp) in Hx as (id & Hid & Hs') end.
    rewrite Ech, (channel_slots_inj _ _ _ _ Hslot Hs'). by apply (granted_grants _ _ _ _ Hgroup).
  - destruct (proj1 (tier_published_elem _ _ _ _ _ _ _ c.(channel).(channel_id) c.(upstream_model) c.(weight) Hrt))
      as (rc & Hrc & Hd & Hroute); [by eauto|].
    exists rr, rt, rc. rewrite Ech, Emod. unfold describe_record in Hd. simplify_eq.
    split_and!; [done|done|apply Hpub|apply Hrt|done..].
  - match goal with Hx : allowed _ _ _ _ = true |- _ => unfold allowed in Hx end. breflect. by rewrite Eslot.
Qed.
End gateway.

(** The first key of the example reaches the channel of its group. *)
Module GatewayExample.
Import PublishExample.
Definition answer := select_with_affinity_excluding_capability RoutingExample.policy_digest 10 10
  RoutingExample.inner0 (snapshot_of channels published.1 AffinityExample.settings) key_a
  ApiOperation.Responses "model" None [] CapAny.
Definition routed : bool :=
  match answer with Some (_, Selected route) => bool_decide (route.(sr_channel).(channel_id) = 31%N) | _ => false end.
Lemma routed_31 : routed = true.
Proof. vm_compute. reflexivity. Qed.
End GatewayExample.

Lemma selected_route_granted_witness :
  ∃ inner' route, GatewayExample.answer = Some (inner', Selected route) ∧
    ∃ kr, kr ∈ PublishExample.keys ∧
      grants PublishExample.all_channels kr route.(sr_channel).(channel_id).
Proof.
  destruct (selected_route_granted CostExample.parse_policy PublishExample.digest_of PublishExample.secret_hash
    RoutingExample.policy_digest AffinityExample.no_key [PublishExample.rule] PublishExample.keys
    PublishExample.groups PublishExample.all_channels PublishExample.channels PublishExample.published.1
    PublishExample.published.2 1%N PublishExample.key_a AffinityExample.settings RoutingExample.inner0 []
    10 10 ApiOperation.Responses "model" None [] CapAny PublishExample.keyed PublishExample.run_ok
    PublishExample.key_a_ok RoutingExample.reached0) as (inner' & r & Hs & Hr).
  change (GatewayExample.answer = Some (inner', r)) in Hs. pose proof GatewayExample.routed_31 as Hx.
  unfold GatewayExample.routed in Hx. rewrite Hs in Hx. destruct r as [| |route]; [discriminate Hx..|].
  exists inner', route. split; [exact Hs|].
  destruct (Hr route eq_refl) as [(kr & Hkr & _ & _ & _ & Hg) _]. exists kr. split; [exact Hkr|exact Hg].
Defined.
