(* ===== verification/Keyword.v ===== *)
(** * Error keywords of upstream responses

    Models [ErrorKeywordMatcher] of [src/application/channel_automation.rs]: the
    error body of an upstream is searched, chunk by chunk, for the configured
    keywords that take a channel out of rotation.  The theorem relates the
    matcher with its rolling window to the unsplit text. *)

From S2P Require Import Prelude Text Json Usage ErrorText.
Open Scope gateway_scope.

Definition ERROR_KEYWORD_SCAN_LIMIT_BYTES : nat := Z.to_nat 65536.
Arguments ERROR_KEYWORD_SCAN_LIMIT_BYTES : simpl never.

(** ** Lower case

    The tables of Unicode.  [str::to_lowercase] maps each character by the
    table, except that a sigma at the end of a word becomes a final sigma. *)

Class UnicodeCase : Type := {
  to_lower : char → text;
  Cased : char → bool;
  Case_Ignorable : char → bool;
}.
Class UnicodeCaseLaws `{UnicodeCase} : Prop := {
  to_lower_bytes c d : d ∈ to_lower c → (length d ≤ 4)%nat;
}.

Definition SIGMA : char := ascii_z <$> [206; 163].
Definition small_sigma : char := ascii_z <$> [207; 131].
Definition final_sigma : char := ascii_z <$> [207; 130].

Section matcher.
Context `{UnicodeCase}.

Fixpoint case_ignorable_then_cased (t : text) : bool :=
  match t with
  | [] => false
  | c :: t => if Case_Ignorable c then case_ignorable_then_cased t else Cased c
  end.

(** [before]: the characters before the rest, the last one first. *)
Fixpoint lower_from (before t : text) : text :=
  match t with
  | [] => []
  | c :: t =>
      (if bool_decide (c = SIGMA)
       then [if case_ignorable_then_cased before && negb (case_ignorable_then_cased t) then final_sigma else small_sigma]
       else to_lower c) ++ lower_from (c :: before) t
  end.
Definition to_lowercase (t : text) : text := lower_from [] t.

(** ** Incremental decoding *)

(** [error_len() = None]: the bytes end within a character. *)
Definition incomplete (s : str) : bool :=
  let '(valid, n) := head_char s in
  negb valid && (n =? length s)%nat && in_range 194 244 (head s).

(** The characters of the longest valid prefix and the rest ([valid_up_to]). *)
Fixpoint valid_prefix (fuel : nat) (s : str) : text * str :=
  match fuel, s with
  | O, _ | _, [] => ([], s)
  | S fuel, _ =>
      let '(valid, n) := head_char s in
      if valid then let '(t, rest) := valid_prefix fuel (drop n s) in (take n s :: t, rest) else ([], s)
  end.

(** ** The matcher *)

Record ErrorKeywordMatcher := {
  keywords : list (text * text);   (** as configured and in lower case *)
  carry : str;
  rolling : text;
  rolling_limit : nat;
  remaining_bytes : nat;
}.

Definition new_keyword_matcher (enabled : bool) (configured : list text) : option ErrorKeywordMatcher :=
  if negb enabled || match configured with [] => true | _ => false end then None
  else
    let keywords := map (λ k, (k, to_lowercase k)) configured in
    Some {| keywords := keywords; carry := []; rolling := [];
            rolling_limit := Nat.max (4 * foldr Nat.max 0%nat (map (λ k, text_len k.2) keywords)) 16;
            remaining_bytes := ERROR_KEYWORD_SCAN_LIMIT_BYTES |}.

(** [str::contains] *)
Fixpoint contains (pat s : str) : bool :=
  starts_with pat s || match s with [] => false | _ :: s => contains pat s end.

(** Whole characters are dropped until the rest fits. *)
Fixpoint trim_to_suffix (maximum : nat) (t : text) : text :=
  match t with
  | [] => []
  | _ :: t' => if (text_len t <=? maximum)%nat then t else trim_to_suffix maximum t'
  end.

Definition with_rolling (m : ErrorKeywordMatcher) (carry : str) (rolling : text) (remaining : nat) : ErrorKeywordMatcher :=
  {| keywords := m.(keywords); carry := carry; rolling := rolling; rolling_limit := m.(rolling_limit);
     remaining_bytes := remaining |}.

Definition match_text (m : ErrorKeywordMatcher) (t : text) : ErrorKeywordMatcher * option text :=
  let rolling := m.(rolling) ++ to_lowercase t in
  let matched := fst <$> List.find (λ k, contains (concat k.2) (concat rolling)) m.(keywords) in
  (with_rolling m m.(carry) (trim_to_suffix m.(rolling_limit) rolling) m.(remaining_bytes), matched).

Definition set_carry (m : ErrorKeywordMatcher) (s : str) : ErrorKeywordMatcher :=
  with_rolling m s m.(rolling) m.(remaining_bytes).

(** The loop of [observe]; each turn but the last removes a byte of the carry. *)
Fixpoint scan_carry (fuel : nat) (m : ErrorKeywordMatcher) : ErrorKeywordMatcher * option text :=
  match fuel with
  | O => (m, None)
  | S fuel =>
      let '(t, rest) := valid_prefix (length m.(carry)) m.(carry) in
      match rest with
      | [] => match_text (set_carry m []) t
      | _ =>
          let '(m, matched) := match t with [] => (m, None) | _ => match_text m t end in
          match matched with
          | Some keyword => (set_carry m [], Some keyword)
          | None =>
              if incomplete rest then (set_carry m rest, None)
              else scan_carry fuel (set_carry m (drop (head_char rest).2 rest))
          end
      end
  end.

Definition keyword_observe (bytes : str) (m : ErrorKeywordMatcher) : ErrorKeywordMatcher * option text :=
  match m.(remaining_bytes), bytes with
  | O, _ | _, [] => (m, None)
  | _, _ =>
      let accepted := Nat.min (length bytes) m.(remaining_bytes) in
      let m := with_rolling m (m.(carry) ++ take accepted bytes) m.(rolling) (m.(remaining_bytes) - accepted) in
      scan_carry (S (length m.(carry))) m
  end.

(** The chunks of a body until a keyword is found, as the response is relayed. *)
Fixpoint keyword_observe_all (chunks : list str) (m : ErrorKeywordMatcher) : ErrorKeywordMatcher * option text :=
  match chunks with
  | [] => (m, None)
  | chunk :: chunks =>
      match keyword_observe chunk m with
      | (m, None) => keyword_observe_all chunks m
      | found => found
      end
  end.
End matcher.

(** ** Decoding in pieces *)

(** The characters of a text with its invalid bytes left out. *)
Fixpoint valid_chars_fuel (fuel : nat) (s : str) : text :=
  match fuel, s with
  | O, _ | _, [] => []
  | S fuel, _ => let '(valid, n) := head_char s in (if valid then [take n s] else []) ++ valid_chars_fuel fuel (drop n s)
  end.
Definition valid_chars (s : str) : text := valid_chars_fuel (length s) s.

Lemma head_char_pos c s : (0 < (head_char (c :: s)).2)%nat.
Proof. unfold head_char. destruct (second_range (byte c)). repeat case_match; simpl; lia. Qed.

Lemma head_char_app c s x : incomplete (c :: s) = false → head_char ((c :: s) ++ x) = head_char (c :: s).
Proof.
  unfold incomplete. simpl. destruct (second_range (byte c)) as [lo hi]. unfold in_range at 1 2 3 4 5 6.
  destruct (byte c <? 128); [done|]. intros Hi.
  destruct ((194 <=? byte c) && (byte c <=? 223)) eqn:E2.
  { destruct s as [|d s]; [|done]. simpl in Hi. exfalso. revert Hi E2. unfold in_range. breflect; lia. }
  destruct ((224 <=? byte c) && (byte c <=? 239)) eqn:E3.
  { destruct s as [|d [|d' s]]; [..|done]; simpl in *; [exfalso; revert Hi E3; unfold in_range; breflect; lia|].
    destruct ((lo <=? byte d) && (byte d <=? hi)); [|done]. exfalso; revert Hi E3; unfold in_range; simpl; breflect; lia. }
  destruct ((240 <=? byte c) && (byte c <=? 244)) eqn:E4; [|done].
  destruct s as [|d [|d' [|d'' s]]]; [..|done]; simpl in *; [exfalso; revert Hi E4; unfold in_range; breflect; lia|..].
  all: destruct ((lo <=? byte d) && (byte d <=? hi)); [|done].
  1: exfalso; revert Hi E4; unfold in_range; simpl; breflect; lia.
  destruct ((128 <=? byte d') && (byte d' <=? 191)); [|done]. exfalso; revert Hi E4; unfold in_range; simpl; breflect; lia.
Qed.

Lemma valid_chars_fuel_enough fuel s : (length s ≤ fuel)%nat → valid_chars_fuel fuel s = valid_chars s.
Proof.
  unfold valid_chars. assert (∀ n m s, (length s ≤ n)%nat → (length s ≤ m)%nat → valid_chars_fuel n s = valid_chars_fuel m s) as Hf.
  { induction n as [|n IH]; intros m t Hn Hm; destruct t as [|c t]; [by destruct m|simpl in Hn; lia|by destruct m|].
    destruct m as [|m]; [simpl in Hm; lia|]. pose proof (head_char_pos c t) as Hp. cbn [valid_chars_fuel].
    destruct (head_char (c :: t)) as [v k]. f_equal. apply IH; rewrite length_drop; simpl in *; lia. }
  intros Hl. by apply Hf.
Qed.

Lemma valid_chars_step c s : valid_chars (c :: s) =
  (if (head_char (c :: s)).1 then [take (head_char (c :: s)).2 (c :: s)] else []) ++ valid_chars (drop (head_char (c :: s)).2 (c :: s)).
Proof.
  pose proof (head_char_pos c s) as Hp. unfold valid_chars at 1. cbn [length valid_chars_fuel].
  destruct (head_char (c :: s)) as [v n]. simpl fst in *. simpl snd in *. f_equal.
  apply valid_chars_fuel_enough. rewrite length_drop. simpl in *. lia.
Qed.

Lemma valid_chars_incomplete s : incomplete s = true → valid_chars s = [].
Proof.
  unfold incomplete. destruct s as [|c s]; [done|]. rewrite valid_chars_step. destruct (head_char (c :: s)) as [v n]. simpl fst. simpl snd.
  intros [[Hv Hn]%andb_true_iff _]%andb_true_iff. apply Nat.eqb_eq in Hn. subst n. destruct v; [done|]. by rewrite drop_all.
Qed.

(** The part of a text that later bytes cannot change. *)
Definition settled (s d r : str) : Prop :=
  s = d ++ r ∧ (r = [] ∨ incomplete r = true) ∧ ∀ x, valid_chars (s ++ x) = valid_chars s ++ valid_chars (r ++ x).

Lemma head_char_bound c s : ((head_char (c :: s)).2 ≤ length (c :: s))%nat.
Proof.
  unfold head_char. destruct (second_range (byte c)) as [lo hi].
  destruct s as [|d [|d' [|d'' s]]]; simpl; repeat case_match; simpl in *; lia || done.
Qed.

Lemma settled_step c s r d : incomplete (c :: s) = false →
  settled (drop (head_char (c :: s)).2 (c :: s)) d r → settled (c :: s) (take (head_char (c :: s)).2 (c :: s) ++ d) r.
Proof.
  intros Hi (E & Hr & Hx). pose proof (head_char_bound c s) as Hb. split_and!; [|done|].
  - by rewrite <- app_assoc, <- E, take_drop.
  - intros x. rewrite (valid_chars_step c s), <- app_assoc, <- Hx.
    change ((c :: s) ++ x) with (c :: (s ++ x)). rewrite (valid_chars_step c (s ++ x)).
    change (c :: s ++ x) with ((c :: s) ++ x). rewrite head_char_app by done.
    by rewrite take_app_le, drop_app_le by done.
Qed.

Lemma settled_nil r : incomplete r = true → settled r [] r.
Proof. intros Hi. split_and!; [done|by right|]. intros x. by rewrite (valid_chars_incomplete r). Qed.

Lemma incomplete_invalid s : incomplete s = true → (head_char s).1 = false.
Proof. unfold incomplete. destruct (head_char s) as [[] n]; [|done]. by rewrite !andb_false_l. Qed.

Lemma valid_prefix_ok fuel s t rest : (length s ≤ fuel)%nat → valid_prefix fuel s = (t, rest) →
  valid_chars s = t ++ valid_chars rest ∧ (length rest ≤ length s)%nat ∧ (rest = [] ∨ (head_char rest).1 = false)
  ∧ ∀ d r, settled rest d r → ∃ d', settled s d' r.
Proof.
  revert s t. induction fuel as [|fuel IH]; intros s t Hl E; (destruct s as [|c s]; [|try (simpl in Hl; lia)]).
  1,2: injection E as <- <-; split_and!; [done|done|by left|intros d r H; by exists d].
  cbn [valid_prefix] in E. pose proof (head_char_pos c s) as Hp. pose proof (valid_chars_step c s) as Hs.
  destruct (head_char (c :: s)) as [[] n] eqn:Eh; simpl fst in *; simpl snd in *.
  - destruct (valid_prefix fuel (drop n (c :: s))) as [t' rest'] eqn:E'. injection E as <- <-.
    apply IH in E' as (Hv & Hle & Hr & Hsettle); [|rewrite length_drop; simpl in *; lia].
    split_and!; [by rewrite Hs, Hv|rewrite length_drop in Hle; lia|done|].
    intros d r [d' Hd]%Hsettle. exists (take n (c :: s) ++ d').
    pose proof (settled_step c s r d') as Hstep. rewrite Eh in Hstep. simpl in Hstep. apply Hstep; [|done].
    apply not_true_iff_false. intros Hi%incomplete_invalid. by rewrite Eh in Hi.
  - injection E as <- <-. split_and!; [done|done|right; by rewrite Eh|intros d r H; by exists d].
Qed.

(** ** The rolling window *)

Lemma contains_true pat s : contains pat s = true ↔ ∃ u v, s = u ++ pat ++ v.
Proof.
  induction s as [|c s IH]; simpl.
  - rewrite orb_false_r, starts_with_true. split; [intros [v Hv]; by exists [], v|].
    intros (u & v & E). symmetry in E. apply app_nil in E as [-> E]. by exists v.
  - rewrite orb_true_iff, starts_with_true, IH. split.
    + intros [[v Hv]|(u & v & ->)]; [by exists [], v|by exists (c :: u), v].
    + intros ([|d u] & v & E); [left; by exists v|right]. injection E as -> E. by exists u, v.
Qed.

Lemma contains_infix pat u s v : contains pat s = true → contains pat (u ++ s ++ v) = true.
Proof. rewrite !contains_true. intros (a & b & ->). exists (u ++ a), (b ++ v). by rewrite <- !app_assoc. Qed.

(** Whatever is new in [d ++ r ++ x] starts in [r]. *)
Lemma contains_window pat d r x : contains pat (d ++ r) = false → (length pat ≤ length r + 1)%nat ∨ d = [] →
  contains pat (d ++ r ++ x) = contains pat (r ++ x).
Proof.
  intros Hn Hw. destruct (contains pat (r ++ x)) eqn:E.
  - rewrite <- (app_nil_r (r ++ x)). by apply contains_infix.
  - apply not_true_iff_false. intros (u & v & Eq)%contains_true. destruct Hw as [Hw| ->].
    2: { apply not_true_iff_false in E. apply E, contains_true. by exists u, v. }
    destruct (decide (length u < length d)%nat) as [Hlt|Hge].
    + apply not_true_iff_false in Hn. apply Hn, contains_true.
      assert (d ++ r = take (length (d ++ r)) (u ++ pat ++ v)) as ->.
      { by rewrite <- Eq, app_assoc, take_app_length. }
      rewrite app_assoc, take_app_ge by (rewrite !length_app; lia). eexists u, _. by rewrite <- app_assoc.
    + apply not_true_iff_false in E. apply E, contains_true. exists (drop (length d) u), v.
      rewrite <- (drop_app_length d (r ++ x)), Eq. rewrite drop_app_le by lia. done.
Qed.

Lemma trim_to_suffix_ok maximum t : Forall (λ c : char, (length c ≤ 4)%nat) t →
  ∃ d, t = d ++ trim_to_suffix maximum t ∧ (d = [] ∨ (maximum < text_len (trim_to_suffix maximum t) + 4)%nat).
Proof.
  induction t as [|c t IH]; intros Hb; [by exists []; split; [|left]|].
  cbn [trim_to_suffix]. destruct (text_len (c :: t) <=? maximum)%nat eqn:E; [by exists []; split; [|left]|].
  apply Forall_cons in Hb as [Hc Hb]. destruct (IH Hb) as (d & Ed & Hd). exists (c :: d). split; [by rewrite Ed at 1|right].
  destruct Hd as [->|Hd]; [|done]. rewrite app_nil_l in Ed. rewrite <- Ed. apply Nat.leb_gt in E.
  unfold text_len in *. simpl in E. rewrite length_app in E. lia.
Qed.

(** ** The search *)

Section search.
Context `{UC : UnicodeCase, UL : !UnicodeCaseLaws}.
Implicit Types (m : ErrorKeywordMatcher) (t : text).

Definition lower t : text := flat_map to_lower t.

Lemma to_lowercase_plain t : SIGMA ∉ t → to_lowercase t = lower t.
Proof.
  unfold to_lowercase, lower. generalize (@nil char). induction t as [|c t IH]; intros before Hs; [done|].
  apply not_elem_of_cons in Hs as [Hc Hs]. simpl. rewrite bool_decide_false by done. by rewrite IH.
Qed.

Lemma lower_app t t' : lower (t ++ t') = lower t ++ lower t'.
Proof. apply flat_map_app. Qed.

Lemma lower_bytes t : Forall (λ c : char, (length c ≤ 4)%nat) (lower t).
Proof.
  apply Forall_forall. intros c Hc. unfold lower in Hc. apply list_elem_of_In, in_flat_map in Hc as (d & _ & Hd%list_elem_of_In).
  by apply to_lower_bytes in Hd.
Qed.

(** The keyword occurs in the text. *)
Definition occurs (kw : text) (L : text) : bool := contains (concat kw) (concat L).

Definition same_keywords m m' : Prop := m'.(keywords) = m.(keywords) ∧ m'.(rolling_limit) = m.(rolling_limit).

Record searched m (L : text) : Prop := {
  searched_limit k : k ∈ m.(keywords) → (4 * text_len k.2 ≤ m.(rolling_limit))%nat;
  searched_window : ∃ d, L = d ++ m.(rolling) ∧ (d = [] ∨ (m.(rolling_limit) < text_len m.(rolling) + 4)%nat);
  searched_chars : Forall (λ c : char, (length c ≤ 4)%nat) L;
  searched_none k : k ∈ m.(keywords) → occurs k.2 L = false;
}.

Definition found m (L : text) (r : option text) : Prop :=
  match r with Some k => ∃ kl, (k, kl) ∈ m.(keywords) ∧ occurs kl L = true | None => True end.

Lemma occurs_rolling m L t k : searched m L → k ∈ m.(keywords) → occurs k.2 (L ++ lower t) = contains (concat k.2) (concat (m.(rolling) ++ lower t)).
Proof.
  intros [Hl (d & -> & Hd) _ Hn] Hk. specialize (Hl k Hk). specialize (Hn k Hk). unfold occurs, text_len in *.
  rewrite !concat_app in *. rewrite <- app_assoc. apply contains_window; [done|]. destruct Hd as [->|Hd]; [by right|left].
  unfold text_len in Hd. lia.
Qed.

Lemma match_text_ok m L t m' r : searched m L → SIGMA ∉ t → match_text m t = (m', r) →
  m'.(carry) = m.(carry) ∧ m'.(remaining_bytes) = m.(remaining_bytes) ∧ same_keywords m m'
  ∧ found m (L ++ lower t) r ∧ (r = None → searched m' (L ++ lower t)).
Proof.
  intros Hs Ht E. unfold match_text in E. rewrite to_lowercase_plain in E by done. injection E as <- <-.
  split_and!; try done.
  - destruct (List.find _ _) as [[k kl]|] eqn:Ef; [|done]. apply List.find_some in Ef as [Hin%list_elem_of_In Hc].
    exists kl. split; [done|]. rewrite <- Hc. apply (occurs_rolling m L t (k, kl) Hs Hin).
  - destruct (List.find _ _) as [k|] eqn:Ef; [done|]. intros _.
    assert (Forall (λ c : char, (length c ≤ 4)%nat) (L ++ lower t)) as Hb.
    { apply Forall_app. split; [apply Hs|apply lower_bytes]. }
    destruct (searched_window _ _ Hs) as (d & Ed & Hd).
    assert (Forall (λ c : char, (length c ≤ 4)%nat) (m.(rolling) ++ lower t)) as Hb'.
    { rewrite Ed, <- app_assoc in Hb. by apply Forall_app in Hb as [_ ?]. }
    destruct (trim_to_suffix_ok m.(rolling_limit) _ Hb') as (d' & Ed' & Hd'). split; simpl.
    + apply Hs.
    + exists (d ++ d'). split; [by rewrite <- app_assoc, <- Ed', Ed, <- app_assoc|]. destruct Hd' as [->|?]; [|by right].
      destruct Hd as [->|Hd]; [by left|right]. rewrite app_nil_l in Ed'. rewrite <- Ed'. rewrite text_len_app. lia.
    + done.
    + intros k Hk. rewrite (occurs_rolling m L t k Hs Hk).
      apply (List.find_none _ _ Ef), list_elem_of_In. done.
Qed.

Lemma occurs_app kw L L' : occurs kw L = true → occurs kw (L ++ L') = true.
Proof. unfold occurs. rewrite concat_app. intros Hc. apply (contains_infix _ [] _ (concat L') Hc). Qed.

Lemma found_app m L L' r : found m L r → found m (L ++ L') r.
Proof. destruct r as [k|]; [|done]. intros (kl & Hk & Ho). exists kl. split; [done|by apply occurs_app]. Qed.

Lemma found_same m m' L r : same_keywords m m' → found m' L r → found m L r.
Proof. intros [E _]. unfold found. by rewrite E. Qed.

Lemma searched_carry m L s n : searched m L → searched (with_rolling m s m.(rolling) n) L.
Proof. intros [? ? ? ?]. by split. Qed.

Lemma scan_carry_ok fuel m L m' r : searched m L → SIGMA ∉ valid_chars m.(carry) → (length m.(carry) < fuel)%nat →
  scan_carry fuel m = (m', r) →
  same_keywords m m' ∧ m'.(remaining_bytes) = m.(remaining_bytes)
  ∧ found m (L ++ lower (valid_chars m.(carry))) r
  ∧ (r = None → searched m' (L ++ lower (valid_chars m.(carry))) ∧ ∃ d, settled m.(carry) d m'.(carry)).
Proof.
  revert m L. induction fuel as [|fuel IH]; intros m L Hs Hsig Hf E; [lia|]. cbn [scan_carry] in E.
  destruct (valid_prefix _ _) as [t rest] eqn:Ep. apply valid_prefix_ok in Ep as (Hv & Hle & Hrest & Hsettle); [|done].
  rewrite Hv in *. apply not_elem_of_app in Hsig as [Hst Hsr]. destruct rest as [|c rest].
  { apply (match_text_ok (set_carry m []) L) in E as (Hc & Hr & Hk & Hfd & Hn); [|by apply searched_carry|done].
    rewrite app_nil_r. split_and!; [done|done|done|]. intros ->. split; [by apply Hn|].
    rewrite Hc. simpl. apply (Hsettle [] []). split_and!; [done|by left|done]. }
  destruct Hrest as [?|Hinv]; [done|].
  assert (∃ m1 matched, (match t with [] => (m, None) | _ => match_text m t end) = (m1, matched)
    ∧ m1.(remaining_bytes) = m.(remaining_bytes) ∧ same_keywords m m1 ∧ found m (L ++ lower t) matched
    ∧ (matched = None → searched m1 (L ++ lower t))) as (m1 & matched & Em & Hr1 & Hk1 & Hf1 & Hs1).
  { destruct t as [|c' t]; [exists m, None; unfold lower; simpl; rewrite app_nil_r; done|].
    destruct (match_text m (c' :: t)) as [m1 matched] eqn:Em. apply (match_text_ok m L) in Em as (_ & ? & ? & ? & ?); [|done|done].
    by exists m1, matched. }
  rewrite Em in E. rewrite lower_app, app_assoc. destruct matched as [k|].
  { injection E as <- <-. split_and!; [done|done|by apply found_app|done]. }
  specialize (Hs1 eq_refl). destruct (incomplete (c :: rest)) eqn:Ei.
  - injection E as <- <-. rewrite (valid_chars_incomplete _ Ei). unfold lower at 2. simpl. rewrite app_nil_r.
    split_and!; [done|done|done|]. intros _. split; [by apply searched_carry|]. apply (Hsettle []). by apply settled_nil.
  - pose proof (head_char_pos c rest) as Hp. pose proof (valid_chars_step c rest) as Hstep. rewrite Hinv in Hstep. simpl app in Hstep.
    apply (IH _ (L ++ lower t)) in E as (Hk2 & Hr2 & Hf2 & Hn2); simpl in *; [|by apply searched_carry|by rewrite <- Hstep|rewrite length_drop; simpl; lia].
    rewrite <- Hstep in *. split_and!.
    + destruct Hk1 as [A1 B1], Hk2 as [A2 B2]. simpl in *. split; by etrans.
    + by etrans.
    + by apply (found_same m m1).
    + intros Hnone. destruct (Hn2 Hnone) as [Hs2 [d Hd]]. split; [done|]. eapply Hsettle, settled_step; done.
Qed.

Lemma settled_exists s : ∃ d r, settled s d r.
Proof.
  induction s as [s IH] using (induction_ltof1 _ (@length _)). unfold ltof in IH. destruct s as [|c s].
  { exists [], []. split_and!; [done|by left|done]. }
  destruct (incomplete (c :: s)) eqn:Ei; [exists [], (c :: s); by apply settled_nil|].
  destruct (IH (drop (head_char (c :: s)).2 (c :: s))) as (d & r & H).
  { pose proof (head_char_pos c s). rewrite length_drop. simpl in *. lia. }
  eexists _, r. by apply settled_step.
Qed.

Lemma valid_chars_prefix s x : ∃ t, valid_chars (s ++ x) = valid_chars s ++ t.
Proof. destruct (settled_exists s) as (d & r & _ & _ & H). eexists. apply H. Qed.

Lemma settled_app u d c x d' c' : settled u d c → settled (c ++ x) d' c' → settled (u ++ x) (d ++ d') c'.
Proof.
  intros (-> & _ & Hu) (E & Hc & Hx). split_and!; [by rewrite <- !app_assoc, <- E|done|].
  intros y. by rewrite <- (app_assoc _ x y), Hu, Hu, app_assoc, Hx, app_assoc.
Qed.

(** What the matcher knows of the first bytes [u] of a body. *)
Record scanned m (u : str) : Prop := {
  scanned_text : searched m (lower (valid_chars u));
  scanned_carry : ∃ d, settled u d m.(carry);
  scanned_length : (m.(remaining_bytes) + length u = ERROR_KEYWORD_SCAN_LIMIT_BYTES)%nat;
}.
Abbreviation limited := (take ERROR_KEYWORD_SCAN_LIMIT_BYTES).

Lemma keyword_observe_ok m u chunk m' r : scanned m u → SIGMA ∉ valid_chars (limited (u ++ chunk)) →
  keyword_observe chunk m = (m', r) →
  same_keywords m m' ∧ found m (lower (valid_chars (limited (u ++ chunk)))) r ∧ (r = None → scanned m' (limited (u ++ chunk))).
Proof.
  intros Hscan Hsig E. pose proof Hscan as [Hs [d Hd] Hl].
  rewrite (take_app_ge u chunk) in * by lia. replace (ERROR_KEYWORD_SCAN_LIMIT_BYTES - length u)%nat with m.(remaining_bytes) in * by lia.
  unfold keyword_observe in E.
  assert (m.(remaining_bytes) = 0%nat ∨ chunk = [] → (m', r) = (m, None) → same_keywords m m'
    ∧ found m (lower (valid_chars (u ++ take m.(remaining_bytes) chunk))) r ∧ (r = None → scanned m' (u ++ take m.(remaining_bytes) chunk))) as Hidle.
  { intros Hz [= -> ->]. assert (take m.(remaining_bytes) chunk = []) as -> by (destruct Hz as [->| ->]; [done|by rewrite take_nil]).
    by rewrite app_nil_r. }
  destruct (m.(remaining_bytes)) as [|n] eqn:En; [apply Hidle; [by left|done]|].
  destruct chunk as [|c chunk]; [apply Hidle; [by right|done]|]. clear Hidle. rewrite <- En in *. clear n En.
  set (x := take m.(remaining_bytes) (c :: chunk)) in *. revert E. cbv zeta.
  assert (take (Nat.min (length (c :: chunk)) m.(remaining_bytes)) (c :: chunk) = x) as ->.
  { unfold x. destruct (Nat.min_spec (length (c :: chunk)) m.(remaining_bytes)) as [[? ->]|[? ->]]; [|done]. rewrite !take_ge; [done|lia|done]. }
  intros E. pose proof (proj2 (proj2 Hd) x) as Hx. rewrite Hx, lower_app in *. apply not_elem_of_app in Hsig as [_ Hsig].
  apply (scan_carry_ok _ _ (lower (valid_chars u))) in E as (Hk & Hr & Hf & Hn); cbn [carry remaining_bytes keywords rolling_limit with_rolling rolling] in *; [|by apply searched_carry|done|lia].
  split_and!; [done|done|]. intros Hnone. destruct (Hn Hnone) as [Hs' [d' Hd']]. split.
  - by rewrite Hx, lower_app.
  - exists (d ++ d'). by eapply settled_app.
  - rewrite Hr, length_app. unfold x. rewrite length_take. lia.
Qed.

Lemma keyword_observe_all_ok m u chunks : scanned m u → SIGMA ∉ valid_chars (limited (u ++ concat chunks)) →
  (length u ≤ ERROR_KEYWORD_SCAN_LIMIT_BYTES)%nat →
  let body := lower (valid_chars (limited (u ++ concat chunks))) in
  match (keyword_observe_all chunks m).2 with
  | Some k => found m body (Some k)
  | None => ∀ k, k ∈ m.(keywords) → occurs k.2 body = false
  end.
Proof.
  revert m u. induction chunks as [|chunk chunks IH]; intros m u Hs Hsig Hlen; simpl.
  { rewrite app_nil_r, take_ge by done. apply Hs. }
  destruct (keyword_observe chunk m) as [m' r] eqn:E. simpl in *.
  assert (limited (u ++ chunk ++ concat chunks) = limited (limited (u ++ chunk) ++ concat chunks)) as Eq.
  { rewrite app_assoc. destruct (decide (length (u ++ chunk) ≤ ERROR_KEYWORD_SCAN_LIMIT_BYTES)%nat) as [Hle|Hgt].
    - by rewrite (take_ge (u ++ chunk)).
    - rewrite (take_app_le (u ++ chunk)) by lia. rewrite (take_app_le (limited (u ++ chunk))); [by rewrite take_take, Nat.min_id|rewrite length_take; lia]. }
  assert (∃ y, limited (u ++ chunk ++ concat chunks) = limited (u ++ chunk) ++ y) as [y Hy].
  { rewrite app_assoc, take_app. by eexists. }
  destruct (valid_chars_prefix (limited (u ++ chunk)) y) as [t Ht]. rewrite <- Hy in Ht.
  apply (keyword_observe_ok m u) in E as (Hk & Hf & Hn); [|done|rewrite Ht in Hsig; by apply not_elem_of_app in Hsig as [? _]].
  destruct r as [k|]; simpl.
  - rewrite Ht, lower_app. by apply (found_app m _ _ (Some k)).
  - rewrite Eq in *. specialize (IH m' (limited (u ++ chunk)) (Hn eq_refl) Hsig ltac:(rewrite length_take; lia)). simpl in IH.
    destruct Hk as [Ek _]. destruct (keyword_observe_all chunks m').2; unfold found in *; by rewrite Ek in IH.
Qed.

(** C23: The search for error keywords does not depend on how the body of an
    upstream is cut into chunks: a keyword is reported if and only if one occurs,
    in lower case and with invalid bytes left out, in the first 64 KiB of the
    body, although only a short window of the text is kept.  Bodies with a
    capital sigma are excluded: its lower case depends on what follows. *)
Theorem keyword_search_exact (enabled : bool) (configured : list text) m (chunks : list str)
    (Hnew : new_keyword_matcher enabled configured = Some m)
    (Hblank : Forall (λ k, concat (to_lowercase k) ≠ []) configured)
    (Hsigma : SIGMA ∉ valid_chars (take ERROR_KEYWORD_SCAN_LIMIT_BYTES (concat chunks))) :
  let body := to_lowercase (valid_chars (take ERROR_KEYWORD_SCAN_LIMIT_BYTES (concat chunks))) in
  match (keyword_observe_all chunks m).2 with
  | Some k => k ∈ configured ∧ occurs (to_lowercase k) body = true
  | None => ∀ k, k ∈ configured → occurs (to_lowercase k) body = false
  end.
Proof.
  cbv zeta. rewrite to_lowercase_plain by done. unfold new_keyword_matcher in Hnew. destruct (_ || _); [done|]. injection Hnew as Hm.
  assert (m.(keywords) = map (λ k, (k, to_lowercase k)) configured) as Hk by by rewrite <- Hm.
  assert (scanned m []) as Hinit.
  { rewrite <- Hm. split; [|exists []; split_and!; [done|by left|done]|apply Nat.add_0_r]. split; cbn [keywords rolling rolling_limit].
    - intros k Hk'. assert (text_len k.2 ≤ foldr Nat.max 0 (map (λ k : text * text, text_len k.2) (map (λ k, (k, to_lowercase k)) configured)))%nat; [|lia].
      clear -Hk'. induction Hk'; simpl; lia.
    - exists []. split; [done|by left].
    - constructor.
    - intros k (k0 & -> & Hin)%list_elem_of_fmap. simpl. rewrite Forall_forall in Hblank. simpl. unfold occurs.
      apply not_true_iff_false. intros (a & b & E)%contains_true. symmetry in E. apply app_nil in E as [_ [E _]%app_nil]. by apply (Hblank k0). }
  pose proof (keyword_observe_all_ok m [] chunks Hinit Hsigma ltac:(apply Nat.le_0_l)) as H. cbv zeta in H. rewrite app_nil_l in H.
  destruct (keyword_observe_all chunks m).2 as [k|]; simpl in H.
  - destruct H as (kl & Hin & Ho). rewrite Hk in Hin. by apply list_elem_of_fmap in Hin as (k0 & [= -> ->] & Hin).
  - intros k Hin. apply (H (k, to_lowercase k)). rewrite Hk. apply list_elem_of_fmap. by exists k.
Qed.
End search.
