(* ===== verification/Outcome.v ===== *)
(** * Errors and outcomes of a proxied request

    Models the error type of [src/application/proxy.rs], which becomes the
    response of a refused request, and [RequestOutcome], which becomes the
    outcome, status and error of the request log. *)

From S2P Require Import Prelude Text Json Usage ErrorText Cost Headers JsonPatch RequestPolicy Outbound Multipart ImageBody ImageEdit.
Open Scope gateway_scope.

(** ** Errors *)

Record ProxyError := {
  pe_status : Z;
  pe_message : string;
  pe_error_type : string;
  pe_param : option string;
  pe_code : option string;
  pe_authenticate : bool;
  pe_retry_after : option Z;
}.

(** The constructors differ in status, message, type, parameter and code. *)
Definition proxy_error (status : Z) (message type : string) (param code : option string) : ProxyError :=
  {| pe_status := status; pe_message := message; pe_error_type := type; pe_param := param; pe_code := code;
     pe_authenticate := false; pe_retry_after := None |}.

Definition request_log_unavailable : ProxyError :=
  proxy_error 503 "Request logging is temporarily unavailable." "api_error" None (Some "request_log_unavailable").
Definition invalid_api_key : ProxyError :=
  {| pe_status := 401; pe_message := "Invalid or missing API key."; pe_error_type := "authentication_error";
     pe_param := None; pe_code := Some "invalid_api_key"; pe_authenticate := true; pe_retry_after := None |}.
Definition forbidden (message : string) : ProxyError :=
  proxy_error 403 message "permission_error" None (Some "permission_denied").
Definition payload_too_large : ProxyError :=
  proxy_error 413 "Request body exceeds the configured size limit." "invalid_request_error" None (Some "request_too_large").
Definition request_content_encoding_unsupported : ProxyError :=
  proxy_error 415 "Request body content encoding is unsupported. POST /v1/responses accepts identity or zstd; other JSON endpoints accept identity only."
    "invalid_request_error" (Some "content_encoding") (Some "request_content_encoding_unsupported").
Definition request_content_encoding_invalid : ProxyError :=
  proxy_error 400 "The zstd-compressed Responses request body could not be decoded." "invalid_request_error" (Some "body")
    (Some "request_content_encoding_invalid").
Definition upstream_request_encoding_failed : ProxyError :=
  proxy_error 502 "The selected upstream request body could not be compressed." "api_error" None
    (Some "upstream_request_encoding_failed").

Definition invalid_request_with_code (message param code : string) : ProxyError :=
  proxy_error 400 message "invalid_request_error" (Some param) (Some code).
Definition invalid_request (message param : string) : ProxyError := invalid_request_with_code message param "invalid_request".
Definition request_policy_error (e : RequestPolicyError) : ProxyError :=
  proxy_error 400 (RequestPolicy.error_message e) "invalid_request_error" (Some (RequestPolicy.error_param e)) (Some (RequestPolicy.error_code e)).
Definition transform_failed : ProxyError := invalid_request "Request transform could not be applied." "body".
Definition response_transform_failed : ProxyError :=
  proxy_error 502 "Upstream response transform could not be applied." "api_error" None (Some "response_transform_failed").
Definition unsupported_upstream_content_encoding : ProxyError :=
  proxy_error 502 "The upstream response used an unsupported content encoding." "api_error" None
    (Some "upstream_content_encoding_unsupported").
Definition unknown_model (model : string) : ProxyError :=
  proxy_error 404 ("The model `" +:+ model +:+ "` does not exist or is unavailable.") "invalid_request_error" (Some "model")
    (Some "model_not_found").
Definition upstream_unavailable : ProxyError :=
  proxy_error 502 "The selected upstream channel could not be reached." "api_error" None (Some "upstream_unavailable").

(** The status, message, parameter and code of a refused image edit. *)
Definition image_edit_error (e : ImageEditBodyError) : Z * string * string * string :=
  match e with
  | PolicyRejected e => (400, RequestPolicy.error_message e, RequestPolicy.error_param e, RequestPolicy.error_code e)
  | StoreFailed BodyTooLarge =>
      (413, "Images edit request body exceeds the configured size limit.", "body", "request_too_large")
  | FileTooLarge => (413, "An Images edit file exceeds the configured size limit.", "image", "image_edit_file_too_large")
  | TextFieldTooLarge =>
      (413, "Images edit text fields exceed the supported size limits.", "body", "image_edit_field_too_large")
  | UnsupportedContentType =>
      (415, "Images edits require multipart/form-data with a valid boundary.", "content_type", "image_edit_content_type_unsupported")
  | UnsupportedContentEncoding =>
      (415, "Images edits do not support encoded request bodies.", "content_encoding", "image_edit_content_encoding_unsupported")
  | TooManyFields => (400, "Images edit multipart body contains too many fields.", "body", "image_edit_too_many_fields")
  | FieldNameTooLong => (400, "Images edit multipart field name is too long.", "body", "image_edit_field_name_too_long")
  | FileNameTooLong => (400, "Images edit multipart file name is too long.", "image", "image_edit_file_name_too_long")
  | UnexpectedFileField =>
      (400, "Images edit file fields must be named image, image[], or mask.", "body", "image_edit_file_field_unsupported")
  | TooManyImages => (400, "Images edits support at most 16 input images.", "image", "image_edit_too_many_images")
  | TooManyMasks => (400, "Images edits support at most one mask.", "mask", "image_edit_too_many_masks")
  | MissingImage => (400, "Images edit request must contain at least one image.", "image", "image_edit_image_required")
  | MissingModel | InvalidModel | InvalidJson => (400, "Request body must contain a string model.", "model", "invalid_request")
  | DuplicateModel => (400, "Images edit request must contain exactly one model field.", "model", "image_edit_duplicate_model")
  | EmptyModel => (400, "Request body must contain a non-empty model.", "model", "invalid_request")
  | ModelTooLong => (400, "Request model exceeds the supported length.", "model", "invalid_request")
  | StreamingUnsupported => (400, "Image API streaming is not supported yet.", "stream", "image_streaming_unsupported")
  | JsonTransformUnsupported =>
      (400, "Images edit multipart bodies do not support request JSON transforms.", "body", "image_edit_json_transform_unsupported")
  | CodexTooManyImages =>
      (400, "Codex OAuth Images edits support at most five input images.", "image", "codex_image_edit_too_many_images")
  | CodexMissingField =>
      (400, "Codex OAuth Images edit request is missing a required field.", "body", "codex_image_edit_field_required")
  | CodexDuplicateField =>
      (400, "Codex OAuth Images edit request contains a duplicate field.", "body", "codex_image_edit_duplicate_field")
  | CodexInvalidField =>
      (400, "Codex OAuth Images edit request contains an invalid field value.", "body", "codex_image_edit_field_invalid")
  | CodexImageContentType =>
      (400, "Codex OAuth Images edit inputs require a recognized image content type.", "image", "codex_image_edit_content_type_required")
  | Unreadable | MalformedMultipart =>
      (400, "Images edit multipart body could not be read.", "body", "image_edit_multipart_invalid")
  | StoreFailed StorageUnavailable =>
      (503, "Images edit request storage is temporarily unavailable.", "body", "image_body_spool_unavailable")
  end.

Definition is_server_error (status : Z) : bool := (500 <=? status) && (status <? 600).
Definition is_client_error (status : Z) : bool := (400 <=? status) && (status <? 500).
Definition is_success (status : Z) : bool := (200 <=? status) && (status <? 300).

Definition image_edit_body (e : ImageEditBodyError) : ProxyError :=
  let '(status, message, param, code) := image_edit_error e in
  proxy_error status message (if is_server_error status then "api_error" else "invalid_request_error") (Some param) (Some code).

(** [ConnectorAttemptError] with the errors of a request body. *)
Inductive AttemptError :=
| ClientRequest (message param code : string)
| RequestBody (e : ImageEditBodyError)
| ConnectorError (e : ConnectorAttemptError).

Definition connector_attempt (e : AttemptError) : ProxyError :=
  match e with
  | ClientRequest message param code => proxy_error 400 message "invalid_request_error" (Some param) (Some code)
  | RequestBody e => image_edit_body e
  | ConnectorError InvalidTarget =>
      proxy_error 502 "The selected upstream channel has an invalid target URL." "api_error" None (Some "invalid_upstream_url")
  | ConnectorError InvalidCredentials =>
      proxy_error 502 "The selected upstream connector has invalid credentials." "api_error" None (Some "invalid_upstream_credentials")
  end.

Inductive CodexCredentialUnavailable := CodexMissing | CodexDraining | CodexUnavailable | CodexDisabled | CodexExpired.
Inductive ConnectorUnavailable := ConnectorMissing | ConnectorCodex (reason : CodexCredentialUnavailable).

Definition unavailable_code (reason : ConnectorUnavailable) : string :=
  match reason with
  | ConnectorMissing => "upstream_connector_missing"
  | ConnectorCodex CodexMissing => "codex_credential_missing"
  | ConnectorCodex CodexDraining => "codex_credential_draining"
  | ConnectorCodex CodexUnavailable => "codex_credential_unavailable"
  | ConnectorCodex CodexDisabled => "codex_credential_disabled"
  | ConnectorCodex CodexExpired => "codex_credential_expired"
  end.
Definition sticky_code (reason : ConnectorUnavailable) : string :=
  match reason with
  | ConnectorCodex _ => "codex_sticky_credential_unavailable"
  | ConnectorMissing => "upstream_connector_sticky_unavailable"
  end.

Definition connector_unavailable (reason : ConnectorUnavailable) : ProxyError :=
  proxy_error 503 "The selected upstream connector is currently unavailable." "api_error" None (Some (unavailable_code reason)).
Definition sticky_connector_unavailable (reason : ConnectorUnavailable) : ProxyError :=
  proxy_error 503 "The upstream connector pinned to this session is currently unavailable." "api_error" None
    (Some (sticky_code reason)).
Definition response_header_timeout : ProxyError :=
  proxy_error 504 "The selected upstream channel did not return response headers in time." "api_error" None
    (Some "response_header_timeout").
Definition connect_timeout : ProxyError :=
  proxy_error 504 "The selected upstream channel could not be connected in time." "api_error" None (Some "connect_timeout").
Definition no_healthy_channel : ProxyError :=
  proxy_error 503 "No healthy upstream channel is currently available for this model." "api_error" None (Some "no_healthy_channel").
Definition rate_limited (retry_after : Z) : ProxyError :=
  {| pe_status := 429; pe_message := "Request rate limit exceeded."; pe_error_type := "rate_limit_error"; pe_param := None;
     pe_code := Some "rate_limit_exceeded"; pe_authenticate := false; pe_retry_after := Some retry_after |}.
Definition concurrent_limited : ProxyError :=
  proxy_error 429 "Concurrent request limit exceeded." "rate_limit_error" None (Some "concurrent_limit_exceeded").
Definition insufficient_quota : ProxyError :=
  proxy_error 429 "Quota has been exhausted." "insufficient_quota" None (Some "insufficient_quota").

(** [json!] of an optional text. *)
Definition json_text (v : option string) : Json := match v with Some s => JString s | None => JNull end.

Section details.
Context `{JsonText}.

Definition error_json (e : ProxyError) : Json :=
  JObject [("error", JObject [("code", json_text e.(pe_code)); ("message", JString e.(pe_message));
                              ("param", json_text e.(pe_param)); ("type", JString e.(pe_error_type))])].

Definition request_log_details (e : ProxyError) : ResponseErrorDetails := extract_response_error (error_json e).

(** [source]: the rendered chain of the source error. *)
Definition proxy_error_with_source (e : ProxyError) (source : string) : ResponseErrorDetails :=
  let base := match (request_log_details e).(err_summary) with Some t => t | None => chars (bytes_of e.(pe_message)) end in
  from_message ((λ c, chars (bytes_of c)) <$> e.(pe_code))
    (base ++ [ErrorText.LF; ErrorText.LF] ++ chars (bytes_of "Source error chain:") ++ [ErrorText.LF] ++ chars (bytes_of source)).
End details.

(** ** Outcomes *)

Inductive RequestOutcome :=
| OutSucceeded
| OutUpstreamHttpError
| OutUpstreamSseError
| OutWebSocketUnavailable
| OutWebSocketStateLost
| OutConnectTimeout
| OutResponseHeaderTimeout
| OutUpstreamUnavailable
| OutUpstreamContentEncodingUnsupported
| OutUpstreamBodyError
| OutStreamIdleTimeout
| OutResponseTransformFailed
| OutCancelled
| OutClientRequestError.
#[export] Instance RequestOutcome_eq_dec : EqDecision RequestOutcome.
Proof. solve_decision. Defined.

Definition log_outcome (o : RequestOutcome) : RequestLogOutcome :=
  match o with OutSucceeded => Succeeded | OutCancelled => Cancelled | _ => Failed end.

Definition outcome_error_code (o : RequestOutcome) : option string :=
  match o with
  | OutSucceeded => None
  | OutUpstreamHttpError => Some "upstream_http_error"
  | OutUpstreamSseError => Some "upstream_sse_error"
  | OutWebSocketUnavailable => Some "websocket_unavailable"
  | OutWebSocketStateLost => Some "previous_response_not_found"
  | OutConnectTimeout => Some "connect_timeout"
  | OutResponseHeaderTimeout => Some "response_header_timeout"
  | OutUpstreamUnavailable => Some "upstream_unavailable"
  | OutUpstreamContentEncodingUnsupported => Some "upstream_content_encoding_unsupported"
  | OutUpstreamBodyError => Some "upstream_body_error"
  | OutStreamIdleTimeout => Some "stream_idle_timeout"
  | OutResponseTransformFailed => Some "response_transform_failed"
  | OutCancelled => Some "client_cancelled"
  | OutClientRequestError => Some "invalid_request"
  end.

(** [display]: the decimal digits of a status. *)
Definition default_error_summary (display : Z → string) (o : RequestOutcome) (upstream_status : option Z) : option string :=
  match o with
  | OutSucceeded => None
  | OutUpstreamHttpError =>
      Some (match upstream_status with
            | None => "The upstream returned an unsuccessful HTTP response."
            | Some status => "The upstream returned HTTP " +:+ display status +:+ "."
            end)
  | OutUpstreamSseError => Some "The upstream stream reported an application-level error."
  | OutWebSocketUnavailable => Some "No upstream WebSocket route is currently available."
  | OutWebSocketStateLost => Some "The previous response state is unavailable on the upstream WebSocket."
  | OutConnectTimeout => Some "Connecting to the selected upstream channel timed out."
  | OutResponseHeaderTimeout => Some "The selected upstream channel did not return response headers in time."
  | OutUpstreamUnavailable => Some "The selected upstream channel could not be reached."
  | OutUpstreamContentEncodingUnsupported => Some "The upstream response used an unsupported content encoding."
  | OutUpstreamBodyError => Some "The upstream response body ended with a transport or protocol error."
  | OutStreamIdleTimeout => Some "The upstream response stream was idle for too long."
  | OutResponseTransformFailed => Some "The upstream response transform could not be applied."
  | OutCancelled => Some "The downstream client disconnected before the request completed."
  | OutClientRequestError => Some "The request could not be prepared for the selected upstream channel."
  end.

Definition fallback_status (o : RequestOutcome) : option Z :=
  match o with
  | OutConnectTimeout | OutResponseHeaderTimeout => Some 504
  | OutUpstreamUnavailable | OutUpstreamContentEncodingUnsupported | OutResponseTransformFailed => Some 502
  | OutClientRequestError => Some 400
  | OutWebSocketUnavailable => Some 426
  | OutWebSocketStateLost => Some 404
  | OutSucceeded | OutUpstreamHttpError | OutUpstreamSseError | OutUpstreamBodyError | OutStreamIdleTimeout | OutCancelled => None
  end.

Definition evicts_session_affinity (o : RequestOutcome) : bool :=
  match o with
  | OutUpstreamHttpError | OutUpstreamSseError | OutConnectTimeout | OutResponseHeaderTimeout | OutUpstreamUnavailable
  | OutUpstreamContentEncodingUnsupported | OutUpstreamBodyError | OutStreamIdleTimeout => true
  | _ => false
  end.

Definition completed_transport_outcome (upstream_succeeded : bool) : RequestOutcome :=
  if upstream_succeeded then OutSucceeded else OutUpstreamHttpError.

(** ** Failures before the response headers *)

Inductive PreHeaderFailure := ConnectionFailure | ConnectTimeoutFailure | ResponseHeaderTimeoutFailure.

Definition failure_outcome (f : PreHeaderFailure) : RequestOutcome :=
  match f with
  | ConnectionFailure => OutUpstreamUnavailable
  | ConnectTimeoutFailure => OutConnectTimeout
  | ResponseHeaderTimeoutFailure => OutResponseHeaderTimeout
  end.
Definition failure_error (f : PreHeaderFailure) : ProxyError :=
  match f with
  | ConnectionFailure => upstream_unavailable
  | ConnectTimeoutFailure => connect_timeout
  | ResponseHeaderTimeoutFailure => response_header_timeout
  end.
