(* ===== verification/Completion.v ===== *)
(** * The completion of a request

    Models [CompletionGuard] of [src/application/proxy.rs].  The guard owns the
    lease of the selected channel and the admission of the key, collects what is
    known of the response, and records one event when the request ends, also
    when the client disconnects and the guard is merely dropped.

    Operations return the new guard and the calls they make on shared
    components, in order.  The readings of the clock are arguments.  A panic
    (of a decimal operation) stops an operation; unwinding then drops the guard. *)

From S2P Require Import Prelude Text Decimal Domain Records Billing Cost Json Journal Usage ErrorText Sse SseFrames JsonScan Collector Headers JsonPatch RequestPolicy Outbound ImageBody ImageEdit Spool Compiled Admission Health Selection Affinity Routing Keyword Outcome.
Open Scope gateway_scope.

(** [chrono]: the conversion of a duration and the addition to an instant. *)
Class Chrono (T : Type) : Type := {
  from_std : Z → option Z;
  checked_add_signed : T → Z → option T;
}.

Definition i32_clamp (z : Z) : Z := Z.min i32_max z.
(** Durations are in nanoseconds. *)
Definition clamp_duration_ms (duration : Z) : Z := i32_clamp (duration / 1000000).
Definition completed_at {T} `{Chrono T} (started_at : T) (elapsed : Z) : T :=
  default started_at (checked_add_signed started_at (default (i64_max * 1000000) (from_std (T := T) elapsed))).

(** ** Automatic disabling *)

Record AutomaticDisableSettings := {
  disable_enabled : bool;
  error_status_codes : list Z;
  error_message_keywords : list (list (list Ascii.ascii));
}.
Inductive AutomaticDisableTrigger := HttpStatus (status : Z) | ErrorMessageKeyword (keyword : list (list Ascii.ascii)).

Definition matches_status (s : AutomaticDisableSettings) (status : Z) : bool :=
  s.(disable_enabled) && bool_decide (status ∈ s.(error_status_codes)).

Record AutomaticDisableContext := {
  disable_channel_id : uuid;
  disable_settings : AutomaticDisableSettings;
  keyword_matcher : option ErrorKeywordMatcher;
}.

(** ** State *)

Section completion.
Context {D V T Policy Auth P : Type} `{DecimalOps D, JsonOps V, UtcOps T, Chrono T, JT : JsonText, UP : UsagePlugin P, UC : UnicodeCase, HL : HeaderLib}.
(** [u16::to_string] *)
Context (display : Z → string).

Abbreviation Channel := (CompiledChannel D Policy Auth).
Abbreviation Rule := (CompiledModelRule D V T Policy Auth).
Abbreviation Key := (CompiledApiKey D T).

(** The fields of [CompletionContext] in three groups: what is fixed for the
    request, what belongs to the selected route, and what is learned from one
    attempt. *)
Record RequestContext := {
  cx_event_id : uuid;
  cx_user_id : uuid;
  cx_api_key_id : uuid;
  cx_client_model : string;
  cx_reasoning_effort : option string;
  cx_fast_mode : bool;
  cx_api_format : ApiFormat.t;
  cx_api_operation : ApiOperation.t;
  cx_request_source : RequestLogSource;
  cx_request_protocol : RequestProtocol.t;
  cx_started_wall_at : T;
}.
Record RouteContext := {
  cx_upstream_model : string;
  cx_model_rule_id : uuid;
  cx_channel_group_id : uuid;
  cx_channel_id : uuid;
  cx_credential_id : option uuid;
  cx_model_id : uuid;
  cx_price_snapshot : ModelPriceSnapshot D T;
  cx_advanced_billing : CompiledAdvancedBilling D V;
  cx_billing_multiplier : D;
  cx_request_billing_multiplier : D;
  cx_session_affinity : option SessionAffinitySelection;
}.
Record AttemptContext := {
  cx_first_byte_at : option Z;
  cx_upstream_status : option Z;
  cx_client_visible_status : option Z;
  cx_usage : UsageCollector (P := P);
  cx_preserve_affinity_on_failure : bool;
  cx_error_details : option ResponseErrorDetails;
}.
Record CompletionContext := {
  cx_request : RequestContext;
  cx_route : RouteContext;
  cx_attempt : AttemptContext;
  cx_attempts : Z;
}.

Record CompletionGuard := {
  g_context : option CompletionContext;
  g_lease : option ChannelLease;
  g_admission : option AdmissionLease;
  g_disable : option AutomaticDisableContext;
}.

(** ** Calls on shared components *)

Inductive LeaseOp := RequestSucceeded | RequestFailed | ResponseHeadersReceived | ConnectionFailed | ProbeFailed | Dropped.

Inductive Effect :=
| OnLease (op : LeaseOp) (lease : ChannelLease)
| AdmitIntent (intent : RequestLogIntent T)
| RecordEvent (e : RequestLogEvent D T)
| ReportChannel (channel : uuid) (trigger : AutomaticDisableTrigger)
| DropAdmission (lease : AdmissionLease)
| SelectRoute (route : SelectedRoute (D := D) (V := V) (T := T) (Policy := Policy) (Auth := Auth))
| SendRequest (route : SelectedRoute (D := D) (V := V) (T := T) (Policy := Policy) (Auth := Auth)) (headers : HeaderMap) (body : list Ascii.ascii).

(** What an operation does and its value, or the guard that unwinding drops. *)
Definition guarded (A : Type) : Type := list Effect * result A CompletionGuard.

Definition gret {A} (a : A) : guarded A := ([], Ok a).
Definition gbind {A B} (m : guarded A) (k : A → guarded B) : guarded B :=
  match m.2 with
  | Ok a => (m.1 ++ (k a).1, (k a).2)
  | Err g => (m.1, Err g)
  end.
Definition emit (es : list Effect) : guarded unit := (es, Ok tt).

(** The readings of the clock in one turn of the task: durations since the
    request started. *)
Record Readings := { at_first_byte : Z; at_total : Z; at_completed : Z }.

(** ** Assignments *)

Definition with_context (g : CompletionGuard) (c : option CompletionContext) : CompletionGuard :=
  {| g_context := c; g_lease := g.(g_lease); g_admission := g.(g_admission); g_disable := g.(g_disable) |}.
Definition with_disable (g : CompletionGuard) (d : option AutomaticDisableContext) : CompletionGuard :=
  {| g_context := g.(g_context); g_lease := g.(g_lease); g_admission := g.(g_admission); g_disable := d |}.
Definition with_attempt (c : CompletionContext) (a : AttemptContext) : CompletionContext :=
  {| cx_request := c.(cx_request); cx_route := c.(cx_route); cx_attempt := a; cx_attempts := c.(cx_attempts) |}.
(** [if let Some(context) = &mut self.context] *)
Definition on_attempt (f : AttemptContext → AttemptContext) (g : CompletionGuard) : CompletionGuard :=
  with_context g ((λ c, with_attempt c (f c.(cx_attempt))) <$> g.(g_context)).

Definition set_visible (status : option Z) (a : AttemptContext) : AttemptContext :=
  {| cx_first_byte_at := a.(cx_first_byte_at); cx_upstream_status := a.(cx_upstream_status);
     cx_client_visible_status := status; cx_usage := a.(cx_usage);
     cx_preserve_affinity_on_failure := a.(cx_preserve_affinity_on_failure); cx_error_details := a.(cx_error_details) |}.
Definition set_status (status : option Z) (a : AttemptContext) : AttemptContext :=
  {| cx_first_byte_at := a.(cx_first_byte_at); cx_upstream_status := status;
     cx_client_visible_status := a.(cx_client_visible_status); cx_usage := a.(cx_usage);
     cx_preserve_affinity_on_failure := a.(cx_preserve_affinity_on_failure); cx_error_details := a.(cx_error_details) |}.
Definition set_collector (u : UsageCollector (P := P)) (a : AttemptContext) : AttemptContext :=
  {| cx_first_byte_at := a.(cx_first_byte_at); cx_upstream_status := a.(cx_upstream_status);
     cx_client_visible_status := a.(cx_client_visible_status); cx_usage := u;
     cx_preserve_affinity_on_failure := a.(cx_preserve_affinity_on_failure); cx_error_details := a.(cx_error_details) |}.
Definition set_preserve (preserve : bool) (a : AttemptContext) : AttemptContext :=
  {| cx_first_byte_at := a.(cx_first_byte_at); cx_upstream_status := a.(cx_upstream_status);
     cx_client_visible_status := a.(cx_client_visible_status); cx_usage := a.(cx_usage);
     cx_preserve_affinity_on_failure := preserve; cx_error_details := a.(cx_error_details) |}.
Definition set_details (details : option ResponseErrorDetails) (a : AttemptContext) : AttemptContext :=
  {| cx_first_byte_at := a.(cx_first_byte_at); cx_upstream_status := a.(cx_upstream_status);
     cx_client_visible_status := a.(cx_client_visible_status); cx_usage := a.(cx_usage);
     cx_preserve_affinity_on_failure := a.(cx_preserve_affinity_on_failure); cx_error_details := details |}.
Definition set_first_byte (at_ : option Z) (a : AttemptContext) : AttemptContext :=
  {| cx_first_byte_at := at_; cx_upstream_status := a.(cx_upstream_status);
     cx_client_visible_status := a.(cx_client_visible_status); cx_usage := a.(cx_usage);
     cx_preserve_affinity_on_failure := a.(cx_preserve_affinity_on_failure); cx_error_details := a.(cx_error_details) |}.

(** ** A new guard and its routes *)

Definition automatic_disable_context (c : Channel) (service : bool) (settings : AutomaticDisableSettings)
    : option AutomaticDisableContext :=
  if c.(auto_disable_allowed) && service
  then Some {| disable_channel_id := c.(channel_id); disable_settings := settings; keyword_matcher := None |}
  else None.

(** The part of the context that a route determines. *)
Definition route_context (rule : Rule) (c : Channel) (upstream : string) (affinity : option SessionAffinitySelection)
    (request_multiplier : D) : RouteContext :=
  {| cx_upstream_model := upstream; cx_model_rule_id := rule.(rule_id); cx_channel_group_id := c.(group_id);
     cx_channel_id := c.(channel_id); cx_credential_id := c.(Compiled.credential_id); cx_model_id := rule.(model_id);
     cx_price_snapshot := rule.(rule_price_snapshot); cx_advanced_billing := rule.(rule_advanced_billing);
     cx_billing_multiplier := c.(channel_billing_multiplier); cx_request_billing_multiplier := request_multiplier;
     cx_session_affinity := affinity |}.
Definition fresh_attempt (format : ApiFormat.t) : AttemptContext :=
  {| cx_first_byte_at := None; cx_upstream_status := None; cx_client_visible_status := None;
     cx_usage := Collector.new format false; cx_preserve_affinity_on_failure := false; cx_error_details := None |}.

Definition new_guard (request : RequestContext) (rule : Rule) (c : Channel) (upstream : string) (lease : ChannelLease)
    (admission : AdmissionLease) (service : bool) (settings : AutomaticDisableSettings)
    (affinity : option SessionAffinitySelection) (request_multiplier : D) : CompletionGuard :=
  {| g_context := Some {| cx_request := request; cx_route := route_context rule c upstream affinity request_multiplier;
                          cx_attempt := fresh_attempt request.(cx_api_format); cx_attempts := 1 |};
     g_lease := Some lease; g_admission := Some admission;
     g_disable := automatic_disable_context c service settings |}.

(** [admitted]: the answer of the log.  A refusal takes the context, so that no
    event is made up for a request that was not dispatched. *)
Definition admit_request_log (admitted : bool) (g : CompletionGuard) : list Effect * (CompletionGuard * bool) :=
  match g.(g_context) with
  | None => ([], (g, true))
  | Some c =>
      let r := c.(cx_request) in
      let intent := {| in_version := 1; in_id := r.(cx_event_id); in_user_id := r.(cx_user_id);
                       in_api_key_id := r.(cx_api_key_id); in_model_id := c.(cx_route).(cx_model_id);
                       in_started_at := r.(cx_started_wall_at); in_api_operation := r.(cx_api_operation);
                       in_request_protocol := r.(cx_request_protocol) |} in
      ([AdmitIntent intent], if admitted then (g, true) else (with_context g None, false))
  end.

(** The lease of the attempt that is given up: its session is released and it is
    dropped. *)
Definition surrender_lease (lease : option ChannelLease) : list Effect :=
  match lease with Some l => [OnLease RequestFailed l; OnLease Dropped l] | None => [] end.

(** [retry_with_route] and [replace_route_before_dispatch] differ in whether
    they count an attempt. *)
Definition replace_route (retry : bool) (rule : Rule) (c : Channel) (upstream : string) (lease : ChannelLease) (service : bool)
    (settings : AutomaticDisableSettings) (affinity : option SessionAffinitySelection) (request_multiplier : D)
    (g : CompletionGuard) : list Effect * CompletionGuard :=
  (surrender_lease g.(g_lease),
   {| g_context := (λ cx, {| cx_request := cx.(cx_request);
                             cx_route := route_context rule c upstream affinity request_multiplier;
                             cx_attempt := fresh_attempt cx.(cx_request).(cx_api_format);
                             cx_attempts := if retry then sat_add u32_max cx.(cx_attempts) 1 else cx.(cx_attempts) |})
                   <$> g.(g_context);
      g_lease := Some lease; g_admission := g.(g_admission);
      g_disable := automatic_disable_context c service settings |}).
Definition retry_with_route := replace_route true.
Definition replace_route_before_dispatch := replace_route false.

(** ** Observations *)

Definition set_upstream_status (status : Z) (g : CompletionGuard) : list Effect * CompletionGuard :=
  let g := on_attempt (set_status (Some status)) g in
  match g.(g_disable) with
  | Some d =>
      if is_success status then ([], g)
      else
        (if matches_status d.(disable_settings) status then [ReportChannel d.(disable_channel_id) (HttpStatus status)] else [],
         with_disable g (Some {| disable_channel_id := d.(disable_channel_id); disable_settings := d.(disable_settings);
                                 keyword_matcher := new_keyword_matcher d.(disable_settings).(disable_enabled)
                                                      d.(disable_settings).(error_message_keywords) |}))
  | None => ([], g)
  end.

Definition set_client_visible_status (status : Z) : CompletionGuard → CompletionGuard := on_attempt (set_visible (Some status)).
Definition set_preserve_affinity_on_failure (preserve : bool) : CompletionGuard → CompletionGuard :=
  on_attempt (set_preserve preserve).
Definition set_error_details (details : ResponseErrorDetails) : CompletionGuard → CompletionGuard :=
  on_attempt (set_details (Some details)).
Definition set_usage_parser (parser : UsageParserConfig P) : CompletionGuard → CompletionGuard :=
  on_attempt (λ a, set_collector (Collector.set_parser parser a.(cx_usage)) a).
Definition configure_usage_collector (sse capture : bool) : CompletionGuard → CompletionGuard :=
  on_attempt (λ a, let u := collector_reset sse a.(cx_usage) in
                   set_collector (if capture then Collector.capture_error_body u else u) a).

(** What the collector says of the stream, if the request is not over. *)
Definition terminal_seen (g : CompletionGuard) : option SseTerminalOutcome :=
  c ← g.(g_context); sse_terminal_outcome c.(cx_attempt).(cx_usage).
Definition observe_usage (bytes : list Ascii.ascii) (g : CompletionGuard) : CompletionGuard * option SseTerminalOutcome :=
  let g := on_attempt (λ a, set_collector (Collector.observe bytes a.(cx_usage)) a) g in (g, terminal_seen g).
Definition finalize_usage (g : CompletionGuard) : CompletionGuard * option SseTerminalOutcome :=
  let g := on_attempt (λ a, set_collector (Collector.finalize a.(cx_usage)) a) g in (g, terminal_seen g).

Definition observe_upstream_error_body (bytes : list Ascii.ascii) (g : CompletionGuard) : list Effect * CompletionGuard :=
  match g.(g_disable) with
  | Some d =>
      match d.(keyword_matcher) with
      | Some m =>
          let '(m, found) := keyword_observe bytes m in
          let matcher := match found with Some _ => None | None => Some m end in
          (match found with Some k => [ReportChannel d.(disable_channel_id) (ErrorMessageKeyword k)] | None => [] end,
           with_disable g (Some {| disable_channel_id := d.(disable_channel_id); disable_settings := d.(disable_settings);
                                   keyword_matcher := matcher |}))
      | None => ([], g)
      end
  | None => ([], g)
  end.

Definition record_first_byte (t : Readings) : CompletionGuard → CompletionGuard :=
  on_attempt (λ a, match a.(cx_first_byte_at) with Some _ => a | None => set_first_byte (Some t.(at_first_byte)) a end).

Definition on_lease (op : LeaseOp) (g : CompletionGuard) : list Effect :=
  match g.(g_lease) with Some l => [OnLease op l] | None => [] end.
Definition record_health (f : PreHeaderFailure) (g : CompletionGuard) : list Effect :=
  on_lease (match f with ConnectionFailure | ConnectTimeoutFailure => ConnectionFailed | ResponseHeaderTimeoutFailure => ProbeFailed end) g.

(** ** The end of a request *)

Definition request_usage (u : ResponseUsage) : RequestUsage :=
  {| input_tokens := u.(ru_input_tokens); cached_input_tokens := u.(ru_cached_input_tokens);
     cache_write_tokens := u.(ru_cache_write_tokens); output_tokens := u.(ru_output_tokens);
     reasoning_tokens := u.(ru_reasoning_tokens) |}.

Definition details_default : ResponseErrorDetails := {| err_code := None; err_summary := None |}.
Definition text_string (t : list (list Ascii.ascii)) : string := string_of (concat t).

(** The price of the context's request. *)
Definition context_billing (t : Readings) (outcome : RequestOutcome) (c : CompletionContext) : option (RequestBilling D T) :=
  let a := c.(cx_attempt) in let r := c.(cx_route) in let q := c.(cx_request) in
  request_billing r.(cx_price_snapshot) r.(cx_advanced_billing)
    {| started_at := q.(cx_started_wall_at); channel_multiplier := r.(cx_billing_multiplier);
       factor_request_multiplier := r.(cx_request_billing_multiplier) |}
    (request_usage <$> Collector.latest a.(cx_usage)) (clamp_duration_ms t.(at_total))
    (if ApiOperation.is_images q.(cx_api_operation) then None else clamp_duration_ms <$> a.(cx_first_byte_at))
    (log_outcome outcome).

(** The event of a request that ends with [outcome]. *)
Definition context_event (t : Readings) (outcome : RequestOutcome) (c : CompletionContext) (billing : RequestBilling D T)
    : RequestLogEvent D T :=
  let a := c.(cx_attempt) in let r := c.(cx_route) in let q := c.(cx_request) in
  let upstream_error := default details_default (Collector.error_details a.(cx_usage)) in
  let explicit_error := default details_default a.(cx_error_details) in
  {| ev_id := q.(cx_event_id); ev_started_at := q.(cx_started_wall_at);
     ev_completed_at := completed_at q.(cx_started_wall_at) t.(at_completed);
     ev_user_id := q.(cx_user_id); ev_api_key_id := q.(cx_api_key_id); ev_request_source := q.(cx_request_source);
     ev_api_format := q.(cx_api_format); ev_api_operation := q.(cx_api_operation);
     ev_request_protocol := q.(cx_request_protocol); ev_client_model := q.(cx_client_model);
     ev_reasoning_effort := q.(cx_reasoning_effort); ev_fast_mode := q.(cx_fast_mode);
     ev_upstream_model := Some r.(cx_upstream_model); ev_model_rule_id := Some r.(cx_model_rule_id);
     ev_channel_group_id := Some r.(cx_channel_group_id); ev_channel_id := Some r.(cx_channel_id);
     ev_upstream_credential := Some {| Journal.credential_id := r.(cx_credential_id) |};
     ev_model_id := Some r.(cx_model_id); ev_outcome := log_outcome outcome;
     ev_response_status_code := or a.(cx_client_visible_status) (or a.(cx_upstream_status) (fallback_status outcome));
     ev_streamed := RequestProtocol.is_streamed q.(cx_request_protocol);
     ev_ttft_ms := clamp_duration_ms <$> a.(cx_first_byte_at); ev_total_duration_ms := clamp_duration_ms t.(at_total);
     ev_billing := Some billing;
     ev_error_code := or (text_string <$> upstream_error.(err_code)) (outcome_error_code outcome);
     ev_error_summary := or (text_string <$> or upstream_error.(err_summary) explicit_error.(err_summary))
                            (default_error_summary display outcome a.(cx_upstream_status)) |}.

(** What the outcome means for the session of the lease. *)
Definition settle_lease (outcome : RequestOutcome) (preserve : bool) (g : CompletionGuard) : list Effect :=
  if bool_decide (outcome = OutSucceeded) then on_lease RequestSucceeded g
  else if evicts_session_affinity outcome && negb preserve then on_lease RequestFailed g else [].

Definition finish (t : Readings) (outcome : RequestOutcome) (g : CompletionGuard) : guarded CompletionGuard :=
  match g.(g_context) with
  | None => gret g
  | Some c =>
      let over := with_context g None in
      let settled := settle_lease outcome c.(cx_attempt).(cx_preserve_affinity_on_failure) g in
      match context_billing t outcome c with
      | None => (settled, Err over)
      | Some billing => (settled ++ [RecordEvent (context_event t outcome c billing)], Ok over)
      end
  end.

Definition finish_with_error_details (t : Readings) (outcome : RequestOutcome) (details : ResponseErrorDetails)
    (g : CompletionGuard) : guarded CompletionGuard := finish t outcome (set_error_details details g).
Definition finish_with_proxy_error (t : Readings) (outcome : RequestOutcome) (e : ProxyError) : CompletionGuard → guarded CompletionGuard :=
  finish_with_error_details t outcome (request_log_details e).
Definition finish_with_message (t : Readings) (outcome : RequestOutcome) (code : option string) (message : string)
    : CompletionGuard → guarded CompletionGuard :=
  finish_with_error_details t outcome (from_message ((λ c, chars (bytes_of c)) <$> code) (chars (bytes_of message))).

(** The fields of a guard are dropped after it. *)
Definition drop_fields (g : CompletionGuard) : list Effect :=
  on_lease Dropped g ++ match g.(g_admission) with Some a => [DropAdmission a] | None => [] end.

(** [Drop]: a request that is not over was cancelled.  A second panic aborts the
    process, but a guard whose [finish] panicked has no context left. *)
Definition drop_guard (t : Readings) (g : CompletionGuard) : list Effect :=
  let '(es, r) := finish t OutCancelled g in
  es ++ match r with Ok g => drop_fields g | Err g => drop_fields g end.

(** ** What the effects of a request amount to *)

Definition recorded (es : list Effect) : list (RequestLogEvent D T) :=
  omap (λ e, match e with RecordEvent e => Some e | _ => None end) es.
Definition dropped (es : list Effect) : list ChannelLease :=
  omap (λ e, match e with OnLease Dropped l => Some l | _ => None end) es.
Definition closed (es : list Effect) : list AdmissionLease :=
  omap (λ e, match e with DropAdmission a => Some a | _ => None end) es.

(** The routes selected, and those a request was sent to. *)
Definition routing (es : list Effect) : list (SelectedRoute (D := D) (V := V) (T := T) (Policy := Policy) (Auth := Auth) * bool) :=
  omap (λ e, match e with SelectRoute r => Some (r, false) | SendRequest r _ _ => Some (r, true) | _ => None end) es.

(** What decides the logged status, apart from the outcome. *)
Definition kept (a a' : AttemptContext) : Prop :=
  a'.(cx_upstream_status) = a.(cx_upstream_status) ∧ a'.(cx_client_visible_status) = a.(cx_client_visible_status).
Definition logged_status (o : RequestOutcome) (a : AttemptContext) : option Z :=
  or a.(cx_client_visible_status) (or a.(cx_upstream_status) (fallback_status o)).

(** Once the statuses are known a request either goes on with its context, or is
    over with one event of that context whose outcome [Q] allows, or the price of
    that event panicked. *)
Definition moves (Q : RequestOutcome → AttemptContext → Prop) (c : CompletionContext) (panicked : bool)
    (c' : option CompletionContext) (events : list (RequestLogEvent D T)) : Prop :=
  (∃ a, c' = Some (with_attempt c a) ∧ kept c.(cx_attempt) a ∧ events = [] ∧ panicked = false)
  ∨ (∃ t o a, c' = None ∧ kept c.(cx_attempt) a ∧ Q o a
       ∧ if panicked then events = [] ∧ context_billing t o (with_attempt c a) = None
         else ∃ b, context_billing t o (with_attempt c a) = Some b ∧ events = [context_event t o (with_attempt c a) b]).

Record advances (Q : RequestOutcome → AttemptContext → Prop) (g : CompletionGuard) (es : list Effect) (panicked : bool) (g' : CompletionGuard) : Prop := {
  adv_lease : g'.(g_lease) = g.(g_lease);
  adv_admission : g'.(g_admission) = g.(g_admission);
  adv_dropped : dropped es = [];
  adv_closed : closed es = [];
  adv_routing : routing es = [];
  adv_context : match g.(g_context) with
                | None => g'.(g_context) = None ∧ recorded es = [] ∧ panicked = false
                | Some c => moves Q c panicked g'.(g_context) (recorded es)
                end;
}.
(** The same for the value of an operation. *)
Definition advances_to Q (g : CompletionGuard) (m : guarded CompletionGuard) : Prop :=
  match m.2 with Ok g' => advances Q g m.1 false g' | Err g' => advances Q g m.1 true g' end.

(** The whole of a request from a guard on: one event, the lease dropped once
    and the admission given back once. *)
Record settles (Q : RequestOutcome → AttemptContext → Prop) (g : CompletionGuard) (es : list Effect) : Prop := {
  set_dropped : dropped es = option_list g.(g_lease);
  set_closed : closed es = option_list g.(g_admission);
  set_routing : routing es = [];
  set_recorded : match g.(g_context) with
                 | None => recorded es = []
                 | Some c => ∃ t o a, Q o a ∧
                     match context_billing t o (with_attempt c a) with
                     | Some b => recorded es = [context_event t o (with_attempt c a) b]
                     | None => recorded es = []
                     end
                 end;
}.
(** The same, with the statuses the guard has. *)
Definition settles_kept Q (g : CompletionGuard) : list Effect → Prop :=
  settles (λ o a, match g.(g_context) with Some c => kept c.(cx_attempt) a | None => True end ∧ Q o a) g.
End completion.

Section lemmas.
Context {D V T Policy Auth P : Type} `{DecimalOps D, JsonOps V, UtcOps T, Chrono T, JT : JsonText, UP : UsagePlugin P, UC : UnicodeCase, HL : HeaderLib}.
Context (display : Z → string).
Abbreviation Guard := (CompletionGuard (D := D) (V := V) (T := T) (P := P)).
Abbreviation Eff := (Effect (D := D) (V := V) (T := T) (Policy := Policy) (Auth := Auth)).
Implicit Types (g : Guard) (es : list Eff).

Lemma recorded_app es es' : recorded (es ++ es') = recorded es ++ recorded es'.
Proof. apply omap_app. Qed.
Lemma dropped_app es es' : dropped (es ++ es') = dropped es ++ dropped es'.
Proof. apply omap_app. Qed.
Lemma closed_app es es' : closed (es ++ es') = closed es ++ closed es'.
Proof. apply omap_app. Qed.

Lemma routing_app es es' : routing (es ++ es') = routing es ++ routing es'.
Proof. apply omap_app. Qed.

Lemma with_attempt_twice (c : CompletionContext (D := D) (V := V) (T := T) (P := P)) a b :
  with_attempt (with_attempt c a) b = with_attempt c b.
Proof. done. Qed.
Lemma with_attempt_same (c : CompletionContext (D := D) (V := V) (T := T) (P := P)) : with_attempt c c.(cx_attempt) = c.
Proof. by destruct c. Qed.

(** Operations that only observe. *)
Lemma advances_quiet Q f g es d :
  (∀ a, kept a (f a)) → recorded es = [] → dropped es = [] → closed es = [] → routing es = [] →
  advances display Q g es false (with_disable (on_attempt f g) d).
Proof.
  intros Hf Hr Hd Hc Hro. split; simpl; [done|done|done|done|done|]. destruct (g_context g) as [c|]; [|done]. left. by eexists.
Qed.

Lemma advances_refl Q g : advances display Q g ([] : list Eff) false g.
Proof.
  split; try done. destruct (g_context g) as [c|]; [|done]. left. exists c.(cx_attempt). by rewrite with_attempt_same.
Qed.

Lemma kept_trans (a b c : AttemptContext (P := P)) : kept a b → kept b c → kept a c.
Proof. unfold kept. intros [??] [??]. split; congruence. Qed.

Lemma advances_trans Q g es g1 es' p g2 :
  advances display Q g es false g1 → advances display Q g1 es' p g2 → advances display Q g (es ++ es') p g2.
Proof.
  intros [Hl Ha Hd Hc Hro Hx] [Hl' Ha' Hd' Hc' Hro' Hx'].
  split; [congruence|congruence|by rewrite dropped_app, Hd, Hd'|by rewrite closed_app, Hc, Hc'|by rewrite routing_app, Hro, Hro'|].
  rewrite recorded_app.
  destruct (g_context g) as [c|].
  - destruct Hx as [(a & Hg1 & Hk & Hr & _)|(t & o & a & Hg1 & Hk & HQ & b & Hb & Hr)]; rewrite Hg1 in Hx'.
    + rewrite Hr. destruct Hx' as [(a' & Hg2 & Hk' & Hr')|(t & o & a' & Hg2 & Hk' & Hrest)].
      * left. exists a'. split_and!; [done|by eapply kept_trans|apply Hr'..].
      * right. exists t, o, a'. split_and!; [done|by eapply kept_trans|apply Hrest..].
    + destruct Hx' as (Hg2 & Hr' & ->). right. exists t, o, a. rewrite Hr, Hr'. eauto 6.
  - destruct Hx as (Hg1 & Hr & _). rewrite Hg1 in Hx'. by rewrite Hr.
Qed.

Lemma advances_mono (Q Q' : RequestOutcome → AttemptContext (P := P) → Prop) g es p g' :
  (∀ o a, Q o a → Q' o a) → advances display Q g es p g' → advances display Q' g es p g'.
Proof.
  intros HQ [Hl Ha Hd Hc Hro Hx]. split; try done. destruct (g_context g) as [c|]; [|done].
  destruct Hx as [?|(t & o & a & ? & ? & ? & ?)]; [by left|right]. exists t, o, a. eauto.
Qed.
Lemma settles_mono (Q Q' : RequestOutcome → AttemptContext (P := P) → Prop) g es :
  (∀ o a, Q o a → Q' o a) → settles display Q g es → settles display Q' g es.
Proof.
  intros HQ [Hd Hc Hro Hx]. split; try done. destruct (g_context g) as [c|]; [|done]. destruct Hx as (t & o & a & ? & ?). exists t, o, a. eauto.
Qed.

Lemma settle_lease_quiet outcome preserve g :
  let es : list Eff := settle_lease outcome preserve g in recorded es = [] ∧ dropped es = [] ∧ closed es = [] ∧ routing es = [].
Proof.
  unfold settle_lease, on_lease.
  destruct (bool_decide (outcome = OutSucceeded)), (evicts_session_affinity outcome && negb preserve), (g_lease g); done.
Qed.

(** [finish] ends a request that is not over, and is nothing otherwise. *)
Lemma finish_advances Q t o g :
  match g.(g_context) with Some c => Q o c.(cx_attempt) | None => True end →
  advances_to display Q g (finish (Policy := Policy) (Auth := Auth) display t o g).
Proof.
  unfold finish. destruct (g_context g) as [c|] eqn:Hg; intros HQ; [|apply advances_refl].
  destruct (settle_lease_quiet o c.(cx_attempt).(cx_preserve_affinity_on_failure) g) as (Hr & Hd & Hc & Hro).
  destruct (context_billing t o c) as [b|] eqn:Hb; unfold advances_to; simpl; split; simpl; try done.
  - by rewrite dropped_app, Hd.
  - by rewrite closed_app, Hc.
  - by rewrite routing_app, Hro.
  - rewrite Hg, recorded_app, Hr. right. exists t, o, c.(cx_attempt). rewrite with_attempt_same. split_and!; [done|by split|done|eauto].
  - rewrite Hg, Hr. right. exists t, o, c.(cx_attempt). rewrite with_attempt_same. by split_and!.
Qed.

(** A guard that is over only lets go of what it owns. *)
Lemma drop_fields_effects g :
  let es : list Eff := drop_fields g in
  recorded es = [] ∧ dropped es = option_list g.(g_lease) ∧ closed es = option_list g.(g_admission) ∧ routing es = [].
Proof. unfold drop_fields, on_lease. by destruct (g_lease g), (g_admission g). Qed.
Lemma drop_over_settles Q g : g.(g_context) = None → settles display Q g (drop_fields g : list Eff).
Proof. intros Hg. destruct (drop_fields_effects g) as (Hr & Hd & Hc & Hro). split; [done|done|done|by rewrite Hg]. Qed.

(** An operation and then the end of the request. *)
Lemma advances_settles Q g es g1 es' :
  advances display Q g es false g1 → settles_kept display Q g1 es' → settles_kept display Q g (es ++ es').
Proof.
  intros [Hl Ha Hd Hc Hro Hx] [Hd' Hc' Hro' Hx'].
  split; [by rewrite dropped_app, Hd, Hd', Hl|by rewrite closed_app, Hc, Hc', Ha|by rewrite routing_app, Hro, Hro'|]. rewrite recorded_app.
  destruct (g_context g) as [c|].
  - destruct Hx as [(a & Hg1 & Hk & -> & _)|(t & o & a & Hg1 & Hk & HQ & b & Hb & ->)]; rewrite Hg1 in Hx'.
    + destruct Hx' as (t & o & a' & [Hk' HQ] & Hrest). exists t, o, a'. split_and!; [by eapply kept_trans|done|apply Hrest].
    + exists t, o, a. rewrite Hb, Hx'. done.
  - destruct Hx as (Hg1 & -> & _). by rewrite Hg1 in Hx'.
Qed.
Lemma panic_settles Q g es g1 :
  advances display Q g es true g1 → settles_kept display Q g (es ++ drop_fields g1 : list Eff).
Proof.
  intros [Hl Ha Hd Hc Hro Hx]. destruct (drop_fields_effects g1) as (Hr & Hd1 & Hc1 & Hro1).
  split; [by rewrite dropped_app, Hd, Hd1, Hl|by rewrite closed_app, Hc, Hc1, Ha|by rewrite routing_app, Hro, Hro1|].
  rewrite recorded_app, Hr, app_nil_r.
  destruct (g_context g) as [c|]; [|by destruct Hx as (_ & _ & ?)].
  destruct Hx as [(a & _ & _ & _ & ?)|(t & o & a & _ & Hk & HQ & -> & Hb)]; [done|]. exists t, o, a. by rewrite Hb.
Qed.
Lemma advances_panic_over Q g es g1 : advances display Q g es true g1 → g1.(g_context) = None.
Proof.
  intros [_ _ _ _ _ Hx]. destruct (g_context g); [|by destruct Hx as (? & _)]. by destruct Hx as [(a & _ & _ & _ & ?)|(t & o & a & ? & _)].
Qed.

Lemma finish_over t o g :
  match (finish (Policy := Policy) (Auth := Auth) display t o g).2 with Ok g' | Err g' => g'.(g_context) = None end.
Proof. unfold finish. destruct (g_context g) eqn:Hg; [by destruct (context_billing t o _)|done]. Qed.

Lemma drop_settles Q t g :
  match g.(g_context) with Some c => Q OutCancelled c.(cx_attempt) | None => True end →
  settles_kept display Q g (drop_guard (Policy := Policy) (Auth := Auth) display t g).
Proof.
  intros HQ. pose proof (finish_advances Q t OutCancelled g HQ) as Hadv. pose proof (finish_over t OutCancelled g) as Hover.
  unfold drop_guard, advances_to in *. destruct (finish display t OutCancelled g) as [es [g'|g']]; simpl in *.
  - eapply advances_settles; [done|]. by apply drop_over_settles.
  - by eapply panic_settles.
Qed.
(** Unwinding from a panic of [finish]. *)
Lemma drop_over t g : g.(g_context) = None → drop_guard (Policy := Policy) (Auth := Auth) display t g = drop_fields g.
Proof. intros Hg. unfold drop_guard, finish. by rewrite Hg. Qed.
End lemmas.
