(* ===== verification/Adapter.v ===== *)
(** * Response adapters of connector plugins

    Models [src/application/response_adapter.rs] and the bounds of
    [crates/connector-sdk/src/response.rs].  A loaded connector may rewrite the
    responses of its upstream; the host decodes each event, calls the plugin,
    and accepts its answer only if nothing changed that the host meters or that
    identifies the event.  What the plugin answers is a parameter. *)

From S2P Require Import Prelude Text Domain Json Usage ErrorText Sse SseFrames JsonScan Collector Headers JsonPatch Plans Transform ImageBody ImageEdit Keyword.
Open Scope gateway_scope.

Definition MAX_RESPONSE_JSON_BYTES : Z := 8 * 1024 * 1024.
Definition MAX_RESPONSE_EVENT_BYTES : Z := 1024 * 1024.
Definition MAX_RESPONSE_STATE_BYTES : Z := 64 * 1024.
Definition MAX_RESPONSE_OUTPUT_EVENTS : Z := 16.
Definition MAX_METADATA_BYTES : Z := 1024 * 1024.

Inductive ResponseMode := ModePassthrough | ModeJson | ModeSse.
#[export] Instance ResponseMode_eq_dec : EqDecision ResponseMode.
Proof. solve_decision. Defined.
#[export] Instance ResponseUsage_eq_dec : EqDecision ResponseUsage.
Proof. solve_decision. Defined.
#[export] Instance ResponseErrorDetails_eq_dec : EqDecision ResponseErrorDetails.
Proof. solve_decision. Defined.

Record ResponseEvent := { re_event : option string; re_data : str; re_id : option string }.
#[export] Instance ResponseEvent_eq_dec : EqDecision ResponseEvent.
Proof. solve_decision. Defined.
Record ResponseEventOutput := { ro_state : Json; ro_events : list ResponseEvent }.

(** The derived reader of a plugin's answer; its texts are Rust strings. *)
Class ResponseReader : Type := { output_of_value : Json → option ResponseEventOutput }.
Definition text_ok (s : str) : Prop := utf8_valid (length s) s = true.
Definition event_ok (e : ResponseEvent) : Prop :=
  text_ok e.(re_data) ∧ (∀ s, e.(re_event) = Some s → text_ok (bytes_of s)) ∧ (∀ s, e.(re_id) = Some s → text_ok (bytes_of s)).
Class ResponseReaderLaws `{ResponseReader} : Prop := {
  output_texts v o e : output_of_value v = Some o → e ∈ o.(ro_events) → event_ok e;
}.

Inductive AdaptationError := ResponseAdaptationError.
Definition adaptation (A : Type) : Type := result A AdaptationError.
Definition adapt_if {A} (b : bool) (a : A) : adaptation A := if b then Ok a else Err ResponseAdaptationError.

(** ** Events as text *)

Definition NUL : Ascii.ascii := Ascii.ascii_of_N 0.
Definition COLON : Ascii.ascii := Ascii.ascii_of_N 58.
Definition BLANK : Ascii.ascii := Ascii.ascii_of_N 32.
Definition EOL : Ascii.ascii := Ascii.ascii_of_N 10.

(** [split(['\r', '\n'])] *)
Fixpoint split_lines (s : str) : list str :=
  match s with
  | [] => [[]]
  | c :: s =>
      if is_cr c || is_lf c then [] :: split_lines s
      else match split_lines s with line :: lines => (c :: line) :: lines | [] => [[c]] end
  end.

Definition strip_blank (s : str) : str := match s with c :: s' => if byte c =? 32 then s' else s | [] => [] end.
(** [split_once(':')], with the whole line as the field when there is none. *)
Definition line_field (line : str) : str * str :=
  let '(field, value) := default (line, []) (split_colon line) in (field, strip_blank value).

Definition decode_line (st : option string * option string * list str) (line : str) : option string * option string * list str :=
  let '(event, id, data) := st in
  match line with
  | [] => st
  | c :: _ =>
      if byte c =? 58 then st
      else
        let '(field, value) := line_field line in
        if bool_decide (field = bytes_of "event") then (Some (string_of value), id, data)
        else if bool_decide (field = bytes_of "id") then
          if contains_byte NUL value then st else (event, Some (string_of value), data)
        else if bool_decide (field = bytes_of "data") then (event, id, data ++ [value])
        else st
  end.

(** [join("\n")] *)
Fixpoint join_lines (lines : list str) : str :=
  match lines with
  | [] => []
  | [line] => line
  | line :: lines => line ++ EOL :: join_lines lines
  end.

Definition decode_event (frame : str) : adaptation (option ResponseEvent) :=
  if MAX_FRAME_BYTES <? Z.of_nat (length frame) then Err ResponseAdaptationError
  else if negb (utf8_valid (length frame) frame) then Err ResponseAdaptationError
  else
    let '(event, id, data) := foldl decode_line (None, None, []) (split_lines frame) in
    Ok (match data with
        | [] => None
        | _ => Some {| re_event := event; re_data := join_lines data; re_id := id |}
        end).

Definition field_line (field : string) (value : str) : str := bytes_of field ++ COLON :: BLANK :: value ++ [EOL].

Definition encode_field (field : string) (value : option string) : adaptation str :=
  match value with
  | None => Ok []
  | Some v =>
      if existsb (λ c, is_cr c || is_lf c || (byte c =? 0)) (bytes_of v) then Err ResponseAdaptationError
      else Ok (field_line field (bytes_of v))
  end.

Definition encode_event (e : ResponseEvent) : adaptation str :=
  event <-! encode_field "event" e.(re_event);
  id <-! encode_field "id" e.(re_id);
  let lines := split_on EOL e.(re_data) in
  if existsb (existsb is_cr) lines then Err ResponseAdaptationError
  else
    let encoded := event ++ id ++ concat (map (field_line "data") lines) ++ [EOL] in
    if MAX_FRAME_BYTES <? Z.of_nat (length encoded) then Err ResponseAdaptationError else Ok encoded.

(** ** What a plugin may not change *)

Definition is_protected_key (key : string) : bool :=
  existsb (String.eqb key)
    ["usage"; "id"; "object"; "model"; "created"; "created_at"; "type"; "status"; "error"; "incomplete_details"; "finish_reason";
     "sequence_number"; "index"; "output_index"; "content_index"; "call_id"; "item_id"; "response_id"; "name"; "namespace"; "role"].

Fixpoint protected_fields (v : Json) : Json :=
  match v with
  | JObject fields =>
      let kept := (fix go (fields : list (string * Json)) : list (string * Json) :=
        match fields with
        | [] => []
        | (key, value) :: fields =>
            if is_protected_key key then (key, value) :: go fields
            else let child := protected_fields value in
                 if is_null child then go fields else (key, child) :: go fields
        end) fields in
      match kept with [] => JNull | _ => JObject kept end
  | JArray values =>
      let children := map protected_fields values in
      if existsb (λ c, negb (is_null c)) children then JArray children else JNull
  | _ => JNull
  end.

Fixpoint requires_single_event (v : Json) : bool :=
  match v with
  | JObject fields =>
      (fix go (fields : list (string * Json)) : bool :=
        match fields with
        | [] => false
        | (key, value) :: fields =>
            existsb (String.eqb key) ["usage"; "sequence_number"; "tool_calls"; "function_call"] || requires_single_event value || go fields
        end) fields
  | JArray values => existsb requires_single_event values
  | _ => false
  end.

Fixpoint contains_finish_reason (v : Json) : bool :=
  match v with
  | JObject fields =>
      match map_get fields "finish_reason" with Some r => negb (is_null r) | None => false end
      || (fix go (fields : list (string * Json)) : bool :=
            match fields with [] => false | (_, value) :: fields => contains_finish_reason value || go fields end) fields
  | JArray values => existsb contains_finish_reason values
  | _ => false
  end.

Definition is_terminal_name (name : option string) : bool :=
  match name with
  | Some n => existsb (String.eqb n) ["response.completed"; "response.failed"; "response.incomplete"; "response.cancelled"; "error"]
  | None => false
  end.

Section adapter.
Context `{JT : JsonText, RR : ResponseReader} {P : Type} `{UP : UsagePlugin P}.

Definition object (body : str) : adaptation Json :=
  v <-! ok_or (from_slice body) ResponseAdaptationError; adapt_if (is_object v) v.

Definition is_terminal_event (input : ResponseEvent) (before : Json) : bool :=
  is_terminal_name (value_get before "type" ≫= as_str) || is_terminal_name input.(re_event)
  || match value_get before "error" with Some e => negb (is_null e) | None => false end
  || contains_finish_reason before.

Definition is_done (data : str) : bool := bool_decide (trim data = bytes_of "[DONE]").

(** The check of one event of the answer. *)
Definition validate_event (input : ResponseEvent) (before : Json) (e : ResponseEvent) : adaptation unit :=
  if negb (bool_decide (e.(re_event) = input.(re_event))) || negb (bool_decide (e.(re_id) = input.(re_id))) then Err ResponseAdaptationError
  else
    after <-! object e.(re_data);
    adapt_if (json_eqb (protected_fields after) (protected_fields before)) tt.

Definition validate_events (input : ResponseEvent) (output : list ResponseEvent) : adaptation unit :=
  if is_done input.(re_data) then adapt_if (bool_decide (output = [input])) tt
  else
    before <-! object input.(re_data);
    let single := requires_single_event before || is_terminal_event input before in
    if (length output =? 0)%nat || (single && negb (length output =? 1)%nat) then Err ResponseAdaptationError
    else try_fold (λ _ e, validate_event input before e) tt output.

(** ** The bounds of an answer *)

Definition valid_field (field : option string) : bool :=
  match field with
  | None => true
  | Some f => (Z.of_nat (String.length f) <=? MAX_RESPONSE_EVENT_BYTES)
              && negb (existsb (λ c, is_cr c || is_lf c || (byte c =? 0)) (bytes_of f))
  end.
Definition within (v : Json) (limit : Z) : bool := Z.of_nat (length (to_vec v)) <=? limit.
Definition valid_state (state : Json) : bool := is_object state && within state MAX_RESPONSE_STATE_BYTES.

Definition field_json (v : option string) : Json := match v with Some s => JString s | None => JNull end.
Definition event_json (e : ResponseEvent) : Json :=
  JObject [("data", JString (string_of e.(re_data))); ("event", field_json e.(re_event)); ("id", field_json e.(re_id))].
Definition output_json (o : ResponseEventOutput) : Json :=
  JObject [("events", JArray (map event_json o.(ro_events))); ("state", o.(ro_state))].

Definition output_validate_bounds (o : ResponseEventOutput) : bool :=
  valid_state o.(ro_state) && (Z.of_nat (length o.(ro_events)) <=? MAX_RESPONSE_OUTPUT_EVENTS)
  && forallb (λ e, (Z.of_nat (length e.(re_data)) <=? MAX_RESPONSE_EVENT_BYTES) && valid_field e.(re_event) && valid_field e.(re_id)) o.(ro_events)
  && within (output_json o) MAX_METADATA_BYTES.

(** ** Adapters *)

Record ResponseAdapterConfig := { ra_plugin : P; ra_operation : ApiOperation.t; ra_mode : ResponseMode }.

(** [status]: the number of the response's status. *)
Definition adapt_json (c : ResponseAdapterConfig) (status : Z) (body : str) : adaptation str :=
  if MAX_RESPONSE_JSON_BYTES <? Z.of_nat (length body) then Err ResponseAdaptationError
  else
    before <-! object body;
    output <-! ok_or (plugin_call c.(ra_plugin) "response.json/v1"
      (JObject [("operation", JString (ApiOperation.as_str c.(ra_operation))); ("protocol", JString "non_stream");
                ("status", JNumber (Int status))]) body) ResponseAdaptationError;
    if negb (match output.1 with JObject [] => true | _ => false end)
       || (MAX_RESPONSE_JSON_BYTES <? Z.of_nat (length output.2)) then Err ResponseAdaptationError
    else
      after <-! object output.2;
      if json_eqb (protected_fields before) (protected_fields after) then Ok output.2 else Err ResponseAdaptationError.

Record SseResponseAdapter := {
  sa_config : ResponseAdapterConfig;
  sa_status : Z;
  sa_state : Json;
  sa_sequence : Z;
  sa_original : UsageCollector (P := P);
  sa_adapted : UsageCollector (P := P);
  sa_finished : bool;
}.

Definition new_adapter (c : ResponseAdapterConfig) (status : Z) (format : ApiFormat.t) : SseResponseAdapter :=
  {| sa_config := c; sa_status := status; sa_state := JObject []; sa_sequence := 0;
     sa_original := Collector.new format true; sa_adapted := Collector.new format true; sa_finished := false |}.

Definition with_call (a : SseResponseAdapter) (state : Json) (sequence : Z) : SseResponseAdapter :=
  {| sa_config := a.(sa_config); sa_status := a.(sa_status); sa_state := state; sa_sequence := sequence;
     sa_original := a.(sa_original); sa_adapted := a.(sa_adapted); sa_finished := a.(sa_finished) |}.
Definition with_collectors (a : SseResponseAdapter) (original adapted : UsageCollector (P := P)) : SseResponseAdapter :=
  {| sa_config := a.(sa_config); sa_status := a.(sa_status); sa_state := a.(sa_state); sa_sequence := a.(sa_sequence);
     sa_original := original; sa_adapted := adapted; sa_finished := a.(sa_finished) |}.
Definition with_finished (a : SseResponseAdapter) : SseResponseAdapter :=
  {| sa_config := a.(sa_config); sa_status := a.(sa_status); sa_state := a.(sa_state); sa_sequence := a.(sa_sequence);
     sa_original := a.(sa_original); sa_adapted := a.(sa_adapted); sa_finished := true |}.

Definition adapter_call (a : SseResponseAdapter) (phase : string) (event : option ResponseEvent)
    : adaptation (SseResponseAdapter * ResponseEventOutput) :=
  let body := match event with Some e => e.(re_data) | None => [] end in
  if MAX_RESPONSE_EVENT_BYTES <? Z.of_nat (length body) then Err ResponseAdaptationError
  else
    output <-! ok_or (plugin_call a.(sa_config).(ra_plugin) "response.event/v1"
      (JObject [("event", field_json (event ≫= re_event)); ("id", field_json (event ≫= re_id));
                ("operation", JString (ApiOperation.as_str a.(sa_config).(ra_operation))); ("phase", JString phase);
                ("protocol", JString "sse"); ("sequence", JNumber (Int a.(sa_sequence))); ("state", a.(sa_state));
                ("status", JNumber (Int a.(sa_status)))]) body) ResponseAdaptationError;
    if negb (length output.2 =? 0)%nat then Err ResponseAdaptationError
    else
      o <-! ok_or (output_of_value output.1) ResponseAdaptationError;
      if negb (output_validate_bounds o) || (u64_max <? a.(sa_sequence) + 1) then Err ResponseAdaptationError
      else Ok (with_call a o.(ro_state) (a.(sa_sequence) + 1), o).

(** The encoded events, and the host's own observation of them. *)
Fixpoint encode_events (es : list ResponseEvent) (u : UsageCollector (P := P)) : adaptation (list str * UsageCollector (P := P)) :=
  match es with
  | [] => Ok ([], u)
  | e :: es =>
      encoded <-! encode_event e;
      rest <-! encode_events es (Collector.observe encoded u);
      Ok (encoded :: rest.1, rest.2)
  end.

Definition same_observation (a b : UsageCollector (P := P)) : bool :=
  bool_decide (Collector.latest a = Collector.latest b)
  && bool_decide (sse_terminal_outcome a = sse_terminal_outcome b)
  && bool_decide (Collector.error_details a = Collector.error_details b).

(** An error ends the response: the adapter is dropped with it. *)
Definition adapt_frame (frame : str) (a : SseResponseAdapter) : adaptation (SseResponseAdapter * list str) :=
  if a.(sa_finished) then Err ResponseAdaptationError
  else
    decoded <-! decode_event frame;
    match decoded with
    | None => Ok (a, [frame])
    | Some input =>
        let original := Collector.finalize (Collector.observe frame a.(sa_original)) in
        called <-! adapter_call a "event" (Some input);
        let '(a, output) := called in
        _ <-! validate_events input output.(ro_events);
        encoded <-! encode_events output.(ro_events) a.(sa_adapted);
        let adapted := Collector.finalize encoded.2 in
        if negb (same_observation original adapted) then Err ResponseAdaptationError
        else
          let a := with_collectors a original adapted in
          match sse_terminal_outcome original with
          | None => Ok (a, encoded.1)
          | Some _ =>
              tail <-! adapter_call a "finish" None;
              if (length tail.2.(ro_events) =? 0)%nat then Ok (with_finished tail.1, encoded.1) else Err ResponseAdaptationError
          end
    end.

(** The end of the upstream's body cannot stand in for a terminal event. *)
Definition adapter_finish (a : SseResponseAdapter) : adaptation unit :=
  if a.(sa_finished) then Ok tt
  else _ <-! adapter_call a "finish" None; Err ResponseAdaptationError.
End adapter.

(** ** Valid text *)

Lemma utf8_valid_enough fuel s : (length s ≤ fuel)%nat → utf8_valid fuel s = utf8_valid (length s) s.
Proof.
  assert (∀ n m s, (length s ≤ n)%nat → (length s ≤ m)%nat → utf8_valid n s = utf8_valid m s) as Hf; [|intros; by apply Hf].
  induction n as [|n IH]; intros m t Hn Hm; destruct t as [|c t]; [by destruct m|simpl in Hn; lia|by destruct m|].
  destruct m as [|m]; [simpl in Hm; lia|]. pose proof (head_char_pos c t) as Hp. cbn [utf8_valid].
  destruct (head_char (c :: t)) as [v k]. f_equal. apply IH; rewrite length_drop; simpl in *; lia.
Qed.

Lemma text_ok_step c s : text_ok (c :: s) ↔ (head_char (c :: s)).1 = true ∧ text_ok (drop (head_char (c :: s)).2 (c :: s)).
Proof.
  unfold text_ok. pose proof (head_char_pos c s) as Hp. cbn [length utf8_valid].
  destruct (head_char (c :: s)) as [v n]. simpl fst in *. simpl snd in *. rewrite andb_true_iff, utf8_valid_enough; [done|].
  rewrite length_drop. simpl in *. lia.
Qed.

Lemma text_ok_app s t : text_ok s → text_ok t → text_ok (s ++ t).
Proof.
  intros Hs Ht. induction s as [s IH] using (induction_ltof1 _ (@length _)). unfold ltof in IH. destruct s as [|c s]; [done|].
  apply text_ok_step in Hs as [Hv Hd]. pose proof (head_char_pos c s) as Hp. pose proof (head_char_bound c s) as Hb.
  assert (head_char ((c :: s) ++ t) = head_char (c :: s)) as Eh.
  { apply head_char_app. apply not_true_iff_false. intros Hi%incomplete_invalid. by rewrite Hi in Hv. }
  change (text_ok (c :: (s ++ t))). apply text_ok_step. change (c :: s ++ t) with ((c :: s) ++ t). rewrite Eh. split; [done|].
  rewrite drop_app_le by done. apply IH; [rewrite length_drop; simpl in *; lia|done].
Qed.

Lemma text_ok_ascii s : Forall (λ c, byte c < 128) s → text_ok s.
Proof.
  induction 1 as [|c s Hc _ IH]; [done|]. apply text_ok_step. unfold head_char.
  destruct (second_range (byte c)). by rewrite (proj2 (Z.ltb_lt _ _) Hc).
Qed.

(** A line end is not part of a longer character. *)
Lemma head_char_before_eol c s t : (head_char ((c :: s) ++ EOL :: t)).1 = true →
  head_char ((c :: s) ++ EOL :: t) = head_char (c :: s).
Proof.
  simpl. destruct (second_range (byte c)) as [lo hi] eqn:Er. assert (128 ≤ lo) as Hlo.
  { unfold second_range in Er. repeat case_match; simplify_eq; lia. }
  assert (byte EOL = 10) as Hb by done.
  assert (in_range lo hi (Some EOL) = false) as H1 by (unfold in_range; rewrite Hb; apply andb_false_iff; left; lia).
  assert (in_range 128 191 (Some EOL) = false) as H2 by done.
  destruct s as [|d [|d' [|d'' s]]]; simpl; rewrite ?H1, ?H2; repeat case_match; try done; simpl in H1; congruence.
Qed.

Lemma text_ok_split s t : text_ok (s ++ EOL :: t) → text_ok s ∧ text_ok t.
Proof.
  induction s as [s IH] using (induction_ltof1 _ (@length _)). unfold ltof in IH. destruct s as [|c s]; intros Hs.
  { apply text_ok_step in Hs as [_ Hs]. done. }
  change (text_ok (c :: (s ++ EOL :: t))) in Hs. apply text_ok_step in Hs as [Hv Hd].
  change (c :: s ++ EOL :: t) with ((c :: s) ++ EOL :: t) in *. pose proof (head_char_before_eol _ _ _ Hv) as Eh. rewrite Eh in *.
  pose proof (head_char_pos c s) as Hp. rewrite drop_app_le in Hd by apply head_char_bound.
  apply IH in Hd as [Hd Ht]; [|rewrite length_drop; simpl in *; lia]. split; [by apply text_ok_step|done].
Qed.

Lemma split_on_text_ok s : text_ok s → Forall text_ok (split_on EOL s).
Proof.
  intros Hs. remember (split_on EOL s) as lines eqn:E. revert s Hs E. induction lines as [|line lines IH]; intros s Hs E; [done|].
  assert (∀ s line lines, split_on EOL s = line :: lines → (lines = [] ∧ s = line) ∨ ∃ t, s = line ++ EOL :: t ∧ split_on EOL t = lines) as Hsplit.
  { clear. induction s as [|c s IH]; intros line lines E; simpl in E; [injection E as <- <-; by left|].
    destruct (Ascii.eqb_spec c EOL) as [->|_]; [injection E as <- <-; right; by exists s|].
    destruct (split_on EOL s) as [|w ws] eqn:Ew; [destruct s; simpl in Ew; repeat case_match; done|].
    injection E as <- <-. destruct (IH w ws eq_refl) as [[-> ->]|(t & -> & Ht)]; [by left|right; by exists t]. }
  symmetry in E. destruct (Hsplit _ _ _ E) as [[-> ->]|(t & -> & Ht)]; [by constructor|].
  apply text_ok_split in Hs as [Hl Ht']. constructor; [done|]. by apply (IH t).
Qed.

Lemma join_split s : join_lines (split_on EOL s) = s.
Proof.
  induction s as [|c s IH]; [done|]. simpl. destruct (Ascii.eqb_spec c EOL) as [->|_].
  - rewrite <- IH at 2. by destruct (split_on EOL s) eqn:E; [destruct s; simpl in E; repeat case_match|].
  - destruct (split_on EOL s) as [|w [|w' ws]]; simpl in *; by f_equal.
Qed.

Lemma split_on_no_eol s : Forall (λ line, EOL ∉ line) (split_on EOL s).
Proof.
  induction s as [|c s IH]; simpl; [constructor; [apply not_elem_of_nil|constructor]|].
  destruct (Ascii.eqb_spec c EOL) as [->|Hc]; [constructor; [apply not_elem_of_nil|done]|].
  destruct (split_on EOL s) as [|w ws]; [constructor; [|done]|apply Forall_cons in IH as [Hw IH]; constructor; [|done]].
  - apply not_elem_of_cons. split; [done|apply not_elem_of_nil].
  - apply not_elem_of_cons. by split.
Qed.

(** ** Lines of a frame *)

Definition plain (line : str) : Prop := existsb (λ c, is_cr c || is_lf c) line = false.

Lemma split_lines_eol line s : plain line → split_lines (line ++ EOL :: s) = line :: split_lines s.
Proof.
  unfold plain. induction line as [|c line IH]; intros Hp; [done|]. simpl in *. apply orb_false_iff in Hp as [Hc Hp].
  by rewrite Hc, (IH Hp).
Qed.

Lemma plain_app a b : plain a → plain b → plain (a ++ b).
Proof. unfold plain. rewrite existsb_app. by intros -> ->. Qed.

Lemma decode_field st field (value : str) : (field = "event" ∨ field = "id" ∨ field = "data") →
  decode_line st (bytes_of field ++ COLON :: BLANK :: value) =
  let '(event, id, data) := st in
  if String.eqb field "event" then (Some (string_of value), id, data)
  else if String.eqb field "id" then (if contains_byte NUL value then st else (event, Some (string_of value), data))
  else (event, id, data ++ [value]).
Proof. destruct st as [[event id] data]. intros [->|[->| ->]]; reflexivity. Qed.

Lemma decode_field_line st field value rest : (field = "event" ∨ field = "id" ∨ field = "data") → plain value →
  foldl decode_line st (split_lines (field_line field value ++ rest)) =
  foldl decode_line (decode_line st (bytes_of field ++ COLON :: BLANK :: value)) (split_lines rest).
Proof.
  intros Hf Hp. unfold field_line. rewrite <- app_assoc. simpl. rewrite <- app_assoc. simpl.
  change (bytes_of field ++ COLON :: BLANK :: value ++ EOL :: rest) with (bytes_of field ++ (COLON :: BLANK :: value) ++ EOL :: rest).
  rewrite app_assoc, split_lines_eol; [done|]. apply plain_app; [by destruct Hf as [->|[->| ->]]|exact Hp].
Qed.

Lemma no_nul_plain v : existsb (λ c, is_cr c || is_lf c || (byte c =? 0)) v = false → plain v ∧ contains_byte NUL v = false.
Proof.
  unfold plain, contains_byte. induction v as [|c v IH]; [done|]. cbn [existsb]. intros [Hc Hv]%orb_false_iff. apply IH in Hv as [-> ->].
  apply orb_false_iff in Hc as [-> Hc]. split; [done|]. rewrite orb_false_r. apply Z.eqb_neq in Hc.
  destruct (Ascii.eqb_spec NUL c) as [<-|]; [by destruct Hc|done].
Qed.

Lemma decode_encoded_field field v x st rest : encode_field field v = Ok x → (field = "event" ∨ field = "id") →
  foldl decode_line st (split_lines (x ++ rest)) =
  foldl decode_line (match v with
                     | None => st
                     | Some s => if String.eqb field "event" then (Some s, st.1.2, st.2) else (st.1.1, Some s, st.2)
                     end) (split_lines rest).
Proof.
  unfold encode_field. destruct v as [v|]; [|by intros [= <-]]. destruct (existsb _ _) eqn:E; [done|]. intros [= <-] Hf.
  apply no_nul_plain in E as [Hp Hn]. rewrite decode_field_line by tauto. f_equal. destruct st as [[event id] data].
  rewrite decode_field by tauto. rewrite Hn, string_of_bytes_of. by destruct Hf as [->| ->].
Qed.

Lemma decode_data_lines lines st rest : Forall plain lines →
  foldl decode_line st (split_lines (concat (map (field_line "data") lines) ++ rest)) =
  foldl decode_line (st.1, st.2 ++ lines) (split_lines rest).
Proof.
  revert st. induction lines as [|line lines IH]; intros [[event id] data] Hp; cbn [map concat]; [simpl; by rewrite app_nil_r|].
  apply Forall_cons in Hp as [Hl Hp]. rewrite <- app_assoc, decode_field_line by tauto. rewrite decode_field by tauto.
  rewrite IH by done. simpl. by rewrite <- app_assoc.
Qed.

Lemma encode_field_ok field v x : encode_field field v = Ok x → (field = "event" ∨ field = "id") →
  (∀ s, v = Some s → text_ok (bytes_of s)) → text_ok x.
Proof.
  unfold encode_field. destruct v as [v|]; [|by intros [= <-]]. destruct (existsb _ _); [done|]. intros [= <-] Hf Hv.
  unfold field_line. apply text_ok_app; [destruct Hf as [->| ->]; by vm_compute|].
  change (text_ok ([COLON; BLANK] ++ (bytes_of v ++ [EOL]))). apply text_ok_app; [by vm_compute|]. apply text_ok_app; [by apply Hv|by vm_compute].
Qed.

Lemma data_lines_ok lines : Forall text_ok lines → text_ok (concat (map (field_line "data") lines)).
Proof.
  induction 1 as [|line lines Hl _ IH]; [done|]. simpl. apply text_ok_app; [|done]. unfold field_line.
  change (text_ok (bytes_of "data: " ++ (line ++ [EOL]))). apply text_ok_app; [by vm_compute|]. by apply text_ok_app.
Qed.

Lemma encoded_event_decodes (e : ResponseEvent) (frame : str) : event_ok e → encode_event e = Ok frame → decode_event frame = Ok (Some e).
Proof.
  intros (Hdata & Hevent & Hid) Hencode. unfold encode_event in Hencode.
  destruct (encode_field "event" _) as [x|] eqn:Ex; [|done]. destruct (encode_field "id" _) as [y|] eqn:Ey; [|done]. cbn [result_bind] in Hencode.
  destruct (existsb _ _) eqn:Ecr; [done|]. destruct (_ <? _) eqn:El; [done|]. injection Hencode as Eframe. unfold decode_event.
  rewrite <- Eframe, El. assert (text_ok (x ++ y ++ concat (map (field_line "data") (split_on EOL e.(re_data))) ++ [EOL])) as Hok.
  { apply text_ok_app; [by apply (encode_field_ok _ _ _ Ex); [tauto|]|]. apply text_ok_app; [by apply (encode_field_ok _ _ _ Ey); [tauto|]|].
    apply text_ok_app; [by apply data_lines_ok, split_on_text_ok|done]. }
  rewrite Hok. simpl negb. cbv iota.
  rewrite (decode_encoded_field _ _ _ _ _ Ex) by tauto. rewrite (decode_encoded_field _ _ _ _ _ Ey) by tauto. rewrite decode_data_lines.
  - simpl. assert (split_on EOL e.(re_data) ≠ []) as Hne.
    { destruct e.(re_data) as [|c s]; simpl; repeat case_match; done. }
    pose proof (join_split e.(re_data)) as Hj. destruct e as [[v|] data [w|]]; simpl in *.
    all: destruct (split_on EOL data); [done|by rewrite Hj].
  - pose proof (split_on_no_eol e.(re_data)) as Hn. rewrite Forall_forall in *. intros line Hin. unfold plain.
    apply not_true_iff_false. intros (c & Hc & Hb)%existsb_exists. apply orb_true_iff in Hb as [Hb|Hb].
    + apply not_true_iff_false in Ecr. apply Ecr, existsb_exists. exists line. split; [by apply list_elem_of_In|]. apply existsb_exists. by exists c.
    + apply (Hn line Hin). apply Z.eqb_eq, (byte_is c 10) in Hb; [|done]. subst c. by apply list_elem_of_In.
Qed.

(** C20: The text of an event reads back: a frame that the host writes for a
    plugin decodes to the event it was written from, whatever the event's name,
    identifier and lines of data are. *)
Theorem event_round_trip (e : ResponseEvent) (frame : str) (Htext : event_ok e) (Hencode : encode_event e = Ok frame) :
  decode_event frame = Ok (Some e).
Proof. by apply encoded_event_decodes. Qed.

(** ** What the client receives *)

Section adapted.
Context `{JT : JsonText, RR : ResponseReader, RL : !ResponseReaderLaws} {P : Type} `{UP : UsagePlugin P}.
Implicit Types (a : SseResponseAdapter (P := P)) (input e : ResponseEvent).

(** An event that the host accepts in place of [input]. *)
Definition replaces input e : Prop :=
  e.(re_event) = input.(re_event) ∧ e.(re_id) = input.(re_id)
  ∧ if is_done input.(re_data) then e = input
    else ∃ before after, from_slice input.(re_data) = Some before ∧ from_slice e.(re_data) = Some after
         ∧ is_object after = true ∧ json_eqb (protected_fields after) (protected_fields before) = true.

Definition single_event input : Prop :=
  ∃ before, from_slice input.(re_data) = Some before ∧ (requires_single_event before || is_terminal_event input before) = true.

Lemma object_Ok body v : object body = Ok v → from_slice body = Some v ∧ is_object v = true.
Proof. unfold object, adapt_if. destruct (from_slice body) as [w|]; [|done]. simpl. destruct (is_object w) eqn:E; [|done]. by intros [= <-]. Qed.

Lemma validate_events_Ok input es : validate_events input es = Ok tt →
  es ≠ [] ∧ Forall (replaces input) es ∧ (is_done input.(re_data) = true ∨ single_event input → length es = 1%nat).
Proof.
  unfold validate_events, replaces, single_event. destruct (is_done _).
  { unfold adapt_if. case_bool_decide as E; [|done]. intros _. rewrite E. split_and!; [done|by constructor|done]. }
  destruct (object _) as [before|] eqn:Eo; [|done]. apply object_Ok in Eo as [Eo _]. cbn [result_bind].
  destruct (_ || _) eqn:El; [done|]. apply orb_false_iff in El as [Hne Hs]. apply Nat.eqb_neq in Hne. intros Hv. split_and!.
  - by intros ->.
  - clear Hne Hs. induction es as [|e es IH]; [constructor|]. simpl in Hv. destruct (validate_event input before e) as [[]|] eqn:E; [|done].
    constructor; [|by apply IH]. unfold validate_event in E. destruct (_ || _) eqn:En; [done|].
    apply orb_false_iff in En as [H1%negb_false_iff%bool_decide_eq_true H2%negb_false_iff%bool_decide_eq_true].
    destruct (object e.(re_data)) as [after|] eqn:Ea; [|done]. apply object_Ok in Ea as [Ea Eb]. cbn [result_bind] in E. unfold adapt_if in E.
    destruct (json_eqb _ _) eqn:Ej; [|done]. split_and!; [done|done|]. by exists before, after.
  - intros [?|(before' & Hb & Hsingle)]; [done|]. rewrite Eo in Hb. injection Hb as <-. rewrite Hsingle in Hs. simpl in Hs.
    by apply negb_false_iff, Nat.eqb_eq in Hs.
Qed.

Lemma encode_events_Ok es : ∀ u frames u', encode_events es u = Ok (frames, u') →
  Forall2 (λ e f, encode_event e = Ok f) es frames ∧ u' = foldl (λ u f, Collector.observe f u) u frames.
Proof.
  induction es as [|e es IH]; intros u frames u' E; simpl in E; [by injection E as <- <-|].
  destruct (encode_event e) as [f|] eqn:Ee; [|done]. cbn [result_bind] in E.
  destruct (encode_events es _) as [[fs u1]|] eqn:Er; [|done]. injection E as <- <-. apply IH in Er as [H1 ->]. by split; [constructor|].
Qed.

Lemma adapter_call_Ok a phase event a' o : adapter_call a phase event = Ok (a', o) →
  Forall event_ok o.(ro_events) ∧ a'.(sa_original) = a.(sa_original) ∧ a'.(sa_adapted) = a.(sa_adapted)
  ∧ a'.(sa_finished) = a.(sa_finished).
Proof.
  unfold adapter_call. destruct (_ <? _); [done|]. destruct (plugin_call _ _ _ _) as [[v b]|]; [|done]. simpl.
  destruct (negb _); [done|]. destruct (output_of_value v) as [o'|] eqn:Eo; [|done]. simpl. destruct (_ || _); [done|].
  intros [= <- <-]. split_and!; try done. apply Forall_forall. intros e. by apply (output_texts v).
Qed.

(** C19: Whatever a connector plugin answers, the client of an adapted stream
    receives well-formed events: a frame without data passes unchanged, and an
    event is replaced by events of the same name and identifier whose protected
    fields are those of the original, by exactly one if it is terminal, is the
    end marker or carries usage, a sequence number or a tool call.  The host
    meters the same tokens, outcome and error on what it sends as on what it
    received, and accepts nothing after a terminal event. *)
Theorem adapted_events_safe a a' (frame : str) (frames : list str) (Hrun : adapt_frame frame a = Ok (a', frames)) :
  a.(sa_finished) = false
  ∧ match decode_event frame with
    | Err _ => False
    | Ok None => a' = a ∧ frames = [frame]
    | Ok (Some input) =>
        frames ≠ []
        ∧ Forall (λ f, ∃ e, decode_event f = Ok (Some e) ∧ replaces input e) frames
        ∧ (is_done input.(re_data) = true ∨ single_event input → length frames = 1%nat)
        ∧ a'.(sa_original) = Collector.finalize (Collector.observe frame a.(sa_original))
        ∧ a'.(sa_adapted) = Collector.finalize (foldl (λ u f, Collector.observe f u) a.(sa_adapted) frames)
        ∧ same_observation a'.(sa_original) a'.(sa_adapted) = true
        ∧ (a'.(sa_finished) = true ↔ is_Some (sse_terminal_outcome a'.(sa_original)))
    end.
Proof.
  unfold adapt_frame in Hrun. destruct (sa_finished a) eqn:Ef; [done|]. split; [done|].
  destruct (decode_event frame) as [[input|]|]; cbn [result_bind] in Hrun; [|by injection Hrun as <- <-|done].
  destruct (adapter_call a _ _) as [[a1 o]|] eqn:Ec; [|done]. cbn [result_bind] in Hrun. apply adapter_call_Ok in Ec as (Hok & _ & Ead & Efin).
  destruct (validate_events _ _) as [[]|] eqn:Ev; [|done]. cbn [result_bind] in Hrun. apply validate_events_Ok in Ev as (Hne & Hrep & Hone).
  destruct (encode_events _ _) as [[fs u]|] eqn:Ee; [|done]. cbn [result_bind] in Hrun. apply encode_events_Ok in Ee as [Henc ->].
  destruct (negb _) eqn:Es; [done|]. apply negb_false_iff in Es.
  assert (frames = fs ∧ a'.(sa_original) = Collector.finalize (Collector.observe frame a.(sa_original))
    ∧ a'.(sa_adapted) = Collector.finalize (foldl (λ u f, Collector.observe f u) a.(sa_adapted) fs)
    ∧ (a'.(sa_finished) = true ↔ is_Some (sse_terminal_outcome (Collector.finalize (Collector.observe frame a.(sa_original))))))
    as (-> & Eo & Ea & Hfin).
  { rewrite <- Ead. simpl in Hrun. destruct (sse_terminal_outcome _) eqn:Et.
    - destruct (adapter_call (with_collectors _ _ _) _ _) as [[a2 o2]|] eqn:Ec2; [|done]. cbn [result_bind] in Hrun.
      apply adapter_call_Ok in Ec2 as (_ & E1 & E2 & E3). simpl in Hrun. destruct (length _ =? 0)%nat; [|done]. injection Hrun as <- <-.
      simpl in *. split_and!; [done|by rewrite E1|by rewrite E2|by split].
    - injection Hrun as <- <-. simpl. rewrite Efin, Ef. split_and!; try done. }
  rewrite Eo, Ea. rewrite Ead in Es. split_and!; try done.
  - intros ->. by apply Forall2_nil_inv_r in Henc.
  - clear -Hrep Hok Henc. induction Henc as [|e f es fs He _ IH]; [constructor|]. apply Forall_cons in Hrep as [H1 H2], Hok as [H3 H4].
    constructor; [|by apply IH]. exists e. split; [by apply encoded_event_decodes|done].
  - intros H. rewrite <- (Forall2_length _ _ _ Henc). by apply Hone.
Qed.
End adapted.
