(* ===== verification/Relay.v ===== *)
(** * Relaying a response

    Models the body stream of [src/application/proxy.rs]: [timed_upstream_stream]
    with its state, the response adapter and the completion guard.  The upstream
    is the list of what its body yields: chunks, an error or an idle timeout, and
    the end of the body after the last one.  The client polls the stream and may
    drop it at any time. *)

From S2P Require Import Prelude Text Decimal Domain Records Billing Cost Json Journal Usage ErrorText Sse SseFrames JsonScan Collector Headers JsonPatch Plans Transform SseTransform RequestPolicy Outbound ImageBody ImageEdit Spool Compiled Admission Health Selection Affinity Routing Keyword Outcome Completion Adapter.
Open Scope gateway_scope.

Inductive UpstreamItem := UpChunk (bytes : str) | UpError (chain : string) | UpIdle.
Inductive BodyError := UpstreamFailed | StreamIdle | TransformFailedBody | AdaptationFailed.

Definition sse_terminal_request_outcome (terminal : SseTerminalOutcome) (upstream_succeeded : bool) : RequestOutcome :=
  match terminal, upstream_succeeded with
  | Completed, true => OutSucceeded
  | OutcomeFailed, true => OutUpstreamSseError
  | _, false => OutUpstreamHttpError
  end.

Section relay.
Context {D V T Policy Auth P : Type} `{DecimalOps D, JsonOps V, UtcOps T, Chrono T, JT : JsonText, UP : UsagePlugin P, UC : UnicodeCase, HL : HeaderLib, PL : PatchLib, RR : ResponseReader}.
Context (display : Z → string).
(** [to_string] of an error of the transforms. *)
Context (transform_error : TransformApplyError → string).

Abbreviation Guard := (CompletionGuard (D := D) (V := V) (T := T) (P := P)).
Abbreviation Eff := (Effect (D := D) (V := V) (T := T) (Policy := Policy) (Auth := Auth)).
Abbreviation Adapter := (SseResponseAdapter (P := P)).
Abbreviation finish_guard := (Completion.finish display (Policy := Policy) (Auth := Auth)).

(** [yield_after_sse_frame] only returns control to the scheduler. *)
Record StreamState := {
  ss_upstream : option (list UpstreamItem);
  ss_completion : Guard;
  ss_succeeded : bool;
  ss_remaining : option Z;
  ss_transformer : option SseTransformer;
  ss_adapter : option Adapter;
  ss_patches : SseEventPatchPlan;
  ss_frames : list str;
  ss_terminal : option SseTerminalOutcome;
}.

Definition with_completion (st : StreamState) (g : Guard) : StreamState :=
  {| ss_upstream := st.(ss_upstream); ss_completion := g; ss_succeeded := st.(ss_succeeded); ss_remaining := st.(ss_remaining);
     ss_transformer := st.(ss_transformer); ss_adapter := st.(ss_adapter); ss_patches := st.(ss_patches);
     ss_frames := st.(ss_frames); ss_terminal := st.(ss_terminal) |}.
Definition with_remaining (st : StreamState) (remaining : option Z) : StreamState :=
  {| ss_upstream := st.(ss_upstream); ss_completion := st.(ss_completion); ss_succeeded := st.(ss_succeeded); ss_remaining := remaining;
     ss_transformer := st.(ss_transformer); ss_adapter := st.(ss_adapter); ss_patches := st.(ss_patches);
     ss_frames := st.(ss_frames); ss_terminal := st.(ss_terminal) |}.
(** The sources of further bytes. *)
Definition with_sources (st : StreamState) (upstream : option (list UpstreamItem)) (transformer : option SseTransformer)
    (adapter : option Adapter) : StreamState :=
  {| ss_upstream := upstream; ss_completion := st.(ss_completion); ss_succeeded := st.(ss_succeeded); ss_remaining := st.(ss_remaining);
     ss_transformer := transformer; ss_adapter := adapter; ss_patches := st.(ss_patches);
     ss_frames := st.(ss_frames); ss_terminal := st.(ss_terminal) |}.
Definition with_frames (st : StreamState) (frames : list str) (terminal : option SseTerminalOutcome) : StreamState :=
  {| ss_upstream := st.(ss_upstream); ss_completion := st.(ss_completion); ss_succeeded := st.(ss_succeeded); ss_remaining := st.(ss_remaining);
     ss_transformer := st.(ss_transformer); ss_adapter := st.(ss_adapter); ss_patches := st.(ss_patches);
     ss_frames := frames; ss_terminal := terminal |}.

(** An operation on the state: its effects, and the state or the guard that
    unwinding drops. *)
Definition streamed (A : Type) : Type := list Eff * result A Guard.
Definition sret {A} (a : A) : streamed A := ([], Ok a).
Definition sbind {A B} (m : streamed A) (k : A → streamed B) : streamed B :=
  match m.2 with Ok a => (m.1 ++ (k a).1, (k a).2) | Err g => (m.1, Err g) end.
Definition perform (st : StreamState) (m : list Eff * result Guard Guard) : streamed StreamState :=
  sbind m (λ g, sret (with_completion st g)).

(** [finish] with the outcome of the whole body. *)
Definition finish_body (t : Readings) (st : StreamState) : streamed StreamState :=
  let '(g, terminal) := finalize_usage st.(ss_completion) in
  perform st (finish_guard t (match terminal with
                              | Some x => sse_terminal_request_outcome x st.(ss_succeeded)
                              | None => completed_transport_outcome st.(ss_succeeded)
                              end) g).

(** [record_stream_bytes]: first the bytes, then the announced length. *)
Definition record_bytes (t : Readings) (bytes : str) (st : StreamState) : streamed StreamState :=
  match bytes with
  | [] => sret st
  | _ =>
      let '(reports, g) := observe_upstream_error_body (Policy := Policy) (Auth := Auth) bytes st.(ss_completion) in
      let '(g, terminal) := observe_usage bytes (record_first_byte t g) in
      sbind (reports, Ok tt) (λ _,
        match terminal with
        | Some x => perform st (finish_guard t (sse_terminal_request_outcome x st.(ss_succeeded)) g)
        | None => sret (with_completion st g)
        end)
  end.
Definition count_bytes (t : Readings) (bytes : str) (st : StreamState) : streamed StreamState :=
  match st.(ss_remaining) with
  | None => sret st
  | Some remaining =>
      let remaining := sat_sub remaining (Z.of_nat (length bytes)) in
      let st := with_remaining st (Some remaining) in
      if remaining =? 0 then finish_body t st else sret st
  end.
Definition record_stream_bytes (t : Readings) (bytes : str) (st : StreamState) : streamed StreamState :=
  sbind (record_bytes t bytes st) (count_bytes t bytes).

(** [transform_sse_frame] on each adapted frame, in order. *)
Definition patch_frames (plan : SseEventPatchPlan) (frames : list str) : option (list str) :=
  match try_map (λ f, transform_sse_frame f plan) frames with Ok fs => Some fs | Err _ => None end.

(** [adapt_stream_frame]; without a value when the adapter refuses. *)
Definition adapt_stream_frame (frame : str) (a : Adapter) (st : StreamState) : list Eff * StreamState * bool :=
  let '(reports, g) := observe_upstream_error_body (Policy := Policy) (Auth := Auth) frame st.(ss_completion) in
  let '(g, terminal) := observe_usage frame g in
  let '(g, terminal) := match terminal with Some _ => (g, terminal) | None => finalize_usage g end in
  let st := with_completion st g in
  match adapt_frame frame a with
  | Err _ => (reports, st, false)
  | Ok (a, frames) =>
      match patch_frames st.(ss_patches) frames with
      | None => (reports, st, false)
      | Some frames =>
          (reports, with_frames (with_sources st st.(ss_upstream) st.(ss_transformer) (Some a)) (st.(ss_frames) ++ frames) terminal, true)
      end
  end.

(** ** One turn of the loop *)

Inductive Turn :=
| Again (st : StreamState)
| Yields (bytes : str) (st : StreamState)
| Fails (e : BodyError) (st : StreamState)
| Ends (st : StreamState).

Definition fail_response_adapter (t : Readings) (st : StreamState) : streamed Turn :=
  let st := with_frames (with_sources st None None None) [] st.(ss_terminal) in
  sbind (perform st (finish_with_proxy_error display t OutResponseTransformFailed response_transform_failed st.(ss_completion)))
    (λ st, sret (Fails AdaptationFailed st)).

(** A frame for the adapter, then the next turn. *)
Definition adapt_or_fail (t : Readings) (frame : str) (a : Adapter) (st : StreamState) : streamed Turn :=
  let '(reports, st, ok) := adapt_stream_frame frame a st in
  sbind (reports, Ok tt) (λ _, if (ok : bool) then sret (Again st) else fail_response_adapter t st).

(** The end of the upstream's body. *)
Definition end_of_body (t : Readings) (st : StreamState) : streamed Turn :=
  let st := with_sources st None st.(ss_transformer) st.(ss_adapter) in
  let '(transformer, residual) := match st.(ss_transformer) with
                                  | Some tr => let '(tr, r) := SseTransform.finish tr in (Some tr, r)
                                  | None => (None, None)
                                  end in
  let st := with_sources st None transformer st.(ss_adapter) in
  match residual, st.(ss_adapter) with
  | Some frame, Some a => adapt_or_fail t frame a st
  | Some frame, None =>
      sbind (record_stream_bytes t frame st) (λ st, sbind (finish_body t st) (λ st, sret (Yields frame st)))
  | None, Some a =>
      match adapter_finish a with
      | Err _ => fail_response_adapter t st
      | Ok _ => sbind (finish_body t st) (λ st, sret (Ends st))
      end
  | None, None => sbind (finish_body t st) (λ st, sret (Ends st))
  end.

(** What the upstream yields next. *)
Definition pull (t : Readings) (st : StreamState) : streamed Turn :=
  match st.(ss_upstream) with
  | None =>
      match st.(ss_adapter) with
      | Some a => match adapter_finish a with Err _ => fail_response_adapter t st | Ok _ => sret (Ends st) end
      | None => sret (Ends st)
      end
  | Some [] => end_of_body t st
  | Some (UpChunk bytes :: rest) =>
      let st := with_sources st (Some rest) st.(ss_transformer) st.(ss_adapter) in
      match st.(ss_transformer) with
      | Some tr =>
          match SseTransform.push tr bytes with
          | Some tr => sret (Again (with_sources st (Some rest) (Some tr) st.(ss_adapter)))
          | None => ([], Err st.(ss_completion))
          end
      | None => sbind (record_stream_bytes t bytes st) (λ st, sret (Yields bytes st))
      end
  | Some (UpError chain :: _) =>
      let st := with_sources st None st.(ss_transformer) None in
      sbind (perform st (finish_with_message display t OutUpstreamBodyError (Some "upstream_body_error") chain st.(ss_completion)))
        (λ st, sret (Fails UpstreamFailed st))
  | Some (UpIdle :: _) =>
      let st := with_sources st None st.(ss_transformer) None in
      sbind (perform st (finish_with_message display t OutStreamIdleTimeout (Some "stream_idle_timeout")
                           "The upstream response stream was idle for too long." st.(ss_completion)))
        (λ st, sret (Fails StreamIdle st))
  end.

(** An adapted frame that waits to be sent. *)
Definition send_frame (t : Readings) (frame : str) (frames : list str) (st : StreamState) : streamed Turn :=
  let g := record_first_byte t st.(ss_completion) in
  match frames, st.(ss_terminal) with
  | [], Some terminal =>
      sbind (perform (with_frames st [] None) (finish_guard t (sse_terminal_request_outcome terminal st.(ss_succeeded)) g))
        (λ st, sret (Yields frame st))
  | _, _ => sret (Yields frame (with_frames (with_completion st g) frames st.(ss_terminal)))
  end.

Definition turn (t : Readings) (st : StreamState) : streamed Turn :=
  match st.(ss_frames), st.(ss_transformer) with
  | frame :: frames, _ => send_frame t frame frames st
  | [], None => pull t st
  | [], Some tr =>
      let '(tr, next) := next_frame tr in
      match next with
      | Ok (Some frame) =>
          let st := with_sources st st.(ss_upstream) (Some tr) st.(ss_adapter) in
          match st.(ss_adapter) with
          | Some a => adapt_or_fail t frame a st
          | None => sbind (record_stream_bytes t frame st) (λ st, sret (Yields frame st))
          end
      | Ok None => pull t (with_sources st st.(ss_upstream) (Some tr) st.(ss_adapter))
      | Err e =>
          let st := with_sources st None None None in
          sbind (perform st (finish_with_error_details display t OutResponseTransformFailed
                               (proxy_error_with_source response_transform_failed (transform_error e)) st.(ss_completion)))
            (λ st, sret (Fails TransformFailedBody st))
      end
  end.

(** ** Polls *)

(** A poll runs turns until one yields; [fuel] turns are allowed. *)
Fixpoint poll (fuel : nat) (t : Readings) (st : StreamState) : option (streamed Turn) :=
  match fuel with
  | O => None
  | S fuel =>
      match (turn t st).2 with
      | Ok (Again st') => (λ m, ((turn t st).1 ++ m.1, m.2)) <$> poll fuel t st'
      | _ => Some (turn t st)
      end
  end.

(** Turns left before the stream must yield: a chunk is read once, each frame
    takes a byte of its chunk or ends a line whose CR was taken, and the body
    ends once. *)
Definition unread (tr : SseTransformer) : nat :=
  match tr.(st_source) with Some s => length s + (if tr.(pending_cr) then 1 else 0) + 1 | None => 0 end.
Definition item_turns (i : UpstreamItem) : nat := match i with UpChunk bytes => length bytes + 3 | _ => 0 end.
Definition turns_left (st : StreamState) : nat :=
  match st.(ss_transformer) with Some tr => unread tr | None => 0 end
  + match st.(ss_upstream) with Some items => 1 + list_sum (item_turns <$> items) | None => 0 end.

(** ** The client reads the body *)

Inductive BodyEnd := Disconnected | Panicked | Finished | Broken (e : BodyError).

(** The client takes at most [polls] chunks, each poll with its readings of the
    clock, and then drops the stream. *)
Fixpoint relay (polls : nat) (clock : nat → Readings) (st : StreamState) : list str * BodyEnd * list Eff :=
  match polls with
  | O => ([], Disconnected, drop_guard display (clock 0%nat) st.(ss_completion))
  | S polls =>
      match poll (S (turns_left st)) (clock 0%nat) st with
      | Some (es, Ok (Yields bytes st)) =>
          let '(out, e, es') := relay polls (λ n, clock (S n)) st in (bytes :: out, e, es ++ es')
      | Some (es, Ok (Fails e st)) => ([], Broken e, es ++ drop_guard display (clock 0%nat) st.(ss_completion))
      | Some (es, Ok (Ends st | Again st)) => ([], Finished, es ++ drop_guard display (clock 0%nat) st.(ss_completion))
      | Some (es, Err g) => ([], Panicked, es ++ drop_guard display (clock 0%nat) g)
      | None => ([], Finished, [])
      end
  end.
End relay.

(** ** Every poll ends *)

Section progress.
Context {D V T Policy Auth P : Type} `{DecimalOps D, JsonOps V, UtcOps T, Chrono T, JT : JsonText, UP : UsagePlugin P, UC : UnicodeCase, HL : HeaderLib, PL : PatchLib, RR : ResponseReader}.
Context (display : Z → string) (transform_error : TransformApplyError → string).
Abbreviation State := (StreamState (D := D) (V := V) (T := T) (P := P)).
Abbreviation Eff := (Effect (D := D) (V := V) (T := T) (Policy := Policy) (Auth := Auth)).
Abbreviation body_turn := (turn display transform_error (Policy := Policy) (Auth := Auth)).
Implicit Types (st : State) (tr : SseTransformer).

Lemma scan_unread tr s : ∀ frame content cr,
  match scan tr frame content cr s with
  | (tr', Ok (Some _)) => (unread tr' < length s + (if cr then 1 else 0) + 1)%nat
  | (tr', Ok None) => tr'.(st_source) = None
  | (_, Err _) => True
  end.
Proof.
  assert (Hemit : ∀ frame rest n, (length rest + 1 < n)%nat →
    match SseTransform.emit tr frame rest with
    | (tr', Ok (Some _)) => (unread tr' < n)%nat | (tr', Ok None) => tr'.(st_source) = None | (_, Err _) => True
    end).
  { intros frame rest n Hn. unfold SseTransform.emit. destruct (transform_sse_frame _ _); [|done]. unfold unread. simpl. lia. }
  induction s as [|c s IH]; intros frame content cr; cbn [scan]; [done|].
  assert (Hrec : ∀ frame content cr',
    match scan tr frame content cr' s with
    | (tr', Ok (Some _)) => (unread tr' < S (length s) + (if cr then 1 else 0) + 1)%nat
    | (tr', Ok None) => tr'.(st_source) = None
    | (_, Err _) => True
    end).
  { intros f b cr'. specialize (IH f b cr'). destruct (scan tr f b cr' s) as [tr' [[?|]|?]]; [|done|done]. destruct cr, cr'; lia. }
  destruct cr, (is_lf c), content, (append_byte frame c), (is_cr c); try done;
    (apply Hrec || (apply Hemit; simpl; lia)).
Qed.

Lemma next_frame_unread tr :
  match next_frame tr with
  | (tr', Ok (Some _)) => (unread tr' < unread tr)%nat
  | (tr', Ok None) => tr'.(st_source) = None
  | (_, Err _) => True
  end.
Proof.
  unfold next_frame. destruct (st_source tr) as [s|] eqn:Hs; [|done].
  pose proof (scan_unread tr s tr.(st_frame) tr.(line_has_content) tr.(pending_cr)) as Hu. unfold unread at 2. by rewrite Hs.
Qed.

(** A turn that does not yield uses up what it may read. *)
Lemma adapt_or_fail_again t frame a st es st' :
  adapt_or_fail display (Policy := Policy) (Auth := Auth) t frame a st = (es, Ok (Again st')) → turns_left st' = turns_left st.
Proof.
  unfold adapt_or_fail, adapt_stream_frame.
  destruct (observe_upstream_error_body _ _) as [reports g]. destruct (observe_usage frame g) as [g' terminal].
  destruct (match terminal with Some _ => _ | None => _ end) as [g2 terminal'].
  assert (Hfail : ∀ st, sbind (reports, Ok tt) (λ _, fail_response_adapter display t st) = (es, Ok (Again st')) → False).
  { intros st1. unfold fail_response_adapter, sbind. simpl. destruct (perform _ _) as [es1 [?|?]]; simpl; by intros [= _ ?]. }
  destruct (adapt_frame frame a) as [[a' frames]|]; [|by intros ?%Hfail].
  destruct (patch_frames _ _); [|by intros ?%Hfail]. unfold sbind, sret. simpl. by intros [= _ <-].
Qed.

(** A bound value is never another turn when its continuation is none. *)
Lemma sbind_not_again {A} (m : list Eff * result A (CompletionGuard (D := D) (V := V) (T := T) (P := P))) k es st' :
  sbind m k = (es, Ok (Again st')) → ∃ a es', m.2 = Ok a ∧ k a = (es', Ok (Again st')).
Proof. unfold sbind. destruct m as [es0 [a|g]]; simpl; [|done]. destruct (k a) as [es' r] eqn:E. intros [= _ ->]. eauto. Qed.

Ltac not_again :=
  repeat match goal with
         | H : sbind _ _ = (_, Ok (Again _)) |- _ => apply sbind_not_again in H as (? & ? & _ & H)
         | H : sret _ = _ |- _ => discriminate H
         end.

Lemma fail_not_again t st es st' : fail_response_adapter display (Policy := Policy) (Auth := Auth) t st ≠ (es, Ok (Again st')).
Proof. unfold fail_response_adapter. intros Hf. not_again. Qed.

Lemma end_of_body_again t st es st' :
  end_of_body display (Policy := Policy) (Auth := Auth) t st = (es, Ok (Again st')) → (turns_left st' + 1 ≤ turns_left st + match st.(ss_upstream) with Some _ => 0 | None => 1 end)%nat.
Proof.
  unfold end_of_body. cbn [ss_transformer ss_adapter with_sources].
  destruct (match ss_transformer st with Some tr => _ | None => _ end) as [transformer residual] eqn:Htr.
  destruct residual as [frame|], (ss_adapter st) as [a|]; intros Hturn.
  - apply adapt_or_fail_again in Hturn. rewrite Hturn. unfold turns_left. cbn [with_sources ss_transformer ss_upstream].
    destruct (ss_transformer st) as [tr|]; [|done]. unfold SseTransform.finish in Htr.
    destruct (st_frame tr); injection Htr as <- ?; [done|].
    replace (unread _) with (unread tr) by done. destruct (ss_upstream st); lia.
  - not_again.
  - destruct (adapter_finish a); [not_again|by apply fail_not_again in Hturn].
  - not_again.
Qed.

Lemma pull_again t st es st' :
  match st.(ss_transformer) with Some tr => tr.(st_source) = None | None => True end →
  pull display (Policy := Policy) (Auth := Auth) t st = (es, Ok (Again st')) → (turns_left st' < turns_left st)%nat.
Proof.
  unfold pull. destruct (ss_upstream st) as [[|[bytes|chain|] rest]|] eqn:Hu; intros Hsrc Hturn; try not_again.
  - apply end_of_body_again in Hturn. rewrite Hu in Hturn. lia.
  - cbn [with_sources ss_transformer ss_adapter ss_completion] in Hturn. unfold turns_left. rewrite Hu.
    destruct (ss_transformer st) as [tr|] eqn:Htr; [|not_again].
    unfold push in Hturn. rewrite Hsrc in Hturn. unfold sret in Hturn. injection Hturn as _ <-.
    cbn [with_sources ss_transformer ss_upstream]. unfold unread. rewrite Hsrc. rewrite fmap_cons. cbn [list_sum foldr item_turns with_state st_source pending_cr]. fold (list_sum (item_turns <$> rest)). destruct (pending_cr tr); lia.
  - destruct (ss_adapter st) as [a|]; [|done]. destruct (adapter_finish a); [done|by apply fail_not_again in Hturn].
Qed.

Lemma turn_again t st es st' : body_turn t st = (es, Ok (Again st')) → (turns_left st' < turns_left st)%nat.
Proof.
  unfold turn. destruct (ss_frames st) as [|frame frames].
  - destruct (ss_transformer st) as [tr|] eqn:Htr; intros Hturn; [|eapply pull_again; [|done]; by rewrite Htr].
    pose proof (next_frame_unread tr) as Hu. destruct (next_frame tr) as [tr' [[frame|]|e]]; [| |not_again].
    + cbn [with_sources ss_adapter] in Hturn. destruct (ss_adapter st) as [a|]; [|not_again].
      apply adapt_or_fail_again in Hturn. rewrite Hturn. unfold turns_left. cbn [with_sources ss_transformer ss_upstream].
      rewrite Htr. lia.
    + apply pull_again in Hturn; [|done]. unfold turns_left in *. cbn [with_sources ss_transformer ss_upstream] in Hturn.
      unfold unread in Hturn at 2. rewrite Hu in Hturn. lia.
  - unfold send_frame. intros Hturn. destruct frames, (ss_terminal st); try done; not_again.
Qed.

Lemma poll_unfold fuel t st :
  poll display transform_error (Policy := Policy) (Auth := Auth) (S fuel) t st
  = match (body_turn t st).2 with
    | Ok (Again st') => (λ m, ((body_turn t st).1 ++ m.1, m.2)) <$> poll display transform_error fuel t st'
    | _ => Some (body_turn t st)
    end.
Proof. done. Qed.

Lemma poll_ends t st fuel :
  (turns_left st < fuel)%nat →
  ∃ es r, poll display transform_error (Policy := Policy) (Auth := Auth) fuel t st = Some (es, r) ∧ ∀ st', r ≠ Ok (Again st').
Proof.
  revert st. induction fuel as [|fuel IH]; intros st Hfuel; [lia|]. rewrite poll_unfold.
  destruct (body_turn t st) as [es r] eqn:Hturn. cbn [fst snd].
  destruct r as [[st'|bytes st'|e st'|st']|g]; [|by eexists _, _..].
  pose proof (turn_again t st es st' Hturn). destruct (IH st' ltac:(lia)) as (es' & r' & -> & Hr). simpl. eauto.
Qed.

(** C24: however the upstream cuts its body and whatever its adapter answers, a
    poll of the response body ends: after at most one turn per unread byte, two
    more per unread chunk and one for the end of the body, the stream yields
    bytes, fails or ends (or a price panics); no poll spins on empty chunks or on
    frames that adapt to nothing. *)
Theorem poll_terminates t st fuel :
  (turns_left st < fuel)%nat →
  ∃ es r, poll display transform_error (Policy := Policy) (Auth := Auth) fuel t st = Some (es, r) ∧ ∀ st', r ≠ Ok (Again st').
Proof. apply poll_ends. Qed.
End progress.

(** ** Every body settles its request *)

Section settling.
Context {D V T Policy Auth P : Type} `{DecimalOps D, JsonOps V, UtcOps T, Chrono T, JT : JsonText, UP : UsagePlugin P, UC : UnicodeCase, HL : HeaderLib, PL : PatchLib, RR : ResponseReader}.
Context (display : Z → string) (transform_error : TransformApplyError → string).
Abbreviation State := (StreamState (D := D) (V := V) (T := T) (P := P)).
Abbreviation Guard := (CompletionGuard (D := D) (V := V) (T := T) (P := P)).
Abbreviation Eff := (Effect (D := D) (V := V) (T := T) (Policy := Policy) (Auth := Auth)).
Implicit Types (st : State) (tr : SseTransformer) (g : Guard) (es : list Eff).

(** What may justify the logged success of a request: an upstream success, and a
    completed SSE stream or a body without a terminal event that was read whole. *)
Definition justified (succeeded : bool) (W : Prop) (o : RequestOutcome) (a : AttemptContext (P := P)) : Prop :=
  o = OutSucceeded → succeeded = true
    ∧ (sse_terminal_outcome a.(cx_usage) = Some Completed ∨ sse_terminal_outcome a.(cx_usage) = None ∧ W).

Lemma justified_terminal succeeded W x a :
  sse_terminal_outcome a.(cx_usage) = Some x → justified succeeded W (sse_terminal_request_outcome x succeeded) a.
Proof. intros Hx Ho. destruct x, succeeded; try done. split; [done|by left]. Qed.
Lemma justified_transport succeeded (W : Prop) a :
  sse_terminal_outcome a.(cx_usage) = None → W → justified succeeded W (completed_transport_outcome succeeded) a.
Proof. intros Hx HW Ho. destruct succeeded; [|done]. split; [done|by right]. Qed.

(** A state that differs in the guard and the count only. *)
Definition same_but_guard st st' : Prop := st' = with_remaining (with_completion st st'.(ss_completion)) st'.(ss_remaining).
Definition stream_advances Q st (m : list Eff * result State Guard) : Prop :=
  match m.2 with
  | Ok st' => advances display Q st.(ss_completion) m.1 false st'.(ss_completion) ∧ same_but_guard st st'
  | Err g => advances display Q st.(ss_completion) m.1 true g
  end.

Lemma stream_advances_ret Q st : stream_advances Q st (sret st).
Proof. split; [apply advances_refl|by destruct st]. Qed.

Lemma stream_advances_bind Q st m k :
  stream_advances Q st m → (∀ st', m.2 = Ok st' → same_but_guard st st' → stream_advances Q st' (k st')) →
  stream_advances Q st (sbind m k).
Proof.
  unfold stream_advances, sbind. destruct m as [es [st'|g]]; simpl; [|done]. intros [Ha Hs] Hk. specialize (Hk st' eq_refl Hs).
  destruct (k st') as [es' [st2|g]]; simpl in *; [|by eapply advances_trans].
  destruct Hk as [Ha' Hs']. split; [by eapply advances_trans|]. unfold same_but_guard in *. rewrite Hs', Hs. by destruct st2.
Qed.

(** Bytes that are observed before the guard is used. *)
Lemma perform_advances Q st es g m :
  advances display Q st.(ss_completion) es false g → advances_to display Q g m →
  stream_advances Q st (sbind (es, Ok tt) (λ _, perform st m)).
Proof.
  intros Ha Hm. unfold stream_advances, perform, sbind, advances_to in *. simpl. destruct m as [es' [g'|g']]; simpl in *.
  - rewrite app_nil_r. split; [by eapply advances_trans|done].
  - by eapply advances_trans.
Qed.

Lemma observe_usage_advances Q bytes g : advances display Q g ([] : list Eff) false (observe_usage bytes g).1.
Proof. apply (advances_quiet display Q _ g [] (g_disable g)); done. Qed.
Lemma finalize_usage_advances Q g : advances display Q g ([] : list Eff) false (finalize_usage g).1.
Proof. apply (advances_quiet display Q _ g [] (g_disable g)); done. Qed.
Lemma first_byte_advances Q t g : advances display Q g ([] : list Eff) false (record_first_byte t g).
Proof. apply (advances_quiet display Q _ g [] (g_disable g)); try done. intros a. by destruct (cx_first_byte_at a). Qed.
Lemma on_attempt_id g : on_attempt id g = g.
Proof. unfold on_attempt. destruct g as [[c|] le ad di]; simpl; [|done]. unfold id. by rewrite with_attempt_same. Qed.
Lemma error_body_advances Q bytes g :
  advances display Q g (observe_upstream_error_body (Policy := Policy) (Auth := Auth) bytes g).1 false
    (observe_upstream_error_body (Policy := Policy) (Auth := Auth) bytes g).2.
Proof.
  unfold observe_upstream_error_body. destruct (g_disable g) as [d|]; [|apply advances_refl].
  destruct (keyword_matcher d) as [m|]; [|apply advances_refl]. destruct (keyword_observe bytes m) as [m' found].
  cbn [fst snd]. rewrite <-(on_attempt_id g) at 2. by destruct found; apply advances_quiet.
Qed.

(** What the collector says is what the context holds. *)
Lemma seen_attempt g c : g.(g_context) = Some c → terminal_seen g = sse_terminal_outcome c.(cx_attempt).(cx_usage).
Proof. unfold terminal_seen. by intros ->. Qed.

Lemma finish_body_advances (W : Prop) t st :
  W → stream_advances (justified st.(ss_succeeded) W) st (finish_body display (Policy := Policy) (Auth := Auth) t st).
Proof.
  intros HW. unfold finish_body. pose proof (finalize_usage_advances (justified st.(ss_succeeded) W) st.(ss_completion)) as Ha.
  destruct (finalize_usage (ss_completion st)) as [g terminal] eqn:Hf. simpl in Ha.
  apply (perform_advances _ _ [] g); [done|]. apply finish_advances. destruct (g_context g) as [c|] eqn:Hg; [|done].
  assert (terminal = terminal_seen g) as -> by (by injection Hf as <- <-). rewrite (seen_attempt g c Hg).
  destruct (sse_terminal_outcome _) eqn:Hx; [by apply justified_terminal|by apply justified_transport].
Qed.

Lemma record_bytes_advances (W : Prop) t bytes st :
  stream_advances (justified st.(ss_succeeded) W) st (record_bytes display (Policy := Policy) (Auth := Auth) t bytes st).
Proof.
  unfold record_bytes. destruct bytes as [|b bytes]; [apply stream_advances_ret|]. set (all := b :: bytes).
  pose proof (error_body_advances (justified st.(ss_succeeded) W) all st.(ss_completion)) as Ha.
  destruct (observe_upstream_error_body all (ss_completion st)) as [reports g]. cbn [fst snd] in Ha.
  pose proof (advances_trans _ _ _ _ _ _ _ _ Ha (advances_trans _ _ _ _ _ _ _ _ (first_byte_advances _ t g)
    (observe_usage_advances _ all (record_first_byte t g)))) as Hb. rewrite app_nil_r in Hb.
  destruct (observe_usage all (record_first_byte t g)) as [g' terminal] eqn:Ho. cbn [fst] in Hb.
  assert (terminal = terminal_seen g') as Hterm by (by injection Ho as <- <-).
  destruct terminal as [x|].
  - apply (perform_advances _ _ reports g'); [done|]. apply finish_advances. destruct (g_context g') as [c|] eqn:Hc; [|done].
    apply justified_terminal. by rewrite <-(seen_attempt g' c Hc).
  - unfold stream_advances, sbind, sret. cbn [fst snd]. rewrite app_nil_r. split; [done|]. by destruct st.
Qed.

Lemma count_bytes_advances (W : Prop) t bytes st :
  (∀ n, st.(ss_remaining) = Some n → n ≤ Z.of_nat (length bytes) → W) →
  stream_advances (justified st.(ss_succeeded) W) st (count_bytes display (Policy := Policy) (Auth := Auth) t bytes st).
Proof.
  intros HW. unfold count_bytes. destruct (ss_remaining st) as [n|] eqn:Hn; [|apply stream_advances_ret].
  set (st1 := with_remaining st _). assert (same_but_guard st st1) as Hs by (by destruct st).
  destruct (sat_sub n (Z.of_nat (length bytes)) =? 0) eqn:Hz.
  - assert (W) as HW' by (apply (HW n); [done|unfold sat_sub in Hz; lia]).
    pose proof (finish_body_advances W t st1 HW') as Hf. unfold stream_advances in *.
    destruct (finish_body display t st1) as [es [st'|g]]; cbn [fst snd] in *; [|done].
    destruct Hf as [Hf Hs']. split; [done|]. unfold same_but_guard in *. rewrite Hs', Hs. by destruct st'.
  - split; [apply advances_refl|done].
Qed.

Lemma perform_value st (m : list Eff * result Guard Guard) st' :
  (perform st m).2 = Ok st' → ss_remaining st' = ss_remaining st.
Proof. unfold perform, sbind. destruct m as [es [g|g]]; simpl; [|done]. by intros [= <-]. Qed.
Lemma finish_body_remaining t st st' :
  (finish_body display (Policy := Policy) (Auth := Auth) t st).2 = Ok st' → ss_remaining st' = ss_remaining st.
Proof. unfold finish_body. destruct (finalize_usage _). apply perform_value. Qed.
Lemma record_bytes_remaining t bytes st st' :
  (record_bytes display (Policy := Policy) (Auth := Auth) t bytes st).2 = Ok st' → ss_remaining st' = ss_remaining st.
Proof.
  unfold record_bytes. destruct bytes as [|b bytes]; [by intros [= <-]|].
  destruct (observe_upstream_error_body _ _) as [reports g], (observe_usage _ _) as [g' [x|]]; unfold sbind; cbn [fst snd].
  - apply perform_value.
  - by intros [= <-].
Qed.
Lemma record_stream_bytes_remaining t bytes st st' :
  (record_stream_bytes display (Policy := Policy) (Auth := Auth) t bytes st).2 = Ok st' →
  ss_remaining st' = (λ n, sat_sub n (Z.of_nat (length bytes))) <$> ss_remaining st.
Proof.
  unfold record_stream_bytes, sbind. destruct (record_bytes display t bytes st) as [es [st1|g]] eqn:Hb; [|done]. cbn [fst snd].
  assert (ss_remaining st1 = ss_remaining st) as <- by (eapply record_bytes_remaining; by rewrite Hb).
  unfold count_bytes. destruct (ss_remaining st1) as [n|] eqn:Hn; [|by intros [= <-]].
  destruct (_ =? 0); [by intros ->%finish_body_remaining|by intros [= <-]].
Qed.

Lemma record_stream_bytes_advances (W : Prop) t bytes st :
  (∀ n, st.(ss_remaining) = Some n → n ≤ Z.of_nat (length bytes) → W) →
  stream_advances (justified st.(ss_succeeded) W) st (record_stream_bytes display (Policy := Policy) (Auth := Auth) t bytes st).
Proof.
  intros HW. unfold record_stream_bytes. apply stream_advances_bind; [apply record_bytes_advances|].
  intros st' Hst Hs. assert (ss_succeeded st = ss_succeeded st') as -> by (by rewrite Hs).
  apply count_bytes_advances. by rewrite (record_bytes_remaining t bytes st st' Hst).
Qed.

(** ** One turn *)

Definition is_chunk (i : UpstreamItem) : Prop := match i with UpChunk _ => True | _ => False end.
Definition item_bytes (i : UpstreamItem) : Z := match i with UpChunk bytes => Z.of_nat (length bytes) | _ => 0 end.
Definition total_bytes (items : list UpstreamItem) : Z := foldr Z.add 0 (item_bytes <$> items).

(** The body is whole when the upstream ends without an error, or after chunks
    that make up the announced length. *)
Definition whole_body (remaining : option Z) (upstream : option (list UpstreamItem)) : Prop :=
  ∃ items, upstream = Some items
    ∧ (Forall is_chunk items ∨ ∃ k n, remaining = Some n ∧ Forall is_chunk (take k items) ∧ n ≤ total_bytes (take k items)).

(** A transformed body has no announced length; an adapter works on the frames
    of a transformer; the terminal event of adapted frames is the one the
    collector saw. *)
Record coherent st : Prop := {
  coh_length : is_Some st.(ss_transformer) → st.(ss_remaining) = None;
  coh_adapter : is_Some st.(ss_adapter) → is_Some st.(ss_transformer);
  coh_terminal : ∀ x, st.(ss_terminal) = Some x →
    st.(ss_completion).(g_context) = None ∨ is_Some st.(ss_adapter) ∧ terminal_seen st.(ss_completion) = Some x;
}.

Definition turn_state (tn : Turn) : State := match tn with Again st | Yields _ st | Fails _ st | Ends st => st end.
(** [W] is what a whole body means for the request. *)
Definition turn_advances (W : Prop) st (m : list Eff * result Turn Guard) : Prop :=
  let Q := justified st.(ss_succeeded) W in
  match m.2 with
  | Ok tn =>
      let st' := turn_state tn in
      advances display Q st.(ss_completion) m.1 false st'.(ss_completion) ∧ coherent st' ∧ st'.(ss_succeeded) = st.(ss_succeeded)
      ∧ (whole_body st'.(ss_remaining) st'.(ss_upstream) → W)
  | Err g => advances display Q st.(ss_completion) m.1 true g
  end.

Lemma turn_lift W st st1 m :
  turn_advances W st1 m → st1.(ss_completion) = st.(ss_completion) → st1.(ss_succeeded) = st.(ss_succeeded) → turn_advances W st m.
Proof. unfold turn_advances. by intros Hm <- <-. Qed.

(** A turn that ends in an operation on the guard. *)
Lemma turn_of W st m (mk : State → Turn) :
  (∀ s, turn_state (mk s) = s) → stream_advances (justified st.(ss_succeeded) W) st m →
  (∀ st', m.2 = Ok st' → same_but_guard st st' → coherent st' ∧ (whole_body st'.(ss_remaining) st'.(ss_upstream) → W)) →
  turn_advances W st (sbind m (λ s, sret (mk s))).
Proof.
  intros Hmk Hm Hst. unfold turn_advances, stream_advances, sbind, sret in *.
  destruct m as [es [st'|g]]; cbn [fst snd] in *; [|done]. rewrite Hmk, app_nil_r. destruct Hm as [Ha Hs].
  destruct (Hst st' eq_refl Hs) as [Hco HW]. split_and!; try done. by rewrite Hs.
Qed.

Lemma finish_details_advances (Q : RequestOutcome → AttemptContext (P := P) → Prop) t o d g :
  (∀ a, Q o a) → advances_to display Q g (finish_with_error_details (Policy := Policy) (Auth := Auth) display t o d g).
Proof.
  intros HQ. unfold finish_with_error_details.
  assert (advances display Q g ([] : list Eff) false (set_error_details d g)) as Hd
    by (apply (advances_quiet display Q _ g [] (g_disable g)); done).
  assert (advances_to display Q (set_error_details d g) (finish (Policy := Policy) (Auth := Auth) display t o (set_error_details d g))) as Hf.
  { apply finish_advances. by destruct (g_context _). }
  unfold advances_to in *. destruct (finish display t o _) as [es [g'|g']]; cbn [fst snd] in *.
  - by apply (advances_trans display Q g [] (set_error_details d g) es).
  - by apply (advances_trans display Q g [] (set_error_details d g) es).
Qed.
Lemma finish_details_over t o d g :
  match (finish_with_error_details (Policy := Policy) (Auth := Auth) display t o d g).2 with Ok g' | Err g' => g'.(g_context) = None end.
Proof. apply finish_over. Qed.

Lemma no_body remaining : whole_body remaining None → False.
Proof. by intros (items & ? & _). Qed.

(** The stream fails: its sources are gone and the request is over. *)
Lemma failed_turn W t st o d e :
  o ≠ OutSucceeded → (is_Some st.(ss_transformer) → st.(ss_remaining) = None) → st.(ss_adapter) = None → st.(ss_upstream) = None →
  turn_advances W st (sbind (perform st (finish_with_error_details (Policy := Policy) (Auth := Auth) display t o d st.(ss_completion)))
                     (λ st, sret (Fails e st))).
Proof.
  intros Ho Hl Had Hu. eapply turn_of; [done| |].
  - apply (perform_advances _ st [] (ss_completion st)); [apply advances_refl|]. apply finish_details_advances.
    intros a Hs. by destruct Ho.
  - intros st' Hst Hs. pose proof (finish_details_over t o d (ss_completion st)) as Hover.
    unfold perform, sbind in Hst. destruct (finish_with_error_details display t o d _) as [es [g'|g']]; [|done].
    cbn in Hst, Hover. injection Hst as <-. cbn. rewrite Hu.
    split; [|by intros ?%no_body]. split; cbn; [done|by rewrite Had; intros [??]|by left].
Qed.

Lemma fail_response_adapter_turn W t st : turn_advances W st (fail_response_adapter display (Policy := Policy) (Auth := Auth) t st).
Proof.
  unfold fail_response_adapter.
  eapply turn_lift; [apply failed_turn; [done|by intros [??]|done|done]|done|done].
Qed.

Lemma turn_after W st g reports m :
  advances display (justified st.(ss_succeeded) W) st.(ss_completion) reports false g →
  turn_advances W (with_completion st g) m → turn_advances W st (sbind (reports, Ok tt) (λ _, m)).
Proof.
  unfold turn_advances, sbind. cbn. intros Ha. destruct m as [es [tn|g']]; cbn.
  - intros (Ha' & Hrest). split; [by eapply advances_trans|done].
  - intros Ha'. by eapply advances_trans.
Qed.

(** The frame is observed, and its terminal event is the collector's. *)
Lemma adapt_observation Q (frame : str) g :
  let '(reports, g1) := observe_upstream_error_body (Policy := Policy) (Auth := Auth) frame g in
  let '(g2, terminal) := observe_usage frame g1 in
  let '(g3, terminal) := match terminal with Some _ => (g2, terminal) | None => finalize_usage g2 end in
  advances display Q g reports false g3 ∧ terminal = terminal_seen g3.
Proof.
  pose proof (error_body_advances Q frame g) as Ha.
  destruct (observe_upstream_error_body frame g) as [reports g1]. cbn [fst snd] in Ha.
  pose proof (advances_trans _ _ _ _ _ _ _ _ Ha (observe_usage_advances _ frame g1)) as Hb. rewrite app_nil_r in Hb.
  destruct (observe_usage frame g1) as [g2 terminal] eqn:Ho. cbn [fst] in Hb. destruct terminal as [x|].
  - split; [done|]. by injection Ho as <- ->.
  - pose proof (advances_trans _ _ _ _ _ _ _ _ Hb (finalize_usage_advances _ g2)) as Hc. rewrite app_nil_r in Hc.
    destruct (finalize_usage g2) as [g3 terminal] eqn:Hf. split; [done|]. by injection Hf as <- <-.
Qed.

Lemma adapt_or_fail_turn (W : Prop) t frame a st :
  coherent st → is_Some st.(ss_adapter) → (whole_body st.(ss_remaining) st.(ss_upstream) → W) →
  turn_advances W st (adapt_or_fail display (Policy := Policy) (Auth := Auth) t frame a st).
Proof.
  intros Hco Had HW. unfold adapt_or_fail, adapt_stream_frame.
  pose proof (adapt_observation (justified st.(ss_succeeded) W) frame st.(ss_completion)) as Hobs.
  destruct (observe_upstream_error_body frame (ss_completion st)) as [reports g1].
  destruct (observe_usage frame g1) as [g2 terminal1].
  destruct (match terminal1 with Some _ => _ | None => _ end) as [g3 terminal]. destruct Hobs as [Ha Hseen].
  destruct (adapt_frame frame a) as [[a' frames]|]; [|by apply (turn_after W _ g3); [|apply fail_response_adapter_turn]].
  destruct (patch_frames _ frames) as [frames'|]; [|by apply (turn_after W _ g3); [|apply fail_response_adapter_turn]].
  apply (turn_after W _ g3); [done|]. split_and!; [apply advances_refl| |done|done]. destruct Hco as [Hl Hat _].
  split; cbn; [done|auto|]. intros x Hx. right. by rewrite <-Hx, Hseen.
Qed.

Lemma send_frame_turn (W : Prop) t frame frames st :
  coherent st → (whole_body st.(ss_remaining) st.(ss_upstream) → W) →
  turn_advances W st (send_frame display (Policy := Policy) (Auth := Auth) t frame frames st).
Proof.
  intros [Hl Had Ht] HW. unfold send_frame.
  pose proof (first_byte_advances (justified st.(ss_succeeded) W) t st.(ss_completion)) as Ha.
  assert (Hseen : terminal_seen (record_first_byte t (ss_completion st)) = terminal_seen (ss_completion st)).
  { unfold terminal_seen, record_first_byte, on_attempt. destruct (g_context _) as [c|]; [|done]. cbn. by destruct (cx_first_byte_at _). }
  assert (Hgone : g_context (ss_completion st) = None → g_context (record_first_byte t (ss_completion st)) = None).
  { unfold record_first_byte, on_attempt. by intros ->. }
  assert (Hsend : turn_advances W st (sret (Yields frame (with_frames (with_completion st (record_first_byte t (ss_completion st))) frames (ss_terminal st))))).
  { split_and!; [done| |done|done]. split; [done|done|]. intros x Hx.
    destruct (Ht x Hx) as [Hn|[Ha' Hx']]; [left; by apply Hgone|right]. split; [done|]. by rewrite <-Hx', <-Hseen. }
  destruct frames; [|done]. destruct (ss_terminal st) as [x|]; [|done].
  set (st1 := with_frames st [] None). apply (turn_lift W st st1); [|done..].
  eapply turn_of; [done| |].
  - apply (perform_advances _ st1 [] (record_first_byte t (ss_completion st))); [done|]. apply finish_advances.
    destruct (g_context (record_first_byte t (ss_completion st))) as [c|] eqn:Hc; [|done]. apply justified_terminal.
    rewrite <-(seen_attempt _ c Hc), Hseen. destruct (Ht x eq_refl) as [Hn|[_ Hx]]; [by specialize (Hgone Hn)|done].
  - intros st' Hst%perform_value Hs. rewrite Hs, Hst. done.
Qed.

(** Without an adapter no terminal event waits, so only a request that is over
    has one. *)
Lemma plain_coherent Q es st st' :
  coherent st → st.(ss_adapter) = None → same_but_guard st st' →
  advances display Q st.(ss_completion) es false st'.(ss_completion) → (st.(ss_remaining) = None → st'.(ss_remaining) = None) →
  coherent st'.
Proof.
  intros [Hl Had Ht] Ha Hs [_ _ _ _ _ Hx] Hr. split.
  - rewrite Hs. cbn. auto.
  - rewrite Hs. cbn. by rewrite Ha; intros [??].
  - intros x Hterm. assert (ss_terminal st = Some x) as Hx' by (by rewrite Hs in Hterm).
    destruct (Ht x Hx') as [Hn|[[??] _]]; [|congruence]. rewrite Hn in Hx. left. apply Hx.
Qed.

Lemma record_turn (W : Prop) t bytes st :
  coherent st → st.(ss_adapter) = None → (∀ n, st.(ss_remaining) = Some n → n ≤ Z.of_nat (length bytes) → W) →
  (whole_body ((λ n, sat_sub n (Z.of_nat (length bytes))) <$> st.(ss_remaining)) st.(ss_upstream) → W) →
  turn_advances W st (sbind (record_stream_bytes display (Policy := Policy) (Auth := Auth) t bytes st) (λ st, sret (Yields bytes st))).
Proof.
  intros Hco Had HW Hwhole. pose proof (record_stream_bytes_advances W t bytes st HW) as Hadv.
  apply turn_of; [done|done|]. intros st' Hst Hs. unfold stream_advances in Hadv. rewrite Hst in Hadv. destruct Hadv as [Hadv _].
  apply record_stream_bytes_remaining in Hst. split; [|rewrite Hst, Hs; apply Hwhole].
  eapply plain_coherent; [done..|]. rewrite Hst. by intros ->.
Qed.

(** [finish_body] leaves a request that is over. *)
Lemma finish_body_over t st st' :
  (finish_body display (Policy := Policy) (Auth := Auth) t st).2 = Ok st' → st'.(ss_completion).(g_context) = None.
Proof.
  unfold finish_body. destruct (finalize_usage _) as [g terminal]. set (o := match terminal with Some _ => _ | None => _ end).
  pose proof (finish_over (Policy := Policy) (Auth := Auth) display t o g) as Hover.
  unfold perform, sbind. destruct (finish display t o g) as [es [g'|g']]; [|done]. cbn in *. by intros [= <-].
Qed.

Lemma over_coherent st : 
  (is_Some st.(ss_transformer) → st.(ss_remaining) = None) → (is_Some st.(ss_adapter) → is_Some st.(ss_transformer)) →
  st.(ss_completion).(g_context) = None → coherent st.
Proof. intros Hl Had Hg. split; [done|done|by left]. Qed.

Lemma finish_turn (W : Prop) t st mk :
  coherent st → st.(ss_upstream) = None → W → (∀ s, turn_state (mk s) = s) →
  turn_advances W st (sbind (finish_body display (Policy := Policy) (Auth := Auth) t st) (λ st, sret (mk st))).
Proof.
  intros [Hl Had _] Hu HW Hmk. apply turn_of; [done|by apply finish_body_advances|]. intros st' Hst Hs.
  pose proof (finish_body_over t st st' Hst) as Hover. apply finish_body_remaining in Hst.
  split; [|rewrite Hs; cbn; rewrite Hu; by intros ?%no_body].
  apply over_coherent; [rewrite Hst|..|done]; rewrite Hs; cbn; done.
Qed.

Lemma turn_bind (W : Prop) st m k :
  stream_advances (justified st.(ss_succeeded) W) st m → (∀ st', m.2 = Ok st' → same_but_guard st st' → turn_advances W st' (k st')) →
  turn_advances W st (sbind m k).
Proof.
  unfold turn_advances, stream_advances, sbind. destruct m as [es [st'|g]]; cbn; [|done]. intros [Ha Hs] Hk.
  specialize (Hk st' eq_refl Hs). assert (ss_succeeded st' = ss_succeeded st) as Hsu by (by rewrite Hs). rewrite Hsu in Hk.
  destruct (k st') as [es' [tn|g]]; cbn in *; [|by eapply advances_trans].
  destruct Hk as (Ha' & Hrest). split; [by eapply advances_trans|done].
Qed.

Lemma end_of_body_turn (W : Prop) t st :
  coherent st → W → turn_advances W st (end_of_body display (Policy := Policy) (Auth := Auth) t st).
Proof.
  intros Hco HW. unfold end_of_body. cbn [ss_transformer ss_adapter with_sources].
  destruct (match ss_transformer st with Some tr => _ | None => _ end) as [transformer residual] eqn:Htr.
  assert (is_Some transformer ↔ is_Some (ss_transformer st)) as Hiff.
  { destruct (ss_transformer st) as [tr|]; [|by injection Htr as <- _].
    destruct (SseTransform.finish tr) as [tr' r]. injection Htr as <- _. split; eauto. }
  set (st1 := with_sources _ None transformer _). change (with_sources _ None transformer _) with st1.
  assert (coherent st1) as Hco1.
  { destruct Hco as [Hl Had Ht]. split; cbn; [by rewrite Hiff|by rewrite Hiff|exact Ht]. }
  apply (turn_lift W st st1); [|done..]. destruct residual as [frame|], (ss_adapter st) as [a|] eqn:Ha.
  - apply adapt_or_fail_turn; [done|by eexists|done].
  - apply turn_bind; [by apply record_stream_bytes_advances|]. intros st' Hst Hs.
    pose proof (record_stream_bytes_advances W t frame st1 (λ _ _ _, HW)) as Hadv. unfold stream_advances in Hadv.
    rewrite Hst in Hadv. destruct Hadv as [Hadv _]. apply record_stream_bytes_remaining in Hst.
    apply (finish_turn W t st' (Yields frame)); [|by rewrite Hs|done|done].
    eapply plain_coherent; [exact Hco1|done|done|done|]. rewrite Hst. by intros ->.
  - destruct (adapter_finish a); [by apply (finish_turn W t st1 Ends)|apply fail_response_adapter_turn].
  - by apply (finish_turn W t st1 Ends).
Qed.

(** Reading a chunk leaves a body that is whole only if the longer one was. *)
Lemma whole_body_chunk remaining bytes rest :
  whole_body ((λ n, sat_sub n (Z.of_nat (length bytes))) <$> remaining) (Some rest) → whole_body remaining (Some (UpChunk bytes :: rest)).
Proof.
  intros (items & [= <-] & Hw). exists (UpChunk bytes :: rest). split; [done|].
  destruct Hw as [Hw|(k & n & Hn & Hk & Hle)]; [left; by constructor|right].
  apply fmap_Some in Hn as (m & -> & ->). exists (S k), m. split_and!; [done|by constructor|].
  unfold sat_sub in Hle. change (m ≤ Z.of_nat (length bytes) + total_bytes (take k rest)). lia.
Qed.
Lemma whole_body_unmeasured bytes rest : whole_body None (Some rest) → whole_body None (Some (UpChunk bytes :: rest)).
Proof. apply (whole_body_chunk None). Qed.

Lemma pull_turn (W : Prop) t st :
  coherent st → (whole_body st.(ss_remaining) st.(ss_upstream) → W) →
  match st.(ss_transformer) with Some tr => tr.(st_source) = None | None => True end →
  turn_advances W st (pull display (Policy := Policy) (Auth := Auth) t st).
Proof.
  intros Hco HW Hsrc. unfold pull. destruct (ss_upstream st) as [[|[bytes|chain|] rest]|] eqn:Hu.
  - apply end_of_body_turn; [done|]. apply HW. exists []. split; [done|left; constructor].
  - cbn [with_sources ss_transformer ss_adapter ss_completion]. destruct (ss_transformer st) as [tr|] eqn:Htr.
    + unfold push. rewrite Hsrc. split_and!; [apply advances_refl| |done|].
      * destruct Hco as [Hl Had Ht]. rewrite Htr in Hl. split; cbn; [auto|done|exact Ht].
      * cbn. destruct Hco as [Hl _ _]. rewrite Htr in Hl. rewrite Hl in HW |- * by done. intros Hw. apply HW. by apply whole_body_unmeasured.
    + set (st1 := with_sources st (Some rest) None (ss_adapter st)). apply (turn_lift W st st1); [|done..].
      assert (ss_adapter st = None) as Ha.
      { destruct Hco as [_ Had _]. rewrite Htr in Had. destruct (ss_adapter st); [|done]. by destruct Had. }
      apply record_turn; [|done| |].
      * destruct Hco as [Hl Had Ht]. split; cbn; [by intros [??]|by rewrite Ha|exact Ht].
      * intros n Hn Hle. apply HW. exists (UpChunk bytes :: rest). split; [done|right]. exists 1%nat, n.
        split_and!; [done|by repeat constructor|]. change (n ≤ Z.of_nat (length bytes) + 0). lia.
      * intros Hw. apply HW. by apply whole_body_chunk.
  - eapply turn_lift; [apply failed_turn; [done|apply Hco|done|done]|done|done].
  - eapply turn_lift; [apply failed_turn; [done|apply Hco|done|done]|done|done].
  - assert (turn_advances W st (sret (Ends st))) as Hends.
    { split_and!; [apply advances_refl|done|done|]. cbn. rewrite Hu. by intros ?%no_body. }
    destruct (ss_adapter st) as [a|]; [|done]. destruct (adapter_finish a); [done|apply fail_response_adapter_turn].
Qed.

Lemma turn_settles (W : Prop) t st :
  coherent st → (whole_body st.(ss_remaining) st.(ss_upstream) → W) →
  turn_advances W st (turn display transform_error (Policy := Policy) (Auth := Auth) t st).
Proof.
  intros Hco HW. unfold turn. destruct (ss_frames st) as [|frame frames]; [|by apply send_frame_turn].
  destruct (ss_transformer st) as [tr|] eqn:Htr; [|apply pull_turn; [done|done|by rewrite Htr]].
  pose proof (next_frame_unread tr) as Hn. destruct (next_frame tr) as [tr' next].
  assert (∀ up, coherent (with_sources st up (Some tr') (ss_adapter st))) as Hco1.
  { destruct Hco as [Hl Had Ht]. rewrite Htr in *. intros up. split; cbn; [by intros; apply Hl|done|exact Ht]. }
  assert (ss_remaining st = None) as Hr by (apply Hco; by rewrite Htr).
  destruct next as [[frame|]|e].
  - set (st1 := with_sources st (ss_upstream st) (Some tr') (ss_adapter st)). apply (turn_lift W st st1); [|done..].
    destruct (ss_adapter st1) as [a|] eqn:Ha; [apply adapt_or_fail_turn; [apply Hco1|by rewrite Ha|done]|].
    apply record_turn; [apply Hco1|done|by cbn; rewrite Hr|]. cbn. rewrite Hr in *. exact HW.
  - eapply turn_lift; [apply pull_turn|done|done]; [apply Hco1|exact HW|done].
  - eapply turn_lift; [apply failed_turn; [done|by intros [??]|done|done]|done|done].
Qed.

Lemma poll_settles (W : Prop) t fuel : ∀ st m,
  coherent st → (whole_body st.(ss_remaining) st.(ss_upstream) → W) →
  poll display transform_error (Policy := Policy) (Auth := Auth) fuel t st = Some m → turn_advances W st m.
Proof.
  induction fuel as [|fuel IH]; intros st m Hco HW Hpoll; [done|]. rewrite poll_unfold in Hpoll.
  pose proof (turn_settles W t st Hco HW) as Hturn. destruct (turn display transform_error t st) as [es r]. cbn [fst snd] in Hpoll.
  destruct r as [[st'|bytes st'|e st'|st']|g]; try by injection Hpoll as <-.
  apply fmap_Some in Hpoll as (m' & Hm' & ->). destruct Hturn as (Ha & Hco' & Hs & HW').
  specialize (IH st' m' Hco' HW' Hm'). unfold turn_advances in *. cbn [turn_state] in *. rewrite Hs in IH.
  destruct m' as [es' [tn|g]]; cbn in *; [|by eapply advances_trans].
  destruct IH as (Ha' & Hrest). split; [by eapply advances_trans|done].
Qed.

Lemma relay_settles_when (W : Prop) polls : ∀ clock st,
  coherent st → (whole_body st.(ss_remaining) st.(ss_upstream) → W) →
  settles_kept display (justified st.(ss_succeeded) W) st.(ss_completion)
    (relay display transform_error (Policy := Policy) (Auth := Auth) polls clock st).2.
Proof.
  assert (Hdrop : ∀ t g s, settles_kept display (justified s W) g (drop_guard (Policy := Policy) (Auth := Auth) display t g)).
  { intros t g s. apply drop_settles. by destruct (g_context g). }
  induction polls as [|polls IH]; intros clock st Hco HW; cbn [relay]; [apply Hdrop|].
  destruct (poll_ends (Policy := Policy) (Auth := Auth) display transform_error (clock 0%nat) st (S (turns_left st)) ltac:(lia)) as (es & r & Hpoll & Hr).
  rewrite Hpoll. pose proof (poll_settles W (clock 0%nat) _ st _ Hco HW Hpoll) as Hadv. unfold turn_advances in Hadv. cbn [fst snd] in Hadv.
  destruct r as [[st'|bytes st'|e st'|st']|g].
  - by destruct (Hr st').
  - destruct Hadv as (Ha & Hco' & Hs & HW'). specialize (IH (λ n, clock (S n)) st' Hco' HW'). cbn [turn_state] in *. rewrite Hs in IH.
    destruct (relay display transform_error polls _ st') as [[out e] es']. cbn. by eapply advances_settles.
  - eapply advances_settles; [apply Hadv|apply Hdrop].
  - eapply advances_settles; [apply Hadv|apply Hdrop].
  - cbn. rewrite drop_over by (by eapply advances_panic_over). by apply panic_settles.
Qed.

(** C7: whatever the upstream sends and however the body is transformed or
    adapted, a response body settles its request: wherever the client stops
    reading, the lease of its channel is dropped exactly once, the admission of
    its key is given back exactly once, and one event is recorded (none when the
    price itself panics).  The event is that of the request and the route of the
    guard.  It is a success only if the upstream answered with a success, and
    either the collector saw the completed terminal event, or it saw no terminal
    event and the upstream's body was whole: it ended without an error, or its
    chunks made up the announced length. *)
Theorem relay_settles polls clock st :
  coherent st →
  settles_kept display (justified st.(ss_succeeded) (whole_body st.(ss_remaining) st.(ss_upstream))) st.(ss_completion)
    (relay display transform_error (Policy := Policy) (Auth := Auth) polls clock st).2.
Proof. intros Hco. by apply relay_settles_when. Qed.
End settling.
