(* ===== verification/Delivery.v ===== *)
(** * What the client of a response receives

    The bytes that [timed_upstream_stream] of [src/application/proxy.rs] yields,
    as a function of what the upstream sends: the chunks themselves, or the
    transformed frames of the whole stream.  Response adapters are the subject of
    [Adapter]. *)

From S2P Require Import Prelude Text Decimal Domain Records Billing Cost Json Journal Usage ErrorText Sse SseFrames JsonScan Collector Headers JsonPatch Plans Transform SseTransform RequestPolicy Outbound ImageBody ImageEdit Spool Compiled Admission Health Selection Affinity Routing Keyword Outcome Completion Adapter Relay.
Open Scope gateway_scope.

(** The chunks before the end of the body or the first error. *)
Fixpoint leading_chunks (items : list UpstreamItem) : list str * BodyEnd :=
  match items with
  | [] => ([], Finished)
  | UpChunk bytes :: items => let '(chunks, e) := leading_chunks items in (bytes :: chunks, e)
  | UpError _ :: _ => ([], Broken UpstreamFailed)
  | UpIdle :: _ => ([], Broken StreamIdle)
  end.

(** A client that reads at most [polls] chunks of a body. *)
Definition read (polls : nat) (body : list str * BodyEnd) : list str * BodyEnd :=
  if (length body.1 <? polls)%nat then body else (take polls body.1, Disconnected).

(** A price that panics cuts the body short. *)
Definition delivers (polls : nat) (body got : list str * BodyEnd) : Prop :=
  got = read polls body ∨ got.2 = Panicked ∧ got.1 `prefix_of` body.1.

Lemma read_0 body : read 0 body = ([], Disconnected).
Proof. unfold read. by destruct body as [[|] ?]. Qed.
Lemma read_end polls e : read (S polls) ([], e) = ([], e).
Proof. done. Qed.
Lemma read_cons polls b out e : read (S polls) (b :: out, e) = let '(o, e) := read polls (out, e) in (b :: o, e).
Proof.
  unfold read. cbn [fst length take]. change (S (length out) <? S polls)%nat with (length out <? polls)%nat.
  by destruct (length out <? polls)%nat.
Qed.
Lemma delivers_cons polls b out e got :
  delivers polls (out, e) got → delivers (S polls) (b :: out, e) (b :: got.1, got.2).
Proof.
  intros [->|[Hp Hpre]]; [left; rewrite read_cons; by destruct (read polls (out, e))|right]. split; [done|]. by apply prefix_cons.
Qed.

Section delivery.
Context {D V T Policy Auth P : Type} `{DecimalOps D, JsonOps V, UtcOps T, Chrono T, JT : JsonText, UP : UsagePlugin P, UC : UnicodeCase, HL : HeaderLib, PL : PatchLib, RR : ResponseReader}.
Context (display : Z → string) (transform_error : TransformApplyError → string).
Abbreviation State := (StreamState (D := D) (V := V) (T := T) (P := P)).
Abbreviation body_poll := (poll display transform_error (Policy := Policy) (Auth := Auth)).
Abbreviation body_turn := (turn display transform_error (Policy := Policy) (Auth := Auth)).
Abbreviation body_relay := (relay display transform_error (Policy := Policy) (Auth := Auth)).
Implicit Types (st : State).

(** What the client of an unadapted body receives. *)
Definition delivery (plan : option SseEventPatchPlan) (items : list UpstreamItem) : list str * BodyEnd :=
  let '(chunks, e) := leading_chunks items in
  match plan with
  | None => (chunks, e)
  | Some plan =>
      let '(frames, rest) := frames_of (concat chunks) in
      match yielded plan frames rest with
      | (out, Some _) => (out, Broken TransformFailedBody)
      | (out, None) => (out ++ match e, rest with Finished, _ :: _ => [rest] | _, _ => [] end, e)
      end
  end.

(** ** The loop without the guard *)

Inductive plays : option SseTransformer → option (list UpstreamItem) → list str → BodyEnd → Prop :=
| plays_frame tr tr' frame items out e :
    next_frame tr = (tr', Ok (Some frame)) → plays (Some tr') items out e → plays (Some tr) items (frame :: out) e
| plays_invalid tr tr' err items :
    next_frame tr = (tr', Err err) → plays (Some tr) items [] (Broken TransformFailedBody)
| plays_push tr tr' tr2 bytes items out e :
    next_frame tr = (tr', Ok None) → push tr' bytes = Some tr2 → plays (Some tr2) (Some items) out e →
    plays (Some tr) (Some (UpChunk bytes :: items)) out e
| plays_chunk bytes items out e :
    plays None (Some items) out e → plays None (Some (UpChunk bytes :: items)) (bytes :: out) e
| plays_error t chain items :
    (∀ tr, t = Some tr → ∃ tr', next_frame tr = (tr', Ok None)) → plays t (Some (UpError chain :: items)) [] (Broken UpstreamFailed)
| plays_idle t items :
    (∀ tr, t = Some tr → ∃ tr', next_frame tr = (tr', Ok None)) → plays t (Some (UpIdle :: items)) [] (Broken StreamIdle)
| plays_residual tr tr' tr2 frame :
    next_frame tr = (tr', Ok None) → SseTransform.finish tr' = (tr2, Some frame) → plays (Some tr) (Some []) [frame] Finished
| plays_end t :
    (∀ tr, t = Some tr → ∃ tr', next_frame tr = (tr', Ok None) ∧ (SseTransform.finish tr').2 = None) → plays t (Some []) [] Finished.

(** ** Polls and turns *)

Lemma poll_more fuel k t st m : body_poll fuel t st = Some m → body_poll (fuel + k) t st = Some m.
Proof.
  revert st m. induction fuel as [|fuel IH]; intros st m Hm; [done|]. cbn [Nat.add]. rewrite poll_unfold in *.
  destruct (body_turn t st) as [es r]. cbn [fst snd] in *. destruct r as [[st'|bytes st'|e st'|st']|g]; try done.
  apply fmap_Some in Hm as (m' & Hm' & ->). by rewrite (IH st' m' Hm').
Qed.

Lemma relay_again polls clock st es st' :
  body_turn (clock 0%nat) st = (es, Ok (Again st')) → (body_relay (S polls) clock st).1 = (body_relay (S polls) clock st').1.
Proof.
  intros Hturn. pose proof (turn_again display transform_error (clock 0%nat) st es st' Hturn) as Hlt.
  destruct (poll_ends (Policy := Policy) (Auth := Auth) display transform_error (clock 0%nat) st' (S (turns_left st')) ltac:(lia)) as (es' & r & Hpoll & Hr).
  pose proof (poll_more _ (turns_left st - S (turns_left st')) _ _ _ Hpoll) as Hmore.
  cbn [relay]. rewrite Hpoll. rewrite poll_unfold, Hturn. cbn [fst snd].
  replace (turns_left st) with (S (turns_left st') + (turns_left st - S (turns_left st')))%nat by lia. rewrite Hmore.
  cbn. destruct r as [[st2|bytes st2|e st2|st2]|g]; try done. by destruct (body_relay polls (λ n, clock (S n)) st2) as [[??]?].
Qed.
Lemma relay_stops polls clock st es r :
  body_turn (clock 0%nat) st = (es, r) →
  match r with
  | Ok (Again _) => True
  | Ok (Yields bytes st') =>
      (body_relay (S polls) clock st).1
      = (bytes :: (body_relay polls (λ n, clock (S n)) st').1.1, (body_relay polls (λ n, clock (S n)) st').1.2)
  | Ok (Fails e _) => (body_relay (S polls) clock st).1 = ([], Broken e)
  | Ok (Ends _) => (body_relay (S polls) clock st).1 = ([], Finished)
  | Err _ => (body_relay (S polls) clock st).1 = ([], Panicked)
  end.
Proof.
  intros Hturn. cbn [relay]. rewrite poll_unfold, Hturn. cbn [fst snd].
  destruct r as [[st2|bytes st2|e st2|st2]|g]; try done. by destruct (body_relay polls (λ n, clock (S n)) st2) as [[??]?].
Qed.

Abbreviation stream m := (streamed (D := D) (V := V) (T := T) (Policy := Policy) (Auth := Auth) (P := P) m).

Lemma fail_delivers polls clock st (m : stream State) e :
  body_turn (clock 0%nat) st = sbind m (λ s, sret (Fails e s)) → delivers (S polls) ([], Broken e) (body_relay (S polls) clock st).1.
Proof.
  unfold sbind, sret. destruct m as [es [s|g]]; cbn [fst snd]; intros Hturn; pose proof (relay_stops polls clock st _ _ Hturn) as Hr; cbv beta iota in Hr; rewrite Hr.
  - by left.
  - right. split; [done|]. apply prefix_nil.
Qed.
Lemma end_delivers polls clock st (m : stream State) :
  body_turn (clock 0%nat) st = sbind m (λ s, sret (Ends s)) → delivers (S polls) ([], Finished) (body_relay (S polls) clock st).1.
Proof.
  unfold sbind, sret. destruct m as [es [s|g]]; cbn [fst snd]; intros Hturn; pose proof (relay_stops polls clock st _ _ Hturn) as Hr; cbv beta iota in Hr; rewrite Hr.
  - by left.
  - right. split; [done|]. apply prefix_nil.
Qed.
Lemma yield_delivers polls clock st (m : stream State) bytes out e :
  body_turn (clock 0%nat) st = sbind m (λ s, sret (Yields bytes s)) →
  (∀ s, m.2 = Ok s → delivers polls (out, e) (body_relay polls (λ n, clock (S n)) s).1) →
  delivers (S polls) (bytes :: out, e) (body_relay (S polls) clock st).1.
Proof.
  unfold sbind, sret. destruct m as [es [s|g]]; cbn [fst snd]; intros Hturn Hk; pose proof (relay_stops polls clock st _ _ Hturn) as Hr; cbv beta iota in Hr; rewrite Hr.
  - apply delivers_cons. by apply Hk.
  - right. split; [done|]. apply prefix_nil.
Qed.

(** What recording bytes leaves as it is. *)
Definition same_sources st st' : Prop :=
  ss_transformer st' = ss_transformer st ∧ ss_upstream st' = ss_upstream st ∧ ss_frames st' = ss_frames st ∧ ss_adapter st' = ss_adapter st.
Lemma advances_sources Q st (m : stream State) s : stream_advances display Q st m → m.2 = Ok s → same_sources st s.
Proof. unfold stream_advances. intros Hm Hs. rewrite Hs in Hm. destruct Hm as [_ Hm]. unfold same_sources. by rewrite Hm. Qed.
Lemma record_sources t bytes st s :
  (record_stream_bytes (Policy := Policy) (Auth := Auth) display t bytes st).2 = Ok s → same_sources st s.
Proof. apply (advances_sources _ _ _ _ (record_stream_bytes_advances display True t bytes st (λ _ _ _, I))). Qed.

(** A plain state: nothing adapted waits. *)
Definition serves st t items : Prop := st.(ss_transformer) = t ∧ st.(ss_upstream) = items ∧ st.(ss_frames) = [] ∧ st.(ss_adapter) = None.

Lemma serves_sources st s t items : serves st t items → same_sources st s → serves s t items.
Proof. unfold serves, same_sources. intros (<- & <- & <- & <-) (? & ? & ? & ?). done. Qed.

(** A turn of a plain state. *)
Lemma serves_turn clock st t items :
  serves st t items →
  body_turn (clock 0%nat) st
  = match t with
    | None => pull display (clock 0%nat) st
    | Some tr =>
        match next_frame tr with
        | (tr', Ok (Some frame)) =>
            sbind (record_stream_bytes display (clock 0%nat) frame (with_sources st items (Some tr') None)) (λ st, sret (Yields frame st))
        | (tr', Ok None) => pull display (clock 0%nat) (with_sources st items (Some tr') None)
        | (_, Err e) =>
            let st := with_sources st None None None in
            sbind (perform st (finish_with_error_details display (clock 0%nat) OutResponseTransformFailed
                     (proxy_error_with_source response_transform_failed (transform_error e)) st.(ss_completion)))
              (λ st, sret (Fails TransformFailedBody st))
        end
    end.
Proof.
  intros (Ht & Hu & Hf & Ha). unfold turn. rewrite Hf, Ht, Hu, Ha. destruct t as [tr|]; [|done].
  destruct (next_frame tr) as [tr' [[frame|]|e]]; done.
Qed.

(** After the unfinished rest of the stream nothing follows. *)
Lemma drained_delivers polls clock st t :
  serves st t None → (∀ tr, t = Some tr → tr.(st_source) = None) → delivers polls ([], Finished) (body_relay polls clock st).1.
Proof.
  intros Hst Hsrc. destruct polls as [|polls]; [by left|].
  assert (body_turn (clock 0%nat) st = sret (Ends (with_sources st None t None))
          ∨ body_turn (clock 0%nat) st = sret (Ends st)) as Hturn.
  { rewrite (serves_turn clock st t None Hst). destruct Hst as (Ht & Hu & Hf & Ha). destruct t as [tr|]; [left|right].
    - unfold next_frame. rewrite Hsrc by done. done.
    - unfold pull. by rewrite Hu, Ha. }
  destruct Hturn as [Hturn|Hturn]; pose proof (relay_stops polls clock st _ _ Hturn) as Hr; cbv beta iota in Hr; rewrite Hr; by left.
Qed.

(** The end of the body of a plain state. *)
Lemma end_of_body_delivers polls clock st t residual st0 :
  serves st (fst <$> t) (Some []) → residual = t ≫= snd → (∀ x, t = Some x → x.1.(st_source) = None) →
  body_turn (clock 0%nat) st0
  = (let st := with_sources st None (fst <$> t) None in
     match residual with
     | Some frame => sbind (record_stream_bytes display (clock 0%nat) frame st)
                       (λ st, sbind (finish_body display (clock 0%nat) st) (λ st, sret (Yields frame st)))
     | None => sbind (finish_body display (clock 0%nat) st) (λ st, sret (Ends st))
     end) →
  delivers (S polls) (option_list residual, Finished) (body_relay (S polls) clock st0).1.
Proof.
  intros Hst Hres Hsrc Hturn. destruct residual as [frame|]; [|by eapply end_delivers].
  set (st1 := with_sources st None (fst <$> t) None) in Hturn.
  assert (body_turn (clock 0%nat) st0
    = sbind (sbind (record_stream_bytes display (clock 0%nat) frame st1) (finish_body display (clock 0%nat))) (λ st, sret (Yields frame st))) as Hturn'.
  { rewrite Hturn. cbv zeta. unfold sbind. destruct (record_stream_bytes display (clock 0%nat) frame st1) as [es [s|g]]; cbn [fst snd]; [|done].
    destruct (finish_body display (clock 0%nat) s) as [es' [s'|g]]; cbn; [by rewrite app_assoc|done]. }
  apply (yield_delivers polls clock st0 _ frame [] Finished Hturn').
  intros s Hs. apply (drained_delivers _ _ _ (fst <$> t)); [|by destruct t as [x|]; [intros tr [= <-]; apply Hsrc|]].
  unfold sbind in Hs. destruct (record_stream_bytes display (clock 0%nat) frame st1) as [es [s1|g]] eqn:Hrec; cbn [fst snd] in Hs; [|done].
  assert (same_sources st1 s1) as Hs1 by (eapply record_sources; by rewrite Hrec).
  assert (same_sources s1 s) as Hs2.
  { eapply (advances_sources _ _ _ _ (finish_body_advances display True (clock 0%nat) s1 I)); exact Hs. }
  eapply serves_sources; [|exact Hs2]. eapply serves_sources; [|exact Hs1]. destruct Hst as (_ & _ & Hf & _). done.
Qed.

Lemma plays_delivers t items out e :
  plays t items out e → ∀ st polls clock, serves st t items → delivers polls (out, e) (body_relay polls clock st).1.
Proof.
  induction 1 as [tr tr' frame items out e Hn _ IH|tr tr' err items Hn|tr tr' tr2 bytes items out e Hn Hp _ IH|bytes items out e _ IH
                 |t chain items Hn|t items Hn|tr tr' tr2 frame Hn Hfin|t Hn];
    intros st [|polls] clock Hst; try (left; by rewrite read_0);
    pose proof (serves_turn clock st _ _ Hst) as Hturn; cbv beta iota in Hturn; try rewrite Hn in Hturn.
  - eapply yield_delivers; [exact Hturn|]. intros s Hs%record_sources. apply IH. eapply serves_sources; [|exact Hs].
    destruct Hst as (_ & _ & Hf & _). done.
  - eapply fail_delivers; exact Hturn.
  - unfold pull in Hturn. cbn [with_sources ss_upstream ss_transformer ss_adapter] in Hturn. rewrite Hp in Hturn.
    rewrite (relay_again polls clock st _ _ Hturn). apply IH. destruct Hst as (_ & _ & Hf & _). done.
  - unfold pull in Hturn. destruct Hst as (Ht & Hu & Hf & Ha). rewrite Hu in Hturn. cbn [with_sources ss_transformer ss_adapter] in Hturn.
    rewrite Ht in Hturn. eapply yield_delivers; [exact Hturn|]. intros s Hs%record_sources. apply IH.
    eapply serves_sources; [|exact Hs]. by rewrite Ha.
  - destruct t as [tr|]; [destruct (Hn tr eq_refl) as [tr' Hnext]; cbv beta iota in Hturn; rewrite Hnext in Hturn|]; unfold pull in Hturn.
    + eapply fail_delivers; exact Hturn.
    + destruct Hst as (Ht & Hu & Hf & Ha). rewrite Hu in Hturn. eapply fail_delivers; exact Hturn.
  - destruct t as [tr|]; [destruct (Hn tr eq_refl) as [tr' Hnext]; cbv beta iota in Hturn; rewrite Hnext in Hturn|]; unfold pull in Hturn.
    + eapply fail_delivers; exact Hturn.
    + destruct Hst as (Ht & Hu & Hf & Ha). rewrite Hu in Hturn. eapply fail_delivers; exact Hturn.
  - unfold pull, end_of_body in Hturn. cbn [with_sources ss_upstream ss_transformer ss_adapter] in Hturn. rewrite Hfin in Hturn.
    pose proof (next_frame_unread tr) as Hsrc. rewrite Hn in Hsrc.
    apply (end_of_body_delivers polls clock (with_sources st (Some []) (Some tr2) None) (Some (tr2, Some frame)) (Some frame) st); [|done| |exact Hturn].
    + destruct Hst as (_ & _ & Hf & _). done.
    + intros x [= <-]. unfold SseTransform.finish in Hfin. destruct (st_frame tr'); [done|]. by injection Hfin as <- _.
  - destruct t as [tr|].
    + destruct (Hn tr eq_refl) as (tr' & Hnext & Hfin). cbv beta iota in Hturn. rewrite Hnext in Hturn.
      unfold pull, end_of_body in Hturn. cbn [with_sources ss_upstream ss_transformer ss_adapter] in Hturn.
      destruct (SseTransform.finish tr') as [tr2 residual]. simpl in Hfin. subst residual. eapply end_delivers; exact Hturn.
    + destruct Hst as (Ht & Hu & Hf & Ha). unfold pull, end_of_body in Hturn. rewrite Hu in Hturn.
      cbn [with_sources ss_upstream ss_transformer ss_adapter] in Hturn. rewrite Ht, Ha in Hturn. eapply end_delivers; exact Hturn.
Qed.

(** ** The transformer plays the frames of the whole stream *)

Lemma plays_settled tr tr' items out e :
  next_frame tr = (tr', Ok None) → tr'.(st_source) = None → plays (Some tr') items out e → plays (Some tr) items out e.
Proof.
  intros Hn Hs Hp. assert (next_frame tr' = (tr', Ok None)) as Hn' by (unfold next_frame; by rewrite Hs).
  inversion Hp; subst; try congruence.
  - rewrite Hn' in *. simplify_eq. by eapply plays_push.
  - apply plays_error. intros ? [= <-]. eauto.
  - apply plays_idle. intros ? [= <-]. eauto.
  - rewrite Hn' in *. simplify_eq. by eapply plays_residual.
  - apply plays_end. intros ? [= <-]. destruct (H3 tr' eq_refl) as (tr2 & Htr2 & Hfin). rewrite Hn' in Htr2. injection Htr2 as <-. eauto.
Qed.

Lemma drain_acc fuel : ∀ tr acc, drain fuel tr acc = let '(tr', out, e) := drain fuel tr [] in (tr', acc ++ out, e).
Proof.
  induction fuel as [|fuel IH]; intros tr acc; cbn [drain]; [by rewrite app_nil_r|].
  destruct (next_frame tr) as [tr1 [[frame|]|err]]; [|by rewrite app_nil_r..].
  rewrite (IH tr1 (acc ++ [frame])), (IH tr1 ([] ++ [frame])). destruct (drain fuel tr1 []) as [[t0 o] e0]. by rewrite <-app_assoc.
Qed.

Lemma drain_plays fuel items : ∀ tr acc tr' outs e,
  drain fuel tr acc = (tr', acc ++ outs, e) → (e = None → tr'.(st_source) = None) →
  match e with
  | Some _ => plays (Some tr) items outs (Broken TransformFailedBody)
  | None => ∀ out' end', plays (Some tr') items out' end' → plays (Some tr) items (outs ++ out') end'
  end.
Proof.
  induction fuel as [|fuel IH]; intros tr acc tr' outs e Hd Hsrc; cbn [drain] in Hd.
  { injection Hd as <- Ho <-. assert (outs = []) as -> by (apply (app_inv_head acc); by rewrite app_nil_r). done. }
  destruct (next_frame tr) as [tr1 [[frame|]|err]] eqn:Hn.
  - assert (∃ outs1, outs = frame :: outs1) as [outs1 ->].
    { rewrite drain_acc in Hd. destruct (drain fuel tr1 []) as [[t0 o] e0]. injection Hd as _ Ho _.
      rewrite <-app_assoc in Ho. apply app_inv_head in Ho. by exists o. }
    replace (acc ++ frame :: outs1) with ((acc ++ [frame]) ++ outs1) in Hd by (by rewrite <-app_assoc).
    specialize (IH tr1 (acc ++ [frame]) tr' outs1 e Hd Hsrc). destruct e; [by eapply plays_frame|].
    intros out' end' Hp. eapply plays_frame; [done|]. by apply IH.
  - injection Hd as <- Ho <-. assert (outs = []) as -> by (apply (app_inv_head acc); by rewrite app_nil_r).
    intros out' end' Hp. eapply plays_settled; [done|by apply Hsrc|done].
  - injection Hd as <- Ho <-. assert (outs = []) as -> by (apply (app_inv_head acc); by rewrite app_nil_r).
    by eapply plays_invalid.
Qed.

(** What follows the chunks before the end of the body or its first error. *)
Definition stops_with (items : list UpstreamItem) (e : BodyEnd) : Prop :=
  match items, e with
  | [], Finished => True
  | UpError _ :: _, Broken UpstreamFailed => True
  | UpIdle :: _, Broken StreamIdle => True
  | _, _ => False
  end.
Lemma leading_chunks_stop items : 
  ∃ tail, items = (UpChunk <$> (leading_chunks items).1) ++ tail ∧ stops_with tail (leading_chunks items).2.
Proof.
  induction items as [|[bytes|chain|] items (tail & Hi & IH)]; [by exists []| |by eexists..].
  exists tail. cbn [leading_chunks]. destruct (leading_chunks items) as [chunks e]. cbn [fst snd] in *. split; [|done].
  rewrite fmap_cons. cbn [app]. by f_equal.
Qed.

(** The end of a drained transformer. *)
Lemma plays_stop tr items e :
  tr.(st_source) = None → stops_with items e →
  plays (Some tr) (Some items) (match e, tr.(st_frame) with Finished, _ :: _ => [tr.(st_frame)] | _, _ => [] end) e.
Proof.
  intros Hs He. assert (next_frame tr = (tr, Ok None)) as Hn by (unfold next_frame; by rewrite Hs).
  destruct items as [|[bytes|chain|] items], e as [| | |[| | |]]; try done.
  - destruct (st_frame tr) as [|c frame] eqn:Hf.
    + apply plays_end. intros ? [= <-]. exists tr. split; [done|]. unfold SseTransform.finish. by rewrite Hf.
    + eapply plays_residual; [done|]. unfold SseTransform.finish. by rewrite Hf.
  - apply plays_error. intros ? [= <-]. eauto.
  - apply plays_idle. intros ? [= <-]. eauto.
Qed.

Lemma drive_plays items e chunks : ∀ tr frame,
  resumes tr frame → tr.(st_source) = None → stops_with items e →
  let text := frame ++ concat chunks in
  plays (Some tr) (Some ((UpChunk <$> chunks) ++ items))
    (let '(out, err) := text_yield tr.(st_plan) text in
     out ++ match err, e, (frames_of text).2 with None, Finished, (_ :: _) as rest => [rest] | _, _, _ => [] end)
    (match (text_yield tr.(st_plan) text).2 with Some _ => Broken TransformFailedBody | None => e end).
Proof.
  induction chunks as [|chunk chunks IH]; intros tr frame Hres Hsrc He; cbn zeta.
  - cbn [concat fmap list_fmap app]. rewrite !app_nil_r. unfold text_yield. rewrite (resumes_frames tr frame Hres). cbn [fst snd yielded].
    destruct Hres as (Hl & Hf & _). rewrite Hl. cbn [fst snd app]. pose proof (plays_stop tr items e Hsrc He) as Hp. rewrite Hf in Hp.
    destruct e, frame; exact Hp.
  - assert (next_frame tr = (tr, Ok None)) as Hn by (unfold next_frame; by rewrite Hsrc).
    set (tr1 := with_state tr tr.(st_frame) (Some chunk) tr.(line_has_content) tr.(pending_cr)).
    assert (push tr chunk = Some tr1) as Hp by (unfold push; by rewrite Hsrc).
    destruct (drain_spec (length chunk + 3) (concat chunks) tr1 frame chunk [] (resumes_push tr frame chunk Hres))
      as (t1 & outs & err & Hd & Hplan & Hdr); [done|simpl; destruct (pending_cr tr); lia|].
    eapply plays_push; [exact Hn|exact Hp|]. cbn [concat].
    pose proof (drain_plays _ (Some ((UpChunk <$> chunks) ++ items)) tr1 [] t1 outs err Hd) as Hplay.
    destruct err as [err|].
    + change (st_plan tr1) with (st_plan tr) in Hdr. rewrite Hdr. cbn [snd]. rewrite app_nil_r. by apply Hplay.
    + destruct Hdr as (Hs1 & frame' & fs & Hres' & Htr & Hfs). specialize (IH t1 frame' Hres' Hs1 He). cbn zeta in IH.
      specialize (Hplay (λ _, Hs1) _ _ IH). revert Hplay. rewrite Hplan. change (st_plan tr1) with (st_plan tr) in *. unfold text_yield.
      rewrite Hfs. cbn [fst snd]. rewrite (yielded_app _ _ outs) by done.
      destruct (yielded (st_plan tr) (frames_of (frame' ++ concat chunks)).1 (frames_of (frame' ++ concat chunks)).2) as [out2 err2].
      cbn [fst snd]. by rewrite app_assoc.
Qed.

Lemma chunks_play items e : stops_with items e → ∀ chunks, plays None (Some ((UpChunk <$> chunks) ++ items)) chunks e.
Proof.
  intros He chunks. induction chunks as [|chunk chunks IH]; [|by apply plays_chunk].
  destruct items as [|[bytes|chain|] items], e as [| | |[| | |]]; try done; by constructor.
Qed.

Lemma delivery_plays plan items : 
  let '(out, e) := delivery plan items in plays (new_transformer <$> plan) (Some items) out e.
Proof.
  unfold delivery. destruct (leading_chunks_stop items) as (tail & Hi & Hs). destruct (leading_chunks items) as [chunks e].
  cbn [fst snd] in Hi, Hs. rewrite Hi. destruct plan as [plan|]; [|by apply chunks_play].
  pose proof (drive_plays tail e chunks (new_transformer plan) [] (resumes_start (new_transformer plan) None) eq_refl Hs) as Hp.
  unfold text_yield in Hp. cbn [app new_transformer st_plan] in Hp.
  destruct (frames_of (concat chunks)) as [frames rest]. cbn [fst snd] in Hp.
  destruct (yielded plan frames rest) as [out [err|]]; cbn [fst snd] in Hp; [by rewrite app_nil_r in Hp|].
  destruct e, rest; exact Hp.
Qed.

(** C10: a client that reads [polls] chunks of an unadapted response receives
    exactly what the upstream sent.  Without event patches these are the
    upstream's chunks, unchanged and in order; with them they are the transformed
    frames of the stream, however the upstream cut it, and at a normal end its
    unfinished rest.  The body then ends as the upstream's did, or fails at the
    first frame that cannot be transformed.  Accounting never changes a byte; only
    a price that panics cuts the body short. *)
Theorem body_delivered_exact plan items st polls clock :
  st.(ss_upstream) = Some items → st.(ss_transformer) = new_transformer <$> plan → st.(ss_frames) = [] → st.(ss_adapter) = None →
  delivers polls (delivery plan items) (body_relay polls clock st).1.
Proof.
  intros Hu Ht Hf Ha. pose proof (delivery_plays plan items) as Hp. destruct (delivery plan items) as [out e].
  by apply (plays_delivers _ _ _ _ Hp).
Qed.
End delivery.
