(* ===== verification/Respond.v ===== *)
(** * Answering with an upstream response

    Models [response_from_upstream] of [src/application/proxy.rs] with its header
    filters, and the parser of [src/upstream/content_coding.rs].  The decoders are
    third-party code: the response's body is a function of the codings to undo. *)

From S2P Require Import Prelude Text Decimal Domain Records Billing Cost Json Journal Usage ErrorText Sse SseFrames JsonScan Collector Headers JsonPatch Plans Transform SseTransform RequestPolicy Outbound ImageBody ImageEdit Spool Compiled Admission Health Selection Affinity Routing Keyword Outcome Completion Adapter Relay.
Open Scope gateway_scope.

(** ** Content codings *)

Inductive ContentCoding := Gzip | Deflate | Brotli | Zstd.
Definition MAX_CONTENT_CODINGS : nat := 4.

(** One token after trimming; the outer option is the refusal, the inner one
    [identity]. *)
Definition coding_of (token : str) : option (option ContentCoding) :=
  if is_text "identity" token then Some None
  else if is_text "gzip" token || is_text "x-gzip" token then Some (Some Gzip)
  else if is_text "deflate" token then Some (Some Deflate)
  else if is_text "br" token then Some (Some Brotli)
  else if is_text "zstd" token then Some (Some Zstd)
  else None.

Definition comma : Ascii.ascii := Ascii.ascii_of_N 44.
Definition semicolon : Ascii.ascii := Ascii.ascii_of_N 59.

Fixpoint parse_tokens (tokens : list str) (codings : list ContentCoding) : option (list ContentCoding) :=
  match tokens with
  | [] => Some codings
  | token :: tokens =>
      let token := trim token in
      if match token with [] => true | _ => false end then None
      else
        coding ← coding_of token;
        match coding with
        | None => parse_tokens tokens codings
        | Some coding =>
            let codings := codings ++ [coding] in
            if (MAX_CONTENT_CODINGS <? length codings)%nat then None else parse_tokens tokens codings
        end
  end.

(** ** Headers of a response *)

Section headers.
Context `{HT : HeaderText, HL : HeaderLib}.
Implicit Types (headers : HeaderMap).

(** [ResponseContentCodings::parse] *)
Definition parse_codings headers : option (list ContentCoding) :=
  foldl (λ codings value, codings ← codings; text ← header_to_str value; parse_tokens (split_on comma (bytes_of text)) codings)
    (Some []) (get_all headers "content-encoding").

(** The media type of [content-type], without its parameters. *)
Definition media_type headers : option str :=
  value ← head (get_all headers "content-type"); text ← header_to_str value;
  trim <$> head (split_on semicolon (bytes_of text)).

Definition is_sse_response headers : bool := is_some_and (media_type headers) (is_text "text/event-stream").
Definition is_json_response headers : bool := is_some_and (media_type headers) (is_text "application/json").

Definition binary_types : list string := ["image/"; "audio/"; "video/"; "font/"; "multipart/"].
Definition binary_media : list string := ["application/octet-stream"; "application/pdf"; "application/zip"; "application/gzip"].
Definition response_error_body_is_textual headers : bool :=
  match media_type headers with
  | None | Some [] => true
  | Some media =>
      let media := to_ascii_lowercase <$> media in
      forallb (λ prefix, negb (match strip_prefix (bytes_of prefix) media with Some _ => true | None => false end)) binary_types
      && negb (existsb (λ name, bool_decide (media = bytes_of name)) binary_media)
  end.

Definition decoded_entity_names : list string :=
  ["content-encoding"; "content-length"; "accept-ranges"; "etag"; "content-md5"; "digest"; "content-digest"; "repr-digest"].
Definition remove_decoded_entity_headers headers : HeaderMap := foldl headers_remove headers decoded_entity_names.
Definition transformed_entity_names : list string :=
  ["content-length"; "etag"; "last-modified"; "content-md5"; "digest"; "content-digest"; "repr-digest"].
Definition remove_transformed_entity_headers headers : HeaderMap := foldl headers_remove headers transformed_entity_names.

Definition forward_response_headers (contract : RequestPolicyContract) headers : HeaderMap := forward_headers contract headers false.

(** The headers of the answer, or the error of the response plan. *)
Definition answer_headers (contract : RequestPolicyContract) (plan : HeaderPlan) (forced_sse encoded rewritten : bool) headers
    : applied HeaderMap :=
  match apply_response_header_plan headers plan with
  | (_, Err e) => Err e
  | (headers, Ok _) =>
      let headers := if forced_sse then headers_insert headers "content-type" (bytes_of "text/event-stream") else headers in
      let headers := headers_remove headers "content-encoding" in
      let headers := if encoded then remove_decoded_entity_headers headers else headers in
      let headers := forward_response_headers contract headers in
      Ok (if rewritten then remove_transformed_entity_headers headers else headers)
  end.
End headers.

Definition response_has_no_body (status : Z) : bool :=
  ((100 <=? status) && (status <? 200)) || (status =? 204) || (status =? 304).

(** ** Answers *)

Section respond.
Context {D V T Policy Auth P : Type} `{DecimalOps D, JsonOps V, UtcOps T, Chrono T, JT : JsonText, UP : UsagePlugin P, UC : UnicodeCase, HT : HeaderText, HL : HeaderLib, PL : PatchLib, RR : ResponseReader}.
Context (display : Z → string).
(** [to_string] of an error of the transforms. *)
Context (transform_error : TransformApplyError → string).
Context (contract : RequestPolicyContract).

Abbreviation Guard := (CompletionGuard (D := D) (V := V) (T := T) (P := P)).
Abbreviation Eff := (Effect (D := D) (V := V) (T := T) (Policy := Policy) (Auth := Auth)).
Abbreviation State := (StreamState (D := D) (V := V) (T := T) (P := P)).

Record UpstreamResponse := {
  ur_status : Z;
  ur_headers : HeaderMap;
  ur_content_length : option Z;
  ur_body : list ContentCoding → list UpstreamItem;   (** [decode_response_body] *)
}.

Inductive ClientBody := EmptyBody | BytesBody (bytes : str) | StreamBody (st : State).
Record ClientResponse := { cr_status : Z; cr_headers : HeaderMap; cr_body : ClientBody }.

Inductive Answer := Answered (r : ClientResponse) | Refused (e : ProxyError) | AnswerPanicked.

(** A guard that the function still owns is dropped when it returns, after a
    panic too. *)
Definition leave (t : Readings) (m : list Eff * result Guard Guard) (answer : Answer) : list Eff * Answer :=
  match m with
  | (es, Ok g) => (es ++ drop_guard display t g, answer)
  | (es, Err g) => (es ++ drop_guard display t g, AnswerPanicked)
  end.

(** A response that cannot be used: the client sees 502. *)
Definition refuse (t : Readings) (outcome : RequestOutcome) (error : ProxyError) (details : ResponseErrorDetails) (g : Guard)
    : list Eff * Answer :=
  leave t (finish_with_error_details display t outcome details (set_client_visible_status 502 g)) (Refused error).
Definition refuse_transform (t : Readings) (g : Guard) : list Eff * Answer :=
  refuse t OutResponseTransformFailed response_transform_failed (request_log_details response_transform_failed) g.

(** The body a JSON adapter works on; without a value when it cannot be read. *)
Fixpoint collect_json (items : list UpstreamItem) (body : str) (g : Guard) : list Eff * Guard * option str :=
  match items with
  | [] => ([], g, Some body)
  | UpChunk bytes :: items =>
      let '(reports, g) := observe_upstream_error_body bytes g in
      let g := (observe_usage bytes g).1 in
      if MAX_RESPONSE_JSON_BYTES <? Z.of_nat (length body) + Z.of_nat (length bytes) then (reports, g, None)
      else let '(es, g, r) := collect_json items (body ++ bytes) g in (reports ++ es, g, r)
  | (UpError _ | UpIdle) :: _ => ([], g, None)
  end.

Definition answer_json (t : Readings) (r : UpstreamResponse) (codings : list ContentCoding) (a : ResponseAdapterConfig (P := P))
    (headers : HeaderMap) (g : Guard) : list Eff * Answer :=
  let '(es, g, body) := collect_json (r.(ur_body) codings) [] g in
  let '(es', answer) :=
    match body with
    | None => refuse_transform t g
    | Some body =>
        match adapt_json a r.(ur_status) body with
        | Err _ => refuse_transform t g
        | Ok adapted =>
            leave t (finish display t OutSucceeded (finalize_usage (record_first_byte t g)).1)
              (Answered {| cr_status := r.(ur_status); cr_headers := headers; cr_body := BytesBody adapted |})
        end
    end in
  (es ++ es', answer).

(** The state of a body that is streamed. *)
Definition stream_of (r : UpstreamResponse) (codings : list ContentCoding) (adapter : option (ResponseAdapterConfig (P := P)))
    (transform : bool) (patches : SseEventPatchPlan) (expected : option Z) (g : Guard) : State :=
  {| ss_upstream := Some (r.(ur_body) codings); ss_completion := g; ss_succeeded := is_success r.(ur_status);
     ss_remaining := expected;
     ss_transformer := match adapter with
                       | Some a => Some (new_transformer (sse_empty (ApiOperation.api_format a.(ra_operation))))
                       | None => if transform then Some (new_transformer patches) else None
                       end;
     ss_adapter := (λ a, new_adapter a r.(ur_status) (ApiOperation.api_format a.(ra_operation))) <$> adapter;
     ss_patches := patches; ss_frames := []; ss_terminal := None |}.

(** The answer once the headers are decided. *)
Definition answer_body (t : Readings) (r : UpstreamResponse) (codings : list ContentCoding) (adapter : option (ResponseAdapterConfig (P := P)))
    (transform : bool) (patches : SseEventPatchPlan) (headers : HeaderMap) (g : Guard) : list Eff * Answer :=
  let status := r.(ur_status) in
  let encoded := negb (match codings with [] => true | _ => false end) in
  let expected := if negb transform && negb (match adapter with Some _ => true | None => false end) && negb encoded
                  then r.(ur_content_length) else None in
  if response_has_no_body status || bool_decide (expected = Some 0) then
    leave t (finish display t (completed_transport_outcome (is_success status)) g)
      (Answered {| cr_status := status; cr_headers := headers; cr_body := EmptyBody |})
  else
    match adapter with
    | Some a =>
        if bool_decide (a.(ra_mode) = ModeJson) then answer_json t r codings a headers g
        else ([], Answered {| cr_status := status; cr_headers := headers;
                              cr_body := StreamBody (stream_of r codings adapter transform patches expected g) |})
    | None =>
        ([], Answered {| cr_status := status; cr_headers := headers;
                         cr_body := StreamBody (stream_of r codings adapter transform patches expected g) |})
    end.

(** An adapter needs a response of its own kind. *)
Definition adapter_mismatch (a : ResponseAdapterConfig (P := P)) (sse : bool) (headers : HeaderMap) : bool :=
  negb (Bool.eqb sse (bool_decide (a.(ra_mode) = ModeSse)))
  || (bool_decide (a.(ra_mode) = ModeJson) && negb (is_json_response headers)).

Definition response_from_upstream (t : Readings) (r : UpstreamResponse) (connector_sse : bool) (plan : HeaderPlan)
    (patches : SseEventPatchPlan) (adapter : option (ResponseAdapterConfig (P := P))) (g : Guard) : list Eff * Answer :=
  let status := r.(ur_status) in
  let '(es, g) := set_upstream_status status g in
  let '(es', answer) :=
    match parse_codings r.(ur_headers) with
    | None =>
        refuse t OutUpstreamContentEncodingUnsupported unsupported_upstream_content_encoding
          (request_log_details unsupported_upstream_content_encoding) g
    | Some codings =>
        let forced := connector_sse && is_success status in
        let sse := is_sse_response r.(ur_headers) || forced in
        let adapter := if is_success status then adapter else None in
        if match adapter with Some a => adapter_mismatch a sse r.(ur_headers) | None => false end then refuse_transform t g
        else
          let transform := has_operations patches && sse in
          let capture := negb sse && negb (is_success status) && response_error_body_is_textual r.(ur_headers) in
          let g := configure_usage_collector sse capture g in
          let encoded := negb (match codings with [] => true | _ => false end) in
          let rewritten := transform || match adapter with Some _ => true | None => false end in
          match answer_headers contract plan forced encoded rewritten r.(ur_headers) with
          | Err e =>
              refuse t OutResponseTransformFailed response_transform_failed
                (proxy_error_with_source response_transform_failed (transform_error e)) g
          | Ok headers => answer_body t r codings adapter transform patches headers g
          end
    end in
  (es ++ es', answer).
End respond.

(** ** Every answer accounts for its request *)

Section accounting.
Context {D V T Policy Auth P : Type} `{DecimalOps D, JsonOps V, UtcOps T, Chrono T, JT : JsonText, UP : UsagePlugin P, UC : UnicodeCase, HT : HeaderText, HL : HeaderLib, PL : PatchLib, RR : ResponseReader}.
Context (display : Z → string) (transform_error : TransformApplyError → string) (contract : RequestPolicyContract).
Abbreviation Guard := (CompletionGuard (D := D) (V := V) (T := T) (P := P)).
Abbreviation Eff := (Effect (D := D) (V := V) (T := T) (Policy := Policy) (Auth := Auth)).
Abbreviation Ans := (Answer (D := D) (V := V) (T := T) (P := P)).
Implicit Types (g : Guard) (es : list Eff) (a : AttemptContext (P := P)).

(** The guard of the same request with other attempt data; nothing happened. *)
Record reaches g c es g1 a1 : Prop := {
  rc_lease : g1.(g_lease) = g.(g_lease);
  rc_admission : g1.(g_admission) = g.(g_admission);
  rc_quiet : recorded es = [] ∧ dropped es = [] ∧ closed es = [] ∧ routing es = [];
  rc_before : g.(g_context) = Some c;
  rc_after : g1.(g_context) = Some (with_attempt c a1);
}.

Lemma reaches_refl g c : g.(g_context) = Some c → reaches g c [] g c.(cx_attempt).
Proof. intros Hg. split; try done. by rewrite with_attempt_same. Qed.

(** Setters on the way. *)
Lemma reaches_on_attempt g c es g1 a1 f : reaches g c es g1 a1 → reaches g c es (on_attempt f g1) (f a1).
Proof. intros [Hl Ha Hq Hb Hc]. split; try done. unfold on_attempt. by rewrite Hc. Qed.
Lemma reaches_status g c es g1 a1 status :
  reaches g c es g1 a1 →
  reaches g c (es ++ (set_upstream_status (Policy := Policy) (Auth := Auth) status g1).1) (set_upstream_status (Policy := Policy) (Auth := Auth) status g1).2
    (set_status (Some status) a1).
Proof.
  intros Hr%(reaches_on_attempt _ _ _ _ _ (set_status (Some status))). destruct Hr as [Hl Ha (Hq1 & Hq2 & Hq3 & Hq4) Hb Hc].
  unfold set_upstream_status. set (g2 := on_attempt _ g1) in *.
  assert (∀ l : list Eff, recorded l = [] → dropped l = [] → closed l = [] → routing l = [] →
    recorded (es ++ l) = [] ∧ dropped (es ++ l) = [] ∧ closed (es ++ l) = [] ∧ routing (es ++ l) = []) as Happ.
  { intros l H4 H5 H6 H7. by rewrite recorded_app, dropped_app, closed_app, routing_app, Hq1, Hq2, Hq3, Hq4, H4, H5, H6, H7. }
  destruct (g_disable g2) as [d|]; [|by split; [| |apply Happ| |]].
  destruct (is_success status); [by split; [| |apply Happ| |]|]. destruct (matches_status _ _); by split; [| |apply Happ| |].
Qed.

Lemma reaches_settles Q g c es g1 a1 es' :
  reaches g c es g1 a1 → settles_kept display Q g1 es' → settles display (λ o a, kept a1 a ∧ Q o a) g (es ++ es').
Proof.
  intros [Hl Ha (Hq1 & Hq2 & Hq3 & Hq4) Hb Hc] [Hd Hcl Hro Hx].
  split; [by rewrite dropped_app, Hq2, Hd, Hl|by rewrite closed_app, Hq3, Hcl, Ha|by rewrite routing_app, Hq4, Hro|].
  rewrite Hb, recorded_app, Hq1. rewrite Hc in Hx. exact Hx.
Qed.

(** What the client got. *)
Definition answer_status (answer : Ans) : option Z :=
  match answer with Answered r => Some r.(cr_status) | Refused e => Some e.(pe_status) | AnswerPanicked => None end.
(** The logged status is the client's, and a success is the upstream's. *)
Definition accounted (succeeded : bool) (answer : Ans) (o : RequestOutcome) (a : AttemptContext (P := P)) : Prop :=
  (o = OutSucceeded → succeeded = true) ∧ match answer_status answer with Some status => logged_status o a = Some status | None => True end.

Lemma leave_settles Q t (m : list Eff * result Guard Guard) answer g :
  advances_to display Q g m →
  match m.2 with Ok g' => g'.(g_context) = None | Err _ => True end →
  settles_kept display Q g (leave display t m answer).1 ∧ (leave display t m answer).2 = match m.2 with Ok _ => answer | Err _ => AnswerPanicked end.
Proof.
  unfold advances_to, leave. destruct m as [es [g'|g']]; cbn [fst snd]; intros Ha Hover.
  - split; [|done]. eapply advances_settles; [done|]. rewrite drop_over by done. by apply drop_over_settles.
  - split; [|done]. rewrite drop_over by (by eapply advances_panic_over). by apply panic_settles.
Qed.

Lemma refuse_accounted s g c es g1 a1 t o e d :
  reaches g c es g1 a1 → o ≠ OutSucceeded → e.(pe_status) = 502 →
  settles display (accounted s (refuse (Policy := Policy) (Auth := Auth) display t o e d g1).2) g
    (es ++ (refuse (Policy := Policy) (Auth := Auth) display t o e d g1).1).
Proof.
  intros Hr Ho He. unfold refuse. set (g2 := set_client_visible_status 502 g1).
  pose proof (reaches_on_attempt _ _ _ _ _ (set_visible (Some 502)) Hr) as Hr2. change (on_attempt _ g1) with g2 in Hr2.
  destruct (leave_settles (λ o' _, o' = o) t (finish_with_error_details display t o d g2) (Refused e) g2) as [Hs Hv].
  { by apply finish_details_advances. }
  { pose proof (finish_details_over (Policy := Policy) (Auth := Auth) display t o d g2) as Hover.
    by destruct (finish_with_error_details display t o d g2) as [es' [g'|g']]. }
  rewrite Hv. eapply settles_mono; [|exact (reaches_settles _ _ _ _ _ _ _ Hr2 Hs)].
  intros o' a [[Hk1 Hk2] ->]. split; [done|]. destruct (finish_with_error_details display t o d g2) as [es' [g'|g']]; cbn; [|done].
  unfold logged_status. by rewrite Hk2, He.
Qed.

(** A guard on which only observations were made. *)
Lemma reaches_advances g c es g1 a1 es' g2 :
  reaches g c es g1 a1 → advances display (λ _ _, False) g1 es' false g2 →
  ∃ a2, reaches g c (es ++ es') g2 a2 ∧ kept a1 a2.
Proof.
  intros [Hl Ha (Hq1 & Hq2 & Hq3 & Hq4) Hb Hc] [Hl' Ha' Hd Hcl Hro Hx]. rewrite Hc in Hx.
  destruct Hx as [(a2 & Hg2 & Hk & Hr & _)|(? & ? & ? & _ & _ & [] & _)]. exists a2. split; [|done].
  split; [congruence|congruence| |done|done]. by rewrite recorded_app, dropped_app, closed_app, routing_app, Hq1, Hq2, Hq3, Hq4, Hr, Hd, Hcl, Hro.
Qed.

Lemma collect_json_advances items : ∀ body g,
  let '(es, g', _) := collect_json (Policy := Policy) (Auth := Auth) items body g in advances display (λ _ _, False) g es false g'.
Proof.
  induction items as [|[bytes|chain|] items IH]; intros body g; cbn [collect_json]; [apply advances_refl| |apply advances_refl..].
  pose proof (error_body_advances (Policy := Policy) (Auth := Auth) display (λ _ _, False) bytes g) as Ha.
  destruct (observe_upstream_error_body bytes g) as [reports g1]. cbn [fst snd] in Ha.
  pose proof (advances_trans _ _ _ _ _ _ _ _ Ha (observe_usage_advances display _ bytes g1)) as Hb. rewrite app_nil_r in Hb.
  destruct (MAX_RESPONSE_JSON_BYTES <? _); [done|]. specialize (IH (body ++ bytes) (observe_usage bytes g1).1).
  destruct (collect_json items _ _) as [[es g'] r]. by eapply advances_trans.
Qed.

(** A request that ends before its answer leaves. *)
Lemma finish_accounted g c es g1 a1 t o answer status :
  reaches g c es g1 a1 → a1.(cx_client_visible_status) = None → a1.(cx_upstream_status) = Some status →
  answer_status answer = Some status → (o = OutSucceeded → is_success status = true) →
  let m := leave (Policy := Policy) (Auth := Auth) display t (finish display t o g1) answer in
  settles display (accounted (is_success status) m.2) g (es ++ m.1).
Proof.
  intros Hr Hv Hu Hans Ho. cbn zeta.
  destruct (leave_settles (λ o' _, o' = o) t (finish (Policy := Policy) (Auth := Auth) display t o g1) answer g1) as [Hs Hval].
  { apply finish_advances. by destruct (g_context g1). }
  { pose proof (finish_over (Policy := Policy) (Auth := Auth) display t o g1). by destruct (finish display t o g1) as [? [?|?]]. }
  eapply settles_mono; [|exact (reaches_settles _ _ _ _ _ _ _ Hr Hs)]. intros o' a [[Hk1 Hk2] ->]. split; [done|]. rewrite Hval.
  destruct (finish display t o g1) as [es' [g'|g']]; cbn [snd]; [|done]. rewrite Hans. unfold logged_status. by rewrite Hk1, Hk2, Hv, Hu.
Qed.

Lemma answer_json_accounted g c es g1 a1 t r codings ad headers :
  reaches g c es g1 a1 → a1.(cx_client_visible_status) = None → a1.(cx_upstream_status) = Some r.(ur_status) →
  is_success r.(ur_status) = true →
  let m := answer_json (Policy := Policy) (Auth := Auth) display t r codings ad headers g1 in
  settles display (accounted (is_success r.(ur_status)) m.2) g (es ++ m.1).
Proof.
  intros Hr Hv Hu Hok. cbn zeta. unfold answer_json. pose proof (collect_json_advances (ur_body r codings) [] g1) as Hcol.
  destruct (collect_json (ur_body r codings) [] g1) as [[es1 g2] body].
  destruct (reaches_advances _ _ _ _ _ _ _ Hr Hcol) as (a2 & Hr2 & Hk2 & Hk1).
  assert (∀ m : list Eff * Ans, settles display (accounted (is_success (ur_status r)) m.2) g ((es ++ es1) ++ m.1) →
    let '(es', answer) := m in settles display (accounted (is_success (ur_status r)) answer) g (es ++ es1 ++ es')) as Hassoc.
  { intros [es' answer]. by rewrite <-app_assoc. }
  set (m := match body with Some _ => _ | None => _ end).
  assert (settles display (accounted (is_success (ur_status r)) m.2) g ((es ++ es1) ++ m.1)) as Hm; [|apply Hassoc in Hm; by destruct m].
  unfold m. destruct body as [body|]; [|by apply (refuse_accounted _ _ _ _ _ _ _ _ _ _ Hr2)].
  destruct (adapt_json ad (ur_status r) body) as [adapted|]; [|by apply (refuse_accounted _ _ _ _ _ _ _ _ _ _ Hr2)].
  pose proof (reaches_on_attempt _ _ _ _ _ (λ a, match a.(cx_first_byte_at) with Some _ => a | None => set_first_byte (Some t.(at_first_byte)) a end) Hr2) as Hr3.
  pose proof (reaches_on_attempt _ _ _ _ _ (λ a, set_collector (Collector.finalize a.(cx_usage)) a) Hr3) as Hr4.
  eapply finish_accounted; [exact Hr4|destruct (cx_first_byte_at a2); cbn; congruence|destruct (cx_first_byte_at a2); cbn; congruence|done|done].
Qed.

(** The answer and the client that reads at most [polls] chunks of its body. *)
Definition served (polls : nat) (clock : nat → Readings) (m : list Eff * Ans) : list Eff :=
  m.1 ++ match m.2 with
         | Answered r => match r.(cr_body) with StreamBody st => (relay display transform_error polls clock st).2 | _ => [] end
         | _ => []
         end.

(** An answer whose request is over is not a stream. *)
Definition not_streaming (answer : Ans) : Prop :=
  match answer with Answered r => match r.(cr_body) with StreamBody _ => False | _ => True end | _ => True end.
Lemma served_now polls clock (m : list Eff * Ans) : not_streaming m.2 → served polls clock m = m.1.
Proof. unfold served. destruct m as [es [r|e|]]; cbn; [|by rewrite app_nil_r..]. by destruct (cr_body r); rewrite ?app_nil_r. Qed.
Lemma leave_not_streaming t (m : list Eff * result Guard Guard) (answer : Ans) : not_streaming answer → not_streaming (leave display t m answer).2.
Proof. by destruct m as [es [g|g]]. Qed.

Lemma answer_json_not_streaming t r codings ad headers g :
  not_streaming (answer_json (Policy := Policy) (Auth := Auth) display t r codings ad headers g).2.
Proof.
  unfold answer_json. destruct (collect_json _ _ _) as [[es1 g2] body].
  set (m := match body with Some _ => _ | None => _ end). assert (not_streaming m.2) as Hm; [|by destruct m].
  unfold m. destruct body as [body|]; [destruct (adapt_json _ _ _)|]; by apply leave_not_streaming.
Qed.

Lemma stream_coherent r codings (ad : option (ResponseAdapterConfig (P := P))) transform patches expected g :
  (transform || match ad with Some _ => true | None => false end = true → expected = None) →
  coherent (stream_of r codings ad transform patches expected g).
Proof.
  intros He. split; [|by destruct ad as [x|]; [|intros [? [=]]]|done]. cbn. intros [tr Htr]. apply He.
  destruct ad; [apply orb_true_r|]. by destruct transform.
Qed.

Lemma answer_body_accounted polls clock g c es g1 a1 t r codings ad transform patches headers :
  reaches g c es g1 a1 → a1.(cx_client_visible_status) = None → a1.(cx_upstream_status) = Some r.(ur_status) →
  (is_Some ad → is_success r.(ur_status) = true) →
  let m := answer_body (Policy := Policy) (Auth := Auth) display t r codings ad transform patches headers g1 in
  settles display (accounted (is_success r.(ur_status)) m.2) g (es ++ served polls clock m).
Proof.
  intros Hr Hv Hu Hok. cbn zeta. unfold answer_body.
  set (expected := if _ : bool then ur_content_length r else None).
  assert (transform || match ad with Some _ => true | None => false end = true → expected = None) as Hexp.
  { unfold expected. destruct transform; [done|]. by destruct ad. }
  destruct (response_has_no_body _ || _).
  { rewrite served_now by (by apply leave_not_streaming). eapply finish_accounted; [done..|]. by destruct (is_success _). }
  assert (∀ st, st = stream_of r codings ad transform patches expected g1 →
    let answer := Answered {| cr_status := r.(ur_status); cr_headers := headers; cr_body := StreamBody st |} in
    settles display (accounted (is_success r.(ur_status)) answer) g (es ++ served polls clock ([], answer))) as Hstream.
  { intros st ->. unfold served. cbn [fst snd cr_body app]. pose proof (stream_coherent r codings ad transform patches expected g1 Hexp) as Hco.
    pose proof (relay_settles_when (Policy := Policy) (Auth := Auth) display transform_error True polls clock _ Hco (λ _, I)) as Hs.
    eapply settles_mono; [|exact (reaches_settles _ _ _ _ _ _ _ Hr Hs)]. intros o a [[Hk1 Hk2] Hj]. split; [by intros Ho; apply Hj|].
    cbn. unfold logged_status. by rewrite Hk1, Hk2, Hv, Hu. }
  destruct ad as [ad|]; [|by apply Hstream]. destruct (bool_decide _); [|by apply Hstream].
  pose proof (answer_json_accounted g c es g1 a1 t r codings ad headers Hr Hv Hu (Hok ltac:(done))) as Hj. cbn zeta in Hj.
  rewrite served_now; [done|apply answer_json_not_streaming].
Qed.

Lemma response_settles polls clock t r connector_sse plan patches ad g c :
  g.(g_context) = Some c → c.(cx_attempt).(cx_client_visible_status) = None →
  let m := response_from_upstream (Policy := Policy) (Auth := Auth) display transform_error contract t r connector_sse plan patches ad g in
  settles display (accounted (is_success r.(ur_status)) m.2) g (served polls clock m).
Proof.
  intros Hg Hv. cbn zeta. unfold response_from_upstream.
  pose proof (reaches_status _ _ _ _ _ (ur_status r) (reaches_refl g c Hg)) as Hr. cbn [app] in Hr.
  destruct (set_upstream_status (ur_status r) g) as [es g1]. cbn [fst snd] in Hr. set (a1 := set_status _ _) in Hr.
  set (m := match parse_codings (ur_headers r) with Some _ => _ | None => _ end).
  assert (settles display (accounted (is_success (ur_status r)) m.2) g (es ++ served polls clock m)) as Hm.
  2:{ revert Hm. unfold served. destruct m as [es' answer]. cbn. by rewrite app_assoc. }
  assert (∀ o e d g2 a2, reaches g c es g2 a2 → o ≠ OutSucceeded → e.(pe_status) = 502 →
    let m := refuse (Policy := Policy) (Auth := Auth) display t o e d g2 in
    settles display (accounted (is_success (ur_status r)) m.2) g (es ++ served polls clock m)) as Hrefuse.
  { intros o e d g2 a2 Hr2 Ho He. cbn zeta. unfold refuse at 2. rewrite served_now by (by apply leave_not_streaming). by eapply refuse_accounted. }
  unfold m. clear m. destruct (parse_codings (ur_headers r)) as [codings|]; [|by eapply Hrefuse].
  set (sse := is_sse_response _ || _). set (ad' := if is_success (ur_status r) then ad else None).
  destruct (match ad' with Some _ => _ | None => false end); [by eapply Hrefuse|].
  set (transform := has_operations patches && sse). set (capture := negb sse && _ && _).
  pose proof (reaches_on_attempt _ _ _ _ _ (λ a, let u := collector_reset sse a.(cx_usage) in
    set_collector (if capture then Collector.capture_error_body u else u) a) Hr) as Hr2.
  destruct (answer_headers _ _ _ _ _ _) as [headers|e]; [|by eapply Hrefuse].
  apply (answer_body_accounted polls clock _ _ _ _ _ _ _ _ _ _ _ _ Hr2); [done|done|].
  unfold ad'. destruct (is_success _); [done|by intros [??]].
Qed.

(** C14: an answer accounts for its request.  Whatever the upstream responds, the
    whole of the answer and of the body, wherever the client stops reading,
    drops the lease of the channel once, gives the admission of the key back
    once and records one event (none when the price itself panics); the status
    of that event is the status the client received, 502 for a response that
    cannot be used, and it is a success only if the upstream's status was one. *)
Theorem response_accounted polls clock t r connector_sse plan patches ad g c :
  g.(g_context) = Some c → c.(cx_attempt).(cx_client_visible_status) = None →
  let m := response_from_upstream (Policy := Policy) (Auth := Auth) display transform_error contract t r connector_sse plan patches ad g in
  settles display (accounted (is_success r.(ur_status)) m.2) g (served polls clock m).
Proof. apply response_settles. Qed.
End accounting.

(** ** The headers of an answer *)

Section answer_headers.
Context `{HT : HeaderText, HL : HeaderLib} {HLaws : HeaderLaws}.

(** Headers that never reach the client: those of the upstream connection, the
    coding that was undone, and descriptions of bytes that were changed. *)
Definition answer_drops (encoded rewritten : bool) (headers : HeaderMap) (n : string) : bool :=
  existsb (String.eqb n) (connection_header_names headers) || header_is_hop_by_hop n || String.eqb n "content-encoding"
  || (encoded && existsb (String.eqb n) decoded_entity_names) || (rewritten && existsb (String.eqb n) transformed_entity_names).

(** C21: the headers of an answer are determined name by name.  Hop-by-hop headers
    and those the upstream's [connection] names, the content coding and, when
    the body is decoded, patched or adapted, every header that describes the
    upstream's bytes ([content-length], digests, validators) are dropped; the
    content type is the upstream's, or that of an event stream when a connector
    converts to one; the length and the cookies are the upstream's own whatever
    the response plan says; any other header is the upstream's after the plan. *)
Theorem answer_headers_exact contract plan forced encoded rewritten h h' :
  answer_headers contract plan forced encoded rewritten h = Ok h' → ∀ n,
  get_all h' n
  = if answer_drops encoded rewritten h n then []
    else if forced && String.eqb "content-type" n then [bytes_of "text/event-stream"]
    else if is_protected_header n ResponseScope then get_all h n
    else get_all (apply_response_header_plan h plan).1 n.
Proof.
  unfold answer_headers, apply_response_header_plan. intros Ha n.
  pose proof (header_plan_keeps h plan ResponseScope) as Hkeep. pose proof (connection_names_kept h plan ResponseScope) as Hnames.
  destruct (apply_header_plan_in_scope h plan ResponseScope) as [h1 [u|e]]; [|done]. cbn [fst] in *. injection Ha as <-.
  set (h2 := if forced then _ else h1). set (h3 := headers_remove h2 "content-encoding"). set (h4 := if encoded then _ else h3).
  assert (∀ m, get_all h4 m = if String.eqb m "content-encoding" || (encoded && existsb (String.eqb m) decoded_entity_names) then []
                              else if forced && String.eqb "content-type" m then [bytes_of "text/event-stream"] else get_all h1 m) as H4.
  { intros m. unfold h4, h3, h2, remove_decoded_entity_headers. rewrite (String.eqb_sym m).
    destruct encoded, forced; rewrite ?get_all_remove_list, get_all_remove, ?get_all_insert; cbn [andb];
      destruct (String.eqb "content-encoding" m); cbn [orb]; by destruct (existsb (String.eqb m) decoded_entity_names). }
  assert (connection_header_names h4 = connection_header_names h) as Hn4.
  { rewrite <-Hnames. unfold connection_header_names. rewrite H4. cbn. by destruct encoded, forced. }
  assert (get_all (forward_response_headers contract h4) n
          = if existsb (String.eqb n) (connection_header_names h) || header_is_hop_by_hop n then [] else get_all h4 n) as Hf.
  { unfold forward_response_headers. rewrite forward_headers_spec. unfold forward_skips. cbn [andb]. by rewrite orb_false_r, Hn4. }
  assert (get_all h1 n = if is_protected_header n ResponseScope then get_all h n else get_all h1 n) as Hp.
  { destruct (is_protected_header n ResponseScope) eqn:E; [|done]. apply Hkeep. by left. }
  unfold answer_drops. rewrite <-Hp.
  destruct rewritten; unfold remove_transformed_entity_headers; rewrite ?get_all_remove_list, Hf, H4; cbn [andb];
    destruct (existsb (String.eqb n) (connection_header_names h)), (header_is_hop_by_hop n), (String.eqb n "content-encoding"),
      (encoded && existsb (String.eqb n) decoded_entity_names); cbn [orb]; by destruct (existsb (String.eqb n) transformed_entity_names).
Qed.
End answer_headers.
