(* ===== verification/Attempts.v ===== *)
(** * The attempts of a request

    Models the attempt loop of [proxy_authenticated_parts] in
    [src/application/proxy.rs] for JSON bodies: each turn prepares a connector,
    builds the upstream request, sends it, and answers, fails or moves to another
    route.  The routing runtime is shared with other requests, so every selection
    is an answer of the environment, as are the connectors, the upstreams and the
    clock. *)

From S2P Require Import Prelude Text Decimal Domain Records Billing Cost Json Journal Usage ErrorText Sse SseFrames JsonScan Collector Headers JsonPatch Plans Transform SseTransform RequestPolicy Outbound ImageBody ImageEdit Spool Compiled Admission Health Selection Affinity Routing Keyword Outcome Completion Adapter Relay Respond.
Open Scope gateway_scope.

(** ** Settings *)

Definition MAX_REQUEST_RETRIES : Z := 10.

Record RequestRetrySettings := {
  retry_enabled : bool;
  retry_max : Z;
  retryable_status_codes : list Z;
}.
Definition retries_status (s : RequestRetrySettings) (status : Z) : bool :=
  s.(retry_enabled) && bool_decide (status ∈ s.(retryable_status_codes)).
Definition max_retries (s : RequestRetrySettings) : Z := if s.(retry_enabled) then s.(retry_max) else 0.

(** ** Attempted slots *)

Definition INLINE_ATTEMPTED_CANDIDATES : nat := Z.to_nat MAX_REQUEST_RETRIES + 1.

Record AttemptedCandidateSlots := {
  slots_inline : list nat;       (** an array of [INLINE_ATTEMPTED_CANDIDATES] *)
  slots_len : nat;
  slots_overflow : option (list nat);
}.
Definition slots_new (unset : nat) : AttemptedCandidateSlots :=
  {| slots_inline := repeat unset INLINE_ATTEMPTED_CANDIDATES; slots_len := 0; slots_overflow := None |}.
Definition slots_push (slot : nat) (s : AttemptedCandidateSlots) : AttemptedCandidateSlots :=
  match s.(slots_overflow) with
  | Some slots => {| slots_inline := s.(slots_inline); slots_len := s.(slots_len); slots_overflow := Some (slots ++ [slot]) |}
  | None =>
      if (s.(slots_len) <? length s.(slots_inline))%nat
      then {| slots_inline := <[s.(slots_len) := slot]> s.(slots_inline); slots_len := S s.(slots_len); slots_overflow := None |}
      else {| slots_inline := s.(slots_inline); slots_len := s.(slots_len); slots_overflow := Some (s.(slots_inline) ++ [slot]) |}
  end.
Definition as_slice (s : AttemptedCandidateSlots) : list nat := default (take s.(slots_len) s.(slots_inline)) s.(slots_overflow).

Definition slots_ok (s : AttemptedCandidateSlots) : Prop := (s.(slots_len) ≤ length s.(slots_inline))%nat.

Lemma slots_new_ok unset : slots_ok (slots_new unset) ∧ as_slice (slots_new unset) = [].
Proof. split; [apply Nat.le_0_l|done]. Qed.
(** The array with its overflow is a list. *)
Lemma slots_push_slice slot s :
  slots_ok s → slots_ok (slots_push slot s) ∧ as_slice (slots_push slot s) = as_slice s ++ [slot].
Proof.
  unfold slots_ok, slots_push, as_slice. intros Hok. destruct (slots_overflow s) as [slots|]; [done|].
  destruct (slots_len s <? length (slots_inline s))%nat eqn:E; cbn [slots_len slots_inline slots_overflow default].
  - apply Nat.ltb_lt in E. rewrite length_insert. split; [lia|].
    rewrite (take_S_r _ _ slot), take_insert_ge; [done|lia|by apply list_lookup_insert_eq].
  - apply Nat.ltb_ge in E. split; [done|]. by rewrite take_ge.
Qed.

(** ** Connectors *)

Section attempts.
Context {D V T Policy Auth P : Type} `{DecimalOps D, JsonOps V, UtcOps T, Chrono T, JT : JsonText, UP : UsagePlugin P, UC : UnicodeCase, HT : HeaderText, HL : HeaderLib, PL : PatchLib, RR : ResponseReader}.
Context (display : Z → string) (transform_error : TransformApplyError → string) (contract : RequestPolicyContract).
(** [effective_transforms] of a channel's policy. *)
Context (transforms_of : Policy → TransformPlan).

Abbreviation Guard := (CompletionGuard (D := D) (V := V) (T := T) (P := P)).
Abbreviation Eff := (Effect (D := D) (V := V) (T := T) (Policy := Policy) (Auth := Auth)).
Abbreviation Ans := (Answer (D := D) (V := V) (T := T) (P := P)).
Abbreviation Route := (SelectedRoute (D := D) (V := V) (T := T) (Policy := Policy) (Auth := Auth)).
Abbreviation Rule := (CompiledModelRule D V T Policy Auth).
Abbreviation Channel := (CompiledChannel D Policy Auth).

(** The operations of a prepared attempt ([PreparedUpstreamAttempt]). *)
Record UpstreamAttempt := {
  ua_adapt_body : str → result str AttemptError;
  ua_url : result string AttemptError;
  ua_inject_headers : HeaderMap → result HeaderMap AttemptError;
  ua_allows_automatic_retry : bool;
  ua_preserves_affinity_on_failure : bool;
  ua_successful_response_is_sse : bool;
  ua_changes_request_body : bool;
  ua_usage_parser : UsageParserConfig P;
  ua_response_adapter : option (ResponseAdapterConfig (P := P));
}.

(** The built-in connector: the body and the response pass unchanged, and only it
    may be retried. *)
Definition openai_compatible (operation : ApiOperation.t) (auth : UpstreamAuth) (url : result string AttemptError) : UpstreamAttempt :=
  {| ua_adapt_body := λ body, Ok body; ua_url := url;
     ua_inject_headers := λ headers, lift_error ConnectorError (inject_standard_auth auth headers);
     ua_allows_automatic_retry := true; ua_preserves_affinity_on_failure := false; ua_successful_response_is_sse := false;
     ua_changes_request_body := false; ua_usage_parser := for_operation operation; ua_response_adapter := None |}.

(** ** Requests *)

(** Why a request is not sent: the outcome, the answer and what is logged. *)
Record Failure := {
  fl_outcome : RequestOutcome;
  fl_error : ProxyError;
  fl_details : ResponseErrorDetails;
  fl_visible : bool;             (** the answer's status is set for the log *)
}.
Definition failure (outcome : RequestOutcome) (e : ProxyError) : Failure :=
  {| fl_outcome := outcome; fl_error := e; fl_details := request_log_details e; fl_visible := false |}.

(** What all attempts of a request share. *)
Record ClientRequest := {
  cq_operation : ApiOperation.t;
  cq_model : string;
  cq_headers : HeaderMap;          (** after the policy for client headers *)
  cq_body : str;                   (** after the policy for client bodies *)
  cq_body_changed : bool;          (** by the policy, the fast mode filter or a content coding *)
}.

Definition web_search_transform_unsupported : ProxyError :=
  invalid_request_with_code "Standalone web search does not support request JSON transforms." "body"
    "standalone_web_search_json_transform_unsupported".

(** [encode_upstream_request_body]: [zstd] may fail. *)
Definition encode_upstream_request_body (zstd : str → option str) (compression : RequestCompression.t) (operation : ApiOperation.t)
    (body : str) : option (str * bool) :=
  if bool_decide (compression = RequestCompression.Default) then Some (body, false)
  else if negb (bool_decide (operation = ApiOperation.Responses)) then Some (body, false)
  else (λ b, (b, true)) <$> zstd body.

Definition attempt_failure (e : AttemptError) : Failure :=
  let error := connector_attempt e in
  {| fl_outcome := if is_client_error error.(pe_status) then OutClientRequestError else OutUpstreamUnavailable;
     fl_error := error; fl_details := request_log_details error; fl_visible := true |}.

Definition attempt_body (zstd : str → option str) (q : ClientRequest) (a : UpstreamAttempt) (c : Channel) (upstream : string)
    : result (str * bool) Failure :=
  let plan := transforms_of c.(upstream_policy) in
  let patched := negb (match plan.(request_json) with [] => true | _ => false end) in
  if bool_decide (q.(cq_operation) = ApiOperation.StandaloneWebSearch) && patched
  then Err (failure OutClientRequestError web_search_transform_unsupported)
  else
    body <-! lift_error (λ _, failure OutClientRequestError (image_edit_body InvalidJson)) (rewrite_model q.(cq_body) q.(cq_model) upstream);
    body <-! lift_error (λ _, failure OutClientRequestError transform_failed) (apply_json_patch_plan body plan.(request_json));
    body <-! lift_error attempt_failure (a.(ua_adapt_body) body);
    ok_or (encode_upstream_request_body zstd c.(request_compression) q.(cq_operation) body)
      (failure OutUpstreamUnavailable upstream_request_encoding_failed).

Definition attempt_headers (q : ClientRequest) (a : UpstreamAttempt) (c : Channel) (upstream : string) (encoded : bool)
    : result HeaderMap Failure :=
  let plan := transforms_of c.(upstream_policy) in
  let changed := q.(cq_body_changed) || negb (String.eqb q.(cq_model) upstream)
                 || negb (match plan.(request_json) with [] => true | _ => false end) || a.(ua_changes_request_body) || encoded in
  let headers := if changed then remove_rewritten_request_entity_headers q.(cq_headers) else q.(cq_headers) in
  headers <-! match apply_header_plan headers plan.(request_headers) with
              | (headers, Ok _) => Ok headers
              | (_, Err e) =>
                  Err {| fl_outcome := OutClientRequestError; fl_error := transform_failed;
                         fl_details := proxy_error_with_source transform_failed (transform_error e); fl_visible := false |}
              end;
  let headers := forward_headers contract headers true in
  _ <-! lift_error (λ e, failure OutUpstreamUnavailable (connector_attempt e)) a.(ua_url);
  headers <-! lift_error (λ e, failure OutUpstreamUnavailable (connector_attempt e)) (a.(ua_inject_headers) headers);
  let headers := sanitize_outbound_request_headers contract headers in
  let headers := if encoded
    then headers_insert (headers_insert headers "content-encoding" (bytes_of "zstd")) "content-type" (bytes_of "application/json")
    else headers_remove headers "content-encoding" in
  Ok (headers_insert headers "accept-encoding"
        (bytes_of (match get_all headers "range" with [] => UPSTREAM_ACCEPT_ENCODING | _ => "identity" end))).

(** The request of an attempt; [resolved] says whether the channel's policy
    resolves and has a client. *)
Definition attempt_request (zstd : str → option str) (resolved : Channel → bool) (q : ClientRequest) (a : UpstreamAttempt) (c : Channel)
    (upstream : string) : result (HeaderMap * str) Failure :=
  encoded <-! attempt_body zstd q a c upstream;
  headers <-! attempt_headers q a c upstream encoded.2;
  if resolved c
  then Ok (headers_insert headers "content-length" (bytes_of (display (Z.of_nat (length encoded.1)))), encoded.1)
  else Err (failure OutUpstreamUnavailable upstream_unavailable).

(** ** The loop *)

Inductive SendResult :=
| Received (r : UpstreamResponse)
| NotReceived (f : PreHeaderFailure)
| SendError (chain : string).

(** The environment of a request.  [en_select n excluded] is the answer of the
    routing runtime to its [n]-th further selection, [en_prepare n] and
    [en_send n] what the connector and the upstream of the [n]-th route do. *)
Record Environment := {
  en_select : nat → list nat → SelectionResult (D := D) (V := V) (T := T) (Policy := Policy) (Auth := Auth);
  en_prepare : nat → Route → bool → result UpstreamAttempt ConnectorUnavailable;
  en_send : nat → SendResult;
  en_clock : nat → Readings;
  en_zstd : str → option str;
  en_resolved : Channel → bool;
  en_service : bool;                       (** automatic disabling is running *)
  en_disable : AutomaticDisableSettings;
  en_retry : RequestRetrySettings;
  en_body_value : option V;                (** the JSON value of the body *)
}.
Context (env : Environment) (q : ClientRequest).

(** [request_billing_multiplier_for_body]; [None] is a panic. *)
Definition billing_multiplier (rule : Rule) : option D :=
  if negb (has_request_multipliers rule.(rule_advanced_billing)) then Some dec_one
  else value ← env.(en_body_value); request_billing_multiplier_for_value rule.(rule_advanced_billing) value.

Record LoopState := {
  lp_turn : nat;
  lp_route : Route;
  lp_attempt : Z;
  lp_slots : AttemptedCandidateSlots;
  lp_guard : Guard;
}.
Inductive Next := Continue (s : LoopState) | Return (answer : Ans).

Definition affinity_hit (r : Route) : bool := is_some_and r.(sr_session_affinity) sel_cache_hit.

(** An error that ends the request. *)
Definition abandon (t : Readings) (outcome : RequestOutcome) (error : ProxyError) (details : ResponseErrorDetails) (g : Guard)
    : list Eff * Next :=
  let '(es, answer) := leave display t (finish_with_error_details display t outcome details g) (Refused error) in (es, Return answer).
Definition abandon_with (t : Readings) (outcome : RequestOutcome) (error : ProxyError) : Guard → list Eff * Next :=
  abandon t outcome error (request_log_details error).

(** The next route takes over.  A panic of its multiplier drops its lease and
    the guard. *)
Definition move (retry : bool) (s : LoopState) (slots : AttemptedCandidateSlots) (es : list Eff) (g : Guard) (route : Route)
    : list Eff * Next :=
  match billing_multiplier route.(sr_rule) with
  | None => (es ++ OnLease Dropped route.(sr_lease) :: drop_guard display (env.(en_clock) s.(lp_turn)) g, Return AnswerPanicked)
  | Some multiplier =>
      let '(es', g) := replace_route retry route.(sr_rule) route.(sr_channel) route.(sr_upstream_model) route.(sr_lease) env.(en_service)
                         env.(en_disable) route.(sr_session_affinity) multiplier g in
      (es ++ es',
       Continue {| lp_turn := S s.(lp_turn); lp_route := route;
                   lp_attempt := if retry then sat_add u32_max s.(lp_attempt) 1 else s.(lp_attempt);
                   lp_slots := slots; lp_guard := g |})
  end.

Definition unavailable (t : Readings) (s : LoopState) (slots : AttemptedCandidateSlots) (reason : ConnectorUnavailable) : list Eff * Next :=
  if affinity_hit s.(lp_route) then
    abandon_with t OutUpstreamUnavailable (sticky_connector_unavailable reason) (set_preserve_affinity_on_failure true s.(lp_guard))
  else
    match env.(en_select) s.(lp_turn) (as_slice slots) with
    | Selected route => move false s slots [SelectRoute route] s.(lp_guard) route
    | _ => abandon_with t OutUpstreamUnavailable (connector_unavailable reason) s.(lp_guard)
    end.

Definition may_retry (s : LoopState) (a : UpstreamAttempt) : bool :=
  a.(ua_allows_automatic_retry) && ApiOperation.permits_automatic_retry q.(cq_operation)
  && (s.(lp_attempt) <? sat_add u32_max (max_retries env.(en_retry)) 1).

(** A route for the next attempt, if there may be one. *)
Definition retry_route (s : LoopState) (slots : AttemptedCandidateSlots) (allowed : bool) : option Route :=
  if allowed then match env.(en_select) s.(lp_turn) (as_slice slots) with Selected route => Some route | _ => None end else None.

Definition received (t : Readings) (s : LoopState) (slots : AttemptedCandidateSlots) (a : UpstreamAttempt) (g : Guard) (r : UpstreamResponse)
    : list Eff * Next :=
  let es := on_lease ResponseHeadersReceived g in
  match retry_route s slots (retries_status env.(en_retry) r.(ur_status) && may_retry s a) with
  | Some route =>
      let '(reports, g) := set_upstream_status r.(ur_status) g in
      move true s slots (es ++ SelectRoute route :: reports) g route
  | None =>
      let plan := transforms_of s.(lp_route).(sr_channel).(upstream_policy) in
      let '(es', answer) := response_from_upstream display transform_error contract t r a.(ua_successful_response_is_sse)
                              plan.(response_headers) plan.(sse_event_patches) a.(ua_response_adapter) g in
      (es ++ es', Return answer)
  end.

Definition not_received (t : Readings) (s : LoopState) (slots : AttemptedCandidateSlots) (a : UpstreamAttempt) (g : Guard) (f : PreHeaderFailure)
    : list Eff * Next :=
  let es := record_health f g in
  match retry_route s slots (may_retry s a) with
  | Some route => move true s slots (es ++ [SelectRoute route]) g route
  | None => let '(es', next) := abandon_with t (failure_outcome f) (failure_error f) g in (es ++ es', next)
  end.

Definition iteration (s : LoopState) : list Eff * Next :=
  let t := env.(en_clock) s.(lp_turn) in
  let route := s.(lp_route) in
  let slots := slots_push route.(sr_candidate_slot) s.(lp_slots) in
  match env.(en_prepare) s.(lp_turn) route (affinity_hit route) with
  | Err reason => unavailable t s slots reason
  | Ok a =>
      let g := set_usage_parser a.(ua_usage_parser)
                 (set_preserve_affinity_on_failure a.(ua_preserves_affinity_on_failure) s.(lp_guard)) in
      match attempt_request env.(en_zstd) env.(en_resolved) q a route.(sr_channel) route.(sr_upstream_model) with
      | Err f =>
          abandon t f.(fl_outcome) f.(fl_error) f.(fl_details)
            (if f.(fl_visible) then set_client_visible_status f.(fl_error).(pe_status) g else g)
      | Ok (headers, body) =>
          let '(es, next) :=
            match env.(en_send) s.(lp_turn) with
            | Received r => received t s slots a g r
            | NotReceived f => not_received t s slots a g f
            | SendError chain =>
                abandon t OutUpstreamUnavailable upstream_unavailable (proxy_error_with_source upstream_unavailable chain) g
            end in
          (SendRequest route headers body :: es, next)
      end
  end.

(** Every turn attempts another candidate; [fuel] turns are allowed. *)
Fixpoint attempts (fuel : nat) (s : LoopState) : option (list Eff * Ans) :=
  match fuel with
  | O => None
  | S fuel =>
      match (iteration s).2 with
      | Return answer => Some ((iteration s).1, answer)
      | Continue s' => (λ m, ((iteration s).1 ++ m.1, m.2)) <$> attempts fuel s'
      end
  end.
End attempts.

(** ** Every request accounts for itself *)

Section accounts.
Context {D V T Policy Auth P : Type} `{DecimalOps D, JsonOps V, UtcOps T, Chrono T, JT : JsonText, UP : UsagePlugin P, UC : UnicodeCase, HT : HeaderText, HL : HeaderLib, PL : PatchLib, RR : ResponseReader}.
Context (display : Z → string) (transform_error : TransformApplyError → string) (contract : RequestPolicyContract).
Context (transforms_of : Policy → TransformPlan).
Abbreviation Guard := (CompletionGuard (D := D) (V := V) (T := T) (P := P)).
Abbreviation Eff := (Effect (D := D) (V := V) (T := T) (Policy := Policy) (Auth := Auth)).
Abbreviation Ans := (Answer (D := D) (V := V) (T := T) (P := P)).
Abbreviation Route := (SelectedRoute (D := D) (V := V) (T := T) (Policy := Policy) (Auth := Auth)).
Abbreviation Context := (CompletionContext (D := D) (V := V) (T := T) (P := P)).
Abbreviation LoopNext := (Next (D := D) (V := V) (T := T) (Policy := Policy) (Auth := Auth) (P := P)).
Abbreviation Loop := (LoopState (D := D) (V := V) (T := T) (Policy := Policy) (Auth := Auth) (P := P)).
Context (env : Environment (D := D) (V := V) (T := T) (Policy := Policy) (Auth := Auth) (P := P)) (q : ClientRequest).
Implicit Types (es : list Eff) (g : Guard) (c : Context) (answer : Ans) (s : Loop).

Definition selected es : list Route := omap (λ x : Route * bool, if x.2 then None else Some x.1) (routing es).
Definition sent es : list Route := omap (λ x : Route * bool, if x.2 then Some x.1 else None) (routing es).
Lemma selected_app es es' : selected (es ++ es') = selected es ++ selected es'.
Proof. unfold selected. by rewrite routing_app, omap_app. Qed.
Lemma sent_app es es' : sent (es ++ es') = sent es ++ sent es'.
Proof. unfold sent. by rewrite routing_app, omap_app. Qed.

(** The route's part of a context. *)
Definition of_route (r : Route) c : Prop :=
  ∃ m, c.(cx_route) = route_context r.(sr_rule) r.(sr_channel) r.(sr_upstream_model) r.(sr_session_affinity) m.

(** The logged status is the client's, except where an unavailable connector or
    a failed attempt is logged as 502 whatever the client got. *)
Definition status_agrees answer (o : RequestOutcome) (a : AttemptContext (P := P)) : Prop :=
  match answer with
  | Answered r => logged_status o a = Some r.(cr_status)
  | Refused e =>
      logged_status o a = Some e.(pe_status)
      ∨ logged_status o a = Some 502
        ∧ ((∃ reason, e = connector_unavailable reason ∨ e = sticky_connector_unavailable reason) ∨ ∃ err, e = connector_attempt err)
  | AnswerPanicked => True
  end.

(** What the effects of a whole request amount to. *)
Record closes (route : Route) (adm : AdmissionLease) (request : RequestContext (T := T)) es answer : Prop := {
  cl_leases : dropped es ≡ₚ sr_lease <$> route :: selected es;
  cl_admission : closed es = [adm];
  cl_event : ∃ t o c, c.(cx_request) = request ∧ status_agrees answer o c.(cx_attempt)
    ∧ (∃ r, r ∈ route :: selected es ∧ of_route r c ∧ (answer ≠ AnswerPanicked → last (route :: selected es) = Some r))
    ∧ match context_billing t o c with
      | Some b => recorded es = [context_event display t o c b]
      | None => recorded es = []
      end;
}.

(** The guard of a running loop. *)
Record holding (s : Loop) (adm : AdmissionLease) c : Prop := {
  ho_context : s.(lp_guard).(g_context) = Some c;
  ho_route : of_route s.(lp_route) c;
  ho_fresh : c.(cx_attempt).(cx_client_visible_status) = None ∧ c.(cx_attempt).(cx_upstream_status) = None;
  ho_lease : s.(lp_guard).(g_lease) = Some s.(lp_route).(sr_lease);
  ho_admission : s.(lp_guard).(g_admission) = Some adm;
}.

Lemma settles_closes Q g c route adm es answer :
  g.(g_context) = Some c → g.(g_lease) = Some route.(sr_lease) → g.(g_admission) = Some adm → of_route route c →
  settles display Q g es → (∀ o a, Q o a → status_agrees answer o a) → closes route adm c.(cx_request) es answer.
Proof.
  intros Hc Hl Ha Hr [Hd Hcl Hro Hx] HQ. assert (selected es = []) as Hsel by (unfold selected; by rewrite Hro).
  rewrite Hl in Hd. rewrite Ha in Hcl. rewrite Hc in Hx. split; [by rewrite Hd, Hsel|done|].
  destruct Hx as (t & o & a & HQoa & Hrec). exists t, o, (with_attempt c a). split_and!; [done|by apply HQ| |done].
  exists route. rewrite Hsel. split_and!; [by left|done|done].
Qed.

(** Effects before the end that concern neither the log nor what is owned. *)
Lemma closes_before route adm request es es' answer :
  recorded es = [] → dropped es = [] → closed es = [] → selected es = [] →
  closes route adm request es' answer → closes route adm request (es ++ es') answer.
Proof.
  intros Hr Hd Hc Hs [Hl Ha He]. split; rewrite ?dropped_app, ?selected_app, ?closed_app, ?Hd, ?Hs, ?Hc; [done|done|].
  destruct He as (t & o & c & He). exists t, o, c. by rewrite recorded_app, Hr.
Qed.

(** Giving up on a route that was not answered. *)
Lemma abandon_closes t o e d g c route adm es answer :
  abandon (Policy := Policy) (Auth := Auth) display t o e d g = (es, Return answer) →
  g.(g_context) = Some c → g.(g_lease) = Some route.(sr_lease) → g.(g_admission) = Some adm → of_route route c →
  (∀ a, kept c.(cx_attempt) a → status_agrees (Refused e) o a) →
  closes route adm c.(cx_request) es answer ∧ not_streaming answer.
Proof.
  unfold abandon. intros Hg Hc Hl Ha Hr Hst.
  pose proof (finish_details_over (Policy := Policy) (Auth := Auth) display t o d g) as Hover.
  destruct (leave_settles display (λ o' _, o' = o) t (finish_with_error_details (Policy := Policy) (Auth := Auth) display t o d g) (Refused e) g) as [Hs Hv].
  { by apply finish_details_advances. }
  { by destruct (finish_with_error_details display t o d g) as [? [?|?]]. }
  destruct (leave display t _ _) as [es' answer']. cbn [fst snd] in *. injection Hg as <- <-.
  split; [|rewrite Hv; by destruct (finish_with_error_details display t o d g).2].
  eapply (settles_closes _ g c); [done..|]. intros o' a [Hk ->]. rewrite Hc in Hk. rewrite Hv.
  destruct (finish_with_error_details display t o d g).2; [by apply Hst|done].
Qed.

(** The status that a failed preparation logs. *)
Lemma attempt_request_failure zstd resolved (a : UpstreamAttempt (P := P)) (ch : CompiledChannel D Policy Auth) upstream f :
  attempt_request display transform_error contract transforms_of zstd resolved q a ch upstream = Err f →
  f.(fl_visible) = true ∨ fallback_status f.(fl_outcome) = Some f.(fl_error).(pe_status)
  ∨ fallback_status f.(fl_outcome) = Some 502 ∧ ∃ err, f.(fl_error) = connector_attempt err.
Proof.
  unfold attempt_request. destruct (attempt_body _ _ _ _ _ _) as [[body encoded]|f1] eqn:Hb; cbn [result_bind snd].
  - destruct (attempt_headers _ _ _ _ _ _ _ _) as [headers|f2] eqn:Hh; cbn [result_bind].
    + destruct (resolved ch); [done|]. intros [= <-]. by right; left.
    + intros [= <-]. unfold attempt_headers in Hh.
      destruct (apply_header_plan _ _) as [h1 [u|e]]; cbn [result_bind] in Hh; [|injection Hh as <-; by right; left].
      destruct (ua_url a) as [url|e]; cbn [result_bind lift_error] in Hh; [|injection Hh as <-; right; right; eauto].
      destruct (ua_inject_headers a _) as [h2|e]; cbn [result_bind lift_error] in Hh; [done|injection Hh as <-; right; right; eauto].
  - intros [= <-]. unfold attempt_body in Hb.
    destruct (bool_decide _ && _); [injection Hb as <-; by right; left|].
    destruct (rewrite_model _ _ _) as [b1|]; cbn [result_bind lift_error] in Hb; [|injection Hb as <-; by right; left].
    destruct (apply_json_patch_plan _ _) as [b2|]; cbn [result_bind lift_error] in Hb; [|injection Hb as <-; by right; left].
    destruct (ua_adapt_body a b2) as [b3|e]; cbn [result_bind lift_error] in Hb; [|injection Hb as <-; by left].
    destruct (encode_upstream_request_body _ _ _ _); [done|injection Hb as <-; by right; left].
Qed.

(** The lease that a replaced route gives up is the only thing that happens. *)
Lemma move_cases retry s adm c slots es g r0 es' next :
  move display env retry s slots es g r0 = (es', next) →
  g.(g_context) = Some c → g.(g_lease) = Some s.(lp_route).(sr_lease) → g.(g_admission) = Some adm → of_route s.(lp_route) c →
  recorded es = [] → dropped es = [] → closed es = [] → selected es = [r0] →
  match next with
  | Continue s' =>
      s'.(lp_route) = r0 ∧ s'.(lp_turn) = S s.(lp_turn) ∧ s'.(lp_slots) = slots
      ∧ s'.(lp_attempt) = (if retry then sat_add u32_max s.(lp_attempt) 1 else s.(lp_attempt))
      ∧ recorded es' = [] ∧ dropped es' = [s.(lp_route).(sr_lease)] ∧ closed es' = [] ∧ routing es' = routing es
      ∧ ∃ c', holding s' adm c' ∧ c'.(cx_request) = c.(cx_request)
  | Return answer => closes s.(lp_route) adm c.(cx_request) es' answer ∧ answer = AnswerPanicked
  end.
Proof.
  unfold move. intros Hm Hc Hl Ha Hr He Hd Hcl Hs. destruct (billing_multiplier env (sr_rule r0)) as [m|].
  - unfold replace_route in Hm. rewrite Hl, Hc in Hm. injection Hm as <- <-. cbn.
    rewrite recorded_app, dropped_app, closed_app, routing_app, He, Hd, Hcl. split_and!; try done; [apply app_nil_r|].
    eexists. split; [split; [reflexivity|by exists m|done|done|done]|done].
  - injection Hm as <- <-. split; [|done]. pose proof (drop_settles (Policy := Policy) (Auth := Auth) display (λ _ _, True) (en_clock env (lp_turn s)) g) as Hset.
    rewrite Hc in Hset. specialize (Hset I). destruct Hset as [Hd' Hcl' Hro' Hx]. rewrite Hl in Hd'. rewrite Ha in Hcl'. rewrite Hc in Hx.
    set (tail := drop_guard display _ g) in *.
    assert (routing (OnLease Dropped (sr_lease r0) :: tail) = []) as Hrt by exact Hro'.
    assert (selected (es ++ OnLease Dropped (sr_lease r0) :: tail) = [r0]) as Hsel.
    { rewrite selected_app, Hs. unfold selected at 1. by rewrite Hrt. }
    split.
    + rewrite Hsel, dropped_app, Hd. cbn. change (omap _ tail) with (dropped tail). rewrite Hd'. cbn. apply Permutation_swap.
    + rewrite closed_app, Hcl. exact Hcl'.
    + destruct Hx as (t & o & a & _ & Hrec). exists t, o, (with_attempt c a). rewrite Hsel. split_and!; [done|done| |].
      * exists s.(lp_route). split_and!; [by left|done|done].
      * rewrite recorded_app, He. exact Hrec.
Qed.

(** A turn that ends the request, or passes it to the next route. *)
Definition turn_closes (s : Loop) (adm : AdmissionLease) (request : RequestContext (T := T)) (m : list Eff * Next) : Prop :=
  match m.2 with
  | Return answer => ∀ polls clock, closes s.(lp_route) adm request (served display transform_error polls clock (m.1, answer)) answer
  | Continue s' =>
      recorded m.1 = [] ∧ dropped m.1 = [s.(lp_route).(sr_lease)] ∧ closed m.1 = [] ∧ selected m.1 = [s'.(lp_route)]
      ∧ ∃ c', holding s' adm c' ∧ c'.(cx_request) = request
  end.

Lemma turn_closes_now s adm request es answer :
  closes s.(lp_route) adm request es answer ∧ not_streaming answer → turn_closes s adm request (es, Return answer).
Proof. intros [Hc Hn] polls clock. by rewrite served_now. Qed.

Lemma turn_closes_before s adm request es m :
  recorded es = [] → dropped es = [] → closed es = [] → selected es = [] →
  turn_closes s adm request m → turn_closes s adm request (es ++ m.1, m.2).
Proof.
  unfold turn_closes. destruct m as [es' [s'|answer]]; cbn [fst snd]; intros Hr Hd Hc Hs Hm.
  - by rewrite recorded_app, dropped_app, closed_app, selected_app, Hr, Hd, Hc, Hs.
  - intros polls clock. specialize (Hm polls clock). unfold served in *. cbn [fst snd] in *. rewrite <-app_assoc. by apply closes_before.
Qed.

Lemma move_turn retry s adm c slots es g r0 :
  g.(g_context) = Some c → g.(g_lease) = Some s.(lp_route).(sr_lease) → g.(g_admission) = Some adm → of_route s.(lp_route) c →
  recorded es = [] → dropped es = [] → closed es = [] → selected es = [r0] →
  turn_closes s adm c.(cx_request) (move display env retry s slots es g r0).
Proof.
  intros Hc Hl Ha Hr He Hd Hcl Hs. destruct (move display env retry s slots es g r0) as [es' next] eqn:Hm.
  apply (move_cases _ _ _ _ _ _ _ _ _ _ Hm Hc Hl Ha Hr He Hd Hcl) in Hs as Hn. destruct next as [s'|answer].
  - destruct Hn as (Hroute & _ & _ & _ & Hrec & Hdr & Hclo & Hrt & Hho). unfold turn_closes. cbn [fst snd]. split_and!; try done.
    unfold selected in *. by rewrite Hrt, Hs, Hroute.
  - apply turn_closes_now. destruct Hn as [Hn ->]. done.
Qed.

Lemma abandon_turn t o e d s adm c g :
  g.(g_context) = Some c → g.(g_lease) = Some s.(lp_route).(sr_lease) → g.(g_admission) = Some adm → of_route s.(lp_route) c →
  (∀ a, kept c.(cx_attempt) a → status_agrees (Refused e) o a) →
  turn_closes s adm c.(cx_request) (abandon (Policy := Policy) (Auth := Auth) display t o e d g).
Proof.
  intros Hc Hl Ha Hr Hst. destruct (abandon display t o e d g) as [es next] eqn:Hg.
  assert (∃ answer, next = Return answer) as [answer ->].
  { unfold abandon in Hg. destruct (leave display t _ _) as [es' answer]. injection Hg as _ <-. by eexists. }
  apply turn_closes_now. by eapply abandon_closes.
Qed.

Lemma unavailable_turn t s adm c slots reason :
  holding s adm c → turn_closes s adm c.(cx_request) (unavailable display env t s slots reason).
Proof.
  intros [Hc Hr [Hv Hu] Hl Ha]. unfold unavailable.
  assert (∀ e, (∃ reason, e = connector_unavailable reason ∨ e = sticky_connector_unavailable reason) →
    ∀ a, kept c.(cx_attempt) a → status_agrees (Refused e) OutUpstreamUnavailable a) as Hst.
  { intros e He a [Hk1 Hk2]. right. split; [|by left]. unfold logged_status. by rewrite Hk1, Hk2, Hv, Hu. }
  destruct (affinity_hit (lp_route s)).
  - unfold abandon_with. set (c1 := with_attempt c (set_preserve true (cx_attempt c))).
    apply (abandon_turn _ _ _ _ _ _ c1); [by cbn; rewrite Hc|done|done|done|]. intros a Hk. by apply Hst; [exists reason; right|].
  - destruct (en_select env (lp_turn s) (as_slice slots)) as [| |r0]; [| |by apply move_turn].
    all: apply (abandon_turn _ _ _ _ _ _ c); [done..|apply Hst; eauto].
Qed.

Lemma received_turn t s adm c slots a g r :
  g.(g_context) = Some c → g.(g_lease) = Some s.(lp_route).(sr_lease) → g.(g_admission) = Some adm → of_route s.(lp_route) c →
  c.(cx_attempt).(cx_client_visible_status) = None →
  turn_closes s adm c.(cx_request) (received display transform_error contract transforms_of env q t s slots a g r).
Proof.
  intros Hc Hl Ha Hr Hv. unfold received. assert (on_lease ResponseHeadersReceived g = [OnLease ResponseHeadersReceived (sr_lease (lp_route s)) : Eff]) as ->
    by (unfold on_lease; by rewrite Hl).
  destruct (retry_route env s slots _) as [r0|].
  - pose proof (reaches_status (Policy := Policy) (Auth := Auth) g c [] g (cx_attempt c) (ur_status r) (reaches_refl g c Hc)) as Hst.
    destruct (set_upstream_status (ur_status r) g) as [reports g1]. cbn [fst snd app] in Hst. destruct Hst as [Hl1 Ha1 (Hq1 & Hq2 & Hq3 & Hq4) _ Hc1].
    set (c1 := with_attempt c _) in Hc1. apply (move_turn true s adm c1); [done|by rewrite Hl1|by rewrite Ha1|done|exact Hq1|exact Hq2|exact Hq3|].
    change (selected (_ ++ SelectRoute r0 :: reports)) with (r0 :: selected reports). unfold selected. by rewrite Hq4.
  - set (plan := transforms_of _).
    pose proof (λ polls clock, response_settles (Policy := Policy) (Auth := Auth) display transform_error contract polls clock t r
      (ua_successful_response_is_sse a) (response_headers plan) (sse_event_patches plan) (ua_response_adapter a) g c Hc Hv) as Hs. cbn zeta in Hs.
    destruct (response_from_upstream _ _ _ _ _ _ _ _ _ _) as [es' answer].
    apply (turn_closes_before s adm _ [OnLease ResponseHeadersReceived (sr_lease (lp_route s))] (es', Return answer)); [done..|].
    intros polls clock. eapply (settles_closes _ g c); [done..|exact (Hs polls clock)|]. intros o at' [_ Hacc]. cbn [snd] in Hacc.
    destruct answer; cbn in *; [done|by left|done].
Qed.

Lemma not_received_turn t s adm c slots a g f :
  g.(g_context) = Some c → g.(g_lease) = Some s.(lp_route).(sr_lease) → g.(g_admission) = Some adm → of_route s.(lp_route) c →
  c.(cx_attempt).(cx_client_visible_status) = None → c.(cx_attempt).(cx_upstream_status) = None →
  turn_closes s adm c.(cx_request) (not_received display env q t s slots a g f).
Proof.
  intros Hc Hl Ha Hr Hv Hu. unfold not_received. set (es := record_health f g).
  assert (recorded es = [] ∧ dropped es = [] ∧ closed es = [] ∧ selected es = []) as (H3 & H4 & H5 & H6).
  { unfold es, record_health, on_lease. rewrite Hl. by destruct f. }
  destruct (retry_route env s slots _) as [r0|].
  - apply (move_turn true s adm c); [done..| | | |]; rewrite ?recorded_app, ?dropped_app, ?closed_app, ?selected_app, ?H3, ?H4, ?H5, ?H6; done.
  - pose proof (abandon_turn t (failure_outcome f) (failure_error f) (request_log_details (failure_error f)) s adm c g Hc Hl Ha Hr) as Hg.
    unfold abandon_with. destruct (abandon display t _ _ _ g) as [es' next].
    apply (turn_closes_before s adm _ es (es', next)); [done..|]. apply Hg. intros at' [Hk1 Hk2]. left. unfold logged_status. rewrite Hk1, Hk2, Hv, Hu.
    by destruct f.
Qed.

Lemma iteration_turn s adm c :
  holding s adm c → turn_closes s adm c.(cx_request) (iteration display transform_error contract transforms_of env q s).
Proof.
  intros Hho. unfold iteration. set (t := en_clock env (lp_turn s)). set (slots := slots_push _ _).
  destruct (en_prepare env _ _ _) as [a|reason]; [|by apply unavailable_turn]. destruct Hho as [Hc Hr [Hv Hu] Hl Ha].
  set (g := set_usage_parser _ _).
  assert (∃ c1, g.(g_context) = Some c1 ∧ c1.(cx_request) = c.(cx_request) ∧ c1.(cx_route) = c.(cx_route) ∧ kept c.(cx_attempt) c1.(cx_attempt))
    as (c1 & Hc1 & Hq1 & Hr1 & Hk1 & Hk2).
  { unfold g, set_usage_parser, set_preserve_affinity_on_failure, on_attempt. rewrite Hc. cbn. by eexists. }
  assert (of_route (lp_route s) c1) as Hof by (unfold of_route; by rewrite Hr1).
  assert (g_lease g = Some (sr_lease (lp_route s)) ∧ g_admission g = Some adm) as [Hlg Hag] by done. clearbody g.
  rewrite <-Hq1. destruct (attempt_request _ _ _ _ _ _ _ _ _ _) as [[headers body]|f] eqn:Hreq.
  - set (m := match en_send env (lp_turn s) with Received _ => _ | NotReceived _ => _ | SendError _ => _ end).
    assert (turn_closes s adm c1.(cx_request) m) as Hm.
    { unfold m. destruct (en_send env (lp_turn s)) as [r|f|chain].
      - apply received_turn; [done..|by rewrite Hk2].
      - apply not_received_turn; [done..|by rewrite Hk2|by rewrite Hk1].
      - apply (abandon_turn _ _ _ _ _ _ c1); [done..|]. intros at' [Hk3 Hk4]. left. unfold logged_status. by rewrite Hk3, Hk4, Hk1, Hk2, Hv, Hu. }
    destruct m as [es next]. by apply (turn_closes_before s adm _ [SendRequest (lp_route s) headers body] (es, next)).
  - apply attempt_request_failure in Hreq. destruct (fl_visible f) eqn:Hvis.
    + set (c2 := with_attempt c1 (set_visible (Some (pe_status (fl_error f))) (cx_attempt c1))).
      apply (abandon_turn _ _ _ _ _ _ c2); [by cbn; rewrite Hc1|done..|]. intros at' [Hk3 Hk4]. left. unfold logged_status. by rewrite Hk4.
    + apply (abandon_turn _ _ _ _ _ _ c1); [done..|]. intros at' [Hk3 Hk4]. unfold status_agrees, logged_status. rewrite Hk3, Hk4, Hk1, Hk2, Hv, Hu.
      destruct Hreq as [Hf|[Hf|[Hf He]]]; [done|by left|right]. split; [done|by right].
Qed.

(** ** The whole loop *)

Lemma closes_move route r adm request es es' answer :
  recorded es = [] → dropped es = [route.(sr_lease)] → closed es = [] → selected es = [r] →
  closes r adm request es' answer → closes route adm request (es ++ es') answer.
Proof.
  intros Hr Hd Hc Hs [Hl Ha He]. split; rewrite ?dropped_app, ?selected_app, ?closed_app, ?Hd, ?Hs, ?Hc; [by apply Permutation_skip|done|].
  destruct He as (t & o & c & Hq & Hst & (r' & Hin & Hof & Hlast) & Hrec). exists t, o, c. rewrite recorded_app, Hr. split_and!; [done|done| |done].
  exists r'. split_and!; [by right|done|]. intros Hp. rewrite <-(Hlast Hp). done.
Qed.

Lemma attempts_unfold fuel s :
  attempts display transform_error contract transforms_of env q (S fuel) s
  = match (iteration display transform_error contract transforms_of env q s).2 with
    | Return answer => Some ((iteration display transform_error contract transforms_of env q s).1, answer)
    | Continue s' =>
        (λ m, ((iteration display transform_error contract transforms_of env q s).1 ++ m.1, m.2))
        <$> attempts display transform_error contract transforms_of env q fuel s'
    end.
Proof. done. Qed.

Lemma attempts_close polls clock fuel : ∀ s adm c m,
  holding s adm c → attempts display transform_error contract transforms_of env q fuel s = Some m →
  closes s.(lp_route) adm c.(cx_request) (served display transform_error polls clock m) m.2.
Proof.
  induction fuel as [|fuel IH]; intros s adm c m Hho Hm; [done|]. rewrite attempts_unfold in Hm.
  pose proof (iteration_turn s adm c Hho) as Ht. unfold turn_closes in Ht. destruct (iteration _ _ _ _ _ _ s) as [es next]. cbn [fst snd] in *.
  destruct next as [s'|answer]; [|injection Hm as <-; apply Ht].
  apply fmap_Some in Hm as (m' & Hm' & ->). destruct Ht as (Hr & Hd & Hc & Hs & c' & Hho' & Hq).
  specialize (IH s' adm c' m' Hho' Hm'). rewrite Hq in IH. unfold served in *. cbn [fst snd]. rewrite <-app_assoc. by eapply closes_move.
Qed.


(** ** Which routes a request takes *)

Definition max_attempts : Z := sat_add u32_max (max_retries env.(en_retry)) 1.

(** One turn: the routes it sends to, and the next one, which is the answer of
    the routing runtime that excludes all routes so far. *)
Definition turn_routes (own : list Route) (retry : bool) (s : Loop) (slots : AttemptedCandidateSlots) (m : list Eff * LoopNext) : Prop :=
  sent m.1 = own
  ∧ match m.2 with
    | Return _ => True
    | Continue s' =>
        en_select env s.(lp_turn) (as_slice slots) = Selected s'.(lp_route) ∧ s'.(lp_slots) = slots ∧ s'.(lp_turn) = S s.(lp_turn)
        ∧ (retry = true → s.(lp_attempt) < max_attempts)
        ∧ s'.(lp_attempt) = if retry then sat_add u32_max s.(lp_attempt) 1 else s.(lp_attempt)
    end.

Lemma abandon_routes t o e d retry s slots g : turn_routes [] retry s slots (abandon (Policy := Policy) (Auth := Auth) display t o e d g).
Proof.
  unfold abandon. pose proof (finish_details_over (Policy := Policy) (Auth := Auth) display t o d g) as Hover.
  destruct (leave_settles display (λ _ _, True) t (finish_with_error_details (Policy := Policy) (Auth := Auth) display t o d g) (Refused e) g) as [[_ _ Hro _] _].
  { by apply finish_details_advances. }
  { by destruct (finish_with_error_details display t o d g) as [? [?|?]]. }
  destruct (leave display t _ _) as [es' answer']. split; [|done]. unfold sent. cbn [fst] in *. by rewrite Hro.
Qed.

Lemma move_routes retry s slots es g r0 :
  en_select env s.(lp_turn) (as_slice slots) = Selected r0 → sent es = [] → (retry = true → s.(lp_attempt) < max_attempts) →
  turn_routes [] retry s slots (move display env retry s slots es g r0).
Proof.
  intros Hsel Hs Hlt. unfold move. destruct (billing_multiplier env (sr_rule r0)) as [m|].
  - unfold replace_route, surrender_lease. split; [|done]. cbn [fst]. rewrite sent_app, Hs. by destruct (g_lease g).
  - split; [|done]. cbn [fst]. rewrite sent_app, Hs. unfold sent. cbn.
    pose proof (drop_settles (Policy := Policy) (Auth := Auth) display (λ _ _, True) (en_clock env (lp_turn s)) g) as Hset.
    destruct Hset as [_ _ Hro _]; [by destruct (g_context g)|]. unfold routing in Hro. by rewrite Hro.
Qed.

Lemma retry_route_selected s slots allowed r0 :
  retry_route env s slots allowed = Some r0 → allowed = true ∧ en_select env s.(lp_turn) (as_slice slots) = Selected r0.
Proof. unfold retry_route. destruct allowed; [|done]. destruct (en_select env _ _) as [| |r]; [done..|]. by intros [= ->]. Qed.
Lemma may_retry_attempt s a : may_retry env q s a = true → s.(lp_attempt) < max_attempts.
Proof. unfold may_retry, max_attempts. intros. breflect. lia. Qed.

Lemma turn_routes_before own retry s slots es m :
  sent es = own → turn_routes [] retry s slots m → turn_routes own retry s slots (es ++ m.1, m.2).
Proof. unfold turn_routes. cbn [fst snd]. rewrite sent_app. intros -> [-> Hm]. by rewrite app_nil_r. Qed.

Lemma received_routes t s slots a g c r :
  g.(g_context) = Some c → c.(cx_attempt).(cx_client_visible_status) = None →
  turn_routes [] true s slots (received display transform_error contract transforms_of env q t s slots a g r).
Proof.
  intros Hc Hv. unfold received. assert (sent (on_lease ResponseHeadersReceived g : list Eff) = []) as Hon by (unfold on_lease; by destruct (g_lease g)).
  destruct (retry_route env s slots _) as [r0|] eqn:Hretry.
  - apply retry_route_selected in Hretry as [Hall Hsel].
    pose proof (reaches_status (Policy := Policy) (Auth := Auth) g c [] g (cx_attempt c) (ur_status r) (reaches_refl g c Hc)) as [_ _ (_ & _ & _ & Hro) _ _].
    destruct (set_upstream_status (ur_status r) g) as [reports g1]. cbn [fst app] in Hro.
    apply move_routes; [done| |].
    + rewrite sent_app, Hon. change (sent reports = []). unfold sent. by rewrite Hro.
    + intros _. breflect. by eapply may_retry_attempt.
  - set (plan := transforms_of _).
    pose proof (response_settles (Policy := Policy) (Auth := Auth) display transform_error contract 0 (λ _, t) t r
      (ua_successful_response_is_sse a) (response_headers plan) (sse_event_patches plan) (ua_response_adapter a) g c Hc Hv) as [_ _ Hro _].
    destruct (response_from_upstream _ _ _ _ _ _ _ _ _ _) as [es' answer].
    apply (turn_routes_before [] true s slots _ (es', Return answer)); [done|]. split; [|done]. cbn [fst].
    unfold served in Hro. cbn [fst snd] in Hro. rewrite routing_app in Hro. apply app_eq_nil in Hro as [Hro _]. unfold sent. by rewrite Hro.
Qed.

Lemma not_received_routes t s slots a g f : turn_routes [] true s slots (not_received display env q t s slots a g f).
Proof.
  unfold not_received. assert (sent (record_health f g : list Eff) = []) as Hon by (unfold record_health, on_lease; by destruct f, (g_lease g)).
  destruct (retry_route env s slots _) as [r0|] eqn:Hretry.
  - apply retry_route_selected in Hretry as [Hall Hsel]. apply move_routes; [done|by rewrite sent_app, Hon|]. intros _. by eapply may_retry_attempt.
  - pose proof (abandon_routes t (failure_outcome f) (failure_error f) (request_log_details (failure_error f)) true s slots g) as Hg.
    unfold abandon_with. destruct (abandon display t _ _ _ g) as [es' next]. by apply (turn_routes_before [] true s slots _ (es', next)).
Qed.

Lemma iteration_routes s adm c :
  holding s adm c →
  let m := iteration display transform_error contract transforms_of env q s in
  let slots := slots_push s.(lp_route).(sr_candidate_slot) s.(lp_slots) in
  turn_routes [] false s slots m ∨ turn_routes [s.(lp_route)] true s slots m.
Proof.
  intros [Hc Hr [Hv Hu] Hl Ha]. cbn zeta. unfold iteration. set (t := en_clock env (lp_turn s)). set (slots := slots_push _ _).
  destruct (en_prepare env _ _ _) as [a|reason].
  - set (g := set_usage_parser _ _).
    assert (∃ c1, g.(g_context) = Some c1 ∧ c1.(cx_attempt).(cx_client_visible_status) = None) as (c1 & Hc1 & Hv1).
    { unfold g, set_usage_parser, set_preserve_affinity_on_failure, on_attempt. rewrite Hc. cbn. by eexists. }
    clearbody g. destruct (attempt_request _ _ _ _ _ _ _ _ _ _) as [[headers body]|f]; [right|left; apply abandon_routes].
    set (m := match en_send env (lp_turn s) with Received _ => _ | NotReceived _ => _ | SendError _ => _ end).
    assert (turn_routes [] true s slots m) as Hm.
    { unfold m. destruct (en_send env (lp_turn s)) as [r|f|chain]; [by eapply received_routes|apply not_received_routes|apply abandon_routes]. }
    destruct m as [es next]. by apply (turn_routes_before _ _ _ _ [SendRequest (lp_route s) headers body] (es, next)).
  - left. unfold unavailable. destruct (affinity_hit (lp_route s)); [apply abandon_routes|].
    destruct (en_select env (lp_turn s) (as_slice slots)) as [| |r0] eqn:Hsel; [apply abandon_routes..|by apply move_routes].
Qed.

(** What the routing runtime may answer: a granted candidate that is not
    excluded. *)
Definition answers_within (universe : list nat) (granted : Route → Prop) : Prop :=
  ∀ n excluded r, en_select env n excluded = Selected r →
    r.(sr_candidate_slot) ∈ universe ∧ (r.(sr_candidate_slot) ∉ excluded) ∧ granted r.

(** A loop that can still attempt the candidates it has not attempted. *)
Record proceeds (universe : list nat) (granted : Route → Prop) (s : Loop) : Prop := {
  pr_slots : slots_ok s.(lp_slots);
  pr_distinct : NoDup (as_slice s.(lp_slots));
  pr_known : as_slice s.(lp_slots) ⊆ universe;
  pr_route : s.(lp_route).(sr_candidate_slot) ∈ universe;
  pr_new : s.(lp_route).(sr_candidate_slot) ∉ as_slice s.(lp_slots);
  pr_attempt : 1 ≤ s.(lp_attempt) ≤ max_attempts;
  pr_granted : granted s.(lp_route);
}.

Lemma proceeds_slots universe granted s :
  proceeds universe granted s →
  let slots := slots_push s.(lp_route).(sr_candidate_slot) s.(lp_slots) in
  slots_ok slots ∧ as_slice slots = as_slice s.(lp_slots) ++ [s.(lp_route).(sr_candidate_slot)] ∧ NoDup (as_slice slots)
  ∧ as_slice slots ⊆ universe ∧ (length (as_slice s.(lp_slots)) < length universe)%nat.
Proof.
  intros [Hok Hnd Hk Hr Hn _ _]. cbn zeta. destruct (slots_push_slice (sr_candidate_slot (lp_route s)) (lp_slots s) Hok) as [Hok' Hsl].
  assert (NoDup (as_slice (slots_push (sr_candidate_slot (lp_route s)) (lp_slots s)))) as Hnd'.
  { rewrite Hsl. apply NoDup_app. split_and!; [done| |apply NoDup_singleton]. set_solver. }
  assert (as_slice (slots_push (sr_candidate_slot (lp_route s)) (lp_slots s)) ⊆ universe) as Hsub by (rewrite Hsl; set_solver).
  split_and!; try done. pose proof (submseteq_length _ _ (NoDup_submseteq _ _ Hnd' Hsub)) as Hlen. rewrite Hsl, length_app in Hlen. simpl in Hlen. lia.
Qed.

Lemma proceeds_next universe granted own retry s s' es :
  answers_within universe granted → proceeds universe granted s →
  turn_routes own retry s (slots_push s.(lp_route).(sr_candidate_slot) s.(lp_slots)) (es, Continue s') → proceeds universe granted s'.
Proof.
  intros Hans Hp [_ (Hsel & Hslots & _ & Hlt & Hatt)]. cbn [snd] in *. destruct (proceeds_slots universe granted s Hp) as (Hok & Hsl & Hnd & Hsub & _).
  apply Hans in Hsel as (Hin & Hnew & Hgr). split; rewrite ?Hslots; try done. destruct Hp as [_ _ _ _ _ Hatt0 _]. rewrite Hatt.
  destruct retry; [|done]. specialize (Hlt eq_refl). unfold max_attempts, sat_add in *. lia.
Qed.

Lemma attempts_routes universe granted fuel : ∀ s adm c,
  answers_within universe granted → holding s adm c → proceeds universe granted s → (length universe ≤ fuel + length (as_slice s.(lp_slots)))%nat →
  ∃ es answer, attempts display transform_error contract transforms_of env q fuel s = Some (es, answer)
    ∧ Z.of_nat (length (sent es)) ≤ max_attempts - s.(lp_attempt) + 1
    ∧ NoDup (sr_candidate_slot <$> sent es)
    ∧ Forall (λ r, granted r ∧ r.(sr_candidate_slot) ∉ as_slice s.(lp_slots)) (sent es).
Proof.
  induction fuel as [|fuel IH]; intros s adm c Hans Hho Hp Hfuel; destruct (proceeds_slots universe granted s Hp) as (Hok & Hsl & Hnd & Hsub & Hlen); [lia|].
  rewrite attempts_unfold. pose proof (iteration_routes s adm c Hho) as Hroutes. pose proof (iteration_turn s adm c Hho) as Hturn. cbn zeta in Hroutes.
  destruct (iteration _ _ _ _ _ _ s) as [es next]. cbn [fst snd]. set (slots := slots_push _ _) in *.
  assert (∃ own retry, turn_routes own retry s slots (es, next) ∧ (own = [] ∧ retry = false ∨ own = [lp_route s] ∧ retry = true)) as (own & retry & Hr & Hown).
  { destruct Hroutes; [exists [], false|exists [lp_route s], true]; eauto. }
  assert (Z.of_nat (length own) ≤ 1 ∧ NoDup (sr_candidate_slot <$> own)
    ∧ Forall (λ r, granted r ∧ r.(sr_candidate_slot) ∉ as_slice s.(lp_slots)) own) as (Hlen1 & Hnd1 & Hall1).
  { destruct Hp as [_ _ _ Hpr Hpn _ Hpg]. destruct Hown as [[-> _]|[-> _]]; [by repeat constructor|]. split_and!; [done|apply NoDup_singleton|by repeat constructor]. }
  destruct next as [s'|answer].
  - destruct Hturn as (_ & _ & _ & _ & c' & Hho' & _). pose proof (proceeds_next universe granted own retry s s' es Hans Hp Hr) as Hp'.
    destruct Hr as [Hsent (_ & Hslots & _ & Hlt & Hatt)]. cbn [fst snd] in *.
    destruct (IH s' adm c' Hans Hho' Hp') as (es' & answer & -> & Hcount & Hnd' & Hall'); [rewrite Hslots, Hsl, length_app; simpl; lia|].
    eexists _, _. split; [done|]. cbn [fst]. rewrite sent_app, Hsent, fmap_app, length_app, Nat2Z.inj_add. rewrite Hslots, Hsl in Hall'. split_and!.
    + destruct Hown as [[-> ->]|[-> ->]]; simpl; [rewrite Hatt in Hcount; lia|]. specialize (Hlt eq_refl).
      assert (lp_attempt s' = lp_attempt s + 1) as Hs' by (rewrite Hatt; unfold max_attempts, sat_add in *; lia). lia.
    + apply NoDup_app. split_and!; [done| |done]. intros x Hx (r & -> & Hr)%list_elem_of_fmap. rewrite Forall_forall in Hall'.
      destruct (Hall' r Hr) as [_ Hnot]. destruct Hown as [[-> _]|[-> _]]; [by apply elem_of_nil in Hx|]. set_solver.
    + apply Forall_app. split; [done|]. eapply Forall_impl; [exact Hall'|]. intros r [? ?]. split; [done|]. set_solver.
  - destruct Hr as [Hsent _]. cbn [fst] in Hsent. eexists _, _. split; [done|]. rewrite Hsent. split_and!; [|done|done].
    destruct Hp as [_ _ _ _ _ Hatt0 _]. lia.
Qed.

(** C36: when the connector of a session's channel is unavailable, the client
    receives 503, but the one event of the request says 502. *)
Theorem unavailable_connector_misreported fuel s adm c reason b :
  holding s adm c → affinity_hit s.(lp_route) = true → en_prepare env s.(lp_turn) s.(lp_route) true = Err reason →
  let error := sticky_connector_unavailable reason in
  let attempt := set_details (Some (request_log_details error)) (set_preserve true c.(cx_attempt)) in
  context_billing (env.(en_clock) s.(lp_turn)) OutUpstreamUnavailable (with_attempt c attempt) = Some b →
  ∃ es e, attempts display transform_error contract transforms_of env q (S fuel) s = Some (es, Refused error)
    ∧ error.(pe_status) = 503 ∧ recorded es = [e] ∧ e.(ev_response_status_code) = Some 502.
Proof.
  intros [Hc Hr [Hv Hu] Hl Ha] Hhit Hprep error attempt Hb. rewrite attempts_unfold. unfold iteration. rewrite Hhit, Hprep.
  unfold unavailable, abandon_with, abandon. rewrite Hhit. fold error. unfold finish_with_error_details, finish.
  set (g := set_error_details _ _). assert (g_context g = Some (with_attempt c attempt)) as Hg by (cbn; by rewrite Hc).
  rewrite Hg, Hb. unfold leave. cbn [fst snd]. eexists _, _. split; [reflexivity|]. split_and!; [done| |].
  - rewrite !recorded_app, drop_over by done. destruct (settle_lease_quiet (Policy := Policy) (Auth := Auth) OutUpstreamUnavailable
      (cx_preserve_affinity_on_failure (cx_attempt (with_attempt c attempt))) g) as (-> & _ & _ & _).
    destruct (drop_fields_effects (Policy := Policy) (Auth := Auth) (with_context g None)) as (-> & _). reflexivity.
  - cbn. by rewrite Hv, Hu.
Qed.
End accounts.

(** ** Attempts and the routing runtime *)

Section bounded.
Context {D V T Policy Auth P : Type} `{DecimalOps D, JsonOps V, UtcOps T, Chrono T, JT : JsonText, UP : UsagePlugin P, UC : UnicodeCase, HT : HeaderText, HL : HeaderLib, PL : PatchLib, RR : ResponseReader}.
Context (display : Z → string) (transform_error : TransformApplyError → string) (contract : RequestPolicyContract).
Context (transforms_of : Policy → TransformPlan).
Abbreviation Route := (SelectedRoute (D := D) (V := V) (T := T) (Policy := Policy) (Auth := Auth)).
Context (env : Environment (D := D) (V := V) (T := T) (Policy := Policy) (Auth := Auth) (P := P)) (q : ClientRequest).
Context (outbound_fingerprint : Policy → digest) (any_key : gmap AffinityCacheKey AffinityEntry → option AffinityCacheKey).
Context (snapshot : RoutingSnapshot (D := D) (V := V) (T := T) (Policy := Policy) (Auth := Auth)) (key : CompiledApiKey D T).
Context (protocol : RequestProtocol.t) (session : option SessionAffinityMatch).

(** Every selection is made by the routing runtime in some reachable state. *)
Definition routed_by_runtime : Prop :=
  ∀ n excluded, ∃ inner leases lookup_now now inner',
    rreachable outbound_fingerprint any_key (D := D) (V := V) (T := T) (Auth := Auth) (inner, leases)
    ∧ select_operation_with_affinity_excluding outbound_fingerprint lookup_now now inner snapshot key q.(cq_operation) protocol
        q.(cq_model) session excluded = Some (inner', en_select env n excluded).

Definition candidate_slots (rule : CompiledModelRule D V T Policy Auth) : list nat :=
  candidate_slot <$> flat_map candidates rule.(tiers).

(** A route to a candidate of the rule that the key may use. *)
Definition granted_route (rule : CompiledModelRule D V T Policy Auth) (r : Route) : Prop :=
  ∃ tier c, tier ∈ rule.(tiers) ∧ c ∈ tier.(candidates) ∧ r.(sr_channel) = c.(channel) ∧ r.(sr_upstream_model) = c.(upstream_model)
    ∧ r.(sr_candidate_slot) = c.(candidate_slot) ∧ permits_route_candidate key c.(channel_slot) = true
    ∧ capability_permits (capability_for_operation q.(cq_operation) protocol) c.(channel) = true.

Lemma granted_route_slot rule r : granted_route rule r → r.(sr_candidate_slot) ∈ candidate_slots rule.
Proof.
  intros (tier & c & Ht & Hc & _ & _ & -> & _). apply list_elem_of_fmap_2. apply list_elem_of_In, in_flat_map.
  exists tier. by rewrite <- !list_elem_of_In.
Qed.

Lemma runtime_answers rule :
  operation_rule snapshot q.(cq_operation) q.(cq_model) = Some rule → Forall tier_ok rule.(tiers) → routed_by_runtime →
  answers_within env (candidate_slots rule) (granted_route rule).
Proof.
  intros Hrule Hok Hrt n excluded r Hsel. destruct (Hrt n excluded) as (inner & leases & lookup_now & now & inner' & Hreach & Hrun).
  unfold select_operation_with_affinity_excluding in Hrun.
  destruct (select_cases outbound_fingerprint any_key inner leases lookup_now now snapshot key q.(cq_operation) q.(cq_model) session excluded
    (capability_for_operation q.(cq_operation) protocol) Hreach) as (inner2 & r2 & Hrun2 & Hr2); [by intros ? [= <-]%(eq_trans (eq_sym Hrule))|].
  rewrite Hrun in Hrun2. injection Hrun2 as _ <-. rewrite Hsel in Hr2.
  destruct Hr2 as (rule' & before & tier & after & c & Hrule' & _ & Htiers & _ & Hc & Hel & _ & Hch & Hum & Hslot & _).
  rewrite Hrule in Hrule'. injection Hrule' as <-. unfold eligible, allowed in Hel. breflect.
  assert (granted_route rule r) as Hg.
  { exists tier, c. split_and!; try done. rewrite Htiers. set_solver. }
  split_and!; [by apply granted_route_slot|by rewrite Hslot|done].
Qed.

(** C5: attempts end, and stay within what the client's key and the settings
    allow.  With a published rule and a routing runtime in any reachable states,
    the loop returns an answer within one turn per candidate of the rule; it sends
    at most one request per allowed attempt (the retries of the settings and one
    more), each to another candidate, and each to a candidate of the rule that
    the key may use and that has the capability the operation needs. *)
Theorem attempts_bounded rule s adm c unset :
  operation_rule snapshot q.(cq_operation) q.(cq_model) = Some rule → Forall tier_ok rule.(tiers) → routed_by_runtime →
  0 ≤ env.(en_retry).(retry_max) → holding s adm c → s.(lp_attempt) = 1 → s.(lp_slots) = slots_new unset → granted_route rule s.(lp_route) →
  ∃ es answer, attempts display transform_error contract transforms_of env q (length (candidate_slots rule)) s = Some (es, answer)
    ∧ Z.of_nat (length (sent es)) ≤ max_retries env.(en_retry) + 1
    ∧ NoDup (sr_candidate_slot <$> sent es) ∧ Forall (granted_route rule) (sent es).
Proof.
  intros Hrule Hok Hrt Hmax Hho Hatt Hslots Hg. destruct (slots_new_ok unset) as [Hso Hsl].
  assert (0 ≤ max_retries (en_retry env)) as Hm0 by (unfold max_retries; by destruct (retry_enabled _)).
  assert (proceeds env (candidate_slots rule) (granted_route rule) s) as Hp.
  { split; rewrite ?Hslots, ?Hsl; [done|constructor|set_solver|by apply granted_route_slot|set_solver| |done].
    rewrite Hatt. unfold max_attempts, sat_add, u32_max. lia. }
  destruct (attempts_routes display transform_error contract transforms_of env q (candidate_slots rule) (granted_route rule)
    (length (candidate_slots rule)) s adm c (runtime_answers rule Hrule Hok Hrt) Hho Hp) as (es & answer & Hrun & Hcount & Hnd & Hall); [lia|].
  exists es, answer. split_and!; [done| |done|].
  - rewrite Hatt in Hcount. unfold max_attempts, sat_add in Hcount. lia.
  - eapply Forall_impl; [exact Hall|]. by intros r [? _].
Qed.
End bounded.
