(* ===== verification/Intake.v ===== *)
(** * From a client request to its attempts

    Models the parts of [src/application/proxy.rs] before the attempt loop:
    the bearer token, the content coding and the reading of a JSON body, the
    probe for model, streaming and log labels, the session affinity of a
    request, the events of requests without a route, and
    [proxy_authenticated_parts] as a whole for JSON bodies.  Reading the body,
    [zstd], the derived deserialiser of the probe, regular expressions and
    SHA-256 are third-party code and arguments. *)

From S2P Require Import Prelude Text Decimal Domain Records Billing Cost Json Journal Usage ErrorText Sse SseFrames JsonScan Collector Headers JsonPatch Plans Transform SseTransform RequestPolicy Outbound ImageBody ImageEdit Spool Compiled Admission Health Selection Affinity Routing Keyword Outcome Completion Adapter Relay Respond Attempts.
Open Scope gateway_scope.

(** ** The bearer token *)

Definition space : Ascii.ascii := Ascii.ascii_of_N 32.
(** [split_once(' ')] *)
Fixpoint split_once (sep : Ascii.ascii) (s : str) : option (str * str) :=
  match s with
  | [] => None
  | c :: s => if Ascii.eqb c sep then Some ([], s) else '(a, b) ← split_once sep s; Some (c :: a, b)
  end.
(** [chars().any(char::is_whitespace)] *)
Fixpoint has_whitespace (s : str) : bool :=
  match s with [] => false | _ :: s' => (0 <? leading_whitespace s)%nat || has_whitespace s' end.

Definition parse_bearer_token `{HeaderText, HeaderLib} (headers : HeaderMap) : result str ProxyError :=
  value <-! ok_or (head (get_all headers "authorization")) invalid_api_key;
  text <-! ok_or (header_to_str value) invalid_api_key;
  parts <-! ok_or (split_once space (bytes_of text)) invalid_api_key;
  if negb (is_text "bearer" parts.1) || match parts.2 with [] => true | _ => false end || has_whitespace parts.2
  then Err invalid_api_key else Ok parts.2.

(** ** Reading a JSON body *)

Inductive JsonRequestBodyError := TooLarge | UnreadableBody | UnsupportedEncoding | InvalidContentEncoding.
Definition body_proxy_error (e : JsonRequestBodyError) : ProxyError :=
  match e with
  | TooLarge => payload_too_large
  | UnreadableBody => invalid_request "Request body could not be read." "body"
  | UnsupportedEncoding => request_content_encoding_unsupported
  | InvalidContentEncoding => request_content_encoding_invalid
  end.

Inductive ClientRequestContentCoding := ClientIdentity | ClientZstd.

(** The trimmed tokens of all values, none of them empty. *)
Definition coding_tokens `{HeaderText} (values : list str) : option (list str) :=
  foldl (λ acc value, tokens ← acc; text ← header_to_str value;
           let new := trim <$> split_on comma (bytes_of text) in
           if existsb (λ t, match t with [] => true | _ => false end) new then None else Some (tokens ++ new)) (Some []) values.

Definition parse_client_request_content_coding `{HeaderText, HeaderLib} (operation : ApiOperation.t) (headers : HeaderMap)
    : result ClientRequestContentCoding JsonRequestBodyError :=
  tokens <-! ok_or (coding_tokens (get_all headers "content-encoding")) UnsupportedEncoding;
  match tokens with
  | [] => Ok ClientIdentity
  | [token] =>
      if bool_decide (token = bytes_of "identity") then Ok ClientIdentity
      else if bool_decide (token = bytes_of "zstd") && bool_decide (operation = ApiOperation.Responses) then Ok ClientZstd
      else Err UnsupportedEncoding
  | _ => Err UnsupportedEncoding
  end.

(** [collect limit]: [to_bytes], whose error says whether the limit was hit;
    [zstd_read data n]: the first [n] bytes of the decoded data. *)
Definition read_bounded_json_body (collect : Z → result str bool) (max_bytes : Z) : result str JsonRequestBodyError :=
  lift_error (λ limit : bool, if limit then TooLarge else UnreadableBody) (collect max_bytes).
Definition read_json_request_body `{HeaderText, HeaderLib} (zstd_read : str → Z → option str) (collect : Z → result str bool)
    (max_bytes : Z) (operation : ApiOperation.t) (headers : HeaderMap) : result (str * bool) JsonRequestBodyError :=
  coding <-! parse_client_request_content_coding operation headers;
  match coding with
  | ClientIdentity => body <-! read_bounded_json_body collect max_bytes; Ok (body, false)
  | ClientZstd =>
      encoded <-! read_bounded_json_body collect max_bytes;
      decoded <-! ok_or (zstd_read encoded (max_bytes + 1)) InvalidContentEncoding;
      if max_bytes <? Z.of_nat (length decoded) then Err TooLarge else Ok (decoded, true)
  end.

(** ** The probe *)

Record RequestProbe := {
  probe_model : string;
  probe_stream : bool;
  probe_reasoning_effort : Json;
  probe_reasoning : Json;
  probe_service_tier : Json;
}.
Record RequestLogMetadata := { reasoning_effort : option string; fast_mode : bool }.
Record ParsedRequest := { parsed_model : string; log_metadata : RequestLogMetadata; parsed_protocol : RequestProtocol.t }.

Definition MAX_LABEL_CHARS : Z := 32.
Definition label_char (c : Ascii.ascii) : bool := is_ascii_alphanumeric c || (byte c =? 95) || (byte c =? 45).
Definition normalized_request_label (value : Json) : option string :=
  text ← as_str value;
  let text := trim (bytes_of text) in
  if negb (match text with [] => true | _ => false end) && (chars_count text <=? MAX_LABEL_CHARS) && forallb label_char text
  then Some (string_of (to_ascii_lowercase <$> text)) else None.

Definition request_log_metadata (format : ApiFormat.t) (effort reasoning service_tier : Json) : RequestLogMetadata :=
  let top_level := normalized_request_label effort in
  let nested := value_get reasoning "effort" ≫= normalized_request_label in
  {| reasoning_effort := match format with
                         | ApiFormat.OpenAiChatCompletions => or top_level nested
                         | ApiFormat.OpenAiResponses => or nested top_level
                         | ApiFormat.OpenAiImages => None
                         end;
     fast_mode := negb (bool_decide (format = ApiFormat.OpenAiImages))
                  && bool_decide (normalized_request_label service_tier = Some "priority") |}.

(** [probe]: [from_slice::<RequestProbe>] *)
Definition parse_request (probe : str → option RequestProbe) (operation : ApiOperation.t) (body : str) (filter_fast_mode : bool)
    : result ParsedRequest ProxyError :=
  p <-! ok_or (probe body) (invalid_request "Request body must contain a string model." "model");
  if match trim (bytes_of p.(probe_model)) with [] => true | _ => false end
  then Err (invalid_request "Request body must contain a non-empty model." "model")
  else if 300 <? chars_count (bytes_of p.(probe_model)) then Err (invalid_request "Request model exceeds the supported length." "model")
  else if ApiOperation.is_images operation && p.(probe_stream)
  then Err (invalid_request_with_code "Image API streaming is not supported yet." "stream" "image_streaming_unsupported")
  else Ok {| parsed_model := p.(probe_model);
             log_metadata := request_log_metadata (ApiOperation.api_format operation) p.(probe_reasoning_effort) p.(probe_reasoning)
                               (if filter_fast_mode then JNull else p.(probe_service_tier));
             parsed_protocol := RequestProtocol.from_http_streamed p.(probe_stream) |}.

(** ** Session affinity *)

Inductive SessionAffinityKeySource := RequestHeader (name : string) | BodyPointer (pointer : string).
(** The patterns are the matchers of compiled regular expressions. *)
Record SessionAffinityRule := {
  sa_name : string;
  sa_fingerprint : N;
  sa_api_formats : list ApiFormat.t;
  sa_model_regex : list (string → bool);
  sa_key_sources : list SessionAffinityKeySource;
  sa_value_regex : option (string → bool);
  sa_ttl : Z;
}.
Record SessionAffinitySettings := { sas_enabled : bool; sas_rules : list SessionAffinityRule }.

Definition matches_request (r : SessionAffinityRule) (format : ApiFormat.t) (model : string) : bool :=
  bool_decide (format ∈ r.(sa_api_formats))
  && (match r.(sa_model_regex) with [] => true | _ => false end || existsb (λ p, p model) r.(sa_model_regex)).
Definition matches_value (r : SessionAffinityRule) (value : string) : bool :=
  match r.(sa_value_regex) with None => true | Some p => p value end.

Definition MAX_SESSION_AFFINITY_VALUE_BYTES : Z := 512.
Definition nonempty (s : str) : option string := match s with [] => None | _ => Some (string_of s) end.

Section affinity.
Context `{JT : JsonText, HT : HeaderText, HL : HeaderLib, PL : PatchLib} (sha256 : string → N).

Definition session_affinity_scalar (value : Json) : option string :=
  match value with
  | JString s => nonempty (trim (bytes_of s))
  | JNumber n => Some (string_of (number_text n))
  | JBool b => Some (if b then "true" else "false")
  | _ => None
  end.
(** The value a source yields; [parsed] is the parsed body. *)
Definition source_value (headers : HeaderMap) (parsed : option Json) (s : SessionAffinityKeySource) : option string :=
  match s with
  | RequestHeader name => value ← head (get_all headers name); text ← header_to_str value; nonempty (trim (bytes_of text))
  | BodyPointer pointer => value ← parsed; found ← value_pointer value pointer; session_affinity_scalar found
  end.
Definition accepts_value (r : SessionAffinityRule) (value : string) : bool :=
  negb (String.eqb value "") && (Z.of_nat (String.length value) <=? MAX_SESSION_AFFINITY_VALUE_BYTES) && matches_value r value.
Definition rule_match (headers : HeaderMap) (parsed : option Json) (r : SessionAffinityRule) : option SessionAffinityMatch :=
  value ← head (List.filter (accepts_value r) (omap (source_value headers parsed) r.(sa_key_sources)));
  Some {| match_rule_name := r.(sa_name); match_rule_fingerprint := r.(sa_fingerprint); match_session_hash := sha256 value;
          match_ttl := r.(sa_ttl) |}.
Definition match_session_affinity (settings : SessionAffinitySettings) (format : ApiFormat.t) (model : string) (headers : HeaderMap)
    (body : str) : option SessionAffinityMatch :=
  if negb settings.(sas_enabled) then None
  else head (omap (λ r, if matches_request r format model then rule_match headers (from_slice body) r else None) settings.(sas_rules)).
End affinity.

(** ** The handler *)

Section handler.
Context {D V T Policy Auth P : Type} `{DecimalOps D, JsonOps V, UtcOps T, Chrono T, JT : JsonText, RJ : RawJson, UP : UsagePlugin P, UC : UnicodeCase, HT : HeaderText, HL : HeaderLib, PL : PatchLib, RR : ResponseReader}.
Context (display : Z → string) (transform_error : TransformApplyError → string) (contract : RequestPolicyContract).
Context (transforms_of : Policy → TransformPlan).
Context (probe : str → option RequestProbe) (sha256 : string → N) (zstd_read : str → Z → option str) (value_of : str → option V).
Context (max_request_body_bytes : Z).

Abbreviation Eff := (Effect (D := D) (V := V) (T := T) (Policy := Policy) (Auth := Auth)).
Abbreviation Ans := (Answer (D := D) (V := V) (T := T) (P := P)).
Abbreviation Rule := (CompiledModelRule D V T Policy Auth).
Abbreviation Key := (CompiledApiKey D T).
Abbreviation Env := (Environment (D := D) (V := V) (T := T) (Policy := Policy) (Auth := Auth) (P := P)).

(** A request, authenticated, with a JSON body. *)
Record Incoming := {
  ic_operation : ApiOperation.t;
  ic_headers : HeaderMap;
  ic_collect : Z → result str bool;
  ic_source : RequestLogSource;
  ic_started_at : T;
  ic_event_id : uuid;                 (** [Uuid::new_v4] of its event *)
  ic_settings : SessionAffinitySettings;
}.

(** What the client's request amounts to before a route is selected. *)
Record Accepted := { ac_request : ClientRequest; ac_parsed : ParsedRequest; ac_session : option SessionAffinityMatch }.

(** [None] is the panic of an operation without a policy. *)
Definition accept_request (key : Key) (i : Incoming) : option (result Accepted ProxyError) :=
  match read <-! lift_error body_proxy_error (read_json_request_body zstd_read i.(ic_collect) max_request_body_bytes i.(ic_operation) i.(ic_headers));
        parsed <-! parse_request probe i.(ic_operation) read.1 key.(filter_fast_mode);
        Ok (read, parsed) with
  | Err e => Some (Err e)
  | Ok (read, parsed) =>
      let interface := for_http i.(ic_operation) in
      policed ← apply_json_body_policy contract interface read.1;
      Some (policed <-! lift_error request_policy_error policed;
            filtered <-! lift_error request_policy_error
                           (apply_client_fast_mode_filter interface policed.(applied_body) key.(filter_fast_mode));
            headers <-! lift_error request_policy_error (filter_client_headers contract interface i.(ic_headers));
            Ok {| ac_request := {| cq_operation := i.(ic_operation); cq_model := parsed.(parsed_model); cq_headers := headers;
                                   cq_body := filtered.(applied_body);
                                   cq_body_changed := policed.(applied_changed) || filtered.(applied_changed) || read.2 |};
                  ac_parsed := parsed;
                  ac_session := match_session_affinity sha256 i.(ic_settings) (ApiOperation.api_format i.(ic_operation)) parsed.(parsed_model)
                                  headers filtered.(applied_body) |})
  end.

(** The event of a request that got no route. *)
Definition unrouted_event (key : Key) (i : Incoming) (p : ParsedRequest) (t : Readings) (rule : option Rule)
    (outcome : RequestLogOutcome) (error : ProxyError) : RequestLogEvent D T :=
  {| ev_id := i.(ic_event_id); ev_started_at := i.(ic_started_at); ev_completed_at := completed_at i.(ic_started_at) t.(at_completed);
     ev_user_id := key.(key_user_id); ev_api_key_id := key.(key_id); ev_request_source := i.(ic_source);
     ev_api_format := ApiOperation.api_format i.(ic_operation); ev_api_operation := i.(ic_operation);
     ev_request_protocol := p.(parsed_protocol); ev_client_model := p.(parsed_model);
     ev_reasoning_effort := p.(log_metadata).(reasoning_effort); ev_fast_mode := p.(log_metadata).(fast_mode);
     ev_upstream_model := None; ev_model_rule_id := rule_id <$> rule; ev_channel_group_id := None; ev_channel_id := None;
     ev_upstream_credential := Some {| Journal.credential_id := None |}; ev_model_id := model_id <$> rule; ev_outcome := outcome;
     ev_response_status_code := Some error.(pe_status); ev_streamed := RequestProtocol.is_streamed p.(parsed_protocol); ev_ttft_ms := None;
     ev_total_duration_ms := clamp_duration_ms t.(at_total); ev_billing := None; ev_error_code := error.(pe_code);
     ev_error_summary := text_string <$> (request_log_details error).(err_summary) |}.

Definition request_context (key : Key) (i : Incoming) (p : ParsedRequest) : RequestContext (T := T) :=
  {| cx_event_id := i.(ic_event_id); cx_user_id := key.(key_user_id); cx_api_key_id := key.(key_id); cx_client_model := p.(parsed_model);
     cx_reasoning_effort := p.(log_metadata).(reasoning_effort); cx_fast_mode := p.(log_metadata).(fast_mode);
     cx_api_format := ApiOperation.api_format i.(ic_operation); cx_api_operation := i.(ic_operation); cx_request_source := i.(ic_source);
     cx_request_protocol := p.(parsed_protocol); cx_started_wall_at := i.(ic_started_at) |}.

(** The environment with the value of the accepted body. *)
Definition with_body_value (env : Env) (v : option V) : Env :=
  {| en_select := env.(en_select); en_prepare := env.(en_prepare); en_send := env.(en_send); en_clock := env.(en_clock); en_zstd := env.(en_zstd);
     en_resolved := env.(en_resolved); en_service := env.(en_service); en_disable := env.(en_disable); en_retry := env.(en_retry);
     en_body_value := v |}.

(** A selected route: its guard, the durable intent, and the attempts.  [logged]
    is the answer of the request log, [unset] the slot an empty array is filled
    with, [fuel] the turns allowed. *)
Definition dispatch (fuel : nat) (unset : nat) (logged : bool) (env : Env) (key : Key) (i : Incoming) (a : Accepted) (adm : AdmissionLease)
    (route : SelectedRoute (D := D) (V := V) (T := T) (Policy := Policy) (Auth := Auth)) : option (list Eff * Ans) :=
  match billing_multiplier env route.(sr_rule) with
  | None => Some ([SelectRoute route; OnLease Dropped route.(sr_lease); DropAdmission adm], AnswerPanicked)
  | Some multiplier =>
      let g := new_guard (request_context key i a.(ac_parsed)) route.(sr_rule) route.(sr_channel) route.(sr_upstream_model) route.(sr_lease) adm
                 env.(en_service) env.(en_disable) route.(sr_session_affinity) multiplier in
      let '(es, (g, ok)) := admit_request_log logged g in
      if (ok : bool) then
        m ← attempts display transform_error contract transforms_of env a.(ac_request) fuel
              {| lp_turn := 0; lp_route := route; lp_attempt := 1; lp_slots := slots_new unset; lp_guard := g |};
        Some (SelectRoute route :: es ++ m.1, m.2)
      else Some (SelectRoute route :: es ++ drop_guard display (env.(en_clock) 0%nat) g, Refused request_log_unavailable)
  end.

Definition admission_error (e : AdmissionError) : ProxyError :=
  match e with RateLimited after => rate_limited after | ConcurrentLimited => concurrent_limited | InsufficientQuota => insufficient_quota end.

(** [proxy_authenticated_parts] for a JSON body.  [admitted] is the answer of the
    admission runtime and [first] that of the first selection. *)
Definition proxy_authenticated_parts (fuel : nat) (unset : nat) (now : T) (admitted : AdmitOutcome)
    (first : option SessionAffinityMatch → SelectionResult (D := D) (V := V) (T := T) (Policy := Policy) (Auth := Auth)) (logged : bool)
    (env : Env) (key : Key) (i : Incoming) : option (list Eff * Ans) :=
  if negb (permits now key (ApiOperation.api_format i.(ic_operation)) Proxy)
  then Some ([], Refused (forbidden "This API key cannot proxy requests in this API format."))
  else
    match admitted with
    | Denied e => Some ([], Refused (admission_error e))
    | Admission.Panicked => Some ([], AnswerPanicked)
    | Granted adm =>
        match accept_request key i with
        | None => Some ([DropAdmission adm], AnswerPanicked)
        | Some (Err e) => Some ([DropAdmission adm], Refused e)
        | Some (Ok a) =>
            let t := env.(en_clock) 0%nat in
            match first a.(ac_session) with
            | Selected route => dispatch fuel unset logged (with_body_value env (value_of a.(ac_request).(cq_body))) key i a adm route
            | UnknownOrInaccessibleModel =>
                let e := unknown_model a.(ac_parsed).(parsed_model) in
                Some ([RecordEvent (unrouted_event key i a.(ac_parsed) t None Rejected e); DropAdmission adm], Refused e)
            | NoHealthyChannel rule =>
                Some ([RecordEvent (unrouted_event key i a.(ac_parsed) t (Some rule) Failed no_healthy_channel); DropAdmission adm],
                      Refused no_healthy_channel)
            end
        end
    end.
End handler.

(** ** The life of a request *)

Section lifecycle.
Context {D V T Policy Auth P : Type} `{DecimalOps D, JsonOps V, UtcOps T, Chrono T, JT : JsonText, RJ : RawJson, UP : UsagePlugin P, UC : UnicodeCase, HT : HeaderText, HL : HeaderLib, PL : PatchLib, RR : ResponseReader}.
Context (display : Z → string) (transform_error : TransformApplyError → string) (contract : RequestPolicyContract).
Context (transforms_of : Policy → TransformPlan).
Context (probe : str → option RequestProbe) (sha256 : string → N) (zstd_read : str → Z → option str) (value_of : str → option V).
Context (max_request_body_bytes : Z).
Abbreviation Eff := (Effect (D := D) (V := V) (T := T) (Policy := Policy) (Auth := Auth)).
Abbreviation Ans := (Answer (D := D) (V := V) (T := T) (P := P)).
Abbreviation Env := (Environment (D := D) (V := V) (T := T) (Policy := Policy) (Auth := Auth) (P := P)).
Implicit Types (es : list Eff) (answer : Ans) (key : CompiledApiKey D T).

(** The status of an event against what the client received. *)
Definition event_status_agrees answer (e : RequestLogEvent D T) : Prop :=
  match answer with
  | Answered r => e.(ev_response_status_code) = Some r.(cr_status)
  | Refused err =>
      e.(ev_response_status_code) = Some err.(pe_status)
      ∨ e.(ev_response_status_code) = Some 502
        ∧ ((∃ reason, err = connector_unavailable reason ∨ err = sticky_connector_unavailable reason) ∨ ∃ x, err = connector_attempt x)
  | AnswerPanicked => True
  end.

(** The effects of a whole request with the admission [adm]. *)
Record lives (adm : option AdmissionLease) (logged : bool) (id : uuid) key es answer : Prop := {
  lv_admission : closed es = option_list adm;
  lv_leases : dropped es ≡ₚ sr_lease <$> selected es;
  lv_events : (length (recorded es) ≤ 1)%nat;
  lv_event : ∀ e, e ∈ recorded es → e.(ev_id) = id ∧ e.(ev_api_key_id) = key.(key_id) ∧ event_status_agrees answer e;
  lv_sent : logged = false → sent es = [];
}.

Lemma closes_lives route adm key (request : RequestContext (T := T)) es answer :
  closes display route adm request es answer → request.(cx_api_key_id) = key.(key_id) →
  lives (Some adm) true request.(cx_event_id) key (SelectRoute route :: es) answer.
Proof.
  intros [Hl Ha (t & o & c & Hq & Hst & _ & Hrec)] Hkey.
  change (dropped (SelectRoute route :: es)) with (dropped es). split; [done|exact Hl| |
    |done].
  - change (length (recorded es) ≤ 1)%nat. destruct (context_billing t o c); rewrite Hrec; simpl; lia.
  - intros e He. change (e ∈ recorded es) in He. destruct (context_billing t o c) as [b|]; rewrite Hrec in He; [|by apply elem_of_nil in He].
    apply list_elem_of_singleton in He as ->. cbn. rewrite Hq. split_and!; [done|done|]. by destruct answer.
Qed.

Lemma lives_now adm logged id key es answer :
  lives adm logged id key es answer → not_streaming answer → ∀ polls clock, lives adm logged id key (served display transform_error polls clock (es, answer)) answer.
Proof. intros Hl Hn polls clock. by rewrite served_now. Qed.

(** A request that ends before a route: its event, if it has one, and its
    admission. *)
Lemma unrouted_lives adm logged key i (p : ParsedRequest) t (rule : option (CompiledModelRule D V T Policy Auth)) outcome err :
  lives (Some adm) logged i.(ic_event_id) key [RecordEvent (unrouted_event key i p t rule outcome err); DropAdmission adm] (Refused err).
Proof.
  split; [done|done|done| |done]. intros e He%list_elem_of_singleton. subst e. split_and!; [done|done|by left].
Qed.
Lemma unlogged_lives adm logged id key answer : lives (Some adm) logged id key [DropAdmission adm] answer.
Proof. split; [done|done|simpl; lia|by intros e ?%elem_of_nil|done]. Qed.

Lemma dispatch_lives polls clock fuel unset logged (env : Env) key i a adm route es answer :
  dispatch display transform_error contract transforms_of fuel unset logged env key i a adm route = Some (es, answer) →
  lives (Some adm) logged i.(ic_event_id) key (served display transform_error polls clock (es, answer)) answer.
Proof.
  unfold dispatch. destruct (billing_multiplier env (sr_rule route)) as [m|].
  - unfold admit_request_log. cbn [new_guard g_context]. destruct logged.
    + set (s := {| lp_turn := 0%nat |}). match goal with |- context [AdmitIntent ?x] => set (intent := x) end. intros Hm. apply bind_Some in Hm as (m' & Hrun & [= <- <-]).
      pose proof (attempts_close display transform_error contract transforms_of env a.(ac_request) polls clock fuel s adm _ m'
        ltac:(split; [reflexivity|by exists m|done|done|done]) Hrun) as Hc.
      apply (closes_before display _ _ _ [AdmitIntent intent]) in Hc; [|done..].
      apply (closes_lives _ _ key) in Hc; [|done]. unfold served in *. cbn [fst snd] in *. exact Hc.
    + cbn [with_context]. intros [= <- <-]. apply lives_now; [|done].
      rewrite drop_over by done. split; [done|done|simpl; lia|by intros e ?%elem_of_nil|done].
  - intros [= <- <-]. apply lives_now; [|done]. split; [done|done|simpl; lia|by intros e ?%elem_of_nil|done].
Qed.

End lifecycle.
