(* ===== verification/Models.v ===== *)
(** * Authentication and the model list

    Models [authenticate_api_key_in_snapshot] and [list_models] of
    [src/application/proxy.rs] and [authenticate] and [models_for] of
    [src/domain/compiled_routing.rs], and composes them with publication and
    selection: the list of a key is exactly what its row grants, and a listed
    model can be requested. *)

From S2P Require Import Prelude Text Decimal Domain Records Billing Cost Json ErrorText Headers ImageEdit Compiled Health Selection Affinity Routing Publish Authorization Gateway Outcome Intake.
Open Scope gateway_scope.

(** [ApiFormat::ALL] *)
Definition all_formats : list ApiFormat.t := [ApiFormat.OpenAiChatCompletions; ApiFormat.OpenAiResponses; ApiFormat.OpenAiImages].

(** [Vec::dedup] *)
Fixpoint dedup (l : list string) : list string :=
  match l with
  | x :: (y :: _) as rest => if String.eqb x y then dedup rest else x :: dedup rest
  | _ => l
  end.
(** [sort_unstable] and [dedup]; also the elements of a [BTreeSet] in order. *)
Definition sort_dedup (l : list string) : list string := dedup (merge_sort String.le l).

Section models.
Context {D V T Policy Auth : Type} `{DecimalOps D, JsonOps V, UtcOps T, HT : HeaderText, HL : HeaderLib}.
Context (hash_secret : string → digest) (now : T).
Abbreviation Rule := (CompiledModelRule D V T Policy Auth).
Abbreviation Key := (CompiledApiKey D T).
Abbreviation Snapshot := (RoutingSnapshot (D := D) (V := V) (T := T) (Policy := Policy) (Auth := Auth)).
Implicit Types (s : Snapshot) (key : Key) (rule : Rule).

Definition authenticate (keys : gmap digest Key) (secret : str) : option Key :=
  key ← keys !! hash_secret (string_of secret); if is_expired now key then None else Some key.
Definition authenticate_api_key_in_snapshot (keys : gmap digest Key) (headers : HeaderMap) : result Key ProxyError :=
  client_key <-! parse_bearer_token headers; ok_or (authenticate keys client_key) invalid_api_key.

(** [CompiledModelRoutes::values] *)
Definition rule_values s : list Rule := flat_map (λ m : gmap string Rule, snd <$> map_to_list m) (snd <$> map_to_list s.(snapshot_rules)).
Definition permits_model_capable_route key rule : bool :=
  model_capable_candidates_intersect rule key.(authorization).(allowed_channel_slots).
Definition reads_models key (format : ApiFormat.t) : bool := permits now key format Proxy && permits now key format ModelsRead.
Definition models_for s key (format : ApiFormat.t) : list string :=
  if negb (reads_models key format) then []
  else sort_dedup (client_model <$> List.filter (λ rule, bool_decide (ApiOperation.api_format rule.(api_operation) = format)
         && permits_route key rule.(route_slot) && permits_model_capable_route key rule) (rule_values s)).

Definition cannot_list : ProxyError := forbidden "This API key cannot list models in any API format.".
(** The ids of a [ModelsResponse]. *)
Definition list_models s (keys : gmap digest Key) (headers : HeaderMap) : result (list string) ProxyError :=
  key <-! authenticate_api_key_in_snapshot keys headers;
  if negb (existsb (reads_models key) all_formats) then Err cannot_list
  else Ok (sort_dedup (flat_map (models_for s key) all_formats)).
End models.

(** ** Sorted lists *)

Lemma dedup_cons x y l : dedup (x :: y :: l) = if String.eqb x y then dedup (y :: l) else x :: dedup (y :: l).
Proof. done. Qed.
Lemma elem_of_dedup x l : x ∈ dedup l ↔ x ∈ l.
Proof.
  induction l as [|y [|z l] IH]; [done..|]. rewrite dedup_cons. destruct (String.eqb_spec y z) as [->|_]; rewrite ?elem_of_cons, IH, ?elem_of_cons; naive_solver.
Qed.
Lemma elem_of_sort_dedup x l : x ∈ sort_dedup l ↔ x ∈ l.
Proof. unfold sort_dedup. by rewrite elem_of_dedup, merge_sort_Permutation. Qed.
(** The result is strictly increasing. *)
Lemma sort_dedup_sorted l : StronglySorted (strict String.le) (sort_dedup l).
Proof.
  unfold sort_dedup. pose proof (StronglySorted_merge_sort String.le l) as Hs. induction Hs as [|x l' Hs IH Hx]; [constructor|].
  destruct l' as [|y l']; [repeat constructor|]. rewrite dedup_cons. destruct (String.eqb_spec x y) as [->|Hne]; [done|]. constructor; [done|].
  apply Forall_forall. intros z Hz. rewrite elem_of_dedup in Hz. rewrite Forall_forall in Hx. split; [exact (Hx z Hz)|]. intros Hzx. apply Hne. clear IH.
  apply (anti_symm String.le); [apply Hx; by left|]. apply StronglySorted_inv in Hs as [_ Hy]. rewrite Forall_forall in Hy.
  apply elem_of_cons in Hz as [->|Hz]; [done|]. by apply (transitivity (R := String.le) (y := z)); [apply Hy|].
Qed.

(** ** The list of a key *)

Section listed.
Context {D V T Policy Auth : Type} `{DecimalOps D, JsonOps V, UtcOps T, HT : HeaderText, HL : HeaderLib}.
Context (from_value : V → option (AdvancedBilling D V)) (sha256 : list Z → digest)
  (hash_secret : string → digest) (outbound_fingerprint : Policy → digest).
Context (any_key : gmap AffinityCacheKey AffinityEntry → option AffinityCacheKey).
Context (rules : list (ModelRuleRecord D V T)) (keys : list (ApiKeyRecord D T)).
Context (groups : gmap uuid ChannelGroupRecord) (all_channels : gmap uuid (ChannelRecord D V)).
Context (channels : gmap uuid (CompiledChannel D Policy Auth)) (now : T).
Abbreviation Snapshot := (RoutingSnapshot (D := D) (V := V) (T := T) (Policy := Policy) (Auth := Auth)).
Implicit Types (s : Snapshot) (key : CompiledApiKey D T) (rule : CompiledModelRule D V T Policy Auth)
  (cr : CompiledRules (D := D) (V := V) (T := T) (Policy := Policy) (Auth := Auth)).

Lemma elem_of_rule_values s rule : rule ∈ rule_values s ↔ ∃ o model, operation_rule s o model = Some rule.
Proof.
  unfold rule_values, operation_rule, routes_get. rewrite list_elem_of_In, in_flat_map. setoid_rewrite <- list_elem_of_In. split.
  - intros (m & Hm & Hr). apply list_elem_of_fmap in Hm as ([o m'] & -> & Hm%elem_of_map_to_list).
    apply list_elem_of_fmap in Hr as ([model r] & -> & Hr%elem_of_map_to_list). exists o, model. by rewrite Hm.
  - intros (o & model & (m & Hm & Hr)%bind_Some). exists m. split; [apply (list_elem_of_fmap_2 snd _ (o, m))|apply (list_elem_of_fmap_2 snd _ (model, rule))];
      by apply elem_of_map_to_list.
Qed.

Lemma elem_of_listed s key m :
  m ∈ sort_dedup (flat_map (models_for now s key) all_formats)
  ↔ ∃ o model rule, operation_rule s o model = Some rule ∧ rule.(client_model) = m
    ∧ reads_models now key (ApiOperation.api_format rule.(api_operation)) = true ∧ permits_route key rule.(route_slot) = true
    ∧ permits_model_capable_route key rule = true.
Proof.
  rewrite elem_of_sort_dedup, list_elem_of_In, in_flat_map. setoid_rewrite <- list_elem_of_In. unfold models_for. split.
  - intros (f & _ & Hm). destruct (reads_models now key f) eqn:Hf; cbn [negb] in Hm; [|by apply elem_of_nil in Hm].
    rewrite elem_of_sort_dedup in Hm. apply list_elem_of_fmap in Hm as (rule & -> & Hr). apply list_elem_of_In, filter_In in Hr as [Hr Hp].
    apply list_elem_of_In, elem_of_rule_values in Hr as (o & model & Hr). breflect. exists o, model, rule. by subst f.
  - intros (o & model & rule & Hr & <- & Hf & Hp & Hc). exists (ApiOperation.api_format rule.(api_operation)). split.
    + destruct (ApiOperation.api_format _); set_solver.
    + rewrite Hf. cbn [negb]. rewrite elem_of_sort_dedup. apply list_elem_of_fmap_2, list_elem_of_In, filter_In. split.
      * by apply list_elem_of_In, elem_of_rule_values; eauto.
      * rewrite Hp, Hc, bool_decide_true by done. done.
Qed.

(** A key may use a rule with a candidate that offers the model and is granted
    to the key; a rule that is usable only because nothing offers its model is
    not listed. *)
Lemma capable_route_exact cr by_group kr key k rule rr :
  channels_by_group_of all_channels = Ok by_group → cr.(model_rules) !! k = Some rule →
  rule_published groups all_channels (channel_slots_of all_channels) channels rr rule →
  key_published (channel_slots_of all_channels) by_group cr kr key →
  (permits_route key rule.(route_slot) = true ∧ permits_model_capable_route key rule = true)
  ↔ ∃ rt rc, rt ∈ rr.(mr_routing_tiers) ∧ rc ∈ rt.(rt_candidates) ∧ grants all_channels kr (Records.rc_channel_id rc)
      ∧ capable all_channels rc = true.
Proof.
  intros Hgroup Hk Hpub Hp. rewrite (kp_routes _ _ _ _ _ Hp _ _ Hk).
  change (authorization_candidates_intersect rule) with (words_intersect (authorization_words rule)).
  unfold permits_model_capable_route, model_capable_candidates_intersect. destruct (rp_words _ _ _ _ _ _ Hpub) as [_ Hw].
  transitivity (words_intersect rule.(model_capable_candidates) key.(authorization).(allowed_channel_slots) = true).
  { split; [tauto|]. intros Hi. split; [|done]. unfold authorization_words.
    rewrite (proj2 (words_nonzero _ Hw)); [done|]. apply words_intersect_spec in Hi as (s & Hs & _); [eauto|done|apply Hp]. }
  rewrite words_intersect_spec by (done || apply Hp).
  assert (∀ n, bit_is_set key.(authorization).(allowed_channel_slots) n = true ↔ slot_in _ (granted by_group kr) n)
    as Hallowed by apply Hp.
  setoid_rewrite (rp_capable _ _ _ _ _ _ Hpub). setoid_rewrite Hallowed. unfold slot_in.
  setoid_rewrite (granted_grants _ _ _ _ Hgroup). setoid_rewrite elem_of_ids_of. split.
  - intros (s & (id & (rt & rc & ? & ? & ? & <-) & Hs) & id' & Hg & Hs').
    rewrite <- (channel_slots_inj _ _ _ _ Hs Hs') in Hg. eauto 10.
  - intros (rt & rc & Hrt & Hrc & Hg & Hcap).
    destruct (rp_slots _ _ _ _ _ _ Hpub (Records.rc_channel_id rc)) as [s Hs]; [apply elem_of_ids_of; eauto 10|].
    exists s. split; eexists; (split; [|exact Hs]); [by eauto 10|done].
Qed.

Lemma parse_bearer_token_err headers e : parse_bearer_token headers = Err e → e = invalid_api_key.
Proof.
  unfold parse_bearer_token. destruct (head _) as [value|]; cbn; [|congruence]. destruct (header_to_str value) as [text|]; cbn; [|congruence].
  destruct (split_once _ _); cbn; [|congruence]. case_match; congruence.
Qed.

(** A rule that a key may use is never unknown to it. *)
Lemma permitted_rule_known cr settings key inner leases lookup_now now' o m rule session excluded cap :
  rules_ok groups all_channels (channel_slots_of all_channels) channels rules cr →
  rreachable outbound_fingerprint any_key (D := D) (V := V) (T := T) (Auth := Auth) (inner, leases) →
  operation_rule (snapshot_of channels cr settings) o m = Some rule → permits_route key rule.(route_slot) = true →
  ∃ inner' r, select_with_affinity_excluding_capability outbound_fingerprint lookup_now now' inner (snapshot_of channels cr settings)
                key o m session excluded cap = Some (inner', r) ∧ r ≠ UnknownOrInaccessibleModel.
Proof.
  intros Hrules Hreach Hrule Hp.
  destruct (select_cases outbound_fingerprint any_key inner leases lookup_now now' (snapshot_of channels cr settings)
    key o m session excluded cap Hreach) as (inner' & r & Hs & Hr).
  { intros rule' Hr'%snapshot_rule. destruct (ro_sound _ _ _ _ _ _ Hrules _ _ Hr') as (rr & _ & _ & Hpub).
    eapply Forall_impl; [apply (rp_tiers _ _ _ _ _ _ Hpub)|]. intros t [rt Hrt].
    eapply tier_published_ok; [apply (rp_valid _ _ _ _ _ _ Hpub)|exact Hrt]. }
  exists inner', r. split; [done|]. intros ->. destruct Hr as [_ Hr]. by rewrite (Hr _ Hrule) in Hp.
Qed.

(** The listed models of a published key, as rows. *)
Lemma elem_of_listed_rows cr settings by_group kr key m :
  rules_ok groups all_channels (channel_slots_of all_channels) channels rules cr → channels_by_group_of all_channels = Ok by_group →
  key_published (channel_slots_of all_channels) by_group cr kr key →
  m ∈ sort_dedup (flat_map (models_for now (snapshot_of channels cr settings) key) all_formats)
  ↔ ∃ rr rt rc, rr ∈ rules ∧ rr.(mr_client_model) = m ∧ rr.(mr_enabled) = true ∧ rr.(mr_model_enabled) = true
      ∧ reads_models now key (ApiOperation.api_format rr.(mr_api_operation)) = true
      ∧ rt ∈ rr.(mr_routing_tiers) ∧ rc ∈ rt.(rt_candidates) ∧ grants all_channels kr (Records.rc_channel_id rc)
      ∧ capable all_channels rc = true.
Proof.
  intros Hrules Hgroup Hp. rewrite elem_of_listed. split.
  - intros (o & model & rule & Hr%snapshot_rule & Hm & Hf & Hroute).
    destruct (ro_sound _ _ _ _ _ _ Hrules _ _ Hr) as (rr & Hrr & _ & Hpub). destruct (rp_key _ _ _ _ _ _ Hpub) as [Ho Hc].
    destruct (rp_enabled _ _ _ _ _ _ Hpub).
    destruct (proj1 (capable_route_exact _ _ _ _ _ _ _ Hgroup Hr Hpub Hp) Hroute) as (rt & rc & Hcand).
    exists rr, rt, rc. rewrite <- Ho, <- Hc. tauto.
  - intros (rr & rt & rc & Hrr & <- & He & Hme & Hf & Hcand). destruct (ro_complete _ _ _ _ _ _ Hrules _ Hrr He Hme) as (rule & Hr & Hpub).
    destruct (rp_key _ _ _ _ _ _ Hpub) as [Ho Hc]. exists (mr_api_operation rr), (mr_client_model rr), rule.
    rewrite Ho. split_and!; [unfold operation_rule; simpl; by rewrite routes_get_from_flat|done|done|..];
      apply (capable_route_exact _ _ _ _ _ _ _ Hgroup Hr Hpub Hp); eauto.
Qed.

(** C22: the model list of a key.  A request is refused as unauthenticated exactly
    when it has no bearer token of a published key that has not expired, and as
    forbidden exactly when the key may not both use and list any format.  Else
    the list is strictly increasing and has exactly the models of enabled rules,
    in a format the key may use and list, that a channel granted to the key
    offers; and in any runtime a request of the key for a listed model is not
    answered as unknown for the operation of the rule. *)
Theorem listed_models_exact cr ks settings headers
    (Hkeyed : ∀ id c, channels !! id = Some c → c.(channel_id) = id)
    (Hrun : compile_routing from_value sha256 hash_secret rules keys groups all_channels channels = Ok (cr, ks)) :
  let authenticated key := ∃ token, parse_bearer_token headers = Ok token ∧ ks !! hash_secret (string_of token) = Some key
    ∧ is_expired now key = false in
  match list_models hash_secret now (snapshot_of channels cr settings) ks headers with
  | Err e => (e = invalid_api_key ∧ ∀ key, ¬ authenticated key)
             ∨ (e = cannot_list ∧ ∃ key, authenticated key ∧ ∀ format, reads_models now key format = false)
  | Ok models => StronglySorted (strict String.le) models ∧
      ∃ key kr, authenticated key ∧ kr ∈ keys ∧ key.(key_id) = kr.(ak_id) ∧ kr.(ak_status) = "active"
      ∧ (∀ m, m ∈ models ↔ ∃ rr rt rc, rr ∈ rules ∧ rr.(mr_client_model) = m ∧ rr.(mr_enabled) = true ∧ rr.(mr_model_enabled) = true
           ∧ reads_models now key (ApiOperation.api_format rr.(mr_api_operation)) = true
           ∧ rt ∈ rr.(mr_routing_tiers) ∧ rc ∈ rt.(rt_candidates) ∧ grants all_channels kr (Records.rc_channel_id rc)
           ∧ capable all_channels rc = true)
      ∧ ∀ m, m ∈ models → ∃ operation, ∀ inner leases lookup_now now' session excluded cap,
          rreachable outbound_fingerprint any_key (D := D) (V := V) (T := T) (Auth := Auth) (inner, leases) →
          ∃ inner' r, select_with_affinity_excluding_capability outbound_fingerprint lookup_now now' inner (snapshot_of channels cr settings)
                        key operation m session excluded cap = Some (inner', r) ∧ r ≠ UnknownOrInaccessibleModel
  end.
Proof.
  intros authenticated. apply compile_routing_parts in Hrun as (Hrules & by_group & a & Hgroup & Ha & Hkeys); [|done].
  unfold list_models, authenticate_api_key_in_snapshot, authenticate. destruct (parse_bearer_token headers) as [token|e] eqn:Htoken.
  2:{ left. split; [|by intros key (? & ? & _); congruence]. by eapply parse_bearer_token_err. }
  cbn [result_bind]. destruct (ks !! hash_secret (string_of token)) as [key|] eqn:Hkey; cbn -[existsb all_formats sort_dedup flat_map].
  2:{ left. split; [done|]. intros key (t & [= <-] & ? & _). congruence. }
  destruct (is_expired now key) eqn:Hexp; cbn -[existsb all_formats sort_dedup flat_map].
  { left. split; [done|]. intros key' (t & [= <-] & ? & ?). congruence. }
  assert (authenticated key) as Hauth by (by exists token).
  destruct (existsb (reads_models now key) all_formats) eqn:Hany; cbn [negb].
  2:{ right. split; [done|]. exists key. split; [done|]. intros f. apply not_true_is_false. intros Hf.
      rewrite (proj2 (existsb_exists _ _)) in Hany; [done|]. exists f. split; [destruct f; simpl; tauto|done]. }
  split; [apply sort_dedup_sorted|]. rewrite <- Ha in Hkey. destruct (ko_sound _ _ _ _ _ _ Hkeys _ _ Hkey) as (kr & Hkr & _ & Hp).
  exists key, kr. destruct (kp_active _ _ _ _ _ Hp), (kp_ids _ _ _ _ _ Hp). split_and!; [done..| |].
  - intros m. by eapply elem_of_listed_rows.
  - intros m (o & model & rule & Hr & Hm & _ & Hroute & _)%elem_of_listed. exists o. intros.
    pose proof (snapshot_rule _ _ _ _ _ _ Hr) as Hr'. destruct (ro_sound _ _ _ _ _ _ Hrules _ _ Hr') as (rr & _ & [= _ ->] & Hpub).
    destruct (rp_key _ _ _ _ _ _ Hpub) as [_ Hc]. rewrite <- Hm, Hc. by eapply permitted_rule_known.
Qed.
End listed.
