(* ===== verification/ProxyExamples.v ===== *)
(** * Executions of a proxied request

    A request of the routing example with scripted connectors and upstreams, and
    the witnesses of the properties of keywords, adapters, bodies, answers,
    attempts and whole requests. *)

From S2P Require Import Prelude Text Decimal Domain Records Billing Cost Json Journal Usage ErrorText Sse SseFrames JsonScan Collector Headers JsonPatch Plans Transform Envelope SseTransform TransformExamples RequestPolicy Outbound OutboundExamples ImageBody ImageEdit Spool Compiled Admission Health Selection Affinity Routing Publish Authorization Gateway Keyword Outcome Completion Adapter Relay Delivery Respond Attempts Intake Models.
Open Scope gateway_scope.

(** ** Keywords *)

(** ASCII letters; a character has at most four bytes. *)
#[export] Instance ascii_case : UnicodeCase := {
  to_lower c := [take 4 (to_ascii_lowercase <$> c)];
  Cased c := match c with [b] => is_ascii_alphanumeric b | _ => false end;
  Case_Ignorable _ := false;
}.
#[export] Instance ascii_case_laws : UnicodeCaseLaws.
Proof. split. intros c d Hd%list_elem_of_singleton. subst d. rewrite length_take. lia. Qed.

Definition keyword : text := chars (bytes_of "Quota").
Definition error_chunks : list str := [bytes_of "{'error':'insufficient QU"; bytes_of "OTA'}"].
Definition matcher : ErrorKeywordMatcher :=
  match new_keyword_matcher true [keyword] with
  | Some m => m
  | None => {| keywords := []; rolling := []; rolling_limit := 0; carry := []; remaining_bytes := 0 |}
  end.
Lemma matcher_new : new_keyword_matcher true [keyword] = Some matcher.
Proof. reflexivity. Qed.
Lemma error_chunks_short : take ERROR_KEYWORD_SCAN_LIMIT_BYTES (concat error_chunks) = concat error_chunks.
Proof.
  apply take_ge. transitivity 64%nat; [apply Nat.leb_le; reflexivity|].
  apply Nat2Z.inj_le. unfold ERROR_KEYWORD_SCAN_LIMIT_BYTES. rewrite Z2Nat.id; lia.
Qed.

(** The keyword is found across the two chunks. *)
Lemma keyword_search_exact_witness :
  match (keyword_observe_all error_chunks matcher).2 with
  | Some k => k ∈ [keyword] ∧ occurs (to_lowercase k) (to_lowercase (valid_chars (concat error_chunks))) = true
  | None => ∀ k, k ∈ [keyword] → occurs (to_lowercase k) (to_lowercase (valid_chars (concat error_chunks))) = false
  end.
Proof.
  rewrite <- error_chunks_short.
  apply (keyword_search_exact true [keyword] matcher error_chunks matcher_new).
  - apply Forall_singleton. discriminate.
  - rewrite error_chunks_short. apply (bool_decide_eq_false_1 _). reflexivity.
Defined.

(** ** Adapters *)

Definition eol : str := [EOL].
Definition chunk_event : ResponseEvent := {| re_event := Some "delta"; re_data := folded_text; re_id := Some "7" |}.
Definition chunk_frame : str := match encode_event chunk_event with Ok f => f | Err _ => [] end.

(** An event with two lines of data. *)
Lemma event_round_trip_witness : decode_event chunk_frame = Ok (Some chunk_event).
Proof.
  apply (event_round_trip chunk_event chunk_frame).
  - split; [reflexivity|]. split; intros s Hs; injection Hs as <-; reflexivity.
  - reflexivity.
Defined.

(** A plugin that answers with the event it was given. *)
#[export] Instance echo_plugin : UsagePlugin unit := {
  plugin_call _ command metadata body :=
    Some (JObject [("data", JString (string_of body)); ("event", default JNull (value_get metadata "event"));
                   ("id", default JNull (value_get metadata "id")); ("phase", default JNull (value_get metadata "phase"))], []);
  output_from_value _ := None;
}.
Definition member_text (v : Json) (name : string) : option string := x ← value_get v name; as_str x.
Definition valid_text (s : option string) : bool :=
  match s with Some s => utf8_valid (length (bytes_of s)) (bytes_of s) | None => true end.
#[export] Instance echo_reader : ResponseReader := {
  output_of_value v :=
    let event := member_text v "event" in let id := member_text v "id" in let data := default "" (member_text v "data") in
    if valid_text event && valid_text id && valid_text (Some data)
    then Some {| ro_state := JObject [];
                 ro_events := if bool_decide (member_text v "phase" = Some "event")
                              then [{| re_event := event; re_data := bytes_of data; re_id := id |}] else [] |}
    else None;
}.
#[export] Instance echo_reader_laws : ResponseReaderLaws.
Proof.
  split. intros v o e. cbn [output_of_value echo_reader].
  destruct (valid_text (member_text v "event")) eqn:E1, (valid_text (member_text v "id")) eqn:E2,
    (valid_text (Some (default "" (member_text v "data")))) eqn:E3; try done. intros [= <-]. cbn [ro_events].
  destruct (bool_decide _); [|by intros ?%elem_of_nil]. intros He%list_elem_of_singleton. subst e.
  split; [exact E3|]. split; cbn [re_event re_id]; intros s Hs; [rewrite Hs in E1; exact E1|rewrite Hs in E2; exact E2].
Qed.

Definition chat_adapter : SseResponseAdapter (P := unit) :=
  new_adapter {| ra_plugin := tt; ra_operation := ApiOperation.ChatCompletions; ra_mode := ModeSse |} 200 ApiFormat.OpenAiChatCompletions.
Definition adapted : adaptation (SseResponseAdapter (P := unit) * list str) := adapt_frame chunk_frame chat_adapter.
Definition adapts (r : adaptation (SseResponseAdapter (P := unit) * list str)) : bool :=
  match r with Ok (_, [f]) => bool_decide (f = chunk_frame) | _ => false end.
Lemma adapted_same : adapts adapted = true.
Proof. vm_cast_no_check (eq_refl true). Qed.

Lemma adapted_events_safe_witness : ∃ a' frames, adapt_frame chunk_frame chat_adapter = Ok (a', frames) ∧ length frames = 1%nat ∧ chat_adapter.(sa_finished) = false.
Proof.
  pose proof adapted_same as Ha. unfold adapts, adapted in Ha. destruct (adapt_frame chunk_frame chat_adapter) as [[a' frames]|] eqn:Hrun; [|discriminate Ha].
  destruct (adapted_events_safe chat_adapter a' chunk_frame frames Hrun) as [Hf _].
  exists a', frames. split; [reflexivity|]. split; [|exact Hf]. destruct frames as [|f [|]]; [discriminate Ha|reflexivity|discriminate Ha].
Defined.

(** ** A response body *)

#[export] Instance minutes_chrono : Chrono Z := {
  from_std d := Some d;
  checked_add_signed t d := Some (t + d / 60000000000);
}.

Definition show (z : Z) : string := if z =? 502 then "502" else "0".
Definition show_error (e : TransformApplyError) : string := "transform".
Definition reading (n : nat) : Readings := {| at_first_byte := 1000000; at_total := 2000000; at_completed := 3000000 |}.
Definition admission : AdmissionLease := AdmissionExample.lease.
Definition no_disabling : AutomaticDisableSettings := {| disable_enabled := false; error_status_codes := []; error_message_keywords := [] |}.

Definition example_request : RequestContext (T := Z) :=
  {| cx_event_id := 90%N; cx_user_id := 52%N; cx_api_key_id := 51%N; cx_client_model := "model"; cx_reasoning_effort := None;
     cx_fast_mode := false; cx_api_format := ApiFormat.OpenAiResponses; cx_api_operation := ApiOperation.Responses;
     cx_request_source := Client; cx_request_protocol := RequestProtocol.from_http_streamed true; cx_started_wall_at := 100 |}.
(** The route is bound to its session. *)
Abbreviation bound_route := RoutingExample.route2.
Definition example_guard : CompletionGuard (D := Z) (V := string) (T := Z) (P := unit) :=
  new_guard example_request bound_route.(sr_rule) bound_route.(sr_channel) bound_route.(sr_upstream_model) bound_route.(sr_lease) admission
    true no_disabling bound_route.(sr_session_affinity) 1.

Abbreviation Stream := (StreamState (D := Z) (V := string) (T := Z) (P := unit)).
Abbreviation Events := (list (Effect (D := Z) (V := string) (T := Z) (Policy := unit) (Auth := unit))).

(** Two chunks of a body of eleven bytes. *)
Definition plain_stream : Stream :=
  {| ss_upstream := Some [UpChunk (bytes_of "hello "); UpChunk (bytes_of "world")]; ss_completion := example_guard; ss_succeeded := true;
     ss_remaining := Some 11; ss_transformer := None; ss_adapter := None; ss_patches := SseResponses []; ss_frames := []; ss_terminal := None |}.
(** An adapted stream that breaks. *)
Definition broken_stream : Stream :=
  {| ss_upstream := Some [UpChunk (take 5 chunk_frame); UpChunk (drop 5 chunk_frame); UpIdle]; ss_completion := example_guard; ss_succeeded := true;
     ss_remaining := None; ss_transformer := Some (new_transformer (SseChatCompletions [])); ss_adapter := Some chat_adapter;
     ss_patches := SseChatCompletions []; ss_frames := []; ss_terminal := None |}.

Lemma plain_coherent_stream : coherent plain_stream.
Proof. split; [by intros [? ?]|by intros [? ?]|done]. Qed.
Lemma broken_coherent_stream : coherent broken_stream.
Proof. split; [done|by intros _; eexists|done]. Qed.

Lemma poll_terminates_witness :
  ∃ es r, poll show show_error (Policy := unit) (Auth := unit) (S (turns_left broken_stream)) (reading 0) broken_stream = Some (es, r)
    ∧ ∀ st', r ≠ Ok (Again st').
Proof. apply poll_terminates. apply Nat.lt_succ_diag_r. Defined.

Lemma relay_settles_witness :
  settles_kept show (justified true (whole_body (Some 11) (Some [UpChunk (bytes_of "hello "); UpChunk (bytes_of "world")]))) example_guard
    (relay show show_error (Policy := unit) (Auth := unit) 9 reading plain_stream).2
  ∧ settles_kept show (justified true (whole_body None broken_stream.(ss_upstream))) example_guard
    (relay show show_error (Policy := unit) (Auth := unit) 9 reading broken_stream).2.
Proof.
  split.
  - apply (relay_settles show show_error 9 reading plain_stream). apply plain_coherent_stream.
  - apply (relay_settles show show_error 9 reading broken_stream). apply broken_coherent_stream.
Defined.

(** What the two bodies amount to. *)
Definition logged_outcomes (es : Events) : list RequestLogOutcome := ev_outcome <$> recorded es.
Definition plain_run := relay show show_error (Policy := unit) (Auth := unit) 9 reading plain_stream.
Definition broken_run := relay show show_error (Policy := unit) (Auth := unit) 9 reading broken_stream.
Definition runs_as_told : bool :=
  match plain_run, broken_run with
  | (out, Finished, es), (out', Broken StreamIdle, es') =>
      bool_decide (concat out = bytes_of "hello world") && bool_decide (out' = [chunk_frame])
      && match logged_outcomes es, logged_outcomes es' with [Succeeded], [Failed] => true | _, _ => false end
  | _, _ => false
  end.
Lemma runs_as_told_holds : runs_as_told = true.
Proof. vm_cast_no_check (eq_refl true). Qed.

Lemma body_delivered_exact_witness :
  delivers 9 ([bytes_of "hello "; bytes_of "world"], Finished) (relay show show_error (Policy := unit) (Auth := unit) 9 reading plain_stream).1.
Proof.
  apply (body_delivered_exact show show_error None [UpChunk (bytes_of "hello "); UpChunk (bytes_of "world")] plain_stream 9 reading);
    reflexivity.
Defined.

(** ** An answer *)

Definition upstream_headers : HeaderMap :=
  [("content-type", bytes_of "text/plain"); ("content-length", bytes_of "11"); ("connection", bytes_of "x-hop"); ("x-hop", bytes_of "1");
   ("x-request", bytes_of "r")].
Definition upstream_response (status : Z) : UpstreamResponse :=
  {| ur_status := status; ur_headers := upstream_headers; ur_content_length := Some 11;
     ur_body := λ _, [UpChunk (bytes_of "hello "); UpChunk (bytes_of "world")] |}.
Definition example_context : CompletionContext (D := Z) (V := string) (T := Z) (P := unit) :=
  match example_guard.(g_context) with Some c => c | None =>
    {| cx_request := example_request; cx_route := route_context bound_route.(sr_rule) bound_route.(sr_channel) "" None 1;
       cx_attempt := fresh_attempt ApiFormat.OpenAiResponses; cx_attempts := 1 |} end.
Lemma example_guard_context : example_guard.(g_context) = Some example_context.
Proof. reflexivity. Qed.

Lemma response_accounted_witness :
  let m := response_from_upstream (Policy := unit) (Auth := unit) show show_error gateway_contract (reading 0) (upstream_response 200) false [] (SseResponses []) None
             example_guard in
  settles show (accounted true m.2) example_guard (served show show_error 9 reading m).
Proof.
  apply (response_accounted show show_error gateway_contract 9 reading (reading 0) (upstream_response 200) false [] (SseResponses []) None
           example_guard example_context); reflexivity.
Defined.

Definition forwarded_headers : HeaderMap :=
  match answer_headers gateway_contract [] false false false upstream_headers with Ok h => h | Err _ => [] end.
(** The length stays, the connection's own headers do not. *)
Lemma answer_headers_exact_witness :
  get_all forwarded_headers "content-length" = [bytes_of "11"] ∧ get_all forwarded_headers "x-hop" = []
  ∧ ∀ n, get_all forwarded_headers n
    = if answer_drops false false upstream_headers n then [] else if false && String.eqb "content-type" n then [bytes_of "text/event-stream"]
      else if is_protected_header n ResponseScope then get_all upstream_headers n
      else get_all (apply_response_header_plan upstream_headers []).1 n.
Proof.
  split; [reflexivity|]. split; [reflexivity|].
  apply (answer_headers_exact gateway_contract [] false false false upstream_headers forwarded_headers). reflexivity.
Defined.

(** ** Attempts *)

Definition builtin : UpstreamAttempt (P := unit) := openai_compatible ApiOperation.Responses (AuthBearer "secret") (Ok "https://api.example/v1/responses").
Definition no_transforms (p : unit) : TransformPlan := noop ApiFormat.OpenAiResponses.
Definition capability := capability_for_operation ApiOperation.Responses (RequestProtocol.from_http_streamed true).
(** Every selection is made in the runtime just after publication. *)
Definition select_now (excluded : list nat) : SelectionResult (D := Z) (V := string) (T := Z) (Policy := unit) (Auth := unit) :=
  match select_operation_with_affinity_excluding RoutingExample.policy_digest 10 10 RoutingExample.inner0 RoutingExample.snapshot RoutingExample.key
          ApiOperation.Responses (RequestProtocol.from_http_streamed true) "model" (Some RoutingExample.session) excluded with
  | Some (_, r) => r
  | None => UnknownOrInaccessibleModel
  end.
(** The first upstream fails with a status that is retried. *)
Definition example_environment (prepared : result (UpstreamAttempt (P := unit)) ConnectorUnavailable)
    : Environment (D := Z) (V := string) (T := Z) (Policy := unit) (Auth := unit) (P := unit) :=
  {| en_select := λ _, select_now; en_prepare := λ _ _ _, prepared;
     en_send := λ n, match n with O => Received (upstream_response 503) | _ => Received (upstream_response 200) end;
     en_clock := reading; en_zstd := λ b, Some b; en_resolved := λ _, true; en_service := true; en_disable := no_disabling;
     en_retry := {| retry_enabled := true; retry_max := 2; retryable_status_codes := [503] |}; en_body_value := Some "high" |}.
Definition client_request : ClientRequest :=
  {| cq_operation := ApiOperation.Responses; cq_model := "model"; cq_headers := [("accept", bytes_of "*/*")]; cq_body := bytes_of "{patched}";
     cq_body_changed := false |}.
Definition loop_start : LoopState (D := Z) (V := string) (T := Z) (Policy := unit) (Auth := unit) (P := unit) :=
  {| lp_turn := 0; lp_route := bound_route; lp_attempt := 1; lp_slots := slots_new 0; lp_guard := example_guard |}.
Lemma loop_start_holding : holding loop_start admission example_context.
Proof. split; [reflexivity|by exists 1|done|reflexivity|reflexivity]. Qed.

Definition example_attempts (prepared : result (UpstreamAttempt (P := unit)) ConnectorUnavailable) (fuel : nat) :=
  attempts show show_error gateway_contract no_transforms (example_environment prepared) client_request fuel loop_start.

(** The second attempt goes to the other channel, and its response is the
    client's. *)
Definition retried : bool :=
  match example_attempts (Ok builtin) 2 with
  | Some (es, Answered r) =>
      bool_decide (sr_candidate_slot <$> sent es = [0; 1]%nat) && (r.(cr_status) =? 200)
      && bool_decide (length (dropped (served show show_error 9 reading (es, Answered r))) = 2%nat)
      && bool_decide (ev_response_status_code <$> recorded (served show show_error 9 reading (es, Answered r)) = [Some 200])
  | _ => false
  end.
Lemma retried_holds : retried = true.
Proof. vm_cast_no_check (eq_refl true). Qed.


Lemma selections_by_runtime prepared :
  routed_by_runtime (example_environment prepared) client_request RoutingExample.policy_digest AffinityExample.no_key RoutingExample.snapshot
    RoutingExample.key (RequestProtocol.from_http_streamed true) (Some RoutingExample.session).
Proof.
  intros n excluded.
  destruct (select_cases RoutingExample.policy_digest AffinityExample.no_key RoutingExample.inner0 [] 10 10 RoutingExample.snapshot RoutingExample.key
    ApiOperation.Responses "model" (Some RoutingExample.session) excluded capability RoutingExample.reached0
    (RoutingExample.rules_ok ApiOperation.Responses "model")) as (inner' & r & Hs & _).
  exists RoutingExample.inner0, [], 10, 10, inner'. split; [exact RoutingExample.reached0|].
  change (en_select (example_environment prepared) n excluded) with (select_now excluded).
  unfold select_now, select_operation_with_affinity_excluding in *. cbn [cq_operation cq_model client_request].
  fold capability. by rewrite Hs.
Qed.
Lemma bound_route_granted : granted_route client_request RoutingExample.key (RequestProtocol.from_http_streamed true) RoutingExample.rule bound_route.
Proof.
  exists RoutingExample.tier, (RoutingExample.cand 0 31 false). split_and!; [by left|by left|..]; vm_compute; reflexivity.
Qed.

Lemma attempts_bounded_witness :
  ∃ es answer, example_attempts (Ok builtin) 2 = Some (es, answer) ∧ Z.of_nat (length (sent es)) ≤ 3
    ∧ NoDup (sr_candidate_slot <$> sent es).
Proof.
  destruct (attempts_bounded show show_error gateway_contract no_transforms (example_environment (Ok builtin)) client_request
    RoutingExample.policy_digest AffinityExample.no_key RoutingExample.snapshot RoutingExample.key (RequestProtocol.from_http_streamed true)
    (Some RoutingExample.session) RoutingExample.rule loop_start admission example_context 0 RoutingExample.rule_found
    (RoutingExample.rules_ok ApiOperation.Responses "model" _ RoutingExample.rule_found) (selections_by_runtime (Ok builtin)) ltac:(discriminate)
    loop_start_holding eq_refl eq_refl bound_route_granted) as (es & answer & Hrun & Hcount & Hnd & _).
  exists es, answer. split; [exact Hrun|]. split; [exact Hcount|exact Hnd].
Defined.

Definition missing_billing : bool :=
  let attempt := set_details (Some (request_log_details (sticky_connector_unavailable ConnectorMissing)))
                   (set_preserve true example_context.(cx_attempt)) in
  match context_billing (reading 0) OutUpstreamUnavailable (with_attempt example_context attempt) with Some _ => true | None => false end.
Lemma missing_billing_holds : missing_billing = true.
Proof. vm_cast_no_check (eq_refl true). Qed.
(** The session's channel has no connector: 503 for the client, 502 in the log. *)
Lemma unavailable_connector_misreported_witness :
  ∃ es e, example_attempts (Err ConnectorMissing) 1 = Some (es, Refused (sticky_connector_unavailable ConnectorMissing))
    ∧ recorded es = [e] ∧ e.(ev_response_status_code) = Some 502.
Proof.
  pose proof missing_billing_holds as Hb. unfold missing_billing in Hb.
  destruct (context_billing _ _ _) as [b|] eqn:Hbill; [|discriminate Hb].
  destruct (unavailable_connector_misreported show show_error gateway_contract no_transforms (example_environment (Err ConnectorMissing))
    client_request 0 loop_start admission example_context ConnectorMissing b loop_start_holding ltac:(vm_compute; reflexivity) eq_refl Hbill)
    as (es & e & Hrun & _ & He & H502).
  exists es, e. split; [exact Hrun|]. split; [exact He|exact H502].
Defined.

(** ** A whole request *)

Definition proxy_key : CompiledApiKey Z Z :=
  {| key_id := 51%N; key_user_id := 52%N; websocket_enabled := true; filter_fast_mode := false;
     allowed_api_formats := [ApiFormat.OpenAiResponses]; permissions := [Proxy]; authorization := authorization RoutingExample.key;
     Compiled.expires_at := None; requests_per_minute := None; max_concurrent_requests := None; quota_limit_amount := None;
     quota_used_amount := 0 |}.
Definition incoming : Incoming (T := Z) :=
  {| ic_operation := ApiOperation.Responses; ic_headers := [("accept", bytes_of "*/*"); ("authorization", bytes_of "Bearer k")];
     ic_collect := λ _, Ok body_text; ic_source := Client; ic_started_at := 100; ic_event_id := 90%N;
     ic_settings := {| sas_enabled := false; sas_rules := [] |} |}.
Definition example_probe (body : str) : option RequestProbe :=
  Some {| probe_model := "model"; probe_stream := true; probe_reasoning_effort := JNull; probe_reasoning := JNull; probe_service_tier := JNull |}.
Definition example_run :=
  proxy_authenticated_parts show show_error gateway_contract no_transforms example_probe (λ _, 7%N) (λ b _, Some b) (λ _, Some "high") 1000
    2 0 100 (Granted admission) (λ _, Selected bound_route) true (example_environment (Ok builtin)) proxy_key incoming.
(** The whole request: two sends, then the response. *)
Definition answered : bool :=
  match example_run with
  | Some (es, Answered r) => bool_decide (sr_candidate_slot <$> sent es = [0; 1]%nat) && (r.(cr_status) =? 200)
  | _ => false
  end.
Lemma answered_holds : answered = true.
Proof. vm_cast_no_check (eq_refl true). Qed.


(** ** A model list *)

Module ListExample.
Import PublishExample.
Definition reader : ApiKeyRecord Z Z :=
  let k := key 51 "a" "active" [1%N] [] in
  {| ak_id := k.(ak_id); ak_user_id := k.(ak_user_id); ak_user_status := k.(ak_user_status);
     ak_user_websocket_enabled := k.(ak_user_websocket_enabled); ak_user_filter_fast_mode := k.(ak_user_filter_fast_mode);
     ak_secret_value := k.(ak_secret_value); ak_status := k.(ak_status); ak_expires_at := k.(ak_expires_at);
     ak_allowed_api_formats := k.(ak_allowed_api_formats); ak_permissions := ["proxy"; "models.read"];
     ak_allowed_group_ids := k.(ak_allowed_group_ids); ak_allowed_channel_ids := k.(ak_allowed_channel_ids);
     ak_requests_per_minute := k.(ak_requests_per_minute); ak_max_concurrent_requests := k.(ak_max_concurrent_requests);
     ak_quota_limit_amount := k.(ak_quota_limit_amount); ak_quota_used_amount := k.(ak_quota_used_amount) |}.
Definition listing := compile_routing CostExample.parse_policy digest_of secret_hash [rule] [reader] groups all_channels channels.
Definition listed : CompiledRules * gmap digest (CompiledApiKey Z Z) :=
  match listing with Ok p => p | Err _ => ({| model_rules := ∅; routes_by_channel_slot := [] |}, ∅) end.
Definition bearer : HeaderMap := [("authorization", bytes_of "Bearer a")].
Definition response := list_models secret_hash 100 (snapshot_of channels listed.1 AffinityExample.settings) listed.2 bearer.
Definition lists_the_model : bool :=
  match listing, response with Ok _, Ok models => bool_decide (models = ["model"]) | _, _ => false end.
Lemma lists_the_model_holds : lists_the_model = true.
Proof. vm_cast_no_check (eq_refl true). Qed.
Lemma listing_ok : listing = Ok (listed.1, listed.2).
Proof.
  pose proof lists_the_model_holds as Hl. unfold lists_the_model in Hl. unfold listed.
  destruct listing as [[cr ks]|e]; [reflexivity|discriminate Hl].
Qed.
End ListExample.

Lemma listed_models_exact_witness :
  ∃ models, ListExample.response = Ok models ∧ StronglySorted (strict String.le) models
    ∧ ∃ (key : CompiledApiKey Z Z) kr, kr ∈ [ListExample.reader] ∧ key.(key_id) = kr.(ak_id).
Proof.
  pose proof (listed_models_exact CostExample.parse_policy PublishExample.digest_of PublishExample.secret_hash RoutingExample.policy_digest
    AffinityExample.no_key [PublishExample.rule] [ListExample.reader] PublishExample.groups PublishExample.all_channels PublishExample.channels
    100 ListExample.listed.1 ListExample.listed.2 AffinityExample.settings ListExample.bearer PublishExample.keyed ListExample.listing_ok) as Hx.
  cbv zeta in Hx. change (list_models _ _ _ _ _) with ListExample.response in Hx.
  pose proof ListExample.lists_the_model_holds as Hl. unfold ListExample.lists_the_model in Hl. rewrite ListExample.listing_ok in Hl.
  destruct ListExample.response as [models|e]; [|discriminate Hl]. destruct Hx as (Hs & key & kr & _ & Hkr & Hid & _).
  exists models. split; [reflexivity|]. split; [exact Hs|]. exists key, kr. split; [exact Hkr|exact Hid].
Defined.
